(* ===== verification/_CoqProject ===== *)
-Q . S2P
Prelude.v
Steps.v
Wire.v
GoStrings.v
NetAddr.v
NetAddrSpec.v
Filepath.v
Sha256.v
Sha1.v
Codec.v
Json.v
JsonSpec.v
JsonFuel.v
Rsa.v
Config.v
ConfigSpec.v
Clone.v
UrlLib.v
Identity.v
IdentitySpec.v
GoTime.v
Aws.v
AwsSpec.v
ServiceSpec.v
HttpMock.v
HttpMockSpec.v
LoginSpec.v
Memconn.v
MemconnSpec.v
MemconnRefine.v
Server.v
ServerSpec.v
Lifecycle.v
LifecycleSpec.v
Adapters.v
ConfigFile.v
Scenario.v
Harness.v
HarnessSpec.v
HarnessLogin.v
Conn.v
MySQL.v
MySQLSpec.v
MySQLSession.v
Relay.v
RelaySpec.v
Postgres.v
PostgresSpec.v
PostgresSession.v
PostgresCancel.v
EndToEnd.v
FakeDB.v
FakeDBSpec.v
Witnesses.v
SystemWitnesses.v
HarnessWitnesses.v
