(* ===== verification/Prelude.v ===== *)
(** * db-iam-auth-emulator-proxy: a verification development

    The program emulates, for tests, the IAM authentication of managed databases.
    It serves PostgreSQL and MySQL listeners that accept AWS, Google or Azure
    tokens as passwords, checks them, logs in to a configured upstream with fixed
    credentials and relays the session; it also serves the HTTP endpoints from
    which clients obtain such tokens.

    ** The parts, and where they are modelled

    - Configuration (iamproxy/config.go): [Config] is the record and
      [Config.Validate] as the code runs it, with the maps it fills, and
      [ConfigSpec] says without loops what a validated configuration is; [Clone]
      is [clone] over a store of the arrays that slices view; [ConfigFile] is
      [ParseConfig], [LoadConfig], and the command (cmd/db-iam-auth-emulator-proxy).
    - Identity (iamproxy/identity.go): [Identity] is the token service, Google
      tokens and Azure tokens, [IdentitySpec] their theorems.
    - AWS (iamproxy/aws.go): [Aws] is the canonical query, the signature and
      [validateAWS], with the dispatch [service.Validate] of identity.go; [AwsSpec]
      and [ServiceSpec] are their theorems.
    - HTTP endpoints (iamproxy/http.go): [HttpMock] is every handler and the
      dispatch, as state passing; [HttpMockSpec] shows who is given a token, and
      [LoginSpec] follows credentials to the logins they open.
    - PostgreSQL (iamproxy/postgres.go) and MySQL (iamproxy/mysql.go): [Postgres]
      and [MySQL] are framing, parsers and handlers in the monad of [Conn], which
      records what a handler does as a trace; [PostgresSpec] and [MySQLSpec] are
      about the parsers, [PostgresSession] and [MySQLSession] about whole
      sessions, [EndToEnd] about sessions with the service and the endpoints.
      [PostgresCancel] is the registry of cancel keys that all sessions share: its
      sessions are runs of [servePostgres], whose events interleave, and what a
      run's look at the registry finds is what the registry holds at that moment.
    - Relays ([relay] of iamproxy/server.go, [myRelay] of mysql.go): [Relay] is the
      two goroutines, the session's goroutine and both peers, interleaved;
      [RelaySpec] shows that they end, and what they carry.
    - In-memory connections (iamproxy/memconn.go): [Memconn] is the buffer as
      critical sections of its mutex and a step relation over any number of calls;
      [MemconnSpec] are its theorems, [MemconnRefine] the bounded channel that it
      implements.
    - Emulator (iamproxy/server.go): [Server] is [Start], the certificate, the
      routes and one accept loop; [Lifecycle] is what [serve] starts, the dials
      that wait for an in-memory listener, and the shutdown; [ServerSpec] and
      [LifecycleSpec] are their theorems.
    - Driver adapters (iamproxy/pgxdial, iamproxy/mysqldial): [Adapters].
    - Fake upstream servers (internal/fakedb): [FakeDB] and [FakeDBSpec].
    - The end-to-end harness (internal/e2e) and its command
      (cmd/db-iam-auth-emulator-proxy-e2e): [Scenario] is the static check of
      scenario files, [Harness] the builtins, the loader, the proxy that is
      configured and started, the clean-up and the command, with the containers that
      Docker makes also when a call fails; [HarnessSpec] shows what a run leaves behind, [HarnessLogin] that the proxy lets the harness in.

    They interact as in the code: [Start] validates a configuration and makes the
    service; the accept loops run [servePostgres] and [serveMySQL], which ask
    [service.Validate]; the endpoints write the token maps that it reads; a dial
    meets an accept loop at an in-memory listener; the relay takes over where a
    session's trace has its [PgRelay] or [MyRelay] event; the harness writes a
    configuration for the command and logs in at its listeners.

    ** The standard library

    What the source uses of Go's standard library is written as that library
    computes it: [Prelude] and [Wire] (strings, slices, integers and their
    conversions), [GoStrings], [NetAddr] (net, net/netip), [Filepath]
    (path/filepath), [Codec]
    (encoding/hex, base64), [Json], [UrlLib] (net/url), [GoTime], [Sha256], [Sha1]
    and [Rsa], with their theorems here and in [NetAddrSpec], [JsonSpec] and
    [JsonFuel].
    [Steps] has the lemmas on transition systems that the concurrent parts share.

    ** The conventions

    A Go function that returns an error gives a [res]: a value, an error, or a
    panic, which is an outcome of its own so that its absence is a theorem.  A
    machine integer is a [Z] with its wrap-around written out.  Clocks, random
    bytes, the order in which a map is iterated, unicode tables and the behaviour
    of third-party code (go-mysql's client, pgconn, TLS, the YAML decoder, Docker and
    the Starlark interpreter) are arguments.  State is passed on; goroutines are step relations, and what is
    said of them is said of every interleaving.

    ** The theorems

    - What is accepted: [Validate_correct] for configurations; [validateAWS_iff],
      [validateAzure_iff], [validateGoogle_iff] and [svc_Validate_decides] for
      credentials; [pg_parameters_iff], [myHandshakeResponse_sound] and
      [myHandshakeResponse_roundtrip] for wire messages; [Check_decides] for scenarios.
    - Together: [upstream_login_entitled] goes from any history of requests and any
      bytes of a client to whose credentials the upstream is contacted with.
    - Sessions: [servePostgres_session] and [serveMySQL_session] are refinements of
      a protocol of events, for any behaviour of the client;
      [servePostgres_runs] and [serveMySQL_runs] give whole traces;
      [caps_mismatch_negotiated] shows what the comparison of capabilities decides;
      [cancel_isolated] and [registry_exact] are about all runs together.
    - Tokens: what is issued is accepted ([aws_signed_token_accepted],
      [azure_issued_token_accepted], [google_oauth_login],
      [client_credentials_login], [container_credentials_login]), only where it
      should ([aws_token_bound], [azure_issued_token_confined],
      [managed_identity_token], [login_unambiguous]), and only to those who may
      have it ([imds_credentials_need_token]); every
      history of requests keeps the state well formed ([serve_wf]).
    - Running: [Start_outcome], [command_serves], [dial_reaches],
      [accept_sessions], [dials_answered] and [emulator_stops]; [relay_ends],
      [relay_carries], [myRelay_carries] and, with a backend behind the relay,
      [proxied_commands]; [mem_refines], [mem_stream], [mem_eof] and
      [mem_no_lost_wakeup];
      [clone_independent].
    - The harness: [RunFile_cleans] (what a run has opened is closed, what it can
      leave behind, and when it never returns), [harness_logins], and the lemmas [set_env_run] and [run_Ok].

    [Witnesses], [SystemWitnesses] and [HarnessWitnesses] apply the theorems that
    have hypotheses to concrete configurations and runs.

    ** Bounds and fuel

    The loops whose recursion is not structural take fuel: the startup loop of
    PostgreSQL and the packet loops take the length of the input plus one, of
    which every round consumes at least one byte; the write loop of a buffer takes
    the bytes left plus one.  That this is enough is proved, since a loop
    without fuel panics and the theorems exclude panics.  The JSON parser takes
    twice the length of its text, since a value costs at most two calls for a
    byte; [JsonFuel] shows that more would change nothing.  The check of a scenario
    and its loader take the number of files that can be read plus one and plus two,
    since no chain of loads has a file twice; [Check_decides] and [RunFile_cleans]
    have that bound.
    The step relations have
    no fuel: [emulator_stops] and [relay_ends] are proved with measures.  Packets
    are bounded by 2^20 bytes before a login and 2^24 - 1 behind it, the buffer of
    an in-memory connection by 2^20 bytes, the sessions of an accept loop by 256.

    ** Not modelled

    TLS and X.509 beyond the names of the generated certificate, the parts of
    net/http around the handlers, logging, flag parsing and signals, the YAML
    decoder: they are code that the program calls.  Of the end-to-end harness, the
    Starlark interpreter (a scenario is the tree of its calls), Docker, processes, the
    database drivers and the files: a call carries their answers, the deadline of a
    scenario being what ends a list of answers.  A server's write
    deadline and the deadline of a login are events of a trace, not times: that
    a slow client is cut off is the connection's promise, and [Memconn] has it for
    in-memory ones.  Memory is not bounded. *)
From Stdlib Require Strings.Byte.
From stdpp Require Export gmap strings list sorting.
From Stdlib Require Export ZArith Lia.

(** ** Go strings and byte slices

    A Go string is an immutable sequence of bytes and a [[]byte] that the
    program only reads is one too; both are [gostring].  [lit] turns a source
    literal into one. *)
Abbreviation byte := Byte.byte.
Abbreviation gostring := (list Byte.byte).

Definition lit (s : string) : gostring := String.list_byte_of_string s.

Arguments lit : simpl never.

#[export] Instance byte_eq_dec : EqDecision byte := Byte.byte_eq_dec.

#[export] Program Instance byte_countable : Countable byte :=
  {| encode c := N.succ_pos (Byte.to_N c); decode p := Byte.of_N (N.pred (Npos p)) |}.
Next Obligation. intros c. rewrite <- (Byte.of_to_N c). f_equal. lia. Qed.

(** The value of a byte, and the conversion [byte(x)] of an integer, which
    keeps the low eight bits. *)
Definition u8 (c : byte) : Z := Z.of_N (Byte.to_N c).

Definition byte_of (z : Z) : byte :=
  default Byte.x00 (Byte.of_N (Z.to_N (z mod 256))).

Definition NUL : byte := Byte.x00.

(** The character of a one-letter literal. *)
Definition chr (s : string) : byte :=
  match lit s with c :: _ => c | [] => NUL end.
Arguments chr : simpl never.

(** ** Errors

    [Errorf f args] is [errors.New]/[fmt.Errorf] with its format string and the
    string arguments, left unrendered, and [Wrapf] is [fmt.Errorf] with a [%w]
    operand; the other constructors are the sentinel errors of the standard
    library the program returns or tests. *)
Inductive goerr :=
  | Errorf (format : string) (args : list gostring)
  | Wrapf (format : string) (args : list gostring) (inner : goerr)
  | io_EOF
  | io_ErrUnexpectedEOF
  | io_ErrClosedPipe
  | net_ErrClosed
  | os_ErrDeadlineExceeded
  | ctx_Err.

(** The outcome of a Go function that returns [(A, error)]: a value, an error,
    or a run-time panic (an index or slice out of range, or an explicit
    [panic]).  Panics are a separate outcome so that their absence is a
    theorem. *)
Inductive res (A : Type) :=
  | Ok (a : A)
  | Err (e : goerr)
  | Panic.
Arguments Ok {_} _.
Arguments Err {_} _.
Arguments Panic {_}.

#[export] Instance res_ret : MRet res := λ A a, Ok a.
#[export] Instance res_bind : MBind res := λ A B f m,
  match m with Ok a => f a | Err e => Err e | Panic => Panic end.

Definition is_Ok {A} (r : res A) : bool := match r with Ok _ => true | _ => false end.

(** [if cond { return err }] followed by the rest. *)
Definition guard_err (bad : bool) (e : goerr) : res unit :=
  if bad then Err e else Ok tt.

(** [v, ok := ...; if !ok { return err }]. *)
Definition of_option {A} (e : goerr) (o : option A) : res A :=
  match o with Some a => Ok a | None => Err e end.

Definition wrap_err {A} (w : goerr → goerr) (r : res A) : res A :=
  match r with Err e => Err (w e) | _ => r end.

(** A [for _, a := range l] loop whose body updates a state and may return an
    error from the function. *)
Fixpoint foldM {S A} (f : S → A → res S) (s : S) (l : list A) : res S :=
  match l with
  | [] => Ok s
  | a :: l => s' ← f s a; foldM f s' l
  end.

(** Index and slice expressions with Go's bounds checks. *)
Definition index_go {A} (l : list A) (i : nat) : res A :=
  match l !! i with Some x => Ok x | None => Panic end.
Definition slice_to {A} (l : list A) (n : nat) : res (list A) :=
  if decide (n ≤ length l) then Ok (take n l) else Panic.
Definition slice_from {A} (l : list A) (n : nat) : res (list A) :=
  if decide (n ≤ length l) then Ok (drop n l) else Panic.

(** [l[:z]] for a computed bound, which may be negative, and [l[z]]. *)
Definition slice_to_z {A} (l : list A) (z : Z) : res (list A) :=
  if (z <? 0)%Z then Panic else slice_to l (Z.to_nat z).
Definition index_z {A} (l : list A) (z : Z) : res A :=
  if (z <? 0)%Z then Panic else index_go l (Z.to_nat z).

(** ** Package [strings] on ASCII-safe operations *)
Definition has_prefix (s p : gostring) : bool := bool_decide (p `prefix_of` s).
Definition has_suffix (s p : gostring) : bool := bool_decide (p `suffix_of` s).
Definition trim_prefix (s p : gostring) : gostring :=
  if has_prefix s p then drop (length p) s else s.
Definition trim_suffix (s p : gostring) : gostring :=
  if has_suffix s p then take (length s - length p) s else s.

(** [strings.Contains(s, sub)]. *)
Fixpoint contains (s sub : gostring) : bool :=
  has_prefix s sub || match s with [] => false | _ :: s' => contains s' sub end.

(** [strings.IndexByte], and [strings.LastIndexByte]. *)
Fixpoint index_byte (s : gostring) (c : byte) : option nat :=
  match s with
  | [] => None
  | x :: s' => if decide (x = c) then Some 0 else S <$> index_byte s' c
  end.
Fixpoint last_index_byte (s : gostring) (c : byte) : option nat :=
  match s with
  | [] => None
  | x :: s' =>
     match last_index_byte s' c with
     | Some i => Some (S i)
     | None => if decide (x = c) then Some 0 else None
     end
  end.

(** [strings.Split(s, sep)] for a one-byte separator. *)
Fixpoint split_byte (s : gostring) (c : byte) : list gostring :=
  match s with
  | [] => [[]]
  | x :: s' =>
     if decide (x = c) then [] :: split_byte s' c
     else match split_byte s' c with
          | w :: ws => (x :: w) :: ws
          | [] => [[x]]
          end
  end.

(** [strings.Join]. *)
Fixpoint join (l : list gostring) (sep : gostring) : gostring :=
  match l with
  | [] => []
  | [w] => w
  | w :: l' => w ++ sep ++ join l' sep
  end.

(** [strings.Cut(s, sep)] for a one-byte separator: before, after, found. *)
Fixpoint cut_byte (s : gostring) (c : byte) : gostring * gostring * bool :=
  match s with
  | [] => ([], [], false)
  | x :: s' =>
     if decide (x = c) then ([], s', true)
     else let '(a, b, found) := cut_byte s' c in (x :: a, b, found)
  end.

(** [strings.TrimLeft], [strings.TrimRight] and [strings.Trim] with a one-byte
    cutset. *)
Fixpoint trim_left (s : gostring) (c : byte) : gostring :=
  match s with
  | [] => []
  | x :: s' => if decide (x = c) then trim_left s' c else s
  end.
Definition trim_right (s : gostring) (c : byte) : gostring :=
  reverse (trim_left (reverse s) c).
Definition trim (s : gostring) (c : byte) : gostring := trim_right (trim_left s c) c.

(** ASCII classes and [strings.ToLower], [strings.Fields], [strings.TrimSpace].  On a
    string with a non-ASCII byte they consult the Unicode tables, which are a
    parameter: the class [GoUnicode] gives the functions on such strings. *)
Definition is_ascii (s : gostring) : bool := forallb (λ c, u8 c <? 128)%Z s.
Definition is_digit (c : byte) : bool := ((48 <=? u8 c) && (u8 c <=? 57))%Z.
Definition is_upper (c : byte) : bool := ((65 <=? u8 c) && (u8 c <=? 90))%Z.
Definition is_lower (c : byte) : bool := ((97 <=? u8 c) && (u8 c <=? 122))%Z.
Definition is_space (c : byte) : bool :=
  ((u8 c =? 32) || ((9 <=? u8 c) && (u8 c <=? 13)))%Z.

Definition lower_byte (c : byte) : byte :=
  if is_upper c then byte_of (u8 c + 32) else c.

Class GoUnicode := {
  unicode_ToLower : gostring → gostring;
  unicode_Fields : gostring → list gostring;
  unicode_TrimSpace : gostring → gostring
}.

Definition to_lower `{GoUnicode} (s : gostring) : gostring :=
  if is_ascii s then lower_byte <$> s else unicode_ToLower s.

(** The fields of a string around runs of ASCII white space; [cur] is the field
    being read, reversed. *)
Fixpoint ascii_fields (cur s : gostring) : list gostring :=
  match s with
  | [] => if decide (cur = []) then [] else [reverse cur]
  | x :: s' =>
     if is_space x
     then (if decide (cur = []) then [] else [reverse cur]) ++ ascii_fields [] s'
     else ascii_fields (x :: cur) s'
  end.

Definition fields `{GoUnicode} (s : gostring) : list gostring :=
  if is_ascii s then ascii_fields [] s else unicode_Fields s.

Fixpoint trim_space_left (s : gostring) : gostring :=
  match s with c :: s' => if is_space c then trim_space_left s' else s | [] => [] end.
Definition TrimSpace `{GoUnicode} (s : gostring) : gostring :=
  if is_ascii s then reverse (trim_space_left (reverse (trim_space_left s))) else unicode_TrimSpace s.

(** ** Package [strconv]: [Atoi] on a 64-bit platform, and decimal printing. *)
Definition digits_val (s : gostring) : Z :=
  foldl (λ acc c, acc * 10 + (u8 c - 48))%Z 0%Z s.
Definition all_digits (s : gostring) : bool :=
  negb (bool_decide (s = [])) && forallb is_digit s.

Definition atoi_err : goerr := Errorf "strconv.Atoi" [].

Definition atoi (s : gostring) : res Z :=
  let '(neg, ds) :=
    match s with
    | c :: s' =>
       if decide (c = chr "-") then (true, s')
       else if decide (c = chr "+") then (false, s') else (false, s)
    | [] => (false, s)
    end in
  if all_digits ds then
    let n := if neg : bool then (- digits_val ds)%Z else digits_val ds in
    if (-(2^63) <=? n)%Z && (n <? 2^63)%Z then Ok n else Err atoi_err
  else Err atoi_err.

(** Decimal digits, most significant first; a number has no more digits than
    bits. *)
Fixpoint decimal (fuel : nat) (z : Z) : gostring :=
  match fuel with
  | O => []
  | S fuel =>
     (if (z <? 10)%Z then [] else decimal fuel (z / 10)%Z) ++ [byte_of (48 + z mod 10)%Z]
  end.
Definition itoa (z : Z) : gostring :=
  let digits n := decimal (S (Z.to_nat (Z.log2 n))) n in
  if (z <? 0)%Z then chr "-" :: digits (- z)%Z else digits z.

(** ** Lemmas: the error monad and loops *)
Create HintDb golib.
Create Rewrite HintDb golib.
Create Rewrite HintDb go_guard.
Create Rewrite HintDb go_member.

Lemma bind_Ok {A B} (m : res A) (f : A → res B) b :
  (x ← m; f x) = Ok b ↔ ∃ a, m = Ok a ∧ f a = Ok b.
Proof. destruct m as [x| |]; cbn; split; [intros ?; by exists x|by intros (? & [= <-] & ?)|done|by intros (? & ? & _)|done|by intros (? & ? & _)]. Qed.

Lemma guard_err_Ok bad e u : guard_err bad e = Ok u ↔ bad = false.
Proof. destruct bad, u; cbn; naive_solver. Qed.

Lemma guard_bind_Ok {A} bad e (k : res A) a :
  (_ ← guard_err bad e; k) = Ok a ↔ bad = false ∧ k = Ok a.
Proof. by destruct bad; cbn; split; try intros [? ?]. Qed.

Lemma res_bind_assoc {A B C} (m : res A) (f : A → res B) (g : B → res C) :
  (m ≫= f) ≫= g = m ≫= (λ x, f x ≫= g).
Proof. by destruct m. Qed.

Lemma Ok_bind {A B} (a : A) (f : A → res B) : Ok a ≫= f = f a.
Proof. done. Qed.

Lemma Ok_eq {A} (a b : A) : Ok a = Ok b ↔ b = a.
Proof. split; [by intros [= ->]|by intros ->]. Qed.

Lemma wrap_err_Ok {A} w (r : res A) a : wrap_err w r = Ok a ↔ r = Ok a.
Proof. by destruct r. Qed.

Lemma is_Ok_alt {A} (r : res A) : is_Ok r = true ↔ ∃ a, r = Ok a.
Proof. destruct r; cbn; split; try done; [eauto|by intros [? ?]..]. Qed.

#[export] Hint Rewrite @res_bind_assoc @Ok_bind @Ok_eq guard_err_Ok @guard_bind_Ok @wrap_err_Ok : go_guard.

Lemma of_option_Ok {A} e (o : option A) a : of_option e o = Ok a ↔ o = Some a.
Proof. destruct o; cbn; split; congruence. Qed.

(** Absence of panics. *)
Definition no_panic {A} (r : res A) : Prop := r ≠ Panic.

Lemma no_panic_bind {A B} (m : res A) (f : A → res B) :
  no_panic m → (∀ a, m = Ok a → no_panic (f a)) → no_panic (m ≫= f).
Proof. intros Hm Hf. destruct m as [a|e|]; cbn; [by apply Hf|done|by destruct Hm]. Qed.
Lemma no_panic_guard bad e : no_panic (guard_err bad e).
Proof. by destruct bad. Qed.
Lemma no_panic_wrap {A} w (r : res A) : no_panic r → no_panic (wrap_err w r).
Proof. by destruct r. Qed.
Lemma of_option_no_panic {A} e (o : option A) : no_panic (of_option e o).
Proof. by destruct o. Qed.
Lemma no_panic_Ok {A} (a : A) : no_panic (Ok a).
Proof. done. Qed.
Lemma no_panic_Err {A} e : no_panic (@Err A e).
Proof. done. Qed.
Lemma no_panic_slice_to {A} (l : list A) n : n ≤ length l → no_panic (slice_to l n).
Proof. intros. unfold slice_to. by rewrite decide_True. Qed.
Lemma no_panic_slice_from {A} (l : list A) n : n ≤ length l → no_panic (slice_from l n).
Proof. intros. unfold slice_from. by rewrite decide_True. Qed.
Lemma no_panic_index {A} (l : list A) i : i < length l → no_panic (index_go l i).
Proof. intros Hi. unfold index_go. by apply lookup_lt_is_Some in Hi as [x ->]. Qed.

Lemma atoi_no_panic s : no_panic (atoi s).
Proof. unfold atoi. destruct (match s with [] => _ | _ => _ end) as [neg ds]. destruct (all_digits ds); [|done]. by destruct (_ && _). Qed.

#[export] Hint Resolve no_panic_bind no_panic_guard no_panic_wrap no_panic_Ok no_panic_Err
  no_panic_slice_to no_panic_slice_from no_panic_index : golib.

(** A loop that may fail, against a specification: [R s done] relates the loop
    state to the elements already processed, and the body succeeds on [a]
    exactly when [Q done a].  The loop then succeeds exactly when [Q] holds at
    every element after those before it. *)
Definition each_after {A} (Q : list A → A → Prop) (D l : list A) : Prop :=
  ∀ l1 a l2, l = l1 ++ a :: l2 → Q (D ++ l1) a.

Lemma each_after_nil {A} (Q : list A → A → Prop) D : each_after Q D [].
Proof. intros [|??] ?? ?; simplify_eq/=. Qed.

Lemma each_after_cons {A} (Q : list A → A → Prop) D a l :
  each_after Q D (a :: l) ↔ Q D a ∧ each_after Q (D ++ [a]) l.
Proof.
  split.
  - intros HQ. split.
    + specialize (HQ [] a l eq_refl). by rewrite app_nil_r in HQ.
    + intros l1 b l2 ->. rewrite <- app_assoc. by apply (HQ (a :: l1) b l2).
  - intros [Ha Hl] [|x l1] b l2 ?; simplify_eq/=.
    + by rewrite app_nil_r.
    + rewrite (cons_middle x D l1), app_assoc. by eapply Hl.
Qed.

Section foldM.
Context {S A : Type} (f : S → A → res S).
Context (R : S → list A → Prop) (Q : list A → A → Prop).
Hypothesis body_ok : ∀ s D a s', R s D → f s a = Ok s' → Q D a ∧ R s' (D ++ [a]).
Hypothesis body_complete : ∀ s D a, R s D → Q D a → ∃ s', f s a = Ok s'.

Lemma foldM_ok l s D s' :
  R s D → foldM f s l = Ok s' → each_after Q D l ∧ R s' (D ++ l).
Proof using body_ok.
  revert s D. induction l as [|a l IH]; intros s D HR; cbn.
  - intros [= <-]. rewrite app_nil_r. auto using each_after_nil.
  - rewrite bind_Ok. intros (s1 & Hs1 & Hl).
    destruct (body_ok _ _ _ _ HR Hs1) as [HQ HR1].
    destruct (IH _ _ HR1 Hl) as [? HR']. rewrite <- app_assoc in HR'.
    rewrite each_after_cons. auto.
Qed.

Lemma foldM_complete l s D :
  R s D → each_after Q D l → ∃ s', foldM f s l = Ok s'.
Proof using body_ok body_complete.
  revert s D. induction l as [|a l IH]; intros s D HR; cbn; [eauto|].
  rewrite each_after_cons. intros [HQ Hl].
  destruct (body_complete _ _ _ HR HQ) as [s1 Hs1]. rewrite Hs1. cbn.
  destruct (body_ok _ _ _ _ HR Hs1) as [_ HR1]. eauto.
Qed.
End foldM.

(** The shapes [each_after] takes in the validation loops: flattening a nested
    loop, and a check of each element against the earlier ones. *)
Section each_after.
Context {A : Type}.
Implicit Types (l D : list A).

Lemma each_after_app (Q : list A → A → Prop) D l1 l2 :
  each_after Q D (l1 ++ l2) ↔ each_after Q D l1 ∧ each_after Q (D ++ l1) l2.
Proof.
  revert D. induction l1 as [|a l1 IH]; intros D; cbn.
  - rewrite app_nil_r. split; [auto using each_after_nil|by intros [_ ?]].
  - rewrite !each_after_cons, IH, <- app_assoc. cbn. tauto.
Qed.

Lemma each_after_flat {B} (Q : list A → A → Prop) (h : B → list A) (E l : list B) :
  each_after (λ (E' : list B) b, each_after Q (E' ≫= h) (h b)) E l ↔
  each_after Q (E ≫= h) (l ≫= h).
Proof.
  revert E. induction l as [|b l IH]; intros E; cbn.
  - split; intros _; apply each_after_nil.
  - rewrite each_after_cons, IH, each_after_app, bind_app. cbn. by rewrite app_nil_r.
Qed.

Lemma each_after_and (Q1 Q2 : list A → A → Prop) D l :
  each_after (λ D a, Q1 D a ∧ Q2 D a) D l ↔ each_after Q1 D l ∧ each_after Q2 D l.
Proof. unfold each_after. naive_solver. Qed.

Lemma each_after_iff (Q1 Q2 : list A → A → Prop) D l :
  (∀ D' a, Q1 D' a ↔ Q2 D' a) → each_after Q1 D l ↔ each_after Q2 D l.
Proof. intros HQ. unfold each_after. by setoid_rewrite HQ. Qed.

Lemma each_after_local (P : A → Prop) D l :
  each_after (λ _ a, P a) D l ↔ Forall P l.
Proof.
  revert D. induction l as [|a l IH]; intros D.
  - split; [constructor|intros _; apply each_after_nil].
  - by rewrite each_after_cons, IH, Forall_cons.
Qed.

Lemma each_after_earlier (C : A → A → Prop) D l :
  each_after (λ D a, ∀ b, b ∈ D → C b a) D l ↔
  ForallOrdPairs C l ∧ (∀ b a, b ∈ D → a ∈ l → C b a).
Proof.
  revert D. induction l as [|a l IH]; intros D.
  - split; [split; [constructor|set_solver]|intros _; apply each_after_nil].
  - rewrite each_after_cons, IH. split.
    + intros (Ha & Hl & HD). split; [constructor; [|done]|set_solver].
      apply Forall_forall. set_solver.
    + intros [HO HD]. inversion_clear HO as [|?? Hfa Hop].
      rewrite Forall_forall in Hfa. set_solver.
Qed.

Lemma ForallOrdPairs_fmap_NoDup {B} (h : A → B) l :
  ForallOrdPairs (λ x y, h x ≠ h y) l ↔ NoDup (h <$> l).
Proof.
  induction l as [|a l IH]; cbn; [split; constructor|].
  rewrite NoDup_cons, <- IH, list_elem_of_fmap. split.
  - intros HO. inversion_clear HO as [|?? Hfa Hop]. rewrite Forall_forall in Hfa.
    split; [|done]. intros (y & Heq & Hy). by apply (Hfa y).
  - intros [Hn ?]. constructor; [|done]. apply Forall_forall.
    intros y Hy Heq. apply Hn. eauto.
Qed.

Lemma ForallOrdPairs_all (C : A → A → Prop) l :
  (∀ x, C x x) → (∀ x y, C x y → C y x) →
  ForallOrdPairs C l ↔ (∀ x y, x ∈ l → y ∈ l → C x y).
Proof.
  intros Hrefl Hsym. induction l as [|a l IH]; [split; [set_solver|constructor]|].
  split.
  - intros HO. inversion_clear HO as [|?? Hfa Hop]. rewrite Forall_forall in Hfa.
    set_solver.
  - intros Hall. constructor; [apply Forall_forall|apply IH]; set_solver.
Qed.
End each_after.

(** Induction on a list two elements at a time. *)
Lemma list_pair_ind {A} (P : list A → Prop) :
  P [] → (∀ x, P [x]) → (∀ x y l, P l → P (x :: y :: l)) → ∀ l, P l.
Proof.
  intros H0 H1 H2 l. cut (P l ∧ ∀ x, P (x :: l)); [tauto|].
  induction l as [|y l [IHl IHx]]; split; auto.
Qed.

(** Sums over the values of a map, under insertion. *)
Section total.
Context {A : Type} (f : A → nat).
Implicit Types (cs : gmap nat A).

Definition total cs : nat := map_fold (λ _ c n, f c + n) 0 cs.

Lemma total_insert cs t c : cs !! t = None → total (<[t := c]> cs) = f c + total cs.
Proof. intros Ht. unfold total. rewrite map_fold_insert_L; [done|intros; lia|done]. Qed.

Lemma total_update cs t c c' :
  cs !! t = Some c → total (<[t := c']> cs) + f c = f c' + total cs.
Proof.
  intros Ht. unfold total. rewrite (map_fold_delete_L _ _ t c cs) by (done || intros; lia).
  rewrite (map_fold_delete_L _ _ t c' (<[t := c']> cs)) by (done || (intros; lia) || apply lookup_insert_eq).
  rewrite delete_insert_eq. lia.
Qed.
End total.
