(* ===== verification/Steps.v ===== *)
(** * Transition systems: invariants, and what is bound to happen

    The components that run several goroutines are step relations.  [inevitably]
    says that every run of the steps arrives at a state with a property: a run is
    never stuck before, and it is finite. *)
From stdpp Require Import relations.
From S2P Require Import Prelude.

Section steps.
Context {A : Type} (R : A → A → Prop).

Lemma rtc_invariant (I : A → Prop) a b :
  (∀ x y, R x y → I x → I y) → rtc R a b → I a → I b.
Proof. intros Hstep. induction 1 as [|x y z HR _ IH]; [done|]. intros HI. by eapply IH, Hstep. Qed.

Inductive inevitably (P : A → Prop) (a : A) : Prop :=
  | inevitably_now : P a → inevitably P a
  | inevitably_later : (∃ b, R a b) → (∀ b, R a b → inevitably P b) → inevitably P a.

(** A measure that every step decreases, and a step wherever [P] does not hold
    yet. *)
Lemma inevitably_measure (I P : A → Prop) (m : A → nat) a :
  (∀ a b, I a → R a b → I b ∧ m b < m a) →
  (∀ a, I a → P a ∨ ∃ b, R a b) →
  I a → inevitably P a.
Proof.
  intros Hdec Hprog. remember (m a) as n eqn:Hn. revert a Hn.
  induction (lt_wf n) as [n _ IH]. intros a -> HI.
  destruct (Hprog a HI) as [HP|Hstep]; [by apply inevitably_now|].
  apply inevitably_later; [done|]. intros b HR.
  destruct (Hdec a b HI HR) as [HI' Hlt]. by eapply (IH (m b)).
Qed.

Lemma inevitably_mono (P Q : A → Prop) a : (∀ x, P x → Q x) → inevitably P a → inevitably Q a.
Proof. intros HPQ. induction 1 as [a HP|a Hex _ IH]; [apply inevitably_now; auto|by apply inevitably_later]. Qed.

(** It can happen, and it happens on the way of every long enough run. *)
Lemma inevitably_reachable (P : A → Prop) a : inevitably P a → ∃ b, rtc R a b ∧ P b.
Proof.
  induction 1 as [a HP|a [b HR] _ IH]; [by exists a|].
  destruct (IH b HR) as (c & Hc & HP). exists c. split; [by eapply rtc_l|done].
Qed.
End steps.
