(* ===== verification/Wire.v ===== *)
(** * Integers on the wire

    What the program uses of [encoding/binary] and of conversions between
    machine integers and bytes: little- and big-endian reads of a byte slice
    and the writes that truncate to the width.  A [uintN] value is a [Z] in
    [0 .. 2^N). *)
From S2P Require Import Prelude.
#[local] Open Scope Z_scope.

(** Little-endian: the value of a byte slice, and the [n] low bytes of [z]. *)
Fixpoint le_val (bs : list byte) : Z :=
  match bs with [] => 0 | c :: bs => u8 c + 256 * le_val bs end.
Fixpoint le_bytes (n : nat) (z : Z) : list byte :=
  match n with O => [] | S n => byte_of z :: le_bytes n (z / 256) end.

(** Big-endian. *)
Definition be_val (bs : list byte) : Z := le_val (reverse bs).
Definition be_bytes (n : nat) (z : Z) : list byte := reverse (le_bytes n z).

(** [binary.LittleEndian.Uint16(b)] and the like panic on a short slice. *)
Definition le_uint (n : nat) (b : list byte) : res Z :=
  bs ← slice_to b n; Ok (le_val bs).
Definition be_uint (n : nat) (b : list byte) : res Z :=
  bs ← slice_to b n; Ok (be_val bs).

(** ** Bytes *)
Lemma u8_range c : 0 <= u8 c < 256.
Proof.
  unfold u8. pose proof (Byte.to_N_bounded c). lia.
Qed.

Lemma byte_of_u8 c : byte_of (u8 c) = c.
Proof.
  unfold byte_of. rewrite Z.mod_small by apply u8_range. unfold u8.
  by rewrite N2Z.id, Byte.of_to_N.
Qed.

Lemma u8_byte_of z : u8 (byte_of z) = z mod 256.
Proof.
  unfold byte_of, u8. pose proof (Z.mod_pos_bound z 256 eq_refl) as Hz.
  destruct (Byte.of_N (Z.to_N (z mod 256))) as [c|] eqn:Hc; cbn.
  - apply Byte.to_of_N in Hc. rewrite Hc. lia.
  - apply Byte.of_N_None_iff in Hc. lia.
Qed.

Lemma u8_inj c d : u8 c = u8 d → c = d.
Proof. intros H. by rewrite <- (byte_of_u8 c), <- (byte_of_u8 d), H. Qed.

Lemma byte_of_mod z : byte_of (z mod 256) = byte_of z.
Proof. unfold byte_of. by rewrite Z.mod_mod. Qed.

#[export] Hint Rewrite byte_of_u8 u8_byte_of : golib.
#[export] Hint Resolve u8_range : golib.

(** ** Little-endian round trips and bounds *)
Lemma length_le_bytes n z : length (le_bytes n z) = n.
Proof. revert z. induction n as [|n IH]; intros z; cbn; [done|]. by rewrite IH. Qed.

Lemma le_val_range bs : 0 <= le_val bs < 2 ^ (8 * Z.of_nat (length bs)).
Proof.
  induction bs as [|c bs IH]; cbn [le_val length]; [done|].
  replace (8 * Z.of_nat (S (length bs))) with (8 + 8 * Z.of_nat (length bs)) by lia.
  rewrite Z.pow_add_r by lia. change (2 ^ 8) with 256.
  pose proof (u8_range c). lia.
Qed.

Lemma le_val_bytes n z : le_val (le_bytes n z) = z mod 2 ^ (8 * Z.of_nat n).
Proof.
  revert z. induction n as [|n IH]; intros z; cbn [le_val le_bytes].
  - by rewrite Z.mod_1_r.
  - rewrite IH, u8_byte_of.
    replace (8 * Z.of_nat (S n)) with (8 + 8 * Z.of_nat n) by lia.
    rewrite Z.pow_add_r by lia. change (2 ^ 8) with 256.
    rewrite Z.rem_mul_r by lia. done.
Qed.

Lemma le_bytes_val bs : le_bytes (length bs) (le_val bs) = bs.
Proof.
  induction bs as [|c bs IH]; cbn [le_val le_bytes length]; [done|].
  pose proof (u8_range c).
  replace ((u8 c + 256 * le_val bs) / 256) with (le_val bs)
    by (rewrite Z.add_comm, Z.mul_comm, Z.div_add_l by lia; rewrite Z.div_small; lia).
  rewrite IH. f_equal. rewrite <- (byte_of_u8 c) at 2. rewrite <- byte_of_mod. f_equal.
  rewrite Z.mul_comm, Z.mod_add by lia. apply Z.mod_small. lia.
Qed.

Lemma be_val_range bs : 0 <= be_val bs < 2 ^ (8 * Z.of_nat (length bs)).
Proof. unfold be_val. rewrite <- (length_reverse bs). apply le_val_range. Qed.

Lemma be_val_bytes n z : be_val (be_bytes n z) = z mod 2 ^ (8 * Z.of_nat n).
Proof. unfold be_val, be_bytes. by rewrite reverse_involutive, le_val_bytes. Qed.

Lemma be_bytes_val bs : be_bytes (length bs) (be_val bs) = bs.
Proof.
  unfold be_val, be_bytes.
  by rewrite <- (length_reverse bs), le_bytes_val, reverse_involutive.
Qed.

Lemma length_be_bytes n z : length (be_bytes n z) = n.
Proof. unfold be_bytes. by rewrite length_reverse, length_le_bytes. Qed.

#[export] Hint Rewrite length_le_bytes length_be_bytes le_val_bytes be_val_bytes : golib.

(** ** Checked slices *)
Lemma slice_to_ok {A} (l : list A) n : (n ≤ length l)%nat → slice_to l n = Ok (take n l).
Proof. intros. unfold slice_to. by rewrite decide_True. Qed.
Lemma slice_from_ok {A} (l : list A) n : (n ≤ length l)%nat → slice_from l n = Ok (drop n l).
Proof. intros. unfold slice_from. by rewrite decide_True. Qed.
Lemma index_go_ok {A} (l : list A) i x : l !! i = Some x → index_go l i = Ok x.
Proof. unfold index_go. by intros ->. Qed.

Lemma le_uint_ok n b : (n ≤ length b)%nat → le_uint n b = Ok (le_val (take n b)).
Proof. intros. unfold le_uint. by rewrite slice_to_ok. Qed.
Lemma be_uint_ok n b : (n ≤ length b)%nat → be_uint n b = Ok (be_val (take n b)).
Proof. intros. unfold be_uint. by rewrite slice_to_ok. Qed.

Lemma slice_to_Ok {A} (l r : list A) n :
  slice_to l n = Ok r ↔ (n ≤ length l)%nat ∧ r = take n l.
Proof. unfold slice_to. case_decide; rewrite ?Ok_eq; intuition congruence. Qed.
Lemma slice_from_Ok {A} (l r : list A) n :
  slice_from l n = Ok r ↔ (n ≤ length l)%nat ∧ r = drop n l.
Proof. unfold slice_from. case_decide; rewrite ?Ok_eq; intuition congruence. Qed.
Lemma index_go_Ok {A} (l : list A) i x : index_go l i = Ok x ↔ l !! i = Some x.
Proof. unfold index_go. destruct (l !! i); rewrite ?Ok_eq; intuition congruence. Qed.
Lemma le_uint_Ok n b v :
  le_uint n b = Ok v ↔ (n ≤ length b)%nat ∧ v = le_val (take n b).
Proof.
  unfold le_uint. rewrite bind_Ok. setoid_rewrite slice_to_Ok. split.
  - intros (? & [? ->] & [= ->]). done.
  - intros [? ->]. eauto.
Qed.

(** Reads off what a successful run has passed through. *)
Ltac go_inv :=
  repeat match goal with
    | H : mbind _ _ = Ok _ |- _ => apply bind_Ok in H as (? & ? & H)
    | H : guard_err _ _ = Ok _ |- _ => apply guard_err_Ok in H
    | H : wrap_err _ _ = Ok _ |- _ => apply wrap_err_Ok in H
    | H : slice_from _ _ = Ok _ |- _ => apply slice_from_Ok in H as [? H]
    | H : slice_to _ _ = Ok _ |- _ => apply slice_to_Ok in H as [? H]
    | H : index_go _ _ = Ok _ |- _ => apply index_go_Ok in H
    | H : le_uint _ _ = Ok _ |- _ => apply le_uint_Ok in H as [? H]
    | H : (let '(_, _) := ?x in _) = Ok _ |- _ => destruct x
    | H : Ok _ = Ok _ |- _ => injection H as H
    | H : Err _ = Ok _ |- _ => discriminate H
    | H : Panic = Ok _ |- _ => discriminate H
    end; subst.

(** Discharges the bounds checks of slices whose length is known. *)
Ltac len_solve := repeat (rewrite ?length_app, ?length_le_bytes, ?length_be_bytes,
  ?length_take, ?length_drop, ?length_replicate in *; cbn [length] in *); try lia.
Ltac go_slices :=
  repeat first
    [ rewrite Ok_bind
    | rewrite slice_from_ok by len_solve
    | rewrite slice_to_ok by len_solve
    | rewrite le_uint_ok by len_solve
    | rewrite be_uint_ok by len_solve ].

(** [a | b<<n] is an addition when [a] fits below the shift. *)
Lemma lor_shiftl a b n : 0 <= n → 0 <= a < 2 ^ n → Z.lor a (Z.shiftl b n) = a + b * 2 ^ n.
Proof.
  intros Hn Ha. rewrite <- Z.shiftl_mul_pow2 by done.
  assert (Z.land a (Z.shiftl b n) = 0) as Hl.
  { apply Z.bits_inj'. intros i Hi. rewrite Z.land_spec, Z.bits_0, Z.shiftl_spec by done.
    destruct (decide (i < n)).
    - rewrite (Z.testbit_neg_r b (i - n)) by lia. apply andb_false_r.
    - destruct (decide (a = 0)) as [->|]; [by rewrite Z.bits_0|].
      rewrite (Z.bits_above_log2 a i); [done|lia|].
      apply Z.log2_lt_pow2; [lia|]. apply Z.lt_le_trans with (2 ^ n); [lia|].
      apply Z.pow_le_mono_r; lia. }
  rewrite <- Z.lxor_lor, Z.add_nocarry_lxor by done. done.
Qed.

(** Bounds of literal powers, for [lia]. *)
Ltac pow_lits :=
  change (2 ^ 8) with 256 in *; change (2 ^ 16) with 65536 in *;
  change (2 ^ 20) with 1048576 in *; change (2 ^ 24) with 16777216 in *;
  change (2 ^ 32) with 4294967296 in *.
