(* ===== verification/GoStrings.v ===== *)
(** * Lemmas on package strings

    Splitting and joining, cutting, and trimming are inverse to each other on
    pieces without the separator. *)
From S2P Require Import Prelude Wire.

Section split.
Context (c : byte).
Implicit Types (s w : gostring) (ws : list gostring).

Lemma split_byte_cons s : ∃ w ws, split_byte s c = w :: ws.
Proof.
  destruct s as [|x s]; cbn; [eauto|]. case_decide; [eauto|].
  destruct (split_byte s c); eauto.
Qed.

Lemma split_byte_not_nil s : split_byte s c ≠ [].
Proof. destruct (split_byte_cons s) as (w & ws & ->). done. Qed.

Lemma split_byte_pieces s : Forall (λ w, c ∉ w) (split_byte s c).
Proof.
  induction s as [|x s IH]; cbn; [repeat constructor; set_solver|].
  case_decide; [constructor; [set_solver|done]|].
  destruct (split_byte_cons s) as (w & ws & Heq). rewrite Heq in *.
  inversion_clear IH. constructor; [set_solver|done].
Qed.

Lemma join_cons_cons w w' ws sep : join (w :: w' :: ws) sep = w ++ sep ++ join (w' :: ws) sep.
Proof. done. Qed.

Lemma join_cons w ws sep : ws ≠ [] → join (w :: ws) sep = w ++ sep ++ join ws sep.
Proof. by destruct ws. Qed.

Lemma join_snoc (ws : list gostring) w sep : ws ≠ [] → join (ws ++ [w]) sep = join ws sep ++ sep ++ w.
Proof.
  induction ws as [|v ws IH]; [done|]. intros _. destruct ws as [|v' ws]; [done|].
  change ((v :: v' :: ws) ++ [w]) with (v :: (v' :: ws) ++ [w]). rewrite !join_cons by done.
  rewrite IH by done. by rewrite <- !app_assoc.
Qed.

Lemma join_split s : join (split_byte s c) [c] = s.
Proof.
  induction s as [|x s IH]; cbn [split_byte]; [done|].
  destruct (split_byte_cons s) as (w & ws & Heq). rewrite Heq in *. case_decide.
  - subst x. by rewrite join_cons_cons, IH.
  - destruct ws as [|w' ws]; cbn in *; by rewrite <- IH.
Qed.

Lemma split_byte_app w s :
  c ∉ w → split_byte (w ++ c :: s) c = w :: split_byte s c.
Proof.
  induction w as [|x w IH]; cbn; intros Hw.
  - by rewrite decide_True.
  - rewrite decide_False, IH by set_solver. done.
Qed.

Lemma split_byte_none w : c ∉ w → split_byte w c = [w].
Proof.
  induction w as [|x w IH]; cbn; intros Hw; [done|].
  rewrite decide_False, IH by set_solver. done.
Qed.

Lemma split_join ws :
  ws ≠ [] → Forall (λ w, c ∉ w) ws → split_byte (join ws [c]) c = ws.
Proof.
  intros Hne Hws. induction Hws as [|w ws Hw Hws IH]; [done|].
  destruct ws as [|w' ws]; [by apply split_byte_none|].
  rewrite join_cons_cons. cbn [app]. rewrite split_byte_app by done. by rewrite IH.
Qed.

(** A sequence of terminated pieces. *)
Definition terminated ws : gostring := ws ≫= λ w, w ++ [c].

Lemma terminated_cons w ws : terminated (w :: ws) = w ++ c :: terminated ws.
Proof. unfold terminated. rewrite bind_cons, <- app_assoc. done. Qed.

Lemma terminated_app ws1 ws2 : terminated (ws1 ++ ws2) = terminated ws1 ++ terminated ws2.
Proof. apply bind_app. Qed.

Lemma terminated_join ws : ws ≠ [] → terminated ws = join ws [c] ++ [c].
Proof.
  induction ws as [|w ws IH]; [done|]. intros _. rewrite terminated_cons.
  destruct ws as [|w' ws]; [done|].
  rewrite IH, join_cons_cons by done. by rewrite <- !app_assoc.
Qed.

Lemma split_terminated ws :
  Forall (λ w, c ∉ w) ws → split_byte (terminated ws) c = ws ++ [[]].
Proof.
  induction 1 as [|w ws Hw Hws IH]; [done|].
  by rewrite terminated_cons, split_byte_app, IH.
Qed.
End split.

(** ** Trimming and cutting *)
Lemma has_prefix_app (p s : gostring) : has_prefix (p ++ s) p = true.
Proof. apply bool_decide_eq_true. by exists s. Qed.

Lemma trim_prefix_app (p s : gostring) : trim_prefix (p ++ s) p = s.
Proof. unfold trim_prefix. by rewrite has_prefix_app, drop_app_length. Qed.

Lemma has_prefix_inv (s p : gostring) : has_prefix s p = true → s = p ++ trim_prefix s p.
Proof.
  intros Hp. unfold trim_prefix. rewrite Hp. apply bool_decide_eq_true in Hp as [r ->].
  by rewrite drop_app_length.
Qed.

Lemma trim_suffix_app (p s : gostring) : trim_suffix (s ++ p) p = s.
Proof.
  unfold trim_suffix, has_suffix. rewrite bool_decide_true by (by exists s).
  rewrite take_app_length'; [done|]. rewrite length_app. lia.
Qed.

Lemma cut_byte_app a b c : c ∉ a → cut_byte (a ++ c :: b) c = (a, b, true).
Proof.
  induction a as [|x a IH]; cbn; intros Ha; [by rewrite decide_True|].
  rewrite decide_False, IH by set_solver. done.
Qed.

Lemma cut_byte_none a c : c ∉ a → cut_byte a c = (a, [], false).
Proof.
  induction a as [|x a IH]; cbn; intros Ha; [done|].
  rewrite decide_False, IH by set_solver. done.
Qed.

Lemma cut_byte_inv s c a b found :
  cut_byte s c = (a, b, found) →
  (c ∉ a) ∧ s = (if found : bool then a ++ c :: b else a) ∧ (found = false → b = []).
Proof.
  revert a b found. induction s as [|x s IH]; cbn; intros a b found.
  - intros [= <- <- <-]. split_and!; [set_solver|done..].
  - case_decide as Hx; [intros [= <- <- <-]; subst; split_and!; [set_solver|done..]|].
    destruct (cut_byte s c) as [[a' b'] f] eqn:Hc. intros [= <- <- <-].
    destruct (IH _ _ _ eq_refl) as (Hn & -> & Hb). split_and!; [set_solver| |done].
    by destruct f.
Qed.

(** ** Order: [sort.Strings] orders by bytes. *)
#[local] Open Scope Z_scope.

Fixpoint string_le (a b : gostring) : bool :=
  match a, b with
  | [], _ => true
  | _ :: _, [] => false
  | x :: a, y :: b => (u8 x <? u8 y) || ((u8 x =? u8 y) && string_le a b)
  end.
Definition string_leP (a b : gostring) : Prop := string_le a b = true.
#[export] Instance string_leP_dec a b : Decision (string_leP a b).
Proof. unfold string_leP. apply _. Defined.

Definition sort_strings (l : list gostring) : list gostring := merge_sort string_leP l.

Lemma string_le_total a b : string_le a b = true ∨ string_le b a = true.
Proof.
  revert b. induction a as [|x a IH]; intros [|y b]; cbn; auto.
  rewrite !orb_true_iff, !andb_true_iff, !Z.ltb_lt, !Z.eqb_eq.
  destruct (IH b); destruct (Z.lt_trichotomy (u8 x) (u8 y)) as [?|[?|?]]; auto.
Qed.

Lemma string_le_trans a b c : string_le a b = true → string_le b c = true → string_le a c = true.
Proof.
  revert b c. induction a as [|x a IH]; intros [|y b] [|z c]; cbn; auto; try done.
  rewrite !orb_true_iff, !andb_true_iff, !Z.ltb_lt, !Z.eqb_eq.
  intros [H1|[H1 H1']] [H2|[H2 H2']]; [left; lia|left; lia|left; lia|right].
  split; [lia|by eapply IH].
Qed.

Lemma string_le_antisym a b : string_le a b = true → string_le b a = true → a = b.
Proof.
  revert b. induction a as [|x a IH]; intros [|y b]; cbn; try done.
  rewrite !orb_true_iff, !andb_true_iff, !Z.ltb_lt, !Z.eqb_eq.
  intros [H1|[H1 H1']] [H2|[H2 H2']]; [lia|lia|lia|].
  f_equal; [by apply u8_inj|by apply IH].
Qed.

#[export] Instance string_le_Total : Total string_leP.
Proof. intros a b. apply string_le_total. Qed.
#[export] Instance string_le_Transitive : Transitive string_leP.
Proof. intros a b c. apply string_le_trans. Qed.
#[export] Instance string_le_AntiSymm : AntiSymm (=) string_leP.
Proof. intros a b. apply string_le_antisym. Qed.

Lemma sort_strings_Permutation l : sort_strings l ≡ₚ l.
Proof. apply merge_sort_Permutation. Qed.

Lemma sort_strings_Sorted l : Sorted string_leP (sort_strings l).
Proof. apply Sorted_merge_sort, _. Qed.

(** Sorting forgets the order of its input. *)
Lemma sort_strings_perm l l' : l ≡ₚ l' → sort_strings l = sort_strings l'.
Proof.
  intros Hp. apply (Sorted_unique string_leP); [apply sort_strings_Sorted..|].
  by rewrite !sort_strings_Permutation.
Qed.

(** ** Numbers: [Atoi] reads back what [Itoa] prints. *)
Lemma digits_val_app s c : digits_val (s ++ [c]) = digits_val s * 10 + (u8 c - 48).
Proof. unfold digits_val. by rewrite foldl_app. Qed.

Lemma u8_digit z : 0 <= z < 10 → u8 (byte_of (48 + z)) = 48 + z.
Proof. intros. rewrite u8_byte_of. apply Z.mod_small. lia. Qed.

Lemma decimal_spec fuel z :
  0 <= z < 2 ^ Z.of_nat fuel →
  forallb is_digit (decimal fuel z) = true ∧ (fuel ≠ 0%nat → decimal fuel z ≠ []) ∧
  digits_val (decimal fuel z) = z.
Proof.
  revert z. induction fuel as [|fuel IH]; intros z Hz.
  - split_and!; [done..|]. change (2 ^ Z.of_nat 0) with 1 in Hz. cbn. lia.
  - cbn [decimal]. pose proof (Z.mod_pos_bound z 10 eq_refl) as Hm.
    assert (0 <= z / 10 < 2 ^ Z.of_nat fuel) as Hq.
    { split; [apply Z.div_pos; lia|]. apply Z.div_lt_upper_bound; [lia|].
      rewrite Nat2Z.inj_succ, Z.pow_succ_r in Hz by lia. lia. }
    destruct (IH _ Hq) as (Hd & _ & Hv).
    assert (is_digit (byte_of (48 + z mod 10)) = true) as Hdig.
    { unfold is_digit. rewrite u8_digit by done. apply andb_true_iff. split; apply Z.leb_le; lia. }
    split_and!.
    + rewrite forallb_app. cbn. rewrite Hdig. destruct (z <? 10); [done|]. by rewrite Hd.
    + intros _ Hn. by apply app_eq_nil in Hn as [_ ?].
    + rewrite digits_val_app, u8_digit by done. pose proof (Z.div_mod z 10).
      destruct (Z.ltb_spec z 10); [|lia].
      cbn. rewrite (Z.mod_small z 10) by lia. lia.
Qed.

Lemma itoa_digits z :
  0 <= z → all_digits (itoa z) = true ∧ digits_val (itoa z) = z.
Proof.
  intros Hz. unfold itoa. destruct (Z.ltb_spec z 0); [lia|].
  destruct (decimal_spec (S (Z.to_nat (Z.log2 z))) z) as (Hd & Hne & Hv).
  { split; [done|]. destruct (Z.eq_dec z 0) as [->|]; [done|].
    rewrite Nat2Z.inj_succ, Z2Nat.id by apply Z.log2_nonneg. by apply Z.log2_spec; lia. }
  split; [|done]. unfold all_digits. by rewrite bool_decide_false, Hd by auto.
Qed.

Lemma atoi_itoa z : - 2 ^ 63 < z < 2 ^ 63 → atoi (itoa z) = Ok z.
Proof.
  intros Hz. unfold atoi. destruct (Z.ltb_spec z 0) as [Hn|Hn].
  - destruct (itoa_digits (- z)) as [Hd Hv]; [lia|]. unfold itoa in *.
    destruct (Z.ltb_spec (- z) 0); [lia|]. destruct (Z.ltb_spec z 0); [|lia].
    rewrite decide_True by done. rewrite Hd, Hv.
    rewrite Z.opp_involutive, (proj2 (Z.leb_le _ _)), (proj2 (Z.ltb_lt _ _)) by lia. done.
  - destruct (itoa_digits z) as [Hd Hv]; [lia|].
    assert ((match itoa z with
      | [] => (false, itoa z)
      | c :: s' => if decide (c = chr "-") then (true, s')
                   else if decide (c = chr "+") then (false, s') else (false, itoa z)
      end) = (false, itoa z)) as ->.
    { destruct (itoa z) as [|c s]; [done|]. unfold all_digits in Hd. cbn in Hd.
      apply andb_true_iff in Hd as [Hc _].
      rewrite !decide_False; [done|intros ->; discriminate Hc..]. }
    rewrite Hd, Hv. rewrite (proj2 (Z.leb_le _ _)), (proj2 (Z.ltb_lt _ _)) by lia. done.
Qed.

(** ** [strings.Contains] *)
Lemma contains_spec (s sub : gostring) : contains s sub = true ↔ ∃ a b, s = a ++ sub ++ b.
Proof.
  split.
  - induction s as [|c s IH]; cbn; rewrite orb_true_iff.
    + intros [Hp|]; [|done]. apply bool_decide_eq_true in Hp as [r Hr]. exists [], r. done.
    + intros [Hp|Hc].
      * apply bool_decide_eq_true in Hp as [r ->]. by exists [], r.
      * destruct (IH Hc) as (a & b & ->). by exists (c :: a), b.
  - intros (a & b & ->). induction a as [|c a IH].
    + destruct (sub ++ b) eqn:E; cbn; rewrite <- E, has_prefix_app; done.
    + cbn. rewrite IH. by rewrite orb_true_r.
Qed.

Lemma contains_byte s c : contains s [c] = true ↔ c ∈ s.
Proof.
  induction s as [|x s IH]; cbn.
  - unfold has_prefix. rewrite orb_false_r, bool_decide_eq_true. split; [|set_solver].
    by intros [? ?].
  - rewrite orb_true_iff, IH, elem_of_cons. unfold has_prefix. rewrite bool_decide_eq_true.
    split; (intros [Hp|]; [left|by right]).
    + by apply prefix_cons_inv_1 in Hp.
    + subst. by exists s.
Qed.
