(* ===== verification/NetAddr.v ===== *)
(** * Host and port strings: what the program uses of packages [net] and [net/netip]

    [net.SplitHostPort], [net.JoinHostPort], [net.ParseIP] and [IP.IsLoopback],
    written as the standard library computes them.  The configuration checks,
    the AWS endpoint comparison and the dial routes of the emulator all go
    through these four functions. *)
From S2P Require Import Prelude.

Definition addr_err (why : string) (hostport : gostring) : goerr :=
  Errorf why [hostport].

(** [net.SplitHostPort]. *)
Definition SplitHostPort (hp : gostring) : res (gostring * gostring) :=
  match last_index_byte hp (chr ":") with
  | None => Err (addr_err "missing port in address" hp)
  | Some i =>
     ' (host, j, k) ←
       (if has_prefix hp (lit "[") then
          match index_byte hp (chr "]") with
          | None => Err (addr_err "missing ']' in address" hp)
          | Some e =>
             if decide (e + 1 = length hp)
             then Err (addr_err "missing port in address" hp)
             else if decide (e + 1 = i)
             then Ok (drop 1 (take e hp), 1, e + 1)
             else if decide (hp !! (e + 1) = Some (chr ":"))
             then Err (addr_err "too many colons in address" hp)
             else Err (addr_err "missing port in address" hp)
          end
        else
          if decide (index_byte (take i hp) (chr ":") = None)
          then Ok (take i hp, 0, 0)
          else Err (addr_err "too many colons in address" hp));
     if decide (index_byte (drop j hp) (chr "[") = None) then
       if decide (index_byte (drop k hp) (chr "]") = None)
       then Ok (host, drop (i + 1) hp)
       else Err (addr_err "unexpected ']' in address" hp)
     else Err (addr_err "unexpected '[' in address" hp)
  end.

(** The port alone, when the other results are dropped with [_]: Go's zero
    value on error. *)
Definition split_port (hp : gostring) : gostring :=
  match SplitHostPort hp with Ok (_, port) => port | _ => [] end.
Definition split_host (hp : gostring) : gostring :=
  match SplitHostPort hp with Ok (host, _) => host | _ => [] end.

(** [net.JoinHostPort]. *)
Definition JoinHostPort (host port : gostring) : gostring :=
  match index_byte host (chr ":") with
  | Some _ => lit "[" ++ host ++ lit "]:" ++ port
  | None => host ++ lit ":" ++ port
  end.

(** ** IP addresses: an address is its 16-byte form, as [net.IP]. *)
Definition parse_octet (w : gostring) : option Z :=
  if all_digits w then
    if has_prefix w (lit "0") && negb (length w =? 1) then None
    else if (digits_val w <=? 255)%Z then Some (digits_val w) else None
  else None.

Definition parse_ipv4_fields (s : gostring) : option (list Z) :=
  match split_byte s (chr ".") with
  | [a; b; c; d] =>
     a ← parse_octet a; b ← parse_octet b; c ← parse_octet c; d ← parse_octet d;
     Some [a; b; c; d]
  | _ => None
  end.

Definition v4_in_v6 : list Z := replicate 10 0%Z ++ [255; 255]%Z.

Definition hex_val (c : byte) : option Z :=
  if is_digit c then Some (u8 c - 48)%Z
  else if ((97 <=? u8 c) && (u8 c <=? 102))%Z then Some (u8 c - 87)%Z
  else if ((65 <=? u8 c) && (u8 c <=? 70))%Z then Some (u8 c - 55)%Z
  else None.

(** The leading hexadecimal digits of [s]: their count and value. *)
Fixpoint hex_prefix (s : gostring) (acc : Z) : nat * Z :=
  match s with
  | c :: s' =>
     match hex_val c with
     | Some d => let '(n, v) := hex_prefix s' (acc * 16 + d)%Z in (S n, v)
     | None => (0, acc)
     end
  | [] => (0, acc)
  end.

(** The group loop of [netip.parseIPv6]: [groups] 16-bit groups may still be
    read, [ip] holds the bytes so far and [ell] the position of [::]. *)
Fixpoint ipv6_groups (groups : nat) (s : gostring) (ip : list Z)
    (ell : option nat) : option (list Z * option nat) :=
  match groups with
  | O => if decide (s = []) then Some (ip, ell) else None
  | S groups' =>
     let '(off, acc) := hex_prefix s 0%Z in
     if (off =? 0) || (4 <? off) then None
     else if decide (s !! off = Some (chr ".")) then
       if (match ell with None => negb (length ip =? 12) | Some _ => false end)
          || (12 <? length ip)
       then None
       else v4 ← parse_ipv4_fields s; Some (ip ++ v4, ell)
     else
       let ip' := ip ++ [acc / 256; acc mod 256]%Z in
       match drop off s with
       | [] => Some (ip', ell)
       | c :: s1 =>
          if decide (c = chr ":") then
            match s1 with
            | [] => None
            | c2 :: s2 =>
               if decide (c2 = chr ":") then
                 match ell with
                 | Some _ => None
                 | None =>
                    if decide (s2 = []) then Some (ip', Some (length ip'))
                    else ipv6_groups groups' s2 ip' (Some (length ip'))
                 end
               else ipv6_groups groups' s1 ip' ell
            end
          else None
       end
  end.

Definition expand_ellipsis (ip : list Z) (ell : option nat) : option (list Z) :=
  match ell with
  | None => if length ip =? 16 then Some ip else None
  | Some e =>
     if length ip =? 16 then None
     else Some (take e ip ++ replicate (16 - length ip) 0%Z ++ drop e ip)
  end.

(** [netip.parseIPv6]: the address bytes and the zone. *)
Definition parse_ipv6 (s0 : gostring) : option (list Z * gostring) :=
  let '(s, zone, found) := cut_byte s0 (chr "%") in
  if (found : bool) && bool_decide (zone = []) then None
  else
    ip ← (if has_prefix s (lit "::") then
            match drop 2 s with
            | [] => Some (replicate 16 0%Z)
            | s' => ' (ip, ell) ← ipv6_groups 8 s' [] (Some 0); expand_ellipsis ip ell
            end
          else ' (ip, ell) ← ipv6_groups 8 s [] None; expand_ellipsis ip ell);
    Some (ip, zone).

(** [netip.ParseAddr]: the first of [.], [:] and [%] decides the family. *)
Fixpoint parse_addr_from (rest s : gostring) : option (list Z * gostring) :=
  match rest with
  | [] => None
  | c :: rest' =>
     if decide (c = chr ".") then v4 ← parse_ipv4_fields s; Some (v4_in_v6 ++ v4, [])
     else if decide (c = chr ":") then parse_ipv6 s
     else if decide (c = chr "%") then None
     else parse_addr_from rest' s
  end.
Definition ParseAddr (s : gostring) : option (list Z * gostring) := parse_addr_from s s.

(** [net.ParseIP]: a zone makes the address invalid. *)
Definition ParseIP (s : gostring) : option (list Z) :=
  match ParseAddr s with
  | Some (ip, []) => Some ip
  | _ => None
  end.

(** [IP.IsLoopback], on the 16-byte form. *)
Definition IsLoopback (ip : list Z) : bool :=
  if decide (take 12 ip = v4_in_v6)
  then bool_decide (ip !! 12 = Some 127%Z)
  else bool_decide (ip = replicate 15 0%Z ++ [1%Z]).

Definition is_loopback_ip (s : gostring) : bool :=
  match ParseIP s with Some ip => IsLoopback ip | None => false end.
