(* ===== verification/NetAddrSpec.v ===== *)
(** * Host and port strings: splitting against joining *)
From S2P Require Import Prelude GoStrings NetAddr.

(** ** Positions *)
Lemma index_byte_app (a b : gostring) c : c ∉ a → index_byte (a ++ c :: b) c = Some (length a).
Proof.
  induction a as [|x a IH]; cbn; intros Ha; [by rewrite decide_True|].
  rewrite decide_False, IH by set_solver. done.
Qed.

Lemma index_byte_None (a : gostring) c : index_byte a c = None ↔ c ∉ a.
Proof.
  induction a as [|x a IH]; cbn; [split; [set_solver|done]|].
  case_decide; [split; [done|set_solver]|].
  destruct (index_byte a c); cbn; [|set_solver].
  split; [done|]. intros Hn. destruct IH as [_ IH]. discriminate IH. set_solver.
Qed.

Lemma index_byte_Some (a : gostring) c i :
  index_byte a c = Some i → ∃ l r, a = l ++ c :: r ∧ length l = i ∧ c ∉ l.
Proof.
  revert i. induction a as [|x a IH]; cbn; intros i; [done|]. case_decide as Hx.
  - intros [= <-]. subst. exists [], a. split_and!; [done..|set_solver].
  - intros (j & Hj & ->)%fmap_Some. destruct (IH _ Hj) as (l & r & -> & Hl & Hc).
    exists (x :: l), r. cbn. split_and!; [done|lia|set_solver].
Qed.

Lemma last_index_byte_None (a : gostring) c : last_index_byte a c = None ↔ c ∉ a.
Proof.
  induction a as [|x a IH]; cbn; [split; [set_solver|done]|].
  destruct (last_index_byte a c).
  - split; [done|]. intros Hn. destruct IH as [_ IH]. discriminate IH. set_solver.
  - case_decide; split; try done; set_solver.
Qed.

Lemma last_index_byte_app (a b : gostring) c :
  c ∉ b → last_index_byte (a ++ c :: b) c = Some (length a).
Proof.
  intros Hb. induction a as [|x a IH]; cbn.
  - rewrite (proj2 (last_index_byte_None b c)) by done. by rewrite decide_True.
  - by rewrite IH.
Qed.

Lemma last_index_byte_Some (a : gostring) c i :
  last_index_byte a c = Some i → ∃ l r, a = l ++ c :: r ∧ length l = i ∧ c ∉ r.
Proof.
  revert i. induction a as [|x a IH]; cbn; intros i; [done|].
  destruct (last_index_byte a c) as [j|] eqn:Hj.
  - intros [= <-]. destruct (IH j eq_refl) as (l & r & -> & Hl & Hr).
    exists (x :: l), r. cbn. split_and!; [done|lia|done].
  - case_decide as Hx; [|done]. intros [= <-]. subst. exists [], a.
    apply last_index_byte_None in Hj. done.
Qed.

(** ** Split *)
Definition bracket_free (s : gostring) : Prop := (chr "[" ∉ s) ∧ (chr "]" ∉ s).

Lemma SplitHostPort_no_panic hp : no_panic (SplitHostPort hp).
Proof.
  unfold SplitHostPort. destruct (last_index_byte _ _); [|done].
  apply no_panic_bind.
  - destruct (has_prefix _ _); [|by case_decide]. destruct (index_byte hp _); [|done].
    repeat case_decide; done.
  - intros [[h j] k] _. repeat case_decide; done.
Qed.

(** A plain host and port, and a bracketed one. *)
Lemma SplitHostPort_plain h p :
  (chr ":" ∉ h) → (chr ":" ∉ p) → bracket_free h → bracket_free p →
  SplitHostPort (h ++ chr ":" :: p) = Ok (h, p).
Proof.
  intros Hh Hp [Hh1 Hh2] [Hp1 Hp2]. unfold SplitHostPort.
  rewrite last_index_byte_app by done.
  assert (has_prefix (h ++ chr ":" :: p) (lit "[") = false) as ->.
  { apply bool_decide_eq_false. intros [r Hr]. destruct h as [|x h]; cbn in Hr; [done|].
    injection Hr as -> _. apply Hh1. left. }
  rewrite take_app_length, (proj2 (index_byte_None h _)) by done.
  rewrite decide_True by done. cbn [mbind res_bind]. rewrite !drop_0.
  assert (chr "[" ∉ h ++ chr ":" :: p).
  { rewrite elem_of_app, elem_of_cons. intros [?|[?|?]]; done. }
  assert (chr "]" ∉ h ++ chr ":" :: p).
  { rewrite elem_of_app, elem_of_cons. intros [?|[?|?]]; done. }
  rewrite !decide_True by (by apply index_byte_None).
  rewrite (cons_middle (chr ":")), app_assoc, drop_app_length'; [done|].
  rewrite length_app. done.
Qed.

Lemma SplitHostPort_bracket h p :
  (chr ":" ∉ p) → bracket_free h → bracket_free p →
  SplitHostPort (lit "[" ++ h ++ lit "]:" ++ p) = Ok (h, p).
Proof.
  intros Hp [Hh1 Hh2] [Hp1 Hp2].
  change (lit "[" ++ h ++ lit "]:" ++ p) with (chr "[" :: h ++ chr "]" :: chr ":" :: p).
  unfold SplitHostPort.
  assert (chr "[" :: h ++ chr "]" :: chr ":" :: p = (chr "[" :: h ++ [chr "]"]) ++ chr ":" :: p) as Hlast.
  { cbn. by rewrite <- app_assoc. }
  rewrite Hlast at 1. rewrite last_index_byte_app by done.
  assert (has_prefix (chr "[" :: h ++ chr "]" :: chr ":" :: p) (lit "[") = true) as ->.
  { apply bool_decide_eq_true. by exists (h ++ chr "]" :: chr ":" :: p). }
  assert (index_byte (chr "[" :: h ++ chr "]" :: chr ":" :: p) (chr "]") = Some (S (length h))) as ->.
  { rewrite app_comm_cons, index_byte_app; [done|]. rewrite elem_of_cons. intros [?|?]; done. }
  cbn [length]. rewrite !length_app. cbn [length].
  rewrite decide_False by lia. rewrite decide_True by lia. cbn [mbind res_bind].
  cbn [take drop]. rewrite drop_0, take_app_length.
  assert (chr "[" ∉ h ++ chr "]" :: chr ":" :: p).
  { rewrite elem_of_app, !elem_of_cons. intros [?|[?|[?|?]]]; done. }
  rewrite decide_True by (by apply index_byte_None).
  replace (S (length h) + 1)%nat with (S (length h + 1)) by lia. cbn [drop].
  rewrite (drop_app_add' h) by done. cbn [drop]. rewrite drop_0.
  assert (chr "]" ∉ chr ":" :: p) by (rewrite elem_of_cons; intros [?|?]; done).
  rewrite decide_True by (by apply index_byte_None).
  do 2 f_equal. replace (S (length h + 1) + 1)%nat with (S (length h + 2)) by lia.
  cbn [drop]. by rewrite (drop_app_add' h).
Qed.

Lemma SplitHostPort_JoinHostPort h p :
  (chr ":" ∉ p) → bracket_free h → bracket_free p →
  SplitHostPort (JoinHostPort h p) = Ok (h, p).
Proof.
  intros Hp Hh Hpb. unfold JoinHostPort. destruct (index_byte h (chr ":")) eqn:Hc.
  - by apply SplitHostPort_bracket.
  - apply index_byte_None in Hc. by apply SplitHostPort_plain.
Qed.

(** What an address that splits looks like. *)
Lemma SplitHostPort_inv hp h p :
  SplitHostPort hp = Ok (h, p) →
  ((chr ":" ∉ p) ∧ bracket_free p ∧ bracket_free h) ∧
  ((chr ":" ∉ h) ∧ hp = h ++ chr ":" :: p ∨ hp = lit "[" ++ h ++ lit "]:" ++ p).
Proof.
  unfold SplitHostPort. destruct (last_index_byte hp _) as [i|] eqn:Hi; [|done].
  apply last_index_byte_Some in Hi as (l & r & -> & <- & Hr).
  rewrite bind_Ok. intros ([[h' j] k] & Hh & Hrest).
  case_decide as H1; [|done]. case_decide as H2; [|done].
  injection Hrest as -> <-. rewrite index_byte_None in H1, H2.
  assert (drop (length l + 1) (l ++ chr ":" :: r) = r) as Hd by (by rewrite drop_app_add').
  rewrite Hd.
  destruct (has_prefix (l ++ chr ":" :: r) (lit "[")) eqn:Hpre.
  - apply has_prefix_inv in Hpre. set (t := trim_prefix _ _) in Hpre.
    destruct (index_byte _ (chr "]")) as [e|] eqn:He; [|done].
    apply index_byte_Some in He as (l' & r' & Heq & <- & Hl').
    case_decide; [done|]. case_decide as Hel; [|by case_decide].
    injection Hh as <- <- <-. rewrite Heq in *.
    assert (l = l' ++ [chr "]"] ∧ chr ":" :: r = r') as [-> <-].
    { apply app_inj_1; [rewrite length_app; cbn; lia|]. rewrite <- app_assoc. done. }
    destruct l' as [|x l']; [done|]. cbn in Hpre. injection Hpre as -> Ht.
    cbn [take app length]. rewrite take_app_length. cbn [drop] in *. rewrite drop_0 in *.
    rewrite drop_app_add' in H2 by done. cbn [drop] in H1, H2. cbn [app] in H1.
    split; [|by right].
    unfold bracket_free. set_solver.
  - case_decide as Hc; [|done]. injection Hh as <- <- <-.
    rewrite take_app_length in *. rewrite index_byte_None in Hc. rewrite drop_0 in *.
    split; [|by left]. unfold bracket_free. set_solver.
Qed.
