(* ===== verification/Filepath.v ===== *)
(** * Paths: what the program uses of path/filepath on Unix

    [Clean], [Base], [Dir] and [Join] as the standard library computes them, by
    the components of a path, and what they do to a file name appended to a
    directory. *)
From S2P Require Import Prelude GoStrings NetAddr NetAddrSpec.

Definition SLASH : byte := chr "/".
Definition dot : gostring := lit ".".
Definition dotdot : gostring := lit "..".

Definition rooted (path : gostring) : bool := match path with c :: _ => bool_decide (c = SLASH) | [] => false end.

(** One component of a path, onto those before it (the last one first). *)
Definition clean_step (root : bool) (out : list gostring) (w : gostring) : list gostring :=
  if decide (w = [] ∨ w = dot) then out
  else if decide (w = dotdot) then
    match out with
    | v :: out' => if decide (v = dotdot) then w :: out else out'
    | [] => if root then [] else [w]
    end
  else w :: out.

Definition render (root : bool) (out : list gostring) : gostring :=
  let body := join (reverse out) [SLASH] in
  if root then SLASH :: body else if decide (out = []) then dot else body.

Definition Clean (path : gostring) : gostring :=
  render (rooted path) (foldl (clean_step (rooted path)) [] (split_byte path SLASH)).

(** After the last slash, and up to it. *)
Definition after_slash (path : gostring) : gostring :=
  match last_index_byte path SLASH with Some i => drop (S i) path | None => path end.
Definition to_slash (path : gostring) : gostring :=
  match last_index_byte path SLASH with Some i => take (S i) path | None => [] end.

Definition Base (path : gostring) : gostring :=
  if decide (path = []) then dot
  else let w := after_slash (trim_right path SLASH) in if decide (w = []) then [SLASH] else w.

Definition Dir (path : gostring) : gostring := Clean (to_slash path).

(** Leading empty elements are skipped. *)
Fixpoint Join (elems : list gostring) : gostring :=
  match elems with
  | [] => []
  | e :: es => if decide (e = []) then Join es else Clean (join (e :: es) [SLASH])
  end.

(** ** Clean paths *)
Definition component (w : gostring) : Prop := w ≠ [] ∧ w ≠ dot ∧ SLASH ∉ w.

(** The components of a clean path, the last one first: ".." only at the front of
    a relative one. *)
Inductive canonical (root : bool) : list gostring → Prop :=
  | can_nil : canonical root []
  | can_up out : root = false → canonical root out → Forall (eq dotdot) out → canonical root (dotdot :: out)
  | can_name w out : component w → w ≠ dotdot → canonical root out → canonical root (w :: out).

Lemma component_dotdot : component dotdot.
Proof. split_and!; [done..|]. unfold dotdot, SLASH, lit, chr. set_solver. Qed.

Lemma canonical_components root out : canonical root out → Forall component out.
Proof. induction 1; constructor; try done. apply component_dotdot. Qed.

Lemma canonical_step root out w : canonical root out → SLASH ∉ w → canonical root (clean_step root out w).
Proof.
  intros Hc Hw. unfold clean_step. case_decide as Hd; [done|]. case_decide as Hu.
  - subst w. destruct Hc as [|out Hr Hc Hall|v out Hv Hne Hc].
    + destruct root; [constructor|]. by constructor; [|constructor|].
    + rewrite decide_True by done. constructor; [done|by constructor|by constructor].
    + by rewrite decide_False.
  - apply can_name; [|done|done]. split_and!; naive_solver.
Qed.

Lemma canonical_fold root out ws :
  canonical root out → Forall (λ w, SLASH ∉ w) ws → canonical root (foldl (clean_step root) out ws).
Proof.
  revert out. induction ws as [|w ws IH]; intros out Hc; [done|]. intros [Hw Hws]%Forall_cons. cbn.
  apply IH; [by apply canonical_step|done].
Qed.

(** The components of a clean path are kept. *)
Lemma clean_step_keeps root w out : canonical root (w :: out) → clean_step root out w = w :: out.
Proof.
  intros Hc. unfold clean_step. inversion Hc as [|? Hr Hc' Hall|? ? [Hn [Hd _]] Hne Hc']; subst.
  - rewrite decide_False by (by intros [?|?]). rewrite decide_True by done. destruct out as [|v out]; [done|].
    apply Forall_cons in Hall as [<- _]. by rewrite decide_True.
  - rewrite decide_False by naive_solver. by rewrite decide_False.
Qed.

Lemma canonical_tail root w out : canonical root (w :: out) → canonical root out.
Proof. by inversion 1. Qed.

Lemma fold_keeps root out : canonical root out → foldl (clean_step root) [] (reverse out) = out.
Proof.
  induction out as [|w out IH]; [done|]. intros Hc. rewrite reverse_cons, foldl_app, IH by (by eapply canonical_tail).
  by apply clean_step_keeps.
Qed.

(** ** A file in a directory *)
Lemma split_snoc (ws : list gostring) w :
  Forall (λ v, SLASH ∉ v) ws → SLASH ∉ w → split_byte (join (ws ++ [w]) [SLASH]) SLASH = ws ++ [w].
Proof. intros Hws Hw. apply split_join; [by destruct ws|]. apply Forall_app. by split; [|constructor]. Qed.

Lemma canonical_plain root out : canonical root out → Forall (λ v, SLASH ∉ v) (reverse out).
Proof.
  intros Hc. apply Forall_reverse. eapply Forall_impl; [by eapply canonical_components|]. by intros w (_ & _ & ?).
Qed.

(** Anything without a slash after a clean directory, "." apart. *)
Lemma render_slash root out w :
  canonical root out → SLASH ∉ w → root = true ∨ out ≠ [] →
  rooted (render root out ++ [SLASH] ++ w) = root ∧
  foldl (clean_step root) [] (split_byte (render root out ++ [SLASH] ++ w) SLASH) = clean_step root out w.
Proof.
  intros Hc Hw Hne. pose proof (canonical_plain _ _ Hc) as Hpl.
  assert (∀ c s, split_byte (c :: s) SLASH = if decide (c = SLASH) then [] :: split_byte s SLASH else split_byte (c :: s) SLASH) as Hcons.
  { intros c s. cbn. by case_decide. }
  assert (out ≠ [] → join (reverse out) [SLASH] ++ [SLASH] ++ w = join (reverse out ++ [w]) [SLASH]) as Hj.
  { intros Ho. rewrite join_snoc; [done|]. intros Hr. apply Ho. by apply (f_equal reverse) in Hr; rewrite reverse_involutive in Hr. }
  assert (foldl (clean_step root) [] (reverse out ++ [w]) = clean_step root out w) as Hf.
  { by rewrite foldl_app, fold_keeps. }
  unfold render. destruct root.
  - split; [cbn; by rewrite bool_decide_true|]. rewrite <- app_comm_cons, Hcons, decide_True by done. cbn [foldl].
    assert (clean_step true [] [] = []) as -> by done.
    destruct (decide (out = [])) as [->|Ho].
    + cbn [reverse rev_append join app]. rewrite Hcons, decide_True by done. cbn [foldl].
      assert (clean_step true [] [] = []) as -> by done. by rewrite split_byte_none.
    + by rewrite Hj, split_snoc.
  - destruct Hne as [?|Ho]; [done|]. rewrite decide_False by done. split.
    + destruct out as [|v out] using rev_ind; [done|]. rewrite reverse_snoc.
      pose proof (canonical_components _ _ Hc) as Hcs. apply Forall_app in Hcs as [_ [(Hn & _ & Hs) _]%Forall_cons].
      destruct v as [|c v]; [done|]. assert (c ≠ SLASH) as Hcne by set_solver.
      destruct (reverse out) as [|u us]; cbn; by rewrite bool_decide_false.
    + by rewrite Hj, split_snoc.
Qed.

Lemma Clean_canonical path :
  ∃ out, canonical (rooted path) out ∧ Clean path = render (rooted path) out.
Proof.
  eexists. split; [|done]. apply canonical_fold; [constructor|]. apply split_byte_pieces.
Qed.

Lemma to_slash_app s w : SLASH ∉ w → to_slash (s ++ [SLASH] ++ w) = s ++ [SLASH] ∧ after_slash (s ++ [SLASH] ++ w) = w.
Proof.
  intros Hw. unfold to_slash, after_slash. change (s ++ [SLASH] ++ w) with (s ++ SLASH :: w).
  rewrite last_index_byte_app by done.
  assert (s ++ SLASH :: w = (s ++ [SLASH]) ++ w) as -> by (by rewrite <- app_assoc).
  split; [apply take_app_length'|apply drop_app_length']; rewrite length_app; cbn; lia.
Qed.

Lemma render_not_nil root out : canonical root out → render root out ≠ [].
Proof.
  intros Hc. unfold render. destruct root; [done|]. case_decide as Ho; [done|].
  destruct out as [|v out] using rev_ind; [done|]. rewrite reverse_snoc.
  pose proof (canonical_components _ _ Hc) as Hcs. apply Forall_app in Hcs as [_ [(Hn & _) _]%Forall_cons].
  destruct v; [done|]. by destruct (reverse out).
Qed.

(** A name joined to a clean directory: the directory and the name of the
    result. *)
Lemma render_cons root out name :
  canonical root out → component name → name ≠ dotdot →
  Clean (render root out ++ [SLASH] ++ name) = render root (name :: out) ∧
  Dir (render root (name :: out)) = render root out ∧ after_slash (render root (name :: out)) = name.
Proof.
  intros Hc (Hne & Hnd & Hs) Hnn.
  assert (clean_step root out name = name :: out) as Hstep.
  { apply clean_step_keeps. by apply can_name. }
  destruct (decide (root = false ∧ out = [])) as [[-> ->]|Hd].
  - assert (render false [] ++ [SLASH] ++ name = dot ++ [SLASH] ++ name) as -> by done.
    assert (render false [name] = name) as -> by done. split.
    + unfold Clean. assert (rooted (dot ++ [SLASH] ++ name) = false) as -> by done.
      change ([SLASH] ++ name) with (SLASH :: name).
      rewrite split_byte_app, split_byte_none by (done || unfold dot, SLASH, lit, chr; set_solver).
      cbn [foldl]. assert (clean_step false [] dot = []) as -> by done. by rewrite Hstep.
    + unfold Dir, to_slash, after_slash. by rewrite (proj2 (last_index_byte_None _ _)).
  - assert (root = true ∨ out ≠ []) as Hor by (destruct root; [by left|right; naive_solver]).
    destruct (render_slash root out name Hc Hs Hor) as [Hr Hf]. split; [unfold Clean; by rewrite Hr, Hf, Hstep|].
    assert (render root (name :: out) = (if decide (out = []) then [SLASH] else render root out ++ [SLASH]) ++ name ∧
      Clean (if decide (out = []) then [SLASH] else render root out ++ [SLASH]) = render root out) as [Hcons Hdir].
    { destruct (decide (out = [])) as [->|Ho].
      - destruct Hor as [->|?]; done.
      - split.
        + unfold render. rewrite reverse_cons, join_snoc by (intros Hrv; apply Ho; by apply (f_equal reverse) in Hrv; rewrite reverse_involutive in Hrv).
          destruct root; [by rewrite app_assoc|]. rewrite !decide_False by done. by rewrite app_assoc.
        + destruct (render_slash root out [] Hc) as [Hr0 Hf0]; [set_solver|done|]. rewrite app_nil_r in Hr0, Hf0.
          unfold Clean. rewrite Hr0, Hf0. done. }
    rewrite Hcons. destruct (decide (out = [])) as [Ho|Ho].
    + destruct (to_slash_app [] name Hs) as [Ht Ha]. change ([] ++ [SLASH] ++ name) with ([SLASH] ++ name) in Ht, Ha. unfold Dir. by rewrite Ht, Ha.
    + rewrite <- app_assoc. destruct (to_slash_app (render root out) name Hs) as [Ht Ha]. unfold Dir. rewrite Ht, Ha. done.
Qed.

Lemma Join_file path name :
  component name → name ≠ dotdot →
  Dir (Join [Dir path; name]) = Dir path ∧ after_slash (Join [Dir path; name]) = name.
Proof.
  intros Hn Hd. destruct (Clean_canonical (to_slash path)) as (out & Hc & Heq).
  unfold Dir at 2 3 4. cbn [Join]. rewrite Heq. rewrite decide_False by (by apply render_not_nil).
  destruct (render_cons _ _ name Hc Hn Hd) as (Hcl & Hdir & Hafter).
  change (join [render (rooted (to_slash path)) out; name] [SLASH]) with (render (rooted (to_slash path)) out ++ [SLASH] ++ name).
  rewrite Hcl, Hafter. split; [exact Hdir|done].
Qed.
