(* ===== verification/Sha256.v ===== *)
(** * SHA-256 and HMAC: what the program uses of crypto/sha256 and crypto/hmac

    The two functions as FIPS 180-4 and RFC 2104 define them, on machine words
    of 32 bits written as [Z], checked on published vectors. *)
From S2P Require Import Prelude Wire.
#[local] Open Scope Z_scope.

Definition w32 (z : Z) : Z := z mod 2 ^ 32.
Definition rotr (x n : Z) : Z := Z.lor (Z.shiftr x n) (w32 (Z.shiftl x (32 - n))).

(** The constants: the first 32 bits of the fractional parts of the cube roots of
    the first 64 primes, and of the square roots of the first eight. *)
Definition is_prime (n : nat) : bool :=
  (1 <? n)%nat && forallb (λ d, negb (Nat.modulo n d =? 0)%nat) (seq 2 (n - 2)).
Definition first_primes (k : nat) : list Z :=
  Z.of_nat <$> take k (filter (λ n, is_prime n = true) (seq 2 311)).

(** The integer cube root of [n] below [2 ^ bits], bit by bit. *)
Definition cube_root (bits : nat) (n : Z) : Z :=
  foldr (λ i r, let r' := r + 2 ^ Z.of_nat i in if r' ^ 3 <=? n then r' else r) 0
    (seq 0 bits).

Definition sha_k : list Z :=
  Eval vm_compute in (λ p, w32 (cube_root 36 (p * 2 ^ 96))) <$> first_primes 64.
Definition sha_h0 : list Z :=
  Eval vm_compute in (λ p, w32 (Z.sqrt (p * 2 ^ 64))) <$> first_primes 8.

(** Words of a byte sequence, big-endian. *)
Fixpoint be_words (bs : list byte) : list Z :=
  match bs with
  | a :: b :: c :: d :: bs =>
     (((u8 a * 256 + u8 b) * 256 + u8 c) * 256 + u8 d) :: be_words bs
  | _ => []
  end.

(** The message schedule, kept as the last sixteen words, newest last. *)
Definition schedule_next (w : list Z) : Z :=
  let g i := nth i w 0 in
  let s0 := Z.lxor (Z.lxor (rotr (g 1%nat) 7) (rotr (g 1%nat) 18)) (Z.shiftr (g 1%nat) 3) in
  let s1 := Z.lxor (Z.lxor (rotr (g 14%nat) 17) (rotr (g 14%nat) 19)) (Z.shiftr (g 14%nat) 10) in
  w32 (g 0%nat + s0 + g 9%nat + s1).

Definition sha_round (st : list Z) (k w : Z) : list Z :=
  match st with
  | [a; b; c; d; e; f; g; h] =>
     let S1 := Z.lxor (Z.lxor (rotr e 6) (rotr e 11)) (rotr e 25) in
     let ch := Z.lxor (Z.land e f) (Z.land (Z.lxor e (2 ^ 32 - 1)) g) in
     let t1 := h + S1 + ch + k + w in
     let S0 := Z.lxor (Z.lxor (rotr a 2) (rotr a 13)) (rotr a 22) in
     let maj := Z.lxor (Z.lxor (Z.land a b) (Z.land a c)) (Z.land b c) in
     let t2 := S0 + maj in
     [w32 (t1 + t2); a; b; c; w32 (d + t1); e; f; g]
  | _ => st
  end.

Fixpoint sha_rounds (ks : list Z) (w : list Z) (st : list Z) : list Z :=
  match ks with
  | [] => st
  | k :: ks =>
     sha_rounds ks (drop 1 w ++ [schedule_next w]) (sha_round st k (nth 0 w 0))
  end.

Definition sha_block (st : list Z) (block : list byte) : list Z :=
  zip_with (λ a b, w32 (a + b)) st (sha_rounds sha_k (be_words block) st).

Fixpoint sha_blocks (n : nat) (st : list Z) (bs : list byte) : list Z :=
  match n with
  | O => st
  | S n => sha_blocks n (sha_block st (take 64 bs)) (drop 64 bs)
  end.

(** The padding: a one bit, zeros up to 56 bytes modulo 64, the bit length. *)
Definition sha_pad (bs : list byte) : list byte :=
  bs ++ [byte_of 128] ++ replicate (Z.to_nat ((55 - Z.of_nat (length bs)) mod 64)) NUL
  ++ be_bytes 8 (8 * Z.of_nat (length bs)).

Definition sha256 (bs : list byte) : list byte :=
  let p := sha_pad bs in
  sha_blocks (Nat.div (length p) 64) sha_h0 p ≫= be_bytes 4.

(** [hmac.New(sha256.New, key)], [Write(msg)], [Sum(nil)]. *)
Definition xor_byte (x : Z) (c : byte) : byte := byte_of (Z.lxor (u8 c) x).
Definition hmac_sha256 (key msg : list byte) : list byte :=
  let key := if bool_decide (64 < length key)%nat then sha256 key else key in
  let key := key ++ replicate (64 - length key) NUL in
  sha256 ((xor_byte 92 <$> key) ++ sha256 ((xor_byte 54 <$> key) ++ msg)).

(** ** Sizes *)
Lemma length_sha_round st k w : length st = 8%nat → length (sha_round st k w) = 8%nat.
Proof. by do 9 (destruct st as [|? st]; try done). Qed.

Lemma length_sha_rounds ks w st : length st = 8%nat → length (sha_rounds ks w st) = 8%nat.
Proof. revert w st. induction ks as [|k ks IH]; intros w st H; [done|]. by apply IH, length_sha_round. Qed.

Lemma length_sha_blocks n st bs : length st = 8%nat → length (sha_blocks n st bs) = 8%nat.
Proof.
  revert st bs. induction n as [|n IH]; intros st bs H; [done|]. apply IH.
  unfold sha_block. rewrite length_zip_with, length_sha_rounds, H by done. done.
Qed.

Lemma length_sha256 bs : length (sha256 bs) = 32%nat.
Proof.
  unfold sha256. cbv zeta.
  pose proof (length_sha_blocks (Nat.div (length (sha_pad bs)) 64) sha_h0 (sha_pad bs) eq_refl) as H.
  remember (sha_blocks _ _ _) as ws eqn:E. clear E. do 9 (destruct ws as [|? ws]; try done).
Qed.

Lemma length_hmac_sha256 k m : length (hmac_sha256 k m) = 32%nat.
Proof. apply length_sha256. Qed.

(** ** Published vectors: FIPS 180-4's "abc" and RFC 4231's second case. *)
Example sha256_abc :
  u8 <$> sha256 (lit "abc") =
  [186; 120; 22; 191; 143; 1; 207; 234; 65; 65; 64; 222; 93; 174; 34; 35;
   176; 3; 97; 163; 150; 23; 122; 156; 180; 16; 255; 97; 242; 0; 21; 173].
Proof. by vm_compute. Qed.

Example hmac_sha256_jefe :
  u8 <$> hmac_sha256 (lit "Jefe") (lit "what do ya want for nothing?") =
  [91; 220; 193; 70; 191; 96; 117; 78; 106; 4; 36; 38; 8; 149; 117; 199;
   90; 0; 63; 8; 157; 39; 57; 131; 157; 236; 88; 185; 100; 236; 56; 67].
Proof. by vm_compute. Qed.

#[global] Opaque sha256 hmac_sha256.
