(* ===== verification/Sha1.v ===== *)
(** * SHA-1: what the program uses of crypto/sha1

    As FIPS 180-4 defines it, on the words, padding and rotations of the SHA-256
    model, checked on a published vector. *)
From S2P Require Import Prelude Wire Sha256.
#[local] Open Scope Z_scope.

(** The round constants: [2^30] times the square roots of 2, 3, 5 and 10. *)
Definition sha1_constants : list Z :=
  Eval vm_compute in (λ n, Z.sqrt (n * 2 ^ 60)) <$> [2; 3; 5; 10].

(** The initial state: the bytes 01 23 ... ef, then fe dc ... 10 and c3d2e1f0,
    read backwards in words. *)
Definition sha1_start : list Z :=
  [le_val (byte_of <$> [1; 35; 69; 103]); le_val (byte_of <$> [137; 171; 205; 239]);
   le_val (byte_of <$> [254; 220; 186; 152]); le_val (byte_of <$> [118; 84; 50; 16]);
   le_val (byte_of <$> [240; 225; 210; 195])].

Definition rotl (x n : Z) : Z := rotr x (32 - n).

(** The mixing function of the four quarters of the eighty rounds. *)
Definition sha1_mix (quarter : nat) (b c d : Z) : Z :=
  match quarter with
  | 0%nat => Z.lor (Z.land b c) (Z.land (Z.lxor b (2 ^ 32 - 1)) d)
  | 2%nat => Z.lor (Z.land b c) (Z.lor (Z.land b d) (Z.land c d))
  | _ => Z.lxor b (Z.lxor c d)
  end.

(** The schedule is kept as its last sixteen words. *)
Definition sha1_next (w : list Z) : Z :=
  rotl (Z.lxor (Z.lxor (nth 13 w 0) (nth 8 w 0)) (Z.lxor (nth 2 w 0) (nth 0 w 0))) 1.

Definition sha1_step (i : nat) (st : list Z) (w : Z) : list Z :=
  let q := Nat.div i 20 in
  match st with
  | [a; b; c; d; e] =>
     [w32 (rotl a 5 + sha1_mix q b c d + e + nth q sha1_constants 0 + w); a; rotl b 30; c; d]
  | _ => st
  end.

Fixpoint sha1_rounds (n i : nat) (w st : list Z) : list Z :=
  match n with
  | O => st
  | S n => sha1_rounds n (S i) (drop 1 w ++ [sha1_next w]) (sha1_step i st (nth 0 w 0))
  end.

Fixpoint sha1_blocks (n : nat) (st : list Z) (bs : list byte) : list Z :=
  match n with
  | O => st
  | S n =>
     let st' := sha1_rounds 80 0 (be_words (take 64 bs)) st in
     sha1_blocks n (zip_with (λ a b, w32 (a + b)) st st') (drop 64 bs)
  end.

Definition sha1 (bs : list byte) : list byte :=
  let p := sha_pad bs in
  sha1_blocks (Nat.div (length p) 64) sha1_start p ≫= be_bytes 4.

Example sha1_abc :
  u8 <$> sha1 (lit "abc") =
  [169; 153; 62; 54; 71; 6; 129; 106; 186; 62; 37; 113; 120; 80; 194; 108; 156; 208; 216; 157].
Proof. by vm_compute. Qed.

Lemma length_sha1_step i st w : length st = 5%nat → length (sha1_step i st w) = 5%nat.
Proof. by do 6 (destruct st as [|? st]; try done). Qed.

Lemma length_sha1_rounds n i w st : length st = 5%nat → length (sha1_rounds n i w st) = 5%nat.
Proof. revert i w st. induction n as [|n IH]; intros i w st Hst; [done|]. by apply IH, length_sha1_step. Qed.

Lemma length_sha1 bs : length (sha1 bs) = 20%nat.
Proof.
  unfold sha1. cbv zeta.
  assert (∀ n st l, length st = 5%nat → length (sha1_blocks n st l) = 5%nat) as Hblocks.
  { induction n as [|n IH]; intros st l Hst; [done|]. apply IH.
    by rewrite length_zip_with, length_sha1_rounds, Hst. }
  specialize (Hblocks (Nat.div (length (sha_pad bs)) 64) sha1_start (sha_pad bs) eq_refl).
  remember (sha1_blocks _ _ _) as ws eqn:E. clear E. by do 6 (destruct ws as [|? ws]; try done).
Qed.

#[global] Opaque sha1.
