(* ===== verification/Codec.v ===== *)
(** * Hexadecimal and base64: encoding/hex, and encoding/base64's RawURLEncoding

    Encoders and decoders as the standard library computes them (the base64
    decoder skips line breaks and ignores the unused bits of the last character),
    their round trips, and the characters they produce. *)
From S2P Require Import Prelude Wire NetAddr.
#[local] Open Scope Z_scope.

(** ** Hexadecimal *)
Definition hex_lower (z : Z) : byte := if z <? 10 then byte_of (48 + z) else byte_of (87 + z).

Definition hex_encode (bs : list byte) : gostring :=
  bs ≫= λ c, [hex_lower (u8 c / 16); hex_lower (u8 c mod 16)].

Definition hex_err : goerr := Errorf "encoding/hex" [].

Fixpoint hex_decode (s : gostring) : res (list byte) :=
  match s with
  | [] => Ok []
  | [_] => Err hex_err
  | a :: b :: s' =>
     match hex_val a, hex_val b with
     | Some x, Some y => bs ← hex_decode s'; Ok (byte_of (16 * x + y) :: bs)
     | _, _ => Err hex_err
     end
  end.

(** ** Base64, URL alphabet, without padding *)
Definition b64_char (z : Z) : byte :=
  if z <? 26 then byte_of (65 + z)
  else if z <? 52 then byte_of (71 + z)
  else if z <? 62 then byte_of (z - 4)
  else if z =? 62 then chr "-" else chr "_".

Definition b64_val (c : byte) : option Z :=
  if is_upper c then Some (u8 c - 65)
  else if is_lower c then Some (u8 c - 71)
  else if is_digit c then Some (u8 c + 4)
  else if decide (c = chr "-") then Some 62
  else if decide (c = chr "_") then Some 63
  else None.

Fixpoint b64_encode (bs : list byte) : gostring :=
  match bs with
  | a :: b :: c :: bs' =>
     let v := u8 a * 65536 + u8 b * 256 + u8 c in
     b64_char (v / 262144) :: b64_char (v / 4096 mod 64) :: b64_char (v / 64 mod 64)
     :: b64_char (v mod 64) :: b64_encode bs'
  | [a; b] =>
     let v := u8 a * 65536 + u8 b * 256 in
     [b64_char (v / 262144); b64_char (v / 4096 mod 64); b64_char (v / 64 mod 64)]
  | [a] =>
     let v := u8 a * 65536 in
     [b64_char (v / 262144); b64_char (v / 4096 mod 64)]
  | [] => []
  end.

(** The digits, once line breaks are skipped. *)
Fixpoint b64_groups (ds : list Z) : res (list byte) :=
  match ds with
  | a :: b :: c :: d :: ds' =>
     let v := a * 262144 + b * 4096 + c * 64 + d in
     bs ← b64_groups ds';
     Ok (byte_of (v / 65536) :: byte_of (v / 256) :: byte_of v :: bs)
  | [a; b; c] =>
     let v := a * 262144 + b * 4096 + c * 64 in Ok [byte_of (v / 65536); byte_of (v / 256)]
  | [a; b] => let v := a * 262144 + b * 4096 in Ok [byte_of (v / 65536)]
  | [_] => Err (Errorf "illegal base64 data" [])
  | [] => Ok []
  end.

Definition b64_decode (s : gostring) : res (list byte) :=
  match mapM b64_val (filter (λ c, c ≠ byte_of 10 ∧ c ≠ byte_of 13) s) with
  | Some ds => b64_groups ds
  | None => Err (Errorf "illegal base64 data" [])
  end.

(** ** Lemmas *)

(** [lia] with division and remainder by constants. *)
Ltac div_lia := Z.to_euclidean_division_equations; lia.


(** Facts about all bytes or all small integers, by computation. *)
Definition all_bytes : list byte := byte_of <$> seqZ 0 256.

Lemma elem_of_all_bytes c : c ∈ all_bytes.
Proof.
  apply list_elem_of_fmap. exists (u8 c). rewrite byte_of_u8. split; [done|].
  apply elem_of_seqZ. pose proof (u8_range c). lia.
Qed.

Lemma all_bytes_forall (P : byte → bool) : forallb P all_bytes = true → ∀ c, P c = true.
Proof. intros H c. rewrite forallb_forall in H. apply H, list_elem_of_In, elem_of_all_bytes. Qed.

Lemma seqZ_forall (P : Z → bool) n : forallb P (seqZ 0 n) = true → ∀ z, 0 <= z < n → P z = true.
Proof.
  intros H z Hz. rewrite forallb_forall in H. apply H, list_elem_of_In, elem_of_seqZ. lia.
Qed.

Lemma div_range v k m : 0 < k → 0 <= v < m * k → 0 <= v / k < m.
Proof. intros Hk Hv. split; [apply Z.div_pos; lia|apply Z.div_lt_upper_bound; lia]. Qed.

Lemma hex_val_lower z : 0 <= z < 16 → hex_val (hex_lower z) = Some z.
Proof.
  intros Hz. apply (bool_decide_eq_true (hex_val (hex_lower z) = Some z)).
  revert z Hz. apply (seqZ_forall (λ z, bool_decide (hex_val (hex_lower z) = Some z))).
  by vm_compute.
Qed.

Lemma hex_decode_encode bs : hex_decode (hex_encode bs) = Ok bs.
Proof.
  induction bs as [|c bs IH]; [done|]. unfold hex_encode in *. rewrite bind_cons.
  cbn [app hex_decode]. pose proof (u8_range c).
  rewrite (hex_val_lower (u8 c / 16)) by (apply (div_range _ 16 16); lia).
  rewrite (hex_val_lower (u8 c mod 16)) by (apply Z.mod_pos_bound; lia).
  rewrite IH. cbn. rewrite <- Z.div_mod by lia. by rewrite byte_of_u8.
Qed.

Lemma length_hex_encode bs : length (hex_encode bs) = (2 * length bs)%nat.
Proof. induction bs as [|c bs IH]; [done|]. unfold hex_encode in *. rewrite bind_cons. cbn. lia. Qed.

Lemma b64_val_char z : 0 <= z < 64 → b64_val (b64_char z) = Some z.
Proof.
  intros Hz. apply (bool_decide_eq_true (b64_val (b64_char z) = Some z)).
  revert z Hz. apply (seqZ_forall (λ z, bool_decide (b64_val (b64_char z) = Some z))).
  by vm_compute.
Qed.

Lemma b64_char_plain z :
  0 <= z < 64 → b64_char z ≠ byte_of 10 ∧ b64_char z ≠ byte_of 13 ∧ b64_char z ≠ chr ".".
Proof.
  intros Hz. apply (bool_decide_eq_true (b64_char z ≠ byte_of 10 ∧ b64_char z ≠ byte_of 13 ∧ b64_char z ≠ chr ".")).
  revert z Hz.
  apply (seqZ_forall (λ z, bool_decide (b64_char z ≠ byte_of 10 ∧ b64_char z ≠ byte_of 13 ∧ b64_char z ≠ chr "."))).
  by vm_compute.
Qed.

(** The digits of an encoding. *)
Fixpoint b64_digits (bs : list byte) : list Z :=
  match bs with
  | a :: b :: c :: bs' =>
     let v := u8 a * 65536 + u8 b * 256 + u8 c in
     v / 262144 :: v / 4096 mod 64 :: v / 64 mod 64 :: v mod 64 :: b64_digits bs'
  | [a; b] =>
     let v := u8 a * 65536 + u8 b * 256 in [v / 262144; v / 4096 mod 64; v / 64 mod 64]
  | [a] => let v := u8 a * 65536 in [v / 262144; v / 4096 mod 64]
  | [] => []
  end.

Lemma list_triple_ind {A} (P : list A → Prop) :
  P [] → (∀ x, P [x]) → (∀ x y, P [x; y]) → (∀ x y z l, P l → P (x :: y :: z :: l)) → ∀ l, P l.
Proof.
  intros H0 H1 H2 H3 l. cut (P l ∧ (∀ x, P (x :: l)) ∧ ∀ x y, P (x :: y :: l)); [tauto|].
  induction l as [|z l (IHl & IHx & IHy)]; split_and!; auto.
Qed.

Lemma b64_encode_digits bs : b64_encode bs = b64_char <$> b64_digits bs.
Proof. induction bs as [|a|a b|a b c bs IH] using list_triple_ind; cbn; congruence. Qed.

Lemma b64_digits_range bs : Forall (λ z, 0 <= z < 64) (b64_digits bs).
Proof.
  induction bs as [|a|a b|a b c bs IH] using list_triple_ind; cbn [b64_digits];
    [constructor|..];
    pose proof (u8_range a); try pose proof (u8_range b); try pose proof (u8_range c);
    repeat (apply Forall_cons; split);
    first [exact IH | apply Forall_nil; exact I | apply Z.mod_pos_bound; lia | apply div_range; lia].
Qed.

(** Recombining digits. *)
Lemma digits_recombine v :
  v / 262144 * 262144 + v / 4096 mod 64 * 4096 + v / 64 mod 64 * 64 + v mod 64 = v.
Proof. div_lia. Qed.

Lemma byte_of_high a r : 0 <= r < 65536 → byte_of ((u8 a * 65536 + r) / 65536) = a.
Proof.
  intros Hr. rewrite Z.div_add_l, Z.div_small, Z.add_0_r by lia. apply byte_of_u8.
Qed.

Lemma byte_of_plus z c : byte_of (256 * z + u8 c) = c.
Proof.
  rewrite <- byte_of_mod. rewrite Z.add_comm, Z.mul_comm, Z.mod_add by lia.
  rewrite byte_of_mod. apply byte_of_u8.
Qed.

Lemma b64_groups_digits bs : b64_groups (b64_digits bs) = Ok bs.
Proof.
  induction bs as [|a|a b|a b c bs IH] using list_triple_ind; [done|..]; cbn [b64_digits b64_groups].
  - do 2 f_equal. pose proof (u8_range a).
    replace (u8 a * 65536 / 262144 * 262144 + u8 a * 65536 / 4096 mod 64 * 4096)
      with (u8 a * 65536 + 0) by div_lia.
    by apply byte_of_high.
  - pose proof (u8_range a). pose proof (u8_range b). set (v := u8 a * 65536 + u8 b * 256).
    replace (v / 262144 * 262144 + v / 4096 mod 64 * 4096 + v / 64 mod 64 * 64)
      with (u8 a * 65536 + u8 b * 256) by (subst v; div_lia).
    rewrite byte_of_high by lia. do 3 f_equal.
    replace ((u8 a * 65536 + u8 b * 256) / 256) with (256 * u8 a + u8 b) by div_lia. f_equal.
    apply byte_of_plus.
  - rewrite IH. cbn. pose proof (u8_range a). pose proof (u8_range b). pose proof (u8_range c).
    rewrite digits_recombine. rewrite <- Z.add_assoc at 1. rewrite byte_of_high by lia.
    replace ((u8 a * 65536 + u8 b * 256 + u8 c) / 256) with (256 * u8 a + u8 b) by div_lia.
    rewrite byte_of_plus.
    replace (u8 a * 65536 + u8 b * 256 + u8 c) with (256 * (256 * u8 a + u8 b) + u8 c) by lia.
    by rewrite byte_of_plus.
Qed.

Lemma b64_encode_plain bs :
  Forall (λ c, c ≠ byte_of 10 ∧ c ≠ byte_of 13 ∧ c ≠ chr ".") (b64_encode bs).
Proof.
  rewrite b64_encode_digits. apply Forall_fmap. eapply Forall_impl; [apply b64_digits_range|].
  intros z Hz. by apply b64_char_plain.
Qed.

Lemma b64_encode_no_dot bs : chr "." ∉ b64_encode bs.
Proof.
  intros Hin. pose proof (b64_encode_plain bs) as H. rewrite Forall_forall in H.
  by apply H in Hin as (_ & _ & ?).
Qed.

Lemma b64_decode_encode bs : b64_decode (b64_encode bs) = Ok bs.
Proof.
  unfold b64_decode.
  assert (filter (λ c, c ≠ byte_of 10 ∧ c ≠ byte_of 13) (b64_encode bs) = b64_encode bs) as ->.
  { pose proof (b64_encode_plain bs) as H. induction H as [|c l (H1 & H2 & _) _ IH]; [done|].
    rewrite filter_cons, decide_True by done. by rewrite IH. }
  rewrite b64_encode_digits.
  assert (mapM b64_val (b64_char <$> b64_digits bs) = Some (b64_digits bs)) as ->.
  { pose proof (b64_digits_range bs) as H. induction H as [|z l Hz _ IH]; [done|].
    cbn. rewrite b64_val_char by done. cbn. by rewrite IH. }
  apply b64_groups_digits.
Qed.
