(* ===== verification/Json.v ===== *)
(** * JSON: what the program uses of encoding/json

    [Marshal] of strings, integers, arrays and string-keyed maps, and the parser
    behind [Unmarshal], as the standard library computes them: HTML-safe string
    escapes, invalid UTF-8 replaced by U+FFFD, surrogate pairs, the nesting
    limit of 10000.  A number is its literal. *)
From S2P Require Import Prelude Wire GoStrings NetAddr Codec.
#[local] Open Scope Z_scope.

#[warnings="-register-all"]
Inductive json :=
  | JNull
  | JBool (b : bool)
  | JNum (literal : gostring)
  | JStr (s : gostring)
  | JArr (l : list json)
  | JObj (members : list (gostring * json)).

(** A Go map: its members in the order of their keys, as [Marshal] sorts them. *)
Definition key_le {A} (a b : gostring * A) : Prop := string_leP a.1 b.1.
#[export] Instance key_le_dec {A} (a b : gostring * A) : Decision (key_le a b).
Proof. unfold key_le. apply _. Defined.
Definition jmap (members : list (gostring * json)) : json := JObj (merge_sort key_le members).
Definition jint (z : Z) : json := JNum (itoa z).

(** ** UTF-8: the length of the rune at the head of a string, as
    [utf8.DecodeRune] accepts it; [None] for an invalid byte. *)
Definition in_range (c : byte) (lo hi : Z) : bool := (lo <=? u8 c) && (u8 c <=? hi).
Definition cont (c : byte) : bool := in_range c 128 191.

Definition second3 (c0 c1 : byte) : bool :=
  if u8 c0 =? 224 then in_range c1 160 191
  else if u8 c0 =? 237 then in_range c1 128 159
  else in_range c0 225 239 && cont c1.
Definition second4 (c0 c1 : byte) : bool :=
  if u8 c0 =? 240 then in_range c1 144 191
  else if u8 c0 =? 244 then in_range c1 128 143
  else in_range c0 241 243 && cont c1.

(** The bytes of a rune above ASCII and what follows it. *)
Definition rune_split (s : gostring) : option (gostring * gostring) :=
  match s with
  | c0 :: c1 :: r1 =>
     if in_range c0 194 223 && cont c1 then Some ([c0; c1], r1)
     else match r1 with
          | c2 :: r2 =>
             if second3 c0 c1 && cont c2 then Some ([c0; c1; c2], r2)
             else match r2 with
                  | c3 :: r3 =>
                     if second4 c0 c1 && cont c2 && cont c3 then Some ([c0; c1; c2; c3], r3)
                     else None
                  | [] => None
                  end
          | [] => None
          end
  | _ => None
  end.

Definition ascii (c : byte) : bool := u8 c <? 128.

(** U+FFFD, U+2028 and U+2029. *)
Definition replacement : gostring := byte_of <$> [239; 191; 189].
Definition line_sep : gostring := byte_of <$> [226; 128; 168].
Definition para_sep : gostring := byte_of <$> [226; 128; 169].

(** ** Marshal *)
Definition DQ : byte := byte_of 34.
Definition BS : byte := byte_of 92.

Definition hex_digit (z : Z) : byte := hex_lower z.

(** One ASCII byte inside a string. *)
Definition quote_ascii (c : byte) : gostring :=
  if decide (c = DQ ∨ c = BS) then [BS; c]
  else if u8 c =? 8 then BS :: lit "b"
  else if u8 c =? 12 then BS :: lit "f"
  else if u8 c =? 10 then BS :: lit "n"
  else if u8 c =? 13 then BS :: lit "r"
  else if u8 c =? 9 then BS :: lit "t"
  else if (u8 c <? 32) || (u8 c =? 60) || (u8 c =? 62) || (u8 c =? 38)
       then BS :: lit "u00" ++ [hex_digit (u8 c / 16); hex_digit (u8 c mod 16)]
  else [c].

Definition quote_rune (r : gostring) : gostring :=
  if decide (r = line_sep) then BS :: lit "u2028"
  else if decide (r = para_sep) then BS :: lit "u2029"
  else r.

(** The body of a quoted string; the fuel is the length of the string. *)
Fixpoint quote_loop (fuel : nat) (s : gostring) : gostring :=
  match fuel, s with
  | S fuel, c :: s' =>
     if ascii c then quote_ascii c ++ quote_loop fuel s'
     else match rune_split s with
          | Some (r, rest) => quote_rune r ++ quote_loop fuel rest
          | None => BS :: lit "ufffd" ++ quote_loop fuel s'
          end
  | _, _ => []
  end.
Definition quote_body (s : gostring) : gostring := quote_loop (length s) s.
Definition quote (s : gostring) : gostring := DQ :: quote_body s ++ [DQ].

Fixpoint Marshal (j : json) : gostring :=
  match j with
  | JNull => lit "null"
  | JBool b => if b then lit "true" else lit "false"
  | JNum l => l
  | JStr s => quote s
  | JArr l => chr "[" :: join (Marshal <$> l) (lit ",") ++ [chr "]"]
  | JObj ms =>
     byte_of 123 ::
       join ((fix members ms := match ms with
              | [] => []
              | (k, v) :: ms => (quote k ++ chr ":" :: Marshal v) :: members ms
              end) ms) (lit ",")
     ++ [byte_of 125]
  end.

(** ** The parser *)
Definition is_ws (c : byte) : bool := (u8 c =? 32) || (u8 c =? 9) || (u8 c =? 10) || (u8 c =? 13).
Fixpoint skip_ws (s : gostring) : gostring :=
  match s with c :: s' => if is_ws c then skip_ws s' else s | [] => [] end.

(** The rune of four hexadecimal digits. *)
Definition hex4 (a b c d : byte) : option Z :=
  match hex_val a, hex_val b, hex_val c, hex_val d with
  | Some a, Some b, Some c, Some d => Some (((a * 16 + b) * 16 + c) * 16 + d)
  | _, _, _, _ => None
  end.

(** [utf8.AppendRune]. *)
Definition append_rune (r : Z) : gostring :=
  if r <? 128 then [byte_of r]
  else if r <? 2048 then [byte_of (192 + r / 64); byte_of (128 + r mod 64)]
  else if (55296 <=? r) && (r <? 57344) then replacement
  else if r <? 65536
       then [byte_of (224 + r / 4096); byte_of (128 + r / 64 mod 64); byte_of (128 + r mod 64)]
  else if r <? 1114112
       then [byte_of (240 + r / 262144); byte_of (128 + r / 4096 mod 64);
             byte_of (128 + r / 64 mod 64); byte_of (128 + r mod 64)]
  else replacement.

Definition simple_escape (c : byte) : option byte :=
  if decide (c = DQ ∨ c = BS ∨ c = chr "/") then Some c
  else if decide (c = chr "b") then Some (byte_of 8)
  else if decide (c = chr "f") then Some (byte_of 12)
  else if decide (c = chr "n") then Some (byte_of 10)
  else if decide (c = chr "r") then Some (byte_of 13)
  else if decide (c = chr "t") then Some (byte_of 9)
  else None.

(** A [\u] escape after its digits have been read: a surrogate needs its other
    half right behind it. *)
Definition is_high (r : Z) : bool := (55296 <=? r) && (r <? 56320).
Definition is_low (r : Z) : bool := (56320 <=? r) && (r <? 57344).

Definition surrogate_pair (r : Z) (s : gostring) : option (Z * gostring) :=
  match s with
  | x :: y :: a :: b :: c :: d :: s' =>
     if bool_decide (x = BS) && bool_decide (y = chr "u") && is_high r then
       match hex4 a b c d with
       | Some r1 => if is_low r1 then Some ((r - 55296) * 1024 + (r1 - 56320) + 65536, s') else None
       | None => None
       end
     else None
  | _ => None
  end.

(** The body of a string after its opening quote: the decoded bytes and what
    follows the closing quote. *)
Fixpoint parse_string (fuel : nat) (s : gostring) : option (gostring * gostring) :=
  match fuel, s with
  | S fuel, c :: s' =>
     if decide (c = DQ) then Some ([], s')
     else if u8 c <? 32 then None
     else if decide (c = BS) then
       match s' with
       | e :: s1 =>
          if decide (e = chr "u") then
            match s1 with
            | a :: b :: c :: d :: s2 =>
               match hex4 a b c d with
               | Some r =>
                  match surrogate_pair r s2 with
                  | Some (r', s3) => ' (w, rest) ← parse_string fuel s3; Some (append_rune r' ++ w, rest)
                  | None => ' (w, rest) ← parse_string fuel s2; Some (append_rune r ++ w, rest)
                  end
               | None => None
               end
            | _ => None
            end
          else
            match simple_escape e with
            | Some b => ' (w, rest) ← parse_string fuel s1; Some (b :: w, rest)
            | None => None
            end
       | [] => None
       end
     else if ascii c then ' (w, rest) ← parse_string fuel s'; Some (c :: w, rest)
     else
       match rune_split s with
       | Some (r, s1) => ' (w, rest) ← parse_string fuel s1; Some (r ++ w, rest)
       | None => ' (w, rest) ← parse_string fuel s'; Some (replacement ++ w, rest)
       end
  | _, _ => None
  end.

(** The longest prefix of digits. *)
Fixpoint digits (s : gostring) : gostring * gostring :=
  match s with
  | c :: s' => if is_digit c then let '(d, r) := digits s' in (c :: d, r) else ([], s)
  | [] => ([], [])
  end.

(** A number literal: sign, integer part, fraction, exponent. *)
Definition number_sign (s : gostring) : gostring * gostring :=
  match s with
  | c :: s' => if decide (c = chr "-") then ([c], s') else ([], s)
  | [] => ([], [])
  end.

Definition number_fraction (s : gostring) : option (gostring * gostring) :=
  match s with
  | c :: s' =>
     if decide (c = chr ".") then
       let '(f, r) := digits s' in if decide (f = []) then None else Some (c :: f, r)
     else Some ([], s)
  | [] => Some ([], [])
  end.

Definition number_exponent (s : gostring) : option (gostring * gostring) :=
  match s with
  | c :: s' =>
     if decide (c = chr "e" ∨ c = chr "E") then
       let '(sg, t) := match s' with
                       | d :: t => if decide (d = chr "+" ∨ d = chr "-") then ([d], t) else ([], s')
                       | [] => ([], [])
                       end in
       let '(e, r) := digits t in if decide (e = []) then None else Some (c :: sg ++ e, r)
     else Some ([], s)
  | [] => Some ([], [])
  end.

(** A leading zero ends the integer part. *)
Definition number_int (s : gostring) : option (gostring * gostring) :=
  match s with
  | c :: s' =>
     if decide (c = chr "0") then Some ([c], s')
     else let '(d, r) := digits s in if decide (d = []) then None else Some (d, r)
  | [] => None
  end.

Definition parse_number (s : gostring) : option (gostring * gostring) :=
  let '(sign, s) := number_sign s in
  ' (int, s) ← number_int s;
  ' (frac, s) ← number_fraction s;
  ' (exp, s) ← number_exponent s;
  Some (sign ++ int ++ frac ++ exp, s).

Definition LB : byte := byte_of 123.
Definition RB : byte := byte_of 125.
Definition max_depth : nat := Z.to_nat 10000.

(** A value; [depth] objects and arrays are open around it. *)
Fixpoint parse_value (fuel depth : nat) (s : gostring) : option (json * gostring) :=
  match fuel with
  | O => None
  | S fuel =>
     match skip_ws s with
     | [] => None
     | c :: s' =>
        if decide (c = DQ) then ' (w, r) ← parse_string (length s') s'; Some (JStr w, r)
        else if decide (c = LB) then
          if decide (max_depth ≤ depth)%nat then None
          else match skip_ws s' with
               | d :: r => if decide (d = RB) then Some (JObj [], r)
                           else ' (ms, r) ← parse_members fuel (S depth) s'; Some (JObj ms, r)
               | [] => None
               end
        else if decide (c = chr "[") then
          if decide (max_depth ≤ depth)%nat then None
          else match skip_ws s' with
               | d :: r => if decide (d = chr "]") then Some (JArr [], r)
                           else ' (l, r) ← parse_elements fuel (S depth) s'; Some (JArr l, r)
               | [] => None
               end
        else if has_prefix (c :: s') (lit "true") then Some (JBool true, drop 4 (c :: s'))
        else if has_prefix (c :: s') (lit "false") then Some (JBool false, drop 5 (c :: s'))
        else if has_prefix (c :: s') (lit "null") then Some (JNull, drop 4 (c :: s'))
        else ' (l, r) ← parse_number (c :: s'); Some (JNum l, r)
     end
  end
with parse_elements (fuel depth : nat) (s : gostring) : option (list json * gostring) :=
  match fuel with
  | O => None
  | S fuel =>
     ' (v, r) ← parse_value fuel depth s;
     match skip_ws r with
     | c :: r =>
        if decide (c = chr "]") then Some ([v], r)
        else if decide (c = chr ",") then ' (l, r) ← parse_elements fuel depth r; Some (v :: l, r)
        else None
     | [] => None
     end
  end
with parse_members (fuel depth : nat) (s : gostring) : option (list (gostring * json) * gostring) :=
  match fuel with
  | O => None
  | S fuel =>
     match skip_ws s with
     | c :: s' =>
        if decide (c = DQ) then
          ' (k, r) ← parse_string (length s') s';
          match skip_ws r with
          | c :: r =>
             if decide (c = chr ":") then
               ' (v, r) ← parse_value fuel depth r;
               match skip_ws r with
               | c :: r =>
                  if decide (c = RB) then Some ([(k, v)], r)
                  else if decide (c = chr ",") then
                    ' (ms, r) ← parse_members fuel depth r; Some ((k, v) :: ms, r)
                  else None
               | [] => None
               end
             else None
          | [] => None
          end
        else None
     | [] => None
     end
  end.

(** A whole text: one value and white space around it.  Two calls of the parser
    at most are made for a byte. *)
Definition parse (s : gostring) : option json :=
  ' (v, r) ← parse_value (2 * length s + 2) 0 s;
  if decide (skip_ws r = []) then Some v else None.

(** ** Decoding into a struct

    The name of a member matches a field exactly or, failing that, with case
    folded; among non-ASCII runes only the long s and the Kelvin sign fold to
    ASCII.  The last match wins. *)
Definition upper_byte (c : byte) : byte := if is_lower c then byte_of (u8 c - 32) else c.

Fixpoint fold_name (s : gostring) : gostring :=
  match s with
  | [] => []
  | c :: s1 =>
     match s1 with
     | d :: s2 =>
        if bool_decide (c = byte_of 197) && bool_decide (d = byte_of 191) then chr "S" :: fold_name s2
        else match s2 with
             | e :: s3 =>
                if bool_decide (c = byte_of 226) && bool_decide (d = byte_of 132)
                   && bool_decide (e = byte_of 170)
                then chr "K" :: fold_name s3 else upper_byte c :: fold_name s1
             | [] => upper_byte c :: fold_name s1
             end
     | [] => [upper_byte c]
     end
  end.

(** The index of the field a member name selects. *)
Definition field_of (names : list gostring) (k : gostring) : option nat :=
  match fst <$> list_find (λ n, n = k) names with
  | Some i => Some i
  | None => fst <$> list_find (λ n, fold_name n = fold_name k) names
  end.

(** The field types the program decodes, and a value of one: of a slice, its elements
    and what its array holds behind them, which a later member of the same name brings
    back. *)
Inductive field := FString (s : gostring) | FInt (z : Z) | FStrings (l spare : list gostring).

(** [old]: the array that is decoded into; behind it elements are zero. *)
Fixpoint decode_strings (old : list gostring) (l : list json) : option (list gostring) :=
  match l with
  | [] => Some []
  | j :: l =>
     s ← match j with JStr s => Some s | JNull => Some (default [] (head old)) | _ => None end;
     rest ← decode_strings (tail old) l;
     Some (s :: rest)
  end.

(** One member into a field; [None] is a type error. *)
Definition decode_field (f : field) (j : json) : option field :=
  match j, f with
  | JNull, FStrings _ _ | JArr [], FStrings _ _ => Some (FStrings [] [])
  | JNull, _ => Some f
  | JStr s, FString _ => Some (FString s)
  | JNum l, FInt _ => match atoi l with Ok z => Some (FInt z) | _ => None end
  | JArr l, FStrings old spare =>
     l' ← decode_strings (old ++ spare) l; Some (FStrings l' (drop (length l) (old ++ spare)))
  | _, _ => None
  end.

(** The members in order; a type error is reported at the end. *)
Fixpoint decode_members (names : list gostring) (fs : list field) (ok : bool)
    (ms : list (gostring * json)) : option (list field) :=
  match ms with
  | [] => if ok then Some fs else None
  | (k, j) :: ms =>
     match field_of names k with
     | None => decode_members names fs ok ms
     | Some i =>
        match fs !! i with
        | Some f =>
           match decode_field f j with
           | Some f' => decode_members names (<[i := f']> fs) ok ms
           | None => decode_members names fs false ms
           end
        | None => decode_members names fs ok ms
        end
     end
  end.

(** [json.Unmarshal(data, &v)] of a struct with the fields [names], whose zero
    values are [fs]. *)
Definition Unmarshal (names : list gostring) (fs : list field) (data : gostring)
    : option (list field) :=
  match parse data with
  | Some (JObj ms) => decode_members names fs true ms
  | Some JNull => Some fs
  | _ => None
  end.
