(* ===== verification/JsonSpec.v ===== *)
(** * JSON: the parser reads back what [Marshal] writes *)
From S2P Require Import Prelude Wire GoStrings NetAddr Codec Json.
#[local] Open Scope Z_scope.

(** ** Valid text *)
Inductive valid_utf8 : gostring → Prop :=
  | vu_nil : valid_utf8 []
  | vu_ascii c s : ascii c = true → valid_utf8 s → valid_utf8 (c :: s)
  | vu_rune s r rest : rune_split s = Some (r, rest) → valid_utf8 rest → valid_utf8 s.

Lemma rune_split_inv s r rest :
  rune_split s = Some (r, rest) →
  s = r ++ rest ∧ (2 <= length r)%nat ∧
  (∀ t, rune_split (r ++ t) = Some (r, t)) ∧ ∃ c r', r = c :: r' ∧ ascii c = false.
Proof.
  unfold rune_split. destruct s as [|c0 [|c1 r1]]; [done..|].
  destruct (in_range c0 194 223 && cont c1) eqn:H2.
  { intros [= <- <-]. cbn. rewrite H2. split_and!; [done|lia|done|]. exists c0, [c1]. split; [done|].
    apply andb_true_iff in H2 as [H _]. unfold in_range in H. apply andb_true_iff in H as [H _].
    apply Z.leb_le in H. apply Z.ltb_ge. lia. }
  destruct r1 as [|c2 r2]; [done|].
  destruct (second3 c0 c1 && cont c2) eqn:H3.
  { intros [= <- <-]. cbn. rewrite H2, H3. split_and!; [done|lia|done|]. exists c0, [c1; c2]. split; [done|].
    apply andb_true_iff in H3 as [H _]. unfold second3 in H. apply Z.ltb_ge.
    destruct (Z.eqb_spec (u8 c0) 224); [lia|]. destruct (Z.eqb_spec (u8 c0) 237); [lia|].
    apply andb_true_iff in H as [H _]. unfold in_range in H. apply andb_true_iff in H as [H _].
    apply Z.leb_le in H. lia. }
  destruct r2 as [|c3 r3]; [done|].
  destruct (second4 c0 c1 && cont c2 && cont c3) eqn:H4; [|done].
  intros [= <- <-]. cbn. rewrite H2, H3, H4. split_and!; [done|lia|done|].
  exists c0, [c1; c2; c3]. split; [done|].
  apply andb_true_iff in H4 as [H _]. apply andb_true_iff in H as [H _].
  unfold second4 in H. apply Z.ltb_ge.
  destruct (Z.eqb_spec (u8 c0) 240); [lia|]. destruct (Z.eqb_spec (u8 c0) 244); [lia|].
  apply andb_true_iff in H as [H _]. unfold in_range in H. apply andb_true_iff in H as [H _].
  apply Z.leb_le in H. lia.
Qed.

(** ** Strings *)
Lemma surrogate_pair_low r s : r < 55296 → surrogate_pair r s = None.
Proof.
  intros Hr. unfold surrogate_pair. do 6 (destruct s as [|? s]; [done|]).
  assert (is_high r = false) as ->.
  { unfold is_high. destruct (Z.leb_spec 55296 r); [lia|done]. }
  by rewrite andb_false_r.
Qed.

Lemma hex_digit_plain z : 0 <= z < 16 → hex_val (hex_digit z) = Some z.
Proof. apply hex_val_lower. Qed.

(** A [\u] escape outside the surrogates. *)
Lemma parse_string_escape fuel (x y z w : byte) r t :
  r < 55296 → hex4 x y z w = Some r →
  parse_string (S fuel) (BS :: chr "u" :: x :: y :: z :: w :: t) =
    ' (w, rest) ← parse_string fuel t; Some (append_rune r ++ w, rest).
Proof.
  intros Hr Hx. cbn [parse_string]. rewrite decide_False by done.
  change (u8 BS <? 32) with false. cbv iota. rewrite decide_True by done.
  rewrite decide_True by done. by rewrite Hx, surrogate_pair_low.
Qed.

(** The first byte of a quoted rune is neither a quote nor a control. *)
Lemma parse_string_ascii fuel c t :
  ascii c = true →
  parse_string (S fuel) (quote_ascii c ++ t) =
    ' (w, rest) ← parse_string fuel t; Some (c :: w, rest).
Proof.
  intros Ha. apply Z.ltb_lt in Ha. pose proof (u8_range c) as Hr. unfold quote_ascii.
  destruct (decide (c = DQ ∨ c = BS)) as [Hc|Hc].
  { by destruct Hc as [-> | ->]. }
  destruct (Z.eqb_spec (u8 c) 8) as [He|H8];
    [assert (c = byte_of 8) as -> by (by apply u8_inj); done|].
  destruct (Z.eqb_spec (u8 c) 12) as [He|H12];
    [assert (c = byte_of 12) as -> by (by apply u8_inj); done|].
  destruct (Z.eqb_spec (u8 c) 10) as [He|H10];
    [assert (c = byte_of 10) as -> by (by apply u8_inj); done|].
  destruct (Z.eqb_spec (u8 c) 13) as [He|H13];
    [assert (c = byte_of 13) as -> by (by apply u8_inj); done|].
  destruct (Z.eqb_spec (u8 c) 9) as [He|H9];
    [assert (c = byte_of 9) as -> by (by apply u8_inj); done|].
  destruct ((u8 c <? 32) || (u8 c =? 60) || (u8 c =? 62) || (u8 c =? 38)) eqn:Hu.
  - change (lit "u00") with [chr "u"; chr "0"; chr "0"]. cbn [app].
    rewrite (parse_string_escape _ _ _ _ _ (u8 c)); [|lia|].
    + unfold append_rune. destruct (Z.ltb_spec (u8 c) 128); [|lia]. by rewrite byte_of_u8.
    + unfold hex4. change (hex_val (chr "0")) with (Some 0).
      rewrite hex_digit_plain by (apply (div_range _ 16 16); lia).
      rewrite hex_digit_plain by (apply Z.mod_pos_bound; lia). f_equal. div_lia.
  - apply orb_false_iff in Hu as [[[H32 _]%orb_false_iff _]%orb_false_iff _].
    cbn [app parse_string]. rewrite decide_False by tauto. rewrite H32.
    rewrite decide_False by tauto. unfold ascii. by rewrite (proj2 (Z.ltb_lt _ _)).
Qed.

Lemma length_quote_ascii c : (1 <= length (quote_ascii c))%nat.
Proof.
  unfold quote_ascii. case_decide; [cbn; lia|].
  repeat match goal with |- context [if ?b then _ else _] => destruct b; [cbn; lia|] end. cbn; lia.
Qed.

Lemma parse_string_rune fuel s r rest t :
  rune_split s = Some (r, rest) →
  parse_string (S fuel) (quote_rune r ++ t) =
    ' (w, rest) ← parse_string fuel t; Some (r ++ w, rest).
Proof.
  intros Hr. apply rune_split_inv in Hr as (_ & Hlen & Hsplit & c & r' & -> & Hc).
  unfold quote_rune. case_decide as H1; [|case_decide as H2].
  { rewrite H1. change (lit "u2028") with [chr "u"; chr "2"; chr "0"; chr "2"; chr "8"].
    apply (parse_string_escape _ _ _ _ _ 8232); done. }
  { rewrite H2. change (lit "u2029") with [chr "u"; chr "2"; chr "0"; chr "2"; chr "9"].
    apply (parse_string_escape _ _ _ _ _ 8233); done. }
  pose proof Hc as Hc'. unfold ascii in Hc. apply Z.ltb_ge in Hc.
  cbn [app parse_string].
  rewrite decide_False by (intros ->; vm_compute in Hc; by apply Hc).
  destruct (Z.ltb_spec (u8 c) 32); [lia|].
  rewrite decide_False by (intros ->; vm_compute in Hc; by apply Hc).
  rewrite Hc'. specialize (Hsplit t). cbn [app] in Hsplit. by rewrite Hsplit.
Qed.

Lemma length_quote_rune s r rest :
  rune_split s = Some (r, rest) → (1 <= length (quote_rune r))%nat.
Proof.
  intros Hr. apply rune_split_inv in Hr as (_ & Hlen & _). unfold quote_rune.
  case_decide; [cbn; lia|]. case_decide; [cbn; lia|lia].
Qed.

Lemma rune_not_ascii s r rest :
  rune_split s = Some (r, rest) → ∃ c s', s = c :: s' ∧ ascii c = false ∧ (length rest < length s')%nat.
Proof.
  intros Hr. apply rune_split_inv in Hr as (-> & Hlen & _ & c & r' & -> & Hc).
  exists c, (r' ++ rest). split_and!; [done..|]. cbn in Hlen. rewrite length_app. lia.
Qed.

Lemma parse_string_quote s n fuel rest :
  valid_utf8 s → (length s <= n)%nat → (length (quote_loop n s) < fuel)%nat →
  parse_string fuel (quote_loop n s ++ DQ :: rest) = Some (s, rest).
Proof.
  intros Hv. revert n fuel. induction Hv as [|c s Ha Hv IH|s r rest' Hr Hv IH]; intros n fuel Hn Hf.
  - destruct fuel as [|fuel]; [lia|]. destruct n; cbn [quote_loop app parse_string]; by rewrite decide_True.
  - destruct n as [|n]; [cbn in Hn; lia|]. cbn [quote_loop] in *. rewrite Ha in *.
    rewrite length_app in Hf. pose proof (length_quote_ascii c).
    destruct fuel as [|fuel]; [lia|]. rewrite <- app_assoc, parse_string_ascii by done.
    rewrite IH by (cbn in Hn; lia). done.
  - destruct (rune_not_ascii _ _ _ Hr) as (c & s' & -> & Ha & Hlen).
    destruct n as [|n]; [cbn in Hn; lia|]. cbn [quote_loop] in *. rewrite Ha, Hr in *.
    rewrite length_app in Hf. pose proof (length_quote_rune _ _ _ Hr).
    destruct fuel as [|fuel]; [lia|]. rewrite <- app_assoc.
    rewrite (parse_string_rune _ _ _ _ _ Hr). rewrite IH by (cbn in Hn; lia). cbn.
    do 2 f_equal. by apply rune_split_inv in Hr as [-> _].
Qed.

(** ** Integers *)
(** What may follow a value inside an object or an array, or at the end. *)
Definition ends (rest : gostring) : Prop :=
  match rest with [] => True | c :: _ => c = chr "," ∨ c = chr "]" ∨ c = RB end.

Lemma digits_app ds rest :
  forallb is_digit ds = true →
  (match rest with c :: _ => is_digit c = false | [] => True end) →
  digits (ds ++ rest) = (ds, rest).
Proof.
  intros Hd Hr. induction ds as [|c ds IH]; cbn [app].
  - destruct rest as [|c rest]; [done|]. cbn. by rewrite Hr.
  - cbn in Hd. apply andb_true_iff in Hd as [Hc Hd]. cbn. by rewrite Hc, IH.
Qed.

(** [itoa] starts with zero only for zero. *)
Lemma decimal_head fuel z :
  0 < z < 2 ^ Z.of_nat fuel → ∃ c ds, decimal fuel z = c :: ds ∧ c ≠ chr "0".
Proof.
  revert z. induction fuel as [|fuel IH]; intros z Hz.
  - change (2 ^ Z.of_nat 0) with 1 in Hz. lia.
  - cbn [decimal]. destruct (Z.ltb_spec z 10) as [H|H].
    + exists (byte_of (48 + z mod 10)), []. split; [done|]. intros He.
      rewrite Z.mod_small in He by lia. apply (f_equal u8) in He.
      rewrite u8_digit in He by lia. change (u8 (chr "0")) with 48 in He. lia.
    + destruct (IH (z / 10)) as (c & ds & -> & Hc).
      { split; [apply Z.div_str_pos; lia|]. apply Z.div_lt_upper_bound; [lia|].
        rewrite Nat2Z.inj_succ, Z.pow_succ_r in Hz by lia. lia. }
      exists c, (ds ++ [byte_of (48 + z mod 10)]). done.
Qed.

(** The digits of a number, as the grammar wants them. *)
Lemma number_int_digits z rest :
  0 <= z → ends rest → number_int (itoa z ++ rest) = Some (itoa z, rest).
Proof.
  intros Hz Hr. destruct (itoa_digits z Hz) as [Hd _].
  unfold all_digits in Hd. apply andb_true_iff in Hd as [Hne Hd].
  assert (match rest with c :: _ => is_digit c = false | [] => True end) as Hrest.
  { destruct rest; [done|]. by destruct Hr as [-> |[-> | ->]]. }
  destruct (decide (z = 0)) as [->|Hz0].
  { by change (itoa 0) with [chr "0"]. }
  assert (∃ c ds, itoa z = c :: ds ∧ c ≠ chr "0") as (c & ds & Heq & Hc).
  { unfold itoa. destruct (Z.ltb_spec z 0); [lia|]. apply decimal_head. split; [lia|].
    rewrite Nat2Z.inj_succ, Z2Nat.id by apply Z.log2_nonneg. by apply Z.log2_spec; lia. }
  pose proof (digits_app (itoa z) rest Hd Hrest) as Hdig.
  unfold number_int. rewrite Heq in *. cbn [app] in *.
  rewrite decide_False, Hdig by done. by rewrite decide_False.
Qed.

Lemma number_tail rest :
  ends rest → number_fraction rest = Some ([], rest) ∧ number_exponent rest = Some ([], rest).
Proof. destruct rest as [|c rest]; [done|]. by intros [-> |[-> | ->]]. Qed.

Lemma parse_number_itoa z rest : ends rest → parse_number (itoa z ++ rest) = Some (itoa z, rest).
Proof.
  intros Hr. destruct (number_tail rest Hr) as [Hf He]. unfold parse_number.
  destruct (Z.ltb_spec z 0) as [Hn|Hn].
  - assert (itoa z = chr "-" :: itoa (- z)) as ->.
    { unfold itoa. destruct (Z.ltb_spec z 0); [|lia]. destruct (Z.ltb_spec (- z) 0); [lia|done]. }
    cbn [number_sign app]. rewrite decide_True by done.
    rewrite number_int_digits by (lia || done). cbn. rewrite Hf. cbn. rewrite He. cbn.
    by rewrite app_nil_r.
  - destruct (itoa_digits z Hn) as [Hd _].
    assert (number_sign (itoa z ++ rest) = ([], itoa z ++ rest)) as ->.
    { unfold all_digits in Hd. destruct (itoa z) as [|c ds]; [done|]. cbn in Hd |- *.
      apply andb_true_iff in Hd as [Hc _]. rewrite decide_False; [done|]. by intros ->. }
    rewrite number_int_digits by done. cbn. rewrite Hf. cbn. rewrite He. cbn.
    by rewrite app_nil_r.
Qed.

(** ** Values *)

(** The values the program marshals: valid text, integers, and their nesting. *)
Fixpoint clean (depth : nat) (j : json) : Prop :=
  match j with
  | JNull | JBool _ => True
  | JNum l => ∃ z, l = itoa z
  | JStr s => valid_utf8 s
  | JArr l => match depth with
              | O => False
              | S depth => (fix all l := match l with [] => True | j :: l => clean depth j ∧ all l end) l
              end
  | JObj ms => match depth with
               | O => False
               | S depth => (fix all ms := match ms with
                             | [] => True
                             | (k, j) :: ms => valid_utf8 k ∧ clean depth j ∧ all ms
                             end) ms
               end
  end.

Lemma clean_JArr d l : clean (S d) (JArr l) ↔ Forall (clean d) l.
Proof.
  cbn. induction l as [|j l IH]; [split; constructor|]. rewrite Forall_cons, <- IH. done.
Qed.
Lemma clean_JObj d ms : clean (S d) (JObj ms) ↔ Forall (λ kv, valid_utf8 kv.1 ∧ clean d kv.2) ms.
Proof.
  cbn. induction ms as [|[k j] ms IH]; [split; constructor|]. rewrite Forall_cons, <- IH. cbn. tauto.
Qed.

Definition member_text (kv : gostring * json) : gostring := quote kv.1 ++ chr ":" :: Marshal kv.2.
Lemma Marshal_JObj ms : Marshal (JObj ms) = LB :: join (member_text <$> ms) (lit ",") ++ [RB].
Proof.
  cbn. do 3 f_equal. induction ms as [|[k j] ms IH]; [done|]. cbn. by rewrite IH.
Qed.

Definition starts_plain (s : gostring) : Prop := ∃ c s', s = c :: s' ∧ is_ws c = false.

Lemma skip_ws_plain s : starts_plain s → skip_ws s = s.
Proof. intros (c & s' & -> & Hc). cbn. by rewrite Hc. Qed.

Lemma starts_plain_app s t : starts_plain s → starts_plain (s ++ t).
Proof. intros (c & s' & -> & Hc). by exists c, (s' ++ t). Qed.

Lemma itoa_plain z : starts_plain (itoa z) ∧ ∃ c s', itoa z = c :: s' ∧
  (c = chr "-" ∨ is_digit c = true).
Proof.
  destruct (Z.ltb_spec z 0) as [Hn|Hn].
  - unfold itoa. destruct (Z.ltb_spec z 0); [|lia]. split; eexists _, _; (split; [done|]); auto.
  - destruct (itoa_digits z Hn) as [Hd _]. unfold all_digits in Hd.
    destruct (itoa z) as [|c s]; [done|]. cbn in Hd. apply andb_true_iff in Hd as [Hc _].
    split; exists c, s; split; auto.
    unfold is_digit in Hc. apply andb_true_iff in Hc as [Hc%Z.leb_le _].
    unfold is_ws. by rewrite !(proj2 (Z.eqb_neq _ _)) by lia.
Qed.

Lemma Marshal_plain d j : clean d j → starts_plain (Marshal j).
Proof.
  destruct j as [|[]|l|s|l|ms]; intros Hc.
  - by exists (chr "n"), (lit "ull").
  - by exists (chr "t"), (lit "rue").
  - by exists (chr "f"), (lit "alse").
  - assert (∃ z, l = itoa z) as [z ->] by (by destruct d). apply itoa_plain.
  - by exists DQ, (quote_body s ++ [DQ]).
  - by exists (chr "["), (join (Marshal <$> l) (lit ",") ++ [chr "]"]).
  - rewrite Marshal_JObj. by eexists LB, _.
Qed.

(** How many calls of the parser a value needs, and that its text pays for them. *)
Fixpoint need (j : json) : nat :=
  match j with
  | JArr l => S ((fix sum l := match l with [] => 0 | j :: l => S (need j + sum l) end) l)
  | JObj ms => S ((fix sum ms := match ms with [] => 0 | (_, j) :: ms => S (need j + sum ms) end) ms)
  | _ => 1
  end%nat.
Definition need_list (l : list json) : nat := foldr (λ j n, S (need j + n)) 0%nat l.
Definition need_members (ms : list (gostring * json)) : nat :=
  foldr (λ kv n, S (need kv.2 + n)) 0%nat ms.

Lemma need_JArr l : need (JArr l) = S (need_list l).
Proof. reflexivity. Qed.
Lemma need_JObj ms : need (JObj ms) = S (need_members ms).
Proof. cbn. f_equal. induction ms as [|[k j] ms IH]; [done|]. cbn. by rewrite IH. Qed.

Lemma length_join_ge (l : list gostring) sep :
  (length (mjoin l) <= length (join l sep))%nat.
Proof.
  induction l as [|w l IH]; [done|]. destruct l as [|w' l].
  - cbn. rewrite app_nil_r. lia.
  - rewrite join_cons_cons, !length_app. change (mjoin (w :: w' :: l)) with (w ++ mjoin (w' :: l)).
    rewrite length_app. lia.
Qed.

Lemma leaf_need d j : clean d j → need j = 1%nat → (S (need j) <= 2 * length (Marshal j))%nat.
Proof. intros Hc ->. destruct (Marshal_plain _ _ Hc) as (c & s & -> & _). cbn. lia. Qed.

Lemma Marshal_need d j : clean d j → (S (need j) <= 2 * length (Marshal j))%nat.
Proof.
  revert j. induction d as [|d IH]; intros j Hc.
  - destruct j as [|b|l|s|l|ms]; try by destruct Hc.
    all: apply (leaf_need _ _ Hc); reflexivity.
  - destruct j as [|b|l|s|l|ms]; try (apply (leaf_need _ _ Hc); reflexivity).
    + apply clean_JArr in Hc. rewrite need_JArr. cbn [Marshal].
      assert (need_list l <= 2 * length (mjoin (Marshal <$> l)))%nat as Hn.
      { induction Hc as [|j l Hj _ IHl]; [cbn; lia|].
        change (need_list (j :: l)) with (S (need j + need_list l)).
        change (mjoin (Marshal <$> j :: l)) with (Marshal j ++ mjoin (Marshal <$> l)).
        rewrite length_app. specialize (IH j Hj). lia. }
      pose proof (length_join_ge (Marshal <$> l) (lit ",")).
      cbn [length]. rewrite length_app. cbn [length]. lia.
    + apply clean_JObj in Hc. rewrite need_JObj, Marshal_JObj.
      assert (need_members ms <= 2 * length (mjoin (member_text <$> ms)))%nat as Hn.
      { induction Hc as [|[k j] ms [_ Hj] _ IHms]; [cbn; lia|].
        change (need_members ((k, j) :: ms)) with (S (need j + need_members ms)).
        change (mjoin (member_text <$> (k, j) :: ms))
          with (member_text (k, j) ++ mjoin (member_text <$> ms)).
        unfold member_text at 1. rewrite !length_app. cbn [fst snd length].
        cbn [snd] in Hj. specialize (IH j Hj). lia. }
      pose proof (length_join_ge (member_text <$> ms) (lit ",")).
      cbn [length]. rewrite length_app. cbn [length]. lia.
Qed.

(** ** The round trip *)
Lemma parse_quoted s rest :
  valid_utf8 s →
  parse_string (length (quote_body s ++ DQ :: rest)) (quote_body s ++ DQ :: rest) = Some (s, rest).
Proof.
  intros Hv. unfold quote_body. apply parse_string_quote; [done..|].
  rewrite length_app. cbn [length]. lia.
Qed.

Lemma join_head (w : gostring) ws sep t : join (w :: ws) sep ++ t = w ++ match ws with [] => t | _ => sep ++ join ws sep ++ t end.
Proof. destruct ws as [|w' ws]; [done|]. by rewrite join_cons_cons, <- !app_assoc. Qed.

Definition value_ok (fuel : nat) : Prop := ∀ j d depth rest,
  clean d j → (depth + d <= max_depth)%nat → (need j <= fuel)%nat → ends rest →
  parse_value fuel depth (Marshal j ++ rest) = Some (j, rest).
Definition elements_ok (fuel : nat) : Prop := ∀ l d depth rest,
  l ≠ [] → Forall (clean d) l → (depth + d <= max_depth)%nat → (need_list l <= fuel)%nat →
  parse_elements fuel depth (join (Marshal <$> l) (lit ",") ++ chr "]" :: rest) = Some (l, rest).
Definition members_ok (fuel : nat) : Prop := ∀ ms d depth rest,
  ms ≠ [] → Forall (λ kv, valid_utf8 kv.1 ∧ clean d kv.2) ms → (depth + d <= max_depth)%nat →
  (need_members ms <= fuel)%nat →
  parse_members fuel depth (join (member_text <$> ms) (lit ",") ++ RB :: rest) = Some (ms, rest).

Lemma elements_step fuel : value_ok fuel → elements_ok fuel → elements_ok (S fuel).
Proof.
  intros Hv He l d depth rest Hne Hl Hd Hn. destruct Hl as [|j l Hj Hl]; [done|].
  change (need_list (j :: l)) with (S (need j + need_list l)) in Hn.
  cbn [fmap list_fmap]. rewrite join_head. cbn [parse_elements].
  destruct l as [|j' l]; cbn [fmap list_fmap].
  - rewrite (Hv j d); [reflexivity|done|lia|lia|by right; left].
  - rewrite (Hv j d); [|done|lia|lia|by left]. cbn [mbind option_bind].
    change (lit ",") with [chr ","]. cbn [app skip_ws]. change (is_ws (chr ",")) with false.
    cbv beta iota. rewrite decide_False by done. rewrite decide_True by done.
    change [chr ","] with (lit ","). rewrite (He (j' :: l) d) by (done || lia). done.
Qed.

Lemma member_parse fuel d depth k j rest :
  value_ok fuel → valid_utf8 k → clean d j → (depth + d <= max_depth)%nat → (need j <= fuel)%nat →
  ends rest →
  parse_members (S fuel) depth (member_text (k, j) ++ rest) =
    match rest with
    | c :: r => if decide (c = RB) then Some ([(k, j)], r)
                else if decide (c = chr ",") then
                  ' (ms, r) ← parse_members fuel depth r; Some ((k, j) :: ms, r)
                else None
    | [] => None
    end.
Proof.
  intros Hv Hk Hj Hd Hn Hr. unfold member_text. cbn [fst snd].
  unfold quote. cbn [app parse_members skip_ws]. change (is_ws DQ) with false. cbv beta iota.
  rewrite decide_True by done. rewrite <- !app_assoc. cbn [app].
  rewrite parse_quoted by done. cbn [mbind option_bind skip_ws].
  change (is_ws (chr ":")) with false. cbv beta iota. rewrite decide_True by done.
  rewrite (Hv j d) by done. cbn [mbind option_bind].
  destruct rest as [|c rest]; [done|]. cbn [skip_ws].
  by destruct Hr as [-> |[-> | ->]].
Qed.

Lemma members_step fuel : value_ok fuel → members_ok fuel → members_ok (S fuel).
Proof.
  intros Hv Hm ms d depth rest Hne Hl Hd Hn. destruct Hl as [|[k j] ms [Hk Hj] Hl]; [done|].
  change (need_members ((k, j) :: ms)) with (S (need j + need_members ms)) in Hn. cbn in Hk, Hj.
  cbn [fmap list_fmap]. rewrite join_head.
  destruct ms as [|kv ms]; cbn [fmap list_fmap].
  - rewrite (member_parse _ d); [by rewrite decide_True|done..|lia|lia|by right; right].
  - change (lit ",") with [chr ","]. cbn [app].
    rewrite (member_parse _ d); [|done..|lia|lia|by left].
    rewrite decide_False by done. rewrite decide_True by done.
    change [chr ","] with (lit ","). rewrite (Hm (kv :: ms) d) by (done || lia). done.
Qed.

Lemma has_prefix_head_ne (c x : byte) s p : c ≠ x → has_prefix (c :: s) (x :: p) = false.
Proof. intros Hne. apply bool_decide_eq_false. intros [r Hr]. cbn in Hr. congruence. Qed.

Lemma parse_value_number z rest fuel depth :
  ends rest → parse_value (S fuel) depth (itoa z ++ rest) = Some (JNum (itoa z), rest).
Proof.
  intros Hr. pose proof (parse_number_itoa z rest Hr) as Hp.
  destruct (itoa_plain z) as [Hplain (c & s & Hz & Hc)].
  cbn [parse_value]. rewrite skip_ws_plain by (by apply starts_plain_app).
  rewrite Hz in *. cbn [app] in *.
  rewrite decide_False by (intros ->; by destruct Hc).
  rewrite decide_False by (intros ->; by destruct Hc).
  rewrite decide_False by (intros ->; by destruct Hc).
  change (lit "true") with (chr "t" :: lit "rue").
  change (lit "false") with (chr "f" :: lit "alse").
  change (lit "null") with (chr "n" :: lit "ull").
  rewrite !has_prefix_head_ne by (intros ->; by destruct Hc). by rewrite Hp.
Qed.

Lemma parse_value_word fuel depth (j : json) w rest :
  (j, w) ∈ [(JNull, "null"); (JBool true, "true"); (JBool false, "false")]%string →
  parse_value (S fuel) depth (lit w ++ rest) = Some (j, rest).
Proof.
  intros Hin. cbn [parse_value].
  assert (∀ p, drop 4 (lit "null" ++ p) = p ∧ drop 4 (lit "true" ++ p) = p ∧
    drop 5 (lit "false" ++ p) = p) as Hdrop by done.
  rewrite !elem_of_cons, elem_of_nil in Hin.
  destruct Hin as [[= -> ->]|[[= -> ->]|[[= -> ->]|[]]]].
  - change (lit "null" ++ rest) with (chr "n" :: lit "ull" ++ rest). cbn [skip_ws].
    change (is_ws (chr "n")) with false. cbv beta iota.
    rewrite !decide_False by done. change (lit "true") with (chr "t" :: lit "rue").
    change (lit "false") with (chr "f" :: lit "alse").
    rewrite !has_prefix_head_ne by done. change (chr "n" :: lit "ull" ++ rest) with (lit "null" ++ rest).
    by rewrite has_prefix_app.
  - change (lit "true" ++ rest) with (chr "t" :: lit "rue" ++ rest). cbn [skip_ws].
    change (is_ws (chr "t")) with false. cbv beta iota.
    rewrite !decide_False by done. change (chr "t" :: lit "rue" ++ rest) with (lit "true" ++ rest).
    by rewrite has_prefix_app.
  - change (lit "false" ++ rest) with (chr "f" :: lit "alse" ++ rest). cbn [skip_ws].
    change (is_ws (chr "f")) with false. cbv beta iota.
    rewrite !decide_False by done. change (lit "true") with (chr "t" :: lit "rue").
    rewrite !has_prefix_head_ne by done. change (chr "f" :: lit "alse" ++ rest) with (lit "false" ++ rest).
    by rewrite has_prefix_app.
Qed.

(** The texts inside brackets and braces start with a value's first byte. *)
Lemma elements_head d (l : list json) t :
  l ≠ [] → Forall (clean d) l →
  ∃ c s', join (Marshal <$> l) (lit ",") ++ t = c :: s' ∧ is_ws c = false ∧ c ≠ chr "]".
Proof.
  intros Hne Hl. destruct Hl as [|j l Hj _]; [done|].
  destruct (Marshal_plain _ _ Hj) as (c & s & Hc & Hw). cbn [fmap list_fmap]. rewrite join_head, Hc.
  eexists c, _. split; [reflexivity|]. split; [done|].
  destruct j as [|[]|lt|w|l'|ms]; try (injection Hc as <- _; done).
  assert (∃ z, lt = itoa z) as [z ->] by (by destruct d).
  destruct (itoa_plain z) as [_ (c' & s' & Hz & Hd)]. cbn [Marshal] in Hc.
  rewrite Hz in Hc. injection Hc as <- _. intros ->. by destruct Hd.
Qed.

Lemma value_step fuel : elements_ok fuel → members_ok fuel → value_ok (S fuel).
Proof.
  intros He Hm j d depth rest Hc Hd Hn Hr.
  destruct j as [|b|l|s|l|ms].
  - apply parse_value_word. left.
  - destruct b; apply parse_value_word; [right; left|right; right; left].
  - assert (∃ z, l = itoa z) as [z ->] by (by destruct d). by apply parse_value_number.
  - cbn [Marshal]. unfold quote. cbn [app parse_value skip_ws].
    change (is_ws DQ) with false. cbv beta iota. rewrite decide_True by done.
    assert (valid_utf8 s) as Hs by (by destruct d).
    rewrite <- app_assoc. cbn [app]. by rewrite parse_quoted.
  - destruct d as [|d]; [done|]. apply clean_JArr in Hc. rewrite need_JArr in Hn.
    cbn [Marshal]. cbn [app parse_value skip_ws]. change (is_ws (chr "[")) with false.
    cbv beta iota. rewrite decide_False by done. rewrite decide_False by done.
    rewrite decide_True by done. rewrite decide_False by lia. rewrite <- app_assoc. cbn [app].
    destruct (decide (l = [])) as [->|Hne].
    + cbn [fmap list_fmap join app skip_ws]. change (is_ws (chr "]")) with false.
      cbv beta iota. by rewrite decide_True.
    + destruct (elements_head d l (chr "]" :: rest) Hne Hc) as (c & s' & Heq & Hw & Hcb).
      rewrite skip_ws_plain by (rewrite Heq; by exists c, s').
      pose proof (He l d (S depth) rest Hne Hc) as Hel. rewrite Heq in Hel |- *.
      cbv beta iota. rewrite decide_False by done.
      rewrite Hel by lia. done.
  - destruct d as [|d]; [done|]. apply clean_JObj in Hc. rewrite need_JObj in Hn.
    rewrite Marshal_JObj. cbn [app parse_value skip_ws]. change (is_ws LB) with false.
    cbv beta iota. rewrite decide_False by done. rewrite decide_True by done.
    rewrite decide_False by lia. rewrite <- app_assoc. cbn [app].
    destruct (decide (ms = [])) as [->|Hne].
    + cbn [fmap list_fmap join app skip_ws]. change (is_ws RB) with false.
      cbv beta iota. by rewrite decide_True.
    + pose proof (Hm ms d (S depth) rest Hne Hc) as Hms.
      assert (∃ s', join (member_text <$> ms) (lit ",") ++ RB :: rest = DQ :: s') as [s' Heq].
      { destruct ms as [|[k j] ms]; [done|]. cbn [fmap list_fmap]. rewrite join_head. by eexists. }
      rewrite Heq in Hms |- *. cbn [skip_ws]. change (is_ws DQ) with false. cbv beta iota.
      rewrite decide_False by done. by rewrite Hms by lia.
Qed.

Lemma values_ok fuel : value_ok fuel ∧ elements_ok fuel ∧ members_ok fuel.
Proof.
  induction fuel as [|fuel (Hv & He & Hm)].
  - split_and!.
    + intros j d depth rest _ _ Hn. destruct j; cbn in Hn; lia.
    + intros l d depth rest Hne _ _ Hn. destruct l; [done|cbn in Hn; lia].
    + intros ms d depth rest Hne _ _ Hn. destruct ms; [done|cbn in Hn; lia].
  - split_and!; [by apply value_step|by apply elements_step|by apply members_step].
Qed.

(** The parser reads back every value the program marshals. *)
Lemma parse_Marshal d j : clean d j → (d <= max_depth)%nat → parse (Marshal j) = Some j.
Proof.
  intros Hc Hd. unfold parse. pose proof (Marshal_need _ _ Hc).
  destruct (values_ok (2 * length (Marshal j) + 2)) as [Hv _].
  specialize (Hv j d 0%nat [] Hc Hd). rewrite app_nil_r in Hv. rewrite Hv by (lia || done).
  done.
Qed.
