(* ===== verification/JsonFuel.v ===== *)
(** * JSON: the fuel of the parser is enough

    The parser calls itself at most twice for a byte of its text, so twice its
    length is enough: more fuel never changes what a text parses to. *)
From S2P Require Import Prelude Wire GoStrings Codec Json JsonSpec.

(** ** What is left gets shorter *)
Lemma length_skip_ws s : length (skip_ws s) ≤ length s.
Proof. induction s as [|c s IH]; cbn; [lia|]. destruct (is_ws c); cbn; lia. Qed.

Lemma skip_ws_cons s c r : skip_ws s = c :: r → length r < length s.
Proof. intros Hs. pose proof (length_skip_ws s) as Hl. rewrite Hs in Hl. cbn in Hl. lia. Qed.

Lemma length_surrogate_pair r s r' s' : surrogate_pair r s = Some (r', s') → length s' ≤ length s.
Proof.
  unfold surrogate_pair. intros Hs. repeat (case_match; try discriminate Hs). injection Hs as _ <-. cbn. lia.
Qed.

Lemma length_rune_split s r rest : rune_split s = Some (r, rest) → length rest < length s.
Proof.
  unfold rune_split. intros Hs. repeat (case_match; try discriminate Hs); injection Hs as _ <-; cbn; lia.
Qed.

(** A parser of the rest, whose result is shorter than [n]. *)
Definition shrinks {A} (n : nat) (o : option (A * gostring)) : Prop :=
  match o with Some (_, r) => length r < n | None => True end.

Lemma shrinks_mono {A} n m (o : option (A * gostring)) : shrinks n o → n ≤ m → shrinks m o.
Proof. destruct o as [[a r]|]; cbn; lia. Qed.

Lemma shrinks_bind {A B} n m (o : option (A * gostring)) (f : A * gostring → option (B * gostring)) :
  shrinks m o → (∀ a r, length r < m → shrinks n (f (a, r))) → shrinks n (o ≫= f).
Proof. destruct o as [[a r]|]; cbn; auto. Qed.

Lemma parse_string_shrinks fuel s : shrinks (length s) (parse_string fuel s).
Proof.
  revert s. induction fuel as [|fuel IH]; intros [|c s']; [done..|].
  assert (∀ {B} t (g : gostring * gostring → B), length t ≤ length s' →
    shrinks (length (c :: s')) (' (w, rest) ← parse_string fuel t; Some (g (w, rest), rest))) as Hgo.
  { intros B t g Ht. eapply shrinks_bind; [apply IH|]. intros w r Hr. cbn. lia. }
  cbn [parse_string]. case_decide; [cbn; lia|]. destruct (_ <? _)%Z; [done|]. case_decide.
  - destruct s' as [|e s1]; [done|]. case_decide.
    + destruct s1 as [|a [|b [|c1 [|d s2]]]]; try done. destruct (hex4 a b c1 d) as [r|]; [|done].
      destruct (surrogate_pair r s2) as [[r' s3]|] eqn:Hp.
      * apply length_surrogate_pair in Hp. apply (Hgo _ s3 (λ x, _ ++ x.1)). cbn. lia.
      * apply (Hgo _ s2 (λ x, _ ++ x.1)). cbn. lia.
    + destruct (simple_escape e) as [b|]; [|done]. apply (Hgo _ s1 (λ x, b :: x.1)). cbn. lia.
  - destruct (ascii c); [by apply (Hgo _ s' (λ x, c :: x.1))|].
    destruct (rune_split (c :: s')) as [[r s1]|] eqn:Hr.
    + apply length_rune_split in Hr. apply (Hgo _ s1 (λ x, r ++ x.1)). cbn in Hr. lia.
    + by apply (Hgo _ s' (λ x, replacement ++ x.1)).
Qed.

Lemma digits_length s d r : digits s = (d, r) → length s = length d + length r.
Proof.
  revert d r. induction s as [|c s IH]; intros d r; cbn; [by intros [= <- <-]|].
  destruct (is_digit c); [|by intros [= <- <-]]. destruct (digits s) as [d' r'] eqn:Hs.
  intros [= <- <-]. cbn. by rewrite (IH d' r').
Qed.

Lemma number_int_shrinks s : shrinks (length s) (number_int s).
Proof.
  destruct s as [|c s]; [done|]. cbn [number_int]. case_decide; [cbn; lia|].
  destruct (digits (c :: s)) as [d r] eqn:Hd. apply digits_length in Hd. case_decide as Hn; [done|].
  cbn in *. destruct d; [done|]. cbn in Hd. lia.
Qed.
Lemma number_fraction_shrinks s : shrinks (S (length s)) (number_fraction s).
Proof.
  destruct s as [|c s]; [cbn; lia|]. cbn [number_fraction]. case_decide; [|cbn; lia].
  destruct (digits s) as [d r] eqn:Hd. apply digits_length in Hd. case_decide; [done|]. cbn. lia.
Qed.
Lemma number_exponent_shrinks s : shrinks (S (length s)) (number_exponent s).
Proof.
  destruct s as [|c s]; [cbn; lia|]. cbn [number_exponent]. case_decide; [|cbn; lia].
  destruct s as [|d t]; [by cbn|].
  destruct (decide (d = chr "+" ∨ d = chr "-")).
  - destruct (digits t) as [e r] eqn:Hd. apply digits_length in Hd. case_decide; [done|]. cbn. lia.
  - destruct (digits (d :: t)) as [e r] eqn:Hd. apply digits_length in Hd. case_decide; [done|]. cbn in *. lia.
Qed.

Lemma parse_number_shrinks s : shrinks (length s) (parse_number s).
Proof.
  unfold parse_number. destruct (number_sign s) as [sg s0] eqn:Hs.
  assert (length s0 ≤ length s) as H0.
  { destruct s as [|c s]; cbn in Hs; [by injection Hs as _ <-|]. case_decide; injection Hs as _ <-; cbn; lia. }
  eapply shrinks_bind; [apply number_int_shrinks|]. intros i r Hr.
  eapply shrinks_bind; [apply number_fraction_shrinks|]. intros f r' Hr'.
  eapply shrinks_bind; [apply number_exponent_shrinks|]. intros e r'' Hr''. cbn. lia.
Qed.

Definition shrinking {A} (p : nat → gostring → option (A * gostring)) : Prop :=
  ∀ depth s, shrinks (length s) (p depth s).

(** One of the two ends of an array or object, or the next element. *)
Lemma next_shrinks {A} n (s : gostring) (close : byte) (stop : gostring → A) (more : gostring → option (A * gostring)) :
  length s < n → (∀ r, length r < length s → shrinks n (more r)) →
  shrinks n (match skip_ws s with
             | c :: r => if decide (c = close) then Some (stop r, r)
                         else if decide (c = chr ",") then more r else None
             | [] => None
             end).
Proof.
  intros Hs Hm. destruct (skip_ws s) as [|c r] eqn:He; [done|]. apply skip_ws_cons in He.
  case_decide; [cbn; lia|]. case_decide; [by apply Hm|done].
Qed.

Lemma values_shrink fuel :
  shrinking (parse_value fuel) ∧ shrinking (parse_elements fuel) ∧ shrinking (parse_members fuel).
Proof.
  induction fuel as [|fuel (Hv & He & Hm)]; [done|]. split_and!; intros depth s.
  - cbn [parse_value]. pose proof (length_skip_ws s) as Hl. destruct (skip_ws s) as [|c s'] eqn:Hs; [done|].
    cbn [length] in Hl. case_decide.
    { eapply shrinks_bind; [apply parse_string_shrinks|]. intros w r Hr. cbn. lia. }
    case_decide.
    { case_decide; [done|]. destruct (skip_ws s') as [|d r] eqn:Hs'; [done|]. apply skip_ws_cons in Hs'.
      case_decide; [cbn; lia|]. eapply shrinks_bind; [apply Hm|]. intros ms r' Hr'. cbn. lia. }
    case_decide.
    { case_decide; [done|]. destruct (skip_ws s') as [|d r] eqn:Hs'; [done|]. apply skip_ws_cons in Hs'.
      case_decide; [cbn; lia|]. eapply shrinks_bind; [apply He|]. intros ms r' Hr'. cbn. lia. }
    destruct (has_prefix _ _); [cbn [shrinks]; rewrite length_drop; cbn [length]; lia|].
    destruct (has_prefix _ _); [cbn [shrinks]; rewrite length_drop; cbn [length]; lia|].
    destruct (has_prefix _ _); [cbn [shrinks]; rewrite length_drop; cbn [length]; lia|].
    eapply shrinks_bind; [apply parse_number_shrinks|]. intros l r Hr. cbn in *. lia.
  - cbn [parse_elements]. eapply shrinks_bind; [apply Hv|]. intros v r Hr.
    apply (next_shrinks _ r _ (λ _, [v])); [done|]. intros r1 Hr1.
    eapply shrinks_bind; [apply He|]. intros l r2 Hr2. cbn. lia.
  - cbn [parse_members]. destruct (skip_ws s) as [|c s'] eqn:Hs; [done|]. apply skip_ws_cons in Hs.
    case_decide; [|done]. eapply shrinks_bind; [apply parse_string_shrinks|]. intros k r Hr.
    destruct (skip_ws r) as [|c1 r1] eqn:Hr1; [done|]. apply skip_ws_cons in Hr1.
    case_decide; [|done]. eapply shrinks_bind; [apply Hv|]. intros v r2 Hr2.
    apply (next_shrinks _ r2 _ (λ _, [(k, v)])); [lia|]. intros r3 Hr3.
    eapply shrinks_bind; [apply Hm|]. intros ms r4 Hr4. cbn. lia.
Qed.

(** ** Enough fuel *)
(** Two parsers that agree on texts shorter than [n]. *)
Definition agree {A} (n : nat) (p q : nat → gostring → option (A * gostring)) : Prop :=
  ∀ depth s, length s < n → p depth s = q depth s.

Lemma bind_agree {A B} n (o : option (A * gostring)) (f g : A * gostring → option (B * gostring)) :
  shrinks n o → (∀ a r, length r < n → f (a, r) = g (a, r)) → o ≫= f = o ≫= g.
Proof. destruct o as [[a r]|]; cbn; auto. Qed.

(** One level of calls, with fuel [f] or [f']. *)
Lemma value_agree n f f' :
  agree n (parse_elements f) (parse_elements f') → agree n (parse_members f) (parse_members f') →
  agree (S n) (parse_value (S f)) (parse_value (S f')).
Proof.
  intros He Hm depth s Hn. cbn [parse_value]. destruct (skip_ws s) as [|c s'] eqn:Hs; [done|]. apply skip_ws_cons in Hs.
  repeat (case_decide; [try done|]); [destruct (skip_ws s'); [done|]; by rewrite Hm by lia|
    destruct (skip_ws s'); [done|]; by rewrite He by lia|done].
Qed.

Lemma elements_agree n f f' :
  agree n (parse_value f) (parse_value f') → agree (n - 1) (parse_elements f) (parse_elements f') →
  agree n (parse_elements (S f)) (parse_elements (S f')).
Proof.
  intros Hv He depth s Hn. cbn [parse_elements]. rewrite Hv by done.
  apply (bind_agree (length s)); [apply values_shrink|]. intros v r Hr.
  destruct (skip_ws r) as [|c r1] eqn:Hs; [done|]. apply skip_ws_cons in Hs.
  case_decide; [done|]. case_decide; [|done]. by rewrite He by lia.
Qed.

Lemma members_agree n f f' :
  agree n (parse_value f) (parse_value f') → agree (n - 1) (parse_members f) (parse_members f') →
  agree n (parse_members (S f)) (parse_members (S f')).
Proof.
  intros Hv Hm depth s Hn. cbn [parse_members]. destruct (skip_ws s) as [|c s'] eqn:Hs; [done|]. apply skip_ws_cons in Hs.
  case_decide; [|done]. apply (bind_agree (length s')); [apply parse_string_shrinks|]. intros k r Hr.
  destruct (skip_ws r) as [|c1 r1] eqn:Hs1; [done|]. apply skip_ws_cons in Hs1. case_decide; [|done].
  rewrite Hv by lia. apply (bind_agree (length r1)); [apply values_shrink|]. intros v r2 Hr2.
  destruct (skip_ws r2) as [|c2 r3] eqn:Hs2; [done|]. apply skip_ws_cons in Hs2.
  case_decide; [done|]. case_decide; [|done]. by rewrite Hm by lia.
Qed.

Lemma values_agree n : ∀ f f',
  (2 * n ≤ S f → 2 * n ≤ S f' → agree n (parse_value f) (parse_value f')) ∧
  (2 * n ≤ f → 2 * n ≤ f' → agree n (parse_elements f) (parse_elements f') ∧ agree n (parse_members f) (parse_members f')).
Proof.
  induction n as [|n IH]; intros f f'.
  { split; intros; [|split]; intros ? ? ?; lia. }
  assert (∀ f f', 2 * S n ≤ S f → 2 * S n ≤ S f' → agree (S n) (parse_value f) (parse_value f')) as Hv.
  { intros [|g] [|g'] Hg Hg'; try lia. destruct (IH g g') as [_ [He Hm]]; [lia..|]. by apply value_agree. }
  split; [by apply Hv|]. intros Hf Hf'. destruct f as [|f], f' as [|f']; try lia.
  split; [apply elements_agree|apply members_agree]; try (by apply Hv; lia); replace (S n - 1) with n by lia;
    destruct (IH f f') as [_ [He Hm]]; (done || lia).
Qed.

(** More fuel than [parse] takes parses no more, and no less. *)
Lemma parse_value_fuel f depth s :
  2 * length s + 2 ≤ f → parse_value f depth s = parse_value (2 * length s + 2) depth s.
Proof. intros Hf. apply (proj1 (values_agree (S (length s)) f (2 * length s + 2))); lia. Qed.
