(* ===== verification/Rsa.v ===== *)
(** * RSA signatures: what the program uses of crypto/rsa

    [SignPKCS1v15] and [VerifyPKCS1v15] with SHA-256 as RFC 8017 defines them,
    for a 2048-bit key.  What [GenerateKey] promises of its key is [valid_key]. *)
From S2P Require Import Prelude Wire.
#[local] Open Scope Z_scope.

Record rsa_key := mkKey { rsa_n : Z; rsa_e : Z; rsa_d : Z }.

(** [b ^ e mod n] by squaring. *)
Fixpoint powmod_pos (b : Z) (e : positive) (n : Z) : Z :=
  match e with
  | xH => b mod n
  | xO e => let h := powmod_pos b e n in (h * h) mod n
  | xI e => let h := powmod_pos b e n in ((h * h) mod n * b) mod n
  end.
Definition powmod (b e n : Z) : Z :=
  match e with Zpos e => powmod_pos b e n | _ => 1 mod n end.

Definition rsa_size : nat := 256.

(** The SHA-256 [DigestInfo] prefix and the encoded message. *)
Definition digest_info : list byte := byte_of <$>
  [48; 49; 48; 13; 6; 9; 96; 134; 72; 1; 101; 3; 4; 2; 1; 5; 0; 4; 32].

Definition encoded_message (hash : list byte) : list byte :=
  byte_of <$> [0; 1] ++ replicate (rsa_size - 54) 255 ++ [0] ++ (u8 <$> digest_info ++ hash).

Definition SignPKCS1v15 (k : rsa_key) (hash : list byte) : list byte :=
  be_bytes rsa_size (powmod (be_val (encoded_message hash)) (rsa_d k) (rsa_n k)).

Definition VerifyPKCS1v15 (k : rsa_key) (hash sig : list byte) : bool :=
  bool_decide (length sig = rsa_size) && (be_val sig <? rsa_n k) &&
  bool_decide (be_bytes rsa_size (powmod (be_val sig) (rsa_e k) (rsa_n k)) = encoded_message hash).

(** What a generated key satisfies. *)
Record valid_key (k : rsa_key) : Prop := {
  vk_size : 2 ^ 2047 <= rsa_n k < 2 ^ 2048;
  vk_inverse : ∀ m, 0 <= m < rsa_n k → powmod (powmod m (rsa_d k) (rsa_n k)) (rsa_e k) (rsa_n k) = m
}.

Lemma powmod_range b e n : 0 < n → 0 <= powmod b e n < n.
Proof.
  intros Hn. unfold powmod. destruct e as [|e|e]; try by apply Z.mod_pos_bound.
  destruct e; by apply Z.mod_pos_bound.
Qed.

(** [powmod] is the power, reduced. *)
Lemma powmod_pow b e n : 0 < n → 0 <= e → powmod b e n = b ^ e mod n.
Proof.
  intros Hn He. destruct e as [|e|e]; [done| |lia]. cbn [powmod].
  induction e as [e IH|e IH|]; cbn [powmod_pos]; [..|by rewrite Z.pow_1_r].
  - rewrite IH by lia. rewrite Pos2Z.inj_xI, Z.pow_add_r, Z.pow_1_r, Z.pow_mul_r by lia.
    rewrite Z.pow_2_r, Z.pow_mul_l.
    rewrite <- Z.mul_mod by lia. rewrite Z.mul_mod_idemp_l by lia. done.
  - rewrite IH by lia. rewrite Pos2Z.inj_xO, Z.pow_mul_r by lia.
    rewrite Z.pow_2_r, Z.pow_mul_l. rewrite <- Z.mul_mod by lia. done.
Qed.

Lemma length_encoded_message hash : length hash = 32%nat → length (encoded_message hash) = rsa_size.
Proof.
  intros Hh. unfold encoded_message. rewrite length_fmap, !length_app, length_replicate, length_fmap.
  rewrite length_app, Hh. done.
Qed.

(** The encoded message starts with a zero byte, so it is below the modulus. *)
Lemma encoded_message_range k hash :
  valid_key k → length hash = 32%nat → 0 <= be_val (encoded_message hash) < rsa_n k.
Proof.
  intros [[Hn _] _] Hh. split; [apply be_val_range|].
  pose proof (length_encoded_message hash Hh) as Hlen.
  assert (∃ t, encoded_message hash = NUL :: t) as [t Ht] by (by eexists).
  rewrite Ht in *. unfold be_val. rewrite reverse_cons.
  assert (∀ l, le_val (l ++ [NUL]) = le_val l) as Hz.
  { induction l as [|c l IH]; [done|]. cbn [app le_val]. by rewrite IH. }
  rewrite Hz. pose proof (le_val_range (reverse t)) as Hr. rewrite length_reverse in Hr.
  cbn [length] in Hlen. unfold rsa_size in Hlen. replace (length t) with 255%nat in Hr by lia.
  change (8 * Z.of_nat 255) with 2040 in Hr.
  assert (2 ^ 2040 < 2 ^ 2047) by (apply Z.pow_lt_mono_r; lia). lia.
Qed.

(** A signature verifies. *)
Lemma Verify_Sign k hash :
  valid_key k → length hash = 32%nat → VerifyPKCS1v15 k hash (SignPKCS1v15 k hash) = true.
Proof.
  intros Hk Hh. pose proof (encoded_message_range k hash Hk Hh) as Hm.
  destruct Hk as [[Hn1 Hn2] Hinv]. assert (0 < rsa_n k) as Hn by lia.
  pose proof (powmod_range (be_val (encoded_message hash)) (rsa_d k) (rsa_n k) Hn) as Hs.
  assert (be_val (SignPKCS1v15 k hash) = powmod (be_val (encoded_message hash)) (rsa_d k) (rsa_n k)) as Hval.
  { unfold SignPKCS1v15. rewrite be_val_bytes. apply Z.mod_small.
    change (8 * Z.of_nat rsa_size) with 2048. lia. }
  unfold VerifyPKCS1v15. rewrite Hval, Hinv by done.
  rewrite bool_decide_true by apply length_be_bytes.
  rewrite (proj2 (Z.ltb_lt _ _)) by lia. cbn [andb]. apply bool_decide_eq_true.
  rewrite <- (length_encoded_message hash Hh). apply be_bytes_val.
Qed.
