(* ===== verification/Config.v ===== *)
(** * Configuration (src/iamproxy/config.go)

    The configuration records, [Config.Validate] as the code runs it (checks in
    order, with the maps it fills), and what a validated configuration is, as
    the declarative [WellFormed].  [googleUsername] of identity.go is here
    because [Validate] calls it. *)
From S2P Require Import Prelude NetAddr.

Record Listener := mkListener {
  Name : gostring;
  Listen : gostring;
  Provider : gostring;
  Engine : gostring;
  Instance_ : gostring;
  Hostname : gostring;
  Region : gostring;
  ResourceID : gostring;
  Tenant : gostring;
  Upstream : gostring;
  UpstreamTLS : gostring
}.

Record Principal := mkPrincipal {
  ID : gostring;
  Email : gostring;
  Groups : list gostring;
  Grants : list gostring;
  BackendUser : gostring;
  BackendPassword : gostring;
  AWSAccessKey : gostring;
  AWSSecretKey : gostring;
  AWSSessionToken : gostring;
  ECSAuthorizationToken : gostring;
  GoogleRefreshToken : gostring;
  AzureClientID : gostring;
  AzureClientSecret : gostring
}.

Record Config := mkConfig {
  HTTPListen : gostring;
  HTTPSListen : gostring;
  PublicURL : gostring;
  TLSCert : gostring;
  TLSKey : gostring;
  Listeners : list Listener;
  Principals : list Principal
}.

#[export] Instance Listener_eq_dec : EqDecision Listener.
Proof. solve_decision. Defined.
#[export] Instance Principal_eq_dec : EqDecision Principal.
Proof. solve_decision. Defined.
#[export] Instance Config_eq_dec : EqDecision Config.
Proof. solve_decision. Defined.

Definition with_HTTPListen (a : gostring) (c : Config) : Config :=
  mkConfig a (HTTPSListen c) (PublicURL c) (TLSCert c) (TLSKey c) (Listeners c) (Principals c).

(** What the sessions ask of authentication: a judgement of a user name and a
    password on a listener, that does not panic.  [service.Validate] is an
    instance (ServiceSpec.v). *)
Class Authenticator := {
  authenticate : Listener → gostring → gostring → res Principal;
  authenticate_no_panic : ∀ l username password, no_panic (authenticate l username password)
}.

(** String equality as the code's [==]. *)
Definition seq_eqb (a b : gostring) : bool := bool_decide (a = b).
Infix "=s" := seq_eqb (at level 70).
Definition empty (a : gostring) : bool := bool_decide (a = []).

Definition aws := lit "aws".
Definition google := lit "google".
Definition azure := lit "azure".
Definition postgres := lit "postgres".
Definition mysql := lit "mysql".

Definition loopbackAddress (addr : gostring) : bool :=
  match SplitHostPort addr with
  | Ok (host, _) => (host =s lit "localhost") || is_loopback_ip host
  | _ => false
  end.

Definition Granted (p : Principal) (listener : gostring) : bool :=
  existsb (λ g, g =s listener) (Grants p).

Definition googleUsername `{GoUnicode} (email engine : gostring) : gostring :=
  let email := to_lower email in
  if engine =s mysql then (cut_byte email (chr "@")).1.1
  else trim_suffix email (lit ".gserviceaccount.com").

(** ** The loop over the listeners: the names and addresses seen so far. *)
Record LState := mkLState { listeners : gset gostring; addresses : gset gostring }.

Definition validateListener (st : LState) (l : Listener) : res LState :=
  _ ← guard_err (empty (Name l) || empty (Listen l) || empty (Upstream l) || empty (Instance_ l))
        (Errorf "listener %q missing required field" [Name l]);
  _ ← guard_err (negb (Provider l =s aws) && negb (Provider l =s google) && negb (Provider l =s azure))
        (Errorf "listener %s: invalid provider" [Name l]);
  _ ← guard_err (negb (Engine l =s postgres) && negb (Engine l =s mysql))
        (Errorf "listener %s: invalid engine" [Name l]);
  ' (_, port) ← wrap_err (Wrapf "listener %s: %w" [Name l]) (SplitHostPort (Listen l));
  _ ← guard_err (bool_decide (Name l ∈ listeners st)
                 || negb (port =s lit "0") && bool_decide (Listen l ∈ addresses st))
        (Errorf "duplicate listener name or address: %s" [Name l]);
  _ ← guard_err ((Provider l =s aws) && (empty (Hostname l) || empty (Region l) || empty (ResourceID l)))
        (Errorf "listener %s: AWS requires hostname, region and resource_id" [Name l]);
  _ ← guard_err ((Provider l =s azure) && empty (Tenant l))
        (Errorf "listener %s: Azure requires tenant" [Name l]);
  _ ← guard_err (negb (empty (UpstreamTLS l)) && negb (UpstreamTLS l =s lit "disable")
                 && negb (UpstreamTLS l =s lit "require") && negb (UpstreamTLS l =s lit "verify-full"))
        (Errorf "listener %s: invalid upstream_tls" [Name l]);
  _ ← guard_err (negb (loopbackAddress (Listen l)))
        (Errorf "listener %s: only loopback binds are supported" [Name l]);
  Ok (mkLState ({[Name l]} ∪ listeners st) ({[Listen l]} ∪ addresses st)).

(** ** The loop over the principals: the five maps it fills. *)
Record PState := mkPState {
  ids : gset gostring;
  keys : gset gostring;
  backendUsers : gmap gostring gostring;
  googleNames : gmap gostring gostring;
  azureNames : gmap gostring gostring
}.

(** [other := m[key]; other != "" && other != id] *)
Definition owned_by_other (m : gmap gostring gostring) (key id : gostring) : bool :=
  let other := default [] (m !! key) in negb (empty other) && negb (other =s id).

(** [byName]: the last listener of a name wins. *)
Definition byName (c : Config) (g : gostring) : option Listener :=
  (list_to_map (reverse ((λ l, (Name l, l)) <$> Listeners c)) : gmap gostring Listener) !! g.

Arguments byName : simpl never.

Definition pair_key (g user : gostring) : gostring := g ++ [NUL] ++ user.

Arguments pair_key : simpl never.

(** The zero [Listener], what [byName[g]] is for an absent [g]. *)
Definition zeroListener : Listener := mkListener [] [] [] [] [] [] [] [] [] [] [].

Section validate.
Context `{GoUnicode}.

Definition validateGrant (c : Config) (known : gset gostring) (p : Principal)
    (st : PState) (g : gostring) : res PState :=
  _ ← guard_err (negb (bool_decide (g ∈ known)))
        (Errorf "principal %s: unknown listener grant %s" [ID p; g]);
  let l := default zeroListener (byName c g) in
  let backendKey := pair_key g (BackendUser p) in
  _ ← guard_err (owned_by_other (backendUsers st) backendKey (ID p))
        (Errorf "listener %s: backend user %s is shared by principals" [g; BackendUser p]);
  let st := mkPState (ids st) (keys st) (<[backendKey := ID p]> (backendUsers st))
              (googleNames st) (azureNames st) in
  st ← (if Provider l =s google then
          _ ← guard_err (empty (Email p)) (Errorf "principal %s: Google email required" [ID p]);
          let key := pair_key g (googleUsername (Email p) (Engine l)) in
          _ ← guard_err (owned_by_other (googleNames st) key (ID p))
                (Errorf "listener %s: ambiguous Google database username" [g]);
          Ok (mkPState (ids st) (keys st) (backendUsers st)
                (<[key := ID p]> (googleNames st)) (azureNames st))
        else Ok st);
  if Provider l =s azure then
    _ ← guard_err (empty (Email p)) (Errorf "principal %s: Azure email required" [ID p]);
    let key := pair_key g (Email p) in
    _ ← guard_err (owned_by_other (azureNames st) key (ID p))
          (Errorf "listener %s: duplicate Azure username" [g]);
    Ok (mkPState (ids st) (keys st) (backendUsers st) (googleNames st)
          (<[key := ID p]> (azureNames st)))
  else Ok st.

Definition validatePrincipal (c : Config) (known : gset gostring)
    (st : PState) (p : Principal) : res PState :=
  _ ← guard_err (empty (ID p) || empty (BackendUser p) || empty (BackendPassword p))
        (Errorf "principal %s: id and backend credentials required" [ID p]);
  _ ← guard_err (bool_decide (ID p ∈ ids st)) (Errorf "duplicate principal %s" [ID p]);
  let st := mkPState ({[ID p]} ∪ ids st) (keys st) (backendUsers st) (googleNames st) (azureNames st) in
  st ← (if negb (empty (AWSAccessKey p)) then
          _ ← guard_err (empty (AWSSecretKey p) || bool_decide (AWSAccessKey p ∈ keys st))
                (Errorf "principal %s: invalid AWS key" [ID p]);
          Ok (mkPState (ids st) ({[AWSAccessKey p]} ∪ keys st) (backendUsers st)
                (googleNames st) (azureNames st))
        else Ok st);
  _ ← guard_err (negb (empty (ECSAuthorizationToken p)) && empty (AWSAccessKey p))
        (Errorf "principal %s: ECS authorization token requires AWS credentials" [ID p]);
  foldM (validateGrant c known p) st (Grants p).

(** [Config.Validate]: the receiver's new value, or the error. *)
Definition Validate (c : Config) : res Config :=
  let c := if empty (HTTPListen c) then with_HTTPListen (lit "127.0.0.1:8090") c else c in
  _ ← guard_err (negb (loopbackAddress (HTTPListen c)))
        (Errorf "credential endpoint must bind to loopback" []);
  _ ← guard_err (negb (empty (HTTPSListen c)) && negb (loopbackAddress (HTTPSListen c)))
        (Errorf "TLS credential endpoint must bind to loopback" []);
  _ ← guard_err (negb (eqb (empty (TLSCert c)) (empty (TLSKey c))))
        (Errorf "tls_cert and tls_key must both be set" []);
  _ ← guard_err (bool_decide (Listeners c = []))
        (Errorf "at least one listener is required" []);
  let addresses0 : gset gostring := {[HTTPListen c]} in
  addresses0 ← (if negb (empty (HTTPSListen c)) then
      _ ← guard_err (negb (split_port (HTTPSListen c) =s lit "0")
                     && bool_decide (HTTPSListen c ∈ addresses0))
            (Errorf "duplicate credential endpoint address" []);
      Ok ({[HTTPSListen c]} ∪ addresses0)
    else Ok addresses0);
  lst ← foldM validateListener (mkLState ∅ addresses0) (Listeners c);
  _ ← foldM (validatePrincipal c (listeners lst)) (mkPState ∅ ∅ ∅ ∅ ∅) (Principals c);
  Ok c.

End validate.
