(* ===== verification/ConfigSpec.v ===== *)
(** * What a validated configuration is

    [WellFormed] says it without the loops and maps of [Config.Validate];
    [Validate_correct] shows that [Validate] accepts exactly the well-formed
    configurations and changes nothing but the default of [http_listen]. *)
From S2P Require Import Prelude NetAddr NetAddrSpec Config.

(** ** The specification *)
Definition listener_ok (l : Listener) : Prop :=
  (Name l ≠ [] ∧ Listen l ≠ [] ∧ Upstream l ≠ [] ∧ Instance_ l ≠ []) ∧
  Provider l ∈ [aws; google; azure] ∧
  Engine l ∈ [postgres; mysql] ∧
  (Provider l = aws → Hostname l ≠ [] ∧ Region l ≠ [] ∧ ResourceID l ≠ []) ∧
  (Provider l = azure → Tenant l ≠ []) ∧
  UpstreamTLS l ∈ [[]; lit "disable"; lit "require"; lit "verify-full"] ∧
  loopbackAddress (Listen l) = true.

Definition fixed_port (addr : gostring) : Prop := split_port addr ≠ lit "0".

Definition principal_ok (p : Principal) : Prop :=
  (ID p ≠ [] ∧ BackendUser p ≠ [] ∧ BackendPassword p ≠ []) ∧
  (AWSAccessKey p ≠ [] → AWSSecretKey p ≠ []) ∧
  (ECSAuthorizationToken p ≠ [] → AWSAccessKey p ≠ []).

(** [p] is a principal of [c] and [l] a listener it is granted. *)
Definition granted_at (c : Config) (p : Principal) (l : Listener) : Prop :=
  p ∈ Principals c ∧ l ∈ Listeners c ∧ Name l ∈ Grants p.

Section spec.
Context `{GoUnicode}.

(** The three identities a grant must not share with another principal. *)
Definition backend_key (p : Principal) (l : Listener) : gostring :=
  pair_key (Name l) (BackendUser p).
Definition google_key (p : Principal) (l : Listener) : gostring :=
  pair_key (Name l) (googleUsername (Email p) (Engine l)).
Definition azure_key (p : Principal) (l : Listener) : gostring :=
  pair_key (Name l) (Email p).

Definition no_clash (p : Principal) (l : Listener) (q : Principal) (m : Listener) : Prop :=
  (backend_key p l = backend_key q m → ID p = ID q) ∧
  (Provider l = google → Provider m = google → google_key p l = google_key q m → ID p = ID q) ∧
  (Provider l = azure → Provider m = azure → azure_key p l = azure_key q m → ID p = ID q).

Record WellFormed (c : Config) : Prop := {
  wf_http : loopbackAddress (HTTPListen c) = true;
  wf_https : HTTPSListen c ≠ [] → loopbackAddress (HTTPSListen c) = true;
  wf_https_distinct :
    HTTPSListen c ≠ [] → fixed_port (HTTPSListen c) → HTTPSListen c ≠ HTTPListen c;
  wf_tls : TLSCert c = [] ↔ TLSKey c = [];
  wf_some_listener : Listeners c ≠ [];
  wf_listeners : Forall listener_ok (Listeners c);
  wf_names : NoDup (Name <$> Listeners c);
  wf_addresses : ForallOrdPairs (λ l m, fixed_port (Listen m) → Listen l ≠ Listen m) (Listeners c);
  wf_endpoint_addresses : ∀ l, l ∈ Listeners c → fixed_port (Listen l) →
    Listen l ≠ HTTPListen c ∧ Listen l ≠ HTTPSListen c;
  wf_principals : Forall principal_ok (Principals c);
  wf_ids : NoDup (ID <$> Principals c);
  wf_keys : ForallOrdPairs (λ p q, AWSAccessKey q ≠ [] → AWSAccessKey p ≠ AWSAccessKey q) (Principals c);
  wf_grants : ∀ p g, p ∈ Principals c → g ∈ Grants p →
    ∃ l, l ∈ Listeners c ∧ Name l = g ∧
         (Provider l = google ∨ Provider l = azure → Email p ≠ []);
  wf_no_clash : ∀ p l q m, granted_at c p l → granted_at c q m → no_clash p l q m
}.

(** The configuration [Validate] judges: the default of [http_listen] filled in. *)
Definition with_default (c : Config) : Config :=
  if empty (HTTPListen c) then with_HTTPListen (lit "127.0.0.1:8090") c else c.

End spec.

(** ** The listener loop *)
Lemma seq_eqb_true a b : (a =s b) = true ↔ a = b.
Proof. apply bool_decide_eq_true. Qed.
Lemma seq_eqb_false a b : (a =s b) = false ↔ a ≠ b.
Proof. apply bool_decide_eq_false. Qed.
Lemma empty_true a : empty a = true ↔ a = [].
Proof. apply bool_decide_eq_true. Qed.
Lemma empty_false a : empty a = false ↔ a ≠ [].
Proof. apply bool_decide_eq_false. Qed.

Lemma andb_false_impl a b : a && b = false ↔ (a = true → b = false).
Proof. destruct a, b; naive_solver. Qed.

(** [v != a && v != b ...] as the code writes membership. *)
Ltac solve_not_any :=
  unfold seq_eqb, empty; rewrite ?bool_decide_decide;
  repeat case_decide; cbn; set_solver.

Lemma not_any2 v a b : negb (v =s a) && negb (v =s b) = false ↔ v ∈ [a; b].
Proof. solve_not_any. Qed.
Lemma not_any3 v a b c :
  negb (v =s a) && negb (v =s b) && negb (v =s c) = false ↔ v ∈ [a; b; c].
Proof. solve_not_any. Qed.
Lemma not_any4 v b c d :
  negb (empty v) && negb (v =s b) && negb (v =s c) && negb (v =s d) = false ↔
  v ∈ [[]; b; c; d].
Proof. solve_not_any. Qed.

#[export] Hint Rewrite not_any4 not_any3 not_any2 : go_member.
#[export] Hint Rewrite orb_false_iff andb_false_impl negb_false_iff orb_true_iff
  andb_true_iff negb_true_iff seq_eqb_true seq_eqb_false empty_true empty_false
  bool_decide_eq_true bool_decide_eq_false : golib.

(** Reads Go conditions as propositions. *)
Ltac go_bool :=
  autorewrite with go_guard; autorewrite with go_member; autorewrite with golib.

Definition listener_fresh (A0 : gset gostring) (D : list Listener) (l : Listener) : Prop :=
  (∀ m, m ∈ D → Name m ≠ Name l) ∧
  (∀ m, m ∈ D → fixed_port (Listen l) → Listen m ≠ Listen l) ∧
  (fixed_port (Listen l) → Listen l ∉ A0).

Definition LState_rep (A0 : gset gostring) (st : LState) (D : list Listener) : Prop :=
  (∀ n, n ∈ listeners st ↔ n ∈ Name <$> D) ∧
  (∀ a, a ∈ addresses st ↔ a ∈ A0 ∨ a ∈ Listen <$> D).

Lemma loopback_split addr :
  loopbackAddress addr = true → ∃ h p, SplitHostPort addr = Ok (h, p).
Proof. unfold loopbackAddress. destruct (SplitHostPort addr) as [[h p]| |]; eauto; done. Qed.

Lemma validateListener_iff A0 st D l st' :
  LState_rep A0 st D →
  validateListener st l = Ok st' ↔
  (listener_ok l ∧ listener_fresh A0 D l) ∧
  st' = mkLState ({[Name l]} ∪ listeners st) ({[Listen l]} ∪ addresses st).
Proof.
  intros [Hn Ha]. unfold validateListener.
  assert (Hfresh : listener_fresh A0 D l ↔ (Name l ∉ listeners st) ∧
    (fixed_port (Listen l) → Listen l ∉ addresses st)).
  { unfold listener_fresh. rewrite Hn, Ha, !list_elem_of_fmap. naive_solver. }
  rewrite Hfresh. unfold listener_ok, fixed_port, split_port.
  destruct (SplitHostPort (Listen l)) as [[h port]|e|] eqn:Hsplit; cbn; go_bool.
  - tauto. 
  - split; [intuition discriminate|]. intros (((_ & _ & _ & _ & _ & _ & Hl) & _) & _).
    apply loopback_split in Hl as (? & ? & ?). congruence.
  - split; [intuition discriminate|]. intros (((_ & _ & _ & _ & _ & _ & Hl) & _) & _).
    apply loopback_split in Hl as (? & ? & ?). congruence.
Qed.

Definition listeners_ok (A0 : gset gostring) (ls : list Listener) : Prop :=
  Forall listener_ok ls ∧
  NoDup (Name <$> ls) ∧
  ForallOrdPairs (λ l m, fixed_port (Listen m) → Listen l ≠ Listen m) ls ∧
  (∀ l, l ∈ ls → fixed_port (Listen l) → Listen l ∉ A0).

Lemma listeners_ok_alt A0 ls :
  each_after (λ D l, listener_ok l ∧ listener_fresh A0 D l) [] ls ↔ listeners_ok A0 ls.
Proof.
  unfold listener_fresh, listeners_ok.
  rewrite !each_after_and, !each_after_local, Forall_forall.
  rewrite (each_after_earlier (λ m l, Name m ≠ Name l)).
  rewrite (each_after_earlier (λ m l, fixed_port (Listen l) → Listen m ≠ Listen l)).
  rewrite Forall_forall, ForallOrdPairs_fmap_NoDup. set_solver.
Qed.

Lemma LState_rep_step A0 st D l :
  LState_rep A0 st D →
  LState_rep A0 (mkLState ({[Name l]} ∪ listeners st) ({[Listen l]} ∪ addresses st)) (D ++ [l]).
Proof. intros [Hn Ha]. split; cbn; set_solver. Qed.

Lemma LState_rep_init A0 : LState_rep A0 (mkLState ∅ A0) [].
Proof. split; cbn; set_solver. Qed.

Lemma listener_body_ok A0 s D l s' :
  LState_rep A0 s D → validateListener s l = Ok s' →
  (listener_ok l ∧ listener_fresh A0 D l) ∧ LState_rep A0 s' (D ++ [l]).
Proof.
  intros HR Hs'. apply (validateListener_iff A0 _ D) in Hs' as [? ->]; [|done].
  auto using LState_rep_step.
Qed.

Lemma listener_body_complete A0 s D l :
  LState_rep A0 s D → listener_ok l ∧ listener_fresh A0 D l →
  ∃ s', validateListener s l = Ok s'.
Proof. intros HR HQ. eexists. by apply (validateListener_iff A0 _ D). Qed.

Lemma listeners_loop_ok A0 ls st :
  foldM validateListener (mkLState ∅ A0) ls = Ok st →
  listeners_ok A0 ls ∧ ∀ n, n ∈ listeners st ↔ n ∈ Name <$> ls.
Proof.
  intros Hst. rewrite <- listeners_ok_alt.
  destruct (foldM_ok _ _ _ (listener_body_ok A0) _ _ _ _ (LState_rep_init A0) Hst) as [? [? _]].
  auto.
Qed.

Lemma listeners_loop_complete A0 ls :
  listeners_ok A0 ls → ∃ st, foldM validateListener (mkLState ∅ A0) ls = Ok st.
Proof.
  rewrite <- listeners_ok_alt. apply (foldM_complete _ (LState_rep A0));
    eauto using listener_body_ok, listener_body_complete, LState_rep_init.
Qed.

(** ** The principal loop

    A grant processed by the loop is a pair of a principal and a listener name.
    Each ownership map holds exactly the keys of the processed pairs of its
    kind. *)
Section principals.
Context `{GoUnicode}.
Abbreviation pair := (Principal * gostring)%type.
Implicit Types (x y : pair) (E : list pair).

Definition lookup_listener (c : Config) (g : gostring) : Listener :=
  default zeroListener (byName c g).

Arguments lookup_listener : simpl never.

Definition bkey (x : pair) : gostring := pair_key x.2 (BackendUser x.1).
Definition gkey (c : Config) (x : pair) : gostring :=
  pair_key x.2 (googleUsername (Email x.1) (Engine (lookup_listener c x.2))).
Definition akey (x : pair) : gostring := pair_key x.2 (Email x.1).

Definition at_google (c : Config) (x : pair) : Prop := Provider (lookup_listener c x.2) = google.
Definition at_azure (c : Config) (x : pair) : Prop := Provider (lookup_listener c x.2) = azure.

#[local] Instance at_google_dec c x : Decision (at_google c x).
Proof. unfold at_google. apply _. Defined.
#[local] Instance at_azure_dec c x : Decision (at_azure c x).
Proof. unfold at_azure. apply _. Defined.

(** [m] holds the keys of the pairs of [E] that satisfy [C]. *)
Definition owners (C : pair → Prop) (key : pair → gostring) E (m : gmap gostring gostring) : Prop :=
  ∀ k i, m !! k = Some i ↔ ∃ x, x ∈ E ∧ C x ∧ key x = k ∧ ID x.1 = i.

Definition unclaimed (C : pair → Prop) (key : pair → gostring) E x : Prop :=
  ∀ y, y ∈ E → C y → key y = key x → ID y.1 = ID x.1.

Definition ids_set E : Prop := ∀ x, x ∈ E → ID x.1 ≠ [].

Lemma ids_set_snoc E x : ids_set E → ID x.1 ≠ [] → ids_set (E ++ [x]).
Proof. intros HE Hx y [?|Hy%list_elem_of_singleton]%elem_of_app; subst; auto. Qed.

Lemma owned_by_other_false C key E m x :
  owners C key E m → ids_set E →
  owned_by_other m (key x) (ID x.1) = false ↔ unclaimed C key E x.
Proof.
  intros Hm HE. unfold owned_by_other, unclaimed. go_bool.
  destruct (m !! key x) as [i|] eqn:Hi; cbn.
  - split.
    + intros Himp y Hy HC Hk.
      assert (m !! key x = Some (ID y.1)) as Hy' by (apply Hm; eauto).
      assert (i = ID y.1) as -> by congruence. auto.
    + apply Hm in Hi as (y & Hy & HC & Hk & <-). eauto.
  - split; [|by intros _ []]. intros _ y Hy HC Hk.
    assert (m !! key x = Some (ID y.1)) by (apply Hm; eauto). congruence.
Qed.

Lemma owners_claim C key E m x :
  owners C key E m → C x → unclaimed C key E x →
  owners C key (E ++ [x]) (<[key x := ID x.1]> m).
Proof.
  intros Hm HC Hu k i. rewrite lookup_insert. case_decide as Hk.
  - split.
    + intros [= <-]. exists x. set_solver.
    + intros (y & Hy & HCy & Hky & <-). f_equal.
      apply elem_of_app in Hy as [Hy|Hy%list_elem_of_singleton]; [|by subst].
      symmetry. apply Hu; congruence.
  - rewrite (Hm k i). split; intros (y & Hy & HCy & Hky & Hid); exists y; set_solver.
Qed.

Lemma owners_skip C key E m x :
  owners C key E m → ¬ C x → owners C key (E ++ [x]) m.
Proof. intros Hm HC k i. rewrite (Hm k i). split; intros (y & ?); exists y; set_solver. Qed.

Definition maps_rep (c : Config) (st : PState) E : Prop :=
  owners (λ _, True) bkey E (backendUsers st) ∧
  owners (at_google c) (gkey c) E (googleNames st) ∧
  owners (at_azure c) akey E (azureNames st).

(** What the body of the grant loop requires of the pair [x] after [E]. *)
Definition grant_at (c : Config) (known : gset gostring) E x : Prop :=
  (x.2 ∈ known ∧ (at_google c x ∨ at_azure c x → Email x.1 ≠ [])) ∧
  unclaimed (λ _, True) bkey E x ∧
  (at_google c x → unclaimed (at_google c) (gkey c) E x) ∧
  (at_azure c x → unclaimed (at_azure c) akey E x).

Definition after_grant (c : Config) (st : PState) x : PState :=
  mkPState (ids st) (keys st)
    (<[bkey x := ID x.1]> (backendUsers st))
    (if decide (at_google c x) then <[gkey c x := ID x.1]> (googleNames st) else googleNames st)
    (if decide (at_azure c x) then <[akey x := ID x.1]> (azureNames st) else azureNames st).

Lemma validateGrant_iff c known p g st E st' :
  maps_rep c st E → ids_set E →
  validateGrant c known p st g = Ok st' ↔
  grant_at c known E (p, g) ∧ st' = after_grant c st (p, g).
Proof.
  intros (Hb & Hg & Ha) HE. unfold validateGrant, grant_at, after_grant.
  rewrite <- (owned_by_other_false _ _ _ _ (p, g) Hb HE).
  rewrite <- (owned_by_other_false _ _ _ _ (p, g) Hg HE).
  rewrite <- (owned_by_other_false _ _ _ _ (p, g) Ha HE).
  unfold at_google, at_azure, bkey, gkey, akey; cbn.
  fold (lookup_listener c g). set (l := lookup_listener c g).
  destruct (decide (Provider l = google)) as [Hl|Hl],
    (decide (Provider l = azure)) as [Hl'|Hl'].
  1: by rewrite Hl in Hl'.
  all: rewrite ?(proj2 (seq_eqb_true _ _) Hl), ?(proj2 (seq_eqb_false _ _) Hl).
  all: rewrite ?(proj2 (seq_eqb_true _ _) Hl'), ?(proj2 (seq_eqb_false _ _) Hl').
  all: cbn; go_bool; cbn; tauto.
Qed.

Lemma maps_rep_step c known st E x :
  maps_rep c st E → grant_at c known E x → maps_rep c (after_grant c st x) (E ++ [x]).
Proof.
  intros (Hb & Hg & Ha) (_ & Hub & Hug & Hua). split_and!; cbn.
  - by apply owners_claim.
  - case_decide; [apply owners_claim|apply owners_skip]; auto.
  - case_decide; [apply owners_claim|apply owners_skip]; auto.
Qed.

Lemma maps_rep_init c : maps_rep c (mkPState ∅ ∅ ∅ ∅ ∅) [].
Proof.
  split_and!; intros k i; cbn; rewrite lookup_empty; split; [done|set_solver|done|set_solver|done|set_solver].
Qed.

(** The whole grant loop of one principal, after the pairs [E]. *)
Definition grants_of (p : Principal) : list pair := (λ g, (p, g)) <$> Grants p.

Lemma grants_loop_ok c known p E st st' :
  maps_rep c st E → ids_set E → ID p ≠ [] →
  foldM (validateGrant c known p) st (Grants p) = Ok st' →
  each_after (grant_at c known) E (grants_of p) ∧
  maps_rep c st' (E ++ grants_of p) ∧ ids st' = ids st ∧ keys st' = keys st.
Proof.
  unfold grants_of. generalize (Grants p) as gs. intros gs HR HE Hp.
  revert st E HR HE. induction gs as [|g gs IH]; intros st E HR HE; cbn.
  - intros [= <-]. rewrite app_nil_r. auto using each_after_nil.
  - rewrite bind_Ok. intros (s1 & Hs1 & Hgs).
    apply (validateGrant_iff _ _ _ _ _ E) in Hs1 as [Hg ->]; [|done..].
    apply (IH _ (E ++ [(p, g)])) in Hgs as (? & HR' & -> & ->).
    + rewrite <- app_assoc in HR'. rewrite each_after_cons. auto.
    + by eapply maps_rep_step.
    + by apply ids_set_snoc.
Qed.

Lemma grants_loop_complete c known p E st :
  maps_rep c st E → ids_set E → ID p ≠ [] →
  each_after (grant_at c known) E (grants_of p) →
  ∃ st', foldM (validateGrant c known p) st (Grants p) = Ok st'.
Proof.
  unfold grants_of. generalize (Grants p) as gs. intros gs HR HE Hp.
  revert st E HR HE. induction gs as [|g gs IH]; intros st E HR HE; cbn; [eauto|].
  rewrite each_after_cons. intros [Hg Hgs].
  assert (validateGrant c known p st g = Ok (after_grant c st (p, g))) as ->
    by (apply (validateGrant_iff _ _ _ _ _ E); auto).
  cbn. apply (IH _ (E ++ [(p, g)])); [by eapply maps_rep_step|by apply ids_set_snoc|done].
Qed.

(** The body of the principal loop: its own checks, then its grants. *)
Definition enter_principal (st : PState) (p : Principal) : PState :=
  mkPState ({[ID p]} ∪ ids st)
    (if decide (AWSAccessKey p = []) then keys st else {[AWSAccessKey p]} ∪ keys st)
    (backendUsers st) (googleNames st) (azureNames st).

Lemma validatePrincipal_iff c known st p st' :
  validatePrincipal c known st p = Ok st' ↔
  principal_ok p ∧ (ID p ∉ ids st) ∧ (AWSAccessKey p ≠ [] → AWSAccessKey p ∉ keys st) ∧
  foldM (validateGrant c known p) (enter_principal st p) (Grants p) = Ok st'.
Proof.
  unfold validatePrincipal, principal_ok, enter_principal.
  destruct (decide (AWSAccessKey p = [])) as [Hk|Hk].
  - rewrite (proj2 (empty_true _) Hk). cbn. go_bool. rewrite Hk. intuition congruence.
  - rewrite (proj2 (empty_false _) Hk). cbn. go_bool. cbn. tauto.
Qed.

Definition PState_rep (c : Config) (st : PState) (D : list Principal) : Prop :=
  maps_rep c st (D ≫= grants_of) ∧
  (∀ i, i ∈ ids st ↔ i ∈ ID <$> D) ∧
  (∀ k, k ∈ keys st ↔ k ≠ [] ∧ k ∈ AWSAccessKey <$> D) ∧
  (∀ p, p ∈ D → ID p ≠ []).

Definition principal_fresh (D : list Principal) (p : Principal) : Prop :=
  (∀ q, q ∈ D → ID q ≠ ID p) ∧
  (∀ q, q ∈ D → AWSAccessKey p ≠ [] → AWSAccessKey q ≠ AWSAccessKey p).

Definition principal_at (c : Config) (known : gset gostring) (D : list Principal) (p : Principal) : Prop :=
  (principal_ok p ∧ principal_fresh D p) ∧
  each_after (grant_at c known) (D ≫= grants_of) (grants_of p).

Lemma principal_fresh_iff c st D p :
  PState_rep c st D →
  principal_fresh D p ↔
  (ID p ∉ ids st) ∧ (AWSAccessKey p ≠ [] → AWSAccessKey p ∉ keys st).
Proof.
  intros (_ & Hi & Hk & _). unfold principal_fresh. rewrite Hi, Hk, !list_elem_of_fmap.
  naive_solver.
Qed.

Lemma ids_set_grants D : (∀ p, p ∈ D → ID p ≠ []) → ids_set (D ≫= grants_of).
Proof.
  intros HD x (p & Hx & Hp)%list_elem_of_bind.
  apply list_elem_of_fmap in Hx as (g & -> & _). auto.
Qed.

Lemma principal_body_ok c known st D p st' :
  PState_rep c st D → validatePrincipal c known st p = Ok st' →
  principal_at c known D p ∧ PState_rep c st' (D ++ [p]).
Proof.
  intros HR (Hok & Hid & Hkey & Hg)%validatePrincipal_iff.
  assert (principal_fresh D p) by (by eapply principal_fresh_iff).
  destruct HR as (Hm & Hi & Hk & HD).
  apply (grants_loop_ok _ _ _ (D ≫= grants_of)) in Hg as (Hall & Hm' & Hids & Hkeys);
    [|done|by apply ids_set_grants|apply Hok].
  split; [done|]. split_and!.
  - rewrite bind_app. cbn. by rewrite app_nil_r.
  - intros i. rewrite Hids. cbn. rewrite fmap_app. set_solver.
  - intros k. rewrite Hkeys, fmap_app. cbn. case_decide; set_solver.
  - intros q [?|?%list_elem_of_singleton]%elem_of_app; subst; [auto|apply Hok].
Qed.

Lemma principal_body_complete c known st D p :
  PState_rep c st D → principal_at c known D p →
  ∃ st', validatePrincipal c known st p = Ok st'.
Proof.
  intros HR [[Hok Hfr] Hall]. rewrite (principal_fresh_iff _ _ _ _ HR) in Hfr.
  destruct HR as (Hm & Hi & Hk & HD).
  destruct (grants_loop_complete c known p (D ≫= grants_of) (enter_principal st p))
    as [st' Hst']; [done|by apply ids_set_grants|apply Hok|done|].
  exists st'. rewrite validatePrincipal_iff. tauto.
Qed.

Lemma PState_rep_init c : PState_rep c (mkPState ∅ ∅ ∅ ∅ ∅) [].
Proof. split; [apply maps_rep_init|]. split_and!; cbn; set_solver. Qed.

(** All principals: the loop succeeds exactly when every principal is right
    after the earlier ones. *)
Lemma principals_loop c known ps :
  (∃ st, foldM (validatePrincipal c known) (mkPState ∅ ∅ ∅ ∅ ∅) ps = Ok st) ↔
  each_after (principal_at c known) [] ps.
Proof.
  split.
  - intros [st Hst]. by destruct (foldM_ok _ _ _ (principal_body_ok c known) _ _ _ _
      (PState_rep_init c) Hst).
  - apply (foldM_complete _ (PState_rep c));
      eauto using principal_body_ok, principal_body_complete, PState_rep_init.
Qed.

(** Two pairs do not give two principals the same identity. *)
Definition compatible c x y : Prop :=
  (bkey x = bkey y → ID x.1 = ID y.1) ∧
  (at_google c x → at_google c y → gkey c x = gkey c y → ID x.1 = ID y.1) ∧
  (at_azure c x → at_azure c y → akey x = akey y → ID x.1 = ID y.1).

Lemma grants_at_alt c known E :
  each_after (grant_at c known) [] E ↔
  Forall (λ x, x.2 ∈ known ∧ (at_google c x ∨ at_azure c x → Email x.1 ≠ [])) E ∧
  ∀ x y, x ∈ E → y ∈ E → compatible c x y.
Proof.
  rewrite <- ForallOrdPairs_all by (unfold compatible; naive_solver).
  rewrite <- (each_after_local _ []).
  assert (ForallOrdPairs (compatible c) E ↔
    each_after (λ D a, ∀ b, b ∈ D → compatible c b a) [] E) as ->.
  { rewrite each_after_earlier. set_solver. }
  rewrite <- each_after_and. apply each_after_iff. intros E' x.
  unfold grant_at, unclaimed, compatible. split.
  - intros (Hl & Hb & Hg & Ha). split; [done|]. intros y Hy. auto 8.
  - intros [Hl Hall]. split; [done|].
    split_and!; intros; edestruct Hall as (? & ? & ?); eauto.
Qed.

Lemma principals_alt c known ps :
  each_after (principal_at c known) [] ps ↔
  (Forall principal_ok ps ∧ NoDup (ID <$> ps) ∧
   ForallOrdPairs (λ p q, AWSAccessKey q ≠ [] → AWSAccessKey p ≠ AWSAccessKey q) ps) ∧
  each_after (grant_at c known) [] (ps ≫= grants_of).
Proof.
  unfold principal_at, principal_fresh.
  rewrite !each_after_and, each_after_local.
  rewrite (each_after_earlier (λ q p, ID q ≠ ID p)).
  rewrite (each_after_earlier (λ q p, AWSAccessKey p ≠ [] → AWSAccessKey q ≠ AWSAccessKey p)).
  rewrite ForallOrdPairs_fmap_NoDup, (each_after_flat (grant_at c known) grants_of []). cbn.
  set_solver.
Qed.
End principals.

(** ** The theorem *)
Lemma byName_spec c g l :
  NoDup (Name <$> Listeners c) →
  byName c g = Some l ↔ l ∈ Listeners c ∧ Name l = g.
Proof.
  intros Hnd. unfold byName. rewrite <- elem_of_list_to_map.
  - rewrite elem_of_reverse, list_elem_of_fmap. naive_solver.
  - rewrite <- fmap_reverse, <- list_fmap_compose. rewrite fmap_reverse. by rewrite reverse_Permutation.
Qed.

Lemma lookup_listener_eq c l :
  NoDup (Name <$> Listeners c) → l ∈ Listeners c → lookup_listener c (Name l) = l.
Proof.
  intros Hnd Hl. unfold lookup_listener.
  by rewrite (proj2 (byName_spec c (Name l) l Hnd) (conj Hl eq_refl)).
Qed.

Lemma elem_of_grants ps x :
  x ∈ ps ≫= grants_of ↔ x.1 ∈ ps ∧ x.2 ∈ Grants x.1.
Proof.
  rewrite list_elem_of_bind. unfold grants_of. setoid_rewrite list_elem_of_fmap.
  destruct x as [p g]; cbn. naive_solver.
Qed.

(** A listener is the one of its name. *)
Lemma NoDup_fmap_names (ls : list Listener) l m :
  NoDup (Name <$> ls) → l ∈ ls → m ∈ ls → Name l = Name m → m = l.
Proof.
  induction ls as [|x ls IH]; [set_solver|]. cbn. rewrite NoDup_cons, !elem_of_cons.
  rewrite list_elem_of_fmap. intros [Hn Hnd] [->|Hl] [->|Hm] Heq; [done| | |by apply IH].
  - destruct Hn. eauto.
  - destruct Hn. eauto.
Qed.

(** ** No panics *)
Lemma foldM_no_panic {S A} (f : S → A → res S) s l : (∀ s a, no_panic (f s a)) → no_panic (foldM f s l).
Proof.
  intros Hf. revert s. induction l as [|a l IH]; intros s; cbn [foldM]; [done|].
  by apply no_panic_bind.
Qed.

Ltac no_panic_auto :=
  repeat first [apply no_panic_Ok | apply no_panic_guard | apply SplitHostPort_no_panic | apply no_panic_wrap
               | apply no_panic_bind; [|intros ? _] | apply foldM_no_panic; intros ? ? | case_match | done].

Section theorem.
Context `{GoUnicode}.

Lemma grants_wf c known :
  NoDup (Name <$> Listeners c) → (∀ n, n ∈ known ↔ n ∈ Name <$> Listeners c) →
  each_after (grant_at c known) [] (Principals c ≫= grants_of) ↔
  (∀ p g, p ∈ Principals c → g ∈ Grants p →
    ∃ l, l ∈ Listeners c ∧ Name l = g ∧
         (Provider l = google ∨ Provider l = azure → Email p ≠ [])) ∧
  (∀ p l q m, granted_at c p l → granted_at c q m → no_clash p l q m).
Proof.
  intros Hnd Hk. rewrite grants_at_alt, Forall_forall. setoid_rewrite elem_of_grants.
  unfold at_google, at_azure. setoid_rewrite Hk. setoid_rewrite list_elem_of_fmap. split.
  - intros [Hloc Hcomp]. split.
    + intros p g Hp Hg. destruct (Hloc (p, g)) as [(l & Hgl & Hl) Hem]; [done|]. cbn in *.
      exists l. split_and!; [done..|]. subst g. by rewrite lookup_listener_eq in Hem.
    + intros p l q m (Hp & Hl & Hpl) (Hq & Hm & Hqm).
      specialize (Hcomp (p, Name l) (q, Name m) (conj Hp Hpl) (conj Hq Hqm)).
      unfold compatible, at_google, at_azure, bkey, gkey, akey in Hcomp. cbn in Hcomp.
      by rewrite !lookup_listener_eq in Hcomp.
  - intros [Hloc Hcomp]. split.
    + intros [p g] [Hp Hg]; cbn in *. destruct (Hloc p g) as (l & Hl & <- & Hem); [done..|].
      rewrite lookup_listener_eq by done. eauto.
    + intros [p g] [q g'] [Hp Hg] [Hq Hg']; cbn in *.
      destruct (Hloc p g) as (l & Hl & <- & _); [done..|].
      destruct (Hloc q g') as (m & Hm & <- & _); [done..|].
      specialize (Hcomp p l q m). unfold no_clash, granted_at in Hcomp.
      unfold compatible, at_google, at_azure, bkey, gkey, akey. cbn.
      rewrite !lookup_listener_eq by done. auto.
Qed.

(** The addresses taken by the credential endpoints before the listener loop. *)
Definition endpoint_addresses (c : Config) : gset gostring :=
  if empty (HTTPSListen c) then {[HTTPListen c]}
  else {[HTTPSListen c]} ∪ {[HTTPListen c]}.

Lemma not_endpoint_address c l :
  Listen l ≠ [] →
  Listen l ∉ endpoint_addresses c ↔ Listen l ≠ HTTPListen c ∧ Listen l ≠ HTTPSListen c.
Proof.
  intros Hl. unfold endpoint_addresses. destruct (empty (HTTPSListen c)) eqn:He.
  - apply empty_true in He. rewrite He. set_solver.
  - set_solver.
Qed.

Lemma endpoint_step (c : Config) (k : gset gostring → res Config) c' :
  ((addresses0 ← (if negb (empty (HTTPSListen c)) then
      _ ← guard_err (negb (split_port (HTTPSListen c) =s lit "0")
                     && bool_decide (HTTPSListen c ∈ ({[HTTPListen c]} : gset gostring)))
            (Errorf "duplicate credential endpoint address" []);
      Ok ({[HTTPSListen c]} ∪ {[HTTPListen c]})
    else Ok {[HTTPListen c]}); k addresses0) = Ok c') ↔
  (HTTPSListen c ≠ [] → fixed_port (HTTPSListen c) → HTTPSListen c ≠ HTTPListen c) ∧
  k (endpoint_addresses c) = Ok c'.
Proof.
  unfold endpoint_addresses, fixed_port. destruct (empty (HTTPSListen c)) eqn:He; cbn.
  - apply empty_true in He. rewrite He. intuition congruence.
  - apply empty_false in He. go_bool. rewrite elem_of_singleton. intuition congruence.
Qed.

Lemma listeners_ok_wf c :
  listeners_ok (endpoint_addresses c) (Listeners c) ↔
  Forall listener_ok (Listeners c) ∧ NoDup (Name <$> Listeners c) ∧
  ForallOrdPairs (λ l m, fixed_port (Listen m) → Listen l ≠ Listen m) (Listeners c) ∧
  (∀ l, l ∈ Listeners c → fixed_port (Listen l) →
    Listen l ≠ HTTPListen c ∧ Listen l ≠ HTTPSListen c).
Proof.
  unfold listeners_ok. rewrite Forall_forall.
  split; intros (Hok & Hn & Ha & He); split_and!; try done; intros l Hl Hp.
  - apply not_endpoint_address; [apply (Hok l Hl)|by apply He].
  - apply not_endpoint_address; [apply (Hok l Hl)|by apply He].
Qed.

Lemma eqb_empty a b : eqb (empty a) (empty b) = true ↔ (a = [] ↔ b = []).
Proof. rewrite eqb_true_iff, <- !empty_true. destruct (empty a), (empty b); intuition congruence. Qed.

(** The principal loop after the listener loop decides the rest. *)
Lemma loops_wf c c' :
  (lst ← foldM validateListener (mkLState ∅ (endpoint_addresses c)) (Listeners c);
   _ ← foldM (validatePrincipal c (listeners lst)) (mkPState ∅ ∅ ∅ ∅ ∅) (Principals c);
   Ok c) = Ok c' ↔
  c' = c ∧ listeners_ok (endpoint_addresses c) (Listeners c) ∧
  ∃ known, (∀ n, n ∈ known ↔ n ∈ Name <$> Listeners c) ∧
    each_after (principal_at c known) [] (Principals c).
Proof.
  rewrite bind_Ok. setoid_rewrite bind_Ok. split.
  - intros (lst & Hl & st & Hp & [= <-]). apply listeners_loop_ok in Hl as [Hok Hk].
    split_and!; [done..|]. exists (listeners lst). split; [done|]. apply principals_loop. eauto.
  - intros (-> & Hok & known & Hk & Hp).
    destruct (listeners_loop_complete _ _ Hok) as [lst Hl].
    destruct (listeners_loop_ok _ _ _ Hl) as [_ Hk'].
    assert (known = listeners lst) as -> by (apply set_eq; intros n; by rewrite Hk, Hk').
    apply principals_loop in Hp as [st Hp]. eauto.
Qed.

Lemma Validate_accepts c c' :
  Validate c = Ok c' ↔ c' = with_default c ∧ WellFormed c'.
Proof.
  unfold Validate. fold (with_default c). set (d := with_default c). cbn zeta.
  go_bool. rewrite endpoint_step, loops_wf, eqb_empty.
  setoid_rewrite principals_alt.
  split.
  - intros (Hh & Hs & Ht & Hne & Hd & -> & Hls & known & Hk & (Hp & Hi & Hkey) & Hg).
    apply listeners_ok_wf in Hls as (? & Hn & ? & ?).
    apply (grants_wf _ _ Hn Hk) in Hg as [Hg Hc].
    split; [done|]. constructor; auto.
  - intros [-> [Hh Hs Hd Ht Hne Hl Hn Ha He Hp Hi Hkey Hg Hc]]. split_and!; auto.
    + apply listeners_ok_wf. auto.
    + exists (list_to_set (Name <$> Listeners d)).
      assert (Hk : ∀ n, n ∈ (list_to_set (Name <$> Listeners d) : gset gostring) ↔
        n ∈ Name <$> Listeners d) by (intros n; apply elem_of_list_to_set).
      split; [done|]. split; [done|]. apply (grants_wf _ _ Hn Hk). auto.
Qed.

Lemma Validate_no_panic c : no_panic (Validate c).
Proof.
  unfold Validate, validateListener, validatePrincipal, validateGrant. cbv zeta. no_panic_auto.
Qed.

(** C1: [Config.Validate] accepts a configuration exactly when, with the default of
    [http_listen] filled in, it is well-formed, and its result is that configuration:
    the loops over listeners and principals with the maps they fill decide the
    declarative conditions (loopback binds, distinct names and addresses, what each
    provider requires, distinct identities and keys, grants of known listeners, no
    backend user or database user name shared). *)
Theorem Validate_correct c c' :
  Validate c = Ok c' ↔ c' = with_default c ∧ WellFormed c'.
Proof. apply Validate_accepts. Qed.
End theorem.
