(* ===== verification/Clone.v ===== *)
(** * Copying a configuration (src/iamproxy/config.go, [clone])

    A Go slice is a view of an array that others may view and write too, so here
    the arrays of a configuration are in a store and a configuration holds views.
    [clone] is what keeps the caller of [Start], and of [Config()], apart from the
    running emulator. *)
From S2P Require Import Prelude Config.

(** ** The store

    A view is an array's location, an offset and a length, or nil.  [next] is the
    first location not in use. *)
Definition slice := option (nat * nat * nat).

Record stored_principal := mkStored {
  sp_value : Principal;       (* its [Groups] and [Grants] are not used *)
  sp_groups : slice;
  sp_grants : slice
}.

Record store := mkStore {
  strings : gmap nat (list gostring);
  listeners_arr : gmap nat (list Listener);
  principals_arr : gmap nat (list stored_principal);
  next : nat
}.

Record config_ref := mkRef {
  r_value : Config;           (* its [Listeners] and [Principals] are not used *)
  r_listeners : slice;
  r_principals : slice
}.

Definition elems {A} (arrs : gmap nat (list A)) (s : slice) : list A :=
  match s with
  | Some (l, off, n) => take n (drop off (default [] (arrs !! l)))
  | None => []
  end.

(** The configuration that a reference stands for. *)
Definition read_principal (h : store) (p : stored_principal) : Principal :=
  let v := sp_value p in
  mkPrincipal (ID v) (Email v) (elems (strings h) (sp_groups p)) (elems (strings h) (sp_grants p))
    (BackendUser v) (BackendPassword v) (AWSAccessKey v) (AWSSecretKey v) (AWSSessionToken v)
    (ECSAuthorizationToken v) (GoogleRefreshToken v) (AzureClientID v) (AzureClientSecret v).
Definition read_config (h : store) (c : config_ref) : Config :=
  let v := r_value c in
  mkConfig (HTTPListen v) (HTTPSListen v) (PublicURL v) (TLSCert v) (TLSKey v)
    (elems (listeners_arr h) (r_listeners c))
    (read_principal h <$> elems (principals_arr h) (r_principals c)).

(** ** The operation *)
(** [append([]T(nil), s...)]: nil for an empty view, and otherwise a new array. *)
Definition append_copy {A} (arrs : gmap nat (list A)) (free : nat) (s : slice) : slice * gmap nat (list A) * nat :=
  match elems arrs s with
  | [] => (None, arrs, free)
  | xs => (Some (free, 0, length xs), <[free := xs]> arrs, S free)
  end.

Definition set_elem (d : slice) (i : nat) (p : stored_principal) (arrs : gmap nat (list stored_principal)) :=
  match d with
  | Some (l, off, _) => alter (insert (off + i) p) l arrs
  | None => arrs
  end.

(** One round of the loop: [d.Principals[i].Groups = ...; ....Grants = ...]. *)
Definition clone_principal (c : config_ref) (d : slice) (h : store) (i : nat) : res store :=
  cp ← index_go (elems (principals_arr h) (r_principals c)) i;
  dp ← index_go (elems (principals_arr h) d) i;
  let '(groups, strs, free) := append_copy (strings h) (next h) (sp_groups cp) in
  let '(grants, strs, free) := append_copy strs free (sp_grants cp) in
  Ok (mkStore strs (listeners_arr h)
        (set_elem d i (mkStored (sp_value dp) groups grants) (principals_arr h)) free).

Definition clone (h : store) (c : config_ref) : res (config_ref * store) :=
  let '(ls, lis, free) := append_copy (listeners_arr h) (next h) (r_listeners c) in
  let '(ps, pri, free) := append_copy (principals_arr h) free (r_principals c) in
  let h1 := mkStore (strings h) lis pri free in
  h2 ← foldM (clone_principal c ps) h1 (seq 0 (length (elems pri ps)));
  Ok (mkRef (r_value c) ls ps, h2).

(** ** What a reference depends on

    [slice_in P s]: the view's array is at a location of [P]; [agree P h h']: the
    stores agree there. *)
Definition slice_in (P : nat → Prop) (s : slice) : Prop := match s with Some (l, _, _) => P l | None => True end.

Record config_in (P : nat → Prop) (h : store) (c : config_ref) : Prop := {
  ci_listeners : slice_in P (r_listeners c);
  ci_principals : slice_in P (r_principals c);
  ci_each : Forall (λ p, slice_in P (sp_groups p) ∧ slice_in P (sp_grants p)) (elems (principals_arr h) (r_principals c))
}.

Record agree (P : nat → Prop) (h h' : store) : Prop := {
  ag_strings l : P l → strings h' !! l = strings h !! l;
  ag_listeners l : P l → listeners_arr h' !! l = listeners_arr h !! l;
  ag_principals l : P l → principals_arr h' !! l = principals_arr h !! l
}.

Lemma elems_agree {A} (P : nat → Prop) (m m' : gmap nat (list A)) s :
  (∀ l, P l → m' !! l = m !! l) → slice_in P s → elems m' s = elems m s.
Proof. intros Hm. destruct s as [[[l o] n]|]; [|done]. cbn. intros Hl. by rewrite Hm. Qed.

Lemma read_config_agree P h h' c : config_in P h c → agree P h h' → read_config h' c = read_config h c.
Proof.
  intros [Hl Hp He] [Hs1 Hs2 Hs3]. unfold read_config.
  rewrite (elems_agree P _ _ _ Hs2 Hl), (elems_agree P _ _ _ Hs3 Hp). f_equal.
  apply list_fmap_ext. intros i p Hi. eapply Forall_lookup_1 in He as [Hg1 Hg2]; [|done].
  unfold read_principal. by rewrite (elems_agree P _ _ _ Hs1 Hg1), (elems_agree P _ _ _ Hs1 Hg2).
Qed.

(** A fresh copy has the same elements, and is new; what was there stays. *)
Lemma append_copy_spec {A} (m : gmap nat (list A)) free s s' m' free' :
  append_copy m free s = (s', m', free') →
  elems m' s' = elems m s ∧ (free ≤ free')%nat ∧ slice_in (λ l, free ≤ l < free')%nat s' ∧
  (∀ l, (l < free)%nat → m' !! l = m !! l) ∧
  (elems m s = [] → s' = None) ∧ (elems m s ≠ [] →
     s' = Some (free, 0, length (elems m s)) ∧ m' !! free = Some (elems m s) ∧ (free < free')%nat).
Proof.
  unfold append_copy. destruct (elems m s) as [|x xs] eqn:He; intros [= <- <- <-].
  - by split_and!.
  - split_and!; try done; cbn [slice_in]; try lia.
    3: intros _; split_and!; [done|by rewrite lookup_insert_eq|lia].
    + unfold elems. rewrite lookup_insert_eq. cbn [default from_option]. by rewrite drop_0, take_ge.
    + intros l Hl. rewrite lookup_insert_ne; [done|lia].
Qed.

(** ** The loop *)
Section loop.
Context (h0 h1 : store) (c : config_ref) (a : nat).
Let X : list stored_principal := elems (principals_arr h0) (r_principals c).
(** The array of the copy is [a]; [h1] is the store when the loop starts. *)
Context (below : config_in (λ l, l < next h0)%nat h0 c).
Context (Ha : (next h0 ≤ a < next h1)%nat).
Context (H1 : agree (λ l, l < next h0)%nat h0 h1).
Context (HX : principals_arr h1 !! a = Some X).
Let d : slice := Some (a, 0, length X).

Definition copy_of (h : store) (p x : stored_principal) : Prop :=
  sp_value p = sp_value x ∧
  slice_in (λ l, next h0 ≤ l < next h)%nat (sp_groups p) ∧ slice_in (λ l, next h0 ≤ l < next h)%nat (sp_grants p) ∧
  elems (strings h) (sp_groups p) = elems (strings h0) (sp_groups x) ∧
  elems (strings h) (sp_grants p) = elems (strings h0) (sp_grants x).

Record loop_inv (h : store) (i : nat) : Prop := {
  lp_agree : agree (λ l, l < next h0)%nat h0 h;
  lp_next : (next h1 ≤ next h)%nat;
  lp_listeners : listeners_arr h = listeners_arr h1;
  lp_done : ∃ D, principals_arr h !! a = Some (D ++ drop i X) ∧ Forall2 (copy_of h) D (take i X)
}.

Lemma slice_in_mono (P Q : nat → Prop) s : (∀ l, P l → Q l) → slice_in P s → slice_in Q s.
Proof. intros HPQ. destruct s as [[[l o] n]|]; cbn; auto. Qed.

(** What the two copies of a round give: fresh slices of the same strings. *)
Lemma fields_copied h x g r strs1 strs2 f1 f2 :
  agree (λ l, l < next h0)%nat h0 h → (next h0 ≤ next h)%nat →
  slice_in (λ l, l < next h0)%nat (sp_groups x) → slice_in (λ l, l < next h0)%nat (sp_grants x) →
  append_copy (strings h) (next h) (sp_groups x) = (g, strs1, f1) →
  append_copy strs1 f1 (sp_grants x) = (r, strs2, f2) →
  (next h ≤ f2)%nat ∧ (∀ l, (l < next h)%nat → strs2 !! l = strings h !! l) ∧
  slice_in (λ l, next h0 ≤ l < f2)%nat g ∧ slice_in (λ l, next h0 ≤ l < f2)%nat r ∧
  elems strs2 g = elems (strings h0) (sp_groups x) ∧ elems strs2 r = elems (strings h0) (sp_grants x).
Proof.
  intros Hag Hn Hxg Hxr (Hg1 & Hg2 & Hg3 & Hg4 & _)%append_copy_spec (Hr1 & Hr2 & Hr3 & Hr4 & _)%append_copy_spec.
  split; [lia|]. split; [intros l Hl; rewrite Hr4 by lia; by apply Hg4|].
  split; [eapply slice_in_mono; [|exact Hg3]; cbn; lia|]. split; [eapply slice_in_mono; [|exact Hr3]; cbn; lia|].
  split.
  - rewrite (elems_agree (λ l, l < f1)%nat strs1 strs2); [|intros l ?; by apply Hr4|].
    + rewrite Hg1. apply (elems_agree _ _ _ _ (ag_strings _ _ _ Hag) Hxg).
    + eapply slice_in_mono; [|exact Hg3]. cbn. lia.
  - rewrite Hr1, (elems_agree (λ l, l < next h0)%nat (strings h) strs1); [|intros l ?; apply Hg4; lia|done].
    apply (elems_agree _ _ _ _ (ag_strings _ _ _ Hag) Hxr).
Qed.

(** A copied principal stays one while the strings below stay. *)
Lemma copy_of_mono h h' p x :
  (next h ≤ next h')%nat → (∀ l, (l < next h)%nat → strings h' !! l = strings h !! l) → copy_of h p x → copy_of h' p x.
Proof.
  intros Hn Hold (Hv & Hpg & Hpr & Heg & Her).
  assert (∀ s, slice_in (λ l, next h0 ≤ l < next h)%nat s →
    slice_in (λ l, next h0 ≤ l < next h')%nat s ∧ elems (strings h') s = elems (strings h) s) as Hs.
  { intros s Hs. split; [eapply slice_in_mono; [|exact Hs]; cbn; lia|].
    apply (elems_agree (λ l, next h0 ≤ l < next h)%nat); [intros l ?; apply Hold; lia|done]. }
  destruct (Hs _ Hpg) as [? E1], (Hs _ Hpr) as [? E2]. split_and!; try done; congruence.
Qed.

Lemma clone_principal_inv h i x :
  loop_inv h i → X !! i = Some x → ∃ h', clone_principal c d h i = Ok h' ∧ loop_inv h' (S i).
Proof.
  intros [Hag Hnx Hli (D & HD & Hcopy)] Hx.
  assert (i < length X)%nat as Hlt by (by eapply lookup_lt_Some).
  assert (length D = i) as Hlen by (apply Forall2_length in Hcopy; rewrite Hcopy, length_take; lia).
  assert (drop i X = x :: drop (S i) X) as Hdrop by (by apply drop_S).
  pose proof (ci_each _ _ _ below) as Heach. eapply Forall_lookup_1 in Heach as [Hxg Hxr]; [|exact Hx].
  assert (index_go (elems (principals_arr h) (r_principals c)) i = Ok x) as Hsrc.
  { rewrite (elems_agree _ _ _ _ (ag_principals _ _ _ Hag) (ci_principals _ _ _ below)). unfold index_go.
    unfold X in Hx. by rewrite Hx. }
  assert (index_go (elems (principals_arr h) d) i = Ok x) as Hdst.
  { assert (elems (principals_arr h) d = D ++ drop i X) as Hd.
    { unfold elems, d. rewrite HD. cbn [default from_option]. rewrite drop_0. apply take_ge.
      rewrite length_app, length_drop. lia. }
    unfold index_go. by rewrite Hd, lookup_app_r, Hlen, Nat.sub_diag, Hdrop by lia. }
  unfold clone_principal. rewrite Hsrc. cbn [mbind res_bind]. rewrite Hdst. cbn [mbind res_bind].
  destruct (append_copy (strings h) (next h) (sp_groups x)) as [[g strs1] f1] eqn:Hg.
  destruct (append_copy strs1 f1 (sp_grants x)) as [[r strs2] f2] eqn:Hr.
  destruct (fields_copied h x g r strs1 strs2 f1 f2) as (Hf & Hold & Hsg & Hsr & Heg & Her); [done|lia|done..|].
  eexists. split; [done|]. split; cbn [next listeners_arr principals_arr strings]; [|lia|done|].
  - destruct Hag as [A1 A2 A3]. split; cbn; [|done|].
    + intros l Hl. rewrite Hold by lia. by apply A1.
    + intros l Hl. rewrite lookup_alter_ne by lia. by apply A3.
  - exists (D ++ [mkStored (sp_value x) g r]). split.
    + cbn [set_elem d]. rewrite lookup_alter_eq, HD, Hdrop. cbn [fmap option_fmap option_map]. f_equal.
      rewrite Nat.add_0_l, insert_app_r_alt, Hlen, Nat.sub_diag by lia. by rewrite <- app_assoc.
    + rewrite (take_S_r _ _ x) by done. apply Forall2_app; [|constructor; [by split_and!|done]].
      eapply Forall2_impl; [exact Hcopy|]. intros p y. by apply copy_of_mono.
Qed.

Lemma clone_loop k i h :
  loop_inv h i → (i + k = length X)%nat →
  ∃ h', foldM (clone_principal c d) h (seq i k) = Ok h' ∧ loop_inv h' (length X).
Proof.
  revert i h. induction k as [|k IH]; intros i h Hi Hk; cbn.
  - exists h. split; [done|]. by replace (length X) with i by lia.
  - destruct (lookup_lt_is_Some_2 X i) as [x Hx]; [lia|].
    destruct (clone_principal_inv h i x Hi Hx) as (h' & -> & Hi'). cbn. apply IH; [done|lia].
Qed.
End loop.

(** ** The result *)
Definition fresh_copy (h : store) (c : config_ref) (d : config_ref) (h' : store) : Prop :=
  read_config h' d = read_config h c ∧ agree (λ l, l < next h)%nat h h' ∧
  config_in (λ l, next h ≤ l < next h')%nat h' d.

Lemma read_copy h h' p x : copy_of h h' p x → read_principal h' p = read_principal h x.
Proof. intros (Hv & _ & _ & Hg & Hr). unfold read_principal. by rewrite Hv, Hg, Hr. Qed.

Lemma clone_fresh h c :
  config_in (λ l, l < next h)%nat h c → ∃ d h', clone h c = Ok (d, h') ∧ fresh_copy h c d h'.
Proof.
  intros Hc. unfold clone.
  destruct (append_copy (listeners_arr h) (next h) (r_listeners c)) as [[ls lis] n1] eqn:Hl.
  destruct (append_copy (principals_arr h) n1 (r_principals c)) as [[ps pri] n2] eqn:Hp.
  apply append_copy_spec in Hl as (L1 & L2 & L3 & L4 & _). apply append_copy_spec in Hp as (P1 & P2 & P3 & P4 & P5 & P6).
  set (h1 := mkStore (strings h) lis pri n2). set (X := elems (principals_arr h) (r_principals c)) in *.
  assert (agree (λ l, l < next h)%nat h h1) as Hag.
  { split; cbn; [done|done|]. intros l Hlt. apply P4. lia. }
  assert (∀ h', listeners_arr h' = listeners_arr h1 → (n2 ≤ next h')%nat →
            slice_in (λ l, next h ≤ l < next h')%nat ls ∧ elems (listeners_arr h') ls = elems (listeners_arr h) (r_listeners c)) as Hls.
  { intros h' -> Hn. split; [|done]. eapply slice_in_mono; [|exact L3]. cbn. lia. }
  rewrite P1. destruct (decide (X = [])) as [HX|HX].
  - rewrite HX, (P5 HX). cbn. eexists _, _. split; [done|]. destruct (Hls h1) as [Hls1 Hls2]; [done..|].
    split; [|split; [done|by split]]. unfold read_config. cbn [r_value r_listeners r_principals]. rewrite Hls2. f_equal.
    change (elems (principals_arr h) (r_principals c)) with X. by rewrite HX.
  - destruct (P6 HX) as (-> & HpX & Hlt).
    destruct (clone_loop h h1 c n1 Hc) with (k := length X) (i := 0%nat) (h := h1)
      as (h' & Hrun & [Hag' Hn Hlis (D & HD & Hcopy)]); [cbn; lia| |done|].
    { split; [done|done|done|]. exists []. split; [exact HpX|done]. }
    fold X in HD, Hcopy. rewrite drop_ge, app_nil_r in HD by done. rewrite firstn_all in Hcopy.
    assert (foldM (clone_principal c (Some (n1, 0, length X))) h1 (seq 0 (length X)) = Ok h') as -> by exact Hrun.
    cbn. eexists _, _. split; [done|].
    destruct (Hls h') as [Hls1 Hls2]; [done|cbn in Hn; lia|].
    assert (length D = length X) as Hlen by (by eapply Forall2_length).
    assert (elems (principals_arr h') (Some (n1, 0, length X)) = D) as HD'.
    { unfold elems. rewrite HD. cbn [default from_option]. rewrite drop_0. apply take_ge. lia. }
    split; [|split; [done|]].
    + unfold read_config. cbn [r_value r_listeners r_principals]. rewrite Hls2, HD'. f_equal. fold X.
      clear -Hcopy. induction Hcopy as [|p x D X Hpx _ IH]; [done|]. cbn. f_equal; [by eapply read_copy|done].
    + split; cbn [r_listeners r_principals slice_in]; [done|cbn in Hn; lia|]. rewrite HD'.
      clear -Hcopy. induction Hcopy as [|p x D X Hpx _ IH]; [done|]. constructor; [|done].
      by destruct Hpx as (_ & ? & ? & _).
Qed.

(** C34: [clone] is a deep copy: with the arrays that slices view in a store, and
    whatever views of one array the configuration's slices share, it returns without a
    panic a configuration equal to the original, leaves the original as it is, and no
    later write to the arrays of one of the two changes the other. *)
Theorem clone_independent h c :
  config_in (λ l, l < next h)%nat h c →
  ∃ d h', clone h c = Ok (d, h') ∧ read_config h' d = read_config h c ∧ read_config h' c = read_config h c ∧
    (∀ h2, agree (λ l, next h ≤ l)%nat h' h2 → read_config h2 d = read_config h c) ∧
    (∀ h2, agree (λ l, l < next h)%nat h' h2 → read_config h2 c = read_config h c).
Proof.
  intros Hc. destruct (clone_fresh h c Hc) as (d & h' & Hrun & Hread & Hag & Hin).
  exists d, h'. split; [done|]. split; [done|].
  assert (config_in (λ l, l < next h)%nat h' c) as Hc'.
  { destruct Hc as [C1 C2 C3]. split; [done|done|]. by rewrite (elems_agree _ _ _ _ (ag_principals _ _ _ Hag) C2). }
  split; [by apply (read_config_agree _ _ _ _ Hc)|]. split; intros h2 Hag2.
  - rewrite <- Hread. eapply read_config_agree; [|exact Hag2]. destruct Hin as [D1 D2 D3].
    split; [eapply slice_in_mono; [|exact D1]; cbn; lia|eapply slice_in_mono; [|exact D2]; cbn; lia|].
    eapply Forall_impl; [exact D3|]. intros p [? ?].
    split; (eapply slice_in_mono; [|done]); cbn; lia.
  - rewrite (read_config_agree _ _ _ _ Hc' Hag2). by apply (read_config_agree _ _ _ _ Hc).
Qed.
