(* ===== verification/UrlLib.v ===== *)
(** * URLs and query strings: what the program uses of net/url

    [url.Parse] of a string that starts with "https://", and [url.ParseQuery],
    as Go 1.26 computes them (hosts in brackets must be IPv6 addresses, a host
    outside brackets has at most one colon, and a query string at most 10000
    parameters). *)
From S2P Require Import Prelude Wire GoStrings NetAddr.
#[local] Open Scope Z_scope.

Inductive mode := MPath | MHost | MZone | MQuery.

Definition unreserved (c : byte) : bool :=
  is_upper c || is_lower c || is_digit c || bool_decide (c ∈ lit "-_.~").

(** [shouldEscape(c, encodeHost)] and [shouldEscape(c, encodePath)]. *)
Definition escape_host (c : byte) : bool :=
  negb (unreserved c || bool_decide (c ∈ lit "!$&'()*+,;=:[]<>" ++ [byte_of 34])).
Definition escape_path (c : byte) : bool :=
  negb (unreserved c || bool_decide (c ∈ lit "$&+,/:;=@")).

Definition hex_upper (z : Z) : byte := if z <? 10 then byte_of (48 + z) else byte_of (55 + z).
Definition percent (c : byte) : gostring := [chr "%"; hex_upper (u8 c / 16); hex_upper (u8 c mod 16)].

(** [escape(s, encodePath)] *)
Definition escape_path_string (s : gostring) : gostring :=
  s ≫= λ c, if escape_path c then percent c else [c].

(** An escape [%ab] that the mode allows. *)
Definition escape_allowed (m : mode) (a b : byte) (x y : Z) : bool :=
  match m with
  | MHost => negb ((x <? 8) && negb (bool_decide ([a; b] = lit "25")))
  | MZone => bool_decide ([a; b] = lit "25") || (16 * x + y =? 32) || negb (escape_host (byte_of (16 * x + y)))
  | _ => true
  end.

(** [unescape(s, mode)] *)
Fixpoint unescape (m : mode) (s : gostring) : option gostring :=
  match s with
  | [] => Some []
  | c :: s1 =>
     if decide (c = chr "%") then
       match s1 with
       | a :: b :: s2 =>
          match hex_val a, hex_val b with
          | Some x, Some y =>
             if escape_allowed m a b x y then r ← unescape m s2; Some (byte_of (16 * x + y) :: r) else None
          | _, _ => None
          end
       | _ => None
       end
     else
       match m with
       | MHost | MZone =>
          if (u8 c <? 128) && escape_host c then None else r ← unescape m s1; Some (c :: r)
       | MQuery => r ← unescape m s1; Some ((if decide (c = chr "+") then chr " " else c) :: r)
       | MPath => r ← unescape m s1; Some (c :: r)
       end
  end.

(** ** The parts of a URL *)
Record URL := mkURL {
  u_user : bool;               (* [User != nil] *)
  u_host : gostring;
  u_path : gostring;
  u_rawpath : gostring;
  u_rawquery : gostring;
  u_fragment : gostring
}.

Definition validOptionalPort (p : gostring) : bool :=
  match p with
  | [] => true
  | c :: ds => bool_decide (c = chr ":") && forallb is_digit ds
  end.

(** The position of [%25] in a zone. *)
Fixpoint zone_index (s : gostring) : option nat :=
  match s with
  | [] => None
  | _ :: s' => if has_prefix s (lit "%25") then Some 0%nat else S <$> zone_index s'
  end.

Definition parse_bracketed (host : gostring) (open : nat) : option gostring :=
  close ← last_index_byte host (chr "]");
  let colonPort := drop (S close) host in
  if negb (validOptionalPort colonPort) then None
  else
    port ← unescape MHost colonPort;
    let hostname := take (close - S open) (drop (S open) host) in
    name ← (match zone_index hostname with
            | Some z => h ← unescape MHost (take z hostname); zo ← unescape MZone (drop z hostname); Some (h ++ zo)
            | None => unescape MHost hostname
            end);
    match ParseAddr name with
    | Some _ => if bool_decide (chr ":" ∈ name) then Some (lit "[" ++ name ++ lit "]" ++ port) else None
    | None => None
    end.

(** [parseHost] *)
Definition parse_host (host : gostring) : option gostring :=
  match last_index_byte host (chr "[") with
  | Some open => parse_bracketed host open
  | None =>
     match index_byte host (chr ":") with
     | Some i =>
        if negb (bool_decide (last_index_byte host (chr ":") = Some i))
           || negb (validOptionalPort (drop i host)) then None
        else unescape MHost host
     | None => unescape MHost host
     end
  end.

(** [validUserinfo] and the unescaping of the user and the password. *)
Definition valid_user (s : gostring) : bool :=
  forallb (λ c, is_upper c || is_lower c || is_digit c || bool_decide (c ∈ lit "-._:~!$&'()*+,;=%@")) s
  && bool_decide (is_Some (unescape MPath s)).

(** [parseAuthority]: whether there is user information, and the host.  Bad user
    information is an error; good one makes [User] non-nil, which is all the
    program looks at. *)
Definition parse_authority (a : gostring) : option (bool * gostring) :=
  match last_index_byte a (chr "@") with
  | None => h ← parse_host a; Some (false, h)
  | Some i =>
     h ← parse_host (drop (S i) a);
     if valid_user (take i a) then Some (true, h) else None
  end.

Definition ctl_byte (c : byte) : bool := (u8 c <? 32) || (u8 c =? 127).

Definition count_byte (s : gostring) (c : byte) : nat := length (filter (λ x, x = c) s).

(** [url.Parse("https://" + s)] *)
Definition parse_https (s : gostring) : option URL :=
  let '(s, frag, _) := cut_byte s (chr "#") in
  if existsb ctl_byte s then None
  else
    let '(rest, query) :=
      if has_suffix s (lit "?") && (count_byte s (chr "?") =? 1)%nat then (take (length s - 1) s, [])
      else let '(a, b, _) := cut_byte s (chr "?") in (a, b) in
    let '(authority, path) :=
      match index_byte rest (chr "/") with
      | Some i => (take i rest, drop i rest)
      | None => (rest, [])
      end in
    ' (user, host) ← parse_authority authority;
    p ← unescape MPath path;
    f ← unescape MPath frag;
    Some (mkURL user host p (if decide (escape_path_string p = path) then [] else path) query f).

(** ** Query strings *)
Abbreviation Values := (gmap gostring (list gostring)).

Definition vget (v : Values) (k : gostring) : gostring :=
  match v !! k with Some (x :: _) => x | _ => [] end.

(** The loop of [parseQuery] over the parts around [&]: the map so far and
    whether an error was seen. *)
Definition query_part (st : Values * bool) (part : gostring) : Values * bool :=
  let '(v, ok) := st in
  if contains part (lit ";") then (v, false)
  else if decide (part = []) then (v, ok)
  else
    let '(key, value, _) := cut_byte part (chr "=") in
    match unescape MQuery key with
    | None => (v, false)
    | Some key =>
       match unescape MQuery value with
       | None => (v, false)
       | Some value => (<[key := default [] (v !! key) ++ [value]]> v, ok)
       end
    end.

Definition max_query_params : nat := Z.to_nat 10000.

Definition ParseQuery (query : gostring) : res Values :=
  if bool_decide (count_byte query (chr "&") + 1 ≤ max_query_params)%nat then
    let '(v, ok) := foldl query_part (∅, true) (split_byte query (chr "&")) in
    if ok : bool then Ok v else Err (Errorf "invalid query" [])
  else Err (Errorf "number of URL query parameters exceeded limit" []).

(** [url.Query()]: the parameters that parse, errors ignored. *)
Definition URLQuery (query : gostring) : Values :=
  if bool_decide (count_byte query (chr "&") + 1 ≤ max_query_params)%nat
  then (foldl query_part (∅, true) (split_byte query (chr "&"))).1 else ∅.
