(* ===== verification/Identity.v ===== *)
(** * Tokens and principals (src/iamproxy/identity.go, without the dispatch)

    The service's state is the map of Google tokens; its configuration, clock
    and RSA key do not change.  Time is counted in nanoseconds; a function that
    reads the clock more than once takes the readings in order.  Random bytes
    are an argument. *)
From S2P Require Import Prelude Wire GoStrings NetAddr Sha256 Codec Json Rsa Config.
#[local] Open Scope Z_scope.

Definition googleSQLScope : gostring := lit "https://www.googleapis.com/auth/sqlservice.login".
Definition cloudPlatformScope : gostring := lit "https://www.googleapis.com/auth/cloud-platform".
Definition azureAudience : gostring := lit "https://ossrdbms-aad.database.windows.net".

(** ** Time *)
Definition Second : Z := 1000000000.
Definition Hour : Z := 3600 * Second.
Definition unix (t : Z) : Z := t / Second.

Record googleToken := mkToken { tok_principal : gostring; tok_scope : gostring; tok_expiry : Z }.

Record service := mkService {
  svc_config : Config;
  googleTokens : gmap gostring googleToken;
  azureKey : rsa_key
}.

Definition newService (c : Config) (key : rsa_key) : service := mkService c ∅ key.

Definition principal (s : service) (id : gostring) : option Principal :=
  snd <$> list_find (λ p, ID p = id) (Principals (svc_config s)).

(** [subtle.ConstantTimeCompare(a, b) == 1] *)
Definition checkSecret (a b : gostring) : bool := a =s b.

(** ** Google *)
Definition google_token (b : list byte) : gostring := lit "ya29.mock." ++ b64_encode b.

Definition googleIssue (b : list byte) (now : Z) (p : Principal) (scope : gostring) (s : service)
    : (gostring * Z) * service :=
  let token := google_token b in
  ((token, 3600),
   mkService (svc_config s)
     (<[token := mkToken (ID p) scope (now + Hour)]> (googleTokens s)) (azureKey s)).

(** [strings.Contains(" "+scope+" ", " "+want+" ")] *)
Definition has_scope (scope want : gostring) : bool :=
  contains (lit " " ++ scope ++ lit " ") (lit " " ++ want ++ lit " ").

Section identity.
Context `{GoUnicode}.

Definition validateGoogle (now : Z) (s : service) (l : Listener) (username password : gostring)
    : res Principal :=
  match googleTokens s !! password with
  | None => Err (Errorf "invalid token" [])
  | Some t =>
     _ ← guard_err (negb (now <? tok_expiry t)) (Errorf "invalid token" []);
     _ ← guard_err (negb (has_scope (tok_scope t) googleSQLScope)
                    && negb (has_scope (tok_scope t) cloudPlatformScope)) (Errorf "invalid scope" []);
     match principal s (tok_principal t) with
     | None => Err (Errorf "wrong username" [])
     | Some p =>
        _ ← guard_err (empty (Email p) || negb (username =s googleUsername (Email p) (Engine l)))
              (Errorf "wrong username" []);
        Ok p
     end
  end.
End identity.

(** ** Azure *)
Definition azure_issuer (s : service) (tenant : gostring) : gostring :=
  trim_right (PublicURL (svc_config s)) (chr "/") ++ lit "/" ++ tenant ++ lit "/v2.0".

Definition jwt_header : json :=
  jmap [(lit "alg", JStr (lit "RS256")); (lit "typ", JStr (lit "JWT")); (lit "kid", JStr (lit "mock-1"))].

(** A nil slice marshals as null, a non-nil one as an array; the configuration's
    clone makes an empty list of groups nil. *)
Definition jgroups (l : list gostring) : json :=
  match l with [] => JNull | _ => JArr (JStr <$> l) end.

Definition jwt_claims (s : service) (p : Principal) (tenant audience : gostring) (now life : Z) : json :=
  jmap [(lit "iss", JStr (azure_issuer s tenant)); (lit "aud", JStr audience); (lit "tid", JStr tenant);
        (lit "oid", JStr (ID p)); (lit "upn", JStr (Email p));
        (lit "iat", jint (unix now)); (lit "nbf", jint (unix now)); (lit "exp", jint (unix (now + life)));
        (lit "groups", jgroups (Groups p))].

Definition jwt_part (s : service) (p : Principal) (tenant audience : gostring) (now life : Z) : gostring :=
  b64_encode (Marshal jwt_header) ++ lit "." ++ b64_encode (Marshal (jwt_claims s p tenant audience now life)).

Definition azureIssueForAudience (now : Z) (s : service) (p : Principal) (tenant audience : gostring)
    (life : Z) : gostring :=
  let life := if life <=? 0 then Hour else life in
  let part := jwt_part s p tenant audience now life in
  part ++ lit "." ++ b64_encode (SignPKCS1v15 (azureKey s) (sha256 part)).

Definition azureIssue (now : Z) (s : service) (p : Principal) (tenant : gostring) (life : Z) : gostring :=
  azureIssueForAudience now s p tenant azureAudience life.

(** The structs [validateAzure] decodes, field by field. *)
Definition header_names : list gostring := lit <$> ["alg"; "kid"]%string.
Definition header_zero : list field := [FString []; FString []].
Definition claims_names : list gostring :=
  lit <$> ["iss"; "aud"; "tid"; "oid"; "upn"; "nbf"; "exp"; "groups"]%string.
Definition claims_zero : list field :=
  [FString []; FString []; FString []; FString []; FString []; FInt 0; FInt 0; FStrings [] []].

(** The value of a field of a decoded struct; decoding keeps the field types. *)
Definition string_field (fs : list field) (i : nat) : gostring :=
  match fs !! i with Some (FString s) => s | _ => [] end.
Definition int_field (fs : list field) (i : nat) : Z :=
  match fs !! i with Some (FInt z) => z | _ => 0 end.
Definition strings_field (fs : list field) (i : nat) : list gostring :=
  match fs !! i with Some (FStrings l _) => l | _ => [] end.

Definition claim_iss fs := string_field fs 0.
Definition claim_aud fs := string_field fs 1.
Definition claim_tid fs := string_field fs 2.
Definition claim_oid fs := string_field fs 3.
Definition claim_upn fs := string_field fs 4.
Definition claim_nbf fs := int_field fs 5.
Definition claim_exp fs := int_field fs 6.
Definition claim_groups fs := strings_field fs 7.

Definition b64_err : goerr := Errorf "invalid jwt encoding" [].
Definition claims_err : goerr := Errorf "invalid jwt claims" [].

(** The group check: a group of the principal named by the user and claimed. *)
Definition claimed_group (groups claimed : list gostring) (username : gostring) : bool :=
  existsb (λ g, (g =s username) && existsb (λ cg, cg =s g) claimed) groups.

Definition validateAzure (now1 now2 : Z) (s : service) (l : Listener) (username token : gostring)
    : res Principal :=
  match split_byte token (chr ".") with
  | [p0; p1; p2] =>
     match b64_decode p0, b64_decode p1, b64_decode p2 with
     | Ok hb, Ok cb, Ok sig =>
        match Unmarshal header_names header_zero hb, Unmarshal claims_names claims_zero cb with
        | Some header, Some claims =>
           _ ← guard_err (negb (string_field header 0 =s lit "RS256")
                          || negb (string_field header 1 =s lit "mock-1")) claims_err;
           _ ← guard_err (negb (VerifyPKCS1v15 (azureKey s) (sha256 (p0 ++ lit "." ++ p1)) sig))
                 (Errorf "invalid signature" []);
           _ ← guard_err (negb (claim_iss claims =s azure_issuer s (Tenant l))
                          || negb (claim_aud claims =s azureAudience)
                          || negb (claim_tid claims =s Tenant l)
                          || (unix now1 <? claim_nbf claims) || (claim_exp claims <=? unix now2))
                 claims_err;
           match principal s (claim_oid claims) with
           | None => Err (Errorf "invalid principal" [])
           | Some p =>
              _ ← guard_err (negb (claim_upn claims =s Email p)) (Errorf "invalid principal" []);
              if username =s Email p then Ok p
              else if claimed_group (Groups p) (claim_groups claims) username then Ok p
              else Err (Errorf "wrong username" [])
           end
        | _, _ => Err claims_err
        end
     | _, _, _ => Err b64_err
     end
  | _ => Err (Errorf "invalid jwt" [])
  end.

(** ** The published key *)
(** The big-endian bytes of a positive integer without leading zeros. *)
Definition big_bytes (z : Z) : list byte := be_bytes (Z.to_nat (Z.log2 z / 8 + 1)) z.

Definition AzureJWK (s : service) : json :=
  jmap [(lit "kty", JStr (lit "RSA")); (lit "kid", JStr (lit "mock-1")); (lit "use", JStr (lit "sig"));
        (lit "alg", JStr (lit "RS256")); (lit "n", JStr (b64_encode (big_bytes (rsa_n (azureKey s)))));
        (lit "e", JStr (b64_encode (byte_of <$> [1; 0; 1])))].
