(* ===== verification/IdentitySpec.v ===== *)
(** * Tokens: what is issued is accepted, and what is accepted was issued *)
From S2P Require Import Prelude Wire GoStrings NetAddr Sha256 Codec Json JsonSpec Rsa Config Identity.
#[local] Open Scope Z_scope.

(** ** Lookups *)
Lemma principal_Some s id p :
  principal s id = Some p → p ∈ Principals (svc_config s) ∧ ID p = id.
Proof.
  unfold principal. intros ([i x] & Hf & ->)%fmap_Some.
  apply list_find_Some in Hf as (Hi & Hid & _). split; [|done].
  by eapply list_elem_of_lookup_2.
Qed.

Lemma principal_unique s p :
  NoDup (ID <$> Principals (svc_config s)) → p ∈ Principals (svc_config s) →
  principal s (ID p) = Some p.
Proof.
  intros Hnd [i Hi]%list_elem_of_lookup_1. unfold principal.
  destruct (list_find _ _) as [[j q]|] eqn:Hf.
  - apply list_find_Some in Hf as (Hj & Hid & _). cbn. f_equal.
    assert (i = j) as ->; [|congruence].
    eapply NoDup_lookup; [exact Hnd|by rewrite list_lookup_fmap, Hi|by rewrite list_lookup_fmap, Hj; cbn; f_equal].
  - apply list_find_None in Hf. rewrite Forall_forall in Hf.
    exfalso. eapply (Hf p); [by eapply list_elem_of_lookup_2|done].
Qed.

(** ** Scopes: padding makes [Contains] a test of whole words. *)
Lemma app_sep_split (x : byte) (p t a u : gostring) :
  x ∉ p → p ++ x :: t = a ++ x :: u →
  (a = p ∧ t = u) ∨ ∃ a', a = p ++ x :: a' ∧ t = a' ++ x :: u.
Proof.
  revert a. induction p as [|y p IH]; intros a Hx Heq.
  - destruct a as [|z a]; cbn in Heq; [left; by injection Heq|].
    injection Heq as <- ->. right. by exists a.
  - destruct a as [|z a]; cbn in Heq; injection Heq as -> Heq; [set_solver|].
    destruct (IH a) as [[-> ->]|(a' & -> & ->)]; [set_solver|done|by left|right].
    by exists a'.
Qed.

Lemma padded_word (s w : gostring) :
  chr " " ∉ w →
  contains (lit " " ++ s ++ lit " ") (lit " " ++ w ++ lit " ") = true ↔ w ∈ split_byte s (chr " ").
Proof.
  intros Hw. rewrite contains_spec. change (lit " ") with [chr " "].
  assert ([chr " "] ++ s ++ [chr " "] = chr " " :: terminated (chr " ") (split_byte s (chr " "))) as Hpad.
  { rewrite terminated_join by apply split_byte_not_nil. by rewrite join_split. }
  rewrite Hpad. clear Hpad. pose proof (split_byte_pieces (chr " ") s) as Hps.
  generalize dependent (split_byte s (chr " ")). clear s. intros ps Hps. split.
  - intros (a & b & Heq). revert a Heq. induction Hps as [|p ps Hp Hps IH]; intros a Heq.
    + apply (f_equal length) in Heq. cbn in Heq. rewrite !length_app in Heq. cbn in Heq.
      rewrite !length_app in Heq. cbn in Heq. lia.
    + rewrite terminated_cons in Heq. destruct a as [|c a]; cbn in Heq.
      * injection Heq as Heq. rewrite <- app_assoc in Heq.
        assert (p = w) as ->; [|left].
        assert (Hs : split_byte (p ++ chr " " :: terminated (chr " ") ps) (chr " ") =
                     split_byte (w ++ chr " " :: b) (chr " ")) by (by rewrite Heq).
        rewrite !split_byte_app in Hs by done. by injection Hs.
      * injection Heq as <- Heq. right. rewrite <- !app_assoc in Heq. cbn in Heq.
        destruct (app_sep_split _ _ _ _ _ Hp Heq) as [[-> HT]|(a' & -> & HT)].
        -- apply (IH []). rewrite HT. cbn. by rewrite <- app_assoc.
        -- apply (IH (chr " " :: a')). rewrite HT. cbn. by rewrite <- !app_assoc.
  - intros Hin. apply list_elem_of_split in Hin as (l1 & l2 & ->).
    destruct l1 as [|p l1 _] using rev_ind.
    + exists [], (terminated (chr " ") l2). cbn [app]. rewrite terminated_cons. cbn. by rewrite <- app_assoc.
    + exists (chr " " :: terminated (chr " ") l1 ++ p), (terminated (chr " ") l2).
      rewrite !terminated_app, !terminated_cons. unfold terminated at 2. cbn.
      by rewrite <- !app_assoc.
Qed.

Lemma has_scope_spec (scope want : gostring) :
  chr " " ∉ want → has_scope scope want = true ↔ want ∈ split_byte scope (chr " ").
Proof. apply padded_word. Qed.

(** The scopes that let a Google token log in. *)
Definition sql_scope (scope : gostring) : Prop :=
  googleSQLScope ∈ split_byte scope (chr " ") ∨ cloudPlatformScope ∈ split_byte scope (chr " ").

Lemma scope_refused scope :
  negb (has_scope scope googleSQLScope) && negb (has_scope scope cloudPlatformScope) = false ↔
  sql_scope scope.
Proof.
  unfold sql_scope. rewrite <- !has_scope_spec by compute_done.
  destruct (has_scope scope googleSQLScope), (has_scope scope cloudPlatformScope); cbn;
    intuition congruence.
Qed.

Section google.
Context `{GoUnicode}.

(** What [validateGoogle] accepts: a live token of the map with a scope for the
    database, for a principal with that user name. *)
Definition google_accepted (now : Z) (s : service) (l : Listener) (username password : gostring)
    (p : Principal) : Prop :=
  ∃ t, googleTokens s !! password = Some t ∧ now < tok_expiry t ∧ sql_scope (tok_scope t) ∧
       principal s (tok_principal t) = Some p ∧ Email p ≠ [] ∧
       username = googleUsername (Email p) (Engine l).

Lemma validateGoogle_accepts now s l username password p :
  validateGoogle now s l username password = Ok p ↔ google_accepted now s l username password p.
Proof.
  unfold validateGoogle, google_accepted.
  destruct (googleTokens s !! password) as [t|]; [|split; [done|naive_solver]].
  rewrite !guard_bind_Ok, negb_false_iff, Z.ltb_lt.
  rewrite scope_refused.
  split.
  - intros (Hn & Hs & Hp). destruct (principal s (tok_principal t)) as [q|] eqn:Hq; [|done].
    apply guard_bind_Ok in Hp as [[He Hu]%orb_false_iff [= ->]].
    apply bool_decide_eq_false in He. apply negb_false_iff, bool_decide_eq_true in Hu.
    exists t. by split_and!.
  - intros (? & [= <-] & Hn & Hs & Hp & He & ->). split_and!; [done..|]. rewrite Hp.
    apply guard_bind_Ok. split; [|done]. apply orb_false_iff. split.
    + by apply bool_decide_eq_false.
    + by apply negb_false_iff, bool_decide_eq_true.
Qed.
End google.

Section google_iff.
Context `{GoUnicode}.

(** C11: [validateGoogle] accepts a password exactly when it is a live token of the
    service with one of the two database scopes, issued for a principal of the
    configuration with an e-mail address whose database user name on the listener's
    engine is the user. *)
Theorem validateGoogle_iff now s l username password p :
  validateGoogle now s l username password = Ok p ↔ google_accepted now s l username password p.
Proof. apply validateGoogle_accepts. Qed.
End google_iff.

(** ** Google tokens: histories of issues *)
Record google_issue := mkIssue {
  gi_bytes : list byte; gi_now : Z; gi_principal : Principal; gi_scope : gostring
}.

Definition issue_step (s : service) (i : google_issue) : service :=
  (googleIssue (gi_bytes i) (gi_now i) (gi_principal i) (gi_scope i) s).2.
Definition after_issues (s : service) (l : list google_issue) : service := foldl issue_step s l.

Definition issue_token (i : google_issue) : gostring := google_token (gi_bytes i).
Definition issue_entry (i : google_issue) : googleToken :=
  mkToken (ID (gi_principal i)) (gi_scope i) (gi_now i + Hour).

Lemma google_token_inj b b' : google_token b = google_token b' → b = b'.
Proof.
  intros Heq%(inj (app (lit "ya29.mock."))).
  pose proof (b64_decode_encode b) as Hb. pose proof (b64_decode_encode b') as Hb'. congruence.
Qed.

Lemma after_issues_config s l :
  svc_config (after_issues s l) = svc_config s ∧ azureKey (after_issues s l) = azureKey s.
Proof. revert s. induction l as [|i l IH]; intros s; [done|]. cbn. by rewrite !(proj1 (IH _)), (proj2 (IH _)). Qed.

Lemma after_issues_lookup s l tok :
  googleTokens (after_issues s l) !! tok =
  match last (filter (λ i, issue_token i = tok) l) with
  | Some i => Some (issue_entry i)
  | None => googleTokens s !! tok
  end.
Proof.
  induction l as [|i l IH] using rev_ind; [done|].
  unfold after_issues in *. rewrite foldl_app, filter_app. cbn [foldl].
  unfold issue_step at 1, googleIssue. cbn [snd googleTokens]. rewrite filter_cons, filter_nil.
  destruct (decide (issue_token i = tok)) as [<-|Hne].
  - rewrite lookup_insert_eq. by rewrite last_snoc.
  - rewrite lookup_insert_ne by done. by rewrite app_nil_r, IH.
Qed.

Section google_history.
Context `{GoUnicode}.

(** Only issued tokens are accepted. *)
Lemma google_authentication_was_issued c key l now lst username password p :
  validateGoogle now (after_issues (newService c key) l) lst username password = Ok p →
  ∃ i, i ∈ l ∧ password = google_token (gi_bytes i) ∧ now < gi_now i + Hour ∧
       sql_scope (gi_scope i) ∧ ID (gi_principal i) = ID p ∧ p ∈ Principals c ∧
       username = googleUsername (Email p) (Engine lst).
Proof.
  intros (t & Ht & Hn & Hs & Hp & He & ->)%validateGoogle_accepts.
  rewrite after_issues_lookup in Ht. destruct (last _) as [i|] eqn:Hl.
  - injection Ht as <-. apply last_Some_elem_of, list_elem_of_filter in Hl as [<- Hi].
    apply principal_Some in Hp as [Hp Hid].
    rewrite (proj1 (after_issues_config _ _)) in Hp. exists i. by split_and!.
  - cbn in Ht. by rewrite lookup_empty in Ht.
Qed.

(** A token that [googleIssue] makes for a principal is accepted for its database
    user name for an hour, whatever is issued afterwards with other random bytes. *)
Lemma google_issued_token_accepted s b now p scope rest l now' :
  principal s (ID p) = Some p → Email p ≠ [] → sql_scope scope →
  Forall (λ i, gi_bytes i ≠ b) rest → now' < now + Hour →
  let '((token, expires), s') := googleIssue b now p scope s in
  expires = 3600 ∧
  validateGoogle now' (after_issues s' rest) l (googleUsername (Email p) (Engine l)) token = Ok p.
Proof.
  intros Hp He Hs Hrest Hn. cbn. split; [done|]. apply validateGoogle_accepts.
  exists (mkToken (ID p) scope (now + Hour)). rewrite after_issues_lookup.
  assert (filter (λ i, issue_token i = google_token b) rest = []) as ->.
  { induction Hrest as [|i rest Hi _ IH]; [done|]. rewrite filter_cons, decide_False; [done|].
    intros Heq. by apply Hi, google_token_inj. }
  cbn [last googleTokens]. rewrite lookup_insert_eq. split_and!; try done.
  unfold principal. by rewrite (proj1 (after_issues_config _ _)).
Qed.
End google_history.

(** ** Azure tokens *)
Lemma valid_utf8_ascii s : forallb ascii s = true → valid_utf8 s.
Proof.
  induction s as [|c s IH]; cbn; [constructor|]. intros [Hc Hs]%andb_true_iff.
  apply vu_ascii; auto.
Qed.

(** The texts of a token are valid UTF-8: what [encoding/json] writes as it is. *)
Record claims_text (s : service) (p : Principal) (tenant audience : gostring) : Prop := {
  ct_issuer : valid_utf8 (azure_issuer s tenant);
  ct_tenant : valid_utf8 tenant;
  ct_audience : valid_utf8 audience;
  ct_id : valid_utf8 (ID p);
  ct_email : valid_utf8 (Email p);
  ct_groups : Forall valid_utf8 (Groups p)
}.

Lemma jwt_claims_members s p tenant audience now life :
  jwt_claims s p tenant audience now life =
  JObj [(lit "aud", JStr audience); (lit "exp", jint (unix (now + life)));
        (lit "groups", jgroups (Groups p)); (lit "iat", jint (unix now));
        (lit "iss", JStr (azure_issuer s tenant)); (lit "nbf", jint (unix now));
        (lit "oid", JStr (ID p)); (lit "tid", JStr tenant); (lit "upn", JStr (Email p))].
Proof. reflexivity. Qed.

Lemma jwt_header_members :
  jwt_header = JObj [(lit "alg", JStr (lit "RS256")); (lit "kid", JStr (lit "mock-1"));
                     (lit "typ", JStr (lit "JWT"))].
Proof. reflexivity. Qed.

Lemma clean_jgroups l : Forall valid_utf8 l → clean 1 (jgroups l).
Proof.
  intros Hl. destruct l as [|g l]; [done|]. apply clean_JArr.
  apply Forall_fmap. eapply Forall_impl; [exact Hl|]. done.
Qed.

Lemma clean_claims s p tenant audience now life :
  claims_text s p tenant audience → clean 2 (jwt_claims s p tenant audience now life).
Proof.
  intros [? ? ? ? ? Hg]. rewrite jwt_claims_members. apply clean_JObj.
  repeat (apply Forall_cons; split); [split; [by apply valid_utf8_ascii|]..|by apply Forall_nil];
    cbn [snd]; try done; try (by eexists). by apply clean_jgroups.
Qed.

Lemma Unmarshal_header : Unmarshal header_names header_zero (Marshal jwt_header) =
  Some [FString (lit "RS256"); FString (lit "mock-1")].
Proof. by vm_compute. Qed.

Lemma decode_groups l : decode_field (FStrings [] []) (jgroups l) = Some (FStrings l []).
Proof.
  destruct l as [|g l]; [done|]. unfold jgroups. cbn [decode_field].
  assert (∀ l old, decode_strings old (JStr <$> l) = Some l) as Hd; [|cbn; by rewrite Hd].
  clear. intros l. induction l as [|g l IH]; intros old; [done|]. cbn. by rewrite IH.
Qed.

Definition in_int64 (z : Z) : Prop := - 2 ^ 63 < z < 2 ^ 63.

Lemma decode_int z : in_int64 z → decode_field (FInt 0) (jint z) = Some (FInt z).
Proof. intros Hz. unfold jint. cbn [decode_field]. by rewrite atoi_itoa. Qed.

(** One member into the field of its name. *)
Lemma decode_member names fs k j ms i f f' :
  field_of names k = Some i → fs !! i = Some f → decode_field f j = Some f' →
  decode_members names fs true ((k, j) :: ms) = decode_members names (<[i := f']> fs) true ms.
Proof. cbn [decode_members]. by intros -> -> ->. Qed.

Lemma Unmarshal_claims s p tenant audience now life :
  claims_text s p tenant audience → in_int64 (unix now) → in_int64 (unix (now + life)) →
  Unmarshal claims_names claims_zero (Marshal (jwt_claims s p tenant audience now life)) =
  Some [FString (azure_issuer s tenant); FString audience; FString tenant; FString (ID p);
        FString (Email p); FInt (unix now); FInt (unix (now + life)); FStrings (Groups p) []].
Proof.
  intros Ht Hn He. unfold Unmarshal.
  rewrite (parse_Marshal 2) by (by apply clean_claims || by (unfold max_depth; lia)).
  rewrite jwt_claims_members. unfold claims_zero.
  rewrite (decode_member _ _ _ _ _ 1 (FString []) (FString audience)) by done.
  rewrite (decode_member _ _ _ _ _ 6 (FInt 0) (FInt (unix (now + life)))) by (done || by apply decode_int).
  rewrite (decode_member _ _ _ _ _ 7 (FStrings [] []) (FStrings (Groups p) [])) by (done || apply decode_groups).
  cbn [decode_members]. change (field_of claims_names (lit "iat")) with (@None nat). cbv beta iota.
  change (field_of claims_names (lit "iss")) with (Some 0%nat).
  change (field_of claims_names (lit "nbf")) with (Some 5%nat).
  change (field_of claims_names (lit "oid")) with (Some 3%nat).
  change (field_of claims_names (lit "tid")) with (Some 2%nat).
  change (field_of claims_names (lit "upn")) with (Some 4%nat).
  cbn [list_insert insert lookup list_lookup]. rewrite (decode_int (unix now)) by done. done.
Qed.

Lemma seq_eqb_refl a : (a =s a) = true.
Proof. by apply bool_decide_eq_true. Qed.

(** The three parts of an issued token, decoded. *)
Definition azure_life (life : Z) : Z := if life <=? 0 then Hour else life.

Lemma issued_parts s p tenant audience now life :
  split_byte (azureIssueForAudience now s p tenant audience life) (chr ".") =
    [b64_encode (Marshal jwt_header);
     b64_encode (Marshal (jwt_claims s p tenant audience now (azure_life life)));
     b64_encode (SignPKCS1v15 (azureKey s) (sha256 (jwt_part s p tenant audience now (azure_life life))))].
Proof.
  unfold azureIssueForAudience. fold (azure_life life). cbv zeta. unfold jwt_part at 1.
  change (lit ".") with [chr "."]. rewrite <- !app_assoc. cbn [app].
  rewrite !split_byte_app by apply b64_encode_no_dot.
  by rewrite split_byte_none by apply b64_encode_no_dot.
Qed.

(** What [validateAzure] makes of an issued token. *)
Lemma validate_issued s p tenant audience life l now now1 now2 username :
  valid_key (azureKey s) → claims_text s p tenant audience →
  in_int64 (unix now) → in_int64 (unix (now + azure_life life)) →
  validateAzure now1 now2 s l username (azureIssueForAudience now s p tenant audience life) =
    _ ← guard_err (negb (azure_issuer s tenant =s azure_issuer s (Tenant l))
                   || negb (audience =s azureAudience) || negb (tenant =s Tenant l)
                   || (unix now1 <? unix now) || (unix (now + azure_life life) <=? unix now2)) claims_err;
    match principal s (ID p) with
    | None => Err (Errorf "invalid principal" [])
    | Some q =>
       _ ← guard_err (negb (Email p =s Email q)) (Errorf "invalid principal" []);
       if username =s Email q then Ok q
       else if claimed_group (Groups q) (Groups p) username then Ok q
       else Err (Errorf "wrong username" [])
    end.
Proof.
  intros Hk Ht Hn He. unfold validateAzure. rewrite issued_parts, !b64_decode_encode.
  rewrite Unmarshal_header, Unmarshal_claims by done.
  assert (b64_encode (Marshal jwt_header) ++ lit "." ++
    b64_encode (Marshal (jwt_claims s p tenant audience now (azure_life life)))
    = jwt_part s p tenant audience now (azure_life life)) as -> by done.
  rewrite Verify_Sign by (done || apply length_sha256).
  change (string_field _ 0) with (lit "RS256"). change (string_field _ 1) with (lit "mock-1").
  change (lit "RS256" =s lit "RS256") with true. by change (lit "mock-1" =s lit "mock-1") with true.
Qed.

Lemma claimed_group_refl l g : g ∈ l → claimed_group l l g = true.
Proof.
  intros Hg. unfold claimed_group. apply existsb_exists. exists g.
  split; [by apply list_elem_of_In|]. apply andb_true_iff. split; [by apply bool_decide_eq_true|].
  apply existsb_exists. exists g. split; [by apply list_elem_of_In|by apply bool_decide_eq_true].
Qed.

(** The last test of [validateAzure]. *)
Lemma user_or_group (q p : Principal) claimed username :
  (if username =s Email q then Ok q
   else if claimed_group (Groups q) claimed username then Ok q
   else Err (Errorf "wrong username" [])) = Ok p →
  p = q ∧ (username = Email q ∨ username ∈ Groups q ∧ username ∈ claimed).
Proof.
  destruct (username =s Email q) eqn:Hu.
  { intros [= <-]. apply bool_decide_eq_true in Hu. auto. }
  destruct (claimed_group _ _ _) eqn:Hg; [|done]. intros [= <-]. split; [done|right].
  apply existsb_exists in Hg as (g & Hg1 & Hg2).
  apply andb_true_iff in Hg2 as [Hgu Hg2]. apply bool_decide_eq_true in Hgu as ->.
  apply existsb_exists in Hg2 as (cg & Hc1 & Hc2). apply bool_decide_eq_true in Hc2 as ->.
  split; by apply list_elem_of_In.
Qed.

Lemma azure_issued_accepted s p l life now now1 now2 username :
  valid_key (azureKey s) → claims_text s p (Tenant l) azureAudience →
  principal s (ID p) = Some p →
  in_int64 (unix now) → in_int64 (unix (now + azure_life life)) →
  unix now <= unix now1 → unix now2 < unix (now + azure_life life) →
  username = Email p ∨ username ∈ Groups p →
  validateAzure now1 now2 s l username (azureIssue now s p (Tenant l) life) = Ok p.
Proof.
  intros Hk Ht Hp Hn He H1 H2 Hu. unfold azureIssue. rewrite validate_issued by done.
  rewrite !seq_eqb_refl. cbn [negb orb].
  rewrite (proj2 (Z.ltb_ge _ _)), (proj2 (Z.leb_gt _ _)) by lia. cbn [orb guard_err].
  rewrite Ok_bind, Hp, seq_eqb_refl. cbn [negb guard_err]. rewrite Ok_bind.
  destruct Hu as [->|Hg]; [by rewrite seq_eqb_refl|].
  rewrite claimed_group_refl by done. by destruct (username =s Email p).
Qed.

(** C19: A token that [azureIssue] makes for a principal in the listener's tenant is
    accepted there for the principal's e-mail address and for each of its groups, from
    its issue until its expiry: the JSON, base64 and RSA of both directions agree. *)
Theorem azure_issued_token_accepted s p l life now now1 now2 username :
  valid_key (azureKey s) → claims_text s p (Tenant l) azureAudience →
  principal s (ID p) = Some p →
  in_int64 (unix now) → in_int64 (unix (now + azure_life life)) →
  unix now <= unix now1 → unix now2 < unix (now + azure_life life) →
  username = Email p ∨ username ∈ Groups p →
  validateAzure now1 now2 s l username (azureIssue now s p (Tenant l) life) = Ok p.
Proof. apply azure_issued_accepted. Qed.

Lemma azure_issued_confined s p tenant audience life l now now1 now2 username q :
  valid_key (azureKey s) → claims_text s p tenant audience →
  in_int64 (unix now) → in_int64 (unix (now + azure_life life)) →
  validateAzure now1 now2 s l username (azureIssueForAudience now s p tenant audience life) = Ok q →
  audience = azureAudience ∧ tenant = Tenant l ∧
  unix now <= unix now1 ∧ unix now2 < unix (now + azure_life life) ∧
  principal s (ID p) = Some q ∧ Email q = Email p ∧
  (username = Email p ∨ username ∈ Groups q ∧ username ∈ Groups p).
Proof.
  intros Hk Ht Hn He. rewrite validate_issued by done. rewrite guard_bind_Ok.
  rewrite !orb_false_iff, !negb_false_iff, Z.ltb_ge, Z.leb_gt.
  intros [((((_ & Haud) & Hten) & H1) & H2) Hp].
  apply bool_decide_eq_true in Haud, Hten.
  destruct (principal s (ID p)) as [q'|]; [|done]. apply guard_bind_Ok in Hp as [Hem Hp].
  apply negb_false_iff, bool_decide_eq_true in Hem.
  apply user_or_group in Hp as [-> Hu]. rewrite Hem. split_and!; tauto || congruence.
Qed.

(** C20: A token issued for any audience and tenant is accepted nowhere else: only
    with the database audience, on a listener of its tenant, within its life, for the
    principal it was issued for and its e-mail address or groups. *)
Theorem azure_issued_token_confined s p tenant audience life l now now1 now2 username q :
  valid_key (azureKey s) → claims_text s p tenant audience →
  in_int64 (unix now) → in_int64 (unix (now + azure_life life)) →
  validateAzure now1 now2 s l username (azureIssueForAudience now s p tenant audience life) = Ok q →
  audience = azureAudience ∧ tenant = Tenant l ∧
  unix now <= unix now1 ∧ unix now2 < unix (now + azure_life life) ∧
  principal s (ID p) = Some q ∧ Email q = Email p ∧
  (username = Email p ∨ username ∈ Groups q ∧ username ∈ Groups p).
Proof. apply azure_issued_confined. Qed.

(** What [validateAzure] accepts, as conditions on the token's parts. *)
Definition azure_accepted (now1 now2 : Z) (s : service) (l : Listener) (username token : gostring)
    (p : Principal) : Prop :=
  ∃ p0 p1 p2 hb cb sig header claims,
    split_byte token (chr ".") = [p0; p1; p2] ∧
    b64_decode p0 = Ok hb ∧ b64_decode p1 = Ok cb ∧ b64_decode p2 = Ok sig ∧
    VerifyPKCS1v15 (azureKey s) (sha256 (p0 ++ lit "." ++ p1)) sig = true ∧
    Unmarshal header_names header_zero hb = Some header ∧
    string_field header 0 = lit "RS256" ∧ string_field header 1 = lit "mock-1" ∧
    Unmarshal claims_names claims_zero cb = Some claims ∧
    claim_iss claims = azure_issuer s (Tenant l) ∧ claim_aud claims = azureAudience ∧
    claim_tid claims = Tenant l ∧ principal s (claim_oid claims) = Some p ∧ claim_upn claims = Email p ∧
    claim_nbf claims <= unix now1 ∧ unix now2 < claim_exp claims ∧
    (username = Email p ∨ username ∈ Groups p ∧ username ∈ claim_groups claims).

Lemma validateAzure_accepts s l username token now1 now2 p :
  validateAzure now1 now2 s l username token = Ok p ↔ azure_accepted now1 now2 s l username token p.
Proof.
  unfold validateAzure. split.
  - destruct (split_byte token _) as [|p0 [|p1 [|p2 [|]]]] eqn:Hs; try done.
    destruct (b64_decode p0) as [hb| |] eqn:H0; try done.
    destruct (b64_decode p1) as [cb| |] eqn:H1; try done.
    destruct (b64_decode p2) as [sig| |] eqn:H2; try done.
    destruct (Unmarshal header_names header_zero hb) as [header|] eqn:Hh; [|done].
    destruct (Unmarshal claims_names claims_zero cb) as [claims|] eqn:Hc; [|done].
    rewrite !guard_bind_Ok, !orb_false_iff, !negb_false_iff, Z.ltb_ge, Z.leb_gt.
    intros ([Halg Hkid] & Hv & ((((Hiss & Haud) & Htid) & Hnbf) & Hexp) & Hp).
    apply bool_decide_eq_true in Halg, Hkid, Hiss, Haud, Htid.
    destruct (principal s (claim_oid claims)) as [q|] eqn:Hq; [|done].
    apply guard_bind_Ok in Hp as [Hupn Hp]. apply negb_false_iff, bool_decide_eq_true in Hupn.
    apply user_or_group in Hp as [-> Hu].
    exists p0, p1, p2, hb, cb, sig, header, claims. split_and!; done || lia.
  - intros (p0 & p1 & p2 & hb & cb & sig & header & claims & -> & -> & -> & -> & Hv & -> & Halg & Hkid & ->
      & Hiss & Haud & Htid & Hq & Hupn & Hnbf & Hexp & Hu).
    rewrite !guard_bind_Ok, !orb_false_iff, !negb_false_iff, Z.ltb_ge, Z.leb_gt.
    rewrite Halg, Hkid, Hiss, Haud, Htid, Hq, !seq_eqb_refl. split; [done|]. split; [done|].
    split; [auto|]. rewrite Hupn, seq_eqb_refl. cbn [negb guard_err]. rewrite Ok_bind.
    destruct Hu as [->|[Hg Hc]]; [by rewrite seq_eqb_refl|].
    assert (claimed_group (Groups p) (claim_groups claims) username = true) as ->.
    { apply existsb_exists. exists username. split; [by apply list_elem_of_In|].
      rewrite seq_eqb_refl. cbn [andb]. apply existsb_exists. exists username.
      split; [by apply list_elem_of_In|apply seq_eqb_refl]. }
    by destruct (username =s Email p).
Qed.

(** C10: [validateAzure] accepts a token exactly when it is three base64 parts of
    which the third is the RSA signature of the first two under the service's key, its
    header names the algorithm and the key, and its claims are those of this service's
    issuer for the listener's tenant, the database audience, a current time, and a
    principal whose e-mail is the [upn] claim; the user is that e-mail or a group the
    principal has and the token claims. *)
Theorem validateAzure_iff s l username token now1 now2 p :
  validateAzure now1 now2 s l username token = Ok p ↔ azure_accepted now1 now2 s l username token p.
Proof. apply validateAzure_accepts. Qed.

