(* ===== verification/GoTime.v ===== *)
(** * Times: what the program uses of package time

    [time.Parse] with the layout 20060102T150405Z (which, as the standard library
    has it, accepts a fraction of a second after the seconds) and the Unix time
    of a date, in nanoseconds. *)
From S2P Require Import Prelude Wire GoStrings.
#[local] Open Scope Z_scope.

Definition leap (y : Z) : bool :=
  (y mod 4 =? 0) && (negb (y mod 100 =? 0) || (y mod 400 =? 0)).

Definition days_in (m y : Z) : Z :=
  if m =? 2 then (if leap y then 29 else 28)
  else if (m =? 4) || (m =? 6) || (m =? 9) || (m =? 11) then 30 else 31.

(** Days from the civil epoch 1970-01-01, by years counted from March. *)
Definition days_from_civil (y m d : Z) : Z :=
  let y := if m <=? 2 then y - 1 else y in
  let mp := (m + 9) mod 12 in
  365 * y + y / 4 - y / 100 + y / 400 + (153 * mp + 2) / 5 + d - 1 - 719468.

(** [time.Date(..., UTC)] as nanoseconds of Unix time. *)
Definition date_ns (y mo d h mi s ns : Z) : Z :=
  ((((days_from_civil y mo d * 24 + h) * 60 + mi) * 60) + s) * 1000000000 + ns.

(** [n] digits at the head of the value. *)
Definition take_digits (n : nat) (s : gostring) : option (Z * gostring) :=
  if (n <=? length s)%nat && forallb is_digit (take n s)
  then Some (digits_val (take n s), drop n s) else None.

(** [getnum(value, false)]: one digit will do when no second one follows. *)
Definition one_or_two_digits (s : gostring) : option (Z * gostring) :=
  match take_digits 2 s with
  | Some r => Some r
  | None => take_digits 1 s
  end.

Definition skip_byte (c : byte) (s : gostring) : option gostring :=
  match s with x :: s' => if decide (x = c) then Some s' else None | [] => None end.

(** The digits of a fraction: nanoseconds from at most nine of them. *)
Fixpoint digit_prefix (s : gostring) : gostring * gostring :=
  match s with
  | c :: s' => if is_digit c then let '(d, r) := digit_prefix s' in (c :: d, r) else ([], s)
  | [] => ([], [])
  end.

Definition fraction (s : gostring) : Z * gostring :=
  match s with
  | c :: s' =>
     if decide (c = chr "." ∨ c = chr ",") then
       match digit_prefix s' with
       | ([], _) => (0, s)
       | (ds, r) =>
          let ds := take 9 ds in
          (digits_val ds * 10 ^ (9 - Z.of_nat (length ds)), r)
       end
     else (0, s)
  | [] => (0, [])
  end.

(** [time.Parse("20060102T150405Z", s)] *)
Definition parse_compact (s : gostring) : option Z :=
  ' (y, s) ← take_digits 4 s;
  ' (mo, s) ← take_digits 2 s;
  ' (d, s) ← take_digits 2 s;
  s ← skip_byte (chr "T") s;
  ' (h, s) ← one_or_two_digits s;
  ' (mi, s) ← take_digits 2 s;
  ' (sec, s) ← take_digits 2 s;
  let '(ns, s) := fraction s in
  s ← skip_byte (chr "Z") s;
  if bool_decide (s = []) && (1 <=? mo) && (mo <=? 12) && (h <? 24) && (mi <? 60) && (sec <? 60)
     && (1 <=? d) && (d <=? days_in mo y)
  then Some (date_ns y mo d h mi sec ns) else None.

(** ** Formatting in UTC: [time.RFC3339] and [time.RFC3339Nano] *)

(** The civil date of a day: year, month, day. *)
Definition civil_from_days (days : Z) : Z * Z * Z :=
  let z := days + 719468 in
  let era := z / 146097 in
  let doe := z mod 146097 in
  let yoe := (doe - doe / 1460 + doe / 36524 - doe / 146096) / 365 in
  let doy := doe - (365 * yoe + yoe / 4 - yoe / 100) in
  let mp := (5 * doy + 2) / 153 in
  let d := doy - (153 * mp + 2) / 5 + 1 in
  let m := if mp <? 10 then mp + 3 else mp - 9 in
  (yoe + era * 400 + (if m <=? 2 then 1 else 0), m, d).

(** [appendInt(x, width)] of a number that is not negative. *)
Definition padded (width : nat) (z : Z) : gostring :=
  let ds := itoa z in replicate (width - length ds) (chr "0") ++ ds.

(** The fraction of RFC3339Nano: nine digits without trailing zeros. *)
Definition nano_fraction (ns : Z) : gostring :=
  match trim_right (padded 9 ns) (chr "0") with [] => [] | ds => chr "." :: ds end.

Definition rfc3339_with (fraction : Z → gostring) (t : Z) : gostring :=
  let secs := t / 1000000000 in
  let '(y, m, d) := civil_from_days (secs / 86400) in
  let sod := secs mod 86400 in
  padded 4 y ++ lit "-" ++ padded 2 m ++ lit "-" ++ padded 2 d ++ lit "T" ++
  padded 2 (sod / 3600) ++ lit ":" ++ padded 2 (sod / 60 mod 60) ++ lit ":" ++ padded 2 (sod mod 60) ++
  fraction (t mod 1000000000) ++ lit "Z".

Definition rfc3339 : Z → gostring := rfc3339_with (λ _, []).
Definition rfc3339_nano : Z → gostring := rfc3339_with nano_fraction.
