(* ===== verification/Aws.v ===== *)
(** * AWS tokens (src/iamproxy/aws.go)

    The canonical query, the SigV4 signature and the validation of an RDS IAM
    token, step by step.  [validateAWS] reads the clock twice. *)
From S2P Require Import Prelude Wire GoStrings NetAddr Sha256 Codec UrlLib GoTime Config Identity.
#[local] Open Scope Z_scope.

Definition awsHMAC (key : list byte) (msg : gostring) : list byte := hmac_sha256 key msg.

Definition awsEncode (s : gostring) : gostring :=
  s ≫= λ c, if unreserved c then [c] else percent c.

(** The pairs of one key, and of a map in some order of iteration. *)
Definition aws_pairs (kv : gostring * list gostring) : list gostring :=
  (λ value, awsEncode kv.1 ++ lit "=" ++ awsEncode value) <$> kv.2.
Definition awsQuery_in (order : list (gostring * list gostring)) : gostring :=
  join (sort_strings (order ≫= aws_pairs)) (lit "&").
Definition awsQuery (v : Values) : gostring := awsQuery_in (map_to_list v).

(** The hash of the empty payload, as the code has it. *)
Definition empty_sha256 : gostring :=
  lit "e3b0c44298fc1c149afbf4c8996fb92427ae41e4649b934ca495991b7852b855".

Definition LF : byte := byte_of 10.

Definition aws_canonical (query host : gostring) : gostring :=
  lit "GET" ++ [LF] ++ lit "/" ++ [LF] ++ query ++ [LF] ++ lit "host:" ++ host ++ [LF; LF]
  ++ lit "host" ++ [LF] ++ empty_sha256.

Definition aws_string_to_sign (date scope : gostring) (hash : list byte) : gostring :=
  lit "AWS4-HMAC-SHA256" ++ [LF] ++ date ++ [LF] ++ scope ++ [LF] ++ hex_encode hash.

(** The derived key and the signature, for the credential scope [cred]. *)
Definition aws_signature (secret : gostring) (cred1 cred2 : gostring) (string_to_sign : gostring)
    : list byte :=
  let k := awsHMAC (lit "AWS4" ++ secret) cred1 in
  let k := awsHMAC k cred2 in
  let k := awsHMAC k (lit "rds-db") in
  let k := awsHMAC k (lit "aws4_request") in
  awsHMAC k string_to_sign.

Definition aws_principal (s : service) (key : gostring) : option Principal :=
  snd <$> list_find (λ p, AWSAccessKey p = key) (Principals (svc_config s)).

Definition aws_err (msg : string) : goerr := Errorf msg [].

Definition signatureParam := lit "X-Amz-Signature".

Definition validateAWS (now1 now2 : Z) (s : service) (l : Listener) (username token : gostring)
    : res Principal :=
  _ ← guard_err (contains token (lit "://")) (aws_err "scheme not allowed");
  u ← of_option (aws_err "invalid token URL") (parse_https token);
  _ ← guard_err (u_user u || negb (empty (u_fragment u)) || negb (empty (u_rawpath u))
                 || (negb (u_path u =s lit "/") && negb (empty (u_path u)))) (aws_err "invalid token URL");
  ' (_, port) ← wrap_err (λ _, aws_err "wrong endpoint") (SplitHostPort (Listen l));
  _ ← guard_err (negb (u_host u =s JoinHostPort (Hostname l) port)) (aws_err "wrong endpoint");
  v ← ParseQuery (u_rawquery u);
  _ ← guard_err (existsb (λ kv, negb (length kv.2 =? 1)%nat) (map_to_list v)) (aws_err "duplicate query key");
  _ ← guard_err (negb (vget v (lit "Action") =s lit "connect") || negb (vget v (lit "DBUser") =s username)
                 || negb (vget v (lit "X-Amz-Algorithm") =s lit "AWS4-HMAC-SHA256")
                 || negb (vget v (lit "X-Amz-SignedHeaders") =s lit "host")) (aws_err "invalid query");
  let sig := vget v signatureParam in
  _ ← guard_err (negb (length sig =? 64)%nat) (aws_err "missing signature");
  sigBytes ← hex_decode sig;
  exp ← wrap_err (λ _, aws_err "invalid expiry") (atoi (vget v (lit "X-Amz-Expires")));
  _ ← guard_err ((exp <? 1) || (900 <? exp)) (aws_err "invalid expiry");
  let date := vget v (lit "X-Amz-Date") in
  issued ← of_option (aws_err "expired token") (parse_compact date);
  _ ← guard_err ((now1 <? issued - 300 * Second) || negb (now2 <? issued + exp * Second)) (aws_err "expired token");
  let cred := split_byte (vget v (lit "X-Amz-Credential")) (chr "/") in
  _ ← guard_err (negb (length cred =? 5)%nat) (aws_err "wrong credential scope");
  c0 ← index_go cred 0; c1 ← index_go cred 1; c2 ← index_go cred 2;
  c3 ← index_go cred 3; c4 ← index_go cred 4;
  day ← slice_to date 8;
  _ ← guard_err (negb (c1 =s day) || negb (c2 =s Region l) || negb (c3 =s lit "rds-db")
                 || negb (c4 =s lit "aws4_request")) (aws_err "wrong credential scope");
  p ← of_option (aws_err "unknown credential") (aws_principal s c0);
  _ ← guard_err (empty (AWSSecretKey p) || negb (vget v (lit "X-Amz-Security-Token") =s AWSSessionToken p))
        (aws_err "unknown credential");
  let canonical := aws_canonical (awsQuery (delete signatureParam v)) (u_host u) in
  tail ← slice_from cred 1;
  let scope := join tail (lit "/") in
  let stringToSign := aws_string_to_sign date scope (sha256 canonical) in
  let expected := aws_signature (AWSSecretKey p) c1 c2 stringToSign in
  _ ← guard_err (negb (expected =s sigBytes)) (aws_err "invalid signature");
  Ok p.

(** ** The dispatch (identity.go, [service.Validate]) *)
Section validate.
Context `{GoUnicode}.

Definition svc_Validate (now1 now2 : Z) (s : service) (l : Listener) (username password : gostring)
    : res Principal :=
  let auth_err := Errorf "authentication failed" [] in
  let r :=
    if Provider l =s aws then validateAWS now1 now2 s l username password
    else if Provider l =s google then validateGoogle now1 s l username password
    else if Provider l =s azure then validateAzure now1 now2 s l username password
    else Err (Errorf "unknown provider" []) in
  p ← wrap_err (λ _, auth_err) r;
  _ ← guard_err (negb (Granted p (Name l))) auth_err;
  Ok p.
End validate.
