(* ===== verification/AwsSpec.v ===== *)
(** * AWS tokens: canonical queries, and what is accepted *)
From S2P Require Import Prelude Wire GoStrings NetAddr NetAddrSpec Sha256 Codec UrlLib GoTime Config Identity IdentitySpec Aws.
#[local] Open Scope Z_scope.

(** ** Percent encoding *)
Definition encoded_byte (c : byte) : bool := unreserved c || bool_decide (c = chr "%").

Lemma encode_byte_ok c :
  (λ c, forallb encoded_byte (if unreserved c then [c] else percent c) &&
        (if unreserved c then negb (bool_decide (c = chr "%")) && negb (bool_decide (c = chr "+"))
         else bool_decide (hex_val (hex_upper (u8 c / 16)) = Some (u8 c / 16)) &&
              bool_decide (hex_val (hex_upper (u8 c mod 16)) = Some (u8 c mod 16)))) c = true.
Proof.
  revert c. apply all_bytes_forall. by vm_compute.
Qed.

Lemma awsEncode_cons c s :
  awsEncode (c :: s) = (if unreserved c then [c] else percent c) ++ awsEncode s.
Proof. unfold awsEncode. by rewrite bind_cons. Qed.

Lemma awsEncode_bytes s : forallb encoded_byte (awsEncode s) = true.
Proof.
  induction s as [|c s IH]; [done|]. rewrite awsEncode_cons, forallb_app, IH.
  pose proof (encode_byte_ok c) as H. cbv beta in H. by apply andb_true_iff in H as [-> _].
Qed.

Lemma unescape_awsEncode s : unescape MQuery (awsEncode s) = Some s.
Proof.
  induction s as [|c s IH]; [done|]. rewrite awsEncode_cons.
  pose proof (encode_byte_ok c) as H. cbv beta in H. apply andb_true_iff in H as [_ H].
  destruct (unreserved c).
  - apply andb_true_iff in H as [Hp Hq].
    apply negb_true_iff, bool_decide_eq_false in Hp. apply negb_true_iff, bool_decide_eq_false in Hq.
    cbn [app unescape]. rewrite decide_False by done. rewrite IH. cbn. by rewrite decide_False.
  - apply andb_true_iff in H as [Hx Hy]. apply bool_decide_eq_true in Hx, Hy.
    unfold percent. cbn [app unescape]. rewrite decide_True by done. rewrite Hx, Hy.
    cbn [escape_allowed]. rewrite IH. cbn. do 2 f_equal.
    rewrite <- Z.div_mod by lia. apply byte_of_u8.
Qed.

#[export] Instance awsEncode_inj : Inj (=) (=) awsEncode.
Proof. intros a b Heq. pose proof (unescape_awsEncode a) as Ha. rewrite Heq, unescape_awsEncode in Ha. by injection Ha. Qed.

(** Bytes that never occur in an encoding. *)
Lemma not_in_encoded c s : encoded_byte c = false → forallb encoded_byte s = true → c ∉ s.
Proof.
  intros Hc Hs Hin. rewrite forallb_forall in Hs. specialize (Hs c). rewrite Hs in Hc; [done|].
  by apply list_elem_of_In.
Qed.

Lemma awsEncode_free c s : encoded_byte c = false → c ∉ awsEncode s.
Proof. intros Hc. apply not_in_encoded; [done|apply awsEncode_bytes]. Qed.

(** ** Pairs and queries *)
Definition pair_text (kv : gostring * gostring) : gostring :=
  awsEncode kv.1 ++ lit "=" ++ awsEncode kv.2.

Definition single (kv : gostring * gostring) : gostring * list gostring := (kv.1, [kv.2]).

(** The query of single-valued pairs in the given order, and sorted. *)
Definition query_of (kvs : list (gostring * gostring)) : gostring := join (pair_text <$> kvs) (lit "&").

Lemma pair_text_free c kv : encoded_byte c = false → c ≠ chr "=" → c ∉ pair_text kv.
Proof.
  intros Hc Hne. unfold pair_text. rewrite !elem_of_app. change (lit "=") with [chr "="].
  rewrite list_elem_of_singleton. intros [H|[H|H]]; [|done|]; by apply awsEncode_free in H.
Qed.

Lemma query_part_pair v kv :
  query_part (v, true) (pair_text kv) = (<[kv.1 := default [] (v !! kv.1) ++ [kv.2]]> v, true).
Proof.
  unfold query_part.
  destruct (contains (pair_text kv) (lit ";")) eqn:Hc.
  { change (lit ";") with [chr ";"] in Hc. apply (proj1 (contains_byte _ _)) in Hc.
    exfalso. by apply (pair_text_free (chr ";") kv). }
  rewrite decide_False.
  2:{ unfold pair_text. change (lit "=") with [chr "="]. intros H. by destruct (awsEncode kv.1). }
  unfold pair_text. change (lit "=") with [chr "="]. cbn [app].
  rewrite cut_byte_app by (by apply awsEncode_free). by rewrite !unescape_awsEncode.
Qed.

Lemma foldl_query_parts v kvs :
  NoDup kvs.*1 → (∀ k, k ∈ kvs.*1 → v !! k = None) →
  foldl query_part (v, true) (pair_text <$> kvs) =
    (foldl (λ v kv, <[kv.1 := [kv.2]]> v) v kvs, true).
Proof.
  revert v. induction kvs as [|kv kvs IH]; intros v Hnd Hv; [done|].
  cbn [fmap list_fmap foldl] in *. rewrite query_part_pair.
  apply NoDup_cons in Hnd as [Hn Hnd]. rewrite Hv by (by left). cbn [default app].
  apply IH; [done|]. intros k Hk. rewrite lookup_insert_ne by (intros <-; done).
  apply Hv. by right.
Qed.

Definition values_of (kvs : list (gostring * gostring)) : Values := list_to_map (single <$> kvs).

Lemma foldl_values kvs v :
  NoDup kvs.*1 → (∀ k, k ∈ kvs.*1 → v !! k = None) →
  foldl (λ v kv, <[kv.1 := [kv.2]]> v) v kvs = values_of kvs ∪ v.
Proof.
  revert v. induction kvs as [|kv kvs IH]; intros v Hnd Hv.
  - unfold values_of. cbn. by rewrite map_empty_union.
  - cbn [fmap list_fmap foldl] in *. apply NoDup_cons in Hnd as [Hn Hnd]. rewrite IH; [|done|].
    + unfold values_of. cbn. rewrite <- insert_union_l, <- insert_union_r; [done|].
      apply not_elem_of_list_to_map_1. by rewrite <- list_fmap_compose.
    + intros k Hk. rewrite lookup_insert_ne by (intros <-; done). apply Hv. by right.
Qed.

Lemma count_byte_join (ps : list gostring) :
  Forall (λ w, chr "&" ∉ w) ps → (count_byte (join ps (lit "&")) (chr "&") <= length ps)%nat.
Proof.
  induction 1 as [|w ps Hw Hps IH]; [done|].
  assert (filter (λ x, x = chr "&") w = []) as Hf.
  { clear -Hw. induction w as [|c w IH]; [done|]. rewrite filter_cons, decide_False by set_solver.
    apply IH. set_solver. }
  unfold count_byte in *. destruct ps as [|w' ps]; [cbn; rewrite Hf; cbn; lia|].
  rewrite join_cons_cons. change (lit "&") with [chr "&"] in *. rewrite !filter_app, Hf.
  cbn [length app] in *. rewrite filter_cons, decide_True by done. cbn in *. lia.
Qed.

(** Distinct keys in any order: the parser gives the map back. *)
Lemma ParseQuery_query_of kvs :
  NoDup kvs.*1 → (length kvs < max_query_params)%nat →
  ParseQuery (query_of kvs) = Ok (values_of kvs).
Proof.
  intros Hnd Hlen. unfold ParseQuery, query_of.
  assert (Forall (λ w, chr "&" ∉ w) (pair_text <$> kvs)) as Hps.
  { apply Forall_fmap, Forall_true. intros kv. by apply pair_text_free. }
  pose proof (count_byte_join _ Hps) as Hc. rewrite length_fmap in Hc.
  rewrite bool_decide_true by lia. change (lit "&") with [chr "&"].
  destruct kvs as [|kv kvs]; [done|].
  rewrite split_join by done. rewrite foldl_query_parts by (done || set_solver).
  rewrite foldl_values by (done || set_solver). by rewrite map_union_empty.
Qed.

(** Every key has one value, as [validateAWS] requires. *)
Definition single_valued (v : Values) : Prop := map_Forall (λ _ l, ∃ x, l = [x]) v.

Lemma single_valued_pairs v :
  single_valued v →
  ∃ kvs, single <$> kvs = map_to_list v ∧ NoDup kvs.*1 ∧ length kvs = size v ∧
         (map_to_list v ≫= aws_pairs) = pair_text <$> kvs.
Proof.
  intros Hv. exists ((λ kv, (kv.1, default [] (head kv.2))) <$> map_to_list v).
  assert (∀ k l, (k, l) ∈ map_to_list v → ∃ x, l = [x]) as Hx.
  { intros k l Hin%elem_of_map_to_list. exact (map_Forall_lookup_1 _ _ _ _ Hv Hin). }
  split_and!.
  - rewrite <- list_fmap_compose. rewrite <- (list_fmap_id (map_to_list v)) at 2.
    apply list_fmap_ext. intros i [k l] Hi. apply list_elem_of_lookup_2 in Hi.
    destruct (Hx _ _ Hi) as [x ->]. done.
  - rewrite <- list_fmap_compose. apply NoDup_fst_map_to_list.
  - by rewrite length_fmap, length_map_to_list.
  - clear Hv. induction (map_to_list v) as [|[k l] ls IH]; [done|].
    rewrite bind_cons. cbn [fmap list_fmap]. rewrite IH.
    + destruct (Hx k l) as [x ->]; [by left|]. done.
    + intros k' l' Hin. apply (Hx k'). by right.
Qed.

Lemma awsQuery_sorted_pairs v :
  single_valued v →
  ∃ kvs, awsQuery v = query_of kvs ∧ v = values_of kvs ∧ NoDup kvs.*1 ∧ length kvs = size v.
Proof.
  intros (kvs & Hv & Hnd & Hsz & Hpairs)%single_valued_pairs.
  unfold awsQuery, awsQuery_in. rewrite Hpairs.
  pose proof (sort_strings_Permutation (pair_text <$> kvs)) as Hp.
  apply Permutation_map_inv in Hp as (kvs' & -> & Hp).
  exists kvs'. split_and!; [done| |by rewrite <- Hp|by rewrite <- Hp].
  unfold values_of. rewrite <- (list_to_map_to_list v), <- Hv.
  apply list_to_map_proper; [|by rewrite Hp].
  rewrite Hv. apply NoDup_fst_map_to_list.
Qed.

(** The canonical query, and so every signature, is the same in whatever order Go
    iterates the map of parameters. *)
Lemma awsQuery_order v order :
  order ≡ₚ map_to_list v → awsQuery_in order = awsQuery v.
Proof.
  intros Hp. unfold awsQuery, awsQuery_in. f_equal. apply sort_strings_perm. by rewrite Hp.
Qed.

(** The canonical query of single-valued parameters is parsed back to the same
    parameters: percent encoding is inverted and no separator appears in a name or a
    value. *)
Lemma ParseQuery_awsQuery v :
  single_valued v → (size v < max_query_params)%nat → ParseQuery (awsQuery v) = Ok v.
Proof.
  intros (kvs & -> & -> & Hnd & <-)%awsQuery_sorted_pairs Hlen. by apply ParseQuery_query_of.
Qed.

(** ** Acceptance *)
Definition credential_scope (day region : gostring) : gostring :=
  join [day; region; lit "rds-db"; lit "aws4_request"] (lit "/").

(** What a token signs, for a listener's endpoint. *)
Definition signature_for (secret date region host : gostring) (v : Values) : list byte :=
  let day := take 8 date in
  aws_signature secret day region
    (aws_string_to_sign date (credential_scope day region)
      (sha256 (aws_canonical (awsQuery v) host))).

Definition endpoint (l : Listener) (host : gostring) : Prop :=
  ∃ h port, SplitHostPort (Listen l) = Ok (h, port) ∧ host = JoinHostPort (Hostname l) port.

(** The shape of the token's URL. *)
Definition token_url (token host query : gostring) : Prop :=
  contains token (lit "://") = false ∧
  ∃ u, parse_https token = Some u ∧ u_user u = false ∧ u_fragment u = [] ∧ u_rawpath u = [] ∧
       (u_path u = lit "/" ∨ u_path u = []) ∧ u_host u = host ∧ u_rawquery u = query.

Definition aws_parameters (v : Values) (username : gostring) : Prop :=
  vget v (lit "Action") = lit "connect" ∧ vget v (lit "DBUser") = username ∧
  vget v (lit "X-Amz-Algorithm") = lit "AWS4-HMAC-SHA256" ∧ vget v (lit "X-Amz-SignedHeaders") = lit "host".

Definition aws_window (v : Values) (now1 now2 : Z) : Prop :=
  ∃ exp issued, atoi (vget v (lit "X-Amz-Expires")) = Ok exp ∧ 1 <= exp <= 900 ∧
    parse_compact (vget v (lit "X-Amz-Date")) = Some issued ∧
    issued - 300 * Second <= now1 ∧ now2 < issued + exp * Second.

Definition aws_credential (s : service) (v : Values) (l : Listener) (p : Principal) : Prop :=
  ∃ key, split_byte (vget v (lit "X-Amz-Credential")) (chr "/") =
      [key; take 8 (vget v (lit "X-Amz-Date")); Region l; lit "rds-db"; lit "aws4_request"] ∧
    aws_principal s key = Some p ∧ AWSSecretKey p ≠ [] ∧
    vget v (lit "X-Amz-Security-Token") = AWSSessionToken p.

Definition aws_accepted (now1 now2 : Z) (s : service) (l : Listener) (username token : gostring)
    (p : Principal) : Prop :=
  ∃ host query v sig,
    token_url token host query ∧ endpoint l host ∧ ParseQuery query = Ok v ∧ single_valued v ∧
    aws_parameters v username ∧
    length (vget v signatureParam) = 64%nat ∧ hex_decode (vget v signatureParam) = Ok sig ∧
    aws_window v now1 now2 ∧ aws_credential s v l p ∧
    sig = signature_for (AWSSecretKey p) (vget v (lit "X-Amz-Date")) (Region l) host
            (delete signatureParam v).

Lemma take_digits_length n s z r : take_digits n s = Some (z, r) → length s = (n + length r)%nat.
Proof.
  unfold take_digits. destruct (n <=? length s)%nat eqn:H; [|done]. apply Nat.leb_le in H.
  destruct (forallb _ _); [|done]. intros [= _ <-]. rewrite length_drop. lia.
Qed.

Lemma parse_compact_length s t : parse_compact s = Some t → (8 <= length s)%nat.
Proof.
  unfold parse_compact. intros ([y s1] & H1 & H)%bind_Some.
  apply bind_Some in H as ([mo s2] & H2 & H). apply bind_Some in H as ([d s3] & H3 & _).
  apply take_digits_length in H1, H2, H3. lia.
Qed.

Lemma not_single_valued v :
  existsb (λ kv : gostring * list gostring, negb (length kv.2 =? 1)%nat) (map_to_list v) = false ↔
  single_valued v.
Proof.
  unfold single_valued. split.
  - intros Hn k l Hl. destruct (length l =? 1)%nat eqn:E.
    + apply Nat.eqb_eq in E. destruct l as [|x [|]]; [done|eauto|done].
    + assert (existsb (λ kv : gostring * list gostring, negb (length kv.2 =? 1)%nat) (map_to_list v) = true) as Ht;
        [|congruence].
      apply existsb_exists. exists (k, l). split; [|cbn; by rewrite E].
      by apply list_elem_of_In, elem_of_map_to_list.
  - intros Hv. apply not_true_is_false. intros ([k l] & Hin & Hl)%existsb_exists.
    apply list_elem_of_In, elem_of_map_to_list in Hin.
    destruct (map_Forall_lookup_1 _ _ _ _ Hv Hin) as [x ->]. done.
Qed.

(** The conditions on the URL. *)
Lemma url_ok u :
  u_user u || negb (empty (u_fragment u)) || negb (empty (u_rawpath u))
    || (negb (u_path u =s lit "/") && negb (empty (u_path u))) = false ↔
  u_user u = false ∧ u_fragment u = [] ∧ u_rawpath u = [] ∧ (u_path u = lit "/" ∨ u_path u = []).
Proof.
  unfold seq_eqb, empty. rewrite !orb_false_iff, !negb_false_iff, andb_false_iff, !negb_false_iff.
  rewrite !bool_decide_eq_true. tauto.
Qed.

Lemma negb_seq_eqb a b : negb (a =s b) = false ↔ a = b.
Proof. unfold seq_eqb. by rewrite negb_false_iff, bool_decide_eq_true. Qed.

Lemma length5 {A} (l : list A) :
  length l = 5%nat → ∃ a b c d e, l = [a; b; c; d; e].
Proof. do 6 (destruct l as [|? l]; try done). intros _. by do 5 eexists. Qed.

Lemma validateAWS_sound now1 now2 s l username token p :
  validateAWS now1 now2 s l username token = Ok p → aws_accepted now1 now2 s l username token p.
Proof.
  unfold validateAWS.
  rewrite guard_bind_Ok. intros [Hsch H].
  apply bind_Ok in H as (u & Hu & H). apply of_option_Ok in Hu.
  rewrite guard_bind_Ok, url_ok in H. destruct H as [(Hus & Hfr & Hrp & Hpa) H].
  apply bind_Ok in H as ([h port] & Hsp & H). apply wrap_err_Ok in Hsp.
  rewrite guard_bind_Ok, negb_seq_eqb in H. destruct H as [Hhost H].
  apply bind_Ok in H as (v & Hv & H).
  rewrite guard_bind_Ok, not_single_valued in H. destruct H as [Hsv H].
  rewrite guard_bind_Ok, !orb_false_iff, !negb_seq_eqb in H. destruct H as [(((Ha & Hu') & Hal) & Hsh) H].
  rewrite guard_bind_Ok, negb_false_iff, Nat.eqb_eq in H. destruct H as [Hl64 H].
  apply bind_Ok in H as (sig & Hsig & H).
  apply bind_Ok in H as (exp & Hexp & H). apply wrap_err_Ok in Hexp.
  rewrite guard_bind_Ok, orb_false_iff, !Z.ltb_ge in H. destruct H as [[He1 He2] H].
  apply bind_Ok in H as (issued & Hiss & H). apply of_option_Ok in Hiss.
  rewrite guard_bind_Ok, orb_false_iff, negb_false_iff, Z.ltb_ge, Z.ltb_lt in H. destruct H as [[Hn1 Hn2] H].
  rewrite guard_bind_Ok, negb_false_iff, Nat.eqb_eq in H. destruct H as [H5 H].
  destruct (length5 _ H5) as (c0 & c1 & c2 & c3 & c4 & Hcred). rewrite Hcred in H.
  cbn [index_go lookup list_lookup] in H. rewrite !Ok_bind in H.
  apply bind_Ok in H as (day & Hday & H). apply slice_to_Ok in Hday as [_ ->].
  rewrite guard_bind_Ok, !orb_false_iff, !negb_seq_eqb in H. destruct H as [(((-> & ->) & ->) & ->) H].
  apply bind_Ok in H as (q & Hq & H). apply of_option_Ok in Hq.
  rewrite guard_bind_Ok, orb_false_iff, negb_seq_eqb in H. destruct H as [[Hsec Hst] H].
  apply bool_decide_eq_false in Hsec.
  rewrite slice_from_ok in H by (cbn; lia). rewrite Ok_bind in H. cbn [drop] in H.
  rewrite guard_bind_Ok, negb_seq_eqb in H. destruct H as [Hs [= <-]].
  exists (u_host u), (u_rawquery u), v, sig.
  split; [split; [done|]; exists u; by split_and!|]. split; [by exists h, port|].
  split; [done|]. split; [done|]. split; [done|]. split; [done|]. split; [done|].
  split; [by exists exp, issued|]. split; [exists c0; by split_and!|]. by rewrite <- Hs.
Qed.

Lemma validateAWS_complete now1 now2 s l username token p :
  aws_accepted now1 now2 s l username token p → validateAWS now1 now2 s l username token = Ok p.
Proof.
  unfold validateAWS. intros (host & query & v & sig & (Hsch & u & Hu & Hus & Hfr & Hrp & Hpa & <- & <-) & (h & port & Hsp & Hhost)
      & Hv & Hsv & (Ha & Hu' & Hal & Hsh) & Hl64 & Hsig & (exp & issued & Hexp & [He1 He2] & Hiss & Hn1 & Hn2)
      & (key & Hcred & Hq & Hsec & Hst) & Hs).
  rewrite Hsch, Hu. cbn [guard_err of_option]. rewrite !Ok_bind.
  rewrite guard_bind_Ok, url_ok. split; [auto|]. rewrite Hsp. cbn [wrap_err]. rewrite Ok_bind. cbv beta iota.
  rewrite guard_bind_Ok, negb_seq_eqb. split; [done|]. rewrite Hv, Ok_bind.
  rewrite guard_bind_Ok, not_single_valued. split; [done|].
  rewrite guard_bind_Ok, !orb_false_iff, !negb_seq_eqb. split; [auto|].
  rewrite guard_bind_Ok, negb_false_iff, Nat.eqb_eq. split; [done|]. rewrite Hsig, Ok_bind.
  rewrite Hexp. cbn [wrap_err]. rewrite Ok_bind.
  rewrite guard_bind_Ok, orb_false_iff, !Z.ltb_ge. split; [auto|]. rewrite Hiss. cbn [of_option]. rewrite Ok_bind.
  rewrite guard_bind_Ok, orb_false_iff, negb_false_iff, Z.ltb_ge, Z.ltb_lt. split; [auto|].
  rewrite Hcred. cbn [length Nat.eqb negb guard_err index_go lookup list_lookup]. rewrite !Ok_bind.
  rewrite slice_to_ok by (by eapply parse_compact_length). rewrite Ok_bind.
  rewrite guard_bind_Ok, !orb_false_iff, !negb_seq_eqb. split; [auto|]. rewrite Hq. cbn [of_option]. rewrite Ok_bind.
  rewrite guard_bind_Ok, orb_false_iff, negb_seq_eqb. split; [split; [by apply bool_decide_eq_false|done]|].
  rewrite slice_from_ok by (cbn; lia). rewrite Ok_bind. cbn [drop].
  rewrite guard_bind_Ok, negb_seq_eqb. split; [by rewrite Hs|done].
Qed.

Lemma validateAWS_spec now1 now2 s l username token p :
  validateAWS now1 now2 s l username token = Ok p ↔ aws_accepted now1 now2 s l username token p.
Proof. split; [apply validateAWS_sound|apply validateAWS_complete]. Qed.

(** C9: [validateAWS] accepts a token exactly when it is the URL of the listener's
    endpoint with single-valued parameters for the user, inside its window of
    validity, with the credential scope of the day and the listener's region, an
    access key of a principal with a secret key and that principal's session token,
    and with the SigV4 signature of all other parameters under that secret key. *)
Theorem validateAWS_iff now1 now2 s l username token p :
  validateAWS now1 now2 s l username token = Ok p ↔ aws_accepted now1 now2 s l username token p.
Proof. apply validateAWS_spec. Qed.

(** ** Tokens as the SDK builds them *)
Definition sdk_token (host path query : gostring) (sig : list byte) : gostring :=
  host ++ path ++ lit "?" ++ query ++ lit "&X-Amz-Signature=" ++ hex_encode sig.

(** A host name of unreserved characters, and a port of digits. *)
Definition plain_host (name : gostring) : Prop := forallb unreserved name = true.
Definition plain_port (port : gostring) : Prop := forallb is_digit port = true.

Lemma unreserved_not c x : unreserved c = true → unreserved x = false → c ≠ x.
Proof. intros Hc Hx ->. congruence. Qed.

Lemma plain_free x s : unreserved x = false → forallb unreserved s = true → x ∉ s.
Proof.
  intros Hx Hs Hin. rewrite forallb_forall in Hs. apply list_elem_of_In in Hin.
  specialize (Hs _ Hin). congruence.
Qed.

Lemma port_unreserved port : plain_port port → forallb unreserved port = true.
Proof.
  unfold plain_port. rewrite !forallb_forall. intros Hp c Hc. unfold unreserved.
  rewrite (Hp c Hc). by rewrite !orb_true_r.
Qed.

(** Bytes a token is made of after its host. *)
Definition query_byte (c : byte) : bool := encoded_byte c || bool_decide (c = chr "&" ∨ c = chr "=").

Lemma query_byte_plain c : query_byte c = true → ctl_byte c = false ∧ c ≠ chr "#" ∧ c ≠ chr "?" ∧ c ≠ chr ":" ∧ c ≠ chr "/".
Proof.
  intros Hc.
  assert ((λ c, negb (query_byte c) || (negb (ctl_byte c) && negb (bool_decide (c = chr "#"))
    && negb (bool_decide (c = chr "?")) && negb (bool_decide (c = chr ":")) && negb (bool_decide (c = chr "/")))) c = true) as H.
  { revert c Hc. intros c _. revert c. apply all_bytes_forall. by vm_compute. }
  cbv beta in H. rewrite Hc in H. cbn in H.
  rewrite !andb_true_iff, !negb_true_iff, !bool_decide_eq_false in H. tauto.
Qed.

Lemma encoded_query_byte s : forallb encoded_byte s = true → forallb query_byte s = true.
Proof. rewrite !forallb_forall. intros Hs c Hc. unfold query_byte. by rewrite (Hs c Hc). Qed.

Lemma forallb_join P (ws : list gostring) sep :
  Forall (λ w, forallb P w = true) ws → forallb P sep = true → forallb P (join ws sep) = true.
Proof.
  intros Hws Hs. induction Hws as [|w ws Hw Hws IH]; [done|]. destruct ws as [|w' ws]; [done|].
  rewrite join_cons_cons, !forallb_app. by rewrite Hw, Hs, IH.
Qed.

Lemma query_of_bytes kvs : forallb query_byte (query_of kvs) = true.
Proof.
  apply forallb_join; [|done]. apply Forall_fmap, Forall_true. intros kv. unfold pair_text.
  cbn. rewrite !forallb_app. by rewrite !(encoded_query_byte _ (awsEncode_bytes _)).
Qed.

Lemma unescape_host_plain s :
  forallb (λ c, unreserved c || bool_decide (c = chr ":")) s = true → unescape MHost s = Some s.
Proof.
  induction s as [|c s IH]; [done|]. cbn [forallb unescape]. intros [Hc Hs]%andb_true_iff.
  assert (c ≠ chr "%") as Hne by (intros ->; discriminate Hc).
  rewrite decide_False by done. rewrite (IH Hs).
  assert (escape_host c = false) as ->.
  { unfold escape_host. apply orb_true_iff in Hc as [->|Hc]; [done|].
    apply bool_decide_eq_true in Hc as ->. done. }
  by rewrite andb_false_r.
Qed.

Lemma parse_host_plain name port :
  plain_host name → plain_port port → parse_host (name ++ chr ":" :: port) = Some (name ++ chr ":" :: port).
Proof.
  intros Hn Hp. pose proof (port_unreserved _ Hp) as Hpu. unfold parse_host.
  assert (chr "[" ∉ name ++ chr ":" :: port) as Hb.
  { rewrite elem_of_app, elem_of_cons. intros [H|[H|H]]; [|done|];
      (eapply plain_free; [| |exact H]; done). }
  rewrite (proj2 (last_index_byte_None _ _) Hb).
  rewrite index_byte_app by (by apply plain_free).
  rewrite last_index_byte_app by (by apply plain_free).
  rewrite bool_decide_true by done. rewrite drop_app_length. cbn [validOptionalPort].
  rewrite bool_decide_true by done. unfold plain_port in Hp. rewrite Hp. cbn [negb orb andb].
  apply unescape_host_plain. rewrite forallb_app. cbn.
  apply andb_true_iff. split; [|apply andb_true_iff; split; [done|]].
  - unfold plain_host in Hn. rewrite !forallb_forall in *. intros c Hc. by rewrite (Hn c Hc).
  - rewrite !forallb_forall in *. intros c Hc. by rewrite (Hpu c Hc).
Qed.

Lemma unreserved_query s : forallb unreserved s = true → forallb query_byte s = true.
Proof. rewrite !forallb_forall. intros Hs c Hc. unfold query_byte, encoded_byte. by rewrite (Hs c Hc). Qed.

Lemma query_free x s : query_byte x = false → forallb query_byte s = true → x ∉ s.
Proof.
  intros Hx Hs Hin. rewrite forallb_forall in Hs. apply list_elem_of_In in Hin.
  specialize (Hs _ Hin). congruence.
Qed.

Lemma no_ctl s : forallb query_byte s = true → existsb ctl_byte s = false.
Proof.
  intros Hs. apply not_true_is_false. intros (c & Hin & Hc)%existsb_exists.
  rewrite forallb_forall in Hs. destruct (query_byte_plain c (Hs c Hin)). congruence.
Qed.

Lemma has_suffix_not (s : gostring) (x : byte) q : x ∉ q → q ≠ [] → has_suffix (s ++ q) [x] = false.
Proof.
  intros Hx Hq. apply bool_decide_eq_false. intros [r Hr].
  destruct q as [|c q _] using rev_ind; [done|]. rewrite app_assoc in Hr.
  apply app_inj_tail in Hr as [_ ->]. set_solver.
Qed.

Lemma parse_https_plain name port path query :
  plain_host name → plain_port port → path = [] ∨ path = lit "/" →
  forallb query_byte query = true → query ≠ [] →
  parse_https ((name ++ chr ":" :: port) ++ path ++ lit "?" ++ query) =
    Some (mkURL false (name ++ chr ":" :: port) path [] query []).
Proof.
  intros Hn Hp Hpath Hq Hne. set (host := name ++ chr ":" :: port).
  pose proof (port_unreserved _ Hp) as Hpu.
  assert (∀ x, unreserved x = false → x ≠ chr ":" → x ∉ host) as Hhost.
  { intros x Hx Hc. subst host. rewrite elem_of_app, elem_of_cons.
    intros [H|[H|H]]; [|done|]; (eapply plain_free; [| |exact H]; done). }
  assert (existsb ctl_byte (host ++ path ++ lit "?" ++ query) = false) as Hctl.
  { subst host. rewrite !existsb_app, (no_ctl query), (no_ctl name) by (done || by apply unreserved_query).
    cbn [existsb]. rewrite (no_ctl port) by (by apply unreserved_query).
    by destruct Hpath as [-> | ->]. }
  assert (∀ x, unreserved x = false → x ≠ chr ":" → x ≠ chr "/" → x ≠ chr "?" → query_byte x = false →
    x ∉ host ++ path ++ lit "?" ++ query) as Hall.
  { intros x H1 H2 H3 H4 H5. change (lit "?") with [chr "?"].
    rewrite !elem_of_app, list_elem_of_singleton. intros [H|[H|[H|H]]]; [|..|done|].
    - by apply (Hhost x).
    - destruct Hpath as [-> | ->]; [by apply elem_of_nil in H|].
      change (lit "/") with [chr "/"] in H. by apply list_elem_of_singleton in H.
    - by apply (query_free x query). }
  unfold parse_https. rewrite cut_byte_none by (apply Hall; done). rewrite Hctl.
  change (lit "?") with [chr "?"] in *.
  rewrite (app_assoc path), (app_assoc host), has_suffix_not by (done || by apply query_free).
  cbn [andb]. rewrite <- (app_assoc host), <- (app_assoc path). cbn [app].
  rewrite (app_assoc host), cut_byte_app.
  2:{ rewrite elem_of_app. intros [H|H]; [by apply (Hhost (chr "?"))|].
      destruct Hpath as [-> | ->]; [by apply elem_of_nil in H|].
      change (lit "/") with [chr "/"] in H. by apply list_elem_of_singleton in H. }
  assert ((match index_byte (host ++ path) (chr "/") with
     | Some i => (take i (host ++ path), drop i (host ++ path))
     | None => (host ++ path, [])
     end) = (host, path)) as ->.
  { destruct Hpath as [-> | ->].
    - rewrite app_nil_r, (proj2 (index_byte_None host _)) by (by apply Hhost). done.
    - change (lit "/") with [chr "/"]. rewrite index_byte_app by (by apply Hhost).
      by rewrite take_app_length, drop_app_length. }
  unfold parse_authority. rewrite (proj2 (last_index_byte_None host _)) by (by apply Hhost).
  subst host. rewrite parse_host_plain by done. cbn [mbind option_bind].
  by destruct Hpath as [-> | ->].
Qed.

(** The hexadecimal signature encodes to itself, so it is a pair like the rest. *)
Lemma awsEncode_unreserved s : forallb unreserved s = true → awsEncode s = s.
Proof.
  induction s as [|c s IH]; [done|]. cbn [forallb]. intros [Hc Hs]%andb_true_iff.
  rewrite awsEncode_cons, Hc, IH by done. done.
Qed.

Lemma hex_encode_unreserved bs : forallb unreserved (hex_encode bs) = true.
Proof.
  induction bs as [|c bs IH]; [done|]. unfold hex_encode in *. rewrite bind_cons, forallb_app, IH.
  assert ((λ c, forallb unreserved [hex_lower (u8 c / 16); hex_lower (u8 c mod 16)]) c = true) as H.
  { revert c. apply all_bytes_forall. by vm_compute. }
  cbv beta in H. by rewrite H.
Qed.

Definition signed_pairs (kvs : list (gostring * gostring)) (sig : list byte) :=
  kvs ++ [(signatureParam, hex_encode sig)].

Lemma signed_query kvs sig :
  kvs ≠ [] →
  query_of kvs ++ lit "&X-Amz-Signature=" ++ hex_encode sig = query_of (signed_pairs kvs sig).
Proof.
  intros Hne. unfold query_of, signed_pairs. rewrite fmap_app. cbn [fmap list_fmap].
  rewrite join_snoc by (by destruct kvs).
  assert (pair_text (signatureParam, hex_encode sig) = lit "X-Amz-Signature=" ++ hex_encode sig) as ->; [|done].
  unfold pair_text. cbn [fst snd]. rewrite (awsEncode_unreserved (hex_encode sig)) by apply hex_encode_unreserved.
  done.
Qed.

Lemma values_of_signed kvs sig :
  NoDup kvs.*1 → signatureParam ∉ kvs.*1 →
  values_of (signed_pairs kvs sig) = <[signatureParam := [hex_encode sig]]> (values_of kvs).
Proof.
  intros Hnd Hn. unfold values_of, signed_pairs. rewrite fmap_app. cbn [fmap list_fmap].
  rewrite (list_to_map_proper _ (single (signatureParam, hex_encode sig) :: (single <$> kvs))); [done| |].
  - rewrite fmap_app, <- list_fmap_compose. cbn. apply NoDup_app. split_and!; [done| |].
    + intros k Hk. by intros ->%list_elem_of_singleton.
    + apply NoDup_singleton.
  - by rewrite Permutation_app_comm.
Qed.

Lemma vget_insert_ne v k k' l : k ≠ k' → vget (<[k' := l]> v) k = vget v k.
Proof. intros Hne. unfold vget. by rewrite lookup_insert_ne. Qed.

(** No scheme separator in such a token. *)
Lemma no_scheme name port path query :
  plain_host name → plain_port port → path = [] ∨ path = lit "/" →
  forallb query_byte query = true →
  contains ((name ++ chr ":" :: port) ++ path ++ lit "?" ++ query) (lit "://") = false.
Proof.
  intros Hn Hp Hpath Hq. apply not_true_is_false. rewrite contains_spec. intros (a & b & Heq).
  change (lit "://") with (chr ":" :: lit "//") in Heq. change (lit "?") with [chr "?"] in Heq.
  rewrite <- app_assoc in Heq. cbn [app] in Heq.
  assert (chr ":" ∉ name) as Hcn by (by apply plain_free).
  assert (chr ":" ∉ port ++ path ++ chr "?" :: query) as Hcr.
  { rewrite !elem_of_app, elem_of_cons. intros [H|[H|[H|H]]]; [| |done|].
    - apply port_unreserved in Hp. by eapply plain_free; [|exact Hp|exact H].
    - destruct Hpath as [-> | ->]; [by apply elem_of_nil in H|].
      change (lit "/") with [chr "/"] in H. by apply list_elem_of_singleton in H.
    - by apply (query_free (chr ":") query). }
  destruct (app_sep_split _ _ _ _ _ Hcn Heq) as [[_ HT]|(a' & _ & HT)].
  - destruct port as [|d port]; cbn in HT.
    + destruct Hpath as [-> | ->]; discriminate HT.
    + injection HT as -> _. discriminate Hp.
  - apply Hcr. rewrite HT, elem_of_app, elem_of_cons. auto.
Qed.

(** The token is a URL of the endpoint, and its query parses to the parameters
    with the signature. *)
Lemma sdk_token_url l port path v kvs sig :
  plain_host (Hostname l) → plain_port port → path = [] ∨ path = lit "/" → kvs ≠ [] → awsQuery v = query_of kvs →
  let host := JoinHostPort (Hostname l) port in
  token_url (sdk_token host path (awsQuery v) sig) host (query_of (signed_pairs kvs sig)).
Proof.
  intros Hn Hp Hpath Hne Hq host.
  assert (host = Hostname l ++ chr ":" :: port) as Hjoin.
  { unfold host, JoinHostPort. by rewrite (proj2 (index_byte_None _ _)) by (by apply plain_free). }
  assert (sdk_token host path (awsQuery v) sig =
    (Hostname l ++ chr ":" :: port) ++ path ++ lit "?" ++ query_of (signed_pairs kvs sig)) as Htok.
  { unfold sdk_token. rewrite Hq, signed_query, Hjoin by done. done. }
  split; [rewrite Htok; by apply no_scheme, query_of_bytes|].
  eexists. rewrite Htok, parse_https_plain; [split_and!; try done..| | | | |]; try done.
  - by destruct Hpath as [-> | ->]; [right|left].
  - apply query_of_bytes.
  - rewrite <- signed_query by done. change (lit "&X-Amz-Signature=") with (chr "&" :: lit "X-Amz-Signature=").
    intros Hnil. by apply app_eq_nil in Hnil as [_ ?].
Qed.

Lemma signed_query_parses kvs v sig :
  v = values_of kvs → NoDup kvs.*1 → signatureParam ∉ kvs.*1 → (length kvs + 1 < max_query_params)%nat →
  ParseQuery (query_of (signed_pairs kvs sig)) = Ok (<[signatureParam := [hex_encode sig]]> v).
Proof.
  intros Hv Hnd Hnk Hsz. rewrite ParseQuery_query_of.
  - by rewrite values_of_signed, Hv.
  - unfold signed_pairs. rewrite fmap_app. cbn. apply NoDup_app. split_and!; [done| |apply NoDup_singleton].
    intros k Hk. by intros ->%list_elem_of_singleton.
  - unfold signed_pairs. rewrite length_app. cbn. lia.
Qed.

Lemma signed_token_accepted now1 now2 s l username p h port path v :
  SplitHostPort (Listen l) = Ok (h, port) → plain_host (Hostname l) → plain_port port →
  path = [] ∨ path = lit "/" →
  single_valued v → v !! signatureParam = None → (size v + 1 < max_query_params)%nat →
  aws_parameters v username → aws_window v now1 now2 → aws_credential s v l p →
  let host := JoinHostPort (Hostname l) port in
  let sig := signature_for (AWSSecretKey p) (vget v (lit "X-Amz-Date")) (Region l) host v in
  validateAWS now1 now2 s l username (sdk_token host path (awsQuery v) sig) = Ok p.
Proof.
  intros Hsp Hn Hp Hpath Hsv Hnosig Hsize Hpar Hwin Hcred. cbv zeta.
  set (host := JoinHostPort (Hostname l) port) in *. set (sig := signature_for _ _ _ _ _).
  destruct (awsQuery_sorted_pairs v Hsv) as (kvs & Hq & Hv & Hnd & Hsz).
  assert (kvs ≠ []) as Hne.
  { intros ->. subst v. destruct Hpar as [Ha _]. discriminate Ha. }
  assert (signatureParam ∉ kvs.*1) as Hnk.
  { intros Hin. rewrite Hv in Hnosig. unfold values_of in Hnosig.
    apply not_elem_of_list_to_map in Hnosig. apply Hnosig. by rewrite <- list_fmap_compose. }
  apply validateAWS_spec. exists host, (query_of (signed_pairs kvs sig)),
    (<[signatureParam := [hex_encode sig]]> v), sig.
  assert (∀ k, k ≠ signatureParam → vget (<[signatureParam := [hex_encode sig]]> v) k = vget v k) as Hget
    by (intros k Hk; by apply vget_insert_ne).
  assert (vget (<[signatureParam := [hex_encode sig]]> v) signatureParam = hex_encode sig) as Hgs
    by (unfold vget; by rewrite lookup_insert_eq).
  split; [by apply sdk_token_url|]. split; [by exists h, port|].
  split; [apply signed_query_parses; [done..|lia]|].
  split; [apply map_Forall_insert_2; [by eexists|done]|].
  split; [unfold aws_parameters; by rewrite !Hget|].
  split; [rewrite Hgs, length_hex_encode; by rewrite (length_hmac_sha256 _ _ : length sig = 32%nat)|].
  split; [rewrite Hgs; apply hex_decode_encode|].
  split; [unfold aws_window; by rewrite !Hget|].
  split; [unfold aws_credential; by rewrite !Hget|].
  rewrite Hget by done. by rewrite delete_insert_id by done.
Qed.

(** C17: A token built as the SDK builds it, the canonical query of any single-valued
    parameters with its signature appended to the listener's endpoint, is accepted:
    the parameters survive percent encoding, URL parsing and query parsing, and the
    signature recomputed from what was parsed is the one that was made. *)
Theorem aws_signed_token_accepted now1 now2 s l username p h port path v :
  SplitHostPort (Listen l) = Ok (h, port) → plain_host (Hostname l) → plain_port port →
  path = [] ∨ path = lit "/" →
  single_valued v → v !! signatureParam = None → (size v + 1 < max_query_params)%nat →
  aws_parameters v username → aws_window v now1 now2 → aws_credential s v l p →
  let host := JoinHostPort (Hostname l) port in
  let sig := signature_for (AWSSecretKey p) (vget v (lit "X-Amz-Date")) (Region l) host v in
  validateAWS now1 now2 s l username (sdk_token host path (awsQuery v) sig) = Ok p.
Proof. apply signed_token_accepted. Qed.
