(* ===== verification/ServiceSpec.v ===== *)
(** * The dispatch: what authentication grants, for every provider

    [service.Validate] accepts exactly what the provider of the listener
    accepts for a principal that is granted on it, has one error for every
    refusal, and never panics. *)
From S2P Require Import Prelude Wire GoStrings NetAddr NetAddrSpec Sha256 Codec Json Rsa UrlLib GoTime Config Identity IdentitySpec Aws AwsSpec.
#[local] Open Scope Z_scope.

(** ** No panics *)
Lemma hex_decode_no_panic s : no_panic (hex_decode s).
Proof.
  induction s as [|x|x y s IH] using list_pair_ind; [done| |]; cbn [hex_decode].
  - by destruct (hex_val x).
  - destruct (hex_val x), (hex_val y); try done. apply no_panic_bind; [done|by intros].
Qed.

Lemma ParseQuery_no_panic q : no_panic (ParseQuery q).
Proof. unfold ParseQuery. destruct (bool_decide _); [|done]. destruct (foldl _ _ _) as [v []]; done. Qed.

#[export] Hint Resolve of_option_no_panic hex_decode_no_panic ParseQuery_no_panic atoi_no_panic
  SplitHostPort_no_panic : golib.

Ltac no_panic_step :=
  apply no_panic_bind; [solve [auto with golib]|intros ? ?].

Lemma validateAWS_no_panic now1 now2 s l username token :
  no_panic (validateAWS now1 now2 s l username token).
Proof.
  unfold validateAWS. do 3 no_panic_step.
  apply no_panic_bind; [solve [auto with golib]|intros [h port] _].
  do 8 no_panic_step.
  apply no_panic_bind; [solve [auto with golib]|intros issued Hissued].
  no_panic_step. apply no_panic_bind; [solve [auto with golib]|intros [] Hn].
  apply guard_err_Ok, negb_false_iff, Nat.eqb_eq in Hn. destruct (length5 _ Hn) as (c0 & c1 & c2 & c3 & c4 & ->).
  cbn [index_go lookup list_lookup]. rewrite !Ok_bind.
  apply of_option_Ok, parse_compact_length in Hissued.
  apply no_panic_bind; [by apply no_panic_slice_to|intros day _].
  do 3 no_panic_step. rewrite slice_from_ok by (cbn; lia). rewrite Ok_bind. by no_panic_step.
Qed.

Section validate.
Context `{GoUnicode}.

Lemma validateGoogle_no_panic now s l username password :
  no_panic (validateGoogle now s l username password).
Proof.
  unfold validateGoogle. destruct (_ !! _) as [t|]; [|done]. do 2 no_panic_step.
  destruct (principal _ _); [|done]. by no_panic_step.
Qed.

Lemma validateAzure_no_panic now1 now2 s l username token :
  no_panic (validateAzure now1 now2 s l username token).
Proof.
  unfold validateAzure. destruct (split_byte _ _) as [|p0 [|p1 [|p2 [|]]]]; try done.
  destruct (b64_decode p0), (b64_decode p1), (b64_decode p2); try done.
  destruct (Unmarshal _ _ _); [|done]. destruct (Unmarshal _ _ _); [|done]. do 3 no_panic_step.
  destruct (principal _ _); [|done]. no_panic_step. by repeat case_match.
Qed.
End validate.

(** ** The dispatch *)
Section dispatch.
Context `{GoUnicode}.

(** What the listener's provider accepts. *)
Definition provider_accepts (now1 now2 : Z) (s : service) (l : Listener) (username password : gostring)
    (p : Principal) : Prop :=
  (Provider l = aws ∧ aws_accepted now1 now2 s l username password p) ∨
  (Provider l = google ∧ google_accepted now1 s l username password p) ∨
  (Provider l = azure ∧ azure_accepted now1 now2 s l username password p).

Definition auth_failed : goerr := Errorf "authentication failed" [].

Lemma provider_accepts_principal now1 now2 s l username password p :
  provider_accepts now1 now2 s l username password p → p ∈ Principals (svc_config s).
Proof.
  intros [[_ Ha]|[[_ Hg]|[_ Hz]]].
  - destruct Ha as (host & query & v & sig & _ & _ & _ & _ & _ & _ & _ & _ & (key & _ & Hp & _) & _).
    unfold aws_principal in Hp. apply fmap_Some in Hp as ([i q] & Hf & ->).
    apply list_find_Some in Hf as (Hi & _ & _). by apply list_elem_of_lookup_2 in Hi.
  - destruct Hg as (t & _ & _ & _ & Hp & _). by apply principal_Some in Hp as [? _].
  - destruct Hz as (p0 & p1 & p2 & hb & cb & sig & hd & cl & Hz). by destruct_and! Hz; edestruct principal_Some.
Qed.
Lemma provider_accepts_spec now1 now2 s l username password p :
  (if Provider l =s aws then validateAWS now1 now2 s l username password
   else if Provider l =s google then validateGoogle now1 s l username password
   else if Provider l =s azure then validateAzure now1 now2 s l username password
   else Err (Errorf "unknown provider" [])) = Ok p ↔ provider_accepts now1 now2 s l username password p.
Proof.
  unfold provider_accepts. destruct (Provider l =s aws) eqn:Ha.
  { apply bool_decide_eq_true in Ha. rewrite validateAWS_spec, Ha. split; [auto|].
    intros [[_ ?]|[[[=] _]|[[=] _]]]; done. }
  apply bool_decide_eq_false in Ha. destruct (Provider l =s google) eqn:Hg.
  { apply bool_decide_eq_true in Hg. rewrite validateGoogle_accepts, Hg. split; [auto|].
    intros [[[=] _]|[[_ ?]|[[=] _]]]; done. }
  apply bool_decide_eq_false in Hg. destruct (Provider l =s azure) eqn:Hz.
  { apply bool_decide_eq_true in Hz. rewrite validateAzure_accepts, Hz. split; [auto|].
    intros [[[=] _]|[[[=] _]|[_ ?]]]; done. }
  apply bool_decide_eq_false in Hz. split; [done|]. intros [[? _]|[[? _]|[? _]]]; done.
Qed.

Lemma svc_Validate_Ok now1 now2 s l username password p :
  provider_accepts now1 now2 s l username password p → Granted p (Name l) = true →
  svc_Validate now1 now2 s l username password = Ok p.
Proof.
  intros Hp%provider_accepts_spec Hg. unfold svc_Validate. rewrite Hp. cbn [wrap_err].
  by rewrite Ok_bind, Hg.
Qed.

Lemma svc_Validate_inv now1 now2 s l username password p :
  svc_Validate now1 now2 s l username password = Ok p →
  provider_accepts now1 now2 s l username password p ∧ Granted p (Name l) = true.
Proof.
  unfold svc_Validate. intros (q & Hq & Hg)%bind_Ok. apply wrap_err_Ok, provider_accepts_spec in Hq.
  apply guard_bind_Ok in Hg as [Hg [= ->]]. by apply negb_false_iff in Hg.
Qed.

Lemma svc_Validate_cases now1 now2 s l username password :
  (∃ p, svc_Validate now1 now2 s l username password = Ok p ∧
        provider_accepts now1 now2 s l username password p ∧
        Granted p (Name l) = true ∧ p ∈ Principals (svc_config s)) ∨
  (svc_Validate now1 now2 s l username password = Err auth_failed ∧
   ∀ p, provider_accepts now1 now2 s l username password p → Granted p (Name l) = false).
Proof.
  unfold svc_Validate. pose proof (provider_accepts_spec now1 now2 s l username password) as Hspec.
  match goal with |- context [wrap_err _ ?r] => set (verdict := r) in * end.
  assert (no_panic verdict) as Hnp.
  { subst verdict. repeat case_match; [apply validateAWS_no_panic|apply validateGoogle_no_panic|
      apply validateAzure_no_panic|done]. }
  destruct verdict as [p|e|]; [| |done].
  - pose proof (proj1 (Hspec p) eq_refl) as Hp. cbn [wrap_err]. rewrite Ok_bind.
    destruct (Granted p (Name l)) eqn:Hg; cbn [negb guard_err].
    + left. exists p. split_and!; [done..|]. by eapply provider_accepts_principal.
    + right. split; [done|]. intros q Hq%Hspec. by injection Hq as <-.
  - right. split; [done|]. by intros q Hq%Hspec.
Qed.

(** C2: [service.Validate] always decides, without a panic: either it accepts a
    principal of the configuration that the provider of the listener accepts and that
    is granted on the listener, or it gives the one error "authentication failed", and
    then nobody the provider accepts is granted on the listener. *)
Theorem svc_Validate_decides now1 now2 s l username password :
  (∃ p, svc_Validate now1 now2 s l username password = Ok p ∧
        provider_accepts now1 now2 s l username password p ∧
        Granted p (Name l) = true ∧ p ∈ Principals (svc_config s)) ∨
  (svc_Validate now1 now2 s l username password = Err auth_failed ∧
   ∀ p, provider_accepts now1 now2 s l username password p → Granted p (Name l) = false).
Proof. apply svc_Validate_cases. Qed.

(** [service.Validate] as the sessions see it. *)
Lemma svc_Validate_no_panic now1 now2 s l username password :
  no_panic (svc_Validate now1 now2 s l username password).
Proof.
  unfold svc_Validate. apply no_panic_bind; [apply no_panic_wrap|intros; by apply no_panic_bind; [apply no_panic_guard|]].
  repeat case_match; [apply validateAWS_no_panic|apply validateGoogle_no_panic|apply validateAzure_no_panic|done].
Qed.

#[export] Instance service_authenticator now1 now2 (s : service) : Authenticator := {|
  authenticate := svc_Validate now1 now2 s;
  authenticate_no_panic := svc_Validate_no_panic now1 now2 s
|}.

(** C18: An AWS token is bound to one login: whatever services, listeners, clocks and
    user names accept the same token, the user name, the region, the endpoint and the
    access key are the same. *)
Theorem aws_token_bound now1 now2 now1' now2' s s' l l' username username' token p p' :
  validateAWS now1 now2 s l username token = Ok p →
  validateAWS now1' now2' s' l' username' token = Ok p' →
  username = username' ∧ Region l = Region l' ∧ (∃ host, endpoint l host ∧ endpoint l' host) ∧
  AWSAccessKey p = AWSAccessKey p'.
Proof.
  intros (host & query & v & sig & (_ & u & Hu & _ & _ & _ & _ & <- & <-) & He & Hv & _ & (_ & <- & _) & _ & _ & _ &
    (key & Hc & Hk & _) & _)%validateAWS_spec.
  intros (host' & query' & v' & sig' & (_ & u' & Hu' & _ & _ & _ & _ & <- & <-) & He' & Hv' & _ & (_ & <- & _) & _ & _ & _ &
    (key' & Hc' & Hk' & _) & _)%validateAWS_spec.
  rewrite Hu in Hu'. injection Hu' as <-. rewrite Hv in Hv'. injection Hv' as <-.
  rewrite Hc in Hc'. injection Hc' as <- Hr. split_and!; [done|done|by exists (u_host u)|].
  assert (∀ s q, aws_principal s key = Some q → AWSAccessKey q = key) as Hkey; [|by rewrite (Hkey _ _ Hk), (Hkey _ _ Hk')].
  intros s0 q ([i x] & Hf & ->)%fmap_Some. by apply list_find_Some in Hf as (_ & ? & _).
Qed.
End dispatch.
