(* ===== verification/HttpMock.v ===== *)
(** * The metadata and OAuth endpoints (src/iamproxy/http.go)

    Every handler is a function of the request, of what it reads from its
    environment (the clock, random bytes, the order in which a map is iterated)
    and of the state, and gives the reply and the next state.  A handler touches
    the shared maps in one critical section, so concurrent requests take effect
    in the order of these sections. *)
From S2P Require Import Prelude Wire GoStrings Sha256 Codec Json Rsa UrlLib GoTime Config Identity.
#[local] Open Scope Z_scope.

(** ** Requests and replies

    The headers have canonical names.  [r_media] is the media type of the
    request and whether [mime.ParseMediaType] reports an error, and [r_body] the
    outcome of reading the body, at most 10 MiB + 1 byte of it. *)
Record request := mkRequest {
  r_method : gostring;
  r_path : gostring;
  r_rawquery : gostring;
  r_header : gmap gostring (list gostring);
  r_host : gostring;
  r_tls : bool;
  r_media : gostring * bool;
  r_body : res gostring
}.

Abbreviation headers := (gmap gostring gostring).
Record reply := mkReply { w_status : Z; w_header : headers; w_body : gostring }.

(** The clock's readings in order, random bytes, and the order of iteration of
    the map of IMDS tokens. *)
Record env := mkEnv {
  clock : nat → Z;
  random : list byte;
  map_order : list (gostring * Z) → list (gostring * Z)
}.

Record mockHTTP := mkHTTP { h_s : service; h_imds : gmap gostring Z }.

Definition HTTPHandler (s : service) : mockHTTP := mkHTTP s ∅.

Definition newline : gostring := [byte_of 10].

Definition http_Error (w : headers) (msg : gostring) (code : Z) : reply :=
  mkReply code
    (<[lit "X-Content-Type-Options" := lit "nosniff"]>
      (<[lit "Content-Type" := lit "text/plain; charset=utf-8"]> w)) (msg ++ newline).
Definition http_NotFound (w : headers) : reply := http_Error w (lit "404 page not found") 404.
Definition http_Write (w : headers) (body : gostring) : reply := mkReply 200 w body.

Definition jsonReply (w : headers) (status : Z) (v : json) : reply :=
  mkReply status
    (<[lit "Cache-Control" := lit "no-store"]> (<[lit "Content-Type" := lit "application/json"]> w))
    (Marshal v ++ newline).

Definition header_Get (r : request) (name : gostring) : gostring := vget (r_header r) name.
Definition query_Get (r : request) (name : gostring) : gostring := vget (URLQuery (r_rawquery r)) name.

(** [r.ParseForm()] and the form it leaves when it succeeds: the values of the
    body, then those of the query. *)
Definition maxFormSize : Z := 10 * 2 ^ 20.

Definition parsePostForm (r : request) : res Values :=
  let '(media, bad) := r_media r in
  if media =s lit "application/x-www-form-urlencoded" then
    b ← r_body r;
    _ ← guard_err (maxFormSize <? Z.of_nat (length b)) (Errorf "http: POST too large" []);
    _ ← guard_err bad (Errorf "mime: invalid media parameter" []);
    ParseQuery b
  else
    _ ← guard_err bad (Errorf "mime: invalid media parameter" []);
    Ok ∅.

Definition ParseForm (r : request) : res Values :=
  post ← (if (r_method r =s lit "POST") || (r_method r =s lit "PUT") || (r_method r =s lit "PATCH")
          then parsePostForm r else Ok ∅);
  query ← ParseQuery (r_rawquery r);
  Ok (union_with (λ a b, Some (a ++ b)) post query).

(** ** AWS: the instance metadata service *)
(** The sweep of expired tokens; each test reads the clock. *)
Definition sweep_step (e : env) (st : nat * gmap gostring Z) (kv : gostring * Z) : nat * gmap gostring Z :=
  let '(i, imds) := st in
  (S i, if negb (clock e i <? kv.2) then delete kv.1 imds else imds).
Definition sweep (e : env) (imds : gmap gostring Z) : nat * gmap gostring Z :=
  foldl (sweep_step e) (0%nat, imds) (map_order e (map_to_list imds)).

Definition awsIMDSToken (e : env) (r : request) (h : mockHTTP) : reply * mockHTTP :=
  if negb (r_method r =s lit "PUT") then (http_Error ∅ (lit "method") 405, h)
  else
    let bad := (http_Error ∅ (lit "invalid IMDSv2 token TTL") 400, h) in
    match atoi (header_Get r (lit "X-Aws-Ec2-Metadata-Token-Ttl-Seconds")) with
    | Ok ttl =>
       if (ttl <? 1) || (21600 <? ttl) then bad
       else
         let t := b64_encode (random e) in
         let '(i, imds) := sweep e (h_imds h) in
         (http_Write (<[lit "Content-Type" := lit "text/plain"]> ∅) t,
          mkHTTP (h_s h) (<[t := clock e i + ttl * Second]> imds))
    | _ => bad
    end.

Definition has_key (p : Principal) : bool := negb (empty (AWSAccessKey p)).

(** [if p == nil || p.AWSAccessKey == ""] *)
Definition aws_role (h : mockHTTP) (id : gostring) : option Principal :=
  match principal (h_s h) id with
  | Some p => if has_key p then Some p else None
  | None => None
  end.

Definition imds_prefix := lit "/latest/meta-data/iam/security-credentials/".

Definition awsIMDSCredentials (e : env) (r : request) (h : mockHTTP) : reply :=
  if negb (r_method r =s lit "GET") then http_Error ∅ (lit "method") 405
  else
    let denied := http_Error ∅ (lit "IMDS token required") 401 in
    match h_imds h !! header_Get r (lit "X-Aws-Ec2-Metadata-Token") with
    | None => denied
    | Some expiry =>
       if negb (clock e 0 <? expiry) then denied
       else
         let role := trim_prefix (r_path r) imds_prefix in
         if empty role then
           http_Write ∅ ((filter (λ p, has_key p = true) (Principals (svc_config (h_s h)))) ≫= λ p, ID p ++ newline)
         else
           match aws_role h role with
           | None => http_NotFound ∅
           | Some p =>
              jsonReply ∅ 200 (jmap
                [(lit "Code", JStr (lit "Success")); (lit "Type", JStr (lit "AWS-HMAC"));
                 (lit "AccessKeyId", JStr (AWSAccessKey p)); (lit "SecretAccessKey", JStr (AWSSecretKey p));
                 (lit "Token", JStr (AWSSessionToken p)); (lit "Expiration", JStr (rfc3339 (clock e 1 + Hour)))])
           end
    end.

(** ** AWS: the container endpoints *)
Definition awsECSCredentials (e : env) (r : request) (h : mockHTTP) : reply :=
  if negb (r_method r =s lit "GET") then http_Error ∅ (lit "method") 405
  else
    let id := trim_prefix (r_path r) (lit "/v2/credentials/") in
    if empty id || contains id (lit "/") then http_NotFound ∅
    else
      match aws_role h id with
      | None => http_NotFound ∅
      | Some p =>
         if negb (empty (ECSAuthorizationToken p))
            && negb (checkSecret (ECSAuthorizationToken p) (header_Get r (lit "Authorization")))
         then http_Error ∅ (lit "authorization token required") 401
         else
           jsonReply ∅ 200 (jmap
             [(lit "RoleArn", JStr (lit "arn:aws:iam::123456789012:role/" ++ ID p));
              (lit "AccessKeyId", JStr (AWSAccessKey p)); (lit "SecretAccessKey", JStr (AWSSecretKey p));
              (lit "Token", JStr (AWSSessionToken p)); (lit "Expiration", JStr (rfc3339 (clock e 0 + Hour)))])
      end.

Definition jtext (members : list (string * gostring)) : list (gostring * json) :=
  (λ kv, (lit kv.1, JStr kv.2)) <$> members.

Definition ecs_container (p : Principal) : json :=
  jmap (jtext [("DockerId", lit "iam-proxy-" ++ ID p); ("Name", ID p); ("DockerName", lit "iam-proxy-" ++ ID p);
               ("Image", lit "db-iam-auth-emulator-proxy-e2e:local"); ("ImageID", lit "sha256:fixture");
               ("DesiredStatus", lit "RUNNING"); ("KnownStatus", lit "RUNNING")]).

Definition ecs_stats (now : Z) : json :=
  jmap [(lit "read", JStr (rfc3339_nano now));
        (lit "cpu_stats", jmap [(lit "cpu_usage", jmap [(lit "total_usage", jint 0)]);
                                (lit "system_cpu_usage", jint 0)]);
        (lit "memory_stats", jmap [(lit "usage", jint 0); (lit "limit", jint 0)]);
        (lit "networks", jmap [])].

Definition ecs_task (p : Principal) (with_tags : bool) : json :=
  jmap (jtext [("Cluster", lit "iam-proxy-fixtures");
               ("TaskARN", lit "arn:aws:ecs:us-east-1:123456789012:task/iam-proxy-fixtures/" ++ ID p);
               ("Family", lit "iam-proxy-fixture"); ("Revision", lit "1"); ("DesiredStatus", lit "RUNNING");
               ("KnownStatus", lit "RUNNING"); ("LaunchType", lit "FARGATE")]
        ++ [(lit "Containers", JArr [ecs_container p])]
        ++ (if with_tags then [(lit "TaskTags", JArr []); (lit "ContainerInstanceTags", JArr [])] else [])).

Definition awsECSMetadata (e : env) (r : request) (h : mockHTTP) : reply :=
  if negb (r_method r =s lit "GET") then http_Error ∅ (lit "method") 405
  else
    let parts := split_byte (trim_prefix (r_path r) (lit "/ecs/v4/")) (chr "/") in
    let n := length parts in
    let part i := default [] (parts !! i) in
    if (n <? 1)%nat || (3 <? n)%nat || empty (part 0%nat) then http_NotFound ∅
    else
      match aws_role h (part 0%nat) with
      | None => http_NotFound ∅
      | Some p =>
         let stats := ecs_stats (clock e 0) in
         if (n =? 1)%nat then jsonReply ∅ 200 (ecs_container p)
         else if (n =? 2)%nat && (part 1%nat =s lit "stats") then jsonReply ∅ 200 stats
         else if (n =? 3)%nat && (part 1%nat =s lit "task") && (part 2%nat =s lit "stats")
              then jsonReply ∅ 200 (jmap [(lit "iam-proxy-" ++ ID p, stats)])
         else if negb (n =? 2)%nat then http_NotFound ∅
         else if negb (part 1%nat =s lit "task") && negb (part 1%nat =s lit "taskWithTags") then http_NotFound ∅
         else jsonReply ∅ 200 (ecs_task p (part 1%nat =s lit "taskWithTags"))
      end.

(** ** Google *)
Definition scope_allowed (scope : gostring) : bool := (scope =s googleSQLScope) || (scope =s cloudPlatformScope).
Definition or_default (s d : gostring) : gostring := if empty s then d else s.

Definition first_email (ps : list Principal) : gostring :=
  match list_find (λ p, Email p ≠ []) ps with Some (_, p) => ID p | None => [] end.

Definition issue_google (e : env) (p : Principal) (scope : gostring) (h : mockHTTP)
    : (gostring * Z) * mockHTTP :=
  let '(issued, s) := googleIssue (random e) (clock e 0) p scope (h_s h) in (issued, mkHTTP s (h_imds h)).

Definition googleMetadata (e : env) (r : request) (h : mockHTTP) : reply * mockHTTP :=
  if negb (header_Get r (lit "Metadata-Flavor") =s lit "Google")
  then (http_Error ∅ (lit "metadata header required") 403, h)
  else
    let id := or_default (query_Get r (lit "principal")) (first_email (Principals (svc_config (h_s h)))) in
    match principal (h_s h) id with
    | None => (http_NotFound ∅, h)
    | Some p =>
       if empty (Email p) then (http_NotFound ∅, h)
       else
         let w := <[lit "Metadata-Flavor" := lit "Google"]> ∅ in
         if has_suffix (r_path r) (lit "/email") then (http_Write w (Email p), h)
         else
           let scope := or_default (query_Get r (lit "scopes")) googleSQLScope in
           if negb (scope_allowed scope) then (http_Error w (lit "scope not allowed") 400, h)
           else
             let '((token, expires), h') := issue_google e p scope h in
             (jsonReply w 200 (jmap [(lit "access_token", JStr token); (lit "expires_in", jint expires);
                                     (lit "token_type", JStr (lit "Bearer"))]), h')
    end.

(** The principal of a refresh token. *)
Definition refresh_principal (h : mockHTTP) (token : gostring) : option Principal :=
  snd <$> list_find (λ p, GoogleRefreshToken p ≠ [] ∧ checkSecret (GoogleRefreshToken p) token = true)
            (Principals (svc_config (h_s h))).

Definition googleOAuth (e : env) (r : request) (h : mockHTTP) : reply * mockHTTP :=
  if negb (r_method r =s lit "POST") then (http_Error ∅ (lit "method") 405, h)
  else
    match ParseForm r with
    | Ok form =>
       if negb (vget form (lit "grant_type") =s lit "refresh_token")
       then (http_Error ∅ (lit "unsupported grant") 400, h)
       else
         match refresh_principal h (vget form (lit "refresh_token")) with
         | None => (http_Error ∅ (lit "invalid grant") 401, h)
         | Some p =>
            let scope := or_default (vget form (lit "scope")) googleSQLScope in
            if negb (scope_allowed scope) then (http_Error ∅ (lit "invalid scope") 400, h)
            else
              let '((token, expires), h') := issue_google e p scope h in
              (jsonReply ∅ 200 (jmap [(lit "access_token", JStr token); (lit "expires_in", jint expires);
                                      (lit "token_type", JStr (lit "Bearer")); (lit "scope", JStr scope)]), h')
         end
    | _ => (http_Error ∅ (lit "form") 400, h)
    end.

(** ** Azure *)
Section azure.
Context `{GoUnicode}.

(** The tenant of the first Azure listener granted to the principal. *)
Definition azureTenantFor (h : mockHTTP) (p : Principal) : gostring :=
  match list_find (λ l, Provider l = azure ∧ Granted p (Name l) = true) (Listeners (svc_config (h_s h))) with
  | Some (_, l) => Tenant l
  | None => []
  end.

Definition managementAudience : gostring := lit "https://management.azure.com/".
Definition coreAudience : gostring := lit "https://management.core.windows.net/".

(** The loop over the candidates: [None] when the identity is ambiguous. *)
Fixpoint imds_identity (id : gostring) (found : option Principal) (ps : list Principal)
    : option (option Principal) :=
  match ps with
  | [] => Some found
  | c :: ps =>
     if negb (empty (AzureClientID c)) && (empty id || (id =s AzureClientID c)) then
       if bool_decide (is_Some found) && empty id then None else imds_identity id (Some c) ps
     else imds_identity id found ps
  end.

Definition azureIMDS (e : env) (r : request) (h : mockHTTP) : reply :=
  if negb (header_Get r (lit "Metadata") =s lit "true") then http_Error ∅ (lit "Metadata header required") 400
  else
    let resource := query_Get r (lit "resource") in
    if negb (resource =s azureAudience) && negb (resource =s managementAudience) && negb (resource =s coreAudience)
    then http_Error ∅ (lit "invalid resource") 400
    else
      match imds_identity (query_Get r (lit "client_id")) None (Principals (svc_config (h_s h))) with
      | None => http_Error ∅ (lit "ambiguous identity") 400
      | Some None => http_Error ∅ (lit "identity not found") 404
      | Some (Some p) =>
         let tenant := azureTenantFor h p in
         if empty tenant then http_Error ∅ (lit "tenant not found") 400
         else
           let token := azureIssueForAudience (clock e 0) (h_s h) p tenant resource Hour in
           jsonReply ∅ 200 (jmap
             [(lit "access_token", JStr token); (lit "client_id", JStr (AzureClientID p));
              (lit "expires_in", JStr (lit "3600"));
              (lit "expires_on", JStr (itoa (unix (clock e 1 + Hour))));
              (lit "not_before", JStr (itoa (unix (clock e 2)))); (lit "resource", JStr resource);
              (lit "token_type", JStr (lit "Bearer"))])
      end.

(** The loop over the words of a scope: the number of resource words, or
    [None] on any other word. *)
Fixpoint scope_words (resource : Z) (words : list gostring) : option Z :=
  match words with
  | [] => Some resource
  | s :: words =>
     if s =s azureAudience ++ lit "/.default" then scope_words (resource + 1) words
     else if (s =s lit "openid") || (s =s lit "offline_access") || (s =s lit "profile")
          then scope_words resource words
     else None
  end.

Definition azureClientCredentialScope (scope : gostring) : bool :=
  match scope_words 0 (fields scope) with Some resource => resource =? 1 | None => false end.

(** The principal of client credentials, for a tenant. *)
Definition azure_client (h : mockHTTP) (tenant client_id secret : gostring) : option Principal :=
  snd <$> list_find (λ c, AzureClientID c = client_id ∧ AzureClientSecret c ≠ [] ∧
                          checkSecret (AzureClientSecret c) secret = true ∧ azureTenantFor h c = tenant)
            (Principals (svc_config (h_s h))).

Definition azureOAuth (e : env) (r : request) (h : mockHTTP) : reply :=
  if negb (r_method r =s lit "POST") then http_Error ∅ (lit "method") 405
  else
    match ParseForm r with
    | Ok form =>
       let parts := split_byte (trim (r_path r) (chr "/")) (chr "/") in
       if (length parts <? 4)%nat || negb (bool_decide (parts !! (length parts - 3)%nat = Some (lit "oauth2")))
       then http_NotFound ∅
       else
         let tenant := default [] (parts !! 0%nat) in
         if negb (vget form (lit "grant_type") =s lit "client_credentials")
            || negb (azureClientCredentialScope (vget form (lit "scope")))
         then http_Error ∅ (lit "unsupported grant or scope") 400
         else
           match azure_client h tenant (vget form (lit "client_id")) (vget form (lit "client_secret")) with
           | None => http_Error ∅ (lit "invalid client") 401
           | Some p =>
              let token := azureIssue (clock e 0) (h_s h) p tenant Hour in
              jsonReply ∅ 200 (jmap [(lit "access_token", JStr token); (lit "expires_in", jint 3600);
                                     (lit "ext_expires_in", jint 3600); (lit "token_type", JStr (lit "Bearer"))])
           end
    | _ => http_Error ∅ (lit "form") 400
    end.

Definition jstrings (l : list string) : json := JArr (JStr ∘ lit <$> l).

Definition azureDiscovery (r : request) (h : mockHTTP) : reply :=
  let parts := split_byte (trim (r_path r) (chr "/")) (chr "/") in
  if (length parts <? 3)%nat then http_NotFound ∅
  else
    let tenant := default [] (parts !! 0%nat) in
    let origin := if r_tls r then lit "https://" ++ r_host r
                  else trim_right (PublicURL (svc_config (h_s h))) (chr "/") in
    let base := origin ++ lit "/" ++ tenant in
    jsonReply ∅ 200 (jmap
      [(lit "issuer", JStr (base ++ lit "/v2.0"));
       (lit "authorization_endpoint", JStr (base ++ lit "/oauth2/v2.0/authorize"));
       (lit "token_endpoint", JStr (base ++ lit "/oauth2/v2.0/token"));
       (lit "jwks_uri", JStr (base ++ lit "/discovery/v2.0/keys"));
       (lit "response_types_supported", jstrings ["token"]);
       (lit "scopes_supported", jstrings ["openid"; "profile"; "offline_access"]);
       (lit "token_endpoint_auth_methods_supported", jstrings ["client_secret_post"]);
       (lit "id_token_signing_alg_values_supported", jstrings ["RS256"])]).

(** ** The router *)
Definition metadata_prefix := lit "/computeMetadata/v1/instance/service-accounts/".
Definition imds_token_path := lit "/latest/api/token".

(** The handlers that leave the state as it is. *)
Definition readonly (h : mockHTTP) (w : reply) : reply * mockHTTP := (w, h).

Definition serve (e : env) (r : request) (h : mockHTTP) : reply * mockHTTP :=
  let p := r_path r in
  if p =s lit "/healthz" then readonly h (jsonReply ∅ 200 (jmap [(lit "status", JStr (lit "ok"))]))
  else if p =s lit "/arm/subscriptions" then readonly h (jsonReply ∅ 200 (jmap [(lit "value", JArr [])]))
  else if p =s lit "/arm/tenants" then
    readonly h (jsonReply ∅ 200 (jmap [(lit "value",
      JArr [jmap [(lit "tenantId", JStr (lit "tenant-1")); (lit "id", JStr (lit "/tenants/tenant-1"))]])]))
  else if p =s imds_token_path then awsIMDSToken e r h
  else if has_prefix p imds_prefix then readonly h (awsIMDSCredentials e r h)
  else if has_prefix p (lit "/v2/credentials/") then readonly h (awsECSCredentials e r h)
  else if has_prefix p (lit "/ecs/v4/") then readonly h (awsECSMetadata e r h)
  else if (p =s metadata_prefix ++ lit "default/token")
          || (has_prefix p metadata_prefix && has_suffix p (lit "/token")) then googleMetadata e r h
  else if p =s metadata_prefix ++ lit "default/email" then googleMetadata e r h
  else if (p =s lit "/oauth2.googleapis.com/token") || (p =s lit "/token") then googleOAuth e r h
  else if p =s lit "/metadata/identity/oauth2/token" then readonly h (azureIMDS e r h)
  else if has_suffix p (lit "/.well-known/openid-configuration") then readonly h (azureDiscovery r h)
  else if has_suffix p (lit "/discovery/v2.0/keys") then
    readonly h (jsonReply ∅ 200 (jmap [(lit "keys", JArr [AzureJWK (h_s h)])]))
  else if has_suffix p (lit "/oauth2/v2.0/token") then readonly h (azureOAuth e r h)
  else readonly h (http_NotFound ∅).

(** A history of requests, each in its environment. *)
Definition serve_step (h : mockHTTP) (er : env * request) : mockHTTP := (serve er.1 er.2 h).2.
Definition serve_all (h : mockHTTP) (l : list (env * request)) : mockHTTP := foldl serve_step h l.
End azure.
