(* ===== verification/HttpMockSpec.v ===== *)
(** * The endpoints: who is given a token, and how long it lives *)
From S2P Require Import Prelude Wire GoStrings Sha256 Codec Json JsonSpec Rsa UrlLib GoTime Config Identity IdentitySpec HttpMock.
#[local] Open Scope Z_scope.

(** ** Who is authorized *)
(** The refresh token of the principal is in the form. *)
Definition refresh_grant (r : request) (p : Principal) : Prop :=
  r_method r = lit "POST" ∧
  ∃ form, ParseForm r = Ok form ∧ vget form (lit "grant_type") = lit "refresh_token" ∧
    GoogleRefreshToken p ≠ [] ∧ vget form (lit "refresh_token") = GoogleRefreshToken p.

(** The metadata server of the principal is asked, with its header; without a
    name, that of the first principal with an e-mail address. *)
Definition metadata_grant (ps : list Principal) (r : request) (p : Principal) : Prop :=
  header_Get r (lit "Metadata-Flavor") = lit "Google" ∧ Email p ≠ [] ∧
  ID p = or_default (query_Get r (lit "principal")) (first_email ps).

Definition google_grant (ps : list Principal) (r : request) (p : Principal) : Prop :=
  refresh_grant r p ∨ metadata_grant ps r p.

(** The effect of a request on the state. *)
Definition put_token (e : env) (r : request) (h : mockHTTP) (ttl : Z) : mockHTTP :=
  let '(i, imds) := sweep e (h_imds h) in
  mkHTTP (h_s h) (<[b64_encode (random e) := clock e i + ttl * Second]> imds).

Definition token_request (r : request) (ttl : Z) : Prop :=
  r_path r = imds_token_path ∧ r_method r = lit "PUT" ∧
  atoi (header_Get r (lit "X-Aws-Ec2-Metadata-Token-Ttl-Seconds")) = Ok ttl ∧ 1 <= ttl <= 21600.

Definition google_issued (e : env) (p : Principal) (scope : gostring) (h : mockHTTP) : mockHTTP :=
  mkHTTP (googleIssue (random e) (clock e 0) p scope (h_s h)).2 (h_imds h).

Lemma negb_seq_eqb_true a b : negb (a =s b) = true ↔ a ≠ b.
Proof. unfold seq_eqb. by rewrite negb_true_iff, bool_decide_eq_false. Qed.

Lemma negb_seq_eqb_false a b : negb (a =s b) = false ↔ a = b.
Proof. unfold seq_eqb. by rewrite negb_false_iff, bool_decide_eq_true. Qed.

Lemma scope_allowed_spec scope : scope_allowed scope = true ↔ scope = googleSQLScope ∨ scope = cloudPlatformScope.
Proof. unfold scope_allowed, seq_eqb. by rewrite orb_true_iff, !bool_decide_eq_true. Qed.

Lemma scope_allowed_sql scope : scope_allowed scope = true → sql_scope scope.
Proof.
  intros [-> | ->]%scope_allowed_spec; unfold sql_scope; rewrite <- !has_scope_spec by compute_done;
    [left|right]; by vm_compute.
Qed.

Lemma awsIMDSToken_effect e r h :
  (awsIMDSToken e r h).2 = h ∨
  ∃ ttl, r_method r = lit "PUT" ∧ atoi (header_Get r (lit "X-Aws-Ec2-Metadata-Token-Ttl-Seconds")) = Ok ttl ∧
    1 <= ttl <= 21600 ∧ (awsIMDSToken e r h).2 = put_token e r h ttl.
Proof.
  unfold awsIMDSToken, put_token. destruct (negb (r_method r =s lit "PUT")) eqn:Hm; [auto|].
  apply negb_seq_eqb_false in Hm.
  destruct (atoi _) as [ttl| |]; [|auto..]. destruct (_ || _) eqn:Hr; [auto|].
  apply orb_false_iff in Hr as [H1 H2]. apply Z.ltb_ge in H1, H2.
  right. exists ttl. by destruct (sweep e (h_imds h)).
Qed.

Lemma googleMetadata_effect e r h :
  (googleMetadata e r h).2 = h ∨
  ∃ p scope, metadata_grant (Principals (svc_config (h_s h))) r p ∧ principal (h_s h) (ID p) = Some p ∧
    scope_allowed scope = true ∧ (googleMetadata e r h).2 = google_issued e p scope h.
Proof.
  unfold googleMetadata. destruct (negb (header_Get r _ =s _)) eqn:Hm; [auto|]. apply negb_seq_eqb_false in Hm.
  destruct (principal (h_s h) _) as [p|] eqn:Hp; [|auto]. destruct (empty (Email p)) eqn:He; [auto|].
  apply bool_decide_eq_false in He. destruct (has_suffix _ _); [auto|].
  destruct (negb (scope_allowed _)) eqn:Hs; [auto|]. apply negb_false_iff in Hs.
  right. pose proof (principal_Some _ _ _ Hp) as [_ Hid]. exists p. eexists.
  split; [by split_and!|]. split; [by rewrite Hid|]. split; [exact Hs|]. done.
Qed.

Lemma googleOAuth_effect e r h :
  (googleOAuth e r h).2 = h ∨
  ∃ p scope, refresh_grant r p ∧ p ∈ Principals (svc_config (h_s h)) ∧
    scope_allowed scope = true ∧ (googleOAuth e r h).2 = google_issued e p scope h.
Proof.
  unfold googleOAuth. destruct (negb (r_method r =s _)) eqn:Hm; [auto|]. apply negb_seq_eqb_false in Hm.
  destruct (ParseForm r) as [form| |] eqn:Hf; [|auto..].
  destruct (negb (vget form _ =s _)) eqn:Hg; [auto|]. apply negb_seq_eqb_false in Hg.
  destruct (refresh_principal _ _) as [p|] eqn:Hp; [|auto].
  destruct (negb (scope_allowed _)) eqn:Hs; [auto|]. apply negb_false_iff in Hs.
  right. exists p. eexists. unfold refresh_principal in Hp. apply fmap_Some in Hp as ([i q] & Hl & ->).
  apply list_find_Some in Hl as (Hi & [Hne Hc] & _). apply bool_decide_eq_true in Hc.
  split; [split; [done|by exists form]|]. split; [by apply list_elem_of_lookup_2 in Hi|]. split; [exact Hs|]. done.
Qed.

Section serve.
Context `{GoUnicode}.

Inductive effect (e : env) (r : request) (h : mockHTTP) : mockHTTP → Prop :=
  | effect_none : effect e r h h
  | effect_imds ttl : token_request r ttl → effect e r h (put_token e r h ttl)
  | effect_google p scope :
      google_grant (Principals (svc_config (h_s h))) r p → p ∈ Principals (svc_config (h_s h)) →
      scope_allowed scope = true → effect e r h (google_issued e p scope h).

Lemma serve_effect e r h : effect e r h (serve e r h).2.
Proof.
  unfold serve, readonly. repeat (case_match; [try apply effect_none|]); try apply effect_none.
  - destruct (awsIMDSToken_effect e r h) as [->|(ttl & ? & ? & ? & ->)]; [apply effect_none|].
    apply effect_imds. split_and!; try done || lia.
    match goal with Hp : (r_path r =s imds_token_path) = true |- _ => by apply bool_decide_eq_true in Hp end.
  - destruct (googleMetadata_effect e r h) as [->|(p & scope & Hg & Hp & ? & ->)]; [apply effect_none|].
    apply principal_Some in Hp as [Hp _]. apply effect_google; [by right|done|done].
  - destruct (googleMetadata_effect e r h) as [->|(p & scope & Hg & Hp & ? & ->)]; [apply effect_none|].
    apply principal_Some in Hp as [Hp _]. apply effect_google; [by right|done|done].
  - destruct (googleOAuth_effect e r h) as [->|(p & scope & Hg & Hp & ? & ->)]; [apply effect_none|].
    apply effect_google; [by left|done|done].
Qed.

(** Configuration and key never change; the token maps change by the grants. *)
Lemma effect_frame e r h h' :
  effect e r h h' → svc_config (h_s h') = svc_config (h_s h) ∧ azureKey (h_s h') = azureKey (h_s h).
Proof.
  destruct 1 as [|ttl _|p scope _ _ _]; [done| |done].
  unfold put_token. by destruct (sweep e (h_imds h)).
Qed.

Lemma serve_all_frame h l :
  svc_config (h_s (serve_all h l)) = svc_config (h_s h) ∧ azureKey (h_s (serve_all h l)) = azureKey (h_s h).
Proof.
  revert h. induction l as [|[e r] l IH]; intros h; [done|]. unfold serve_all in *. cbn [foldl].
  destruct (IH (serve_step h (e, r))) as [-> ->]. apply (effect_frame e r), serve_effect.
Qed.

(** An induction principle for histories: a property of a state that every
    effect preserves. *)
Lemma serve_all_inv (I : list (env * request) → mockHTTP → Prop) h0 :
  I [] h0 →
  (∀ l h e r h', I l h → svc_config (h_s h) = svc_config (h_s h0) → effect e r h h' → I (l ++ [(e, r)]) h') →
  ∀ l, I l (serve_all h0 l).
Proof.
  intros H0 Hstep l. induction l as [|[e r] l IH] using rev_ind; [done|].
  unfold serve_all in *. rewrite foldl_app. cbn [foldl]. eapply Hstep; [exact IH| |apply serve_effect].
  apply (serve_all_frame h0 l).
Qed.

(** ** Google: a login needs a grant *)
Definition google_history (ps : list Principal) (l : list (env * request)) (token : gostring) (t : googleToken) : Prop :=
  ∃ e r p, (e, r) ∈ l ∧ token = google_token (random e) ∧ google_grant ps r p ∧ p ∈ ps ∧
    tok_principal t = ID p ∧ tok_expiry t = clock e 0 + Hour ∧ scope_allowed (tok_scope t) = true.

Lemma google_history_inv s0 l :
  googleTokens s0 = ∅ →
  map_Forall (google_history (Principals (svc_config s0)) l)
    (googleTokens (h_s (serve_all (HTTPHandler s0) l))).
Proof.
  intros H0. apply (serve_all_inv (λ l h, map_Forall (google_history (Principals (svc_config s0)) l)
    (googleTokens (h_s h)))); [cbn; rewrite H0; apply map_Forall_empty|].
  intros l' h e r h' HI Hc Heff.
  assert (∀ tok t, google_history (Principals (svc_config s0)) l' tok t →
    google_history (Principals (svc_config s0)) (l' ++ [(e, r)]) tok t) as Hmono.
  { intros tok t (e0 & r0 & p & Hin & Hrest). exists e0, r0, p. split; [set_solver|done]. }
  destruct Heff as [|ttl _|p scope Hg Hp Hs].
  - eapply map_Forall_impl; [exact HI|done].
  - unfold put_token. destruct (sweep e (h_imds h)). eapply map_Forall_impl; [exact HI|done].
  - cbn. rewrite Hc in Hg, Hp. apply map_Forall_insert_2; [|eapply map_Forall_impl; [exact HI|done]].
    exists e, r, p. split_and!; try done. set_solver.
Qed.

(** Nobody logs in with a Google token that was not granted: after any history of
    HTTP requests to a new service, in any environment, a token that [validateGoogle]
    accepts was the reply to one of these requests, less than an hour earlier, and
    that request carried the refresh token of the principal logged in or went to its
    metadata server with the metadata header. *)
Lemma google_login_needs_grant c key l now lst username password p :
  validateGoogle now (h_s (serve_all (HTTPHandler (newService c key)) l)) lst username password = Ok p →
  ∃ e r q, (e, r) ∈ l ∧ password = google_token (random e) ∧ google_grant (Principals c) r q ∧
    q ∈ Principals c ∧ ID q = ID p ∧ p ∈ Principals c ∧ now < clock e 0 + Hour ∧
    username = googleUsername (Email p) (Engine lst).
Proof.
  set (s := newService c key). intros (t & Ht & Hn & _ & Hp & _ & Hu)%validateGoogle_accepts.
  destruct (google_history_inv s l eq_refl password t Ht) as (e & r & q & Hin & -> & Hg & Hq & Hid & Hx & _).
  apply principal_Some in Hp as [Hp Hidp]. rewrite (proj1 (serve_all_frame _ _)) in Hp.
  exists e, r, q. split_and!; try done; [by rewrite <- Hid, Hidp|by rewrite <- Hx].
Qed.

(** ** Google: a grant gives a login *)
Lemma google_token_kept h tok t rest :
  googleTokens (h_s h) !! tok = Some t → Forall (λ er, google_token (random er.1) ≠ tok) rest →
  googleTokens (h_s (serve_all h rest)) !! tok = Some t.
Proof.
  revert h. induction rest as [|[e r] rest IH]; intros h Ht Hrest; [done|]. apply Forall_cons in Hrest as [Hr Hrest].
  unfold serve_all in *. cbn [foldl]. apply IH; [|done]. unfold serve_step. cbn [fst snd].
  destruct (serve_effect e r h) as [|ttl _|p scope _ _ _]; [done| |].
  - unfold put_token. by destruct (sweep e (h_imds h)).
  - cbn in *. by rewrite lookup_insert_ne.
Qed.

Definition oauth_path (p : gostring) : Prop := p = lit "/oauth2.googleapis.com/token" ∨ p = lit "/token".

Definition oauth_reply (token scope : gostring) : reply :=
  jsonReply ∅ 200 (jmap [(lit "access_token", JStr token); (lit "expires_in", jint 3600);
                         (lit "token_type", JStr (lit "Bearer")); (lit "scope", JStr scope)]).

Lemma serve_oauth e r h : oauth_path (r_path r) → serve e r h = googleOAuth e r h.
Proof. by unfold serve; intros [-> | ->]. Qed.

(** The request grants [p] a token of [scope]. *)
Definition oauth_grant (h : mockHTTP) (r : request) (p : Principal) (scope : gostring) : Prop :=
  r_method r = lit "POST" ∧ ∃ form, ParseForm r = Ok form ∧
    vget form (lit "grant_type") = lit "refresh_token" ∧
    refresh_principal h (vget form (lit "refresh_token")) = Some p ∧
    scope = or_default (vget form (lit "scope")) googleSQLScope ∧ scope_allowed scope = true.

(** Exactly the requests that grant are answered 200. *)
Lemma googleOAuth_grants e r h :
  w_status (googleOAuth e r h).1 = 200 ↔ ∃ p scope, oauth_grant h r p scope.
Proof.
  unfold googleOAuth, oauth_grant. split.
  - destruct (negb (r_method r =s _)) eqn:Hm; [done|]. apply negb_seq_eqb_false in Hm.
    destruct (ParseForm r) as [form| |] eqn:Hf; [|done..].
    destruct (negb (vget _ _ =s _)) eqn:Hg; [done|]. apply negb_seq_eqb_false in Hg.
    destruct (refresh_principal _ _) as [p|] eqn:Hp; [|done].
    destruct (negb (scope_allowed _)) eqn:Hs; [done|]. apply negb_false_iff in Hs. intros _.
    eexists p, _. split; [done|]. by exists form.
  - intros (p & scope & Hm & form & Hf & Hg & Hp & -> & Hs). by rewrite Hm, Hf, Hg, Hp, Hs.
Qed.

(** The reply, and the token's entry from then on. *)
Lemma googleOAuth_token e r h p scope rest :
  oauth_grant h r p scope → Forall (λ er, random er.1 ≠ random e) rest →
  let token := google_token (random e) in
  (googleOAuth e r h).1 = oauth_reply token scope ∧
  googleTokens (h_s (serve_all (googleOAuth e r h).2 rest)) !! token = Some (mkToken (ID p) scope (clock e 0 + Hour)).
Proof.
  intros (Hm & form & Hf & Hg & Hrp & -> & Hs) Hrest.
  unfold googleOAuth. rewrite Hm, Hf, Hg, Hrp, Hs. cbn [negb]. unfold issue_google, googleIssue.
  cbv beta iota. split; [done|]. apply google_token_kept; [exact (lookup_insert_eq _ _ _)|].
  eapply Forall_impl; [exact Hrest|]. cbn. intros [e' r'] Hne Heq. by apply Hne, google_token_inj.
Qed.

(** ** IMDS tokens *)
Lemma sweep_fold_subset e l st : (foldl (sweep_step e) st l).2 ⊆ st.2.
Proof.
  revert st. induction l as [|kv l IH]; intros [i m]; [done|]. cbn [foldl]. etrans; [apply IH|].
  cbn. destruct (negb _); [apply delete_subseteq|done].
Qed.

Lemma sweep_fold_live e l i m k x :
  m !! k = Some x → (∀ y, (k, y) ∈ l → y = x) → (∀ j, clock e j < x) →
  (foldl (sweep_step e) (i, m) l).2 !! k = Some x.
Proof.
  revert i m. induction l as [|[k' y] l IH]; intros i m Hm Hl Hx; [done|]. cbn [foldl sweep_step fst snd].
  apply IH; [|intros z Hz; apply Hl; by right|done].
  destruct (clock e i <? y) eqn:Hy; [done|]. cbn [negb]. apply Z.ltb_ge in Hy.
  rewrite lookup_delete_ne; [done|]. intros ->. rewrite (Hl y) in Hy by (by left).
  specialize (Hx i). lia.
Qed.

Lemma sweep_fold_expired e l i m k x :
  (k, x) ∈ l → (∀ j, x <= clock e j) → (foldl (sweep_step e) (i, m) l).2 !! k = None.
Proof.
  revert i m. induction l as [|[k' y] l IH]; intros i m Hin Hx; [by apply elem_of_nil in Hin|].
  cbn [foldl sweep_step fst snd]. apply elem_of_cons in Hin as [[= -> ->]|Hin]; [|by apply IH].
  rewrite (proj2 (Z.ltb_ge _ _)) by apply Hx. cbn [negb].
  destruct (_ !! k') eqn:Hk; [|done].
  eapply lookup_weaken in Hk; [|apply (sweep_fold_subset e l (S i, delete k' m))]. cbn in Hk.
  by rewrite lookup_delete_eq in Hk.
Qed.

(** The map is iterated in some order. *)
Definition permutes (e : env) : Prop := ∀ l, map_order e l ≡ₚ l.

Lemma permutes_elem e l kv : permutes e → kv ∈ map_order e l ↔ kv ∈ l.
Proof. intros Hp. pose proof (Hp l) as Hl. by rewrite Hl. Qed.

Lemma sweep_live e m k x :
  permutes e → m !! k = Some x → (∀ j, clock e j < x) → (sweep e m).2 !! k = Some x.
Proof.
  intros Hp Hm Hx. apply sweep_fold_live; [done| |done]. intros y Hy.
  apply (permutes_elem _ _ _ Hp), elem_of_map_to_list in Hy. congruence.
Qed.

Lemma sweep_expired e m k x :
  permutes e → m !! k = Some x → (∀ j, x <= clock e j) → (sweep e m).2 !! k = None.
Proof.
  intros Hp Hm Hx. eapply sweep_fold_expired; [|exact Hx]. by apply (permutes_elem _ _ _ Hp), elem_of_map_to_list.
Qed.

(** Where the entries of the map come from. *)
Definition imds_history (l : list (env * request)) (token : gostring) (expiry : Z) : Prop :=
  ∃ e r ttl i, (e, r) ∈ l ∧ token_request r ttl ∧ token = b64_encode (random e) ∧
    expiry = clock e i + ttl * Second.

Lemma imds_history_inv s l :
  map_Forall (imds_history l) (h_imds (serve_all (HTTPHandler s) l)).
Proof.
  apply (serve_all_inv (λ l h, map_Forall (imds_history l) (h_imds h))); [apply map_Forall_empty|].
  intros l' h e r h' HI _ Heff.
  assert (∀ tok t, imds_history l' tok t → imds_history (l' ++ [(e, r)]) tok t) as Hmono.
  { intros tok t (e0 & r0 & ttl & i & Hin & Hrest). exists e0, r0, ttl, i. split; [set_solver|done]. }
  destruct Heff as [|ttl Ht|p scope _ _ _].
  - eapply map_Forall_impl; [exact HI|done].
  - unfold put_token. pose proof (sweep_fold_subset e (map_order e (map_to_list (h_imds h))) (0%nat, h_imds h)) as Hsub.
    fold (sweep e (h_imds h)) in Hsub. destruct (sweep e (h_imds h)) as [n m]. cbn [h_imds snd] in *.
    apply map_Forall_insert_2; [exists e, r, ttl, n; split_and!; try done; set_solver|].
    eapply map_Forall_impl; [|exact Hmono]. intros k x Hk. apply (HI k x). by eapply lookup_weaken.
  - eapply map_Forall_impl; [exact HI|done].
Qed.

Definition imds_request (r : request) : Prop :=
  r_method r = lit "GET" ∧ has_prefix (r_path r) imds_prefix = true.

(** C24: After any history of requests, the instance metadata service hands out roles
    or credentials only to a GET with a token that an earlier PUT with a life of 1 to
    21600 seconds was given, and only before that life is over. *)
Theorem imds_credentials_need_token s l e r :
  let w := awsIMDSCredentials e r (serve_all (HTTPHandler s) l) in
  w_status w = 200 →
  r_method r = lit "GET" ∧
  ∃ e0 r0 ttl i, (e0, r0) ∈ l ∧ token_request r0 ttl ∧
    header_Get r (lit "X-Aws-Ec2-Metadata-Token") = b64_encode (random e0) ∧
    clock e 0 < clock e0 i + ttl * Second.
Proof.
  cbv zeta. unfold awsIMDSCredentials. destruct (negb (r_method r =s _)) eqn:Hm; [done|].
  apply negb_seq_eqb_false in Hm. destruct (_ !! _) as [x|] eqn:Hx; [|done].
  destruct (negb (clock e 0 <? x)) eqn:Hc; [done|]. apply negb_false_iff, Z.ltb_lt in Hc.
  intros _. split; [done|].
  destruct (imds_history_inv s l _ _ Hx) as (e0 & r0 & ttl & i & Hin & Ht & Htok & ->).
  by exists e0, r0, ttl, i.
Qed.

(** Later requests that leave a token alone: while it has not expired, whatever
    they ask, if they draw other random bytes. *)
Definition before (x : Z) (e : env) : Prop := permutes e ∧ ∀ j, clock e j < x.

Lemma imds_token_kept h tok x rest :
  h_imds h !! tok = Some x →
  Forall (λ er, before x er.1 ∧ b64_encode (random er.1) ≠ tok) rest →
  h_imds (serve_all h rest) !! tok = Some x.
Proof.
  revert h. induction rest as [|[e r] rest IH]; intros h Hx Hrest; [done|].
  apply Forall_cons in Hrest as [[[Hp Hb] Hr] Hrest]. unfold serve_all in *. cbn [foldl]. apply IH; [|done].
  unfold serve_step. cbn [fst snd] in *. destruct (serve_effect e r h) as [|ttl _|p scope _ _ _]; [done| |done].
  unfold put_token. pose proof (sweep_live e _ _ _ Hp Hx Hb) as Hk. destruct (sweep e (h_imds h)) as [n m].
  cbn in *. by rewrite lookup_insert_ne.
Qed.

Definition imds_credentials_reply (p : Principal) (now : Z) : reply :=
  jsonReply ∅ 200 (jmap
    [(lit "Code", JStr (lit "Success")); (lit "Type", JStr (lit "AWS-HMAC"));
     (lit "AccessKeyId", JStr (AWSAccessKey p)); (lit "SecretAccessKey", JStr (AWSSecretKey p));
     (lit "Token", JStr (AWSSessionToken p)); (lit "Expiration", JStr (rfc3339 (now + Hour)))]).

Lemma serve_token e r h : r_path r = imds_token_path → serve e r h = awsIMDSToken e r h.
Proof. unfold serve. by intros ->. Qed.

Lemma b64_encode_inj b b' : b64_encode b = b64_encode b' → b = b'.
Proof. intros Heq. pose proof (b64_decode_encode b) as Hb. pose proof (b64_decode_encode b') as Hb'. congruence. Qed.

(** A session token of the instance metadata service stays usable for its whole
    life: however the sweeps of later requests iterate the map, and whatever else is
    asked, a GET with the token before its expiry is answered with the credentials of
    the role. *)
Lemma imds_token_usable e r h ttl t0 rest e' r' p :
  token_request r ttl → (∀ j, t0 <= clock e j) →
  let expiry := t0 + ttl * Second in
  Forall (λ er, before expiry er.1 ∧ random er.1 ≠ random e) rest → clock e' 0 < expiry →
  imds_request r' → header_Get r' (lit "X-Aws-Ec2-Metadata-Token") = b64_encode (random e) →
  trim_prefix (r_path r') imds_prefix = ID p → ID p ≠ [] → aws_role h (ID p) = Some p →
  let '(w, h') := serve e r h in
  w_status w = 200 ∧ w_body w = b64_encode (random e) ∧
  awsIMDSCredentials e' r' (serve_all h' rest) = imds_credentials_reply p (clock e' 1).
Proof.
  intros (Hpath & Hm & Hatoi & H1 & H2) Ht0 expiry Hrest Hc (Hm' & _) Hh Hrole Hne Hp.
  rewrite serve_token by done. unfold awsIMDSToken. rewrite Hm, Hatoi, seq_eqb_refl. cbn [negb].
  rewrite (proj2 (Z.ltb_ge ttl 1)), (proj2 (Z.ltb_ge 21600 ttl)) by lia. cbn [orb].
  destruct (sweep e (h_imds h)) as [n m]. split; [done|]. split; [done|].
  set (h1 := mkHTTP _ _).
  assert (h_imds (serve_all h1 rest) !! b64_encode (random e) = Some (clock e n + ttl * Second)) as Hx.
  { apply imds_token_kept; [subst h1; cbn; by rewrite lookup_insert_eq|].
    eapply Forall_impl; [exact Hrest|]. intros [e1 r1] [[Hp1 Hb1] Hr1]. cbn [fst] in *.
    split; [split; [done|]|intros Heq; by apply Hr1, b64_encode_inj].
    intros j. specialize (Hb1 j). specialize (Ht0 n). subst expiry. lia. }
  unfold awsIMDSCredentials. rewrite Hm', Hh, Hx, Hrole.
  rewrite (proj2 (Z.ltb_lt _ _)) by (specialize (Ht0 n); subst expiry; lia). rewrite seq_eqb_refl. cbn [negb].
  unfold empty. rewrite bool_decide_false by done.
  assert (aws_role (serve_all h1 rest) (ID p) = Some p) as ->; [|done].
  unfold aws_role, principal in *. by rewrite (proj1 (serve_all_frame _ _)).
Qed.
(** ** The state stays well formed

    What the three fields of the handler's state may hold: the configuration and
    the key it was made with, Google tokens for principals of the configuration and
    the two scopes the endpoints give, IMDS tokens with the life that was asked for. *)
Record mock_wf (c : Config) (key : rsa_key) (l : list (env * request)) (h : mockHTTP) : Prop := {
  mw_config : svc_config (h_s h) = c;
  mw_key : azureKey (h_s h) = key;
  mw_google tok t : googleTokens (h_s h) !! tok = Some t →
    ∃ e r p, (e, r) ∈ l ∧ tok = google_token (random e) ∧ p ∈ Principals c ∧ google_grant (Principals c) r p ∧
      tok_principal t = ID p ∧ (tok_scope t = googleSQLScope ∨ tok_scope t = cloudPlatformScope) ∧
      tok_expiry t = clock e 0 + Hour;
  mw_imds tok x : h_imds h !! tok = Some x →
    ∃ e r ttl i, (e, r) ∈ l ∧ token_request r ttl ∧ tok = b64_encode (random e) ∧ x = clock e i + ttl * Second
}.

(** C25: Every history of HTTP requests leaves the service well formed: its
    configuration and key are those it was made with; every Google token is for a
    principal of the configuration that the request authorized, has one of the two
    database scopes and a life of one hour; every metadata session token has the life,
    of 1 to 21600 seconds, its PUT asked for. *)
Theorem serve_wf c key l : mock_wf c key l (serve_all (HTTPHandler (newService c key)) l).
Proof.
  split; [apply serve_all_frame..| |].
  - intros tok t Ht. destruct (google_history_inv (newService c key) l eq_refl tok t Ht)
      as (e & r & p & Hin & -> & Hg & Hp & Hid & Hx & Hs%scope_allowed_spec).
    by exists e, r, p.
  - intros tok x Hx. by apply (imds_history_inv (newService c key) l tok x).
Qed.
End serve.
