(* ===== verification/LoginSpec.v ===== *)
(** * From credentials to a login

    The endpoints hand out AWS credentials and Azure tokens; in a well-formed
    configuration these open exactly the listeners granted to their principal.
    A database user name of a Google listener names one principal. *)
From S2P Require Import Prelude Wire GoStrings NetAddr NetAddrSpec Sha256 Codec Json JsonSpec Rsa UrlLib GoTime Config ConfigSpec Identity IdentitySpec Aws AwsSpec ServiceSpec HttpMock HttpMockSpec.
#[local] Open Scope Z_scope.

Section login.
Context `{GoUnicode}.

Lemma wf_principal s p :
  WellFormed (svc_config s) → p ∈ Principals (svc_config s) → principal s (ID p) = Some p.
Proof. intros Hwf. apply principal_unique, wf_ids, Hwf. Qed.

(** Access keys name their principal. *)
Lemma aws_principal_unique s p :
  WellFormed (svc_config s) → p ∈ Principals (svc_config s) → AWSAccessKey p ≠ [] →
  aws_principal s (AWSAccessKey p) = Some p.
Proof.
  intros Hwf Hin Hk. pose proof (wf_keys _ Hwf) as HO. unfold aws_principal.
  induction HO as [|q ps Hq _ IH]; [by apply elem_of_nil in Hin|]. cbn.
  apply elem_of_cons in Hin as [<-|Hin]; [by rewrite decide_True|].
  rewrite Forall_forall in Hq. rewrite decide_False by (by apply Hq).
  specialize (IH Hin). destruct (list_find _ ps) as [[i x]|]; done.
Qed.

(** ** AWS: container credentials *)
Definition ecs_credentials_reply (p : Principal) (now : Z) : reply :=
  jsonReply ∅ 200 (jmap
    [(lit "RoleArn", JStr (lit "arn:aws:iam::123456789012:role/" ++ ID p));
     (lit "AccessKeyId", JStr (AWSAccessKey p)); (lit "SecretAccessKey", JStr (AWSSecretKey p));
     (lit "Token", JStr (AWSSessionToken p)); (lit "Expiration", JStr (rfc3339 (now + Hour)))]).

(** A request signed with credentials: the parameters carry the key, the scope
    of the listener and the session token. *)
Definition signed_with (p : Principal) (l : Listener) (username : gostring) (v : Values) : Prop :=
  single_valued v ∧ v !! signatureParam = None ∧ (size v + 1 < max_query_params)%nat ∧
  aws_parameters v username ∧
  split_byte (vget v (lit "X-Amz-Credential")) (chr "/") =
    [AWSAccessKey p; take 8 (vget v (lit "X-Amz-Date")); Region l; lit "rds-db"; lit "aws4_request"] ∧
  vget v (lit "X-Amz-Security-Token") = AWSSessionToken p.

Lemma aws_role_Some h id p :
  aws_role h id = Some p → p ∈ Principals (svc_config (h_s h)) ∧ ID p = id ∧ AWSAccessKey p ≠ [].
Proof.
  unfold aws_role. destruct (principal (h_s h) id) as [q|] eqn:Hq; [|done].
  destruct (has_key q) eqn:Hk; [|done]. intros [= <-]. apply principal_Some in Hq as [? ?].
  unfold has_key in Hk. apply negb_true_iff, bool_decide_eq_false in Hk. done.
Qed.

Lemma signed_login s p l h0 port username v path now1 now2 :
  WellFormed (svc_config s) → p ∈ Principals (svc_config s) → AWSAccessKey p ≠ [] →
  Provider l = aws → Granted p (Name l) = true →
  SplitHostPort (Listen l) = Ok (h0, port) → plain_host (Hostname l) → plain_port port →
  path = [] ∨ path = lit "/" → signed_with p l username v → aws_window v now1 now2 →
  let host := JoinHostPort (Hostname l) port in
  let sig := signature_for (AWSSecretKey p) (vget v (lit "X-Amz-Date")) (Region l) host v in
  svc_Validate now1 now2 s l username (sdk_token host path (awsQuery v) sig) = Ok p.
Proof.
  intros Hwf Hin Hk Hpr Hg Hsp Hh Hport Hpath (Hsv & Hns & Hsz & Hpar & Hcred & Htok) Hwin. cbv zeta.
  apply svc_Validate_Ok; [|done]. left. split; [done|]. apply validateAWS_spec.
  eapply signed_token_accepted; try done. exists (AWSAccessKey p).
  split; [done|]. split; [by apply aws_principal_unique|]. split; [|done].
  pose proof (wf_principals _ Hwf) as Hps. rewrite Forall_forall in Hps. by apply (Hps _ Hin).
Qed.

(** The container credential endpoint answers 200 only for a principal with an
    access key, and only with its authorization token if it has one, with the keys of
    that principal; a token signed with these keys passes [service.Validate] on every
    AWS listener granted to the principal. *)
Lemma container_credentials_login e r h :
  WellFormed (svc_config (h_s h)) → w_status (awsECSCredentials e r h) = 200 →
  ∃ p, awsECSCredentials e r h = ecs_credentials_reply p (clock e 0) ∧
    p ∈ Principals (svc_config (h_s h)) ∧ ID p = trim_prefix (r_path r) (lit "/v2/credentials/") ∧
    (ECSAuthorizationToken p = [] ∨ header_Get r (lit "Authorization") = ECSAuthorizationToken p) ∧
    ∀ l h0 port username v path now1 now2,
      Provider l = aws → Granted p (Name l) = true →
      SplitHostPort (Listen l) = Ok (h0, port) → plain_host (Hostname l) → plain_port port →
      path = [] ∨ path = lit "/" → signed_with p l username v → aws_window v now1 now2 →
      let host := JoinHostPort (Hostname l) port in
      let sig := signature_for (AWSSecretKey p) (vget v (lit "X-Amz-Date")) (Region l) host v in
      svc_Validate now1 now2 (h_s h) l username (sdk_token host path (awsQuery v) sig) = Ok p.
Proof.
  intros Hwf. unfold awsECSCredentials. destruct (negb (r_method r =s _)); [done|].
  destruct (_ || _); [done|]. destruct (aws_role h _) as [p|] eqn:Hp; [|done].
  apply aws_role_Some in Hp as (Hin & Hid & Hk). destruct (_ && _) eqn:Hauth; [done|].
  intros _. exists p. split; [done|]. split; [done|]. split; [done|]. split.
  - apply andb_false_iff in Hauth as [Hn%negb_false_iff|Hc%negb_false_iff].
    + left. by apply bool_decide_eq_true in Hn.
    + right. by apply bool_decide_eq_true in Hc.
  - intros. by eapply signed_login.
Qed.

(** ** Google: a user name is one principal's *)
Lemma no_clash_google c p q l :
  WellFormed c → granted_at c p l → granted_at c q l → Provider l = google →
  googleUsername (Email p) (Engine l) = googleUsername (Email q) (Engine l) → ID p = ID q.
Proof.
  intros Hwf Hp Hq Hg Heq. destruct (wf_no_clash _ Hwf p l q l Hp Hq) as (_ & Hclash & _).
  apply Hclash; [done..|]. unfold google_key. by rewrite Heq.
Qed.

Lemma Granted_spec p name : Granted p name = true ↔ name ∈ Grants p.
Proof.
  unfold Granted. rewrite existsb_exists. split.
  - intros (g & Hg & He). apply bool_decide_eq_true in He as ->. by apply list_elem_of_In.
  - intros Hg. exists name. split; [by apply list_elem_of_In|apply seq_eqb_refl].
Qed.

Lemma same_ID c p q : WellFormed c → p ∈ Principals c → q ∈ Principals c → ID p = ID q → p = q.
Proof.
  intros Hwf [i Hi]%list_elem_of_lookup_1 [j Hj]%list_elem_of_lookup_1 Heq.
  assert (i = j) as ->; [|congruence].
  apply (NoDup_lookup _ i j (ID q) (wf_ids _ Hwf)); rewrite list_lookup_fmap;
    [by rewrite Hi; cbn; f_equal|by rewrite Hj].
Qed.

(** C26: In a well-formed configuration a user name of a Google listener is one
    principal's: any two logins with the same user name, with whatever tokens and at
    whatever times, are of the same principal. *)
Theorem login_unambiguous s s' l now1 now2 now1' now2' username password password' p q :
  svc_config s = svc_config s' → WellFormed (svc_config s) → l ∈ Listeners (svc_config s) →
  Provider l = google →
  svc_Validate now1 now2 s l username password = Ok p →
  svc_Validate now1' now2' s' l username password' = Ok q → p = q.
Proof.
  intros Hc Hwf Hl Hg [Hp Hgp]%svc_Validate_inv [Hq Hgq]%svc_Validate_inv.
  pose proof (provider_accepts_principal _ _ _ _ _ _ _ Hp) as Hinp.
  pose proof (provider_accepts_principal _ _ _ _ _ _ _ Hq) as Hinq. rewrite <- Hc in Hinq.
  apply (same_ID _ _ _ Hwf Hinp Hinq). apply Granted_spec in Hgp, Hgq.
  apply (no_clash_google _ _ _ l Hwf); [done..|].
  destruct Hp as [[Ha _]|[[_ (t & _ & _ & _ & _ & _ & Hu)]|[Ha _]]]; [by rewrite Ha in Hg| |by rewrite Ha in Hg].
  destruct Hq as [[Ha _]|[[_ (t' & _ & _ & _ & _ & _ & Hu')]|[Ha _]]]; [by rewrite Ha in Hg| |by rewrite Ha in Hg].
  congruence.
Qed.

(** ** Google: the refresh token *)
Lemma granted_email c p l :
  WellFormed c → p ∈ Principals c → l ∈ Listeners c → Provider l = google → Granted p (Name l) = true → Email p ≠ [].
Proof.
  intros Hwf Hp Hl Hpr Hg%Granted_spec. destruct (wf_grants _ Hwf p (Name l) Hp Hg) as (l' & Hl' & Hn & He).
  apply He. left. by rewrite (NoDup_fmap_names _ _ _ (wf_names _ Hwf) Hl Hl' (eq_sym Hn)).
Qed.

(** A live token of the service is judged by the grants of its principal. *)
Lemma google_token_judged s l p t token now1 now2 :
  WellFormed (svc_config s) → p ∈ Principals (svc_config s) → l ∈ Listeners (svc_config s) → Provider l = google →
  googleTokens s !! token = Some t → tok_principal t = ID p → now1 < tok_expiry t → sql_scope (tok_scope t) →
  svc_Validate now1 now2 s l (googleUsername (Email p) (Engine l)) token =
    if Granted p (Name l) then Ok p else Err auth_failed.
Proof.
  intros Hwf Hp Hl Hpr Ht Hid Hexp Hsc. pose proof (wf_principal _ _ Hwf Hp) as Hprin.
  destruct (Granted p (Name l)) eqn:Hg.
  - apply svc_Validate_Ok; [|done]. right. left. split; [done|]. exists t. rewrite Hid.
    split_and!; try done. by eapply granted_email.
  - destruct (svc_Validate_cases now1 now2 s l (googleUsername (Email p) (Engine l)) token) as [(q & _ & Hq & Hgq & _)|[-> _]]; [|done].
    exfalso. destruct Hq as [[Ha _]|[[_ (t' & Ht' & _ & _ & Hq & _)]|[Ha _]]];
      [by rewrite Ha in Hpr| |by rewrite Ha in Hpr].
    rewrite Ht in Ht'. injection Ht' as <-. rewrite Hid, Hprin in Hq. injection Hq as <-. congruence.
Qed.

Lemma refresh_principal_elem h token p :
  refresh_principal h token = Some p → p ∈ Principals (svc_config (h_s h)) ∧ GoogleRefreshToken p = token ∧ token ≠ [].
Proof.
  unfold refresh_principal. intros ([i q] & Hl & ->)%fmap_Some. apply list_find_Some in Hl as (Hi & (Hne & Hs) & _).
  apply bool_decide_eq_true in Hs. cbn. split; [by eapply list_elem_of_lookup_2|]. by rewrite <- Hs.
Qed.

(** C21: In a well-formed configuration, the OAuth endpoint answers 200 only to a POST
    of the refresh token of a principal that asks for no scope or for one of the two
    database scopes; the token in the reply then decides logins by the grants: for an
    hour, as long as no later request is given the same random bytes, and whatever
    else the endpoints serve in between, [service.Validate] accepts it, with the
    principal's user name, on every Google listener granted to the principal, and
    refuses it on every other one. *)
Theorem google_oauth_login e r h :
  WellFormed (svc_config (h_s h)) → oauth_path (r_path r) → w_status (serve e r h).1 = 200 →
  ∃ p scope, oauth_grant h r p scope ∧ p ∈ Principals (svc_config (h_s h)) ∧
    let token := google_token (random e) in
    (serve e r h).1 = oauth_reply token scope ∧
    ∀ rest l now1 now2,
      Forall (λ er, random er.1 ≠ random e) rest → l ∈ Listeners (svc_config (h_s h)) → Provider l = google →
      now1 < clock e 0 + Hour →
      svc_Validate now1 now2 (h_s (serve_all (serve e r h).2 rest)) l (googleUsername (Email p) (Engine l)) token =
        if Granted p (Name l) then Ok p else Err auth_failed.
Proof.
  intros Hwf Hpath. rewrite serve_oauth by done. intros (p & scope & Hg)%googleOAuth_grants. exists p, scope.
  split; [done|]. pose proof Hg as (_ & form & _ & _ & [Hp _]%refresh_principal_elem & _ & Hs). split; [done|].
  pose proof (googleOAuth_token e r h p scope [] Hg (Forall_nil_2 _)) as [Hreply _]. split; [exact Hreply|].
  intros rest l now1 now2 Hrest Hl Hpr Hnow. pose proof (googleOAuth_token e r h p scope rest Hg Hrest) as [_ Ht].
  assert (svc_config (h_s (serve_all (googleOAuth e r h).2 rest)) = svc_config (h_s h)) as Hc.
  { rewrite (proj1 (serve_all_frame _ _)). rewrite <- (serve_oauth e r h) by done. by apply (effect_frame e r), serve_effect. }
  apply (google_token_judged _ _ _ (mkToken (ID p) scope (clock e 0 + Hour))); rewrite ?Hc; try done.
  by apply scope_allowed_sql.
Qed.

(** ** Azure: client credentials *)
Definition azure_oauth_reply (token : gostring) : reply :=
  jsonReply ∅ 200 (jmap [(lit "access_token", JStr token); (lit "expires_in", jint 3600);
                         (lit "ext_expires_in", jint 3600); (lit "token_type", JStr (lit "Bearer"))]).

(** The path of a token request: its first segment is the tenant, and its third from
    the end "oauth2". *)
Definition token_path (path tenant : gostring) : Prop :=
  ∃ mid a b, split_byte (trim path (chr "/")) (chr "/") = tenant :: mid ++ [lit "oauth2"; a; b].

Lemma token_path_iff path tenant :
  let parts := split_byte (trim path (chr "/")) (chr "/") in
  (length parts <? 4)%nat || negb (bool_decide (parts !! (length parts - 3)%nat = Some (lit "oauth2"))) = false ∧
    default [] (parts !! 0%nat) = tenant ↔
  token_path path tenant.
Proof.
  unfold token_path. cbv zeta. generalize (split_byte (trim path (chr "/")) (chr "/")). intros parts.
  rewrite orb_false_iff, Nat.ltb_ge, negb_false_iff, bool_decide_eq_true. split.
  - intros [[Hlen Hl] Ht]. destruct parts as [|t parts]; [cbn in Hlen; lia|]. cbn in Ht. subst t. cbn [length] in Hlen, Hl.
    replace (S (length parts) - 3)%nat with (S (length parts - 3))%nat in Hl by lia. cbn in Hl.
    apply list_elem_of_split_length in Hl as (mid & rest & -> & Hn). rewrite length_app in *. cbn [length] in *.
    destruct rest as [|a [|b [|]]]; cbn in *; try lia. by exists mid, a, b.
  - intros (mid & a & b & ->). cbn [length]. rewrite length_app. cbn [length]. split; [|done]. split; [lia|].
    replace (S (length mid + 3) - 3)%nat with (S (length mid)) by lia. cbn. by apply list_lookup_middle.
Qed.

(** The client proves to be the principal, in the tenant of the path, which is the one
    the principal is granted first. *)
Definition client_credentials (h : mockHTTP) (r : request) (p : Principal) (tenant : gostring) : Prop :=
  r_method r = lit "POST" ∧ p ∈ Principals (svc_config (h_s h)) ∧ token_path (r_path r) tenant ∧
  ∃ form, ParseForm r = Ok form ∧ vget form (lit "grant_type") = lit "client_credentials" ∧
    azureClientCredentialScope (vget form (lit "scope")) = true ∧
    AzureClientID p = vget form (lit "client_id") ∧ AzureClientSecret p ≠ [] ∧
    AzureClientSecret p = vget form (lit "client_secret") ∧ azureTenantFor h p = tenant.

Lemma azureOAuth_grants e r h :
  w_status (azureOAuth e r h) = 200 →
  ∃ p tenant, client_credentials h r p tenant ∧
    azureOAuth e r h = azure_oauth_reply (azureIssue (clock e 0) (h_s h) p tenant Hour).
Proof.
  unfold azureOAuth. destruct (negb (r_method r =s _)) eqn:Hm; [done|]. apply negb_seq_eqb_false in Hm.
  destruct (ParseForm r) as [form| |] eqn:Hf; [|done..]. cbv zeta.
  destruct ((length _ <? 4)%nat || _) eqn:Hpath; [done|].
  pose proof (proj1 (token_path_iff (r_path r) _) (conj Hpath eq_refl)) as Hten. clear Hpath.
  destruct (_ || _) eqn:Hg; [done|]. apply orb_false_iff in Hg as [Hgt%negb_seq_eqb_false Hsc%negb_false_iff].
  destruct (azure_client _ _ _ _) as [p|] eqn:Hp; [|done]. intros _.
  unfold azure_client in Hp. apply fmap_Some in Hp as ([i q] & Hl & ->).
  apply list_find_Some in Hl as (Hi & (Hid & Hne & Hs & Ht) & _). apply bool_decide_eq_true in Hs.
  exists q, (azureTenantFor h q). rewrite Ht. split; [|reflexivity]. split; [done|]. split; [by apply list_elem_of_lookup_2 in Hi|].
  split; [exact Hten|].
  exists form. by split_and!.
Qed.

(** The clock is far from the ends of the Unix times in 64 bits. *)
Definition sane_time (t : Z) : Prop := in_int64 (unix t) ∧ in_int64 (unix (t + Hour)).

(** C22: The Azure token endpoint answers 200 only to a request with the client id and
    the secret of a principal and the database scope, whose path starts with a tenant
    that is the tenant of the first Azure listener granted to that principal; the
    token in the reply, where the texts of its claims are valid UTF-8, then passes
    [service.Validate] on every listener of that tenant granted to the principal, for
    an hour, as its e-mail address or any of its groups. *)
Theorem client_credentials_login e r h :
  WellFormed (svc_config (h_s h)) → valid_key (azureKey (h_s h)) → sane_time (clock e 0) →
  w_status (azureOAuth e r h) = 200 →
  ∃ p tenant, client_credentials h r p tenant ∧
    let token := azureIssue (clock e 0) (h_s h) p tenant Hour in
    azureOAuth e r h = azure_oauth_reply token ∧
    (claims_text (h_s h) p tenant azureAudience → ∀ l username now1 now2,
       Provider l = azure → Tenant l = tenant → Granted p (Name l) = true →
       unix (clock e 0) <= unix now1 → unix now2 < unix (clock e 0 + Hour) →
       username = Email p ∨ username ∈ Groups p →
       svc_Validate now1 now2 (h_s h) l username token = Ok p).
Proof.
  intros Hwf Hk [Hn He] (p & tenant & Hc & Hreply)%azureOAuth_grants. exists p, tenant.
  split; [done|]. cbv zeta. split; [done|]. intros Htext l username now1 now2 Hpr <- Hg H1 H2 Hu.
  apply svc_Validate_Ok; [|done]. right. right. split; [done|]. apply validateAzure_accepts.
  apply azure_issued_accepted; try done. apply wf_principal; [done|]. by destruct Hc as (_ & ? & _).
Qed.

(** ** Azure: the managed identity *)
Lemma imds_identity_named id ps found :
  id ≠ [] →
  imds_identity id found ps =
    Some (match last (filter (λ c, AzureClientID c = id) ps) with Some p => Some p | None => found end).
Proof.
  intros Hid. revert found. induction ps as [|c ps IH]; intros found; [done|].
  cbn [imds_identity]. rewrite filter_cons. unfold empty at 2 3. rewrite (bool_decide_false (id = [])) by done.
  rewrite andb_false_r. cbn [orb]. unfold seq_eqb.
  destruct (decide (AzureClientID c = id)) as [<-|Hne].
  - rewrite (bool_decide_true (_ = _)) by done. unfold empty. rewrite bool_decide_false by done. cbn [negb andb].
    rewrite IH, last_cons. by destruct (last _).
  - rewrite (bool_decide_false (id = _)) by congruence. by rewrite andb_false_r, IH.
Qed.

Definition clients (h : mockHTTP) : list Principal :=
  filter (λ c, AzureClientID c ≠ []) (Principals (svc_config (h_s h))).

Lemma imds_identity_any ps found :
  imds_identity [] found ps =
    match found, filter (λ c, AzureClientID c ≠ []) ps with
    | f, [] => Some f
    | None, [p] => Some (Some p)
    | _, _ => None
    end.
Proof.
  revert found. induction ps as [|c ps IH]; intros found; [by destruct found|].
  cbn [imds_identity]. rewrite filter_cons. change (empty []) with true. cbn [orb]. rewrite !andb_true_r.
  unfold empty. destruct (decide (AzureClientID c ≠ [])) as [Hne|He].
  - rewrite bool_decide_false by done. cbn [negb]. destruct found as [q|]; [done|].
    cbn [bool_decide]. rewrite bool_decide_false by (by intros [? ?]). rewrite IH. by destruct (filter _ ps).
  - rewrite bool_decide_true by (by apply dec_stable). cbn [negb]. by rewrite IH.
Qed.

(** The managed identity a request names: the only one, or the one with the
    client id (the last, were there several). *)
Definition managed_identity (h : mockHTTP) (client_id : gostring) (p : Principal) : Prop :=
  if decide (client_id = []) then clients h = [p]
  else last (filter (λ c, AzureClientID c = client_id) (Principals (svc_config (h_s h)))) = Some p.

Definition imds_resource (resource : gostring) : Prop :=
  resource ∈ [azureAudience; managementAudience; coreAudience].

Definition azure_imds_reply (e : env) (p : Principal) (resource token : gostring) : reply :=
  jsonReply ∅ 200 (jmap
    [(lit "access_token", JStr token); (lit "client_id", JStr (AzureClientID p));
     (lit "expires_in", JStr (lit "3600")); (lit "expires_on", JStr (itoa (unix (clock e 1 + Hour))));
     (lit "not_before", JStr (itoa (unix (clock e 2)))); (lit "resource", JStr resource);
     (lit "token_type", JStr (lit "Bearer"))]).

Lemma azureIMDS_grants e r h :
  w_status (azureIMDS e r h) = 200 →
  let resource := query_Get r (lit "resource") in
  header_Get r (lit "Metadata") = lit "true" ∧ imds_resource resource ∧
  ∃ p, managed_identity h (query_Get r (lit "client_id")) p ∧ azureTenantFor h p ≠ [] ∧
    azureIMDS e r h = azure_imds_reply e p resource
      (azureIssueForAudience (clock e 0) (h_s h) p (azureTenantFor h p) resource Hour).
Proof.
  unfold azureIMDS. cbv zeta. destruct (negb (header_Get r _ =s _)) eqn:Hm; [done|].
  apply negb_seq_eqb_false in Hm. set (resource := query_Get r (lit "resource")).
  destruct (negb (resource =s azureAudience) && _ && _) eqn:Hr; [done|].
  set (id := query_Get r (lit "client_id")).
  destruct (imds_identity id None _) as [[p|]|] eqn:Hp; [|done..].
  destruct (empty (azureTenantFor h p)) eqn:Ht; [done|]. apply empty_false in Ht. intros _.
  split; [done|]. split; [by apply not_any3|]. exists p. split; [|split; [done|reflexivity]].
  unfold managed_identity, clients. destruct (decide (id = [])) as [Hid|Hid].
  - rewrite Hid, imds_identity_any in Hp. destruct (filter _ _) as [|q [|]]; [discriminate Hp| |discriminate Hp]. by injection Hp as ->.
  - rewrite imds_identity_named in Hp by done. destruct (last _); [by injection Hp as ->|discriminate Hp].
Qed.

(** C23: The Azure metadata endpoint issues a token only with its header, for one of
    three resources, and for the managed identity the request names, or the only one
    there is; such a token opens a database listener only if the resource is the
    database's, in the tenant of the identity, for that principal, within the hour,
    and where it is granted. *)
Theorem managed_identity_token e r h :
  valid_key (azureKey (h_s h)) → sane_time (clock e 0) → w_status (azureIMDS e r h) = 200 →
  let resource := query_Get r (lit "resource") in
  header_Get r (lit "Metadata") = lit "true" ∧ imds_resource resource ∧
  ∃ p, managed_identity h (query_Get r (lit "client_id")) p ∧
    let tenant := azureTenantFor h p in
    let token := azureIssueForAudience (clock e 0) (h_s h) p tenant resource Hour in
    azureIMDS e r h = azure_imds_reply e p resource token ∧
    (claims_text (h_s h) p tenant resource → ∀ l username now1 now2 q,
       Provider l = azure → svc_Validate now1 now2 (h_s h) l username token = Ok q →
       resource = azureAudience ∧ Tenant l = tenant ∧ ID q = ID p ∧ Email q = Email p ∧
       unix now2 < unix (clock e 0 + Hour) ∧ Granted q (Name l) = true).
Proof.
  intros Hk [Hn He] Hst. cbv zeta.
  destruct (azureIMDS_grants e r h Hst) as (Hm & Hr & p & Hp & Ht & Hreply).
  split; [done|]. split; [done|]. exists p. split; [done|]. split; [done|].
  intros Htext l username now1 now2 q Hpr [Hacc Hg]%svc_Validate_inv.
  destruct Hacc as [[Ha _]|[[Ha _]|[_ Hz]]]; [by rewrite Ha in Hpr..|].
  apply validateAzure_accepts, azure_issued_confined in Hz as (Haud & Hten & _ & H2 & Hpq & Hem & _); try done.
  apply principal_Some in Hpq as [_ Hid]. by split_and!.
Qed.

(** ** Azure: scopes *)
Definition resource_scope : gostring := azureAudience ++ lit "/.default".
Definition oidc_scopes : list gostring := lit <$> ["openid"; "offline_access"; "profile"]%string.

Lemma scope_words_spec n words :
  scope_words n words =
    if decide (Forall (λ w, w = resource_scope ∨ w ∈ oidc_scopes) words)
    then Some (n + Z.of_nat (length (filter (λ w, w = resource_scope) words))) else None.
Proof.
  revert n. induction words as [|w words IH]; intros n; [by rewrite decide_True, Z.add_0_r by constructor|].
  cbn [scope_words]. rewrite filter_cons. unfold resource_scope in *.
  destruct (decide (w = azureAudience ++ lit "/.default")) as [Hw|Hw].
  - rewrite Hw at 1. rewrite seq_eqb_refl, IH. destruct (decide (Forall _ words)) as [Hf|Hf].
    + rewrite decide_True by (constructor; auto). f_equal. cbn [length]. lia.
    + rewrite decide_False; [done|]. by intros [_ ?]%Forall_cons.
  - unfold seq_eqb at 1. rewrite bool_decide_false by done.
    destruct (_ || _) eqn:Ho.
    + rewrite IH. assert (w ∈ oidc_scopes) as Hin.
      { unfold seq_eqb in Ho. rewrite !orb_true_iff, !bool_decide_eq_true in Ho.
        unfold oidc_scopes. cbn. set_solver. }
      destruct (decide (Forall _ words)) as [Hf|Hf]; [by rewrite decide_True by (constructor; auto)|].
      rewrite decide_False; [done|]. by intros [_ ?]%Forall_cons.
    + rewrite decide_False; [done|]. intros [[?|Hin] _]%Forall_cons; [done|].
      unfold seq_eqb in Ho. rewrite !orb_false_iff, !bool_decide_eq_false in Ho.
      unfold oidc_scopes in Hin. cbn in Hin. set_solver.
Qed.

(** A scope is accepted for client credentials exactly when its words are the
    database scope and OIDC scopes, with the database scope exactly once. *)
Lemma azureClientCredentialScope_iff scope :
  azureClientCredentialScope scope = true ↔
  Forall (λ w, w = resource_scope ∨ w ∈ oidc_scopes) (fields scope) ∧
  ∃ a b, fields scope = a ++ resource_scope :: b ∧ resource_scope ∉ a ++ b.
Proof.
  unfold azureClientCredentialScope. rewrite scope_words_spec. case_decide as Hf; [|naive_solver].
  rewrite Z.eqb_eq, Z.add_0_l. change 1 with (Z.of_nat 1). rewrite Nat2Z.inj_iff. split.
  - intros Hlen. split; [done|].
    assert (resource_scope ∈ fields scope) as Hin.
    { destruct (filter _ _) as [|x l] eqn:Hx; [done|].
      assert (x ∈ filter (λ w, w = resource_scope) (fields scope)) as Hxin by (rewrite Hx; left).
      by apply list_elem_of_filter in Hxin as [-> ?]. }
    apply list_elem_of_split in Hin as (a & b & Heq). exists a, b. split; [done|].
    rewrite Heq, filter_app, filter_cons, decide_True, length_app in Hlen by done. cbn in Hlen.
    rewrite elem_of_app. intros [H1|H1].
    all: assert (∀ l, resource_scope ∈ l → length (filter (λ w, w = resource_scope) l) ≠ 0%nat) as Hnz
      by (intros l Hl; assert (resource_scope ∈ filter (λ w, w = resource_scope) l) as Hm
            by (by apply list_elem_of_filter); by destruct (filter _ l); [apply elem_of_nil in Hm|]).
    all: specialize (Hnz _ H1); lia.
  - intros (_ & a & b & -> & Hn). rewrite filter_app, filter_cons, decide_True, length_app by done.
    assert (∀ l, resource_scope ∉ l → filter (λ w, w = resource_scope) l = []) as Hz.
    { intros l Hl. induction l as [|x l IH]; [done|]. rewrite filter_cons, decide_False; [apply IH; set_solver|].
      intros ->. set_solver. }
    rewrite elem_of_app in Hn. rewrite !Hz by tauto. done.
Qed.
End login.
