(* ===== verification/Memconn.v ===== *)
(** * In-memory connections (src/iamproxy/memconn.go)

    One direction of a connection is a buffer shared by the goroutines that
    read, write, close it and set its deadlines.  A call of [read] or [write]
    runs in critical sections of the mutex, between which it waits on the channel
    [changed]; a section is a function, and the interleaving of the sections of
    any number of calls is a step relation.

    The channel is counted: [changed] is the number of broadcasts so far, and the
    channel a waiter took is closed once the count is above what it was. *)
From S2P Require Import Prelude.
#[local] Open Scope Z_scope.

Definition memBufferLimit : Z := 2 ^ 20.

(** A deadline; [None] is the zero time, no deadline. *)
Abbreviation deadline := (option Z).

Record memBuffer := mkBuffer {
  data : list byte;
  writeClosed : bool;
  readClosed : bool;
  changed : nat;
  readDeadline : deadline;
  writeDeadline : deadline
}.

Definition newMemBuffer : memBuffer := mkBuffer [] false false 0 None None.

Definition broadcast (b : memBuffer) : memBuffer :=
  mkBuffer (data b) (writeClosed b) (readClosed b) (S (changed b)) (readDeadline b) (writeDeadline b).
Definition with_data (d : list byte) (b : memBuffer) : memBuffer :=
  mkBuffer d (writeClosed b) (readClosed b) (changed b) (readDeadline b) (writeDeadline b).

(** [update(f)] for each [f] of the program. *)
Inductive change :=
  | CloseRead | CloseWrite
  | SetReadDeadline (t : deadline) | SetWriteDeadline (t : deadline).

Definition apply_change (f : change) (b : memBuffer) : memBuffer :=
  match f with
  | CloseRead => mkBuffer (data b) (writeClosed b) true (changed b) (readDeadline b) (writeDeadline b)
  | CloseWrite => mkBuffer (data b) true (readClosed b) (changed b) (readDeadline b) (writeDeadline b)
  | SetReadDeadline t => mkBuffer (data b) (writeClosed b) (readClosed b) (changed b) t (writeDeadline b)
  | SetWriteDeadline t => mkBuffer (data b) (writeClosed b) (readClosed b) (changed b) (readDeadline b) t
  end.
Definition update (f : change) (b : memBuffer) : memBuffer := broadcast (apply_change f b).

Definition expired (now : Z) (d : deadline) : bool :=
  match d with Some t => negb (now <? t) | None => false end.

(** ** One critical section

    It ends with a return of the call, or by waiting for a change: with the
    channel's count and the deadline of the timer.  [now1] and [now2] are the
    clock at the test of the deadline and in [wait]. *)
Inductive outcome (A : Type) :=
  | Return (a : A)
  | Wait (ch : nat) (timer : deadline).
Arguments Return {_} _.
Arguments Wait {_} _ _.

Definition wait {A} (now : Z) (d : deadline) (on_timeout : A) (b : memBuffer) : outcome A :=
  if expired now d then Return on_timeout else Wait (changed b) d.

(** The result of a read: the bytes, or an error. *)
Definition read_result := res (list byte).

Definition read_section (now1 now2 : Z) (n : nat) (b : memBuffer) : outcome read_result * memBuffer :=
  if readClosed b then (Return (Err net_ErrClosed), b)
  else if expired now1 (readDeadline b) then (Return (Err os_ErrDeadlineExceeded), b)
  else if negb (bool_decide (data b = [])) then
    (Return (Ok (take n (data b))), broadcast (with_data (drop n (data b)) b))
  else if writeClosed b then (Return (Err io_EOF), b)
  else (wait now2 (readDeadline b) (Err os_ErrDeadlineExceeded) b, b).

(** The result of a write: how many bytes were taken, and the error if any. *)
Definition write_result := (nat * option goerr)%type.

Definition room (b : memBuffer) : Z := memBufferLimit - Z.of_nat (length (data b)).

(** The loop of [write]; its iterations test the clock in turn.  The fuel is one
    more than the bytes left, since an iteration that goes on takes a byte. *)
Fixpoint write_loop (fuel : nat) (now : nat → Z) (p : list byte) (written : nat) (b : memBuffer)
    : option (outcome write_result * nat * memBuffer) :=
  if (length p <=? written)%nat then Some (Return (written, None), written, b)
  else match fuel with
  | O => None
  | S fuel =>
     if writeClosed b then Some (Return (written, Some net_ErrClosed), written, b)
     else if readClosed b then Some (Return (written, Some io_ErrClosedPipe), written, b)
     else if expired (now 0%nat) (writeDeadline b)
     then Some (Return (written, Some os_ErrDeadlineExceeded), written, b)
     else if 0 <? room b then
       let n := Z.min (room b) (Z.of_nat (length p - written)) in
       let chunk := take (Z.to_nat n) (drop written p) in
       write_loop fuel (now ∘ S) p (written + Z.to_nat n) (broadcast (with_data (data b ++ chunk) b))
     else Some (wait (now 1%nat) (writeDeadline b) (written, Some os_ErrDeadlineExceeded) b, written, b)
  end.

Definition write_section (now : nat → Z) (p : list byte) (written : nat) (b : memBuffer)
    : option (outcome write_result * nat * memBuffer) :=
  write_loop (S (length p - written)) now p written b.

(** ** The calls in flight

    A call is ready to take the mutex, waits with its channel and timer, or has
    returned.  The ghost fields [sent] and [received] collect the bytes that the
    sections moved. *)
Inductive call :=
  | Reading (n : nat)
  | ReadWaits (n : nat) (ch : nat) (timer : deadline)
  | ReadDone (r : read_result)
  | Writing (p : list byte) (written : nat)
  | WriteWaits (p : list byte) (written : nat) (ch : nat) (timer : deadline)
  | WriteDone (p : list byte) (r : write_result).

Record mem := mkMem {
  buf : memBuffer;
  calls : gmap nat call;
  sent : list byte;
  received : list byte
}.

Definition mem_init : mem := mkMem newMemBuffer ∅ [] [].

Definition after_read (n : nat) (o : outcome read_result) : call :=
  match o with Return r => ReadDone r | Wait ch d => ReadWaits n ch d end.
Definition after_write (p : list byte) (written : nat) (o : outcome write_result) : call :=
  match o with Return r => WriteDone p r | Wait ch d => WriteWaits p written ch d end.

Definition read_bytes (o : outcome read_result) : list byte :=
  match o with Return (Ok bs) => bs | _ => [] end.

Definition set_call (t : nat) (c : call) (m : mem) : mem :=
  mkMem (buf m) (<[t := c]> (calls m)) (sent m) (received m).

Inductive mem_step : mem → mem → Prop :=
  | step_read m t n :
      calls m !! t = None → mem_step m (set_call t (Reading n) m)
  | step_write m t p :
      calls m !! t = None → mem_step m (set_call t (Writing p 0) m)
  | step_read_section m t n now1 now2 o b :
      calls m !! t = Some (Reading n) → read_section now1 now2 n (buf m) = (o, b) →
      mem_step m (mkMem b (<[t := after_read n o]> (calls m)) (sent m) (received m ++ read_bytes o))
  | step_write_section m t p written now o written' b :
      calls m !! t = Some (Writing p written) →
      write_section now p written (buf m) = Some (o, written', b) →
      mem_step m (mkMem b (<[t := after_write p written' o]> (calls m))
                    (sent m ++ take (written' - written) (drop written p)) (received m))
  | step_read_wake m t n ch d :
      calls m !! t = Some (ReadWaits n ch d) → (ch < changed (buf m))%nat →
      mem_step m (set_call t (Reading n) m)
  | step_write_wake m t p written ch d :
      calls m !! t = Some (WriteWaits p written ch d) → (ch < changed (buf m))%nat →
      mem_step m (set_call t (Writing p written) m)
  | step_read_timeout m t n ch d now :
      calls m !! t = Some (ReadWaits n ch (Some d)) → d <= now →
      mem_step m (set_call t (ReadDone (Err os_ErrDeadlineExceeded)) m)
  | step_write_timeout m t p written ch d now :
      calls m !! t = Some (WriteWaits p written ch (Some d)) → d <= now →
      mem_step m (set_call t (WriteDone p (written, Some os_ErrDeadlineExceeded)) m)
  | step_update m f :
      mem_step m (mkMem (update f (buf m)) (calls m) (sent m) (received m)).

Definition mem_reachable : mem → Prop := rtc mem_step mem_init.

(** ** The two ends

    [memPipe] makes two buffers; the client reads the first and writes the
    second, the server the other way round.  [Close] of an end updates both, each
    in its own section, and does so once. *)
Inductive side := client | server.

Record pipe := mkPipe { pipe_a : mem; pipe_b : mem; client_closed : bool; server_closed : bool }.
Definition memPipe : pipe := mkPipe mem_init mem_init false false.

Definition conn_in (c : side) (p : pipe) : mem := match c with client => pipe_a p | server => pipe_b p end.
Definition conn_out (c : side) (p : pipe) : mem := match c with client => pipe_b p | server => pipe_a p end.
Definition closeOnce (c : side) (p : pipe) : bool :=
  match c with client => client_closed p | server => server_closed p end.

Definition update_mem (f : change) (m : mem) : mem :=
  mkMem (update f (buf m)) (calls m) (sent m) (received m).

Definition Close (c : side) (p : pipe) : pipe :=
  if closeOnce c p then p
  else match c with
  | client => mkPipe (update_mem CloseRead (pipe_a p)) (update_mem CloseWrite (pipe_b p)) true (server_closed p)
  | server => mkPipe (update_mem CloseWrite (pipe_a p)) (update_mem CloseRead (pipe_b p)) (client_closed p) true
  end.

Definition SetReadDeadline_conn (c : side) (t : deadline) (p : pipe) : pipe :=
  match c with
  | client => mkPipe (update_mem (SetReadDeadline t) (pipe_a p)) (pipe_b p) (client_closed p) (server_closed p)
  | server => mkPipe (pipe_a p) (update_mem (SetReadDeadline t) (pipe_b p)) (client_closed p) (server_closed p)
  end.
Definition SetWriteDeadline_conn (c : side) (t : deadline) (p : pipe) : pipe :=
  match c with
  | client => mkPipe (pipe_a p) (update_mem (SetWriteDeadline t) (pipe_b p)) (client_closed p) (server_closed p)
  | server => mkPipe (update_mem (SetWriteDeadline t) (pipe_a p)) (pipe_b p) (client_closed p) (server_closed p)
  end.
Definition SetDeadline (c : side) (t : deadline) (p : pipe) : pipe :=
  SetWriteDeadline_conn c t (SetReadDeadline_conn c t p).
