(* ===== verification/MemconnSpec.v ===== *)
(** * In-memory connections: a bounded stream in order, and no waiter forgotten *)
From S2P Require Import Prelude Memconn.
#[local] Open Scope Z_scope.

(** ** The loop of a write *)
(** What the sections leave of a buffer besides its data and its count. *)
Definition same_flags (b b' : memBuffer) : Prop :=
  writeClosed b' = writeClosed b ∧ readClosed b' = readClosed b ∧
  readDeadline b' = readDeadline b ∧ writeDeadline b' = writeDeadline b.

Definition open_buffer (b : memBuffer) : Prop := writeClosed b = false ∧ readClosed b = false.

Record write_post (p : list byte) (w : nat) (b : memBuffer) (o : outcome write_result) (w' : nat) (b' : memBuffer)
    : Prop := {
  wp_range : (w ≤ w' ≤ length p)%nat;
  wp_data : data b' = data b ++ take (w' - w) (drop w p);
  wp_bound : Z.of_nat (length (data b')) <= memBufferLimit;
  wp_flags : same_flags b b';
  wp_open : w' ≠ w → open_buffer b;
  wp_same : (w' = w ∧ b' = b) ∨ ((w < w')%nat ∧ (changed b < changed b')%nat);
  wp_outcome : match o with
               | Return (k, None) => k = w' ∧ w' = length p
               | Return (k, Some _) => k = w' ∧ (w' < length p)%nat
               | Wait ch d => ch = changed b' ∧ d = writeDeadline b' ∧ open_buffer b' ∧ room b' <= 0 ∧
                              (w' < length p)%nat
               end
}.

Lemma write_loop_spec fuel now p w b :
  (w ≤ length p)%nat → Z.of_nat (length (data b)) <= memBufferLimit → (length p - w < fuel)%nat →
  ∃ o w' b', write_loop fuel now p w b = Some (o, w', b') ∧ write_post p w b o w' b'.
Proof.
  revert now w b. induction fuel as [|fuel IH]; intros now w b Hw Hb Hf; [lia|]. cbn [write_loop].
  assert (∀ o, match o with
    | Return (k, None) => k = w ∧ w = length p
    | Return (k, Some _) => k = w ∧ (w < length p)%nat
    | Wait ch d => ch = changed b ∧ d = writeDeadline b ∧ open_buffer b ∧ room b <= 0 ∧ (w < length p)%nat
    end → write_post p w b o w b) as Hstay.
  { intros o Ho. split; [lia| |done|done|done|by left|exact Ho].
    by rewrite Nat.sub_diag, take_0, app_nil_r. }
  destruct (length p <=? w)%nat eqn:Hle.
  { apply Nat.leb_le in Hle. exists (Return (w, None)), w, b. split; [done|]. apply Hstay. lia. }
  apply Nat.leb_gt in Hle.
  destruct (writeClosed b) eqn:Hwc; [eexists _, w, b; split; [done|by apply Hstay]|].
  destruct (readClosed b) eqn:Hrc; [eexists _, w, b; split; [done|by apply Hstay]|].
  destruct (expired (now 0%nat) (writeDeadline b)); [eexists _, w, b; split; [done|by apply Hstay]|].
  destruct (0 <? room b) eqn:Hr.
  - apply Z.ltb_lt in Hr. set (n := Z.to_nat (Z.min (room b) (Z.of_nat (length p - w)))).
    assert (1 ≤ n ≤ length p - w)%nat as Hn by lia.
    assert (Z.of_nat n <= room b) as Hnr by lia.
    set (chunk := take n (drop w p)). set (b1 := broadcast (with_data (data b ++ chunk) b)).
    assert (length chunk = n) as Hlen by (subst chunk; rewrite length_take, length_drop; lia).
    destruct (IH (now ∘ S) (w + n)%nat b1) as (o & w' & b' & Heq & [Hrange Hdata Hbound Hflags Hopen Hsame Hout]).
    { lia. } { cbn. rewrite length_app, Hlen. unfold room in Hnr. lia. } { lia. }
    exists o, w', b'. split; [exact Heq|]. split; [lia| |done| | | |done].
    + rewrite Hdata. subst b1. cbn. rewrite <- app_assoc. f_equal. subst chunk.
      replace (w' - w)%nat with (n + (w' - (w + n)))%nat by lia.
      by rewrite <- take_take_drop, drop_drop.
    + exact Hflags.
    + intros _. done.
    + right. split; [lia|]. destruct Hsame as [[_ ->]|[_ Hc]]; subst b1; cbn in *; lia.
  - apply Z.ltb_ge in Hr. eexists _, w, b. split; [done|]. apply Hstay. unfold wait.
    destruct (expired _ _); [lia|]. by split_and!.
Qed.

Lemma write_section_spec now p w b :
  (w ≤ length p)%nat → Z.of_nat (length (data b)) <= memBufferLimit →
  ∃ o w' b', write_section now p w b = Some (o, w', b') ∧ write_post p w b o w' b'.
Proof. intros. apply write_loop_spec; lia || done. Qed.

(** ** A read *)
Record read_post (n : nat) (b : memBuffer) (o : outcome read_result) (b' : memBuffer) : Prop := {
  rp_data : data b = read_bytes o ++ data b';
  rp_flags : same_flags b b';
  rp_same : b' = b ∨ (changed b < changed b')%nat;
  rp_outcome : match o with
               | Return (Ok bs) => (length bs ≤ n)%nat ∧ readClosed b = false
               | Return (Err e) => b' = b ∧ (e = io_EOF → data b = [] ∧ writeClosed b = true)
               | Return Panic => False
               | Wait ch d => ch = changed b ∧ d = readDeadline b ∧ b' = b ∧ open_buffer b ∧ data b = []
               end
}.

Lemma read_section_spec now1 now2 n b o b' :
  read_section now1 now2 n b = (o, b') → read_post n b o b'.
Proof.
  unfold read_section, wait. intros Heq.
  destruct (readClosed b) eqn:Hr; [injection Heq as <- <-; by split; [..|auto|]|].
  destruct (expired now1 _); [injection Heq as <- <-; by split; [..|auto|]|].
  destruct (negb _) eqn:Hd.
  { injection Heq as <- <-. split; [cbn; by rewrite take_drop|done|right; cbn; lia|].
    split; [rewrite length_take; lia|done]. }
  apply negb_false_iff, bool_decide_eq_true in Hd.
  destruct (writeClosed b) eqn:Hw; [injection Heq as <- <-; by split; [..|auto|]|].
  destruct (expired now2 _); injection Heq as <- <-; split; try done; auto.
Qed.

(** The bytes a call has taken from its caller, and given to it. *)
Definition taken (c : call) : nat :=
  match c with Writing _ w | WriteWaits _ w _ _ | WriteDone _ (w, _) => w | _ => 0%nat end.
Definition given (c : call) : nat :=
  match c with ReadDone (Ok bs) => length bs | _ => 0%nat end.

(** ** The invariant *)
Definition call_ok (b : memBuffer) (c : call) : Prop :=
  match c with
  | Reading _ => True
  | ReadWaits _ ch d => (ch ≤ changed b)%nat ∧ (ch = changed b → data b = [] ∧ open_buffer b ∧ d = readDeadline b)
  | ReadDone r => r = Err io_EOF → writeClosed b = true ∧ data b = []
  | Writing p w => (w ≤ length p)%nat
  | WriteWaits p w ch d =>
     (ch ≤ changed b)%nat ∧ (w < length p)%nat ∧
     (ch = changed b → room b <= 0 ∧ open_buffer b ∧ d = writeDeadline b)
  | WriteDone p (k, None) => k = length p
  | WriteDone p (k, Some _) => (k < length p)%nat
  end.

Record mem_inv (m : mem) : Prop := {
  mi_stream : sent m = received m ++ data (buf m);
  mi_bound : Z.of_nat (length (data (buf m))) <= memBufferLimit;
  mi_calls : map_Forall (λ _ c, call_ok (buf m) c) (calls m);
  mi_sent : length (sent m) = total taken (calls m);
  mi_received : length (received m) = total given (calls m)
}.

(** How a section changes the buffer under the other calls. *)
Definition evolves (b b' : memBuffer) : Prop :=
  (b' = b ∨ (changed b < changed b')%nat) ∧
  (writeClosed b = true → data b = [] → writeClosed b' = true ∧ data b' = []).

Lemma call_ok_evolves b b' c : evolves b b' → call_ok b c → call_ok b' c.
Proof.
  intros [[->|Hch] Hclosed]; [done|]. destruct c as [n|n ch d|r|p w|p w ch d|p [k [e|]]]; cbn; try done.
  - intros [Hle _]. split; [lia|]. intros ->. lia.
  - intros Hr Heq. destruct (Hr Heq) as [H1 H2]. exact (Hclosed H1 H2).
  - intros (Hle & Hw & _). split_and!; [lia|done|]. intros ->. lia.
Qed.

Lemma update_evolves f b : evolves b (update f b).
Proof. split; [right; destruct f; cbn; lia|by destruct f]. Qed.

Lemma update_data f b : data (update f b) = data b.
Proof. by destruct f. Qed.

Lemma write_evolves p w b o w' b' : write_post p w b o w' b' → evolves b b'.
Proof.
  intros [_ _ _ Hflags Hopen Hsame _]. destruct Hsame as [[_ ->]|[Hlt Hch]]; [split; [by left|done]|].
  split; [by right|]. destruct Hopen as [Hw _]; [lia|]. congruence.
Qed.

Lemma read_evolves n b o b' : read_post n b o b' → evolves b b'.
Proof.
  intros [Hdata (Hw & _) Hsame _]. split; [done|]. intros Hc He. rewrite Hw. split; [done|].
  rewrite He in Hdata. by symmetry in Hdata; apply app_nil in Hdata as [_ ?].
Qed.

Lemma calls_update b b' (t : nat) c (cs : gmap nat call) :
  evolves b b' → map_Forall (λ _ c, call_ok b c) cs → call_ok b' c →
  map_Forall (λ _ c, call_ok b' c) (<[t := c]> cs).
Proof.
  intros He Hcs Hc. apply map_Forall_insert_2; [done|]. eapply map_Forall_impl; [exact Hcs|].
  intros t' c'. by apply call_ok_evolves.
Qed.

Lemma evolves_refl b : evolves b b.
Proof. split; auto. Qed.

(** A step that only moves a call on, without bytes. *)
Lemma set_call_inv m t c c' :
  mem_inv m → calls m !! t = Some c → taken c' = taken c → given c' = given c → call_ok (buf m) c' →
  mem_inv (set_call t c' m).
Proof.
  intros [Hs Hb Hc Hsent Hrecv] Ht Htk Hgv Hok. split; cbn; [done|done| | |].
  - eapply calls_update; [apply evolves_refl|done|done].
  - pose proof (total_update taken _ _ _ c' Ht). lia.
  - pose proof (total_update given _ _ _ c' Ht). lia.
Qed.

Lemma start_inv m t c :
  mem_inv m → calls m !! t = None → taken c = 0%nat → given c = 0%nat → call_ok (buf m) c →
  mem_inv (set_call t c m).
Proof.
  intros [Hs Hb Hc Hsent Hrecv] Ht Htk Hgv Hok. split; cbn; [done|done| | |].
  - eapply calls_update; [apply evolves_refl|done|done].
  - rewrite total_insert by done. lia.
  - rewrite total_insert by done. lia.
Qed.

Lemma read_section_inv m t n now1 now2 o b :
  mem_inv m → calls m !! t = Some (Reading n) → read_section now1 now2 n (buf m) = (o, b) →
  mem_inv (mkMem b (<[t := after_read n o]> (calls m)) (sent m) (received m ++ read_bytes o)).
Proof.
  intros [Hs Hb Hc Hsent Hrecv] Ht Hr%read_section_spec.
  pose proof (read_evolves _ _ _ _ Hr) as Hev. destruct Hr as [Hdata Hflags _ Hout].
  pose proof (total_update taken _ _ _ (after_read n o) Ht) as H1.
  pose proof (total_update given _ _ _ (after_read n o) Ht) as H2. cbn in H1, H2.
  split; cbn [buf calls sent received].
  - by rewrite Hs, Hdata, app_assoc.
  - apply (f_equal length) in Hdata. rewrite length_app in Hdata. lia.
  - eapply calls_update; [done|done|]. destruct o as [[bs|e|]|ch d]; cbn in *; try done.
    + intros [= ->]. destruct Hout as [-> Hout]. by destruct (Hout eq_refl).
    + destruct Hout as (-> & -> & -> & Ho & Hd). split; [lia|done].
  - by destruct o as [[|e|]|ch d]; cbn in *; lia.
  - rewrite length_app. by destruct o as [[|e|]|ch d]; cbn in *; lia.
Qed.

Lemma write_section_inv m t p w now o w' b :
  mem_inv m → calls m !! t = Some (Writing p w) → write_section now p w (buf m) = Some (o, w', b) →
  mem_inv (mkMem b (<[t := after_write p w' o]> (calls m))
             (sent m ++ take (w' - w) (drop w p)) (received m)).
Proof.
  intros [Hs Hb Hc Hsent Hrecv] Ht Heq.
  assert (w ≤ length p)%nat as Hw by apply (map_Forall_lookup_1 _ _ _ _ Hc Ht).
  destruct (write_section_spec now p w (buf m) Hw Hb) as (o1 & w1 & b1 & Heq1 & Hpost).
  rewrite Heq in Heq1. injection Heq1 as <- <- <-.
  pose proof (write_evolves _ _ _ _ _ _ Hpost) as Hev. destruct Hpost as [Hrange Hdata Hbound _ _ _ Hout].
  pose proof (total_update taken _ _ _ (after_write p w' o) Ht) as H1.
  pose proof (total_update given _ _ _ (after_write p w' o) Ht) as H2.
  assert (taken (after_write p w' o) = w' ∧ given (after_write p w' o) = 0%nat) as [Htk Hgv].
  { destruct o as [[k [e|]]|ch d]; cbn in *; intuition congruence. }
  cbn in H1, H2. split; cbn [buf calls sent received].
  - by rewrite Hs, Hdata, app_assoc.
  - done.
  - eapply calls_update; [done|done|]. destruct o as [[k [e|]]|ch d]; cbn in *.
    + by destruct Hout as [-> ?].
    + by destruct Hout as [-> ->].
    + destruct Hout as (-> & Hd & Ho & Hr & Hlt). split_and!; [lia|done|done].
  - rewrite length_app, length_take, length_drop. lia.
  - lia.
Qed.

Lemma mem_step_inv m m' : mem_step m m' → mem_inv m → mem_inv m'.
Proof.
  intros Hstep HI. destruct Hstep as [m t n Ht|m t p Ht|m t n now1 now2 o b Ht Hr|m t p w now o w' b Ht Hw
    |m t n ch d Ht Hch|m t p w ch d Ht Hch|m t n ch d now Ht Hd|m t p w ch d now Ht Hd|m f].
  - by apply start_inv.
  - apply start_inv; try done. cbn. lia.
  - by eapply read_section_inv.
  - by eapply write_section_inv.
  - by eapply set_call_inv.
  - eapply set_call_inv; try done. cbn. destruct (mi_calls _ HI t _ Ht) as (_ & ? & _). lia.
  - by eapply set_call_inv.
  - eapply set_call_inv; try done. cbn. by destruct (mi_calls _ HI t _ Ht) as (_ & ? & _).
  - destruct HI as [Hs Hb Hc Hsent Hrecv]. split; cbn [buf calls sent received]; rewrite ?update_data; try done.
    eapply map_Forall_impl; [exact Hc|]. intros t c. apply call_ok_evolves, update_evolves.
Qed.

Lemma mem_init_inv : mem_inv mem_init.
Proof. by split. Qed.

Lemma mem_reachable_inv m : mem_reachable m → mem_inv m.
Proof.
  unfold mem_reachable. generalize mem_init_inv. generalize mem_init. intros m0 HI Hrtc.
  induction Hrtc as [|m0 m1 m2 Hstep _ IH]; [done|]. by apply IH, (mem_step_inv m0).
Qed.

(** ** Theorems *)

(** C36: An in-memory connection is a bounded stream in order: in every interleaving
    of calls, closes and deadlines, the bytes taken from writers are the bytes given
    to readers followed by those in the buffer, which are at most 2^20; the calls'
    counts account for every byte, and a write without an error took all of its bytes.
    *)
Theorem mem_stream m :
  mem_reachable m →
  sent m = received m ++ data (buf m) ∧
  Z.of_nat (length (data (buf m))) <= memBufferLimit ∧
  length (sent m) = total taken (calls m) ∧ length (received m) = total given (calls m) ∧
  (∀ t p k, calls m !! t = Some (WriteDone p (k, None)) → k = length p).
Proof.
  intros [Hs Hb Hc Hsent Hrecv]%mem_reachable_inv. split_and!; try done.
  intros t p k Ht. exact (map_Forall_lookup_1 _ _ _ _ Hc Ht).
Qed.

(** A call that waits with an open channel has nothing to do. *)
Lemma reader_asleep b n ch d :
  call_ok b (ReadWaits n ch d) → (ch < changed b)%nat ∨
  ∀ now1 now2, expired now1 d = false → expired now2 d = false → read_section now1 now2 n b = (Wait ch d, b).
Proof.
  intros [Hle Hopen]. destruct (decide (ch = changed b)) as [->|Hne]; [right|left; lia].
  destruct (Hopen eq_refl) as (Hd & (Hw & Hr) & ->). intros now1 now2 H1 H2.
  unfold read_section, wait. by rewrite Hr, H1, Hd, Hw, H2.
Qed.

Lemma writer_asleep b p w ch d :
  call_ok b (WriteWaits p w ch d) → (ch < changed b)%nat ∨
  ∀ now, (∀ i, expired (now i) d = false) → write_section now p w b = Some (Wait ch d, w, b).
Proof.
  intros (Hle & Hlt & Hopen). destruct (decide (ch = changed b)) as [->|Hne]; [right|left; lia].
  destruct (Hopen eq_refl) as (Hroom & (Hw & Hr) & ->). intros now Hnow.
  unfold write_section. cbn [write_loop]. rewrite (proj2 (Nat.leb_gt _ _)) by done.
  rewrite Hw, Hr, Hnow, (proj2 (Z.ltb_ge _ _)) by done. unfold wait. by rewrite Hnow.
Qed.

(** C35: No waiter of an in-memory connection is forgotten: in every reachable state,
    a call that waits can be woken, or would wait again were it run now; and a reader
    and a writer are never both asleep. *)
Theorem mem_no_lost_wakeup m :
  mem_reachable m →
  (∀ t n ch d, calls m !! t = Some (ReadWaits n ch d) →
     (∃ m', mem_step m m' ∧ calls m' !! t = Some (Reading n)) ∨
     ∀ now1 now2, expired now1 d = false → expired now2 d = false →
       read_section now1 now2 n (buf m) = (Wait ch d, buf m)) ∧
  (∀ t p w ch d, calls m !! t = Some (WriteWaits p w ch d) →
     (∃ m', mem_step m m' ∧ calls m' !! t = Some (Writing p w)) ∨
     ∀ now, (∀ i, expired (now i) d = false) →
       write_section now p w (buf m) = Some (Wait ch d, w, buf m)) ∧
  ¬ (∃ t n d t' p w d', calls m !! t = Some (ReadWaits n (changed (buf m)) d) ∧
                        calls m !! t' = Some (WriteWaits p w (changed (buf m)) d')).
Proof.
  intros [Hs Hb Hc _ _]%mem_reachable_inv. split; [|split].
  - intros t n ch d Ht. destruct (reader_asleep _ _ _ _ (map_Forall_lookup_1 _ _ _ _ Hc Ht)) as [Hlt|Hz]; [left|by right].
    exists (set_call t (Reading n) m). split; [by eapply step_read_wake|apply lookup_insert_eq].
  - intros t p w ch d Ht.
    destruct (writer_asleep _ _ _ _ _ (map_Forall_lookup_1 _ _ _ _ Hc Ht)) as [Hlt|Hz]; [left|by right].
    exists (set_call t (Writing p w) m). split; [by eapply step_write_wake|apply lookup_insert_eq].
  - intros (t & n & d & t' & p & w & d' & Ht & Ht').
    destruct (map_Forall_lookup_1 _ _ _ _ Hc Ht) as [_ Hr].
    destruct (map_Forall_lookup_1 _ _ _ _ Hc Ht') as (_ & _ & Hw).
    destruct (Hr eq_refl) as (Hd & _ & _). destruct (Hw eq_refl) as (Hroom & _ & _).
    unfold room in Hroom. by rewrite Hd in Hroom.
Qed.

(** Once the writer has closed and everything was read, nothing moves. *)
Definition drained (m : mem) : Prop := writeClosed (buf m) = true ∧ data (buf m) = [].

Lemma drained_step m m' :
  mem_inv m → drained m → mem_step m m' → drained m' ∧ sent m' = sent m ∧ received m' = received m.
Proof.
  intros HI [Hw Hd] Hstep. destruct Hstep as [| |m t n now1 now2 o b Ht Hr|m t p w now o w' b Ht Heq| | | | |m f]; try done.
  - apply read_section_spec in Hr. destruct (read_evolves _ _ _ _ Hr) as [_ He]. split; [by apply He|].
    split; [done|]. destruct Hr as [Hdata _ _ _]. rewrite Hd in Hdata.
    symmetry in Hdata. apply app_nil in Hdata as [-> _]. cbn. by rewrite app_nil_r.
  - assert (w ≤ length p)%nat as Hle by apply (map_Forall_lookup_1 _ _ _ _ (mi_calls _ HI) Ht).
    destruct (write_section_spec now p w (buf m) Hle (mi_bound _ HI)) as (o1 & w1 & b1 & Heq1 & Hpost).
    rewrite Heq in Heq1. injection Heq1 as <- <- <-.
    destruct (write_evolves _ _ _ _ _ _ Hpost) as [_ He]. split; [by apply He|].
    destruct Hpost as [Hrange _ _ _ Hopen _ _]. destruct (decide (w' = w)) as [->|Hne].
    + cbn. by rewrite Nat.sub_diag, take_0, app_nil_r.
    + destruct (Hopen Hne). congruence.
  - split; [|done]. split; [by destruct f|]. cbn [buf]. by rewrite update_data.
Qed.

(** A reader sees the end of the stream only when the writer has closed and every
    byte written was read, and after that no byte is ever written or read. *)
Lemma mem_eof m m' t :
  mem_reachable m → calls m !! t = Some (ReadDone (Err io_EOF)) → rtc mem_step m m' →
  writeClosed (buf m') = true ∧ received m' = sent m ∧ sent m' = sent m.
Proof.
  intros HI%mem_reachable_inv Ht Hrtc.
  assert (drained m) as Hd by exact (map_Forall_lookup_1 _ _ _ _ (mi_calls _ HI) Ht eq_refl).
  assert (received m = sent m) as Hr.
  { rewrite (mi_stream _ HI), (proj2 Hd). by rewrite app_nil_r. }
  assert (drained m' ∧ sent m' = sent m ∧ received m' = received m) as ([? _] & ? & ?); [|split_and!; congruence].
  clear Ht Hr. induction Hrtc as [|m m1 m2 Hstep _ IH]; [done|].
  destruct (drained_step _ _ HI Hd Hstep) as (Hd1 & Hs1 & Hr1).
  destruct IH as (? & ? & ?); [by eapply mem_step_inv|done|]. split; [done|]. split; congruence.
Qed.

Definition peer (c : side) : side := match c with client => server | server => client end.

(** Closing an end of a connection makes its own reads and writes fail at once,
    leaves the peer what was already written, marks the end of the peer's input and
    the loss of its output, wakes the waiters of both directions, and is done once. *)
Lemma Close_ends c p n q now1 now2 (now : nat → Z) :
  closeOnce c p = false →
  let p' := Close c p in
  read_section now1 now2 n (buf (conn_in c p')) = (Return (Err net_ErrClosed), buf (conn_in c p')) ∧
  (q ≠ [] → write_section now q 0 (buf (conn_out c p')) = Some (Return (0%nat, Some net_ErrClosed), 0%nat, buf (conn_out c p'))) ∧
  data (buf (conn_in (peer c) p')) = data (buf (conn_in (peer c) p)) ∧
  writeClosed (buf (conn_in (peer c) p')) = true ∧ readClosed (buf (conn_out (peer c) p')) = true ∧
  (changed (buf (conn_in (peer c) p)) < changed (buf (conn_in (peer c) p')))%nat ∧
  (changed (buf (conn_out (peer c) p)) < changed (buf (conn_out (peer c) p')))%nat ∧
  Close c p' = p'.
Proof.
  intros Hc. unfold Close. rewrite Hc.
  destruct c; cbn; (split; [done|]); (split; [|split_and!; lia || done]).
  all: intros Hq; unfold write_section; destruct q as [|x q]; [done|]; cbn; done.
Qed.
