(* ===== verification/MemconnRefine.v ===== *)
(** * In-memory connections implement a bounded channel

    What one direction of a connection promises, without mutex, broadcasts, waiting
    or chunks of a write in one section: a queue of at most 2^20 bytes, two ends that
    close, and pending calls that take effect in atomic steps.  Every step of the
    buffer and its calls ([Memconn]) is some of these steps. *)
From stdpp Require Import relations.
From S2P Require Import Prelude Memconn MemconnSpec.
#[local] Open Scope Z_scope.

(** ** The channel *)
Inductive demand :=
  | WantsBytes (n : nat)
  | GotBytes (r : read_result)
  | Sends (p : list byte) (k : nat)           (* [k] of [p] are in the queue *)
  | HasSent (p : list byte) (r : write_result).

(** [r_timed], [w_timed]: a deadline was set for reads, for writes. *)
Record channel := mkChannel {
  queue : list byte;
  w_closed : bool;
  r_closed : bool;
  r_timed : bool;
  w_timed : bool;
  pending : gmap nat demand
}.

Definition channel_init : channel := mkChannel [] false false false false ∅.

Definition answer (t : nat) (a : demand) (c : channel) : channel :=
  mkChannel (queue c) (w_closed c) (r_closed c) (r_timed c) (w_timed c) (<[t := a]> (pending c)).
Definition with_queue (q : list byte) (c : channel) : channel :=
  mkChannel q (w_closed c) (r_closed c) (r_timed c) (w_timed c) (pending c).

(** A call starts; a read takes what there is, up to its size, or learns why there
    is nothing; a write puts bytes while there is room, and ends when all of them
    are in or an end is closed; an end closes. *)
Inductive channel_step : channel → channel → Prop :=
  | ch_read c t n : pending c !! t = None → channel_step c (answer t (WantsBytes n) c)
  | ch_write c t p : pending c !! t = None → channel_step c (answer t (Sends p 0) c)
  | ch_get c t n :
      pending c !! t = Some (WantsBytes n) → r_closed c = false → queue c ≠ [] →
      channel_step c (answer t (GotBytes (Ok (take n (queue c)))) (with_queue (drop n (queue c)) c))
  | ch_eof c t n :
      pending c !! t = Some (WantsBytes n) → r_closed c = false → queue c = [] → w_closed c = true →
      channel_step c (answer t (GotBytes (Err io_EOF)) c)
  | ch_read_closed c t n :
      pending c !! t = Some (WantsBytes n) → r_closed c = true →
      channel_step c (answer t (GotBytes (Err net_ErrClosed)) c)
  | ch_read_timeout c t n :
      pending c !! t = Some (WantsBytes n) → r_timed c = true →
      channel_step c (answer t (GotBytes (Err os_ErrDeadlineExceeded)) c)
  | ch_put c t p k n :
      pending c !! t = Some (Sends p k) → w_closed c = false → r_closed c = false →
      (0 < n)%nat → (k + n ≤ length p)%nat → Z.of_nat (length (queue c) + n) <= memBufferLimit →
      channel_step c (answer t (Sends p (k + n)) (with_queue (queue c ++ take n (drop k p)) c))
  | ch_sent c t p :
      pending c !! t = Some (Sends p (length p)) → channel_step c (answer t (HasSent p (length p, None)) c)
  | ch_write_closed c t p k :
      pending c !! t = Some (Sends p k) → (k < length p)%nat → w_closed c = true →
      channel_step c (answer t (HasSent p (k, Some net_ErrClosed)) c)
  | ch_write_broken c t p k :
      pending c !! t = Some (Sends p k) → (k < length p)%nat → w_closed c = false → r_closed c = true →
      channel_step c (answer t (HasSent p (k, Some io_ErrClosedPipe)) c)
  | ch_write_timeout c t p k :
      pending c !! t = Some (Sends p k) → (k < length p)%nat → w_timed c = true →
      channel_step c (answer t (HasSent p (k, Some os_ErrDeadlineExceeded)) c)
  | ch_close_write c :
      channel_step c (mkChannel (queue c) true (r_closed c) (r_timed c) (w_timed c) (pending c))
  | ch_close_read c :
      channel_step c (mkChannel (queue c) (w_closed c) true (r_timed c) (w_timed c) (pending c))
  | ch_read_deadline c :
      channel_step c (mkChannel (queue c) (w_closed c) (r_closed c) true (w_timed c) (pending c))
  | ch_write_deadline c :
      channel_step c (mkChannel (queue c) (w_closed c) (r_closed c) (r_timed c) true (pending c)).

(** ** The buffer seen as a channel *)
Definition demand_of (x : call) : demand :=
  match x with
  | Reading n | ReadWaits n _ _ => WantsBytes n
  | ReadDone r => GotBytes r
  | Writing p w | WriteWaits p w _ _ => Sends p w
  | WriteDone p r => HasSent p r
  end.

(** The timer of a waiting call was made for a deadline. *)
Definition timer_ok (c : channel) (x : call) : Prop :=
  match x with
  | ReadWaits _ _ d => is_Some d → r_timed c = true
  | WriteWaits _ _ _ d => is_Some d → w_timed c = true
  | _ => True
  end.

Record buffer_is (b : memBuffer) (c : channel) : Prop := {
  bi_queue : queue c = data b;
  bi_w_closed : w_closed c = writeClosed b;
  bi_r_closed : r_closed c = readClosed b;
  bi_r_timed : is_Some (readDeadline b) → r_timed c = true;
  bi_w_timed : is_Some (writeDeadline b) → w_timed c = true
}.

Record implements (m : mem) (c : channel) : Prop := {
  im_inv : mem_inv m;
  im_buffer : buffer_is (buf m) c;
  im_pending : pending c = demand_of <$> calls m;
  im_timers : map_Forall (λ _, timer_ok c) (calls m)
}.

Lemma expired_Some now d : expired now d = true → is_Some d.
Proof. destruct d; [by eexists|done]. Qed.

Lemma answer_same t a c : pending c !! t = Some a → answer t a c = c.
Proof. intros Ha. unfold answer. rewrite insert_id by done. by destruct c. Qed.

Lemma answer_over t a a' q q' c : answer t a (with_queue q (answer t a' (with_queue q' c))) = answer t a (with_queue q c).
Proof. unfold answer, with_queue. cbn. by rewrite insert_insert_eq. Qed.

(** ** The sections *)
Lemma read_section_simulates now1 now2 n b o b' c t :
  read_section now1 now2 n b = (o, b') → buffer_is b c → pending c !! t = Some (WantsBytes n) →
  rtc channel_step c (answer t (demand_of (after_read n o)) (with_queue (data b') c)).
Proof.
  intros Hs [Hq Hw Hr Hrt _] Ht.
  assert (with_queue (data b) c = c) as Hsame by (rewrite <- Hq; by destruct c).
  revert Hs. unfold read_section, wait.
  destruct (readClosed b) eqn:Hrc; [intros [= <- <-]; rewrite Hsame; by eapply rtc_once, ch_read_closed|].
  destruct (expired now1 _) eqn:He; [intros [= <- <-]; rewrite Hsame; eapply rtc_once, ch_read_timeout; eauto using expired_Some|].
  destruct (negb _) eqn:Hd.
  { intros [= <- <-]. cbn. rewrite <- Hq. eapply rtc_once, ch_get; [done..|]. rewrite Hq. by apply negb_true_iff, bool_decide_eq_false in Hd. }
  apply negb_false_iff, bool_decide_eq_true in Hd.
  destruct (writeClosed b) eqn:Hwc; [intros [= <- <-]; rewrite Hsame; eapply rtc_once, ch_eof; [done..|by rewrite Hq|done]|].
  destruct (expired now2 _) eqn:He2; intros [= <- <-]; rewrite Hsame; cbn.
  - eapply rtc_once, ch_read_timeout; eauto using expired_Some.
  - by rewrite answer_same.
Qed.

Lemma write_loop_simulates fuel now p w b o w' b' c t :
  write_loop fuel now p w b = Some (o, w', b') → buffer_is b c → (w ≤ length p)%nat →
  pending c !! t = Some (Sends p w) →
  rtc channel_step c (answer t (demand_of (after_write p w' o)) (with_queue (data b') c)).
Proof.
  revert now w b c. induction fuel as [|fuel IH]; intros now w b c Hs Hb Hle Ht; pose proof Hb as [Hq Hw Hr _ Hwt];
    assert (with_queue (data b) c = c) as Hsame by (rewrite <- Hq; by destruct c); cbn [write_loop] in Hs;
    (destruct (length p <=? w)%nat eqn:Hlt;
     [apply Nat.leb_le in Hlt; injection Hs as <- <- <-; rewrite Hsame; cbn;
      replace w with (length p) in * by lia; by apply rtc_once, ch_sent|apply Nat.leb_gt in Hlt]); [done|].
  destruct (writeClosed b) eqn:Hwc; [injection Hs as <- <- <-; rewrite Hsame; by eapply rtc_once, ch_write_closed|].
  destruct (readClosed b) eqn:Hrc; [injection Hs as <- <- <-; rewrite Hsame; by eapply rtc_once, ch_write_broken|].
  destruct (expired _ _) eqn:He.
  { injection Hs as <- <- <-. rewrite Hsame. eapply rtc_once, ch_write_timeout; eauto using expired_Some. }
  destruct (0 <? room b) eqn:Hroom.
  - apply Z.ltb_lt in Hroom. set (n := Z.to_nat (Z.min (room b) (Z.of_nat (length p - w)))) in *.
    assert (0 < n ≤ length p - w)%nat as Hn by lia.
    eapply rtc_l; [apply (ch_put c t p w n); try done; [lia..|]|].
    { rewrite Hq. unfold room in *. lia. }
    rewrite Hq. eapply (IH _ _ _ (answer t (Sends p (w + n)) (with_queue (data b ++ take n (drop w p)) c))) in Hs.
    + by rewrite answer_over in Hs.
    + by destruct Hb.
    + lia.
    + apply lookup_insert_eq.
  - unfold wait in Hs. destruct (expired (now 1%nat) _) eqn:He2; injection Hs as <- <- <-; rewrite Hsame; cbn.
    + eapply rtc_once, ch_write_timeout; eauto using expired_Some.
    + by rewrite answer_same.
Qed.

Lemma wake_keeps t x x' (cs : gmap nat call) :
  cs !! t = Some x → demand_of x' = demand_of x → demand_of <$> <[t := x']> cs = demand_of <$> cs.
Proof. intros Ht Hx. rewrite fmap_insert, Hx. apply insert_id. by rewrite lookup_fmap, Ht. Qed.

(** ** Refinement *)
Lemma implements_init : implements mem_init channel_init.
Proof. split; [apply mem_init_inv|by split; try (by intros [? ?])|by cbn; rewrite fmap_empty|apply map_Forall_empty]. Qed.

Lemma buffer_is_answer t a b b' c :
  buffer_is b c → same_flags b b' → buffer_is b' (answer t a (with_queue (data b') c)).
Proof. intros [Hq Hw Hr Hrt Hwt] (H1 & H2 & H3 & H4). split; cbn; rewrite ?H1, ?H2, ?H3, ?H4; done. Qed.

(** A call that goes on with a demand answered. *)
Lemma implements_call m b t x s r q c :
  mem_inv (mkMem b (<[t := x]> (calls m)) s r) → buffer_is b (answer t (demand_of x) (with_queue q c)) →
  pending c = demand_of <$> calls m → map_Forall (λ _, timer_ok c) (calls m) → timer_ok c x →
  implements (mkMem b (<[t := x]> (calls m)) s r) (answer t (demand_of x) (with_queue q c)).
Proof.
  intros Hinv Hb Hp Ht Hx. split; [done|done| |]; cbn.
  - by rewrite fmap_insert, Hp.
  - by apply map_Forall_insert_2.
Qed.

Lemma implements_set m t x c :
  mem_inv (set_call t x m) → implements m c → timer_ok c x → implements (set_call t x m) (answer t (demand_of x) c).
Proof.
  intros Hinv [_ Hb Hp Ht] Hx. assert (c = with_queue (queue c) c) as Hc by by destruct c.
  rewrite Hc. apply implements_call; [done| |done..]. rewrite (bi_queue _ _ Hb). by eapply buffer_is_answer.
Qed.

(** A change of the ends or of the deadlines. *)
Lemma update_simulates f b c :
  buffer_is b c →
  ∃ c', rtc channel_step c c' ∧ buffer_is (update f b) c' ∧ pending c' = pending c ∧
    ∀ x, timer_ok c x → timer_ok c' x.
Proof.
  intros [Hq Hw Hr Hrt Hwt]. destruct f as [| |[d|]|[d|]].
  - eexists. split; [apply rtc_once, ch_close_read|]. by split; [split|].
  - eexists. split; [apply rtc_once, ch_close_write|]. by split; [split|].
  - eexists. split; [apply rtc_once, ch_read_deadline|]. split; [by split|]. split; [done|]. by intros [].
  - exists c. split; [apply rtc_refl|]. split; [|done]. split; try done. by intros [? ?].
  - eexists. split; [apply rtc_once, ch_write_deadline|]. split; [by split|]. split; [done|]. by intros [].
  - exists c. split; [apply rtc_refl|]. split; [|done]. split; try done. by intros [? ?].
Qed.

(** One step of the buffer is some steps of the channel. *)
Lemma mem_step_simulates m m' c :
  implements m c → mem_step m m' → ∃ c', rtc channel_step c c' ∧ implements m' c'.
Proof.
  intros Him Hstep. pose proof Him as [Hinv Hb Hp Ht]. pose proof (mem_step_inv _ _ Hstep Hinv) as Hinv'.
  assert (∀ t x, calls m !! t = x → pending c !! t = demand_of <$> x) as Hpend by (intros t x <-; by rewrite Hp, lookup_fmap).
  destruct Hstep as [m t n Hc|m t p Hc|m t n now1 now2 o b Hc Hr|m t p w now o w' b Hc Hw
    |m t n ch d Hc Hch|m t p w ch d Hc Hch|m t n ch d now Hc Hd|m t p w ch d now Hc Hd|m f]; try apply Hpend in Hc as Hpc.
  - exists (answer t (WantsBytes n) c). split; [by apply rtc_once, ch_read|]. by apply (implements_set _ _ (Reading n)).
  - exists (answer t (Sends p 0) c). split; [by apply rtc_once, ch_write|]. by apply (implements_set _ _ (Writing p 0)).
  - eexists. split; [by eapply read_section_simulates|].
    apply read_section_spec in Hr as [_ Hflags _ Hout]. apply implements_call; [done|by eapply buffer_is_answer|done..|].
    destruct o as [r|ch d]; [done|]. cbn. destruct Hout as (_ & -> & _). apply Hb.
  - assert (w ≤ length p)%nat as Hle by apply (map_Forall_lookup_1 _ _ _ _ (mi_calls _ Hinv) Hc).
    eexists. split; [by eapply write_loop_simulates|].
    destruct (write_section_spec now p w (buf m) Hle (mi_bound _ Hinv)) as (o1 & w1 & b1 & Heq1 & [_ _ _ Hflags _ _ Hout]).
    rewrite Hw in Heq1. injection Heq1 as <- <- <-. apply implements_call; [done|by eapply buffer_is_answer|done..|].
    destruct o as [r|ch d]; [done|]. cbn. destruct Hout as (_ & -> & _). destruct Hflags as (_ & _ & _ & ->). apply Hb.
  - exists c. split; [apply rtc_refl|]. split; [done|done| |by apply map_Forall_insert_2]. cbn. by erewrite wake_keeps.
  - exists c. split; [apply rtc_refl|]. split; [done|done| |by apply map_Forall_insert_2]. cbn. by erewrite wake_keeps.
  - eexists. split; [|by apply (implements_set _ _ (ReadDone _))]. eapply rtc_once, ch_read_timeout; [exact Hpc|].
    apply (map_Forall_lookup_1 _ _ _ _ Ht Hc). by eexists.
  - eexists. split; [|by apply (implements_set _ _ (WriteDone _ _))].
    eapply rtc_once, ch_write_timeout; [exact Hpc| |apply (map_Forall_lookup_1 _ _ _ _ Ht Hc); by eexists].
    by destruct (map_Forall_lookup_1 _ _ _ _ (mi_calls _ Hinv) Hc) as (_ & ? & _).
  - destruct (update_simulates f _ _ Hb) as (c' & Hrun & Hb' & Hp' & Ht'). exists c'. split; [done|].
    split; [done|done|by rewrite Hp', Hp|]. eapply map_Forall_impl; [exact Ht|]. intros t x. apply Ht'.
Qed.

(** C37: A direction of an in-memory connection implements a bounded channel: every
    run of the buffer, in any interleaving of its critical sections, wake-ups, timers,
    closes and deadlines, is a run of an abstract queue of at most 2^20 bytes with
    atomic puts and gets, in which a call gets end of stream only from an empty queue
    whose writer closed, a closed error only from a closed end, and a timeout only
    after a deadline was set; queue, ends, and calls agree all along. *)
Theorem mem_refines :
  implements mem_init channel_init ∧
  ∀ m m' c, implements m c → rtc mem_step m m' → ∃ c', rtc channel_step c c' ∧ implements m' c'.
Proof.
  split; [apply implements_init|]. intros m m' c Him Hrtc. revert c Him.
  induction Hrtc as [m|m m1 m2 Hstep _ IH]; intros c Him; [by exists c|].
  destruct (mem_step_simulates _ _ _ Him Hstep) as (c1 & Hc1 & Him1). destruct (IH c1 Him1) as (c2 & Hc2 & Him2).
  exists c2. split; [by etrans|done].
Qed.
