(* ===== verification/Server.v ===== *)
(** * The emulator (src/iamproxy/server.go)

    [Start] in a world that binds addresses and makes certificates, the dial
    hook, and the accept loop with its semaphore.  What [Start]
    opens it records, and what it closes when it fails. *)
From S2P Require Import Prelude Wire GoStrings NetAddr Sha256 Rsa Config Identity.
#[local] Open Scope Z_scope.

(** ** The certificate *)
(** The chain of a certificate, leaf first. *)
Abbreviation chain := (list gostring).

(** What the program calls outside itself: the k-th [net.Listen] gives the bound
    address, and the certificate and key functions of the standard library. *)
Record platform := mkPlatform {
  net_Listen : nat → gostring → res gostring;
  LoadX509KeyPair : gostring → gostring → res chain;
  CreateCertificate : list gostring → list (list Z) → res chain;
  ParseCertificate : gostring → res gostring;
  GenerateKey : res rsa_key
}.

(** The names of the generated certificate: DNS names, addresses, and the hosts
    seen so far. *)
Record names := mkNames { DNSNames : list gostring; IPAddresses : list (list Z); seen : gset gostring }.

Definition localhost := lit "localhost".
Definition loopback4 := lit "127.0.0.1".
Definition loopback6 := lit "::1".

Definition names_init : names :=
  mkNames [localhost] [v4_in_v6 ++ [127; 0; 0; 1]; replicate 15 0 ++ [1]] {[localhost; loopback4; loopback6]}.

Definition add_host (st : names) (h : gostring) : names :=
  if empty h || bool_decide (h ∈ seen st) then st
  else
    let seen' := {[h]} ∪ seen st in
    match ParseIP h with
    | Some ip => mkNames (DNSNames st) (IPAddresses st ++ [ip]) seen'
    | None => mkNames (DNSNames st ++ [h]) (IPAddresses st) seen'
    end.

Definition certificate_hosts (c : Config) : list gostring :=
  Listeners c ≫= λ l, [split_host (Listen l); Hostname l].

Definition certificate_names (c : Config) : names := foldl add_host names_init (certificate_hosts c).

Definition serverCertificate (w : platform) (c : Config) (cert : option chain) : res chain :=
  match cert with
  | Some [] => Err (Errorf "certificate has no chain" [])
  | Some ch => Ok ch
  | None =>
     if negb (empty (TLSCert c)) then LoadX509KeyPair w (TLSCert c) (TLSKey c)
     else let n := certificate_names c in CreateCertificate w (DNSNames n) (IPAddresses n)
  end.

(** ** Starting *)
Record Options := mkOptions { Certificate : option chain; InMemory : bool }.

Inductive handle := HListener (i : nat) | HMemory (name : gostring) | HHTTP | HHTTPS.

Record Emulator := mkEmulator {
  svc : service;
  e_leaf : gostring;
  memory : gmap gostring gostring;      (* listener name to the address of its memory listener *)
  routes : gmap gostring gostring;      (* dial address to listener name *)
  httpURL : gostring;
  httpsURL : gostring
}.

(** Computations that open listeners, on the list of [closers]. *)
Definition StartM (A : Type) : Type := list handle → res A * list handle.
#[export] Instance StartM_ret : MRet StartM := λ A a closers, (Ok a, closers).
#[export] Instance StartM_bind : MBind StartM := λ A B f m closers,
  match m closers with
  | (Ok a, closers) => f a closers
  | (Err e, closers) => (Err e, closers)
  | (Panic, closers) => (Panic, closers)
  end.
Definition liftS {A} (r : res A) : StartM A := λ closers, (r, closers).
Definition open (h : handle) : StartM unit := λ closers, (Ok tt, closers ++ [h]).

Definition with_Listen (a : gostring) (l : Listener) : Listener :=
  mkListener (Name l) a (Provider l) (Engine l) (Instance_ l) (Hostname l) (Region l) (ResourceID l)
    (Tenant l) (Upstream l) (UpstreamTLS l).

(** The loop that binds the listeners, from the index [i] on; a call of
    [net.Listen] per listener. *)
Fixpoint bind_listeners (w : platform) (in_memory : bool) (i : nat) (ls : list Listener) : StartM (list Listener) :=
  match ls with
  | [] => mret []
  | l :: ls =>
     l' ← (if in_memory : bool then
             _ ← liftS (guard_err (split_port (Listen l) =s lit "0")
                          (Errorf "listener %s: in-memory listeners need a fixed port" [Name l]));
             mret l
           else
             a ← liftS (wrap_err (Wrapf "%s: %w" [Name l]) (net_Listen w i (Listen l)));
             _ ← open (HListener i);
             mret (with_Listen a l));
     ls' ← bind_listeners w in_memory (S i) ls;
     mret (l' :: ls')
  end.

(** The addresses a listener is dialled by. *)
Definition dial_addresses (l : Listener) : list gostring :=
  [Listen l] ++ (if negb (empty (Hostname l)) then [JoinHostPort (Hostname l) (split_port (Listen l))] else []).

Definition add_route (name : gostring) (rs : gmap gostring gostring) (a : gostring) : res (gmap gostring gostring) :=
  _ ← guard_err (match rs !! a with Some other => negb (other =s name) | None => false end)
        (Errorf "listeners %s and %s share dial address %s" [default [] (rs !! a); name; a]);
  Ok (<[a := name]> rs).

Definition tables := (gmap gostring gostring * gmap gostring gostring)%type.

Fixpoint add_listeners (st : tables) (ls : list Listener) : StartM tables :=
  match ls with
  | [] => mret st
  | l :: ls =>
     rs ← liftS (foldM (add_route (Name l)) st.1 (dial_addresses l));
     _ ← open (HMemory (Name l));
     add_listeners (rs, <[Name l := Listen l]> st.2) ls
  end.

Definition with_bound (http https public : gostring) (ls : list Listener) (c : Config) : Config :=
  mkConfig http https public (TLSCert c) (TLSKey c) ls (Principals c).

(** Everything after the certificate: [start_listeners] opens and serves. *)
Definition start_listeners (w : platform) (c : Config) (o : Options) (leaf : gostring) : StartM Emulator :=
  ls ← bind_listeners w (InMemory o) 0 (Listeners c);
  ' (rs, memory) ← add_listeners (∅, ∅) ls;
  let k := if InMemory o then 0%nat else length ls in
  http ← liftS (net_Listen w k (HTTPListen c));
  _ ← open HHTTP;
  let url := lit "http://" ++ http in
  let public := if empty (PublicURL c) then url else PublicURL c in
  ' (https, https_url) ←
    (if negb (empty (HTTPSListen c)) then
       a ← liftS (net_Listen w (S k) (HTTPSListen c));
       _ ← open HHTTPS;
       mret (a, lit "https://" ++ a)
     else mret (HTTPSListen c, []));
  key ← liftS (GenerateKey w);
  let c := with_bound http https public ls c in
  mret (mkEmulator (newService c key) leaf memory rs url https_url).

Section start.
Context `{GoUnicode}.

(** [Start]: the emulator or the error, what was opened and what was closed
    again. *)
Definition Start (w : platform) (c : Config) (o : Options) : res Emulator * list handle * list handle :=
  let c := if empty (HTTPListen c) then with_HTTPListen (lit "127.0.0.1:0") c else c in
  let prepared :=
    c ← Validate c;
    cert ← serverCertificate w c (Certificate o);
    first ← index_go cert 0;
    leaf ← ParseCertificate w first;
    Ok (c, leaf) in
  match prepared with
  | Ok (c, leaf) =>
     match start_listeners w c o leaf [] with
     | (Ok e, closers) => (Ok e, closers, [])
     | (Err err, closers) => (Err err, closers, closers)
     | (Panic, closers) => (Panic, closers, [])
     end
  | Err err => (Err err, [], [])
  | Panic => (Panic, [], [])
  end.
End start.

(** [e.ListenerAddr(name)] *)
Definition ListenerAddr (e : Emulator) (name : gostring) : gostring * bool :=
  match list_find (λ l, Name l = name) (Listeners (svc_config (svc e))) with
  | Some (_, l) => (Listen l, true)
  | None => ([], false)
  end.

(** ** Dialling

    The memory listener an address selects; then the dial waits for that
    listener's accept loop, for its end, or for the context. *)
Definition memory_network := lit "iamproxy-memory".

Definition dial_target (e : Emulator) (network addr : gostring) : res gostring :=
  _ ← guard_err (negb (bool_decide (network ∈ [lit "tcp"; lit "tcp4"; lit "tcp6"; []; memory_network])))
        (Errorf "iamproxy: unsupported network %q" [network]);
  match routes e !! addr with
  | Some name => Ok name
  | None => Err (Errorf "iamproxy: no database listener for %s" [addr])
  end.

Inductive DialContext (e : Emulator) (network addr : gostring) (accepting done cancelled : gostring → bool)
    : res gostring → Prop :=
  | dial_refused err :
      dial_target e network addr = Err err → DialContext e network addr accepting done cancelled (Err err)
  | dial_connected name :
      dial_target e network addr = Ok name → accepting name = true →
      DialContext e network addr accepting done cancelled (Ok name)
  | dial_closed name :
      dial_target e network addr = Ok name → done name = true →
      DialContext e network addr accepting done cancelled (Err net_ErrClosed)
  | dial_cancelled name :
      dial_target e network addr = Ok name → cancelled name = true →
      DialContext e network addr accepting done cancelled (Err ctx_Err).

(** ** The accept loop

    A connection is waiting for the semaphore, served, released (its session is
    over and its token given back), or closed.  The loop accepts, waits for the
    semaphore with one connection, or has returned. *)
Definition max_sessions : nat := 256.

Inductive conn_state := Pending | Serving | Released | Closed.
Inductive loop_state := Accepting | Acquiring (conn : nat) | Returned.

Record accept_state := mkAccept { loop : loop_state; sem : nat; conns : gmap nat conn_state }.
Definition accept_init : accept_state := mkAccept Accepting 0 ∅.

(** [cancelled]: the context is done; [over]: the listener is closed.  An error of
    [Accept] ends the loop then, and is logged otherwise. *)
Inductive accept_step (cancelled over : bool) : accept_state → accept_state → Prop :=
  | accept_conn n cs id :
      cs !! id = None →
      accept_step cancelled over (mkAccept Accepting n cs) (mkAccept (Acquiring id) n (<[id := Pending]> cs))
  | accept_failed n cs :
      cancelled = false → over = false →
      accept_step cancelled over (mkAccept Accepting n cs) (mkAccept Accepting n cs)
  | accept_over n cs :
      cancelled = true ∨ over = true →
      accept_step cancelled over (mkAccept Accepting n cs) (mkAccept Returned n cs)
  | accept_acquired n cs id :
      (n < max_sessions)%nat →
      accept_step cancelled over (mkAccept (Acquiring id) n cs) (mkAccept Accepting (S n) (<[id := Serving]> cs))
  | accept_cancelled n cs id :
      cancelled = true →
      accept_step cancelled over (mkAccept (Acquiring id) n cs) (mkAccept Returned n (<[id := Closed]> cs))
  | session_released lp n cs id :
      cs !! id = Some Serving →
      accept_step cancelled over (mkAccept lp (S n) cs) (mkAccept lp n (<[id := Released]> cs))
  | session_closed lp n cs id :
      cs !! id = Some Released →
      accept_step cancelled over (mkAccept lp n cs) (mkAccept lp n (<[id := Closed]> cs)).

(** Any step of a loop, whatever the context and the listener are. *)
Definition accept_any (a a' : accept_state) : Prop := ∃ cancelled over, accept_step cancelled over a a'.
