(* ===== verification/ServerSpec.v ===== *)
(** * The emulator: what a start opens and serves, dialling, sessions *)
From S2P Require Import Prelude Wire GoStrings NetAddr Sha256 Rsa Config ConfigSpec NetAddrSpec Identity Server.
#[local] Open Scope Z_scope.

(** ** Computations that open listeners *)
Lemma bindS_Ok {A B} (m : StartM A) (f : A → StartM B) cl b cl' :
  (x ← m; f x) cl = (Ok b, cl') ↔ ∃ a cl1, m cl = (Ok a, cl1) ∧ f a cl1 = (Ok b, cl').
Proof.
  unfold mbind, StartM_bind. destruct (m cl) as [[a|e|] cl1]; split; try done; [by exists a, cl1| | |];
    by intros (? & ? & [= <- <-] & ?).
Qed.

Lemma liftS_Ok {A} (r : res A) cl a cl' : liftS r cl = (Ok a, cl') ↔ r = Ok a ∧ cl' = cl.
Proof. unfold liftS. split; [by intros [= -> ->]|by intros [-> ->]]. Qed.

Lemma open_Ok h cl u cl' : open h cl = (Ok u, cl') ↔ cl' = cl ++ [h].
Proof. unfold open. destruct u. split; [by intros [= ->]|by intros ->]. Qed.

Lemma mretS_Ok {A} (a b : A) (cl cl' : list handle) : (mret a : StartM A) cl = (Ok b, cl') ↔ b = a ∧ cl' = cl.
Proof. unfold mret, StartM_ret. split; [by intros [= -> ->]|by intros [-> ->]]. Qed.

(** ** Binding the listeners *)
(** The listener [l'] that serves the configured [l], the [i]-th. *)
Definition bound (w : platform) (in_memory : bool) (i : nat) (l l' : Listener) : Prop :=
  if in_memory then l' = l ∧ split_port (Listen l) ≠ lit "0"
  else ∃ a, net_Listen w i (Listen l) = Ok a ∧ l' = with_Listen a l.

Lemma bind_listeners_Ok w im i ls cl ls' cl' :
  bind_listeners w im i ls cl = (Ok ls', cl') →
  (∀ j l, ls !! j = Some l → ∃ l', ls' !! j = Some l' ∧ bound w im (i + j) l l') ∧ length ls' = length ls ∧
  cl' = cl ++ (if im then [] else HListener <$> seq i (length ls)).
Proof.
  revert i cl ls' cl'. induction ls as [|l ls IH]; intros i cl ls' cl'; cbn [bind_listeners].
  { intros [-> ->]%mretS_Ok. split; [done|]. split; [done|]. destruct im; cbn; by rewrite app_nil_r. }
  intros (l' & cl1 & Hl & H)%bindS_Ok. apply bindS_Ok in H as (ls1 & cl2 & Hls & H).
  apply mretS_Ok in H as [-> ->].
  assert (bound w im i l l' ∧ cl1 = cl ++ (if im then [] else [HListener i])) as [Hb ->].
  { destruct im; cbn [bound].
    - apply bindS_Ok in Hl as (u & cl0 & Hg & Hr). apply liftS_Ok in Hg as [Hg ->].
      apply mretS_Ok in Hr as [-> ->]. apply guard_err_Ok, bool_decide_eq_false in Hg.
      split; [done|by rewrite app_nil_r].
    - apply bindS_Ok in Hl as (a & cl0 & Ha & Hr). apply liftS_Ok in Ha as [Ha ->]. apply wrap_err_Ok in Ha.
      apply bindS_Ok in Hr as (u & cl3 & Ho & Hr). apply open_Ok in Ho as ->. apply mretS_Ok in Hr as [-> ->].
      split; [by exists a|done]. }
  destruct (IH _ _ _ _ Hls) as (Hall & Hlen & ->). split; [|split].
  - intros [|j] x Hx; [injection Hx as <-; exists l'; by rewrite Nat.add_0_r|].
    destruct (Hall j x Hx) as (x' & Hx' & Hb'). exists x'. split; [done|]. by rewrite <- Nat.add_succ_comm.
  - cbn. by rewrite Hlen.
  - rewrite <- app_assoc. by destruct im.
Qed.

(** ** The routes *)
Lemma add_route_Ok name rs a rs' :
  add_route name rs a = Ok rs' →
  ∀ x n, rs' !! x = Some n ↔ rs !! x = Some n ∨ (x = a ∧ n = name).
Proof.
  unfold add_route. rewrite guard_bind_Ok. intros [Hg [= <-]] x n.
  destruct (decide (x = a)) as [->|Hne].
  - rewrite lookup_insert_eq. destruct (rs !! a) as [other|].
    + apply negb_false_iff, bool_decide_eq_true in Hg as ->. naive_solver.
    + naive_solver.
  - rewrite lookup_insert_ne by done. naive_solver.
Qed.

Lemma add_routes_Ok name addrs rs rs' :
  foldM (add_route name) rs addrs = Ok rs' →
  ∀ x n, rs' !! x = Some n ↔ rs !! x = Some n ∨ (x ∈ addrs ∧ n = name).
Proof.
  revert rs. induction addrs as [|a addrs IH]; intros rs; cbn [foldM].
  - intros [= <-] x n. set_solver.
  - intros (rs1 & H1 & H2)%bind_Ok x n. rewrite (IH _ H2), (add_route_Ok _ _ _ _ H1). set_solver.
Qed.

Lemma add_listeners_Ok ls st cl rs mem cl' :
  add_listeners st ls cl = (Ok (rs, mem), cl') →
  (∀ x n, rs !! x = Some n ↔ st.1 !! x = Some n ∨ ∃ l, l ∈ ls ∧ Name l = n ∧ x ∈ dial_addresses l) ∧
  mem = foldl (λ m l, <[Name l := Listen l]> m) st.2 ls ∧
  cl' = cl ++ ((HMemory ∘ Name) <$> ls).
Proof.
  revert st cl. induction ls as [|l ls IH]; intros [rs0 mem0] cl; cbn [add_listeners].
  { intros [[= -> ->] ->]%mretS_Ok. split; [set_solver|]. split; [done|by rewrite app_nil_r]. }
  intros (rs1 & cl1 & H1 & H)%bindS_Ok. apply liftS_Ok in H1 as [H1 ->].
  apply bindS_Ok in H as (u & cl2 & Ho & H). apply open_Ok in Ho as ->.
  destruct (IH _ _ H) as (Hr & -> & ->). split; [|split; [done|by rewrite <- app_assoc]].
  intros x n. rewrite Hr. cbn [fst]. rewrite (add_routes_Ok _ _ _ _ H1). clear -ls.
  split.
  - intros [[?|[? ->]]|(l' & ? & ? & ?)]; [by left|right; exists l; by split_and!; [left|..]|right; exists l'; by split_and!; [right|..]].
  - intros [?|(l' & [->|Hl']%elem_of_cons & <- & Hx)]; [by left; left|left; by right|right; by exists l'].
Qed.

Lemma memory_lookup (ls : list Listener) (m : gmap gostring gostring) l :
  NoDup (Name <$> ls) → l ∈ ls → foldl (λ m l, <[Name l := Listen l]> m) m ls !! Name l = Some (Listen l).
Proof.
  induction ls as [|l' ls IH] using rev_ind; [by intros _ ?%elem_of_nil|].
  rewrite fmap_app, foldl_app. cbn [foldl fmap list_fmap]. intros (Hnd & Hn & _)%NoDup_app [Hin|Hin]%elem_of_app.
  - rewrite lookup_insert_ne; [by apply IH|]. intros Heq. apply (Hn (Name l)).
    + by apply list_elem_of_fmap_2.
    + rewrite <- Heq. by left.
  - apply list_elem_of_singleton in Hin as ->. apply lookup_insert_eq.
Qed.

(** ** A start *)
Definition expected_handles (o : Options) (c : Config) : list handle :=
  (if InMemory o then [] else HListener <$> seq 0 (length (Listeners c)))
  ++ ((HMemory ∘ Name) <$> Listeners c) ++ [HHTTP] ++ (if empty (HTTPSListen c) then [] else [HHTTPS]).

(** The configuration a started emulator serves, for the validated [c]. *)
Record effective (w : platform) (o : Options) (c c' : Config) : Prop := {
  ef_listeners : ∀ i l, Listeners c !! i = Some l →
    ∃ l', Listeners c' !! i = Some l' ∧ bound w (InMemory o) i l l';
  ef_length : length (Listeners c') = length (Listeners c);
  ef_http : ∃ k, net_Listen w k (HTTPListen c) = Ok (HTTPListen c');
  ef_https : if empty (HTTPSListen c) then HTTPSListen c' = []
             else ∃ k, net_Listen w k (HTTPSListen c) = Ok (HTTPSListen c');
  ef_public : PublicURL c' = if empty (PublicURL c) then lit "http://" ++ HTTPListen c' else PublicURL c;
  ef_principals : Principals c' = Principals c
}.

Record serves (w : platform) (o : Options) (c : Config) (e : Emulator) : Prop := {
  sv_config : effective w o c (svc_config (svc e));
  sv_routes : ∀ x n, routes e !! x = Some n ↔
    ∃ l, l ∈ Listeners (svc_config (svc e)) ∧ Name l = n ∧ x ∈ dial_addresses l;
  sv_memory : memory e = foldl (λ m l, <[Name l := Listen l]> m) ∅ (Listeners (svc_config (svc e)));
  sv_tokens : googleTokens (svc e) = ∅;
  sv_url : httpURL e = lit "http://" ++ HTTPListen (svc_config (svc e))
}.

Lemma start_listeners_Ok w c o leaf e cl' :
  start_listeners w c o leaf [] = (Ok e, cl') →
  serves w o c e ∧
  cl' = (if InMemory o then [] else HListener <$> seq 0 (length (Listeners c)))
    ++ ((HMemory ∘ Name) <$> Listeners (svc_config (svc e))) ++ [HHTTP]
    ++ (if empty (HTTPSListen c) then [] else [HHTTPS]).
Proof.
  unfold start_listeners. intros (ls & cl1 & Hls & H)%bindS_Ok.
  apply bind_listeners_Ok in Hls as (Hb & Hlen & ->).
  apply bindS_Ok in H as ([rs mem] & cl2 & Hr & H). apply add_listeners_Ok in Hr as (Hr & -> & ->).
  apply bindS_Ok in H as (http & cl3 & Hh & H). apply liftS_Ok in Hh as [Hh ->].
  apply bindS_Ok in H as (u & cl4 & Ho & H). apply open_Ok in Ho as ->.
  apply bindS_Ok in H as ([https url] & cl5 & Hs & H).
  apply bindS_Ok in H as (key & cl6 & Hk & H). apply liftS_Ok in Hk as [Hk ->]. apply mretS_Ok in H as [-> ->].
  cbn [svc svc_config newService with_bound Listeners HTTPListen HTTPSListen PublicURL Principals routes memory
    googleTokens httpURL].
  assert ((if empty (HTTPSListen c) then https = []
           else ∃ k, net_Listen w k (HTTPSListen c) = Ok https) ∧
          cl5 = (([] ++ (if InMemory o then [] else HListener <$> seq 0 (length (Listeners c))))
            ++ ((HMemory ∘ Name) <$> ls)) ++ [HHTTP] ++ (if empty (HTTPSListen c) then [] else [HHTTPS])) as [Hhttps ->].
  { destruct (empty (HTTPSListen c)) eqn:He; cbn [negb] in Hs.
    - apply mretS_Ok in Hs as [[= -> ->] ->]. apply empty_true in He. by rewrite He.
    - apply bindS_Ok in Hs as (a & cl7 & Ha & Hs). apply liftS_Ok in Ha as [Ha ->].
      apply bindS_Ok in Hs as (u' & cl8 & Ho & Hs). apply open_Ok in Ho as ->.
      apply mretS_Ok in Hs as [[= -> ->] ->]. split; [by eexists|]. by rewrite <- !app_assoc. }
  split; [|by rewrite <- !app_assoc].
  split; cbn; try done.
  - split; cbn; [exact Hb|done|by eexists|exact Hhttps|done|done].
  - intros x n. rewrite Hr. cbn. rewrite lookup_empty. naive_solver.
Qed.

Lemma bound_name w im i l l' : bound w im i l l' → Name l' = Name l ∧ Hostname l' = Hostname l.
Proof. unfold bound. destruct im; [by intros [-> _]|by intros (a & _ & ->)]. Qed.

Lemma effective_names w o c c' : effective w o c c' → Name <$> Listeners c' = Name <$> Listeners c.
Proof.
  intros [Hl Hlen _ _ _ _]. apply list_eq. intros i. rewrite !list_lookup_fmap.
  destruct (Listeners c !! i) as [l|] eqn:Hi.
  - destruct (Hl i l Hi) as (l' & -> & Hb%bound_name). cbn. f_equal. apply Hb.
  - apply lookup_ge_None in Hi. by rewrite (proj2 (lookup_ge_None _ _)) by lia.
Qed.

Section start.
Context `{GoUnicode}.

(** The library functions return, and a certificate they load has a chain. *)
Record well_behaved (w : platform) : Prop := {
  wb_listen : ∀ k a, no_panic (net_Listen w k a);
  wb_load : ∀ c k ch, LoadX509KeyPair w c k = Ok ch → ch ≠ [];
  wb_load_returns : ∀ c k, no_panic (LoadX509KeyPair w c k);
  wb_create : ∀ d i ch, CreateCertificate w d i = Ok ch → ch ≠ [];
  wb_create_returns : ∀ d i, no_panic (CreateCertificate w d i);
  wb_parse : ∀ a, no_panic (ParseCertificate w a);
  wb_key : no_panic (GenerateKey w)
}.

(** The configuration [Start] validates. *)
Definition start_config (c : Config) : Config :=
  if empty (HTTPListen c) then with_HTTPListen (lit "127.0.0.1:0") c else c.

Lemma start_config_default c : with_default (start_config c) = start_config c.
Proof.
  unfold with_default, start_config. destruct (empty (HTTPListen c)) eqn:He; [done|]. by rewrite He.
Qed.

Definition NoPanicS {A} (m : StartM A) : Prop := ∀ cl, no_panic (m cl).1.

Lemma nopanic_bindS {A B} (m : StartM A) (f : A → StartM B) :
  NoPanicS m → (∀ a, NoPanicS (f a)) → NoPanicS (m ≫= f).
Proof.
  intros Hm Hf cl. unfold mbind, StartM_bind. specialize (Hm cl).
  destruct (m cl) as [[a|e|] cl1]; cbn; [by apply Hf|done|done].
Qed.
Lemma nopanic_liftS {A} (r : res A) : no_panic r → NoPanicS (liftS r).
Proof. by intros Hr cl. Qed.
Lemma nopanic_mretS {A} (a : A) : NoPanicS (mret a).
Proof. by intros cl. Qed.
Lemma nopanic_open h : NoPanicS (open h).
Proof. by intros cl. Qed.
#[local] Hint Resolve nopanic_bindS nopanic_liftS nopanic_mretS nopanic_open no_panic_guard no_panic_wrap : core.

Lemma bind_listeners_no_panic w im i ls : well_behaved w → NoPanicS (bind_listeners w im i ls).
Proof.
  intros Hw. revert i. induction ls as [|l ls IH]; intros i; cbn [bind_listeners]; [auto|].
  apply nopanic_bindS; [|auto]. destruct im; [auto|].
  apply nopanic_bindS; [|auto]. apply nopanic_liftS, no_panic_wrap, wb_listen, Hw.
Qed.

Lemma add_routes_no_panic name addrs rs : no_panic (foldM (add_route name) rs addrs).
Proof.
  revert rs. induction addrs as [|a addrs IH]; intros rs; cbn [foldM]; [done|].
  apply no_panic_bind; [|intros; apply IH]. unfold add_route. by apply no_panic_bind; [apply no_panic_guard|].
Qed.

Lemma add_listeners_no_panic st ls : NoPanicS (add_listeners st ls).
Proof.
  revert st. induction ls as [|l ls IH]; intros st; cbn [add_listeners]; [auto|].
  apply nopanic_bindS; [apply nopanic_liftS, add_routes_no_panic|auto].
Qed.

Lemma start_listeners_no_panic w c o leaf : well_behaved w → NoPanicS (start_listeners w c o leaf).
Proof.
  intros Hw. unfold start_listeners. apply nopanic_bindS; [by apply bind_listeners_no_panic|intros ls].
  apply nopanic_bindS; [apply add_listeners_no_panic|intros [rs mem]].
  apply nopanic_bindS; [apply nopanic_liftS, wb_listen, Hw|intros http].
  apply nopanic_bindS; [auto|intros _].
  apply nopanic_bindS.
  - destruct (negb _); [|auto]. apply nopanic_bindS; [apply nopanic_liftS, wb_listen, Hw|auto].
  - intros [https url]. apply nopanic_bindS; [apply nopanic_liftS, wb_key, Hw|auto].
Qed.

(** What [Start] does before it opens anything. *)
Definition prepare (w : platform) (c : Config) (o : Options) : res (Config * gostring) :=
  c ← Validate c;
  cert ← serverCertificate w c (Certificate o);
  first ← index_go cert 0;
  leaf ← ParseCertificate w first;
  Ok (c, leaf).

Lemma Start_prepare w c o :
  Start w c o =
    match prepare w (start_config c) o with
    | Ok (c, leaf) =>
       match start_listeners w c o leaf [] with
       | (Ok e, closers) => (Ok e, closers, [])
       | (Err err, closers) => (Err err, closers, closers)
       | (Panic, closers) => (Panic, closers, [])
       end
    | Err err => (Err err, [], [])
    | Panic => (Panic, [], [])
    end.
Proof. done. Qed.

Lemma prepare_Ok w c o c' leaf :
  prepare w (start_config c) o = Ok (c', leaf) → c' = start_config c ∧ WellFormed (start_config c).
Proof.
  unfold prepare. intros (c1 & Hv & H1)%bind_Ok. apply Validate_accepts in Hv as [-> Hwf].
  rewrite start_config_default in *. apply bind_Ok in H1 as (ch & _ & H1).
  apply bind_Ok in H1 as (x & _ & H1). apply bind_Ok in H1 as (y & _ & [= <- _]). done.
Qed.

(** ** No panics before anything is opened *)
Lemma serverCertificate_chain w c o ch : well_behaved w → serverCertificate w c o = Ok ch → ch ≠ [].
Proof.
  intros Hw. unfold serverCertificate. destruct o as [[|x o]|]; [done|by intros [= <-]|].
  destruct (negb _); [apply wb_load, Hw|apply wb_create, Hw].
Qed.

Lemma prepare_no_panic w c o : well_behaved w → no_panic (prepare w c o).
Proof.
  intros Hw. unfold prepare. apply no_panic_bind; [apply Validate_no_panic|intros c' _].
  apply no_panic_bind.
  { unfold serverCertificate. destruct (Certificate o) as [[|x ch]|]; [done..|].
    destruct (negb _); [apply wb_load_returns, Hw|apply wb_create_returns, Hw]. }
  intros ch Hch%serverCertificate_chain; [|done]. destruct ch as [|x ch]; [done|].
  cbn [index_go lookup list_lookup]. rewrite Ok_bind. apply no_panic_bind; [apply wb_parse, Hw|done].
Qed.

(** C27: [Start] either serves or leaves nothing behind: it succeeds only with a
    well-formed configuration, and has then opened exactly a listener for every
    address to serve and closed none; when it fails, whatever failed, it has closed
    everything it opened; and it does not panic. *)
Theorem Start_outcome w c o :
  well_behaved w →
  let '(r, opened, closed) := Start w c o in
  match r with
  | Ok e => WellFormed (start_config c) ∧ serves w o (start_config c) e ∧
            closed = [] ∧ opened = expected_handles o (start_config c)
  | Err _ => closed = opened
  | Panic => False
  end.
Proof.
  intros Hw. rewrite Start_prepare. destruct (prepare w (start_config c) o) as [[c' leaf]|e|] eqn:Hp.
  - apply prepare_Ok in Hp as [-> Hwf].
    pose proof (start_listeners_no_panic w (start_config c) o leaf Hw []) as Hnp.
    destruct (start_listeners _ _ _ _ _) as [[e|e|] cl] eqn:Hs; [|done|done].
    apply start_listeners_Ok in Hs as [Hsv ->]. split_and!; try done.
    unfold expected_handles. do 2 f_equal. rewrite !(list_fmap_compose Name HMemory).
    by rewrite (effective_names _ _ _ _ (sv_config _ _ _ _ Hsv)).
  - done.
  - by apply (prepare_no_panic w (start_config c) o Hw).
Qed.

Lemma Start_Ok w c o e opened closed :
  Start w c o = (Ok e, opened, closed) → WellFormed (start_config c) ∧ serves w o (start_config c) e.
Proof.
  rewrite Start_prepare. destruct (prepare w (start_config c) o) as [[c' leaf]|err|] eqn:Hp; [|done..].
  apply prepare_Ok in Hp as [-> Hwf].
  destruct (start_listeners _ _ _ _ _) as [[e'|err|] cl] eqn:Hs; [|done..].
  intros [= <- _ _]. by apply start_listeners_Ok in Hs as [Hsv _].
Qed.

(** C32: A started emulator routes a dial to a listener exactly when the network is
    supported and the address is the listener's bound address or its host name with
    the bound port; every listener is reported under its name with its bound address
    and has its memory listener. *)
Theorem dial_reaches w c o e opened closed :
  Start w c o = (Ok e, opened, closed) →
  (∀ network addr name, dial_target e network addr = Ok name ↔
     network ∈ [lit "tcp"; lit "tcp4"; lit "tcp6"; []; memory_network] ∧
     ∃ l, l ∈ Listeners (svc_config (svc e)) ∧ Name l = name ∧ addr ∈ dial_addresses l) ∧
  (∀ l, l ∈ Listeners (svc_config (svc e)) →
     ListenerAddr e (Name l) = (Listen l, true) ∧ memory e !! Name l = Some (Listen l)).
Proof.
  intros [Hwf Hsv]%Start_Ok.
  assert (NoDup (Name <$> Listeners (svc_config (svc e)))) as Hnd.
  { rewrite (effective_names _ _ _ _ (sv_config _ _ _ _ Hsv)). apply Hwf. }
  split.
  - intros network addr name. unfold dial_target.
    rewrite guard_bind_Ok, negb_false_iff, bool_decide_eq_true, <- (sv_routes _ _ _ _ Hsv).
    destruct (routes e !! addr) as [n|]; naive_solver.
  - intros l Hl. split; [|rewrite (sv_memory _ _ _ _ Hsv); by apply memory_lookup].
    unfold ListenerAddr. destruct (list_find _ _) as [[i l']|] eqn:Hf.
    + apply list_find_Some in Hf as (Hi & Hn & _). f_equal. f_equal.
      apply list_elem_of_lookup_1 in Hl as [j Hj].
      assert (i = j) as ->; [|congruence].
      eapply NoDup_lookup; [exact Hnd|by rewrite list_lookup_fmap, Hi|by rewrite list_lookup_fmap, Hj; cbn; f_equal].
    + apply list_find_None in Hf. rewrite Forall_forall in Hf. by destruct (Hf l Hl).
Qed.
End start.

(** ** The names of the generated certificate *)
Lemma add_hosts_spec hs st :
  let st' := foldl add_host st hs in
  (∀ h, h ∈ seen st' ↔ h ∈ seen st ∨ (h ∈ hs ∧ h ≠ [])) ∧
  (∀ h, h ∈ DNSNames st' ↔ h ∈ DNSNames st ∨ (h ∈ hs ∧ h ≠ [] ∧ (h ∉ seen st) ∧ ParseIP h = None)) ∧
  (∀ ip, ip ∈ IPAddresses st' ↔ ip ∈ IPAddresses st ∨
     ∃ h, h ∈ hs ∧ h ≠ [] ∧ (h ∉ seen st) ∧ ParseIP h = Some ip) ∧
  (NoDup (DNSNames st) → (∀ h, h ∈ DNSNames st → h ∈ seen st) → NoDup (DNSNames st')).
Proof.
  revert st. induction hs as [|h hs IH]; intros st.
  { cbn. split_and!; [set_solver|set_solver| |done]. intros ip. split; [auto|]. intros [?|(h & Hh & _)]; [done|].
    by apply elem_of_nil in Hh. }
  cbn [foldl]. destruct (IH (add_host st h)) as (I1 & I2 & I3 & I4). clear IH. cbv zeta.
  unfold add_host in *. destruct (empty h || bool_decide (h ∈ seen st)) eqn:Hskip.
  { assert (h = [] ∨ h ∈ seen st) as Hh.
    { apply orb_true_iff in Hskip as [?%empty_true|?%bool_decide_eq_true]; auto. }
    clear Hskip. split_and!; [| | |done].
    - intros x. rewrite I1. set_solver.
    - intros x. rewrite I2. set_solver.
    - intros ip. rewrite I3. set_solver. }
  apply orb_false_iff in Hskip as [Hne%empty_false Hns%bool_decide_eq_false].
  destruct (ParseIP h) as [ip0|] eqn:Hip; cbn [seen DNSNames IPAddresses] in *.
  - split_and!.
    + intros x. rewrite I1. set_solver.
    + intros x. rewrite I2. split; [set_solver|]. intros [?|(Hx & ? & ? & Hn)]; [auto|right].
      assert (x ≠ h) by congruence. set_solver.
    + intros ip. rewrite I3, elem_of_app, list_elem_of_singleton. split.
      * intros [[? | ->]|(x & ? & ? & ? & ?)]; [auto|right; exists h; set_solver|right; exists x; set_solver].
      * intros [?|(x & Hx & ? & ? & ?)]; [auto|]. destruct (decide (x = h)) as [->|Hxh]; [left; right; congruence|].
        right. exists x. set_solver.
    + intros Hnd Hs. apply I4; [done|set_solver].
  - split_and!.
    + intros x. rewrite I1. set_solver.
    + intros x. rewrite I2, elem_of_app, list_elem_of_singleton. split.
      * intros [[? | ->]|?]; [auto|right; set_solver|right; set_solver].
      * intros [?|(Hx & ? & ? & ?)]; [auto|]. destruct (decide (x = h)) as [->|Hxh]; [auto|right; set_solver].
    + intros ip. rewrite I3. split.
      * intros [?|(x & ? & ? & ? & ?)]; [auto|right; exists x; set_solver].
      * intros [?|(x & Hx & ? & ? & ?)]; [auto|]. right. exists x. assert (x ≠ h) by congruence. set_solver.
    + intros Hnd Hs. apply I4; [|set_solver]. apply NoDup_app. split_and!; [done| |apply NoDup_singleton].
      intros x Hx ->%list_elem_of_singleton. by apply Hns, Hs.
Qed.

(** The generated certificate is for localhost, both loopback addresses and the
    host and host name of every listener, each an address if it reads as one and a DNS
    name otherwise; it has no other DNS name, and none twice. *)
Lemma certificate_covers c :
  (∀ h, h ∈ localhost :: loopback4 :: loopback6 :: certificate_hosts c → h ≠ [] →
     match ParseIP h with
     | Some ip => ip ∈ IPAddresses (certificate_names c)
     | None => h ∈ DNSNames (certificate_names c)
     end) ∧
  (∀ h, h ∈ DNSNames (certificate_names c) → h = localhost ∨ h ∈ certificate_hosts c) ∧
  NoDup (DNSNames (certificate_names c)).
Proof.
  unfold certificate_names. destruct (add_hosts_spec (certificate_hosts c) names_init) as (_ & I2 & I3 & I4).
  assert (∀ h, h ∈ seen names_init → h = localhost ∨ h = loopback4 ∨ h = loopback6) as Hseen
    by (cbn; set_solver).
  assert (∀ h, h = localhost ∨ h = loopback4 ∨ h = loopback6 →
     match ParseIP h with
     | Some ip => ip ∈ IPAddresses (foldl add_host names_init (certificate_hosts c))
     | None => h ∈ DNSNames (foldl add_host names_init (certificate_hosts c))
     end) as Hinit.
  { assert (ParseIP localhost = None) as Hl by (by vm_compute).
    assert (ParseIP loopback4 = Some (v4_in_v6 ++ [127; 0; 0; 1])) as H4 by (by vm_compute).
    assert (ParseIP loopback6 = Some (replicate 15 0 ++ [1])) as H6 by (by vm_compute).
    intros h [-> |[-> | ->]]; rewrite ?Hl, ?H4, ?H6.
    - apply I2. left. cbn. by left.
    - apply I3. left. cbn. by left.
    - apply I3. left. cbn. right. by left. }
  split_and!.
  - intros h Hh Hne. destruct (decide (h ∈ seen names_init)) as [Hs|Hs]; [by apply Hinit, Hseen|].
    rewrite !elem_of_cons in Hh. destruct Hh as [?|[?|[?|Hh]]]; [apply Hinit; auto..|].
    destruct (ParseIP h) as [ip|] eqn:Hip.
    + apply I3. right. by exists h.
    + apply I2. by right.
  - intros h [Hh|(Hh & _)]%I2; [|by right]. left. cbn in Hh. by apply list_elem_of_singleton in Hh.
  - apply I4; cbn; [apply NoDup_singleton|]. intros h ->%list_elem_of_singleton. set_solver.
Qed.

(** ** Sessions *)
Definition serving (s : conn_state) : nat := match s with Serving => 1 | _ => 0 end.

Record accept_inv (a : accept_state) : Prop := {
  ai_sem : sem a = total serving (conns a);
  ai_bound : (sem a <= max_sessions)%nat;
  ai_pending : ∀ id, conns a !! id = Some Pending ↔ loop a = Acquiring id
}.

Lemma accept_step_inv cancelled over a a' : accept_step cancelled over a a' → accept_inv a → accept_inv a'.
Proof.
  intros Hstep [Hs Hb Hp]. destruct Hstep as [n cs id Hid| | |n cs id Hn|n cs id _|lp n cs id Hid|lp n cs id Hid];
    cbn [sem conns loop] in *.
  - split; cbn [sem conns loop]; [by rewrite total_insert|done|]. intros id'.
    destruct (decide (id' = id)) as [->|Hne]; [rewrite lookup_insert_eq; naive_solver|].
    rewrite lookup_insert_ne by done. rewrite Hp. naive_solver.
  - by split.
  - split; cbn; try done. intros id. rewrite Hp. naive_solver.
  - assert (cs !! id = Some Pending) as Hid by (by apply Hp).
    pose proof (total_update serving cs id _ Serving Hid) as Ht. cbn in Ht.
    split; cbn [sem conns loop]; [lia|lia|]. intros id'.
    destruct (decide (id' = id)) as [->|Hne]; [rewrite lookup_insert_eq; naive_solver|].
    rewrite lookup_insert_ne by done. rewrite Hp. naive_solver.
  - assert (cs !! id = Some Pending) as Hid by (by apply Hp).
    pose proof (total_update serving cs id _ Closed Hid) as Ht. cbn in Ht.
    split; cbn [sem conns loop]; [lia|done|]. intros id'.
    destruct (decide (id' = id)) as [->|Hne]; [rewrite lookup_insert_eq; naive_solver|].
    rewrite lookup_insert_ne by done. rewrite Hp. naive_solver.
  - pose proof (total_update serving cs id _ Released Hid) as Ht. cbn in Ht.
    split; cbn [sem conns loop]; [lia|lia|]. intros id'. rewrite <- Hp.
    destruct (decide (id' = id)) as [->|Hne]; [rewrite lookup_insert_eq; naive_solver|].
    by rewrite lookup_insert_ne.
  - pose proof (total_update serving cs id _ Closed Hid) as Ht. cbn in Ht.
    split; cbn [sem conns loop]; [lia|lia|]. intros id'. rewrite <- Hp.
    destruct (decide (id' = id)) as [->|Hne]; [rewrite lookup_insert_eq; naive_solver|].
    by rewrite lookup_insert_ne.
Qed.

Lemma accept_reachable_inv a : rtc accept_any accept_init a → accept_inv a.
Proof.
  assert (accept_inv accept_init) as H0.
  { split; [done|cbn; lia|]. intros id. cbn. rewrite lookup_empty. naive_solver. }
  revert H0. generalize accept_init. intros a0 HI Hrtc.
  induction Hrtc as [|a0 a1 a2 (c & o & Hstep) _ IH]; [done|]. by apply IH, (accept_step_inv c o a0).
Qed.

Lemma total_ge {A} (f : A → nat) (cs : gmap nat A) t c : cs !! t = Some c → (f c <= total f cs)%nat.
Proof. intros Ht. unfold total. rewrite (map_fold_delete_L _ _ t c cs) by (done || intros; lia). lia. Qed.

(** In every interleaving, an accept loop serves at most 256 sessions at a time
    and holds at most one connection that waits for the semaphore; that connection is
    served next unless 256 sessions run, and every session that ends gives back its
    place and closes its connection without blocking. *)
Lemma accept_sessions a :
  rtc accept_any accept_init a →
  (total serving (conns a) ≤ max_sessions)%nat ∧
  (∀ id, conns a !! id = Some Pending ↔ loop a = Acquiring id) ∧
  (∀ id, loop a = Acquiring id →
     (∃ a', accept_step false false a a' ∧ conns a' !! id = Some Serving) ∨ total serving (conns a) = max_sessions) ∧
  (∀ id, conns a !! id = Some Serving →
     ∃ a1 a2, accept_step false false a a1 ∧ conns a1 !! id = Some Released ∧
              accept_step false false a1 a2 ∧ conns a2 !! id = Some Closed ∧
              S (total serving (conns a2)) = total serving (conns a)).
Proof.
  intros [Hs Hb Hp]%accept_reachable_inv. destruct a as [lp n cs]. cbn [sem conns loop] in *.
  split; [lia|]. split; [done|]. split.
  - intros id ->. destruct (decide (n < max_sessions)%nat) as [Hlt|Hge]; [left|right; lia].
    eexists. split; [by apply accept_acquired|]. apply lookup_insert_eq.
  - intros id Hid. pose proof (total_ge serving cs id _ Hid) as Hge. cbn in Hge.
    destruct n as [|n]; [lia|]. eexists _, _. split; [by apply session_released|].
    split; [apply lookup_insert_eq|]. split; [apply session_closed, lookup_insert_eq|].
    split; [apply lookup_insert_eq|]. cbn [conns]. rewrite insert_insert_eq.
    pose proof (total_update serving cs id _ Closed Hid) as Ht. cbn in Ht. lia.
Qed.
