(* ===== verification/Lifecycle.v ===== *)
(** * The running emulator and its end (src/iamproxy/server.go, [serve] and
    [Close]; memconn.go, [memListener])

    What [serve] starts: an accept loop per TCP listener, an accept loop per
    in-memory listener, one or two HTTP servers, and the goroutine that waits for
    the context, closes the listeners, shuts the servers down, waits for all of
    them and closes [done].  Connections queue at a listener: at a TCP listener in
    its backlog, at an in-memory listener as calls of [DialContext] that send on
    the unbuffered channel [conns], which the accept loop receives from. *)
From stdpp Require Import relations.
From S2P Require Import Prelude NetAddr Sha256 Rsa Config Identity Server.

(** ** A listener and its accept loop *)
Inductive dial_result := DialConnected | DialErrClosed | DialErrContext.

Record listening := mkListening {
  in_memory : bool;
  over : bool;                         (* closed; [done] of a [memListener] *)
  queue : gset nat;                    (* connections and dials that wait *)
  accepting : accept_state;
  dialed : gmap nat dial_result        (* the dials that have returned *)
}.

Definition newListening (mem : bool) : listening := mkListening mem false ∅ accept_init ∅.

Definition listener_close (l : listening) : listening :=
  mkListening (in_memory l) true (queue l) (accepting l) (dialed l).

(** A rendezvous of the queue and the loop; a step of the loop that takes no
    connection; a dial that finds the listener closed. *)
Inductive listener_go (cancelled : bool) : listening → listening → Prop :=
  | listener_accept mem ov q n cs id ds :
      id ∈ q → mem = true ∨ ov = false → cs !! id = None →
      listener_go cancelled (mkListening mem ov q (mkAccept Accepting n cs) ds)
        (mkListening mem ov (q ∖ {[id]}) (mkAccept (Acquiring id) n (<[id := Pending]> cs)) (<[id := DialConnected]> ds))
  | listener_over mem ov q n cs ds :
      ov = true →
      listener_go cancelled (mkListening mem ov q (mkAccept Accepting n cs) ds)
        (mkListening mem ov q (mkAccept Returned n cs) ds)
  | listener_acquired mem ov q n cs id ds :
      (n < max_sessions)%nat →
      listener_go cancelled (mkListening mem ov q (mkAccept (Acquiring id) n cs) ds)
        (mkListening mem ov q (mkAccept Accepting (S n) (<[id := Serving]> cs)) ds)
  | listener_cancelled mem ov q n cs id ds :
      cancelled = true →
      listener_go cancelled (mkListening mem ov q (mkAccept (Acquiring id) n cs) ds)
        (mkListening mem ov q (mkAccept Returned n (<[id := Closed]> cs)) ds)
  | listener_dial_closed q a id ds :
      id ∈ q →
      listener_go cancelled (mkListening true true q a ds)
        (mkListening true true (q ∖ {[id]}) a (<[id := DialErrClosed]> ds)).

(** What comes from outside: a connection or a dial arrives, a dial's context
    ends, [Accept] of a TCP listener fails for some other reason than its close, a
    session ends. *)
Inductive listener_env (cancelled : bool) : listening → listening → Prop :=
  | listener_arrives mem ov q a id ds :
      id ∉ q → conns a !! id = None → ds !! id = None →
      listener_env cancelled (mkListening mem ov q a ds) (mkListening mem ov ({[id]} ∪ q) a ds)
  | listener_dial_context ov q a id ds :
      id ∈ q →
      listener_env cancelled (mkListening true ov q a ds)
        (mkListening true ov (q ∖ {[id]}) a (<[id := DialErrContext]> ds))
  | listener_failed q n cs ds :
      cancelled = false →
      listener_env cancelled (mkListening false false q (mkAccept Accepting n cs) ds)
        (mkListening false false q (mkAccept Accepting n cs) ds)
  | listener_failed_cancelled q n cs ds :
      cancelled = true →
      listener_env cancelled (mkListening false false q (mkAccept Accepting n cs) ds)
        (mkListening false false q (mkAccept Returned n cs) ds)
  | listener_released mem ov q lp n cs id ds :
      cs !! id = Some Serving →
      listener_env cancelled (mkListening mem ov q (mkAccept lp (S n) cs) ds)
        (mkListening mem ov q (mkAccept lp n (<[id := Released]> cs)) ds)
  | listener_conn_closed mem ov q lp n cs id ds :
      cs !! id = Some Released →
      listener_env cancelled (mkListening mem ov q (mkAccept lp n cs) ds)
        (mkListening mem ov q (mkAccept lp n (<[id := Closed]> cs)) ds).

(** ** The emulator *)
Inductive server := Serves | ShutDown | ServerReturned.

Definition shutdown (s : server) : server := match s with Serves => ShutDown | _ => s end.

(** The goroutine of [serve]: [todo] are the listeners not closed yet, [k] the
    number of servers shut down. *)
Inductive watching := WaitContext | CloseListeners (todo : list nat) | Shutdowns (k : nat) | WaitGroup | DoneClosed.

Record emulating := mkEmulating {
  cancelled : bool;
  listeners_of : list listening;
  servers : list server;
  watcher : watching
}.

(** What [serve] starts: the accept loops of the bound TCP listeners first. *)
Definition serve (c : Config) (o : Options) : emulating :=
  let n := length (Listeners c) in
  mkEmulating false
    ((if InMemory o then [] else replicate n (newListening false)) ++ replicate n (newListening true))
    (if empty (HTTPSListen c) then [Serves] else [Serves; Serves]) WaitContext.

(** The order in which the listeners are closed: the TCP ones in order, then the
    others in the order in which the map is iterated. *)
Definition close_order (ls : list listening) (todo : list nat) : Prop :=
  let t := length (filter (λ l : listening, in_memory l = false) ls) in
  ∃ mems, todo = seq 0 t ++ mems ∧ mems ≡ₚ seq t (length ls - t).

Inductive emulator_go : emulating → emulating → Prop :=
  | go_listener ca ls ss w k l l' :
      ls !! k = Some l → listener_go ca l l' →
      emulator_go (mkEmulating ca ls ss w) (mkEmulating ca (<[k := l']> ls) ss w)
  | go_server ca ls ss w k :
      ss !! k = Some ShutDown →
      emulator_go (mkEmulating ca ls ss w) (mkEmulating ca ls (<[k := ServerReturned]> ss) w)
  | go_context ls ss todo :
      close_order ls todo →
      emulator_go (mkEmulating true ls ss WaitContext) (mkEmulating true ls ss (CloseListeners todo))
  | go_close ca ls ss k l todo :
      ls !! k = Some l →
      emulator_go (mkEmulating ca ls ss (CloseListeners (k :: todo)))
        (mkEmulating ca (<[k := listener_close l]> ls) ss (CloseListeners todo))
  | go_closed ca ls ss : emulator_go (mkEmulating ca ls ss (CloseListeners [])) (mkEmulating ca ls ss (Shutdowns 0))
  | go_shutdown ca ls ss k s :
      ss !! k = Some s →
      emulator_go (mkEmulating ca ls ss (Shutdowns k)) (mkEmulating ca ls (<[k := shutdown s]> ss) (Shutdowns (S k)))
  | go_all_shut ca ls ss k :
      ss !! k = None →
      emulator_go (mkEmulating ca ls ss (Shutdowns k)) (mkEmulating ca ls ss WaitGroup)
  | go_done ca ls ss :
      Forall (λ l, loop (accepting l) = Returned) ls → Forall (eq ServerReturned) ss →
      emulator_go (mkEmulating ca ls ss WaitGroup) (mkEmulating ca ls ss DoneClosed).

(** [e.stop()] or the end of the caller's context, a server that fails, and what
    happens at the listeners. *)
Inductive emulator_env : emulating → emulating → Prop :=
  | env_cancel ca ls ss w : emulator_env (mkEmulating ca ls ss w) (mkEmulating true ls ss w)
  | env_listener ca ls ss w k l l' :
      ls !! k = Some l → listener_env ca l l' →
      emulator_env (mkEmulating ca ls ss w) (mkEmulating ca (<[k := l']> ls) ss w)
  | env_server ca ls ss w k :
      ss !! k = Some Serves →
      emulator_env (mkEmulating ca ls ss w) (mkEmulating ca ls (<[k := ServerReturned]> ss) w).

Definition emulator_step (e e' : emulating) : Prop := emulator_go e e' ∨ emulator_env e e'.
Definition emulator_reachable (c : Config) (o : Options) : emulating → Prop := rtc emulator_step (serve c o).
