(* ===== verification/LifecycleSpec.v ===== *)
(** * The running emulator: dials are answered, and [Close] returns *)
From stdpp Require Import relations.
From S2P Require Import Prelude Steps Config Identity Server ServerSpec Lifecycle.

(** ** Lists of components *)
Lemma sum_insert {A} (f : A → nat) l k x y :
  l !! k = Some x → (sum_list_with f (<[k := y]> l) + f x = sum_list_with f l + f y)%nat.
Proof.
  revert k. induction l as [|a l IH]; intros [|k] Hk; try done; simpl in *.
  - injection Hk as ->. lia.
  - specialize (IH k Hk). lia.
Qed.

Lemma Forall_insert {A} (P : A → Prop) l k y : Forall P l → P y → Forall P (<[k := y]> l).
Proof.
  intros Hl Hy. apply Forall_lookup. intros i z Hz. destruct (decide (i = k)) as [->|Hne].
  - destruct (decide (k < length l)%nat).
    + rewrite list_lookup_insert_eq in Hz by done. by injection Hz as <-.
    + rewrite list_insert_ge in Hz by lia. by eapply Forall_lookup_1.
  - rewrite list_lookup_insert_ne in Hz by done. by eapply Forall_lookup_1.
Qed.

(** ** One listener *)
Record listening_inv (l : listening) : Prop := {
  li_accept : accept_inv (accepting l);
  li_queue id : id ∈ queue l → conns (accepting l) !! id = None ∧ dialed l !! id = None;
  li_connected id : dialed l !! id = Some DialConnected ↔ is_Some (conns (accepting l) !! id);
  li_closed id : dialed l !! id = Some DialErrClosed → over l = true
}.

Lemma newListening_inv mem : listening_inv (newListening mem).
Proof.
  split; cbn.
  - apply accept_reachable_inv, rtc_refl.
  - set_solver.
  - intros id. rewrite !lookup_empty. split; [done|by intros [? ?]].
  - intros id. by rewrite lookup_empty.
Qed.

(** What the listener does to its accept loop. *)
Lemma listener_go_accept ca l l' :
  listener_go ca l l' →
  accepting l' = accepting l ∨ ∃ b, accept_step ca b (accepting l) (accepting l').
Proof.
  destruct 1 as [mem ov q n cs id ds Hid Ho Hcs|mem ov q n cs ds Ho|mem ov q n cs id ds Hn|mem ov q n cs id ds Hc|];
    cbn; [right; exists ov|right; exists ov|right; exists ov|right; exists ov|by left]; constructor; auto.
Qed.
Lemma listener_env_accept ca l l' :
  listener_env ca l l' →
  accepting l' = accepting l ∨ ∃ b, accept_step ca b (accepting l) (accepting l').
Proof.
  destruct 1; cbn; try (by left); right; exists false; constructor; auto.
Qed.

Lemma accept_of ca b l l' :
  accept_step ca b (accepting l) (accepting l') → accept_inv (accepting l) → accept_inv (accepting l').
Proof. apply accept_step_inv. Qed.

(** Steps that only change the state of a connection the loop already has. *)
Lemma known_insert (cs : gmap nat conn_state) id s id' :
  is_Some (cs !! id) → is_Some (<[id := s]> cs !! id') ↔ is_Some (cs !! id').
Proof.
  intros Hs. destruct (decide (id' = id)) as [->|Hne]; [by rewrite lookup_insert_eq|by rewrite lookup_insert_ne].
Qed.

Lemma known_inv mem ov ov' q a a' ds id s :
  listening_inv (mkListening mem ov q a ds) → accept_inv a' → is_Some (conns a !! id) →
  conns a' = <[id := s]> (conns a) → ov' = ov → listening_inv (mkListening mem ov' q a' ds).
Proof.
  intros [Ha Hq Hc Hcl] Ha' Hid Hcs ->. split; cbn in *; [done| |by intros id'; rewrite Hcs, known_insert|done].
  intros id' Hid'. destruct (Hq id' Hid') as [Hn ?]. rewrite Hcs. split; [|done].
  rewrite lookup_insert_ne; [done|]. intros ->. rewrite Hn in Hid. by destruct Hid.
Qed.

Lemma queue_inv mem ov q q' a a' ds :
  listening_inv (mkListening mem ov q a ds) → accept_inv a' → conns a' = conns a →
  q' ⊆ q → listening_inv (mkListening mem ov q' a' ds).
Proof. intros [Ha Hq Hc Hcl] Ha' Hcs Hsub. split; cbn in *; rewrite ?Hcs; auto. Qed.

Lemma dialed_inv mem ov q a ds id r :
  listening_inv (mkListening mem ov q a ds) → id ∈ q → r ≠ DialConnected → (r = DialErrClosed → ov = true) →
  listening_inv (mkListening mem ov (q ∖ {[id]}) a (<[id := r]> ds)).
Proof.
  intros [Ha Hq Hc Hcl] Hid Hr Hov. split; cbn in *; [done|..].
  - intros id' [Hq' Hne%not_elem_of_singleton]%elem_of_difference. rewrite lookup_insert_ne by done. auto.
  - intros id'. destruct (decide (id' = id)) as [->|Hne].
    + rewrite lookup_insert_eq. destruct (Hq id Hid) as [-> _]. split; [by intros [= ->]|by intros [? ?]].
    + by rewrite lookup_insert_ne.
  - intros id'. destruct (decide (id' = id)) as [->|Hne].
    + rewrite lookup_insert_eq. intros [= ->]. auto.
    + rewrite lookup_insert_ne by done. apply Hcl.
Qed.

Lemma listener_go_inv ca l l' : listener_go ca l l' → listening_inv l → listening_inv l'.
Proof.
  intros Hstep Hi. assert (accept_inv (accepting l')) as Ha'.
  { destruct (listener_go_accept _ _ _ Hstep) as [->|[b Hs]]; [apply Hi|by eapply accept_of, Hi]. }
  destruct Hstep as [mem ov q n cs id ds Hid Ho Hcs|mem ov q n cs ds Ho|mem ov q n cs id ds Hn|mem ov q n cs id ds Hca
    |q a id ds Hid]; cbn in Ha'.
  - destruct Hi as [Ha Hq Hc Hcl]. split; cbn in *; [done|..].
    + intros id' [Hq' Hne%not_elem_of_singleton]%elem_of_difference. rewrite !lookup_insert_ne by done. auto.
    + intros id'. destruct (decide (id' = id)) as [->|Hne]; [by rewrite !lookup_insert_eq|].
      by rewrite !lookup_insert_ne.
    + intros id'. destruct (decide (id' = id)) as [->|Hne]; [by rewrite lookup_insert_eq|].
      rewrite lookup_insert_ne by done. apply Hcl.
  - by eapply queue_inv.
  - eapply known_inv; [done..| |done|done]. cbn. exists Pending. by apply (ai_pending _ (li_accept _ Hi)).
  - eapply known_inv; [done..| |done|done]. cbn. exists Pending. by apply (ai_pending _ (li_accept _ Hi)).
  - by apply dialed_inv.
Qed.

Lemma listener_env_inv ca l l' : listener_env ca l l' → listening_inv l → listening_inv l'.
Proof.
  intros Hstep Hi. assert (accept_inv (accepting l')) as Ha'.
  { destruct (listener_env_accept _ _ _ Hstep) as [->|[b Hs]]; [apply Hi|by eapply accept_of, Hi]. }
  destruct Hstep as [mem ov q a id ds Hq Hc Hd|ov q a id ds Hid| |q n cs ds|mem ov q lp n cs id ds Hid|mem ov q lp n cs id ds Hid];
    cbn in Ha'; try done.
  - destruct Hi as [Hi1 Hi2 Hi3 Hi4]. split; cbn in *; [done| |done|done].
    intros id' [->%elem_of_singleton|Hid]%elem_of_union; auto.
  - by apply dialed_inv.
  - by eapply queue_inv.
  - by eapply known_inv.
  - by eapply known_inv.
Qed.

Lemma listener_close_inv l : listening_inv l → listening_inv (listener_close l).
Proof. intros [? ? ? Hcl]. by split. Qed.

(** What a step at a listener does not change. *)
Lemma listener_go_keeps ca l l' :
  listener_go ca l l' →
  over l' = over l ∧ in_memory l' = in_memory l ∧
  (loop (accepting l) = Returned → loop (accepting l') = Returned).
Proof. by destruct 1. Qed.
Lemma listener_go_returned ca l l' :
  listener_go ca l l' → loop (accepting l') = Returned →
  loop (accepting l) = Returned ∨ ca = true ∨ over l = true.
Proof. destruct 1; cbn; naive_solver. Qed.
Lemma listener_env_keeps ca l l' :
  listener_env ca l l' →
  over l' = over l ∧ in_memory l' = in_memory l ∧
  (loop (accepting l) = Returned → loop (accepting l') = Returned) ∧
  (loop (accepting l') = Returned → loop (accepting l) = Returned ∨ ca = true).
Proof. destruct 1; cbn; auto. Qed.

Definition loop_measure (s : loop_state) : nat :=
  match s with Accepting => 1 | Acquiring _ => 2 | Returned => 0 end.
Definition listener_measure (l : listening) : nat := 2 * size (queue l) + loop_measure (loop (accepting l)).

Lemma size_remove (q : gset nat) id : id ∈ q → (size (q ∖ {[id]}) < size q)%nat.
Proof. intros Hid. apply subset_size. set_solver. Qed.

Lemma listener_go_less ca l l' : listener_go ca l l' → (listener_measure l' < listener_measure l)%nat.
Proof.
  unfold listener_measure.
  destruct 1 as [mem ov q n cs id ds Hid Ho Hcs| | | |q a id ds Hid]; cbn; [|lia..|].
  - pose proof (size_remove q id Hid). lia.
  - pose proof (size_remove q id Hid). lia.
Qed.

(** A listener that is over and whose context is done goes on until its loop has
    returned and, when it is in memory, no dial waits. *)
Definition settled (l : listening) : Prop :=
  loop (accepting l) = Returned ∧ (in_memory l = true → queue l = ∅).

Lemma listener_settles l :
  listening_inv l → over l = true → settled l ∨ ∃ l', listener_go true l l'.
Proof.
  destruct l as [mem ov q [lp n cs] ds]. cbn. intros Hi ->. destruct lp as [|id|].
  - right. eexists. by apply listener_over.
  - right. eexists. by apply listener_cancelled.
  - destruct mem; [|by left]. destruct (set_choose_or_empty q) as [[id Hid]|Hq%leibniz_equiv].
    + right. eexists. by apply listener_dial_closed.
    + by left.
Qed.

(** ** The whole emulator *)
Definition server_measure (s : server) : nat := match s with ServerReturned => 0 | _ => 1 end.
Definition watcher_measure (e : emulating) : nat :=
  match watcher e with
  | WaitContext => length (listeners_of e) + length (servers e) + 5
  | CloseListeners todo => length todo + length (servers e) + 4
  | Shutdowns k => length (servers e) - k + 2
  | WaitGroup => 1
  | DoneClosed => 0
  end.
Definition emulator_measure (e : emulating) : nat :=
  sum_list_with listener_measure (listeners_of e) + sum_list_with server_measure (servers e) + watcher_measure e.

Lemma close_order_perm ls todo : close_order ls todo → todo ≡ₚ seq 0 (length ls).
Proof.
  intros (mems & -> & ->). set (t := length _).
  assert (t ≤ length ls)%nat by (unfold t; apply length_filter).
  rewrite <- seq_app. by replace (t + (length ls - t))%nat with (length ls) by lia.
Qed.

Lemma close_order_exists ls : ∃ todo, close_order ls todo.
Proof. eexists _, _. by split. Qed.

Lemma emulator_go_less e e' : emulator_go e e' → (emulator_measure e' < emulator_measure e)%nat.
Proof.
  unfold emulator_measure, watcher_measure.
  destruct 1 as [ca ls ss w k l l' Hk Hl|ca ls ss w k Hk|ls ss todo Ho|ca ls ss k l todo Hk|
    |ca ls ss k s Hk|ca ls ss k Hk|]; cbn [listeners_of servers watcher].
  - apply listener_go_less in Hl. pose proof (sum_insert listener_measure ls k l l' Hk).
    rewrite length_insert. lia.
  - pose proof (sum_insert server_measure ss k _ ServerReturned Hk) as Hs. cbn in Hs.
    rewrite length_insert. lia.
  - apply close_order_perm, Permutation_length in Ho. rewrite length_seq in Ho. lia.
  - pose proof (sum_insert listener_measure ls k l (listener_close l) Hk) as Hs.
    change (listener_measure (listener_close l)) with (listener_measure l) in Hs. cbn [length]. lia.
  - lia.
  - pose proof (sum_insert server_measure ss k s (shutdown s) Hk) as Hs.
    assert (server_measure (shutdown s) = server_measure s) by (by destruct s).
    apply lookup_lt_Some in Hk. rewrite length_insert. lia.
  - lia.
  - lia.
Qed.

(** The watcher's progress. *)
Definition all_over (ls : list listening) : Prop := Forall (λ l, over l = true) ls.
Definition watcher_inv (e : emulating) : Prop :=
  match watcher e with
  | WaitContext => True
  | CloseListeners todo =>
     Forall (λ k, k < length (listeners_of e)) todo ∧
     ∀ k l, listeners_of e !! k = Some l → k ∈ todo ∨ over l = true
  | Shutdowns k => all_over (listeners_of e) ∧ ∀ j, (j < k)%nat → servers e !! j ≠ Some Serves
  | WaitGroup => all_over (listeners_of e) ∧ Forall (λ s, s ≠ Serves) (servers e)
  | DoneClosed =>
     all_over (listeners_of e) ∧ Forall (λ l, loop (accepting l) = Returned) (listeners_of e) ∧
     Forall (eq ServerReturned) (servers e)
  end.

Record emulating_inv (e : emulating) : Prop := {
  ei_listeners : Forall listening_inv (listeners_of e);
  ei_over : Exists (λ l, over l = true) (listeners_of e) → cancelled e = true;
  ei_cancelled : watcher e ≠ WaitContext → cancelled e = true;
  ei_returned : Forall (λ l, loop (accepting l) = Returned → cancelled e = true) (listeners_of e);
  ei_watcher : watcher_inv e
}.

Lemma replace_over ls k l l' :
  ls !! k = Some l → (over l' = true → over l = true) →
  Exists (λ l, over l = true) (<[k := l']> ls) → Exists (λ l, over l = true) ls.
Proof.
  rewrite !Exists_exists. intros Hk Ho (x & [i Hi]%list_elem_of_lookup_1 & Hx).
  destruct (decide (i = k)) as [->|Hne].
  - rewrite list_lookup_insert_eq in Hi by (by eapply lookup_lt_Some). injection Hi as <-.
    exists l. split; [by eapply list_elem_of_lookup_2|auto].
  - rewrite list_lookup_insert_ne in Hi by done. exists x. split; [by eapply list_elem_of_lookup_2|done].
Qed.

(** A listener changes at most in ways its loop and the dials allow. *)
Lemma replace_listener ca ls ss w k l l' :
  ls !! k = Some l → over l' = over l →
  (loop (accepting l) = Returned → loop (accepting l') = Returned) →
  (loop (accepting l') = Returned → ca = true) → listening_inv l' →
  emulating_inv (mkEmulating ca ls ss w) → emulating_inv (mkEmulating ca (<[k := l']> ls) ss w).
Proof.
  intros Hk Ho Hloop Hret Hl' [Hl Hov Hca Hrs Hw]. cbn in *.
  assert (all_over ls → all_over (<[k := l']> ls)) as Hall.
  { intros Ha. apply Forall_insert; [done|]. rewrite Ho. by eapply Forall_lookup_1 in Ha. }
  split; cbn; [by apply Forall_insert| |done|by apply Forall_insert|].
  - intros He. apply Hov. eapply replace_over; [done| |done]. congruence.
  - unfold watcher_inv in *. cbn in *. rewrite length_insert. destruct w; try done.
    + destruct Hw as [Ht Hcov]. split; [done|]. intros i x Hi. destruct (decide (i = k)) as [->|Hne].
      * rewrite list_lookup_insert_eq in Hi by (by eapply lookup_lt_Some). injection Hi as <-.
        rewrite Ho. by apply Hcov.
      * rewrite list_lookup_insert_ne in Hi by done. by apply Hcov.
    + destruct Hw as [? ?]. by split; [apply Hall|].
    + destruct Hw as [? ?]. by split; [apply Hall|].
    + destruct Hw as (? & Hr & ?). split; [by apply Hall|]. split; [|done].
      apply Forall_insert; [done|]. apply Hloop. by eapply Forall_lookup_1 in Hr.
Qed.

(** A server that changes to [s] which does not serve. *)
Lemma replace_server ca ls ss w k s :
  s = ServerReturned → emulating_inv (mkEmulating ca ls ss w) → emulating_inv (mkEmulating ca ls (<[k := s]> ss) w).
Proof.
  intros -> [Hl Hov Hca Hrs Hw]. split; cbn; [done..|]. unfold watcher_inv in *. cbn in *. destruct w; try done.
  - destruct Hw as [Ho Hs]. split; [done|]. intros j Hj. destruct (decide (j = k)) as [->|Hne].
    + intros [[_ ?]|[? ?]]%list_lookup_insert_Some; naive_solver.
    + rewrite list_lookup_insert_ne by done. auto.
  - destruct Hw as [? ?]. split; [done|]. by apply Forall_insert.
  - destruct Hw as (? & ? & ?). split; [done|]. split; [done|]. by apply Forall_insert.
Qed.

Lemma emulator_go_inv e e' : emulator_go e e' → emulating_inv e → emulating_inv e'.
Proof.
  destruct 1 as [ca ls ss w k l l' Hk Hl|ca ls ss w k Hk|ls ss todo Ho|ca ls ss k l todo Hk|
    |ca ls ss k s Hk|ca ls ss k Hk|ca ls ss Hl Hs]; intros Hi.
  - pose proof (listener_go_keeps _ _ _ Hl) as (Ho & _ & Hloop). eapply replace_listener; [done..| | |done].
    + intros [Hr|[?|Hov]]%(listener_go_returned _ _ _ Hl); [|done|].
      * pose proof (ei_returned _ Hi) as Hrs. eapply Forall_lookup_1 in Hrs; [|exact Hk]. auto.
      * apply (ei_over _ Hi), Exists_exists. exists l. split; [by eapply list_elem_of_lookup_2|done].
    + eapply listener_go_inv; [done|]. by eapply Forall_lookup_1 in Hk; [|apply Hi].
  - by apply replace_server.
  - destruct Hi as [H1 H2 H3 H4 H5]. split; [done..|]. cbn in *. apply close_order_perm in Ho.
    split.
    + apply Forall_forall. intros k. rewrite Ho, elem_of_seq. lia.
    + intros k l Hk%lookup_lt_Some. left. rewrite Ho, elem_of_seq. lia.
  - destruct Hi as [H1 H2 H3 H4 [Ht Hcov]]; cbn in *. apply Forall_cons in Ht as [Hlt Ht].
    assert (ca = true) as -> by (by apply H3). split; cbn; [|done|done|by apply Forall_insert|].
    + apply Forall_insert; [done|]. apply listener_close_inv. by eapply Forall_lookup_1 in Hk.
    + split; [by rewrite length_insert|]. intros i x Hx. destruct (decide (i = k)) as [->|Hne].
      * right. rewrite list_lookup_insert_eq in Hx by done. by injection Hx as <-.
      * rewrite list_lookup_insert_ne in Hx by done. destruct (Hcov i x Hx) as [Hin|]; [|by right].
        left. by apply elem_of_cons in Hin as [?|?].
  - destruct Hi as [H1 H2 H3 H4 [_ Hcov]]. cbn in *. split; [done|done|intros _; by apply H3|done|]. cbn. split; [|lia].
    apply Forall_lookup. intros i x Hx. destruct (Hcov i x Hx) as [[]%elem_of_nil|?]; done.
  - destruct Hi as [H1 H2 H3 H4 [Ho Hs]]. cbn in *. split; [done|done|intros _; by apply H3|done|]. cbn. split; [done|].
    intros j Hj. destruct (decide (j = k)) as [->|Hne].
    + rewrite list_lookup_insert_eq by (by eapply lookup_lt_Some). by destruct s.
    + rewrite list_lookup_insert_ne by done. apply Hs. lia.
  - destruct Hi as [H1 H2 H3 H4 [Ho Hs]]. cbn in *. split; [done|done|intros _; by apply H3|done|]. cbn. split; [done|].
    apply Forall_lookup. intros j s Hj -> . apply (Hs j); [|done].
    apply lookup_lt_Some in Hj. apply lookup_ge_None in Hk. lia.
  - destruct Hi as [H1 H2 H3 H4 [Ho _]]. split; [done|done|intros _; by apply H3|done|]. by split.
Qed.

Lemma emulator_env_inv e e' : emulator_env e e' → emulating_inv e → emulating_inv e'.
Proof.
  destruct 1 as [ca ls ss w|ca ls ss w k l l' Hk Hl|ca ls ss w k Hk]; intros Hi.
  - destruct Hi as [H1 H2 H3 H4 H5]. split; try done. cbn. by apply Forall_true.
  - pose proof (listener_env_keeps _ _ _ Hl) as (Ho & _ & Hloop & Hret). eapply replace_listener; [done|done|done| | |done].
    { intros [Hr|?]%Hret; [|done]. pose proof (ei_returned _ Hi) as Hrs.
      eapply Forall_lookup_1 in Hrs; [|exact Hk]. auto. }
    eapply listener_env_inv; [done|]. by eapply Forall_lookup_1 in Hk; [|apply Hi].
  - by apply replace_server.
Qed.

Lemma serve_inv c o : emulating_inv (serve c o).
Proof.
  assert (∀ n mem, Forall listening_inv (replicate n (newListening mem))) as Hf.
  { intros n mem. apply Forall_replicate, newListening_inv. }
  assert (∀ n mem, ¬ Exists (λ l, over l = true) (replicate n (newListening mem))) as Hn.
  { intros n mem (x & [-> _]%elem_of_replicate & Hx)%Exists_exists. done. }
  split; cbn.
  - apply Forall_app. split; [destruct (InMemory o); [done|apply Hf]|apply Hf].
  - intros [He|He]%Exists_app; [|by apply Hn in He]. destruct (InMemory o); [by apply Exists_nil in He|by apply Hn in He].
  - done.
  - apply Forall_forall. intros l Hl Hret. exfalso. destruct (InMemory o); cbn in Hl;
      rewrite ?elem_of_app, ?elem_of_replicate in Hl; naive_solver.
  - done.
Qed.

Lemma emulator_reachable_inv c o e : emulator_reachable c o e → emulating_inv e.
Proof.
  intros Hr. eapply (rtc_invariant emulator_step); [|exact Hr|apply serve_inv].
  intros x y [Hgo|Henv]; [by apply emulator_go_inv|by apply emulator_env_inv].
Qed.

(** ** The end *)
Record stopped (e : emulating) : Prop := {
  st_done : watcher e = DoneClosed;
  st_listeners : Forall (λ l, over l = true ∧ settled l ∧ ∀ id, conns (accepting l) !! id ≠ Some Pending) (listeners_of e);
  st_servers : Forall (eq ServerReturned) (servers e)
}.

Lemma listeners_progress ca ls :
  ca = true → Forall listening_inv ls → all_over ls →
  Forall settled ls ∨ ∃ k l l', ls !! k = Some l ∧ listener_go ca l l'.
Proof.
  intros -> Hi Ho. unfold all_over in *. induction ls as [|l ls IH]; [by left|].
  apply Forall_cons in Hi as [Hil Hi], Ho as [Hol Ho].
  destruct (listener_settles l Hil Hol) as [Hs|[l' Hl]]; [|by right; exists 0%nat, l, l'].
  destruct (IH Hi Ho) as [Hall|(k & x & x' & Hk & Hx)]; [by left; constructor|].
  right. by exists (S k), x, x'.
Qed.

Lemma servers_progress ss :
  Forall (λ s, s ≠ Serves) ss → Forall (eq ServerReturned) ss ∨ ∃ k, ss !! k = Some ShutDown.
Proof.
  induction ss as [|s ss IH]; [by left|]. intros [Hs Hss]%Forall_cons. destruct s; [done|by right; exists 0%nat|].
  destruct (IH Hss) as [?|[k Hk]]; [by left; constructor|by right; exists (S k)].
Qed.

Lemma settled_stopped e :
  emulating_inv e → watcher e = DoneClosed → Forall settled (listeners_of e) → stopped e.
Proof.
  intros [Hi _ _ _ Hw] Hd Hs. unfold watcher_inv in Hw. rewrite Hd in Hw. destruct Hw as (Ho & Hr & Hss).
  split; [done| |done]. apply Forall_lookup. intros k l Hk.
  eapply Forall_lookup_1 in Hi, Ho, Hs; [|exact Hk..]. split; [done|]. split; [done|].
  intros id Hp%(ai_pending _ (li_accept _ Hi)). destruct Hs as [Hs _]. congruence.
Qed.

Lemma emulator_progress e :
  emulating_inv e → cancelled e = true → stopped e ∨ ∃ e', emulator_go e e'.
Proof.
  destruct e as [ca ls ss w]. cbn. intros Hi ->. pose proof Hi as [Hl _ _ _ Hw]. unfold watcher_inv in Hw. cbn in *.
  destruct w as [|todo|k| |].
  - right. destruct (close_order_exists ls) as [todo Ho]. eexists. by apply go_context.
  - right. destruct todo as [|k todo]; [eexists; apply go_closed|]. destruct Hw as [[Hlt _]%Forall_cons _].
    apply lookup_lt_is_Some in Hlt as [l Hk]. eexists. by eapply go_close.
  - right. destruct (ss !! k) as [s|] eqn:Hk; eexists; [by eapply go_shutdown|by apply go_all_shut].
  - right. destruct Hw as [Ho Hs].
    destruct (listeners_progress true ls eq_refl Hl Ho) as [Hset|(k & l & l' & Hk & Hgo)]; [|eexists; by eapply go_listener].
    destruct (servers_progress ss Hs) as [Hr|[k Hk]]; [|eexists; by apply go_server].
    eexists. apply go_done; [|done]. eapply Forall_impl; [exact Hset|]. by intros l [? _].
  - destruct Hw as (Ho & Hr & Hs).
    destruct (listeners_progress true ls eq_refl Hl Ho) as [Hset|(k & l & l' & Hk & Hgo)]; [left|right; eexists; by eapply go_listener].
    by apply settled_stopped.
Qed.

Lemma go_cancelled e e' : emulator_go e e' → cancelled e' = cancelled e.
Proof. by destruct 1. Qed.

(** C6: Closing terminates: once the context of a running emulator is cancelled,
    whatever happened before and in whatever order the goroutines run from then on,
    every schedule comes to an end, and the end is that every listener is closed,
    every accept loop and every HTTP server has returned and [done] is closed; no
    schedule blocks before. *)
Theorem emulator_stops c o e :
  emulator_reachable c o e → cancelled e = true → inevitably emulator_go stopped e.
Proof.
  intros Hr Hca. eapply (inevitably_measure _ (λ e, emulating_inv e ∧ cancelled e = true) _ emulator_measure).
  - intros x y [Hi Hc] Hgo. split; [|by apply emulator_go_less].
    split; [by eapply emulator_go_inv|by rewrite (go_cancelled _ _ Hgo)].
  - intros x [Hi Hc]. by apply emulator_progress.
  - split; [by eapply emulator_reachable_inv|done].
Qed.

(** C33: In every reachable state of a running emulator and at each of its listeners:
    a dial has returned a connection exactly when the accept loop has taken it; a dial
    is told that the listener is closed only after the context was cancelled; what
    waits has had no answer, and its accept loop has not returned while the emulator
    runs; and at most 256 connections are served at a time. *)
Theorem dials_answered c o e k l id :
  emulator_reachable c o e → listeners_of e !! k = Some l →
  (dialed l !! id = Some DialConnected ↔ is_Some (conns (accepting l) !! id)) ∧
  (dialed l !! id = Some DialErrClosed → cancelled e = true) ∧
  (id ∈ queue l → dialed l !! id = None ∧ (cancelled e = false → loop (accepting l) ≠ Returned)) ∧
  (total serving (conns (accepting l)) ≤ max_sessions)%nat.
Proof.
  intros Hr%emulator_reachable_inv Hk. pose proof (ei_listeners _ Hr) as Hl.
  eapply Forall_lookup_1 in Hl; [|exact Hk]. split; [apply Hl|]. split; [|split].
  - intros Hc%(li_closed _ Hl). apply (ei_over _ Hr), Exists_exists. exists l.
    split; [by eapply list_elem_of_lookup_2|done].
  - intros Hid. split; [by apply (li_queue _ Hl)|]. intros Hca Hret.
    pose proof (ei_returned _ Hr) as Hrs. eapply Forall_lookup_1 in Hrs; [|exact Hk]. specialize (Hrs Hret). congruence.
  - destruct (li_accept _ Hl) as [<- ? _]. done.
Qed.
