(* ===== verification/Adapters.v ===== *)
(** * The driver adapters (src/iamproxy/pgxdial/pgxdial.go and
    src/iamproxy/mysqldial/mysqldial.go)

    They change configurations of third-party drivers: what the adapters read and
    set of these is modelled, with the TLS configurations in a store, since a
    driver's configuration holds pointers to them. *)
From S2P Require Import Prelude Sha256 Rsa Config Identity Server.

(** [tls.Config] as far as it matters, and [e.CertPool()]: the certificates that
    are trusted. *)
Record tls_config := mkTLS {
  RootCAs : option (list gostring);
  ServerName : gostring;
  MinVersion : Z
}.

Definition CertPool (e : Emulator) : list gostring := [e_leaf e].
Definition TLS12 : Z := 771.
Definition ClientTLSConfig (e : Emulator) : tls_config := mkTLS (Some (CertPool e)) [] TLS12.

(** ** pgxdial *)
(** A pointer to a TLS configuration, and the store of them. *)
Abbreviation tls_ptr := (option nat).
Record tls_store := mkTLSStore { tls_at : gmap nat tls_config; tls_free : nat }.

(** The fields of [pgconn.Config] that [Configure] sets.  [LookupHost]: the host
    name is resolved by the driver before it dials. *)
Record pgconn_config := mkPgconn {
  DialFunc : option Emulator;
  LookupHost : bool;
  TLSConfig : tls_ptr;
  Fallbacks : list tls_ptr
}.

Definition trust (e : Emulator) (st : tls_store) (c : tls_ptr) : tls_ptr * tls_store :=
  match c with
  | None => (None, st)
  | Some p =>
     match tls_at st !! p with
     | Some t =>
        match RootCAs t with
        | Some _ => (c, st)
        | None =>
           let t' := mkTLS (Some (CertPool e)) (ServerName t) (MinVersion t) in
           (Some (tls_free st), mkTLSStore (<[tls_free st := t']> (tls_at st)) (S (tls_free st)))
        end
     | None => (c, st)
     end
  end.

Fixpoint trust_all (e : Emulator) (st : tls_store) (cs : list tls_ptr) : list tls_ptr * tls_store :=
  match cs with
  | [] => ([], st)
  | c :: cs =>
     let '(c', st) := trust e st c in
     let '(cs', st) := trust_all e st cs in
     (c' :: cs', st)
  end.

Definition Configure (cfg : pgconn_config) (e : Emulator) (st : tls_store) : pgconn_config * tls_store :=
  let '(t, st) := trust e st (TLSConfig cfg) in
  let '(fs, st) := trust_all e st (Fallbacks cfg) in
  (mkPgconn (Some e) false t fs, st).

(** ** mysqldial *)
(** The driver's registries. *)
Record registries := mkRegistries {
  tls_configs : gmap gostring tls_config;
  dialers : gmap gostring Emulator
}.

(** [register_tls]: the error of [mysql.RegisterTLSConfig], which refuses some
    names. *)
Definition Register (register_tls : gostring → option goerr) (name : gostring) (e : Emulator) (r : registries)
    : res unit * registries :=
  match register_tls name with
  | Some err => (Err err, r)
  | None => (Ok tt, mkRegistries (<[name := ClientTLSConfig e]> (tls_configs r)) (<[name := e]> (dialers r)))
  end.

(** ** What is trusted afterwards *)
(** The store has all the pointers, and what is free is unused. *)
Definition ptr_ok (st : tls_store) (c : tls_ptr) : Prop :=
  match c with Some p => is_Some (tls_at st !! p) ∧ p < tls_free st | None => True end.

(** [c'] is what [trust] makes of [c]: the same pointer when it is nil or has
    roots, and otherwise a new configuration that differs in its roots. *)
Definition trusts (e : Emulator) (st st' : tls_store) (c c' : tls_ptr) : Prop :=
  match c with
  | None => c' = None
  | Some p =>
     ∃ t, tls_at st !! p = Some t ∧
       match RootCAs t with
       | Some _ => c' = c
       | None => ∃ q, c' = Some q ∧ tls_free st ≤ q ∧
                  tls_at st' !! q = Some (mkTLS (Some (CertPool e)) (ServerName t) (MinVersion t))
       end
  end.

(** Nothing that existed is changed. *)
Definition extends (st st' : tls_store) : Prop :=
  tls_free st ≤ tls_free st' ∧ ∀ p, p < tls_free st → tls_at st' !! p = tls_at st !! p.

Lemma extends_refl st : extends st st.
Proof. done. Qed.
Lemma extends_trans a b c : extends a b → extends b c → extends a c.
Proof. intros [H1 H2] [H3 H4]. split; [lia|]. intros p Hp. rewrite H4 by lia. by apply H2. Qed.

Lemma ptr_ok_extends st st' c : extends st st' → ptr_ok st c → ptr_ok st' c.
Proof. intros [Hf Ha]. destruct c as [p|]; [|done]. intros [Hp Hlt]. split; [by rewrite Ha|lia]. Qed.

Lemma trust_spec e st c : ptr_ok st c → let '(c', st') := trust e st c in
  trusts e st st' c c' ∧ extends st st' ∧ ptr_ok st' c'.
Proof.
  destruct c as [p|]; [|by cbn]. intros [[t Ht] Hp]. unfold trust. rewrite Ht.
  destruct (RootCAs t) as [cas|] eqn:Hr.
  - split; [exists t; by rewrite Hr|]. split; [apply extends_refl|]. split; [by exists t|done].
  - cbn. split.
    + exists t. split; [done|]. rewrite Hr. exists (tls_free st). split; [done|]. split; [lia|]. by rewrite lookup_insert_eq.
    + split; [|rewrite lookup_insert_eq; split; [done|lia]].
      split; cbn; [lia|]. intros q Hq. rewrite lookup_insert_ne; [done|lia].
Qed.

(** What is trusted in a store is trusted in a later one, seen from an earlier
    one. *)
Lemma trusts_mono e st0 st st' st1 c c' :
  extends st0 st → extends st' st1 → ptr_ok st0 c → ptr_ok st' c' → trusts e st st' c c' → trusts e st0 st1 c c'.
Proof.
  intros [Hf0 Ha0] [Hf1 Ha1]. destruct c as [p|]; [|done]. intros [[t0 Ht0] Hp] Hc' (t & Ht & Htr).
  rewrite Ha0, Ht0 in Ht by done. injection Ht as ->. exists t. split; [done|].
  destruct (RootCAs t); [done|]. destruct Htr as (q & -> & Hq & Hnew). exists q. split; [done|]. split; [lia|].
  rewrite Ha1; [done|]. by destruct Hc'.
Qed.

Lemma trust_all_spec e cs : ∀ st0 st, extends st0 st → Forall (ptr_ok st0) cs → let '(cs', st') := trust_all e st cs in
  Forall2 (trusts e st0 st') cs cs' ∧ extends st st'.
Proof.
  induction cs as [|c cs IH]; intros st0 st Hext Hok; cbn [trust_all].
  { split; [done|apply extends_refl]. }
  apply Forall_cons in Hok as [Hc Hcs]. pose proof (trust_spec e st c (ptr_ok_extends _ _ _ Hext Hc)) as H1.
  destruct (trust e st c) as [c' st1]. destruct H1 as (T1 & E1 & O1).
  pose proof (IH st0 st1 (extends_trans _ _ _ Hext E1) Hcs) as H2.
  destruct (trust_all e st1 cs) as [cs' st2]. destruct H2 as (T2 & E2).
  split; [|by eapply extends_trans]. constructor; [|done]. by eapply trusts_mono.
Qed.

(** [Configure] makes the driver dial the emulator without resolving names, and
    every TLS configuration without roots, fallbacks included, trust the emulator's
    certificate; what the caller's other pointers point to stays as it was. *)
Lemma Configure_trusts cfg e st :
  Forall (ptr_ok st) (TLSConfig cfg :: Fallbacks cfg) →
  let '(cfg', st') := Configure cfg e st in
  DialFunc cfg' = Some e ∧ LookupHost cfg' = false ∧
  Forall2 (trusts e st st') (TLSConfig cfg :: Fallbacks cfg) (TLSConfig cfg' :: Fallbacks cfg') ∧
  extends st st'.
Proof.
  intros [Ht Hf]%Forall_cons. unfold Configure. pose proof (trust_spec e st _ Ht) as H1.
  destruct (trust e st (TLSConfig cfg)) as [t st1]. destruct H1 as (T1 & E1 & O1).
  pose proof (trust_all_spec e _ st st1 E1 Hf) as H2. destruct (trust_all e st1 (Fallbacks cfg)) as [fs st2].
  destruct H2 as (T2 & E2). cbn. split; [done|]. split; [done|]. split; [|by eapply extends_trans].
  constructor; [|done]. by eapply trusts_mono; [apply extends_refl|..].
Qed.
