(* ===== verification/ConfigFile.v ===== *)
(** * Reading a configuration, and the command (src/iamproxy/config.go,
    [LoadConfig] and [ParseConfig]; src/cmd/db-iam-auth-emulator-proxy/main.go)

    The YAML decoder and the file system are parameters. *)
From S2P Require Import Prelude NetAddr Sha256 Rsa Config ConfigSpec Identity Server ServerSpec.

(** [errors.Is(err, target)]: the error or one it wraps. *)
Fixpoint errors_Is (e target : goerr) : Prop :=
  e = target ∨ match e with Wrapf _ _ inner => errors_Is inner target | _ => False end.

#[export] Instance goerr_eq_dec : EqDecision goerr.
Proof. solve_decision. Defined.
#[export] Instance errors_Is_dec e target : Decision (errors_Is e target).
Proof. induction e; cbn; apply _. Defined.

Section parse.
Context `{GoUnicode}.
(** What a strict decoder makes of the first document of a file, and what its
    second [Decode] gives: nil or an error. *)
Context (decode : gostring → res Config) (decode_extra : gostring → option goerr).
Context (ReadFile : gostring → res gostring).

Definition ParseConfig (b : gostring) : res Config :=
  match decode b with
  | Err e => if decide (errors_Is e io_EOF) then Err (Errorf "configuration is empty" []) else Err e
  | Panic => Panic
  | Ok c =>
     match decode_extra b with
     | Some e => if decide (errors_Is e io_EOF) then Validate c
                 else Err (Errorf "configuration must contain exactly one YAML document" [])
     | None => Err (Errorf "configuration must contain exactly one YAML document" [])
     end
  end.

Definition LoadConfig (path : gostring) : res Config :=
  b ← ReadFile path;
  wrap_err (Wrapf "%s: %w" [path]) (ParseConfig b).

(** ** The command *)
Inductive command_result :=
  | ExitError (e : goerr)       (* the message on standard error, exit status 1 *)
  | ConfigurationValid
  | Serving (e : Emulator)      (* until the emulator is done *)
  | CommandPanic.

Definition command_options : Options := mkOptions None false.

Definition command (w : platform) (configPath : gostring) (validate : bool) : command_result :=
  let loaded :=
    c ← LoadConfig configPath;
    _ ← guard_err (empty (TLSCert c)) (Errorf "%s: TLS certificate and key are required" [configPath]);
    Ok c in
  match loaded with
  | Err e => ExitError e
  | Panic => CommandPanic
  | Ok c =>
     if validate then ConfigurationValid
     else
       match (Start w c command_options).1.1 with
       | Ok e => Serving e
       | Err e => ExitError e
       | Panic => CommandPanic
       end
  end.

(** ** What is accepted *)
Lemma ParseConfig_Ok b c :
  ParseConfig b = Ok c ↔
  ∃ c0 e, decode b = Ok c0 ∧ decode_extra b = Some e ∧ errors_Is e io_EOF ∧ c = with_default c0 ∧ WellFormed c.
Proof.
  unfold ParseConfig. split.
  - destruct (decode b) as [c0|e|]; [|by case_decide|done]. destruct (decode_extra b) as [e|]; [|done].
    case_decide; [|done]. intros Hv%Validate_accepts. by exists c0, e.
  - intros (c0 & e & -> & -> & He & Hc). rewrite decide_True by done. by apply Validate_accepts.
Qed.

Lemma with_default_idem c : with_default (with_default c) = with_default c.
Proof. unfold with_default. destruct (empty (HTTPListen c)) eqn:He; [done|by rewrite He]. Qed.

Lemma LoadConfig_Ok path c :
  LoadConfig path = Ok c ↔ ∃ b, ReadFile path = Ok b ∧ ParseConfig b = Ok c.
Proof. unfold LoadConfig. rewrite bind_Ok. by setoid_rewrite wrap_err_Ok. Qed.

(** A loaded configuration starts as it is: its default is filled in already. *)
Lemma loaded_start path c : LoadConfig path = Ok c → start_config c = c.
Proof.
  intros (b & _ & (c0 & e & _ & _ & _ & -> & Hwf)%ParseConfig_Ok)%LoadConfig_Ok.
  unfold start_config. destruct (empty (HTTPListen (with_default c0))) eqn:He; [|done].
  apply wf_http in Hwf. apply empty_true in He. rewrite He in Hwf. by vm_compute in Hwf.
Qed.

(** What a start leaves: the endpoints, and the leaf of the certificate it chose. *)
Lemma start_listeners_leaf w c o leaf cl e cl' :
  start_listeners w c o leaf cl = (Ok e, cl') → e_leaf e = leaf.
Proof.
  unfold start_listeners. intros (ls & cl1 & _ & H1)%bindS_Ok. apply bindS_Ok in H1 as ([rs mem] & cl2 & _ & H1).
  apply bindS_Ok in H1 as (http & cl3 & _ & H1). apply bindS_Ok in H1 as (u & cl4 & _ & H1).
  apply bindS_Ok in H1 as ([https url] & cl5 & _ & H1). apply bindS_Ok in H1 as (key & cl6 & _ & H1).
  by apply mretS_Ok in H1 as [-> _].
Qed.

Lemma started_serves w c o e :
  start_config c = c → (Start w c o).1.1 = Ok e →
  serves w o c e ∧
  ∃ ch first, serverCertificate w c (Certificate o) = Ok ch ∧ index_go ch 0 = Ok first ∧
    ParseCertificate w first = Ok (e_leaf e).
Proof.
  intros Hc. assert (with_default c = c) as Hd by (rewrite <- Hc; apply start_config_default).
  rewrite Start_prepare, Hc. unfold prepare.
  destruct (Validate c) as [c1|err|] eqn:Hv; [|done..]. cbn.
  apply Validate_accepts in Hv as [-> _]. rewrite Hd.
  destruct (serverCertificate w c (Certificate o)) as [ch|err|] eqn:Hch; [|done..]. cbn.
  destruct (index_go ch 0) as [first|err|] eqn:Hf; [|done..]. cbn.
  destruct (ParseCertificate w first) as [leaf|err|] eqn:Hl; [|done..]. cbn.
  destruct (start_listeners w c o leaf []) as [[e'|err|] cl] eqn:Hs; [|done..]. cbn. intros [= <-].
  pose proof (start_listeners_leaf _ _ _ _ _ _ _ Hs) as ->. apply start_listeners_Ok in Hs as [Hsv _].
  split; [done|]. by exists ch, first.
Qed.

(** C28: The command serves only what it should: when it serves, it was not asked only
    to validate, the file was read and holds exactly one document, which with its
    default is a well-formed configuration with a certificate and a key; the emulator
    serves exactly that configuration, and its certificate is the leaf of the
    configured pair, never a generated one. *)
Theorem command_serves w path validate e :
  command w path validate = Serving e →
  validate = false ∧
  ∃ b c0 extra, ReadFile path = Ok b ∧ decode b = Ok c0 ∧ decode_extra b = Some extra ∧ errors_Is extra io_EOF ∧
    WellFormed (with_default c0) ∧ TLSCert c0 ≠ [] ∧ TLSKey c0 ≠ [] ∧
    serves w command_options (with_default c0) e ∧
    ∃ chain leaf, LoadX509KeyPair w (TLSCert c0) (TLSKey c0) = Ok (leaf :: chain) ∧
      ParseCertificate w leaf = Ok (e_leaf e).
Proof.
  unfold command. destruct (LoadConfig path) as [c|err|] eqn:Hload; [|done..]. cbn [mbind res_bind].
  destruct (empty (TLSCert c)) eqn:Hcert; [done|]. cbn. destruct validate; [done|]. intros Hs. split; [done|].
  pose proof (loaded_start _ _ Hload) as Hsc.
  apply LoadConfig_Ok in Hload as (b & Hb & (c0 & extra & Hd & Hx & Heof & -> & Hwf)%ParseConfig_Ok).
  assert (TLSCert (with_default c0) = TLSCert c0 ∧ TLSKey (with_default c0) = TLSKey c0) as [Hc Hk].
  { unfold with_default. by destruct (empty (HTTPListen c0)). }
  destruct ((Start w (with_default c0) command_options).1.1) as [e'|err|] eqn:Hst; [|done..].
  injection Hs as ->. apply (started_serves _ _ _ _ Hsc) in Hst as (Hsv & ch & first & Hch & Hfirst & Hleaf).
  apply empty_false in Hcert. exists b, c0, extra. split_and!; try done.
  - by rewrite <- Hc.
  - rewrite <- Hk. intros Hkey. by apply Hcert, (wf_tls _ Hwf).
  - unfold serverCertificate in Hch. cbn [Certificate command_options] in Hch.
    rewrite (proj2 (empty_false _) Hcert), Hc, Hk in Hch. cbn in Hch.
    destruct ch as [|x ch]; [done|]. injection Hfirst as ->. by exists ch, first.
Qed.
End parse.
