(* ===== verification/Scenario.v ===== *)
(** * Scenario files (src/internal/e2e/harness.go)

    The names a scenario may use, the modules it may load, and the static check
    that follows every load.  The Starlark parser is a parameter: a file's program
    is the list of the names it loads. *)
From stdpp Require Import relations.
From S2P Require Import Prelude GoStrings NetAddr NetAddrSpec Filepath Config.

(** ** Predeclared names and module paths *)
Definition names : list gostring :=
  [lit "postgres"; lit "mysql"; lit "mariadb"; lit "start_proxy"; lit "set_env"; lit "spawn"; lit "query";
   lit "assert_eq"; lit "assert_true"; lit "proxy_log"; lit "log"].

Definition predeclared (n : gostring) : bool := bool_decide (n ∈ names).

Definition scenarioModule (path name : gostring) : res gostring :=
  if negb (Base name =s name) || (name =s dotdot) || negb (has_suffix name (lit ".star"))
  then Err (Errorf "invalid scenario module %q" [name])
  else Ok (Join [Dir path; name]).

Section check.
(** Reading a file, and [starlark.SourceProgramOptions] with the names that are
    predeclared: an error, or the modules in the order of their loads. *)
Context (ReadFile : gostring → res gostring).
Context (SourceProgram : (gostring → bool) → gostring → gostring → res (list gostring)).

(** [seen] is a map shared by the recursive calls. *)
Fixpoint checkFile (fuel : nat) (path : gostring) (seen : gset gostring) : res (gset gostring) :=
  match fuel with
  | O => Panic
  | S fuel =>
     if decide (path ∈ seen) then Ok seen
     else
       let seen := {[path]} ∪ seen in
       src ← ReadFile path;
       loads ← SourceProgram predeclared path src;
       foldM (λ seen name, m ← scenarioModule path name; checkFile fuel m seen) seen loads
  end.

(** [fuel] is a bound on the depth of the calls. *)
Definition Check (fuel : nat) (path : gostring) : res unit :=
  _ ← checkFile fuel path ∅; Ok tt.

(** ** What is checked *)
(** The program of a file, and the files that it loads. *)
Definition program (path : gostring) : res (list gostring) :=
  src ← ReadFile path; SourceProgram predeclared path src.

Definition loads (path m : gostring) : Prop :=
  ∃ ns n, program path = Ok ns ∧ n ∈ ns ∧ scenarioModule path n = Ok m.

Definition good (path : gostring) : Prop :=
  ∃ ns, program path = Ok ns ∧ Forall (λ n, is_Ok (scenarioModule path n) = true) ns.

(** [S] is closed: every file of it is good, and what it loads is in [T]. *)
Definition settled (S T : gset gostring) : Prop :=
  ∀ p, p ∈ S → good p ∧ ∀ m, loads p m → m ∈ T.

Lemma checkFile_unfold fuel path seen :
  path ∉ seen →
  checkFile (S fuel) path seen =
    (ns ← program path; foldM (λ seen n, m ← scenarioModule path n; checkFile fuel m seen) ({[path]} ∪ seen) ns).
Proof. intros Hn. cbn [checkFile]. rewrite decide_False by done. unfold program. by destruct (ReadFile path). Qed.

(** A successful check adds files that are settled. *)
Lemma checkFile_sound fuel path seen seen' :
  checkFile fuel path seen = Ok seen' → path ∈ seen' ∧ seen ⊆ seen' ∧ settled (seen' ∖ seen) seen'.
Proof.
  revert path seen seen'. induction fuel as [|fuel IH]; intros path seen seen'; [done|].
  destruct (decide (path ∈ seen)) as [Hin|Hnin].
  { cbn [checkFile]. rewrite decide_True by done. intros [= <-]. split_and!; [done..|]. intros p Hp. set_solver. }
  rewrite checkFile_unfold by done. intros (ns & Hns & Hfold)%bind_Ok.
  assert (∀ l s0 s1, foldM (λ seen n, m ← scenarioModule path n; checkFile fuel m seen) s0 l = Ok s1 →
    s0 ⊆ s1 ∧ settled (s1 ∖ s0) s1 ∧
    Forall (λ n, ∃ m, scenarioModule path n = Ok m ∧ m ∈ s1) l) as Hloop.
  { induction l as [|n l IHl]; intros s0 s1; cbn [foldM].
    - intros [= <-]. split_and!; [done| |done]. intros p Hp. set_solver.
    - intros (s & (m & Hm & Hc)%bind_Ok & Hl)%bind_Ok. apply IH in Hc as (Hms & Hs & Hset). apply IHl in Hl as (Hs1 & Hset1 & Hall).
      split; [set_solver|]. split.
      + intros p Hp. destruct (decide (p ∈ s)) as [Hps|Hps].
        * destruct (Hset p) as [Hg Hl]; [set_solver|]. split; [done|]. intros q Hq. by apply Hs1, Hl.
        * apply Hset1. set_solver.
      + constructor; [|done]. exists m. split; [done|set_solver]. }
  apply Hloop in Hfold as (Hsub & Hset & Hall). split_and!; [set_solver..|]. intros p Hp.
  destruct (decide (p = path)) as [->|Hne]; [|apply Hset; set_solver]. split.
  - exists ns. split; [done|]. eapply Forall_impl; [exact Hall|]. by intros n (m & -> & _).
  - intros m (ns' & n & Hns' & Hn & Hm). rewrite Hns in Hns'. injection Hns' as <-.
    eapply Forall_forall in Hall as (m' & Hm' & Hin); [|exact Hn]. rewrite Hm in Hm'. by injection Hm' as ->.
Qed.

(** ** The check ends, and a failure has a reason *)
Section total.
Context (files : gset gostring).
Context (Hfiles : ∀ p src, ReadFile p = Ok src → p ∈ files).
Context (Hprogram : ∀ p, program p ≠ Panic).

Lemma program_in_files p ns : program p = Ok ns → p ∈ files.
Proof. intros (src & Hsrc & _)%bind_Ok. by eapply Hfiles. Qed.

Definition bad_reachable (path : gostring) : Prop := ∃ p, rtc loads path p ∧ ¬ good p.

Lemma bad_here path ns n e : program path = Ok ns → n ∈ ns → scenarioModule path n = Err e → bad_reachable path.
Proof.
  intros Hns Hn Hm. exists path. split; [apply rtc_refl|]. intros (ns' & Hns' & Hall). rewrite Hns in Hns'. injection Hns' as <-.
  eapply Forall_forall in Hall; [|exact Hn]. by rewrite Hm in Hall.
Qed.

Definition explained (path : gostring) (r : res (gset gostring)) : Prop :=
  match r with Ok _ => True | Err _ => bad_reachable path | Panic => False end.

Lemma scenarioModule_no_panic path n : scenarioModule path n ≠ Panic.
Proof. unfold scenarioModule. by destruct (_ || _). Qed.

Lemma checkFile_explained fuel path seen :
  size (files ∖ seen) < fuel → explained path (checkFile fuel path seen).
Proof.
  revert path seen. induction fuel as [|fuel IH]; intros path seen Hlt; [lia|].
  destruct (decide (path ∈ seen)) as [Hin|Hnin]; [by cbn; rewrite decide_True|].
  rewrite checkFile_unfold by done. destruct (program path) as [ns|e|] eqn:Hns.
  2: { exists path. split; [apply rtc_refl|]. intros (ns & Hns' & _). congruence. }
  2: by destruct (Hprogram path).
  assert (size (files ∖ ({[path]} ∪ seen)) < fuel) as Hsmall.
  { apply program_in_files in Hns. assert (size (files ∖ ({[path]} ∪ seen)) < size (files ∖ seen)); [|lia].
    apply subset_size. set_solver. }
  assert (∀ l s0, l ⊆ ns → size (files ∖ s0) < fuel →
    explained path (foldM (λ seen n, m ← scenarioModule path n; checkFile fuel m seen) s0 l)) as Hloop; [|by apply Hloop].
  induction l as [|n l IHl]; intros s0 Hsub Hs0; [done|]. cbn [foldM].
  assert (n ∈ ns) as Hn by set_solver. destruct (scenarioModule path n) as [m|e|] eqn:Hm.
  2: by eapply bad_here.
  2: by destruct (scenarioModule_no_panic path n).
  cbn [mbind res_bind]. pose proof (IH m s0 Hs0) as Hx.
  destruct (checkFile fuel m s0) as [s|e|] eqn:Hc; [|destruct Hx as (p & Hp & Hbad)|done].
  - apply IHl; [set_solver|]. apply checkFile_sound in Hc as (_ & Hs & _).
    assert (size (files ∖ s) ≤ size (files ∖ s0)); [|lia]. apply subseteq_size. set_solver.
  - exists p. split; [|done]. eapply rtc_l; [|exact Hp]. by exists ns, n.
Qed.

Lemma settled_reachable S p q : settled S S → p ∈ S → rtc loads p q → q ∈ S ∧ good q.
Proof.
  intros HS Hp Hr. induction Hr as [p|p m q Hpm _ IH]; [by split; [|apply HS]|]. apply IH. by apply (HS p).
Qed.

(** C31: [Check] terminates and decides: with fuel for the files there are it succeeds
    exactly when every file that can be reached from the scenario through loads is
    readable, parses and resolves, and names only modules of its directory; modules
    may load each other in cycles. *)
Theorem Check_decides path fuel :
  size files < fuel →
  (Check fuel path = Ok tt ↔ ∀ p, rtc loads path p → good p) ∧ Check fuel path ≠ Panic.
Proof.
  intros Hlt. unfold Check. pose proof (checkFile_explained fuel path ∅) as Hx.
  rewrite difference_empty_L in Hx. specialize (Hx Hlt).
  destruct (checkFile fuel path ∅) as [s|e|] eqn:Hc; [|destruct Hx as (p & Hp & Hbad)|done]; (split; [|done]).
  - split; [intros _ p Hp|done]. apply checkFile_sound in Hc as (Hin & _ & Hset). rewrite difference_empty_L in Hset.
    by eapply settled_reachable.
  - split; [done|]. intros Hall. by destruct (Hbad (Hall p Hp)).
Qed.
End total.
End check.

(** ** Modules are found where the scenario is *)
Lemma after_slash_plain s : SLASH ∉ after_slash s.
Proof.
  unfold after_slash. induction s as [|c s IH]; cbn; [set_solver|].
  destruct (last_index_byte s SLASH) as [i|] eqn:Hi; [exact IH|]. case_decide as Hc; [by cbn; rewrite drop_0|].
  by apply not_elem_of_cons.
Qed.

Lemma scenarioModule_Ok path name m :
  scenarioModule path name = Ok m ↔
  (SLASH ∉ name) ∧ has_suffix name (lit ".star") = true ∧ m = Join [Dir path; name].
Proof.
  unfold scenarioModule. split.
  - destruct (_ || _) eqn:Hb; [done|]. apply orb_false_iff in Hb as [[Hb _]%orb_false_iff Hs%negb_false_iff]. intros [= <-].
    apply negb_false_iff, bool_decide_eq_true in Hb. split_and!; [|done|done].
    rewrite <- Hb. unfold Base. case_decide; [unfold dot, SLASH, lit, chr; set_solver|]. cbv zeta.
    case_decide as Hw; [|apply after_slash_plain]. exfalso.
    (* the name would be "/" *)
    revert Hb Hs. unfold Base. rewrite decide_False by done. cbv zeta. rewrite decide_True by done. intros <-. by vm_compute.
  - intros (Hsl & Hs & ->).
    assert (name ≠ []) as Hne by (intros ->; by vm_compute in Hs).
    assert (Base name = name) as Hb.
    { unfold Base. rewrite decide_False by done. cbv zeta.
      assert (∀ w, SLASH ∉ w → trim_left w SLASH = w) as Htrim.
      { intros [|c w]; [done|]. intros Hn. cbn. rewrite decide_False; [done|]. set_solver. }
      assert (trim_right name SLASH = name) as ->.
      { unfold trim_right. rewrite Htrim; [apply reverse_involutive|]. by rewrite elem_of_reverse. }
      unfold after_slash. rewrite (proj2 (last_index_byte_None _ _)) by done. by rewrite decide_False. }
    rewrite Hb, Hs. unfold seq_eqb. rewrite bool_decide_true by done.
    rewrite bool_decide_false by (intros ->; by vm_compute in Hs). done.
Qed.

(** A module's modules are those of the scenario. *)
Lemma module_of_module path n1 m n2 :
  scenarioModule path n1 = Ok m → scenarioModule m n2 = scenarioModule path n2.
Proof.
  intros (Hsl & Hs & ->)%scenarioModule_Ok. unfold scenarioModule. destruct (_ || _); [done|].
  destruct (Join_file path n1) as [-> _]; [|by intros ->; vm_compute in Hs|done].
  split_and!; [by intros ->; vm_compute in Hs..|done].
Qed.
