(* ===== verification/Harness.v ===== *)
(** * The end-to-end harness (src/internal/e2e/harness.go, services.go and spawn.go;
    src/cmd/db-iam-auth-emulator-proxy-e2e/main.go)

    A scenario is a Starlark file that calls the builtins below.  The interpreter,
    Docker, the proxy's process, the database drivers and the file system are outside:
    a file's program is a tree of its calls, where what follows depends on what a call
    returned (Starlark has no recursion and no unbounded loop), and a call carries what
    the outside answers to it. *)
From S2P Require Import Prelude GoStrings Filepath Json NetAddr Config Scenario.
#[local] Open Scope Z_scope.

(** ** State *)
(** [FixtureTimeout] is in nanoseconds. *)
Record Options := mkHarnessOptions { Proxy : gostring; FixtureImage : gostring; FixtureTimeout : Z }.

Definition defaults (o : Options) : Options :=
  mkHarnessOptions (if empty (Proxy o) then lit "db-iam-auth-emulator-proxy" else Proxy o)
    (if empty (FixtureImage o) then lit "db-iam-auth-emulator-proxy-e2e:local" else FixtureImage o)
    (if FixtureTimeout o <=? 0 then 90 * 10 ^ 9 else FixtureTimeout o).

Record listenerInfo := mkInfo { li_addr : gostring; li_provider : gostring; li_engine : gostring }.

(** What the harness does outside: a [docker run] that succeeds, and one that fails
    when the daemon has made the container all the same (it is killed at its timeout,
    or the container does not start); the removals that succeed, and those that fail. *)
Inductive action :=
  | ContainerStarted (name : gostring)
  | ContainerLeft (name : gostring)
  | ContainerRemoved (name : gostring)
  | RemovalFailed (name : gostring)
  | ProxyStarted
  | ProxyStopped
  | RootRemoved (root : gostring)
  | RootLeft (root : gostring).

#[export] Instance action_eq_dec : EqDecision action.
Proof. solve_decision. Defined.

(** [proxy]: nil, or a process; then whether its exit can still be received from
    [proxyDone], which gets it once. *)
Record Harness := mkHarness {
  environment : list gostring;
  root : gostring;
  containers : list gostring;
  databases : gmap gostring gostring;
  proxy : option bool;
  listeners : gmap gostring listenerInfo;
  httpAddr : gostring;
  httpsAddr : gostring;
  certPath : gostring;
  googleADCPath : gostring;
  awsConfigPath : gostring;
  actions : list action
}.

Definition New (environ : list gostring) : Harness := mkHarness environ [] [] ∅ None ∅ [] [] [] [] [] [].

Definition with_environment (e : list gostring) (h : Harness) : Harness :=
  mkHarness e (root h) (containers h) (databases h) (proxy h) (listeners h) (httpAddr h) (httpsAddr h)
    (certPath h) (googleADCPath h) (awsConfigPath h) (actions h).
Definition with_root (r : gostring) (h : Harness) : Harness :=
  mkHarness (environment h) r (containers h) (databases h) (proxy h) (listeners h) (httpAddr h)
    (httpsAddr h) (certPath h) (googleADCPath h) (awsConfigPath h) (actions h).
Definition with_database (k a : gostring) (h : Harness) : Harness :=
  mkHarness (environment h) (root h) (containers h) (<[k := a]> (databases h)) (proxy h) (listeners h)
    (httpAddr h) (httpsAddr h) (certPath h) (googleADCPath h) (awsConfigPath h) (actions h).
Definition with_proxy (p : option bool) (h : Harness) : Harness :=
  mkHarness (environment h) (root h) (containers h) (databases h) p (listeners h) (httpAddr h) (httpsAddr h)
    (certPath h) (googleADCPath h) (awsConfigPath h) (actions h).
Definition with_listener (l : Listener) (h : Harness) : Harness :=
  mkHarness (environment h) (root h) (containers h) (databases h) (proxy h) (<[Name l := mkInfo (Listen l)
    (Provider l) (Engine l)]> (listeners h)) (httpAddr h) (httpsAddr h) (certPath h) (googleADCPath h) (awsConfigPath h) (actions h).
Definition with_httpAddr (a : gostring) (h : Harness) : Harness :=
  mkHarness (environment h) (root h) (containers h) (databases h) (proxy h) (listeners h) a (httpsAddr h)
    (certPath h) (googleADCPath h) (awsConfigPath h) (actions h).
Definition with_httpsAddr (a : gostring) (h : Harness) : Harness :=
  mkHarness (environment h) (root h) (containers h) (databases h) (proxy h) (listeners h) (httpAddr h) a
    (certPath h) (googleADCPath h) (awsConfigPath h) (actions h).
Definition with_certPath (a : gostring) (h : Harness) : Harness :=
  mkHarness (environment h) (root h) (containers h) (databases h) (proxy h) (listeners h) (httpAddr h)
    (httpsAddr h) a (googleADCPath h) (awsConfigPath h) (actions h).
Definition with_googleADCPath (a : gostring) (h : Harness) : Harness :=
  mkHarness (environment h) (root h) (containers h) (databases h) (proxy h) (listeners h) (httpAddr h)
    (httpsAddr h) (certPath h) a (awsConfigPath h) (actions h).
Definition with_awsConfigPath (a : gostring) (h : Harness) : Harness :=
  mkHarness (environment h) (root h) (containers h) (databases h) (proxy h) (listeners h) (httpAddr h)
    (httpsAddr h) (certPath h) (googleADCPath h) a (actions h).
Definition with_container (name : gostring) (h : Harness) : Harness :=
  mkHarness (environment h) (root h) (containers h ++ [name]) (databases h) (proxy h) (listeners h)
    (httpAddr h) (httpsAddr h) (certPath h) (googleADCPath h) (awsConfigPath h) (actions h).
Definition with_action (a : action) (h : Harness) : Harness :=
  mkHarness (environment h) (root h) (containers h) (databases h) (proxy h) (listeners h) (httpAddr h)
    (httpsAddr h) (certPath h) (googleADCPath h) (awsConfigPath h) (actions h ++ [a]).

(** A builtin that may fail half way. *)
Definition HM (A : Type) : Type := Harness → res A * Harness.
#[export] Instance HM_ret : MRet HM := λ A a h, (Ok a, h).
#[export] Instance HM_bind : MBind HM := λ A B f m h,
  match m h with
  | (Ok a, h') => f a h'
  | (Err e, h') => (Err e, h')
  | (Panic, h') => (Panic, h')
  end.
Definition liftH {A} (r : res A) : HM A := λ h, (r, h).
Definition modify (f : Harness → Harness) : HM unit := λ h, (Ok tt, f h).
Definition gets {A} (f : Harness → A) : HM A := λ h, (Ok (f h), h).

(** ** Databases *)
Definition containerPort (kind : gostring) : gostring :=
  if (kind =s lit "mysql") || (kind =s lit "mariadb") then lit "3306" else lit "5432".

Definition container_name (pid seq : Z) (kind : gostring) : gostring :=
  lit "iam-proxy-e2e-" ++ itoa pid ++ lit "-" ++ itoa seq ++ lit "-" ++ kind.

(** The environment of the container, and the arguments of [docker run]. *)
Definition container_env (kind : gostring) : list gostring :=
  if kind =s lit "postgres"
  then [lit "-e"; lit "POSTGRES_USER=backend"; lit "-e"; lit "POSTGRES_PASSWORD=backpass"; lit "-e"; lit "POSTGRES_DB=testdb"]
  else if kind =s lit "mysql"
  then [lit "-e"; lit "MYSQL_ROOT_PASSWORD=rootpass"; lit "-e"; lit "MYSQL_DATABASE=testdb"; lit "-e";
        lit "MYSQL_USER=backend"; lit "-e"; lit "MYSQL_PASSWORD=backpass"]
  else [].
Definition docker_run (image name kind : gostring) : list gostring :=
  [lit "run"; lit "-d"; lit "--name"; name; lit "-p"; lit "127.0.0.1::" ++ containerPort kind]
  ++ container_env kind ++ [image; lit "--database"; kind].

Section harness.
Context `{GoUnicode}.

(** The address that [docker port] printed when the loop ended: [polls] are its
    answers until the deadline. *)
Fixpoint published (addr : gostring) (polls : list (res gostring)) : gostring :=
  match polls with
  | [] => addr
  | Ok out :: polls =>
     let addr := TrimSpace (match split_byte out (byte_of 10) with w :: _ => w | [] => [] end) in
     if is_Ok (SplitHostPort addr) then addr else published addr polls
  | _ :: polls => published addr polls
  end.

(** What the drivers are asked to connect to, as which user and to which database;
    [tls]: with TLS that verifies nothing, and for MySQL cleartext passwords. *)
Inductive connection :=
  | PgConn (host : gostring) (port : Z) (user password database : gostring) (tls : bool)
  | MyConn (addr user password database : gostring) (tls : bool).

(** The number that [strconv.Atoi] returns, with an error or without. *)
Definition atoi_value (s : gostring) : Z :=
  match atoi s with
  | Ok n => n
  | _ =>
     let ds := match s with c :: s' => if decide (c = chr "-" ∨ c = chr "+") then s' else s | [] => [] end in
     if all_digits ds then if has_prefix s (lit "-") then - 2 ^ 63 else 2 ^ 63 - 1 else 0
  end.

Definition pg_connection (addr user password : gostring) (tls : bool) : connection :=
  let '(host, port) := match SplitHostPort addr with Ok hp => hp | _ => ([], []) end in
  PgConn host (atoi_value port mod 2 ^ 16) user password (lit "testdb") tls.

Definition probe_connection (kind addr : gostring) : connection :=
  if kind =s lit "postgres" then pg_connection addr (lit "backend") (lit "backpass") false
  else MyConn addr (lit "backend") (lit "backpass") (lit "testdb") false.

(** The answers to [startDatabase]: of [docker run], with whether it has made the
    container when it fails, of [docker port], and of the probes, until the deadline. *)
Record docker_answers := mkDocker {
  da_seq : Z;
  da_run : list gostring → res gostring;
  da_made : bool;
  da_ports : list (res gostring);
  da_probes : list (connection → bool)
}.

Definition startDatabase (image : gostring) (pid : Z) (kind : gostring) (d : docker_answers) : HM unit :=
  dbs ← gets databases;
  _ ← liftH (guard_err (bool_decide (is_Some (dbs !! kind))) (Errorf "%s already started" [kind]));
  let name := container_name pid (da_seq d) kind in
  let ran := da_run d (docker_run image name kind) in
  _ ← modify (if negb (is_Ok ran) && da_made d then with_action (ContainerLeft name) else id);
  _ ← liftH (wrap_err (Wrapf "start %s: %w" [kind]) ran);
  _ ← modify (λ h, with_action (ContainerStarted name) (with_container name h));
  let addr := published [] (da_ports d) in
  _ ← liftH (guard_err (empty addr) (Errorf "%s port not published" [kind]));
  _ ← liftH (guard_err (negb (existsb (λ probe, probe (probe_connection kind addr)) (da_probes d))) (Errorf "%s readiness timed out" [kind]));
  modify (with_database kind addr).

(** ** The proxy *)
Definition providers : list gostring := [aws; google; azure].
Definition engines : list gostring := [postgres; mysql].
Definition profiles : list (gostring * gostring) := p ← providers; e ← engines; mret (p, e).
Definition profile_name (p : gostring * gostring) : gostring := p.1 ++ lit "-" ++ p.2.

(** [h.databases[k]] *)
Definition database (dbs : gmap gostring gostring) (k : gostring) : gostring := default [] (dbs !! k).

Definition profile_upstream (dbs : gmap gostring gostring) (engine : gostring) : gostring :=
  let upstream := database dbs engine in
  if (engine =s mysql) && empty upstream then database dbs (lit "mariadb") else upstream.

Definition profile_listener (dbs : gmap gostring gostring) (addr : gostring) (p : gostring * gostring) : Listener :=
  mkListener (profile_name p) addr p.1 p.2 (lit "testdb") (lit "127.0.0.1") (lit "us-east-1") (lit "db-test") (lit "tenant-1")
    (profile_upstream dbs p.2) (lit "disable").

Definition alice : Principal :=
  mkPrincipal (lit "alice") (lit "alice@example.com") [lit "readers"]
    [lit "aws-postgres"; lit "aws-mysql"; lit "google-postgres"; lit "google-mysql"; lit "azure-postgres"; lit "azure-mysql"]
    (lit "backend") (lit "backpass") (lit "AKIATEST") (lit "test-secret") (lit "imds-fixture-session") (lit "ecs-auth")
    (lit "refresh") (lit "client-1") (lit "secret").

Definition proxy_config (http https cp kp : gostring) (ls : list Listener) : Config :=
  mkConfig http https (lit "http://" ++ http) cp kp ls [alice].

(** The credentials file of Google's client libraries. *)
Definition google_adc (http : gostring) : json :=
  jmap [(lit "type", JStr (lit "authorized_user")); (lit "client_id", JStr (lit "mock-client"));
        (lit "client_secret", JStr (lit "mock-secret")); (lit "refresh_token", JStr (lit "refresh"));
        (lit "token_uri", JStr (lit "http://" ++ http ++ lit "/token"))].

(** What a round of the readiness loop sees: the health check, or the exit of the
    process received from [proxyDone]. *)
Inductive health := Healthy | Exited | Neither.

(** The answers to [startProxy]: [pa_free i] is the [i]-th [freeAddress]. *)
Record proxy_answers := mkAnswers {
  pa_cert : res unit;
  pa_free : nat → res gostring;
  pa_write_aws : res unit;
  pa_write_adc : gostring → res unit;
  pa_yaml : res unit;
  pa_write_config : res unit;
  pa_validate : res unit;
  pa_start : res unit;
  pa_health : list health
}.

Fixpoint add_profiles (free : nat → res gostring) (i : nat) (ps : list (gostring * gostring)) : HM (list Listener) :=
  match ps with
  | [] => mret []
  | p :: ps =>
     addr ← liftH (free i);
     dbs ← gets databases;
     let l := profile_listener dbs addr p in
     _ ← modify (with_listener l);
     ls ← add_profiles free (S i) ps;
     mret (l :: ls)
  end.

(** The readiness loop. *)
Fixpoint wait_ready (rounds : list health) : HM unit :=
  match rounds with
  | [] => liftH (Err (Errorf "proxy did not become ready" []))
  | Healthy :: _ => mret tt
  | Exited :: _ => _ ← modify (with_proxy (Some false)); liftH (Err (Errorf "proxy exited" []))
  | Neither :: rounds => wait_ready rounds
  end.

(** The string that comes with an error is empty. *)
Definition or_empty (r : res gostring) : gostring := match r with Ok a => a | _ => [] end.

Definition startProxy (a : proxy_answers) : HM unit :=
  p ← gets proxy;
  _ ← liftH (guard_err (bool_decide (is_Some p)) (Errorf "proxy already started" []));
  dbs ← gets databases;
  _ ← liftH (guard_err (empty (database dbs (lit "postgres"))
                        || (empty (database dbs (lit "mysql")) && empty (database dbs (lit "mariadb"))))
               (Errorf "postgres() and mysql() or mariadb() are required before start_proxy()" []));
  r ← gets root;
  let cp := Join [r; lit "cert.pem"] in
  let kp := Join [r; lit "key.pem"] in
  _ ← liftH (pa_cert a);
  _ ← modify (with_certPath cp);
  _ ← modify (with_httpAddr (or_empty (pa_free a 0)));
  http ← liftH (pa_free a 0);
  _ ← modify (with_httpsAddr (or_empty (pa_free a 1)));
  https ← liftH (pa_free a 1);
  ls ← add_profiles (pa_free a) 2 profiles;
  _ ← modify (with_awsConfigPath (Join [r; lit "empty-aws-config"]));
  _ ← liftH (pa_write_aws a);
  _ ← modify (with_googleADCPath (Join [r; lit "google-adc.json"]));
  _ ← liftH (pa_write_adc a (Marshal (google_adc http)));
  c ← liftH (Validate (proxy_config http https cp kp ls));
  _ ← liftH (pa_yaml a);
  _ ← liftH (pa_write_config a);
  _ ← liftH (wrap_err (Wrapf "proxy config invalid: %w" []) (pa_validate a));
  _ ← liftH (pa_start a);
  _ ← modify (λ h, with_proxy (Some true) (with_action ProxyStarted h));
  wait_ready (pa_health a).

(** The user of [query]. *)
Definition query_user (provider engine : gostring) : gostring :=
  if (provider =s azure) || ((provider =s google) && (engine =s postgres)) then lit "alice@example.com" else lit "alice".

(** What the drivers answer to a statement: the rows of the values, or the value
    scanned. *)
Record database_answers := mkDatabase {
  qa_rows : connection → gostring → res (list (list gostring));
  qa_row : connection → gostring → res gostring
}.

Definition query_at (engine addr user token sql : gostring) (d : database_answers) : res gostring :=
  if engine =s postgres then
    rows ← qa_rows d (pg_connection addr user token true) sql;
    match rows with (v :: _) :: _ => Ok v | _ => Err (Errorf "query returned no row" []) end
  else qa_row d (MyConn addr user token (lit "testdb") true) sql.

(** [query]: at the listener of the profile, as its user. *)
Definition query (provider engine token sql : gostring) (d : database_answers) : HM gostring :=
  ls ← gets listeners;
  l ← liftH (match ls !! profile_name (provider, engine) with Some l => Ok l | None => Err (Errorf "unknown profile" []) end);
  liftH (query_at engine (li_addr l) (query_user provider engine) token sql d).

(** What [start_proxy] returns to the scenario. *)
Definition proxyDetails (h : Harness) : gmap gostring gostring :=
  (li_addr <$> listeners h) ∪
  list_to_map [(lit "http", lit "http://" ++ httpAddr h); (lit "https", lit "https://" ++ httpsAddr h);
    (lit "cert", certPath h); (lit "google_adc", googleADCPath h); (lit "aws_config", awsConfigPath h);
    (lit "gcloud_config", root h ++ lit "/gcloud"); (lit "azure_config", root h ++ lit "/azure")].

(** ** The other builtins *)
(** [strings.ContainsAny(name, "=\x00")] *)
Definition bad_name (name : gostring) : bool := bool_decide (chr "=" ∈ name) || bool_decide (NUL ∈ name).

(** The overrides, in the order of the dictionary's keys: a key or value that is
    not a string is [None]. *)
Fixpoint set_overrides (m : gmap gostring gostring) (values : list (option gostring * option gostring))
    : res (gmap gostring gostring) :=
  match values with
  | [] => Ok m
  | (k, v) :: values =>
     match k with
     | Some name =>
        if empty name || bad_name name then Err (Errorf "set_env contains an invalid name" [])
        else match v with
             | Some text =>
                if bool_decide (NUL ∈ text) then Err (Errorf "set_env[%q] must be a string without NUL" [name])
                else set_overrides (<[name := text]> m) values
             | None => Err (Errorf "set_env[%q] must be a string without NUL" [name])
             end
     | None => Err (Errorf "set_env contains an invalid name" [])
     end
  end.

(** [i]: the index of the first element. *)
Fixpoint unset_prefixes (i : Z) (l : list (option gostring)) : res (list gostring) :=
  match l with
  | [] => Ok []
  | p :: l =>
     p ← of_option (Errorf "set_env unset_prefixes[%d] must be a nonempty string" [itoa i]) p;
     _ ← guard_err (empty p) (Errorf "set_env unset_prefixes[%d] must be a nonempty string" [itoa i]);
     ps ← unset_prefixes (i + 1) l; Ok (p :: ps)
  end.

Definition env_name (item : gostring) : gostring := (cut_byte item (chr "=")).1.1.

(** An item stays unless its name is replaced or has a prefix to unset. *)
Definition env_kept (m : gmap gostring gostring) (prefixes : list gostring) (item : gostring) : Prop :=
  m !! env_name item = None ∧ Forall (λ p, has_prefix (env_name item) p = false) prefixes.
#[export] Instance env_kept_dec m prefixes item : Decision (env_kept m prefixes item).
Proof. unfold env_kept. apply _. Defined.

(** [order]: the order in which the map of overrides is iterated. *)
Definition new_environment (order : list (gostring * gostring) → list (gostring * gostring)) (m : gmap gostring gostring)
    (prefixes : list gostring) (env : list gostring) : list gostring :=
  filter (env_kept m prefixes) env ++ ((λ kv, kv.1 ++ lit "=" ++ kv.2) <$> order (map_to_list m)).

Definition set_env (order : list (gostring * gostring) → list (gostring * gostring))
    (values : option (list (option gostring * option gostring))) (prefixes : option (list (option gostring))) : HM unit :=
  vs ← liftH (match values with Some vs => Ok vs | None => Err (Errorf "set_env requires a dictionary" []) end);
  m ← liftH (set_overrides ∅ vs);
  ps ← liftH (unset_prefixes 0 (default [] prefixes));
  modify (λ h, with_environment (new_environment order m ps (environment h)) h).

(** [argv] with what the command prints, given its arguments, directory and
    environment. *)
Fixpoint spawn_argv (i : Z) (argv : list (option gostring)) : res (list gostring) :=
  match argv with
  | [] => Ok []
  | a :: argv =>
     a ← of_option (Errorf "spawn argv[%d] must be a string" [itoa i]) a;
     l ← spawn_argv (i + 1) argv; Ok (a :: l)
  end.
Definition spawn (argv : option (list (option gostring)))
    (output : list gostring → gostring → list gostring → res gostring) : HM gostring :=
  l ← liftH (match argv with Some (a :: l) => Ok (a :: l) | _ => Err (Errorf "spawn requires a nonempty argv" []) end);
  command ← liftH (spawn_argv 0 l);
  dir ← gets root;
  env ← gets environment;
  out ← liftH (wrap_err (Wrapf "spawn %s: %w" (take 1 command)) (output command dir env));
  mret (TrimSpace out).

(** ** Running a scenario *)
Inductive builtin :=
  | Database (kind : gostring) (d : docker_answers)
  | StartProxy (a : proxy_answers)
  | SetEnv (order : list (gostring * gostring) → list (gostring * gostring))
      (values : option (list (option gostring * option gostring))) (prefixes : option (list (option gostring)))
  | Spawn (argv : option (list (option gostring))) (output : list gostring → gostring → list gostring → res gostring)
  | Query (provider engine token sql : gostring) (d : database_answers)
  | AssertEq (equal : res bool)
  | AssertTrue (truth : bool)
  | ProxyLog (log : gostring)
  | Log (message : gostring).

(** What a builtin returns. *)
Inductive value := VNone | VString (s : gostring) | VDict (m : gmap gostring gostring).

Definition returns {A} (f : A → value) (m : HM A) : HM value := a ← m; mret (f a).
Definition none (m : HM unit) : HM value := returns (λ _, VNone) m.

Definition call (image : gostring) (pid : Z) (b : builtin) : HM value :=
  match b with
  | Database kind d => none (startDatabase image pid kind d)
  | StartProxy a => _ ← startProxy a; h ← gets id; mret (VDict (proxyDetails h))
  | SetEnv order values prefixes => none (set_env order values prefixes)
  | Spawn argv output => returns VString (spawn argv output)
  | Query provider engine token sql d =>
     returns VString (query provider engine token (if empty sql then lit "select 1" else sql) d)
  | AssertEq equal =>
     eq ← liftH equal;
     none (liftH (guard_err (negb eq) (Errorf "got %s, want %s" [])))
  | AssertTrue truth => none (liftH (guard_err (negb truth) (Errorf "assert_true failed" [])))
  | ProxyLog log => p ← gets proxy; mret (VString (match p with Some _ => log | None => [] end))
  | Log _ => mret VNone
  end.

Context {G : Type}.

(** The program of a file: it ends with the file's globals, it fails, or it loads or
    calls and goes on with what it got. *)
Inductive script :=
  | Globals (g : G)
  | Fails (e : goerr)
  | Load (name : gostring) (k : G → script)
  | Do (b : builtin) (k : value → script).

(** The loader's maps, with the harness. *)
Record loader := mkLoader { modules : gmap gostring G; loading : gset gostring; harness : Harness }.

Definition lift_call {A} (m : HM A) (st : loader) : res A * loader :=
  let '(r, h) := m (harness st) in (r, mkLoader (modules st) (loading st) h).

(** [thread.Load]: modules are looked up next to the scenario, [path]. *)
Definition thread_Load (exec : gostring → loader → res G * loader) (path name : gostring) (st : loader)
    : res G * loader :=
  match scenarioModule path name with
  | Ok m =>
     match modules st !! m with
     | Some g => (Ok g, st)
     | None =>
        if decide (m ∈ loading st) then (Err (Errorf "scenario module cycle: %s" [name]), st)
        else
          let '(r, st') := exec m (mkLoader (modules st) ({[m]} ∪ loading st) (harness st)) in
          let done := loading st' ∖ {[m]} in
          match r with
          | Ok g => (Ok g, mkLoader (<[m := g]> (modules st')) done (harness st'))
          | _ => (r, mkLoader (modules st') done (harness st'))
          end
     end
  | Err e => (Err e, st)
  | Panic => (Panic, st)
  end.

(** The interpreter, given what a load and a call do. *)
Fixpoint interpret (load : gostring → loader → res G * loader) (do : builtin → loader → res value * loader)
    (s : script) (st : loader) : res G * loader :=
  match s with
  | Globals g => (Ok g, st)
  | Fails e => (Err e, st)
  | Load name k =>
     match load name st with
     | (Ok g, st') => interpret load do (k g) st'
     | (Err e, st') => (Err e, st')
     | (Panic, st') => (Panic, st')
     end
  | Do b k =>
     match do b st with
     | (Ok v, st') => interpret load do (k v) st'
     | (Err e, st') => (Err e, st')
     | (Panic, st') => (Panic, st')
     end
  end.

Context (o : Options) (pid : Z).

Definition do_call (b : builtin) (st : loader) : res value * loader :=
  lift_call (call (FixtureImage (defaults o)) pid b) st.

(** [starlark.ExecFileOptions]; [Program]: what reading, parsing and resolving a
    file gives; [fuel] bounds the depth of loads. *)
Fixpoint ExecFile (Program : gostring → res script) (fuel : nat) (path file : gostring) (st : loader) : res G * loader :=
  match fuel with
  | O => (Panic, st)
  | S fuel =>
     match Program file with
     | Ok s => interpret (thread_Load (ExecFile Program fuel path) path) do_call s st
     | Err e => (Err e, st)
     | Panic => (Panic, st)
     end
  end.

(** ** Cleaning up *)
(** [remove]: the error of [docker rm], if any; likewise [remove_root]. *)
Definition removal (remove : gostring → option goerr) (name : gostring) : action :=
  match remove name with None => ContainerRemoved name | Some _ => RemovalFailed name end.
Definition root_removal (remove_root : option goerr) (dir : gostring) : action :=
  match remove_root with None => RootRemoved dir | Some _ => RootLeft dir end.

Definition remove_containers (remove : gostring → option goerr) (h : Harness) : list goerr * Harness :=
  foldl (λ '(errs, h) name, (errs ++ option_list (remove name), with_action (removal remove name) h))
    ([], h) (reverse (containers h)).

(** [close] waits for the exit of the proxy, killing it after a while: [None] when
    the exit was received already, since then nothing ever comes. *)
Definition close (remove : gostring → option goerr) (remove_root : option goerr) (h : Harness) : option (list goerr * Harness) :=
  h ← (match proxy h with
       | None => Some h
       | Some true => Some (with_proxy None (with_action ProxyStopped h))
       | Some false => None
       end);
  let '(errs, h) := remove_containers remove h in
  if empty (root h) then Some (errs, h)
  else Some (errs ++ option_list remove_root, with_action (root_removal remove_root (root h)) h).

(** [errors.Join] of the result and of [close]'s error. *)
Definition joined (r : res unit) (errs : list goerr) : res unit :=
  match r, errs with
  | Ok _, [] => Ok tt
  | Panic, _ => Panic
  | Ok _, _ => Err (Errorf "close" [])
  | Err e, [] => Err e
  | Err e, _ => Err (Wrapf "%w" [] e)
  end.

(** What is outside of the run of a scenario: the programs of the files, the
    temporary directory, the errors of the removals, the environment. *)
Record outside := mkOutside {
  o_program : gostring → res script;
  o_mkdir : res gostring;
  o_remove : gostring → option goerr;
  o_remove_root : option goerr;
  o_environ : list gostring
}.

(** [RunFile], with the harness at its end. *)
Definition RunFile (fuel : nat) (path : gostring) (w : outside) (h : Harness) : option (res unit * Harness) :=
  match o_mkdir w with
  | Ok dir =>
     let '(r, st) := ExecFile (o_program w) fuel path path (mkLoader ∅ ∅ (with_root dir h)) in
     let r := _ ← wrap_err (Wrapf "scenario %s: %w" [path]) r; Ok tt in
     '(errs, h') ← close (o_remove w) (o_remove_root w) (harness st);
     Some (joined r errs, h')
  | Err e => Some (Err e, h)
  | Panic => Some (Panic, h)
  end.

(** ** The command *)
Definition Preflight (docker_info : res unit) : res unit := wrap_err (Wrapf "Docker unavailable: %w" []) docker_info.

(** The scenarios one after the other, and how many failed: [None] when a run
    never returns. *)
Fixpoint run_all (fuel : nat) (runs : list (gostring * outside)) (failed : nat) : option nat :=
  match runs with
  | [] => Some failed
  | (path, w) :: runs =>
     '(r, _) ← RunFile fuel path w (New (o_environ w));
     run_all fuel runs (if is_Ok r then failed else S failed)
  end.

(** [run] after its flags: [-check] and the paths. *)
Definition run (fuel : nat) (ReadFile : gostring → res gostring)
    (SourceProgram : (gostring → bool) → gostring → gostring → res (list gostring))
    (check : bool) (docker_info : res unit) (runs : list (gostring * outside)) : option (res unit) :=
  if bool_decide (runs = []) then Some (Err (Errorf "no scenario files" []))
  else if check then
    Some (foldM (λ _ path, wrap_err (Wrapf "%s: %w" [path]) (Check ReadFile SourceProgram fuel path)) tt runs.*1)
  else
    match Preflight docker_info with
    | Ok _ =>
       failed ← run_all fuel runs 0;
       Some (guard_err (negb (failed =? 0)%nat) (Errorf "%d scenarios failed" [itoa (Z.of_nat failed)]))
    | Err e => Some (Err e)
    | Panic => Some Panic
    end.
End harness.
