(* ===== verification/HarnessSpec.v ===== *)
(** * The end-to-end harness cleans up, and its proxy configuration is valid

    A program logic for the builtins, the account of what a scenario has opened, and
    what [RunFile] leaves behind; the fuel of the loader; the configuration that
    [startProxy] writes and the users that [query] logs in as. *)
From S2P Require Import Prelude GoStrings Filepath NetAddr NetAddrSpec Config ConfigSpec Scenario Harness.

(** ** A program logic *)
(** From a state that satisfies [P], [m] ends with [Q] when it succeeds and with [R]
    when it fails. *)
Definition triple {A} (P : Harness → Prop) (m : HM A) (Q : A → Harness → Prop) (R : Harness → Prop) : Prop :=
  ∀ h, P h → match m h with (Ok a, h') => Q a h' | (_, h') => R h' end.

Lemma triple_bind {A B} (P : Harness → Prop) (m : HM A) (f : A → HM B) Q' Q R :
  triple P m Q' R → (∀ a, triple (Q' a) (f a) Q R) → triple P (m ≫= f) Q R.
Proof.
  intros Hm Hf h Hh. specialize (Hm h Hh). unfold mbind, HM_bind.
  destruct (m h) as [[a|e|] h']; [by apply Hf|done|done].
Qed.

Lemma triple_ret {A} (a : A) (P : Harness → Prop) (Q : A → Harness → Prop) R :
  (∀ h, P h → Q a h) → triple P (mret a) Q R.
Proof. intros HQ h Hh. by apply HQ. Qed.

Lemma triple_lift {A} (r : res A) (P : Harness → Prop) (Q : A → Harness → Prop) R :
  (∀ a h, r = Ok a → P h → Q a h) → (∀ h, P h → R h) → triple P (liftH r) Q R.
Proof. intros HQ HR h Hh. unfold liftH. destruct r; eauto. Qed.

Lemma triple_modify f (P : Harness → Prop) (Q : unit → Harness → Prop) R :
  (∀ h, P h → Q tt (f h)) → triple P (modify f) Q R.
Proof. intros HQ h Hh. by apply HQ. Qed.

Lemma triple_gets {A} (f : Harness → A) (P : Harness → Prop) (Q : A → Harness → Prop) R :
  (∀ h, P h → Q (f h) h) → triple P (gets f) Q R.
Proof. intros HQ h Hh. by apply HQ. Qed.

Lemma triple_weaken {A} (P P' : Harness → Prop) (m : HM A) (Q Q' : A → Harness → Prop) (R R' : Harness → Prop) :
  triple P' m Q' R' → (∀ h, P h → P' h) → (∀ a h, Q' a h → Q a h) → (∀ h, R' h → R h) → triple P m Q R.
Proof.
  intros Hm HP HQ HR h Hh. specialize (Hm h (HP h Hh)). destruct (m h) as [[a|e|] h']; auto.
Qed.

(** What changes nothing that [I] depends on. *)
Lemma keep_lift {A} (r : res A) (I : Harness → Prop) : triple I (liftH r) (λ _, I) I.
Proof. by apply triple_lift. Qed.
Lemma keep_gets {A} (f : Harness → A) (I : Harness → Prop) : triple I (gets f) (λ _, I) I.
Proof. by apply triple_gets. Qed.
Lemma keep_ret {A} (a : A) (I : Harness → Prop) : triple I (mret a) (λ _, I) I.
Proof. by apply triple_ret. Qed.

Create HintDb harness.
#[export] Hint Resolve keep_lift keep_gets keep_ret : harness.

(** A sequence of steps that keep [I]. *)
Ltac keep_steps :=
  repeat lazymatch goal with
  | |- triple _ (_ ≫= _) _ _ => eapply triple_bind; [|intros ?]
  | |- triple _ (let _ := _ in _) _ _ => cbv zeta
  | |- triple _ (liftH _) _ _ => apply keep_lift
  | |- triple _ (gets _) _ _ => apply keep_gets
  | |- triple _ (mret _) _ _ => apply keep_ret
  end.

(** ** What a scenario has opened *)
Definition started (a : action) : option gostring :=
  match a with ContainerStarted name => Some name | _ => None end.
Definition opens (a : action) : Prop :=
  match a with ContainerStarted _ | ProxyStarted => True | _ => False end.

(** The proxies that were started. *)
Definition proxies (l : list action) : nat := length (filter (λ a, a = ProxyStarted) l).

Arguments proxies : simpl never.

(** As long as nothing failed, the harness knows everything that it has opened, and
    has removed nothing. *)
Record accounts (dir : gostring) (h : Harness) : Prop := {
  ac_root : root h = dir;
  ac_opens : Forall opens (actions h);
  ac_containers : omap started (actions h) = containers h;
  ac_proxies : proxies (actions h) = (if proxy h is Some _ then 1 else 0)%nat
}.

(** After a failure: but for a container of the [docker run] that failed. *)
Definition failed (dir : gostring) (h : Harness) : Prop :=
  accounts dir h ∨ ∃ h0 name, accounts dir h0 ∧ h = with_action (ContainerLeft name) h0.

Lemma triple_failed {A} dir (P : Harness → Prop) (m : HM A) (Q : A → Harness → Prop) :
  triple P m Q (accounts dir) → triple P m Q (failed dir).
Proof. intros Hm. eapply triple_weaken; [exact Hm|done|done|by left]. Qed.

(** No proxy yet, or a proxy. *)
Definition idle (dir : gostring) (h : Harness) : Prop := accounts dir h ∧ proxy h = None.
Definition with_a_proxy (dir : gostring) (h : Harness) : Prop := accounts dir h ∧ is_Some (proxy h).

Lemma accounts_New dir environ : accounts dir (with_root dir (New environ)).
Proof. by constructor. Qed.

(** Setters of the other fields. *)
Lemma accounts_same dir h h' :
  root h' = root h → actions h' = actions h → containers h' = containers h → proxy h' = proxy h →
  accounts dir h → accounts dir h'.
Proof. intros Hr Ha Hc Hp [H1 H2 H3 H4]. by constructor; rewrite ?Hr, ?Ha, ?Hc, ?Hp. Qed.

Lemma keep_accounts dir f :
  (∀ h, root (f h) = root h ∧ actions (f h) = actions h ∧ containers (f h) = containers h ∧ proxy (f h) = proxy h) →
  triple (accounts dir) (modify f) (λ _, accounts dir) (accounts dir).
Proof. intros Hf. apply triple_modify. intros h. destruct (Hf h) as (?&?&?&?). by apply accounts_same. Qed.

Lemma keep_idle dir f :
  (∀ h, root (f h) = root h ∧ actions (f h) = actions h ∧ containers (f h) = containers h ∧ proxy (f h) = proxy h) →
  triple (idle dir) (modify f) (λ _, idle dir) (idle dir).
Proof.
  intros Hf. apply triple_modify. intros h [Ha Hp]. destruct (Hf h) as (?&?&?&E). split; [by eapply accounts_same|congruence].
Qed.
#[export] Hint Extern 1 (triple _ (modify _) _ _) => (apply keep_accounts || apply keep_idle); by intros : harness.

Lemma idle_bind {A B} dir (m : HM A) (f : A → HM B) Q :
  triple (idle dir) m (λ _, idle dir) (idle dir) → (∀ a, triple (idle dir) (f a) Q (accounts dir)) →
  triple (idle dir) (m ≫= f) Q (accounts dir).
Proof. intros Hm Hf. eapply triple_bind; [|exact Hf]. eapply triple_weaken; [exact Hm|done|done|by intros h [? _]]. Qed.

Lemma proxies_app l1 l2 : proxies (l1 ++ l2) = (proxies l1 + proxies l2)%nat.
Proof. unfold proxies. by rewrite filter_app, length_app. Qed.

Lemma accounts_container dir name h :
  accounts dir h → accounts dir (with_action (ContainerStarted name) (with_container name h)).
Proof.
  intros [Hr Ho Hc Hp]. constructor; cbn; [done| | |].
  - apply Forall_app. by split; [|constructor].
  - rewrite omap_app, Hc. done.
  - rewrite proxies_app, Hp. destruct (proxy h); reflexivity.
Qed.

Lemma accounts_proxy dir h :
  idle dir h → with_a_proxy dir (with_proxy (Some true) (with_action ProxyStarted h)).
Proof.
  intros [[Hr Ho Hc Hp] Hn]. split; [|by eexists]. constructor; cbn; [done| | |].
  - apply Forall_app. by split; [|constructor].
  - rewrite omap_app, Hc. cbn. by rewrite app_nil_r.
  - by rewrite proxies_app, Hp, Hn.
Qed.

Section keeps.
Context `{GoUnicode}.

Lemma startDatabase_accounts image pid kind d dir :
  triple (accounts dir) (startDatabase image pid kind d) (λ _, accounts dir) (failed dir).
Proof.
  unfold startDatabase.
  do 2 (eapply triple_bind; [apply triple_failed; apply keep_gets || apply keep_lift|intros ?]).
  cbv zeta. set (ran := da_run d _). set (name := container_name pid (da_seq d) kind).
  eapply triple_bind with (Q' := λ _ h, if is_Ok ran then accounts dir h else failed dir h).
  { apply triple_modify. intros h Hh. destruct (is_Ok ran); [exact Hh|]. destruct (da_made d); cbn; [right; by exists h, name|by left]. }
  intros _. eapply triple_bind with (Q' := λ _, accounts dir).
  { apply triple_lift; [intros x h Hx%wrap_err_Ok Hh; by rewrite Hx in Hh|].
    intros h Hh. destruct (is_Ok ran); [by left|done]. }
  intros _. apply triple_failed.
  keep_steps; auto with harness. apply triple_modify. intros h. apply accounts_container.
Qed.

Lemma add_profiles_idle free i ps dir :
  triple (idle dir) (add_profiles free i ps) (λ _, idle dir) (idle dir).
Proof.
  revert i. induction ps as [|p ps IH]; intros i; cbn [add_profiles]; keep_steps; auto with harness.
Qed.

Lemma wait_ready_accounts rounds dir :
  triple (with_a_proxy dir) (wait_ready rounds) (λ _, accounts dir) (accounts dir).
Proof.
  induction rounds as [|[| |] rounds IH]; cbn [wait_ready]; [| | |done].
  - by apply triple_lift; [|intros ? [? _]].
  - by apply triple_ret; intros ? [? _].
  - eapply triple_bind with (Q' := λ _, accounts dir); [|intros ?; by apply triple_lift].
    apply triple_modify. intros h [[Hr Ho Hc Hp] [b Hb]]. constructor; cbn; [done..|]. by rewrite Hp, Hb.
Qed.

Lemma startProxy_accounts a dir :
  triple (accounts dir) (startProxy a) (λ _, accounts dir) (accounts dir).
Proof.
  unfold startProxy.
  eapply triple_bind with (Q' := λ p h, accounts dir h ∧ proxy h = p); [by apply triple_gets|]. intros p.
  eapply triple_bind with (Q' := λ _, idle dir).
  { apply triple_lift; [|by intros h [? _]]. intros [] h Hn%guard_err_Ok [Ha Hp]. split; [done|].
    destruct p; [done|exact Hp]. }
  intros _.
  repeat (apply idle_bind; [by auto using add_profiles_idle with harness|intros ?; cbv zeta]).
  eapply triple_bind with (Q' := λ _, with_a_proxy dir); [|intros ?; apply wait_ready_accounts].
  apply triple_modify. intros h. apply accounts_proxy.
Qed.

Lemma returns_accounts {A} (f : A → value) m dir :
  triple (accounts dir) m (λ _, accounts dir) (accounts dir) →
  triple (accounts dir) (returns f m) (λ _, accounts dir) (accounts dir).
Proof. intros Hm. unfold returns. eapply triple_bind; [exact Hm|intros ?; apply keep_ret]. Qed.

(** Every builtin keeps the account. *)
Lemma call_accounts image pid b dir :
  triple (accounts dir) (call image pid b) (λ _, accounts dir) (failed dir).
Proof.
  destruct b as [kind d| | | | | | | |];
    [|apply triple_failed..];
    cbn [call]; unfold none.
  { eapply triple_bind; [apply startDatabase_accounts|]. intros ?. apply triple_ret. done. }
  all: try apply returns_accounts; auto with harness;
    unfold set_env, spawn, query; keep_steps; auto using startProxy_accounts, returns_accounts with harness.
  apply returns_accounts, keep_lift.
Qed.

Context {G : Type}.

(** What every load and every call keep, a program keeps. *)
Lemma interpret_keeps (I : loader → Prop) load do (s : script) (st : loader (G := G)) :
  (∀ name st, I st → I (load name st).2) → (∀ b st, I st → I (do b st).2) → I st → I (interpret load do s st).2.
Proof.
  intros Hl Hd. revert st. induction s as [g|e|name k IH|b k IH]; intros st Hst; cbn [interpret]; [done|done|..].
  - pose proof (Hl name st Hst) as Hx. destruct (load name st) as [[g|e|] st']; [by apply IH|done..].
  - pose proof (Hd b st Hst) as Hx. destruct (do b st) as [[v|e|] st']; [by apply IH|done..].
Qed.

(** The same with [R] for where it fails. *)
Definition ends {A} (I R : loader (G := G) → Prop) (x : res A * loader (G := G)) : Prop :=
  match x with (Ok _, st) => I st | (_, st) => R st end.

Lemma interpret_ends (I R : loader → Prop) load do (s : script) (st : loader (G := G)) :
  (∀ st, I st → R st) → (∀ name st, I st → ends I R (load name st)) → (∀ b st, I st → ends I R (do b st)) →
  I st → ends I R (interpret load do s st).
Proof.
  intros HR Hl Hd. revert st. induction s as [g|e|name k IH|b k IH]; intros st Hst; cbn [interpret]; [done|by apply HR|..].
  - pose proof (Hl name st Hst) as Hx. destruct (load name st) as [[g|e|] st']; [by apply IH|done..].
  - pose proof (Hd b st Hst) as Hx. destruct (do b st) as [[v|e|] st']; [by apply IH|done..].
Qed.

Context (o : Options) (pid : Z) (Program : gostring → res (script (G := G))).

Definition acc (dir : gostring) (st : loader (G := G)) : Prop := accounts dir (harness st).
Definition acc_failed (dir : gostring) (st : loader (G := G)) : Prop := failed dir (harness st).

Lemma do_call_accounts b st dir : acc dir st → ends (acc dir) (acc_failed dir) (do_call o pid b st).
Proof.
  intros Hst. unfold do_call, lift_call. pose proof (call_accounts (FixtureImage (defaults o)) pid b dir _ Hst) as Hc.
  destruct (call _ _ _ _) as [[v|e|] h]; exact Hc.
Qed.

(** And so does a scenario, whatever it loads. *)
Lemma ExecFile_accounts fuel path file st dir :
  acc dir st → ends (acc dir) (acc_failed dir) (ExecFile o pid Program fuel path file st).
Proof.
  revert file st. induction fuel as [|fuel IH]; intros file st Hst; [by left|]. cbn [ExecFile].
  destruct (Program file) as [s|e|]; [|by left..].
  apply interpret_ends; [by left| |intros; by apply do_call_accounts|done].
  clear st Hst. intros name st Hst. unfold thread_Load. destruct (scenarioModule path name) as [m|e|]; [|by left..].
  destruct (modules st !! m) as [g|]; [done|]. case_decide; [by left|].
  specialize (IH m (mkLoader (modules st) ({[m]} ∪ loading st) (harness st)) Hst).
  destruct (ExecFile _ _ _ _ _ _ _) as [[g|e|] st']; exact IH.
Qed.
End keeps.

(** ** Answers that do not panic *)
Definition calm {A} (m : HM A) : Prop := ∀ h, no_panic (m h).1.

Lemma calm_bind {A B} (m : HM A) (f : A → HM B) : calm m → (∀ a, calm (f a)) → calm (m ≫= f).
Proof.
  intros Hm Hf h. specialize (Hm h). unfold mbind, HM_bind. destruct (m h) as [[a|e|] h']; [apply Hf|done|done].
Qed.
Lemma calm_lift {A} (r : res A) : no_panic r → calm (liftH r).
Proof. by intros Hr h. Qed.
Lemma calm_ret {A} (a : A) : calm (mret a).
Proof. done. Qed.
Lemma calm_gets {A} (f : Harness → A) : calm (gets f).
Proof. done. Qed.
Lemma calm_modify f : calm (modify f).
Proof. done. Qed.

#[export] Hint Resolve calm_lift calm_ret calm_gets calm_modify no_panic_guard no_panic_wrap no_panic_Ok no_panic_Err : harness.

(** What is outside answers with a result or an error. *)
Definition answers (b : builtin) : Prop :=
  match b with
  | Database _ d => ∀ args, no_panic (da_run d args)
  | StartProxy a => (∀ i, no_panic (pa_free a i)) ∧ (∀ text, no_panic (pa_write_adc a text)) ∧
      Forall no_panic [pa_cert a; pa_write_aws a; pa_yaml a; pa_write_config a; pa_validate a; pa_start a]
  | Spawn _ output => ∀ argv dir env, no_panic (output argv dir env)
  | Query _ _ _ _ d => ∀ c sql, no_panic (qa_rows d c sql) ∧ no_panic (qa_row d c sql)
  | AssertEq equal => no_panic equal
  | _ => True
  end.

Fixpoint answered {G} (s : script (G := G)) : Prop :=
  match s with
  | Load _ k => ∀ g, answered (k g)
  | Do b k => answers b ∧ ∀ v, answered (k v)
  | _ => True
  end.

Lemma set_overrides_no_panic m values : no_panic (set_overrides m values).
Proof. revert m. induction values as [|[[k|] [v|]] l IH]; intros m; cbn; repeat case_match; try done; apply IH. Qed.
Lemma unset_prefixes_no_panic i l : no_panic (unset_prefixes i l).
Proof.
  revert i. induction l as [|p l IH]; intros i; cbn; [done|].
  repeat (apply no_panic_bind; [apply of_option_no_panic || apply no_panic_guard || apply IH|intros ? _]). done.
Qed.
Lemma spawn_argv_no_panic i l : no_panic (spawn_argv i l).
Proof.
  revert i. induction l as [|p l IH]; intros i; cbn; [done|].
  repeat (apply no_panic_bind; [apply of_option_no_panic || apply IH|intros ? _]). done.
Qed.
#[export] Hint Resolve set_overrides_no_panic unset_prefixes_no_panic spawn_argv_no_panic Validate_no_panic : harness.

Lemma add_profiles_calm free i ps : (∀ i, no_panic (free i)) → calm (add_profiles free i ps).
Proof.
  intros Hf. revert i. induction ps as [|p ps IH]; intros i; cbn [add_profiles]; [done|].
  repeat (apply calm_bind; [by auto with harness|intros ?]); auto with harness.
Qed.
Lemma wait_ready_calm rounds : calm (wait_ready rounds).
Proof. by induction rounds as [|[| |] rounds IH]. Qed.
#[export] Hint Resolve add_profiles_calm wait_ready_calm : harness.

Lemma query_at_no_panic `{GoUnicode} engine addr user token sql d :
  (∀ c sql, no_panic (qa_rows d c sql) ∧ no_panic (qa_row d c sql)) → no_panic (query_at engine addr user token sql d).
Proof.
  intros Hd. unfold query_at. case_match; [|apply Hd]. apply no_panic_bind; [apply Hd|]. intros [|[|v l] rows] _; done.
Qed.
#[export] Hint Resolve query_at_no_panic : harness.

Lemma returns_calm {A} (f : A → value) m : calm m → calm (returns f m).
Proof. intros Hm. by apply calm_bind. Qed.

Lemma call_calm `{GoUnicode} image pid b : answers b → calm (call image pid b).
Proof.
  destruct b; cbn [call answers]; intros Ha; try done; unfold none; try apply returns_calm;
    unfold startDatabase, startProxy, set_env, spawn, query.
  2: destruct Ha as (Hfree & Hadc & Hall); rewrite !Forall_cons in Hall; destruct Hall as (?&?&?&?&?&?&_).
  2: apply calm_bind; [|done].
  all: repeat (apply calm_bind; [by (auto with harness || (apply calm_lift; repeat case_match; auto with harness))|intros ?; cbv zeta]).
  all: auto using returns_calm with harness.
Qed.

(** ** The loader ends *)
Section loads.
Context `{GoUnicode} {G : Type}.
Context (o : Options) (pid : Z) (Program : gostring → res (script (G := G))).
Implicit Types st : loader (G := G).

Lemma interpret_ext (I : loader → Prop) load load' do (s : script) st :
  (∀ name st, I st → load name st = load' name st) → (∀ name st, I st → I (load name st).2) →
  (∀ b st, I st → I (do b st).2) → I st → interpret load do s st = interpret load' do s st.
Proof.
  intros He Hl Hd. revert st. induction s as [g|e|name k IH|b k IH]; intros st Hst; cbn [interpret]; [done|done|..].
  - rewrite <- He by done. pose proof (Hl name st Hst) as Hx. destruct (load name st) as [[g|e|] st']; [by apply IH|done..].
  - pose proof (Hd b st Hst) as Hx. destruct (do b st) as [[v|e|] st']; [by apply IH|done..].
Qed.

Lemma do_call_loading b st : loading (do_call o pid b st).2 = loading st.
Proof. unfold do_call, lift_call. by destruct (call _ _ _ _). Qed.

(** A load, and so a file, leaves what is being loaded as it was. *)
Lemma thread_Load_loading exec path name st :
  (∀ m st, loading (exec m st).2 = loading st) → loading (thread_Load exec path name st).2 = loading st.
Proof.
  intros He. unfold thread_Load. destruct (scenarioModule path name) as [m|e|]; [|done..].
  destruct (modules st !! m) as [g|]; [done|]. case_decide; [done|].
  specialize (He m (mkLoader (modules st) ({[m]} ∪ loading st) (harness st))).
  destruct (exec _ _) as [[g|e|] st']; cbn in *; rewrite He; set_solver.
Qed.

Lemma ExecFile_loading fuel path file st :
  loading (ExecFile o pid Program fuel path file st).2 = loading st.
Proof.
  revert file st. induction fuel as [|fuel IH]; intros file st; [done|]. cbn [ExecFile].
  destruct (Program file) as [s|e|]; [|done..]. apply (interpret_keeps (λ st', loading st' = loading st)); [| |done].
  - intros name st' <-. by apply thread_Load_loading.
  - intros b st' <-. apply do_call_loading.
Qed.

(** [files]: the files there are. *)
Context (files : gset gostring).
Context (Hfiles : ∀ p s, Program p = Ok s → p ∈ files).

Lemma ExecFile_missing fuel fuel' path m st :
  m ∉ files → ExecFile o pid Program (S fuel) path m st = ExecFile o pid Program (S fuel') path m st.
Proof. intros Hm. cbn [ExecFile]. destruct (Program m) eqn:E; [|done..]. by apply Hfiles in E. Qed.

(** Loads nest no deeper than the files there are: with more fuel than that a
    scenario runs as with any more. *)
Lemma ExecFile_fuel fuel fuel' path file st :
  (size (files ∖ loading st) + 1 < fuel)%nat → (fuel ≤ fuel')%nat →
  ExecFile o pid Program fuel path file st = ExecFile o pid Program fuel' path file st.
Proof.
  revert fuel' file st. induction fuel as [|fuel IH]; intros [|fuel'] file st Hlt Hle; [lia..|].
  cbn [ExecFile]. destruct (Program file) as [s|e|]; [|done..].
  apply (interpret_ext (λ st', loading st' = loading st)); [| | |done].
  2: { intros name st' <-. apply thread_Load_loading, ExecFile_loading. }
  2: { intros b st' <-. apply do_call_loading. }
  intros name st' Hst. unfold thread_Load. destruct (scenarioModule path name) as [m|e|]; [|done..].
  destruct (modules st' !! m) as [g|]; [done|]. case_decide as Hm; [done|]. rewrite Hst in Hm |- *.
  assert (∀ st0, loading st0 = {[m]} ∪ loading st →
    ExecFile o pid Program fuel path m st0 = ExecFile o pid Program fuel' path m st0) as Hexec; [|by rewrite Hexec].
  intros st0 Hst0. destruct (decide (m ∈ files)) as [Hin|Hout].
  - apply IH; [|lia]. rewrite Hst0. assert (size (files ∖ ({[m]} ∪ loading st)) < size (files ∖ loading st))%nat; [|lia].
    apply subset_size. set_solver.
  - destruct fuel as [|fuel]; [lia|]. destruct fuel' as [|fuel']; [lia|]. by apply ExecFile_missing.
Qed.

(** With answers that do not panic, that is enough fuel not to run out of it. *)
Context (Hprogram : ∀ p, no_panic (Program p)).
Context (Hanswers : ∀ p s, Program p = Ok s → answered s).

Lemma interpret_no_panic (I : loader → Prop) load do (s : script) st :
  answered s → (∀ name st, I st → no_panic (load name st).1 ∧ I (load name st).2) →
  (∀ b st, answers b → I st → no_panic (do b st).1 ∧ I (do b st).2) → I st → no_panic (interpret load do s st).1.
Proof.
  intros Ha Hl Hd. revert st Ha. induction s as [g|e|name k IH|b k IH]; intros st Ha Hst; cbn [interpret answered] in *; [done|done|..].
  - destruct (Hl name st Hst) as [Hp Hx]. destruct (load name st) as [[g|e|] st']; [by apply IH|done..].
  - destruct Ha as [Hb Hk]. destruct (Hd b st Hb Hst) as [Hp Hx]. destruct (do b st) as [[v|e|] st']; [by apply IH|done..].
Qed.

Lemma do_call_no_panic b st : answers b → no_panic (do_call o pid b st).1.
Proof.
  intros Hb. unfold do_call, lift_call. pose proof (call_calm (FixtureImage (defaults o)) pid b Hb (harness st)) as Hc.
  destruct (call _ _ _ _); exact Hc.
Qed.

Lemma ExecFile_no_panic fuel path file st :
  (size (files ∖ loading st) + 1 < fuel)%nat → no_panic (ExecFile o pid Program fuel path file st).1.
Proof.
  revert file st. induction fuel as [|fuel IH]; intros file st Hlt; [lia|]. cbn [ExecFile].
  pose proof (Hprogram file) as Hf. destruct (Program file) as [s|e|] eqn:Hs; [|done..].
  apply (interpret_no_panic (λ st', loading st' = loading st)); [by eapply Hanswers| | |done].
  2: { intros b st' Hb <-. split; [by apply do_call_no_panic|apply do_call_loading]. }
  intros name st' Hst. split; [|by rewrite thread_Load_loading; [|intros; apply ExecFile_loading]].
  unfold thread_Load. pose proof (scenarioModule_no_panic path name) as Hm.
  destruct (scenarioModule path name) as [m|e|]; [|done..]. destruct (modules st' !! m) as [g|]; [done|].
  case_decide as Hnin; [done|]. rewrite Hst in Hnin. set (st1 := mkLoader _ _ _).
  assert (no_panic (ExecFile o pid Program fuel path m st1).1) as Hx.
  { destruct (decide (m ∈ files)) as [Hf'|Hout].
    - apply IH. unfold st1. cbn. rewrite Hst.
      assert (size (files ∖ ({[m]} ∪ loading st)) < size (files ∖ loading st))%nat; [|lia]. apply subset_size. set_solver.
    - destruct fuel as [|fuel']; [lia|]. cbn [ExecFile]. pose proof (Hprogram m) as Hpm.
      destruct (Program m) eqn:E; [|done..]. by apply Hfiles in E. }
  by destruct (ExecFile _ _ _ _ _ _ _) as [[g|e|] st2].
Qed.
End loads.

(** ** What is left behind *)
(** The clean-up after [opened]: the proxy, the removals of the containers that the
    harness knows in the reverse order, and of its directory. *)
Definition cleanup (remove : gostring → option goerr) (remove_root : option goerr) (dir : gostring)
    (opened : list action) : list action :=
  (if decide (proxies opened = 0%nat) then [] else [ProxyStopped])
  ++ (removal remove <$> reverse (omap started opened)) ++ [root_removal remove_root dir].

Lemma remove_containers_spec remove h errs h' :
  remove_containers remove h = (errs, h') →
  errs = omap remove (reverse (containers h)) ∧ root h' = root h ∧ proxy h' = proxy h ∧
  actions h' = actions h ++ (removal remove <$> reverse (containers h)).
Proof.
  unfold remove_containers. generalize (reverse (containers h)). intros l Hl.
  assert (∀ errs0 h0, foldl (λ '(errs, h) name, (errs ++ option_list (remove name), with_action (removal remove name) h))
    (errs0, h0) l = (errs, h') → errs = errs0 ++ omap remove l ∧ root h' = root h0 ∧ proxy h' = proxy h0 ∧
    actions h' = actions h0 ++ (removal remove <$> l)) as Hgen; [|by apply Hgen in Hl].
  clear Hl. induction l as [|n l IH]; intros errs0 h0; cbn.
  - intros [= <- <-]. by rewrite !app_nil_r.
  - intros (-> & -> & -> & ->)%IH. cbn. rewrite <- !app_assoc. by destruct (remove n).
Qed.

(** What [close] needs of the account. *)
Record closable (dir : gostring) (h : Harness) : Prop := {
  cl_root : root h = dir;
  cl_containers : omap started (actions h) = containers h;
  cl_proxies : proxies (actions h) = (if proxy h is Some _ then 1 else 0)%nat
}.

Lemma failed_closable dir h : failed dir h → closable dir h.
Proof.
  intros [[Hr Ho Hc Hp]|(h0 & name & [Hr Ho Hc Hp] & ->)]; [done|]. split; cbn; [done| |].
  - rewrite omap_app, Hc. cbn. by rewrite app_nil_r.
  - by rewrite proxies_app, Hp, Nat.add_0_r.
Qed.

(** [close] returns unless the exit of the proxy was received before, and then it has
    tried to close all that the harness knows, in the reverse order. *)
Lemma close_spec remove remove_root dir h :
  closable dir h → dir ≠ [] →
  match close remove remove_root h with
  | Some (errs, h') =>
     proxy h ≠ Some false ∧ errs = omap remove (reverse (containers h)) ++ option_list remove_root ∧
     proxy h' = None ∧ actions h' = actions h ++ cleanup remove remove_root dir (actions h)
  | None => proxy h = Some false
  end.
Proof.
  intros [Hr Hc Hp] Hd. unfold close, cleanup.
  assert (empty (root h) = false) as He by (by rewrite Hr; apply empty_false).
  destruct (proxy h) as [[|]|] eqn:Hpr; [|done|]; cbn [mbind option_bind];
    destruct (remove_containers _ _) as [errs h'] eqn:E;
    apply remove_containers_spec in E as (-> & Hr' & Hp' & Ha'); cbn in Hr', Hp', Ha';
    rewrite Hr', He; cbn; (split; [done|]); rewrite Hp, Hc, Ha', Hp', Hr; (split; [done|]); (split; [done|]);
    cbn; rewrite <- !app_assoc; done.
Qed.

Section cleanup.
Context `{GoUnicode} {G : Type}.
Context (o : Options) (pid : Z).

(** The state in which the scenario of [RunFile] ends. *)
Definition executed (fuel : nat) (path : gostring) (w : outside (G := G)) (dir : gostring) : res G * loader :=
  ExecFile o pid (o_program w) fuel path path (mkLoader ∅ ∅ (with_root dir (New (o_environ w)))).

(** What the harness relies on: the files that can be run are finitely many, and
    nothing outside panics. *)
Record sane (files : gset gostring) (w : outside (G := G)) : Prop := {
  sane_files : ∀ p s, o_program w p = Ok s → p ∈ files;
  sane_program : ∀ p, no_panic (o_program w p);
  sane_answers : ∀ p s, o_program w p = Ok s → answered s
}.

(** Some removal of a clean-up fails. *)
Definition removal_fails (w : outside (G := G)) (opened : list action) : Prop :=
  is_Some (o_remove_root w) ∨ ∃ name, ContainerStarted name ∈ opened ∧ is_Some (o_remove w name).

Lemma removal_errors w opened :
  omap (o_remove w) (reverse (omap started opened)) ++ option_list (o_remove_root w) ≠ [] ↔ removal_fails w opened.
Proof.
  rewrite app_nil. unfold removal_fails. split.
  - intros Hne. destruct (o_remove_root w) as [e|]; [left; by eexists|]. right.
    destruct (omap _ _) as [|e l] eqn:E; [by destruct Hne|].
    assert (e ∈ omap (o_remove w) (reverse (omap started opened))) as Hin by (rewrite E; left).
    apply list_elem_of_omap in Hin as (name & Hin & He). rewrite elem_of_reverse in Hin.
    apply list_elem_of_omap in Hin as ([] & Hin & [= ->]). eexists. split; [exact Hin|by eexists].
  - intros [[e ->]|(name & Hin & e & He)] [Hom Hrt]; [done|].
    assert (e ∈ omap (o_remove w) (reverse (omap started opened))) as Hx; [|rewrite Hom in Hx; by apply elem_of_nil in Hx].
    apply list_elem_of_omap. exists name. split; [|done]. apply elem_of_reverse, list_elem_of_omap. by exists (ContainerStarted name).
Qed.

Lemma joined_Ok {A} e (r : res A) errs :
  is_Ok (joined (x ← wrap_err e r; Ok tt) errs) = true ↔ is_Ok r = true ∧ ¬ errs ≠ [].
Proof.
  destruct r as [x|e'|], errs as [|e0 errs]; cbn; (split; [intros Hx; try discriminate Hx|intros [Hx Hne]; try discriminate Hx]);
    [split; [done|by intros []]|done|by destruct Hne].
Qed.

(** What a run has opened, when it may have failed. *)
Lemma opened_known {A} dir h (r : res A) :
  failed dir h → (is_Ok r = true → accounts dir h) →
  ∃ known left, actions h = known ++ left ∧ Forall opens known ∧
    (left = [] ∨ is_Ok r = false ∧ ∃ name, left = [ContainerLeft name]).
Proof.
  intros Hf Hok. destruct (is_Ok r).
  - exists (actions h), []. rewrite app_nil_r. split; [done|]. split; [apply (ac_opens dir), Hok; done|by left].
  - destruct Hf as [Ha|(h0 & name & Ha & ->)].
    + exists (actions h), []. rewrite app_nil_r. split; [done|]. split; [by apply (ac_opens dir)|by left].
    + exists (actions h0), [ContainerLeft name]. split; [done|]. split; [by apply (ac_opens dir)|].
      right. split; [done|by exists name].
Qed.

Lemma executed_fuel files fuel fuel' path w dir :
  sane files w → (size files + 1 < fuel)%nat → (fuel ≤ fuel')%nat → executed fuel path w dir = executed fuel' path w dir.
Proof.
  intros [Hf _ _] Hlt Hle. apply (ExecFile_fuel _ _ _ files); [done|cbn; by rewrite difference_empty_L|done].
Qed.

Lemma cleanup_succeeds w dir opened :
  ¬ removal_fails w opened →
  cleanup (o_remove w) (o_remove_root w) dir opened = cleanup (λ _, None) None dir opened.
Proof.
  intros Hn. unfold cleanup, root_removal. destruct (o_remove_root w) as [e|] eqn:Hrt.
  { destruct Hn. left. by rewrite Hrt. }
  do 2 f_equal. apply list_fmap_ext. intros i name Hi. unfold removal. destruct (o_remove w name) as [e|] eqn:He; [|done].
  destruct Hn. right. exists name. split; [|by eexists].
  apply list_elem_of_lookup_2 in Hi. rewrite elem_of_reverse in Hi.
  by apply list_elem_of_omap in Hi as ([] & Hin & [= ->]).
Qed.

(** C29: A scenario of the end-to-end harness cleans up after itself: whatever its
    program does and however its calls fail, a run that returns has stopped the proxy
    it started and has tried to remove every container whose [docker run] succeeded,
    in the reverse order, and its directory; it succeeds exactly when the scenario and
    all removals did, and then nothing it opened is left. What a run can leave behind
    is what a failing [docker rm] or removal of the directory leaves, and one
    container at most, of a [docker run] that failed after the daemon made it. It
    returns unless the readiness loop has already received the exit of the proxy, and
    then it never does; and fuel of two more than the files there are is enough,
    however they load each other. *)
Theorem RunFile_cleans files fuel path w dir :
  sane files w → (size files + 1 < fuel)%nat → o_mkdir w = Ok dir → dir ≠ [] →
  let h := New (o_environ w) in
  let '(r, st) := executed fuel path w dir in
  let opened := actions (harness st) in
  r ≠ Panic ∧
  (∃ known left, opened = known ++ left ∧ Forall opens known ∧
     (left = [] ∨ is_Ok r = false ∧ ∃ name, left = [ContainerLeft name])) ∧
  (RunFile o pid fuel path w h = None ↔ proxy (harness st) = Some false) ∧
  (∀ r' h', RunFile o pid fuel path w h = Some (r', h') →
    proxy h' = None ∧ actions h' = opened ++ cleanup (o_remove w) (o_remove_root w) dir opened ∧
    (is_Ok r' = true ↔ is_Ok r = true ∧ ¬ removal_fails w opened) ∧
    (is_Ok r' = true → Forall opens opened ∧ actions h' = opened ++ cleanup (λ _, None) None dir opened)) ∧
  ∀ fuel', (fuel ≤ fuel')%nat → RunFile o pid fuel' path w h = RunFile o pid fuel path w h.
Proof.
  intros Hsane Hfuel Hdir Hne. pose proof (λ f, executed_fuel files fuel f path w dir Hsane Hfuel) as Hmore.
  assert (no_panic (executed fuel path w dir).1) as Hnp.
  { destruct Hsane. apply (ExecFile_no_panic _ _ _ files); try done. cbn. by rewrite difference_empty_L. }
  pose proof (ExecFile_accounts o pid (o_program w) fuel path path
    (mkLoader ∅ ∅ (with_root dir (New (o_environ w)))) dir (accounts_New _ _)) as Hacc.
  unfold RunFile. rewrite Hdir. fold (executed fuel path w dir) in Hacc |- *.
  destruct (executed fuel path w dir) as [r st] eqn:Hex. cbn [fst snd] in Hnp.
  assert (failed dir (harness st) ∧ (is_Ok r = true → accounts dir (harness st))) as [Hf Hok].
  { destruct r; cbn in Hacc; [split; [by left|done]|by split..]. }
  pose proof (failed_closable _ _ Hf) as Hcl.
  pose proof (close_spec (o_remove w) (o_remove_root w) dir (harness st) Hcl Hne) as Hc.
  destruct Hcl as [Hr Hcs Hp]. split; [done|]. split; [by apply (opened_known dir)|]. split; [|split].
  - destruct (close _ _ _) as [[errs h]|]; cbn; [|by split]. by destruct Hc as (? & _).
  - destruct (close _ _ _) as [[errs h]|]; cbn; [|done]. destruct Hc as (Hpr & -> & Hn & Ha).
    intros r' h' [= <- <-]. split; [done|]. split; [done|].
    match goal with |- ?A ∧ _ => assert A as Hiff end.
    { rewrite <- removal_errors, Hcs. apply joined_Ok. }
    split; [exact Hiff|]. intros [Hrok Hnf]%Hiff. split; [apply (ac_opens _ _ (Hok Hrok))|].
    by rewrite Ha, cleanup_succeeds.
  - intros fuel' Hle. fold (executed fuel' path w dir). rewrite <- (Hmore fuel' Hle). done.
Qed.

(** A run that cannot make its directory does nothing. *)
Lemma RunFile_no_directory fuel path (w : outside (G := G)) e h :
  o_mkdir w = Err e → RunFile o pid fuel path w h = Some (Err e, h).
Proof. intros He. unfold RunFile. by rewrite He. Qed.
End cleanup.

(** ** The environment of spawned commands *)
(** The items of an environment with a name. *)
Definition items (k : gostring) (env : list gostring) : list gostring := filter (λ item, env_name item = k) env.

Definition good_name (k : gostring) : Prop := k ≠ [] ∧ (chr "=" ∉ k) ∧ (NUL ∉ k).

Lemma bad_name_false k : bad_name k = false ↔ (chr "=" ∉ k) ∧ (NUL ∉ k).
Proof. unfold bad_name. by rewrite orb_false_iff, !bool_decide_eq_false. Qed.

Lemma set_overrides_names m values m' :
  set_overrides m values = Ok m' → map_Forall (λ k v, good_name k ∧ (NUL ∉ v)) m → map_Forall (λ k v, good_name k ∧ (NUL ∉ v)) m'.
Proof.
  revert m. induction values as [|[[k|] [v|]] values IH]; intros m; cbn; [by intros [= ->]| | |done..];
    (destruct (empty k || bad_name k) eqn:Hk; [done|]); [|done]. case_bool_decide as Hv; [done|].
  apply orb_false_iff in Hk as [Hne%empty_false Hb%bad_name_false]. intros Hrun Hm. apply (IH _ Hrun).
  by apply map_Forall_insert_2.
Qed.

Lemma env_name_item k v : chr "=" ∉ k → env_name (k ++ lit "=" ++ v) = k.
Proof.
  intros Hk. unfold env_name. change (lit "=" ++ v) with (chr "=" :: v). by rewrite cut_byte_app.
Qed.

(** After [set_env], whatever the order in which Go iterates over the overrides, a
    name that is overridden has its one new item; another has the items it had, or
    none when it has a prefix to unset. *)
Lemma new_environment_items order m ps env k :
  (∀ l, order l ≡ₚ l) → map_Forall (λ k v, good_name k ∧ (NUL ∉ v)) m →
  items k (new_environment order m ps env) =
    match m !! k with
    | Some v => [k ++ lit "=" ++ v]
    | None => if decide (Forall (λ p, has_prefix k p = false) ps) then items k env else []
    end.
Proof.
  intros Ho Hm. unfold items, new_environment. rewrite filter_app.
  assert (filter (λ item, env_name item = k) ((λ kv, kv.1 ++ lit "=" ++ kv.2) <$> order (map_to_list m)) =
    match m !! k with Some v => [k ++ lit "=" ++ v] | None => [] end) as ->.
  { pose proof (Ho (map_to_list m)) as Hperm. set (l := order (map_to_list m)) in *.
    assert (∀ kv, kv ∈ l → m !! kv.1 = Some kv.2 ∧ env_name (kv.1 ++ lit "=" ++ kv.2) = kv.1) as Hl.
    { intros [a b] Hin. rewrite Hperm in Hin. apply elem_of_map_to_list in Hin. split; [done|].
      apply env_name_item. by destruct (Hm _ _ Hin) as [(_ & ? & _) _]. }
    assert (NoDup l.*1) as Hnd by (rewrite Hperm; apply NoDup_fst_map_to_list).
    assert (∀ v, m !! k = Some v → (k, v) ∈ l) as Hk by (intros v Hv; rewrite Hperm; by apply elem_of_map_to_list).
    clearbody l. clear Hperm. induction l as [|[a b] l IH].
    - cbn. destruct (m !! k) as [v|]; [|done]. by specialize (Hk v eq_refl); apply elem_of_nil in Hk.
    - cbn in Hnd. apply NoDup_cons in Hnd as [Ha Hnd]. destruct (Hl (a, b)) as [Hmb Hn]; [left|]. cbn in Hmb, Hn.
      rewrite fmap_cons, filter_cons. cbn [fst snd]. rewrite Hn. case_decide as Hak.
      + subst a. rewrite Hmb. f_equal. destruct (filter _ _) as [|x r] eqn:E; [done|]. exfalso. apply Ha.
        assert (x ∈ filter (λ item, env_name item = k) ((λ kv, kv.1 ++ lit "=" ++ kv.2) <$> l)) as Hx by (rewrite E; left).
        apply list_elem_of_filter in Hx as [Hxk (kv & -> & Hin)%list_elem_of_fmap].
        destruct (Hl kv) as [_ Hkv]; [by right|]. rewrite Hkv in Hxk. subst k. by apply list_elem_of_fmap_2.
      + apply IH; [intros; apply Hl; by right|done|]. intros v Hv. specialize (Hk v Hv).
        apply elem_of_cons in Hk as [[= -> ->]|Hk]; [done|done]. }
  rewrite list_filter_filter. destruct (m !! k) as [v|] eqn:Hmk.
  - assert (filter (λ item, env_name item = k ∧ env_kept m ps item) env = []) as ->; [|done].
    apply elem_of_nil_inv. intros x [[<- [Hx _]] _]%list_elem_of_filter. congruence.
  - rewrite app_nil_r. case_decide as Hps.
    + apply list_filter_iff. intros x. split; [by intros [? _]|]. intros <-. by split.
    + apply elem_of_nil_inv. intros x [[<- [_ Hx]] _]%list_elem_of_filter. done.
Qed.

(** [set_env] changes nothing but the environment, and only when its arguments are right. *)
Lemma set_env_run order values ps h h' :
  (∀ l, order l ≡ₚ l) → set_env order values ps h = (Ok tt, h') →
  ∃ vs m prefixes, values = Some vs ∧ set_overrides ∅ vs = Ok m ∧ unset_prefixes 0 (default [] ps) = Ok prefixes ∧
    h' = with_environment (new_environment order m prefixes (environment h)) h ∧
    ∀ k, items k (environment h') =
      match m !! k with
      | Some v => [k ++ lit "=" ++ v]
      | None => if decide (Forall (λ p, has_prefix k p = false) prefixes) then items k (environment h) else []
      end.
Proof.
  intros Ho. unfold set_env, mbind, HM_bind, liftH, modify. destruct values as [vs|]; [|done].
  destruct (set_overrides ∅ vs) as [m|e|] eqn:Hm; [|done..].
  destruct (unset_prefixes _) as [prefixes|e|] eqn:Hps; [|done..]. intros [= <-].
  exists vs, m, prefixes. do 4 (split; [done|]). intros k. apply new_environment_items; [done|].
  eapply set_overrides_names; [exact Hm|]. apply map_Forall_empty.
Qed.

(** ** The command *)
Section command.
Context `{GoUnicode} {G : Type}.
Context (o : Options) (pid : Z) (fuel : nat).

(** The scenario at [path] passes. *)
Definition passes (pw : gostring * outside (G := G)) : Prop :=
  ∃ r h, RunFile o pid fuel pw.1 pw.2 (New (o_environ pw.2)) = Some (r, h) ∧ is_Ok r = true.

Lemma run_all_passes runs failed n :
  run_all o pid fuel runs failed = Some n → failed ≤ n ∧ (n = failed ↔ Forall passes runs).
Proof.
  revert failed. induction runs as [|[path w] runs IH]; intros failed; cbn [run_all].
  - intros [= ->]. split; [done|]. by split; [constructor|].
  - destruct (RunFile _ _ _ _ _ _) as [[r h]|] eqn:E; [|done]. intros [Hle Heq]%IH.
    assert (passes (path, w) ↔ is_Ok r = true) as Hp.
    { split; [|intros Hr; by exists r, h]. intros (r' & h' & E' & Hr'). cbn in E'. rewrite E in E'. by injection E' as -> ->. }
    rewrite Forall_cons, Hp. destruct (is_Ok r); cbn in *; [split; [done|]; rewrite Heq; naive_solver|].
    split; [lia|]. split; [lia|]. by intros [? _].
Qed.

(** The command succeeds only when there are scenarios and each of them checks, or,
    without [-check], Docker is there and each of them passes. *)
Lemma run_Ok ReadFile SourceProgram check docker runs :
  run o pid fuel ReadFile SourceProgram check docker runs = Some (Ok tt) →
  runs ≠ [] ∧ if check then Forall (λ pw, Check ReadFile SourceProgram fuel pw.1 = Ok tt) runs
              else is_Ok docker = true ∧ Forall passes runs.
Proof.
  unfold run. case_bool_decide as Hne; [done|]. intros Hrun. split; [done|]. destruct check.
  - injection Hrun as Hrun. clear Hne. induction runs as [|[path w] runs IH]; [constructor|].
    cbn in Hrun. apply bind_Ok in Hrun as ([] & Hc%wrap_err_Ok & Hrun). constructor; [done|by apply IH].
  - destruct (Preflight docker) as [[]|e|] eqn:Hd; [|done..].
    destruct (run_all o pid fuel runs 0) as [n|] eqn:E; [|done]. cbn in Hrun. injection Hrun as Hrun.
    apply guard_err_Ok, negb_false_iff, Nat.eqb_eq in Hrun. subst n. apply run_all_passes in E as [_ E].
    split; [by destruct docker|by apply E].
Qed.
End command.
