(* ===== verification/HarnessLogin.v ===== *)
(** * The proxy of the end-to-end harness lets its user in

    The configuration that [startProxy] writes is valid, and on each of the six
    profiles the user that [query] logs in as is the one the provider expects. *)
From S2P Require Import Prelude Wire GoStrings GoTime NetAddr NetAddrSpec Filepath Json JsonSpec Rsa Config ConfigSpec UrlLib Identity IdentitySpec Aws AwsSpec ServiceSpec HttpMock HttpMockSpec LoginSpec Scenario Harness HarnessSpec.
#[local] Open Scope Z_scope.

(** ** Addresses *)
(** What [freeAddress] answers. *)
Definition local_port (port : gostring) : gostring := lit "127.0.0.1" ++ chr ":" :: port.
Definition local_address (addr : gostring) : Prop := ∃ port, addr = local_port port ∧ plain_port port.

Lemma plain_port_free port c : plain_port port → unreserved c = false → c ∉ port.
Proof. intros Hp Hc. by apply plain_free, port_unreserved. Qed.

Lemma local_split port : plain_port port → SplitHostPort (local_port port) = Ok (lit "127.0.0.1", port).
Proof.
  intros Hp. apply SplitHostPort_plain.
  - by apply (bool_decide_eq_true_1 _); vm_compute.
  - by apply plain_port_free.
  - split; by apply (bool_decide_eq_true_1 _); vm_compute.
  - by split; apply plain_port_free.
Qed.

Lemma local_loopback addr : local_address addr → loopbackAddress addr = true.
Proof. intros (port & -> & Hp). unfold loopbackAddress. rewrite local_split by done. by vm_compute. Qed.

Lemma local_not_nil addr : local_address addr → addr ≠ [].
Proof. by intros (port & -> & _). Qed.

Lemma Clean_not_nil path : Clean path ≠ [].
Proof. destruct (Clean_canonical path) as (out & Ho & ->). by apply render_not_nil. Qed.

Lemma Join_not_nil dir name : name ≠ [] → Join [dir; name] ≠ [].
Proof. intros Hn. cbn [Join]. case_decide; [rewrite decide_False by done|]; apply Clean_not_nil. Qed.

(** ** The configuration *)
Definition profile_listeners (dbs : gmap gostring gostring) (addrs : list gostring)
    (ps : list (gostring * gostring)) : list Listener := zip_with (profile_listener dbs) addrs ps.

Lemma profiles_names : NoDup (profile_name <$> profiles).
Proof. apply (bool_decide_eq_true_1 _). by vm_compute. Qed.

Lemma profiles_granted : Grants alice = profile_name <$> profiles.
Proof. by vm_compute. Qed.

Lemma profile_cases provider engine : (provider, engine) ∈ profiles → provider ∈ providers ∧ engine ∈ engines.
Proof.
  unfold profiles. intros (p & Hp & He)%list_elem_of_bind. apply list_elem_of_bind in Hp as (e & Hp & Hin).
  apply list_elem_of_singleton in Hp. by injection Hp as -> ->.
Qed.

Section config.
Context `{GoUnicode}.
Context (dbs : gmap gostring gostring) (http https cp kp : gostring) (addrs : list gostring).

Let ls := profile_listeners dbs addrs profiles.
Let c := proxy_config http https cp kp ls.

Context (Hlen : length addrs = length profiles).

Lemma listeners_names ps addrs' : length addrs' = length ps → Name <$> profile_listeners dbs addrs' ps = profile_name <$> ps.
Proof.
  revert ps. induction addrs' as [|a addrs' IH]; intros [|p ps]; cbn; [done..|]. intros [= Hl]. f_equal. by apply IH.
Qed.

Lemma listeners_addresses ps addrs' : length addrs' = length ps → Listen <$> profile_listeners dbs addrs' ps = addrs'.
Proof.
  revert ps. induction addrs' as [|a addrs' IH]; intros [|p ps]; cbn; [done..|]. intros [= Hl]. f_equal. by apply IH.
Qed.

Lemma listener_of l : l ∈ ls → ∃ a p, a ∈ addrs ∧ p ∈ profiles ∧ l = profile_listener dbs a p.
Proof.
  intros Hl. apply elem_of_lookup_zip_with in Hl as (i & a & p & -> & Ha & Hp). exists a, p.
  split; [by eapply list_elem_of_lookup_2|]. by split; [eapply list_elem_of_lookup_2|].
Qed.

(** Each profile has its listener. *)
Lemma profile_has p : p ∈ profiles → ∃ a, a ∈ addrs ∧ profile_listener dbs a p ∈ ls.
Proof.
  intros (i & Hi)%list_elem_of_lookup_1. destruct (lookup_lt_is_Some_2 addrs i) as [a Ha].
  { rewrite Hlen. by eapply lookup_lt_Some. }
  exists a. split; [by eapply list_elem_of_lookup_2|]. apply elem_of_lookup_zip_with. by exists i, a, p.
Qed.

Context (Hdistinct : NoDup (http :: https :: addrs)) (Hlocal : Forall local_address (http :: https :: addrs)).
Context (Hcp : cp ≠ []) (Hkp : kp ≠ []).
Context (Hpg : profile_upstream dbs postgres ≠ []) (Hmy : profile_upstream dbs mysql ≠ []).

Lemma listeners_valid : Forall listener_ok ls.
Proof.
  apply Forall_forall. intros l (a & [pr en] & Ha & Hp & ->)%listener_of. apply profile_cases in Hp as [Hpr Hen].
  assert (local_address a) as Hla by (rewrite Forall_forall in Hlocal; apply Hlocal; set_solver).
  assert (profile_upstream dbs en ≠ []) as Hup.
  { unfold engines in Hen. apply elem_of_cons in Hen as [->|Hen%list_elem_of_singleton]; [done|by subst]. }
  assert (pr ≠ []) as Hprne by (unfold providers in Hpr; intros ->; revert Hpr; apply (bool_decide_eq_false_1 _); by vm_compute).
  repeat split; cbn; try done; [|by eapply local_not_nil| |by apply local_loopback].
  - by destruct pr.
  - apply elem_of_cons. right. by left.
Qed.

Lemma addresses_apart (l : list Listener) :
  NoDup (Listen <$> l) → ForallOrdPairs (λ x y, fixed_port (Listen y) → Listen x ≠ Listen y) l.
Proof.
  induction l as [|x l IH]; cbn; [constructor|]. intros [Hx Hl]%NoDup_cons. constructor; [|by apply IH].
  apply Forall_forall. intros y Hy _ Heq. apply Hx. rewrite Heq. by apply list_elem_of_fmap_2.
Qed.

(** The configuration is well-formed. *)
Lemma proxy_config_wf : WellFormed c.
Proof.
  pose proof Hdistinct as [Hh [Hs Ha]%NoDup_cons]%NoDup_cons. pose proof Hlocal as [Hlh [Hls _]%Forall_cons]%Forall_cons.
  constructor; cbn.
  - by apply local_loopback.
  - intros _. by apply local_loopback.
  - intros _ _ ->. apply Hh. left.
  - by split; intros; exfalso.
  - unfold ls. intros Heq. apply (f_equal length) in Heq. unfold profile_listeners in Heq. rewrite length_zip_with, Hlen in Heq. done.
  - apply listeners_valid.
  - unfold ls. rewrite listeners_names by done. apply profiles_names.
  - apply addresses_apart. unfold ls. by rewrite listeners_addresses.
  - intros l (a & p & Hin & _ & ->)%listener_of _. cbn. split; intros ->; set_solver.
  - by repeat constructor.
  - by repeat constructor; apply not_elem_of_nil.
  - repeat constructor.
  - intros p g ->%list_elem_of_singleton Hg. change (g ∈ Grants alice) in Hg. rewrite profiles_granted in Hg.
    apply list_elem_of_fmap in Hg as (q & -> & Hq). apply profile_has in Hq as (a & _ & Hl). by eexists.
  - intros p l q m (Hp & _) (Hq & _). cbn in Hp, Hq. apply list_elem_of_singleton in Hp, Hq. subst. by split_and!.
Qed.

Lemma proxy_config_valid : Validate c = Ok c.
Proof.
  apply Validate_accepts. split; [|exact proxy_config_wf]. unfold with_default, c. cbn.
  destruct (empty http) eqn:E; [|done]. apply empty_true in E.
  apply Forall_cons in Hlocal as [Hl _]. by apply local_not_nil in Hl.
Qed.
End config.

(** ** The credentials of the profiles *)
Section login.
Context `{GoUnicode}.

(** What a scenario gets from the emulator's endpoints for alice: a live Google
    access token, an Azure token of the tenant, or the keys to sign an AWS token. *)
Definition google_credential (s : service) (now1 : Z) (token : gostring) : Prop :=
  ∃ t, googleTokens s !! token = Some t ∧ now1 < tok_expiry t ∧ sql_scope (tok_scope t) ∧ tok_principal t = ID alice.

Definition azure_credential (s : service) (l : Listener) (now1 now2 : Z) (token : gostring) : Prop :=
  ∃ now life, valid_key (azureKey s) ∧ in_int64 (unix now) ∧ in_int64 (unix (now + azure_life life)) ∧
    unix now <= unix now1 ∧ unix now2 < unix (now + azure_life life) ∧
    token = azureIssue now s alice (Tenant l) life.

Definition aws_credential_of (l : Listener) (user : gostring) (now1 now2 : Z) (token : gostring) : Prop :=
  ∃ h0 port v, SplitHostPort (Listen l) = Ok (h0, port) ∧ signed_with alice l user v ∧ aws_window v now1 now2 ∧
    let host := JoinHostPort (Hostname l) port in
    token = sdk_token host (lit "/") (awsQuery v)
      (signature_for (AWSSecretKey alice) (vget v (lit "X-Amz-Date")) (Region l) host v).

Definition credential (s : service) (l : Listener) (user : gostring) (now1 now2 : Z) (token : gostring) : Prop :=
  (Provider l = aws → aws_credential_of l user now1 now2 token) ∧
  (Provider l = google → google_credential s now1 token) ∧
  (Provider l = azure → azure_credential s l now1 now2 token).

Lemma ascii_local port : plain_port port → forallb ascii (local_port port) = true.
Proof.
  intros Hp. unfold local_port. rewrite forallb_app. apply andb_true_iff. split; [by vm_compute|].
  cbn [forallb]. apply andb_true_iff. split; [done|]. unfold plain_port in Hp.
  rewrite forallb_forall in Hp |- *. intros c Hc. specialize (Hp c Hc).
  revert Hp. unfold is_digit, ascii. generalize (u8 c). intros z. lia.
Qed.

Lemma alice_claims s http https cp kp ls tenant :
  svc_config s = proxy_config http https cp kp ls → local_address http → forallb ascii tenant = true →
  claims_text s alice tenant azureAudience.
Proof.
  intros Hs (port & -> & Hp) Ht. constructor; try (apply valid_utf8_ascii; by vm_compute).
  - apply valid_utf8_ascii. unfold azure_issuer. rewrite Hs. cbn [PublicURL proxy_config].
    rewrite !forallb_app, Ht.
    assert (forallb ascii (trim_right (lit "http://" ++ local_port port) (chr "/")) = true) as ->; [|by vm_compute].
    assert (∀ w, forallb ascii w = true → forallb ascii (trim_right w (chr "/")) = true) as Htrim.
    { intros w Hw. rewrite forallb_forall in *. intros c Hc. apply Hw. apply list_elem_of_In. apply list_elem_of_In in Hc.
      unfold trim_right in Hc. rewrite elem_of_reverse in Hc.
      assert (∀ u, c ∈ trim_left u (chr "/") → c ∈ u) as Hl.
      { induction u as [|x u IH]; cbn; [done|]. case_decide; [|done]. intros Hx%IH. by right. }
      apply Hl in Hc. by rewrite elem_of_reverse in Hc. }
    apply Htrim. rewrite forallb_app, ascii_local by done. by vm_compute.
  - repeat constructor; apply valid_utf8_ascii; by vm_compute.
Qed.

(** The user of [query] is the one the provider expects. *)
Lemma query_user_google engine : engine ∈ engines → googleUsername (Email alice) engine = query_user google engine.
Proof. intros [->| ->%list_elem_of_singleton]%elem_of_cons; by vm_compute. Qed.

Lemma query_user_azure engine : query_user azure engine = Email alice.
Proof. by vm_compute. Qed.

(** With a credential of the profile, alice is let in. *)
Lemma profile_login s http https cp kp dbs addrs l provider engine now1 now2 token :
  WellFormed (svc_config s) → local_address http → local_address (Listen l) →
  svc_config s = proxy_config http https cp kp (profile_listeners dbs addrs profiles) →
  l = profile_listener dbs (Listen l) (provider, engine) → (provider, engine) ∈ profiles →
  credential s l (query_user provider engine) now1 now2 token →
  svc_Validate now1 now2 s l (query_user provider engine) token = Ok alice.
Proof.
  intros Hwf Hhttp (port & Hlisten & Hport) Hs Hl Hp (Haws & Hgoogle & Hazure).
  assert (alice ∈ Principals (svc_config s)) as Hin by (rewrite Hs; left).
  assert (principal s (ID alice) = Some alice) as Hprin by (by apply wf_principal).
  assert (Granted alice (Name l) = true) as Hg.
  { apply Granted_spec. rewrite profiles_granted. apply list_elem_of_fmap. exists (provider, engine). split; [by rewrite Hl|done]. }
  assert (Provider l = provider ∧ Engine l = engine ∧ Tenant l = lit "tenant-1" ∧ Hostname l = lit "127.0.0.1") as (HP & HE & HT & HH)
    by (by rewrite Hl).
  apply profile_cases in Hp as [[->|[->| ->%list_elem_of_singleton]%elem_of_cons]%elem_of_cons Hen].
  - destruct (Haws HP) as (h0 & port' & v & Hsp & Hsig & Hwin & ->).
    rewrite Hlisten, local_split in Hsp by done. injection Hsp as <- <-.
    apply (signed_login s alice l (lit "127.0.0.1") port); try done.
    + by rewrite Hlisten, local_split.
    + rewrite HH. by vm_compute.
    + by right.
  - destruct (Hgoogle HP) as (t & Ht & Hlive & Hscope & Hid). apply svc_Validate_Ok; [|done].
    right. left. split; [done|]. exists t. split_and!; [done..| |done|].
    + by rewrite Hid.
    + rewrite HE. symmetry. by apply query_user_google.
  - destruct (Hazure HP) as (now & life & Hkey & Hn & Hl' & H1 & H2 & ->). apply svc_Validate_Ok; [|done].
    right. right. split; [done|]. apply validateAzure_accepts. apply azure_issued_accepted; try done.
    + eapply alice_claims; [done..|]. by rewrite HT; vm_compute.
    + left. apply query_user_azure.
Qed.
End login.

(** ** The credentials file *)
(** It holds alice's refresh token, and the address of the emulator's endpoint; its
    members are sorted. *)
Lemma adc_members http : google_adc http =
  JObj [(lit "client_id", JStr (lit "mock-client")); (lit "client_secret", JStr (lit "mock-secret"));
        (lit "refresh_token", JStr (GoogleRefreshToken alice));
        (lit "token_uri", JStr (lit "http://" ++ http ++ lit "/token")); (lit "type", JStr (lit "authorized_user"))].
Proof. reflexivity. Qed.

(** A client that posts the refresh token of the file to that endpoint gets a
    credential for the Google profiles. *)
Lemma adc_credential `{GoUnicode} e r h0 http https cp kp ls form now :
  svc_config (h_s h0) = proxy_config http https cp kp ls →
  r_path r = lit "/token" → r_method r = lit "POST" → ParseForm r = Ok form →
  vget form (lit "grant_type") = lit "refresh_token" → vget form (lit "refresh_token") = GoogleRefreshToken alice →
  scope_allowed (or_default (vget form (lit "scope")) googleSQLScope) = true → now < clock e 0 + Hour →
  google_credential (h_s (serve e r h0).2) now (google_token (random e)).
Proof.
  intros Hc Hpath Hm Hf Hg Hr Hs Hn. rewrite serve_oauth by by right. unfold googleOAuth. rewrite Hm, Hf, Hg, Hr.
  assert (refresh_principal h0 (GoogleRefreshToken alice) = Some alice) as ->.
  { unfold refresh_principal. rewrite Hc. by vm_compute. }
  rewrite Hs. cbn. eexists. split; [apply lookup_insert_eq|]. split; [done|]. split; [by apply scope_allowed_sql|done].
Qed.

(** ** [start_proxy], run *)
(** What is outside does its part: it gives the addresses, writes the files, and the
    proxy accepts the configuration, starts and is healthy in the end. *)
Record cooperates (a : proxy_answers) (http https : gostring) (addrs : list gostring) : Prop := {
  co_free : ∀ i addr, (http :: https :: addrs) !! i = Some addr → pa_free a i = Ok addr;
  co_adc : ∀ text, pa_write_adc a text = Ok tt;
  co_answers : Forall (λ r, r = Ok tt)
    [pa_cert a; pa_write_aws a; pa_yaml a; pa_write_config a; pa_validate a; pa_start a];
  co_health : ∃ n rest, pa_health a = replicate n Neither ++ Healthy :: rest
}.

(** The listeners entered one after the other. *)
Definition enter_listeners (h : Harness) (ls : list Listener) : Harness := foldl (λ h l, with_listener l h) h ls.

Lemma enter_listeners_same ls h :
  proxy (enter_listeners h ls) = proxy h ∧ databases (enter_listeners h ls) = databases h ∧
  root (enter_listeners h ls) = root h.
Proof. unfold enter_listeners. revert h. induction ls as [|l ls IH]; intros h; cbn; [done|]. apply (IH (with_listener l h)). Qed.

Lemma enter_listeners_other ls h n : n ∉ Name <$> ls → listeners (enter_listeners h ls) !! n = listeners h !! n.
Proof.
  unfold enter_listeners. revert h. induction ls as [|l ls IH]; intros h; cbn; [done|]. intros [Hne Hn]%not_elem_of_cons.
  rewrite IH by done. cbn. by rewrite lookup_insert_ne.
Qed.

Lemma enter_listeners_lookup ls h l :
  NoDup (Name <$> ls) → l ∈ ls →
  listeners (enter_listeners h ls) !! Name l = Some (mkInfo (Listen l) (Provider l) (Engine l)).
Proof.
  unfold enter_listeners. revert h. induction ls as [|x ls IH]; intros h; cbn; [by intros _ ?%elem_of_nil|].
  intros [Hx Hnd]%NoDup_cons [->|Hl]%elem_of_cons; [|by apply IH].
  etrans; [by apply enter_listeners_other|]. cbn. by rewrite lookup_insert_eq.
Qed.

Lemma add_profiles_run free i ps addrs h :
  length addrs = length ps → (∀ k addr, addrs !! k = Some addr → free (i + k)%nat = Ok addr) →
  add_profiles free i ps h =
    (Ok (profile_listeners (databases h) addrs ps), enter_listeners h (profile_listeners (databases h) addrs ps)).
Proof.
  revert i addrs h. induction ps as [|p ps IH]; intros i [|addr addrs] h; try done. intros [= Hlen] Hfree.
  cbn [add_profiles]. unfold mbind, HM_bind. 
  pose proof (Hfree 0%nat addr eq_refl) as H0. rewrite Nat.add_0_r in H0. rewrite H0. cbn [liftH gets modify].
  rewrite (IH (S i) addrs) by (done || (intros k a Hk; rewrite <- (Hfree (S k) a Hk); f_equal; lia)).
  reflexivity.
Qed.

Lemma wait_ready_healthy n rest h : wait_ready (replicate n Neither ++ Healthy :: rest) h = (Ok tt, h).
Proof. by induction n as [|n IH]. Qed.

Section start.
Context `{GoUnicode}.

(** The databases are there. *)
Definition databases_up (dbs : gmap gostring gostring) : Prop :=
  profile_upstream dbs postgres ≠ [] ∧ profile_upstream dbs mysql ≠ [].

Lemma databases_guard dbs :
  databases_up dbs ↔
  empty (database dbs (lit "postgres")) || (empty (database dbs (lit "mysql")) && empty (database dbs (lit "mariadb"))) = false.
Proof.
  unfold databases_up, profile_upstream. 
  assert ((postgres =s mysql) = false) as -> by (by vm_compute). assert ((mysql =s mysql) = true) as -> by (by vm_compute).
  cbn [andb]. rewrite orb_false_iff, andb_false_iff, !empty_false. 
  destruct (empty (database dbs mysql)) eqn:E; [apply empty_true in E|apply empty_false in E].
  - split; [intros [? ?]; split; [done|by right]|intros [? [Hy|?]]; [by destruct Hy|done]].
  - split; intros [? ?]; split; auto.
Qed.

(** What [start_proxy] writes as the configuration of the proxy. *)
Definition written_config (h : Harness) (http https : gostring) (addrs : list gostring) : Config :=
  proxy_config http https (Join [root h; lit "cert.pem"]) (Join [root h; lit "key.pem"])
    (profile_listeners (databases h) addrs profiles).

Definition ready (h : Harness) (a : proxy_answers) (http https : gostring) (addrs : list gostring) : Prop :=
  proxy h = None ∧ databases_up (databases h) ∧ length addrs = length profiles ∧
  NoDup (http :: https :: addrs) ∧ Forall local_address (http :: https :: addrs) ∧ cooperates a http https addrs.

Lemma written_config_wf h a http https addrs :
  ready h a http https addrs →
  WellFormed (written_config h http https addrs) ∧
  Validate (written_config h http https addrs) = Ok (written_config h http https addrs).
Proof.
  intros (_ & [Hpg Hmy] & Hlen & Hnd & Hl & _). unfold written_config.
  split; [apply proxy_config_wf|apply proxy_config_valid]; try done; by apply Join_not_nil.
Qed.

Lemma startProxy_run h a http https addrs :
  ready h a http https addrs →
  ∃ h', startProxy a h = (Ok tt, h') ∧ proxy h' = Some true ∧
    ∀ l, l ∈ profile_listeners (databases h) addrs profiles →
      listeners h' !! Name l = Some (mkInfo (Listen l) (Provider l) (Engine l)).
Proof.
  intros Hready. pose proof (written_config_wf _ _ _ _ _ Hready) as [_ Hvalid].
  destruct Hready as (Hp & Hdb%databases_guard & Hlen & _ & _ & [Hfree Hadc Hans (n & rest & Hh)]).
  rewrite !Forall_cons in Hans. destruct Hans as (Hcert & Haws & Hyaml & Hwrite & Hval & Hstart & _).
  pose proof (Hfree 0%nat http eq_refl) as H0. pose proof (Hfree 1%nat https eq_refl) as H1.
  unfold startProxy, mbind, HM_bind, gets, modify, liftH. cbv beta iota zeta.
  rewrite Hp, Hdb, Hcert, H0, H1. cbn [bool_decide is_Some_dec guard_err or_empty].
  rewrite add_profiles_run with (addrs := addrs) by (done || (intros k addr Hk; by apply Hfree)).
  cbv beta iota. cbn [databases with_httpsAddr with_httpAddr with_certPath]. rewrite Haws, Hadc.
  fold (written_config h http https addrs). rewrite Hvalid, Hyaml, Hwrite, Hval, Hstart, Hh. cbn [wrap_err].
  rewrite wait_ready_healthy. eexists. split; [reflexivity|]. split; [done|]. cbn. intros l Hl.
  apply enter_listeners_lookup; [|done]. rewrite listeners_names by done. apply profiles_names.
Qed.

(** [query] asks the listener of the profile, as its user. *)
Lemma query_run provider engine token sql d h info :
  listeners h !! profile_name (provider, engine) = Some info →
  query provider engine token sql d h = (query_at engine (li_addr info) (query_user provider engine) token sql d, h).
Proof. intros Hl. unfold query, mbind, HM_bind, gets, liftH. by rewrite Hl. Qed.

(** An unknown profile is an error. *)
Lemma query_unknown provider engine token sql d h :
  listeners h !! profile_name (provider, engine) = None →
  query provider engine token sql d h = (Err (Errorf "unknown profile" []), h).
Proof. intros Hl. unfold query, mbind, HM_bind, gets, liftH. by rewrite Hl. Qed.

(** What the driver is told of a profile: PostgreSQL the two halves of the listener's
    address, MySQL the address. *)
Lemma query_at_local engine n user token sql d :
  0 <= n < 2 ^ 16 →
  query_at engine (local_port (itoa n)) user token sql d =
    if decide (engine = postgres) then
      rows ← qa_rows d (PgConn (lit "127.0.0.1") n user token (lit "testdb") true) sql;
      match rows with (v :: _) :: _ => Ok v | _ => Err (Errorf "query returned no row" []) end
    else qa_row d (MyConn (local_port (itoa n)) user token (lit "testdb") true) sql.
Proof.
  intros Hn. unfold query_at.
  assert (pg_connection (local_port (itoa n)) user token true =
    PgConn (lit "127.0.0.1") n user token (lit "testdb") true) as ->.
  { unfold pg_connection. destruct (itoa_digits n) as [[_ Hd]%andb_true_iff _]; [lia|].
    rewrite local_split by done. unfold atoi_value. rewrite atoi_itoa by lia.
    by rewrite Z.mod_small. }
  unfold seq_eqb. by case_bool_decide; case_decide.
Qed.

(** C30: What [start_proxy] sets up can be logged in to: on fresh loopback addresses
    the configuration it writes is accepted by [Validate] as it is, it ends with the
    proxy running, and for each of the six profiles there is a listener with an
    upstream, at whose address [query] logs in as exactly the user for whom the
    emulator of this configuration accepts any live Google token, Azure token or
    signed AWS token of alice. *)
Theorem harness_logins h a http https addrs :
  ready h a http https addrs →
  let c := written_config h http https addrs in
  Validate c = Ok c ∧
  ∃ h', startProxy a h = (Ok tt, h') ∧ proxy h' = Some true ∧
  ∀ provider engine, (provider, engine) ∈ profiles →
  ∃ l, l ∈ Listeners c ∧ Provider l = provider ∧ Engine l = engine ∧
    Upstream l = profile_upstream (databases h) engine ∧ Upstream l ≠ [] ∧
    (∀ token sql d, query provider engine token sql d h' =
       (query_at engine (Listen l) (query_user provider engine) token sql d, h')) ∧
    ∀ s now1 now2 token, svc_config s = c → credential s l (query_user provider engine) now1 now2 token →
      svc_Validate now1 now2 s l (query_user provider engine) token = Ok alice.
Proof.
  intros Hready c. pose proof (written_config_wf _ _ _ _ _ Hready) as [Hwf Hvalid].
  pose proof (startProxy_run _ _ _ _ _ Hready) as (h' & Hrun & Hproxy & Hls). fold c in Hwf, Hvalid.
  split; [done|]. exists h'. split; [done|]. split; [done|]. intros provider engine Hp.
  destruct Hready as (_ & [Hpg Hmy] & Hlen & _ & Hlocal & _). pose proof Hlocal as [Hhttp [_ Haddrs]%Forall_cons]%Forall_cons.
  destruct (profile_has (databases h) addrs Hlen (provider, engine) Hp) as (addr & Hin & Hl).
  exists (profile_listener (databases h) addr (provider, engine)). pose proof (profile_cases _ _ Hp) as [_ Hen].
  repeat (split; [done|]). split.
  { cbn. by destruct (proj1 (elem_of_cons _ _ _) Hen) as [->| ->%list_elem_of_singleton]. }
  split; [intros; exact (query_run _ _ _ _ _ _ _ (Hls _ Hl))|]. intros s now1 now2 token Hs Hcred.
  rewrite Forall_forall in Haddrs. eapply profile_login; [by rewrite Hs|exact Hhttp|by apply Haddrs|exact Hs|done|done|done].
Qed.
End start.
