(* ===== verification/Conn.v ===== *)
(** * Connection handlers

    The monad in which [serveMySQL], [servePostgres] and their wire helpers are
    written.  A handler owns one client connection: the bytes the client still
    sends and how the stream ends, what of the connection is under TLS, and how
    many more writes the connection takes before it breaks.  Everything the
    handler does that others can see is appended to a trace.

    A read blocks until bytes, the end of the stream or the deadline arrive, so
    the bytes of a run are a fixed (finite) sequence followed by the error that
    ends it ([io.EOF], a deadline, a reset).  [X] are the events of the
    component that uses the monad. *)
From S2P Require Import Prelude Wire.

Inductive event (X : Type) :=
  | EvWrite (tls : bool) (bs : list byte)
  | EvTLS
  | EvDeadline (on : bool)
  | EvX (x : X).
Arguments EvWrite {_} _ _.
Arguments EvTLS {_}.
Arguments EvDeadline {_} _.
Arguments EvX {_} _.

Record hstate (X : Type) := mkH {
  inp : list byte;
  fin : goerr;
  wleft : option nat;                       (* [None]: writes never fail *)
  secure : bool;
  tls_in : option (list byte * goerr);      (* what the client sends under TLS;
                                               [None]: its handshake fails *)
  trace : list (event X)
}.
Arguments mkH {_} _ _ _ _ _ _.
Arguments inp {_} _.
Arguments fin {_} _.
Arguments wleft {_} _.
Arguments secure {_} _.
Arguments tls_in {_} _.
Arguments trace {_} _.

Definition M (X A : Type) : Type := hstate X → res A * hstate X.

#[export] Instance M_ret X : MRet (M X) := λ A a s, (Ok a, s).
#[export] Instance M_bind X : MBind (M X) := λ A B f m s,
  match m s with
  | (Ok a, s') => f a s'
  | (Err e, s') => (Err e, s')
  | (Panic, s') => (Panic, s')
  end.

Section ops.
Context {X : Type}.
Implicit Types s : hstate X.

(** A pure fallible computation, an error, and [if bad { return err }]. *)
Definition lift {A} (r : res A) : M X A := λ s, (r, s).
Definition throw {A} (e : goerr) : M X A := lift (Err e).
Definition check (bad : bool) (e : goerr) : M X unit := lift (guard_err bad e).

(** [_ = m]: the error is dropped. *)
Definition ignore {A} (m : M X A) : M X unit := λ s,
  match m s with
  | (Panic, s') => (Panic, s')
  | (_, s') => (Ok tt, s')
  end.

(** The result with its error, for code that looks at [err] before returning. *)
Definition try {A} (m : M X A) : M X (A + goerr) := λ s,
  match m s with
  | (Ok a, s') => (Ok (inl a), s')
  | (Err e, s') => (Ok (inr e), s')
  | (Panic, s') => (Panic, s')
  end.

Definition with_inp (l : list byte) s : hstate X :=
  mkH l (fin s) (wleft s) (secure s) (tls_in s) (trace s).
Definition add_event (e : event X) s : hstate X :=
  mkH (inp s) (fin s) (wleft s) (secure s) (tls_in s) (trace s ++ [e]).

Definition emit (x : X) : M X unit := λ s, (Ok tt, add_event (EvX x) s).
Definition set_deadline (on : bool) : M X unit := λ s, (Ok tt, add_event (EvDeadline on) s).

(** [io.ReadFull(c, buf)] with [len(buf) = n]. *)
Definition readFull (n : nat) : M X (list byte) := λ s,
  if decide (n ≤ length (inp s)) then (Ok (take n (inp s)), with_inp (drop n (inp s)) s)
  else
    (Err (match inp s, fin s with
          | _ :: _, io_EOF => io_ErrUnexpectedEOF
          | _, e => e
          end), with_inp [] s).

(** [c.Write(b)]. *)
Definition write (b : list byte) : M X unit := λ s,
  match wleft s with
  | Some 0 => (Err io_ErrClosedPipe, s)
  | w => (Ok tt, mkH (inp s) (fin s) (pred <$> w) (secure s) (tls_in s)
                   (trace s ++ [EvWrite (secure s) b]))
  end.

(** [tls.Server(conn, cfg).HandshakeContext(ctx)], after which the handler uses
    the TLS connection in place of the plain one. *)
Definition tls_handshake : M X unit := λ s,
  match tls_in s with
  | Some (l, f) => (Ok tt, mkH l f (wleft s) true None (trace s ++ [EvTLS]))
  | None => (Err (Errorf "tls: handshake failure" []), s)
  end.

(** [defer d] for the rest of the function: [d] happens however [m] ends. *)
Definition deferred {A} (d : X) (m : M X A) : M X A := λ s,
  let '(r, s') := m s in (r, add_event (EvX d) s').

(** ** Reasoning: the state after a run satisfies [Q] *)
Definition wp {A} (m : M X A) (Q : res A → hstate X → Prop) s : Prop :=
  Q (m s).1 (m s).2.

(** [m] keeps the invariant [I], whatever its outcome. *)
Definition keeps {A} (I : hstate X → Prop) (m : M X A) : Prop :=
  ∀ s, I s → I (m s).2.

Lemma wp_bind {A B} (m : M X A) (f : A → M X B) Q s :
  wp m (λ r s', match r with
                | Ok a => wp (f a) Q s'
                | Err e => Q (Err e) s'
                | Panic => Q Panic s' end) s →
  wp (m ≫= f) Q s.
Proof. unfold wp, mbind, M_bind. by destruct (m s) as [[a|e|] s']. Qed.

Lemma wp_mono {A} (m : M X A) (Q Q' : res A → hstate X → Prop) s :
  wp m Q s → (∀ r s', Q r s' → Q' r s') → wp m Q' s.
Proof. unfold wp. auto. Qed.

Lemma keeps_bind {A B} I (m : M X A) (f : A → M X B) :
  keeps I m → (∀ a, keeps I (f a)) → keeps I (m ≫= f).
Proof.
  intros Hm Hf s Hs. unfold mbind, M_bind. specialize (Hm s Hs).
  destruct (m s) as [[a|e|] s']; cbn in *; auto. by apply Hf.
Qed.

Lemma keeps_ret {A} I (a : A) : keeps I (mret a : M X A).
Proof. by intros s. Qed.
Lemma keeps_lift {A} I (r : res A) : keeps I (lift r).
Proof. by intros s. Qed.
Lemma keeps_throw {A} I e : keeps I (throw (A := A) e).
Proof. by intros s. Qed.
Lemma keeps_check I bad e : keeps I (check bad e).
Proof. by intros s. Qed.
Lemma keeps_ignore {A} I (m : M X A) : keeps I m → keeps I (ignore m).
Proof. intros Hm s Hs. unfold ignore. specialize (Hm s Hs). destruct (m s) as [[a|e|] s']; exact Hm. Qed.
Lemma keeps_try {A} I (m : M X A) : keeps I m → keeps I (try m).
Proof. intros Hm s Hs. unfold try. specialize (Hm s Hs). destruct (m s) as [[a|e|] s']; exact Hm. Qed.

(** Reads do not touch the trace: an invariant of the trace and of the security
    of the connection survives them. *)
Definition trace_inv (I : hstate X → Prop) : Prop :=
  ∀ s s', trace s = trace s' → secure s = secure s' → I s → I s'.

Lemma keeps_readFull I n : trace_inv I → keeps I (readFull n).
Proof. intros HI s Hs. unfold readFull. case_decide; cbn; (eapply HI; [..|exact Hs]; done). Qed.

(** ** Runs *)
Lemma bind_run {A B} (m : M X A) (f : A → M X B) s a s' :
  m s = (Ok a, s') → (m ≫= f) s = f a s'.
Proof. unfold mbind, M_bind. by intros ->. Qed.
Lemma bind_run_err {A B} (m : M X A) (f : A → M X B) s e s' :
  m s = (Err e, s') → (m ≫= f) s = (Err e, s').
Proof. unfold mbind, M_bind. by intros ->. Qed.

(** Pure steps of a run. *)
Lemma bind_lift_Ok {A B} (r : res A) (f : A → M X B) s a :
  r = Ok a → (lift r ≫= f) s = f a s.
Proof. by intros ->. Qed.
Lemma bind_check_false {B} bad e (f : unit → M X B) s :
  bad = false → (check bad e ≫= f) s = f tt s.
Proof. by intros ->. Qed.
Lemma bind_ret {A B} (a : A) (f : A → M X B) s : (mret a ≫= f) s = f a s.
Proof. done. Qed.
Lemma M_bind_assoc {A B C} (m : M X A) (f : A → M X B) (g : B → M X C) s :
  ((m ≫= f) ≫= g) s = (m ≫= (λ x, f x ≫= g)) s.
Proof. unfold mbind, M_bind. by destruct (m s) as [[a|e|] s']. Qed.

Lemma readFull_app n bs rest s :
  length bs = n → inp s = bs ++ rest → readFull n s = (Ok bs, with_inp rest s).
Proof.
  intros Hn Hi. unfold readFull. rewrite Hi, length_app, decide_True by lia.
  by rewrite take_app_length', drop_app_length' by done.
Qed.
Lemma write_run b s : wleft s = None → write b s = (Ok tt, add_event (EvWrite (secure s) b) s).
Proof. destruct s as [i f w sec t tr]. cbn. by intros ->. Qed.

(** ** What reads and writes change

    [talked W]: input was consumed, and writes of [W] were made on the layer the
    connection was on. *)
Definition talked (W : list byte → Prop) s s' : Prop :=
  secure s' = secure s ∧ tls_in s' = tls_in s ∧ fin s' = fin s ∧
  ∃ ws, Forall W ws ∧ trace s' = trace s ++ (EvWrite (secure s) <$> ws).

Lemma talked_refl W s : talked W s s.
Proof. split_and!; try done. exists []. cbn. by rewrite app_nil_r. Qed.

Lemma talked_trans W s1 s2 s3 : talked W s1 s2 → talked W s2 s3 → talked W s1 s3.
Proof.
  intros (Hs1 & Ht1 & Hf1 & ws1 & HW1 & Htr1) (Hs2 & Ht2 & Hf2 & ws2 & HW2 & Htr2).
  split_and!; try congruence. exists (ws1 ++ ws2). split; [by apply Forall_app|].
  by rewrite Htr2, Htr1, Hs1, fmap_app, app_assoc.
Qed.

Lemma talked_mono (W W' : list byte → Prop) s s' :
  talked W s s' → (∀ w, W w → W' w) → talked W' s s'.
Proof.
  intros (? & ? & ? & ws & HW & ?) Hm. split_and!; try done. exists ws.
  split; [by eapply Forall_impl|done].
Qed.

Lemma talked_read W s s' :
  secure s' = secure s → tls_in s' = tls_in s → fin s' = fin s → trace s' = trace s →
  talked W s s'.
Proof. intros ? ? ? Ht. split_and!; try done. exists []. cbn. by rewrite Ht, app_nil_r. Qed.

Lemma wp_lift {A} (r : res A) (Q : res A → hstate X → Prop) s : Q r s → wp (lift r) Q s.
Proof. done. Qed.

Lemma wp_check bad e (Q : res unit → hstate X → Prop) s :
  (bad = true → Q (Err e) s) → (bad = false → Q (Ok tt) s) → wp (check bad e) Q s.
Proof. unfold wp, check, lift. destruct bad; cbn; auto. Qed.

Lemma wp_readFull n (Q : res (list byte) → hstate X → Prop) s :
  (∀ bs rest, inp s = bs ++ rest → length bs = n → Q (Ok bs) (with_inp rest s)) →
  (∀ e, Q (Err e) (with_inp [] s)) →
  wp (readFull n) Q s.
Proof.
  intros Hok Herr. unfold wp, readFull. case_decide as Hn; cbn; [|apply Herr].
  apply Hok; [by rewrite take_drop|by apply length_take_le].
Qed.

Lemma wp_write b (Q : res unit → hstate X → Prop) s :
  (∀ r s', talked (eq b) s s' → inp s' = inp s → r ≠ Panic → Q r s') → wp (write b) Q s.
Proof.
  intros HQ. unfold wp, write. destruct (wleft s) as [[|n]|]; cbn; apply HQ; try done;
    split_and!; try done; [exists []|exists [b]..]; cbn; rewrite ?app_nil_r; by repeat constructor.
Qed.

(** A write whose error is dropped. *)
Lemma wp_ignore {A} (m : M X A) (Q : res unit → hstate X → Prop) s :
  wp m (λ r s', match r with Panic => Q Panic s' | _ => Q (Ok tt) s' end) s →
  wp (ignore m) Q s.
Proof. unfold wp, ignore. by destruct (m s) as [[a|e|] s']. Qed.

(** ** Traces against a session protocol

    A protocol is a step relation on phases, labelled by events; [follows] is
    its reflexive transitive closure along a trace. *)
Section follows.
Context {P : Type} (step : P → event X → P → Prop).

Inductive follows : P → list (event X) → P → Prop :=
  | follows_nil p : follows p [] p
  | follows_snoc p tr q e r : follows p tr q → step q e r → follows p (tr ++ [e]) r.

Lemma follows_talked (W : list byte → Prop) p q s s' :
  talked W s s' → (∀ w, W w → step q (EvWrite (secure s) w) q) →
  follows p (trace s) q → follows p (trace s') q.
Proof.
  intros (_ & _ & _ & ws & HW & ->) Hw Hf.
  induction ws as [|w ws IH] using rev_ind; cbn; [by rewrite app_nil_r|].
  rewrite Forall_app, Forall_singleton in HW. destruct HW as [HW Hww].
  rewrite fmap_app, app_assoc.
  apply (follows_snoc _ _ q (EvWrite (secure s) w)); [exact (IH HW)|by apply Hw].
Qed.

(** The connection is in phase [ph], reached from [p0] by the trace so far; a
    phase knows whether the connection is under TLS. *)
Context (p0 : P) (under_tls : P → bool).

Definition at_phase (ph : P) s : Prop :=
  follows p0 (trace s) ph ∧ secure s = under_tls ph.

Lemma at_phase_talked W ph s s' :
  at_phase ph s → talked W s s' →
  (∀ w, W w → step ph (EvWrite (under_tls ph) w) ph) → at_phase ph s'.
Proof.
  intros [Hf Hs] Ht HW. split; [|destruct Ht as [Hs' _]; congruence].
  eapply follows_talked; [done| |done]. by rewrite Hs.
Qed.

Lemma at_phase_event ph ph' e s :
  at_phase ph s → step ph e ph' → under_tls ph' = under_tls ph →
  at_phase ph' (add_event e s).
Proof. intros [Hf Hs] He Hu. split; [by eapply follows_snoc|cbn; congruence]. Qed.

Lemma follows_invariant (I : P → Prop) p tr q :
  follows p tr q → I p → (∀ q e r, step q e r → I q → I r) → I q.
Proof. induction 1; eauto. Qed.

(** An event of a trace is a step from a phase that a prefix of the trace leads
    to. *)
Lemma follows_elem p tr q e :
  follows p tr q → e ∈ tr → ∃ tr1 x y, tr1 ++ [e] `prefix_of` tr ∧ follows p tr1 x ∧ step x e y.
Proof.
  induction 1 as [p|p tr q e' r Hf IH Hs]; [by intros ?%elem_of_nil|].
  intros [Hin| ->%list_elem_of_singleton]%elem_of_app.
  - destruct (IH Hin) as (tr1 & x & y & Hp & Hx). exists tr1, x, y. split; [|done]. by apply prefix_app_r.
  - by exists tr, q, r.
Qed.

Lemma follows_snoc_inv p tr e r : follows p (tr ++ [e]) r → ∃ q, follows p tr q ∧ step q e r.
Proof.
  intros Hf. remember (tr ++ [e]) as t eqn:Ht. destruct Hf as [p|p tr' q e' r Hf Hs]; [by destruct tr|].
  apply app_inj_tail in Ht as [-> ->]. eauto.
Qed.

Lemma follows_nil_inv p r : follows p [] r → r = p.
Proof.
  intros Hf. remember [] as t eqn:Ht. destruct Hf as [p|p tr q e r Hf Hs]; [done|by destruct tr].
Qed.

(** A protocol run through a trace goes through each of its parts. *)
Lemma follows_app p a b r : follows p (a ++ b) r → ∃ q, follows p a q ∧ follows q b r.
Proof.
  revert r. induction b as [|e b IH] using rev_ind; intros r Hf.
  - rewrite app_nil_r in Hf. exists r. split; [done|constructor].
  - rewrite app_assoc in Hf. apply follows_snoc_inv in Hf as (q & Hf & Hs).
    destruct (IH _ Hf) as (q' & Ha & Hb). exists q'. split; [done|]. by eapply follows_snoc.
Qed.

Lemma follows_split p a e b r : follows p (a ++ e :: b) r → ∃ x y, follows p a x ∧ step x e y ∧ follows y b r.
Proof.
  intros (x & Ha & Hb)%follows_app. apply (follows_app x [e] b) in Hb as (y & He & Hb).
  exists x, y. split; [done|]. split; [|done].
  by apply (follows_snoc_inv x [] e y) in He as (q & ->%follows_nil_inv & Hs).
Qed.
End follows.
End ops.

Create HintDb conn.
#[export] Hint Resolve talked_refl keeps_bind keeps_ret keeps_lift keeps_throw keeps_check
  keeps_ignore keeps_try keeps_readFull : conn.
