(* ===== verification/MySQL.v ===== *)
(** * MySQL wire protocol and sessions (src/iamproxy/mysql.go)

    Packet framing, the handshake response parser, [serveMySQL] up to the
    relay, and the packets of the relay's client-to-backend loop, which refuses
    [COM_CHANGE_USER] ([Relay] has the goroutines).  The go-mysql client is a
    parameter: what the code passes to [client.ConnectWithDialer] is a [myLogin],
    what it uses of the result is its capability string. *)
From S2P Require Import Prelude Wire Conn NetAddr Config.
#[local] Open Scope Z_scope.

(** ** Capability flags (MySQL protocol values, go-mysql names) *)
Definition CLIENT_LONG_PASSWORD := 2 ^ 0.
Definition CLIENT_LONG_FLAG := 2 ^ 2.
Definition CLIENT_CONNECT_WITH_DB := 2 ^ 3.
Definition CLIENT_PROTOCOL_41 := 2 ^ 9.
Definition CLIENT_SSL := 2 ^ 11.
Definition CLIENT_TRANSACTIONS := 2 ^ 13.
Definition CLIENT_SECURE_CONNECTION := 2 ^ 15.
Definition CLIENT_MULTI_RESULTS := 2 ^ 17.
Definition CLIENT_PS_MULTI_RESULTS := 2 ^ 18.
Definition CLIENT_PLUGIN_AUTH := 2 ^ 19.
Definition CLIENT_PLUGIN_AUTH_LENENC_CLIENT_DATA := 2 ^ 21.
Definition CLIENT_SESSION_TRACK := 2 ^ 23.
Definition CLIENT_DEPRECATE_EOF := 2 ^ 24.
Definition CLIENT_QUERY_ATTRIBUTES := 2 ^ 27.

(** [cap&flag != 0] *)
Definition has_cap (cap flag : Z) : bool := negb (Z.land cap flag =? 0).

(** ** Packets *)
(** [int(h[0]) | int(h[1])<<8 | int(h[2])<<16] *)
Definition my_length (h : list byte) : res Z :=
  h0 ← index_go h 0; h1 ← index_go h 1; h2 ← index_go h 2;
  Ok (Z.lor (Z.lor (u8 h0) (Z.shiftl (u8 h1) 8)) (Z.shiftl (u8 h2) 16)).

Definition my_header (seq : byte) (b : list byte) : list byte :=
  let n := Z.of_nat (length b) in
  [byte_of n; byte_of (Z.shiftr n 8); byte_of (Z.shiftr n 16); seq].

Definition too_large : goerr := Errorf "MySQL packet too large" [].

Section packets.
Context {X : Type}.

Definition myRead : M X (list byte * byte) :=
  h ← readFull 4;
  n ← lift (my_length h);
  _ ← check (2 ^ 20 <? n) too_large;
  b ← readFull (Z.to_nat n);
  seq ← lift (index_go h 3);
  mret (b, seq).

Definition myWrite (seq : byte) (b : list byte) : M X unit :=
  _ ← check (2 ^ 20 <? Z.of_nat (length b)) too_large;
  _ ← write (my_header seq b);
  write b.

Definition error_packet (code : Z) (msg : gostring) : list byte :=
  [byte_of 255; byte_of code; byte_of (Z.shiftr code 8)] ++ lit "#28000" ++ msg.

Definition myError (seq : byte) (code : Z) (msg : gostring) : M X unit :=
  ignore (myWrite seq (error_packet code msg)).
End packets.

(** ** Strings and lengths *)
Fixpoint myCString (b : list byte) : res (gostring * list byte) :=
  match b with
  | [] => Err (Errorf "unterminated MySQL string" [])
  | c :: b' =>
     if decide (c = NUL) then Ok ([], b')
     else ' (s, rest) ← myCString b'; Ok (c :: s, rest)
  end.

Definition short_length : goerr := Errorf "short length" [].

Definition myLenenc (b : list byte) : res (Z * list byte) :=
  match b with
  | [] => Err (Errorf "empty length" [])
  | c :: _ =>
     if decide (u8 c = 252) then
       _ ← guard_err (bool_decide (length b < 3)%nat) short_length;
       b1 ← slice_from b 1; n ← le_uint 2 b1; rest ← slice_from b 3; Ok (n, rest)
     else if decide (u8 c = 253) then
       _ ← guard_err (bool_decide (length b < 4)%nat) short_length;
       b1 ← slice_from b 1; n ← my_length b1; rest ← slice_from b 4; Ok (n, rest)
     else if decide (u8 c = 254) then
       _ ← guard_err (bool_decide (length b < 9)%nat) short_length;
       b1 ← slice_from b 1; n ← le_uint 8 b1;
       _ ← guard_err (2 ^ 20 <? n) (Errorf "oversized length" []);
       rest ← slice_from b 9; Ok (n, rest)
     else rest ← slice_from b 1; Ok (u8 c, rest)
  end.

(** ** The handshake response *)
Record handshake := mkHS {
  hs_cap : Z;
  hs_user : gostring;
  hs_password : gostring;
  hs_database : gostring
}.

(** The length of the authentication data and the bytes it starts. *)
Definition auth_length (cap : Z) (rest : list byte) : res (Z * list byte) :=
  if has_cap cap CLIENT_PLUGIN_AUTH_LENENC_CLIENT_DATA then myLenenc rest
  else if has_cap cap CLIENT_SECURE_CONNECTION then
    _ ← guard_err (bool_decide (length rest < 1)%nat) (Errorf "missing password length" []);
    c ← index_go rest 0; rest ← slice_from rest 1; Ok (u8 c, rest)
  else
    ' (password, rest) ← myCString rest;
    Ok (Z.of_nat (length password), password ++ rest).

(** [!HasSuffix(password, "\x00") || Contains(password[:len(password)-1], "\x00")],
    then the password without its terminator. *)
Definition clear_password (password : gostring) : res gostring :=
  let bad := Errorf "invalid cleartext password" [] in
  _ ← guard_err (negb (has_suffix password [NUL])) bad;
  body ← slice_to_z password (Z.of_nat (length password) - 1);
  _ ← guard_err (contains body [NUL]) bad;
  Ok (trim_suffix password [NUL]).

Definition check_plugin (cap : Z) (rest : list byte) : res unit :=
  if has_cap cap CLIENT_PLUGIN_AUTH then
    ' (plugin, _) ← myCString rest;
    guard_err (negb (plugin =s lit "mysql_clear_password")) (Errorf "cleartext plugin required" [])
  else Ok tt.

Definition myHandshakeResponse (b : list byte) : res handshake :=
  _ ← guard_err (bool_decide (length b < 33)%nat) (Errorf "short handshake" []);
  b4 ← slice_to b 4; cap ← le_uint 4 b4;
  _ ← guard_err (negb (has_cap cap CLIENT_PROTOCOL_41) || negb (has_cap cap CLIENT_PLUGIN_AUTH))
        (Errorf "unsupported client" []);
  rest ← slice_from b 32;
  ' (username, rest) ← myCString rest;
  ' (n, rest) ← auth_length cap rest;
  _ ← guard_err ((n <? 0) || (Z.of_nat (length rest) <? n)) (Errorf "invalid password length" []);
  password ← slice_to rest (Z.to_nat n);
  password ← clear_password password;
  rest ← slice_from rest (Z.to_nat n);
  ' (database, rest) ← (if has_cap cap CLIENT_CONNECT_WITH_DB then myCString rest else Ok ([], rest));
  _ ← check_plugin cap rest;
  Ok (mkHS cap username password database).

(** ** The session *)
Definition my_caps : Z :=
  foldr Z.lor 0 [CLIENT_LONG_PASSWORD; CLIENT_LONG_FLAG; CLIENT_CONNECT_WITH_DB;
    CLIENT_PROTOCOL_41; CLIENT_SSL; CLIENT_TRANSACTIONS; CLIENT_SECURE_CONNECTION;
    CLIENT_MULTI_RESULTS; CLIENT_PS_MULTI_RESULTS; CLIENT_PLUGIN_AUTH;
    CLIENT_PLUGIN_AUTH_LENENC_CLIENT_DATA; CLIENT_SESSION_TRACK; CLIENT_DEPRECATE_EOF;
    CLIENT_QUERY_ATTRIBUTES].

Definition myFramingCaps : list Z :=
  [CLIENT_MULTI_RESULTS; CLIENT_PS_MULTI_RESULTS; CLIENT_SESSION_TRACK;
   CLIENT_DEPRECATE_EOF; CLIENT_QUERY_ATTRIBUTES].

Definition my_greeting (salt : list byte) : list byte :=
  [byte_of 10] ++ lit "8.0.36-iam-proxy" ++ [NUL] ++ le_bytes 4 1 ++ take 8 salt ++ [NUL]
  ++ le_bytes 2 my_caps ++ [byte_of 45] ++ le_bytes 2 2 ++ le_bytes 2 (Z.shiftr my_caps 16)
  ++ [byte_of 21] ++ replicate 10 NUL ++ drop 8 salt ++ [NUL]
  ++ lit "mysql_clear_password" ++ [NUL].

(** The capability calls the option closure makes on the backend connection. *)
Inductive cap_op := UnsetCapability (flag : Z) | SetCapability (flag : Z).

Definition cap_ops (clientCap : Z) : list cap_op :=
  flag ← myFramingCaps;
  if has_cap clientCap flag then
    if decide (flag = CLIENT_DEPRECATE_EOF ∨ flag = CLIENT_QUERY_ATTRIBUTES)
    then [] else [SetCapability flag]
  else [UnsetCapability flag].

(** A TLS client configuration: server name and [InsecureSkipVerify]. *)
Definition upstream_tls (l : Listener) : option (gostring * bool) :=
  if empty (UpstreamTLS l) || (UpstreamTLS l =s lit "disable") then None
  else Some (split_host (Upstream l), UpstreamTLS l =s lit "require").

(** The arguments of [client.ConnectWithDialer]. *)
Record myLogin := mkMyLogin {
  ml_network : gostring;
  ml_addr : gostring;
  ml_user : gostring;
  ml_password : gostring;
  ml_database : gostring;
  ml_caps : list cap_op;
  ml_tls : option (gostring * bool)
}.

Inductive my_event :=
  | MyValidate (user password : gostring)   (* the credential is checked *)
  | MyConnect (lg : myLogin)                (* the upstream is contacted *)
  | MyBackendClose
  | MyRelay.                                (* [myRelay] takes over *)

(** [myNegotiated]: every flag whose name occurs in the capability string. *)
Definition myNegotiated (CapNames : list (Z * gostring)) (caps : gostring) : Z :=
  foldl (λ acc name,
    foldl (λ acc '(flag, n), if decide (n = name) then Z.lor acc flag else acc) acc CapNames)
    0 (split_byte caps (chr "|")).

Section session.
(** [e.svc.Validate(l, user, password)], the go-mysql connection (its capability
    string, or a failure), and go-mysql's flag names. *)
Context (Validate : Listener → gostring → gostring → res Principal).
Context (connect : myLogin → option gostring).
Context (CapNames : list (Z * gostring)).

(** The first framing flag on which the two sides differ. *)
Definition caps_mismatch (frontCap backCap : Z) : option Z :=
  snd <$> list_find (λ flag, Z.land frontCap flag ≠ Z.land backCap flag) myFramingCaps.

(** [mysql.CapNames[flag]] *)
Definition cap_name (flag : Z) : gostring :=
  default [] (snd <$> (snd <$> list_find (λ x, x.1 = flag) CapNames)).

(** After a successful upstream login: the capability check, the final OK packet
    and the relay. *)
Definition my_handoff (clientCap : Z) (capstring : gostring) : M my_event unit :=
  match caps_mismatch (Z.land clientCap my_caps) (myNegotiated CapNames capstring) with
  | Some flag =>
     _ ← myError (byte_of 3) 1235 (lit "backend does not support the negotiated client capabilities");
     throw (Errorf "backend capability mismatch: %s" [cap_name flag])
  | None =>
     _ ← myWrite (byte_of 3) (byte_of <$> [0; 0; 0; 2; 0; 0; 0]);
     _ ← set_deadline false;
     emit MyRelay
  end.

(** The upstream login of an authenticated principal. *)
Definition my_login (l : Listener) (p : Principal) (h : handshake) : myLogin :=
  mkMyLogin (lit "tcp") (Upstream l) (BackendUser p) (BackendPassword p) (hs_database h)
    (cap_ops (hs_cap h)) (upstream_tls l).

Definition my_backend (l : Listener) (p : Principal) (h : handshake) : M my_event unit :=
  let lg := my_login l p h in
  _ ← emit (MyConnect lg);
  match connect lg with
  | None =>
     _ ← myError (byte_of 3) 1045 (lit "backend connection failed");
     throw (Errorf "backend connection failed" [])
  | Some capstring => deferred MyBackendClose (my_handoff (hs_cap h) capstring)
  end.

(** After the TLS handshake. *)
Definition my_login_phase (l : Listener) : M my_event unit :=
  ' (resp, seq) ← myRead;
  _ ← check (negb (bool_decide (u8 seq = 2))) (Errorf "bad MySQL handshake sequence" []);
  match myHandshakeResponse resp with
  | Ok h =>
     _ ← emit (MyValidate (hs_user h) (hs_password h));
     match Validate l (hs_user h) (hs_password h) with
     | Ok p => my_backend l p h
     | Err e => _ ← myError (byte_of 3) 1045 (lit "authentication failed"); throw e
     | Panic => lift Panic
     end
  | Err e => _ ← myError (byte_of 3) 1045 (lit "unsupported authentication"); throw e
  | Panic => lift Panic
  end.

(** [seq != 1 || len(resp) != 32 || Uint32(resp[:4])&CLIENT_SSL == 0] *)
Definition not_tls_request (resp : list byte) (seq : byte) : res bool :=
  if negb (bool_decide (u8 seq = 1)) || negb (bool_decide (length resp = 32%nat)) then Ok true
  else b4 ← slice_to resp 4; cap ← le_uint 4 b4; Ok (negb (has_cap cap CLIENT_SSL)).

Definition serveMySQL (salt : option (list byte)) (l : Listener) : M my_event unit :=
  _ ← set_deadline true;
  salt ← lift (match salt with Some b => Ok b | None => Err (Errorf "rand" []) end);
  _ ← myWrite (byte_of 0) (my_greeting salt);
  ' (resp, seq) ← myRead;
  bad ← lift (not_tls_request resp seq);
  if bad : bool then
    _ ← myError (byte_of 2) 1045 (lit "TLS is required");
    throw (Errorf "TLS required" [])
  else
    _ ← tls_handshake;
    my_login_phase l.
End session.

(** ** The relay, client to backend

    One pass of the goroutine of [myRelay] that reads the client's packets.
    [bw] writes to the backend succeed ([None]: all of them). *)
Inductive relay_action :=
  | BackWrite (b : list byte)
  | FrontError.                  (* [myError(front, 1, 1045, ...)] *)

Definition back_write (bw : option nat) (b : list byte) : option (option nat) :=
  match bw with Some O => None | _ => Some (pred <$> bw) end.

(** One packet: its header, body and what follows, or [None] when the stream
    ends inside it. *)
Definition relay_packet (inp : list byte) : option (list byte * list byte * list byte) :=
  if decide (length inp < 4)%nat then None
  else
    let h := take 4 inp in
    match my_length h with
    | Ok n =>
       if 2 ^ 24 - 1 <? n then None
       else if decide (length (drop 4 inp) < Z.to_nat n)%nat then None
       else Some (h, take (Z.to_nat n) (drop 4 inp), drop (Z.to_nat n) (drop 4 inp))
    | _ => None
    end.

(** [h[3] == 0 && n > 0 && b[0] == 0x11] *)
Definition is_change_user (h b : list byte) : bool :=
  bool_decide (h !! 3%nat = Some NUL) && bool_decide (b !! 0%nat = Some (byte_of 17)).

Fixpoint relay_front (fuel : nat) (inp : list byte) (bw : option nat) : list relay_action :=
  match fuel with
  | O => []
  | S fuel =>
     match relay_packet inp with
     | None => []
     | Some (h, b, rest) =>
        if is_change_user h b then FrontError :: relay_front fuel rest bw
        else
          match back_write bw h with
          | None => []
          | Some bw =>
             BackWrite h ::
             match back_write bw b with
             | None => []
             | Some bw => BackWrite b :: relay_front fuel rest bw
             end
          end
     end
  end.

(** The goroutine on a whole client stream: a pass consumes at least four bytes,
    so [length inp] passes are more than the stream can need. *)
Definition myRelay_front (inp : list byte) (bw : option nat) : list relay_action :=
  relay_front (length inp) inp bw.
