(* ===== verification/MySQLSpec.v ===== *)
(** * MySQL: packets, the handshake parser, sessions and the relay *)
From S2P Require Import Prelude Wire GoStrings Conn NetAddr Config MySQL.
#[local] Open Scope Z_scope.

(** ** Reference encoders *)

(** A client's length-encoded integer. *)
Definition lenenc (n : Z) : list byte :=
  if n <? 251 then [byte_of n]
  else if n <? 2 ^ 16 then byte_of 252 :: le_bytes 2 n
  else if n <? 2 ^ 24 then byte_of 253 :: le_bytes 3 n
  else byte_of 254 :: le_bytes 8 n.

(** A packet on the wire. *)
Definition packet (seq : byte) (b : list byte) : list byte := my_header seq b ++ b.

(** The authentication data of a [mysql_clear_password] client: the password and
    its terminator, after its length. *)
Definition auth_data (cap : Z) (pw : gostring) : list byte :=
  (if has_cap cap CLIENT_PLUGIN_AUTH_LENENC_CLIENT_DATA
   then lenenc (Z.of_nat (length pw) + 1)
   else [byte_of (Z.of_nat (length pw) + 1)]) ++ pw ++ [NUL].

(** The handshake response of such a client; [filler] is the max packet size,
    character set and reserved bytes, [extra] what follows the plugin name. *)
Definition encode_response (cap : Z) (filler user pw db extra : list byte) : list byte :=
  le_bytes 4 cap ++ filler ++ user ++ [NUL] ++ auth_data cap pw
  ++ (if has_cap cap CLIENT_CONNECT_WITH_DB then db ++ [NUL] else [])
  ++ lit "mysql_clear_password" ++ [NUL] ++ extra.

(** ** Packet lemmas *)
Lemma my_length_val h0 h1 h2 t : my_length (h0 :: h1 :: h2 :: t) = Ok (le_val [h0; h1; h2]).
Proof.
  unfold my_length. cbn. f_equal. pose proof (u8_range h0). pose proof (u8_range h1).
  rewrite !lor_shiftl by (rewrite ?lor_shiftl by lia; lia). lia.
Qed.

Lemma my_header_eq seq b : my_header seq b = le_bytes 3 (Z.of_nat (length b)) ++ [seq].
Proof.
  unfold my_header. cbn. rewrite !Z.shiftr_div_pow2 by lia.
  change (2 ^ 16) with (256 * 256). rewrite Z.div_div by lia. done.
Qed.

Lemma my_length_header seq b t :
  Z.of_nat (length b) < 2 ^ 24 → my_length (my_header seq b ++ t) = Ok (Z.of_nat (length b)).
Proof.
  intros Hb. rewrite my_header_eq. cbn [le_bytes app]. rewrite my_length_val. f_equal.
  change (le_val (le_bytes 3 (Z.of_nat (length b))) = Z.of_nat (length b)).
  rewrite le_val_bytes, Z.mod_small; [done|]. change (8 * Z.of_nat 3) with 24. lia.
Qed.

Lemma length_my_header seq b : length (my_header seq b) = 4%nat.
Proof. done. Qed.

(** ** Strings *)
Lemma myCString_app s rest : NUL ∉ s → myCString (s ++ NUL :: rest) = Ok (s, rest).
Proof.
  induction s as [|c s IH]; cbn; [done|]. rewrite not_elem_of_cons. intros [Hc Hs].
  rewrite decide_False by done. by rewrite IH.
Qed.

Lemma myCString_inv b s rest :
  myCString b = Ok (s, rest) → b = s ++ NUL :: rest ∧ NUL ∉ s.
Proof.
  revert s rest. induction b as [|c b IH]; intros s rest; cbn; [done|].
  case_decide as Hc; [intros [= <- <-]; subst; split; [done|set_solver]|].
  destruct (myCString b) as [[s' rest']|e|]; cbn; [|done..].
  intros [= <- <-]. destruct (IH s' rest' eq_refl) as [-> ?]. split; [done|].
  rewrite not_elem_of_cons. split; [congruence|done].
Qed.

Lemma myCString_no_panic b : myCString b ≠ Panic.
Proof.
  induction b as [|c b IH]; cbn; [done|]. case_decide; [done|].
  by destruct (myCString b) as [[]| |].
Qed.

(** ** Lengths *)
Lemma myLenenc_lenenc n rest :
  0 <= n < 2 ^ 64 → n <= 2 ^ 20 → myLenenc (lenenc n ++ rest) = Ok (n, rest).
Proof.
  intros Hn Hmax. unfold lenenc.
  destruct (Z.ltb_spec n 251); [|destruct (Z.ltb_spec n (2 ^ 16));
    [|destruct (Z.ltb_spec n (2 ^ 24)); [|pow_lits; lia]]]; cbn [app myLenenc];
    rewrite u8_byte_of.
  - rewrite Z.mod_small, !decide_False by lia. by go_slices.
  - rewrite decide_True by done. rewrite bool_decide_false by len_solve. cbn [guard_err].
    go_slices. cbn [drop]. rewrite drop_0. rewrite take_app_length', drop_app_length' by len_solve.
    rewrite le_val_bytes, Z.mod_small; [done|pow_lits; lia].
  - rewrite decide_False, decide_True by done. rewrite bool_decide_false by len_solve. cbn [guard_err].
    go_slices. cbn [drop le_bytes app]. rewrite ?drop_0, my_length_val, Ok_bind.
    change (Ok (le_val (le_bytes 3 n), rest) = Ok (n, rest)).
    rewrite le_val_bytes, Z.mod_small; [done|]. change (8 * Z.of_nat 3) with 24. pow_lits; lia.
Qed.

Lemma my_length_inv h n : my_length h = Ok n → 0 <= n < 2 ^ 24.
Proof.
  destruct h as [|h0 [|h1 [|h2 t]]]; [done..|]. rewrite my_length_val. intros [= <-].
  apply (le_val_range [h0; h1; h2]).
Qed.

Lemma drop_split {A} (l : list A) n :
  (1 ≤ n ≤ length l)%nat → ∃ l1, l = l1 ++ drop n l ∧ l1 ≠ [].
Proof.
  intros Hn. exists (take n l). split; [by rewrite take_drop|].
  intros Ht. apply (f_equal length) in Ht. rewrite length_take in Ht. cbn in Ht. lia.
Qed.

Lemma myLenenc_inv b n rest :
  myLenenc b = Ok (n, rest) → 0 <= n < 2 ^ 24 ∧ ∃ l, b = l ++ rest ∧ l ≠ [].
Proof.
  destruct b as [|c b]; [done|]. cbn [myLenenc]. pose proof (u8_range c).
  destruct (decide (u8 c = 252)); [|destruct (decide (u8 c = 253)); [|destruct (decide (u8 c = 254))]];
    intros Hr; go_inv; (split; [|apply drop_split; len_solve]).
  - pose proof (le_val_range (take 2 (drop 1 (c :: b)))) as Hv.
    rewrite length_take_le in Hv by len_solve. pow_lits. lia.
  - eauto using my_length_inv.
  - pose proof (le_val_range (take 8 (drop 1 (c :: b)))).
    match goal with H : (_ <? _) = false |- _ => apply Z.ltb_ge in H end. pow_lits. lia.
  - pow_lits. lia.
Qed.

(** ** The handshake parser *)
Lemma clear_password_iff data pw :
  clear_password data = Ok pw ↔ data = pw ++ [NUL] ∧ NUL ∉ pw.
Proof.
  unfold clear_password, slice_to_z. rewrite guard_bind_Ok, negb_false_iff.
  unfold trim_suffix. unfold has_suffix at 1. rewrite bool_decide_eq_true. split.
  - intros [[body ->] H]. rewrite length_app in H. cbn [length] in H.
    replace (Z.of_nat (length body + 1) - 1) with (Z.of_nat (length body)) in H by lia.
    destruct (Z.ltb_spec (Z.of_nat (length body)) 0); [lia|]. rewrite Nat2Z.id in H.
    rewrite slice_to_ok, Ok_bind, take_app_length in H by len_solve. go_inv.
    assert (has_suffix (body ++ [NUL]) [NUL] = true) as ->
      by (apply bool_decide_eq_true; by exists body).
    rewrite !Nat.add_sub, take_app_length. split; [done|].
    rewrite <- contains_byte. congruence.
  - intros [-> Hpw]. split; [by exists pw|]. rewrite length_app. cbn [length].
    replace (Z.of_nat (length pw + 1) - 1) with (Z.of_nat (length pw)) by lia.
    destruct (Z.ltb_spec (Z.of_nat (length pw)) 0); [lia|]. rewrite Nat2Z.id.
    rewrite slice_to_ok, Ok_bind, take_app_length by len_solve.
    assert (contains pw [NUL] = false) as ->
      by (apply not_true_is_false; by rewrite contains_byte).
    assert (has_suffix (pw ++ [NUL]) [NUL] = true) as ->
      by (apply bool_decide_eq_true; by exists pw).
    cbn. by rewrite Nat.add_sub, take_app_length.
Qed.

Lemma clear_password_no_panic data : no_panic (clear_password data).
Proof.
  unfold clear_password. apply no_panic_bind; [apply no_panic_guard|]. intros u Hu.
  apply guard_err_Ok, negb_false_iff, bool_decide_eq_true in Hu as [body ->].
  apply no_panic_bind.
  - unfold slice_to_z. rewrite length_app. cbn [length].
    destruct (Z.ltb_spec (Z.of_nat (length body + 1) - 1) 0); [lia|].
    apply no_panic_slice_to. rewrite length_app. cbn. lia.
  - intros. eauto with golib.
Qed.

Lemma myLenenc_no_panic b : no_panic (myLenenc b).
Proof.
  destruct b as [|c b]; [done|]. cbn [myLenenc].
  destruct (decide (u8 c = 252)); [|destruct (decide (u8 c = 253)); [|destruct (decide (u8 c = 254))]].
  all: repeat (apply no_panic_bind; [apply no_panic_guard|]; intros ? ?;
    match goal with H : guard_err (bool_decide _) _ = Ok _ |- _ =>
      apply guard_err_Ok, bool_decide_eq_false in H end).
  all: repeat (apply no_panic_bind; [|intros ? ?; go_inv]).
  all: try (apply no_panic_slice_from; len_solve).
  all: try (apply no_panic_slice_to; len_solve).
  all: try (apply no_panic_index; len_solve).
  all: try apply no_panic_Ok; apply no_panic_guard.
Qed.

Lemma auth_length_no_panic cap rest : no_panic (auth_length cap rest).
Proof.
  unfold auth_length.
  destruct (has_cap _ _); [apply myLenenc_no_panic|]. destruct (has_cap _ _).
  - apply no_panic_bind; [apply no_panic_guard|]. intros u Hu.
    apply guard_err_Ok, bool_decide_eq_false in Hu.
    apply no_panic_bind; [apply no_panic_index; len_solve|]. intros c _.
    apply no_panic_bind; [apply no_panic_slice_from; len_solve|]. by intros.
  - apply no_panic_bind; [apply myCString_no_panic|]. by intros [] _.
Qed.

Lemma check_plugin_no_panic cap rest : no_panic (check_plugin cap rest).
Proof.
  unfold check_plugin. destruct (has_cap _ _); [|done].
  apply no_panic_bind; [apply myCString_no_panic|]. intros [] _. apply no_panic_guard.
Qed.

(** The parser never indexes or slices out of range. *)
Lemma myHandshakeResponse_total b : no_panic (myHandshakeResponse b).
Proof.
  unfold myHandshakeResponse.
  apply no_panic_bind; [apply no_panic_guard|]. intros u Hu.
  apply guard_err_Ok, bool_decide_eq_false in Hu.
  apply no_panic_bind; [apply no_panic_slice_to; len_solve|]. intros b4 Hb4. go_inv.
  apply no_panic_bind; [unfold no_panic; by rewrite le_uint_ok by len_solve|]. intros cap _.
  apply no_panic_bind; [apply no_panic_guard|]. intros _ _.
  apply no_panic_bind; [apply no_panic_slice_from; len_solve|]. intros r0 _.
  apply no_panic_bind; [apply myCString_no_panic|]. intros [user r1] _.
  apply no_panic_bind; [apply auth_length_no_panic|]. intros [n r2] _.
  apply no_panic_bind; [apply no_panic_guard|]. intros v Hn.
  apply guard_err_Ok, orb_false_iff in Hn as [H0 Hn]. apply Z.ltb_ge in H0, Hn.
  apply no_panic_bind; [apply no_panic_slice_to; lia|]. intros pw _.
  apply no_panic_bind; [apply clear_password_no_panic|]. intros pw' _.
  apply no_panic_bind; [apply no_panic_slice_from; lia|]. intros r3 _.
  apply no_panic_bind; [destruct (has_cap _ _); [apply myCString_no_panic|done]|].
  intros [db r4] _. apply no_panic_bind; [apply check_plugin_no_panic|]. by intros.
Qed.

(** ** Round trip and soundness of the parser *)

(** A password that the client's capabilities let it send. *)
Definition sendable (cap : Z) (pw : gostring) : Prop :=
  if has_cap cap CLIENT_PLUGIN_AUTH_LENENC_CLIENT_DATA
  then Z.of_nat (length pw) < 2 ^ 20
  else has_cap cap CLIENT_SECURE_CONNECTION = true ∧ Z.of_nat (length pw) < 255.

Lemma auth_length_data cap pw rest :
  sendable cap pw →
  auth_length cap (auth_data cap pw ++ rest) = Ok (Z.of_nat (length pw) + 1, pw ++ NUL :: rest).
Proof.
  unfold sendable, auth_length, auth_data. destruct (has_cap cap _).
  - intros Hpw. rewrite <- !app_assoc. apply myLenenc_lenenc; pow_lits; lia.
  - intros [-> Hpw]. cbn [app]. rewrite bool_decide_false by len_solve. cbn [guard_err].
    rewrite Ok_bind. cbn [index_go lookup list_lookup]. rewrite Ok_bind.
    go_slices. cbn [drop]. rewrite drop_0, u8_byte_of, Z.mod_small by lia.
    by rewrite <- app_assoc.
Qed.

(** What a [mysql_clear_password] client sends is parsed back: the capabilities,
    the user, the whole password (no truncation up to the packet limit) and the
    database. *)
Lemma myHandshakeResponse_roundtrip cap filler user pw db extra :
  0 <= cap < 2 ^ 32 →
  has_cap cap CLIENT_PROTOCOL_41 = true → has_cap cap CLIENT_PLUGIN_AUTH = true →
  length filler = 28%nat →
  NUL ∉ user → NUL ∉ pw → NUL ∉ db →
  sendable cap pw →
  (has_cap cap CLIENT_CONNECT_WITH_DB = false → db = []) →
  myHandshakeResponse (encode_response cap filler user pw db extra) = Ok (mkHS cap user pw db).
Proof.
  intros Hcap H41 Hplug Hfill Huser Hpw Hdb Hsend Hnodb.
  unfold myHandshakeResponse, encode_response.
  rewrite bool_decide_false by len_solve. cbn [guard_err]. go_slices.
  rewrite take_app_length' by len_solve.
  rewrite take_ge by len_solve.
  rewrite le_val_bytes, Z.mod_small, H41, Hplug by (change (8 * Z.of_nat 4) with 32; lia).
  cbn [guard_err negb orb]. rewrite Ok_bind.
  rewrite (app_assoc (le_bytes 4 cap)), drop_app_length' by len_solve.
  cbn [app]. rewrite myCString_app, Ok_bind by done.
  rewrite auth_length_data, Ok_bind by done.
  destruct (Z.ltb_spec (Z.of_nat (length pw) + 1) 0); [lia|]. cbn [orb].
  match goal with |- context [Z.of_nat (length ?l) <? _] =>
    destruct (Z.ltb_spec (Z.of_nat (length l)) (Z.of_nat (length pw) + 1)) as [Hl|_] end.
  { rewrite length_app in Hl. cbn [length] in Hl. lia. }
  cbn [guard_err]. rewrite Ok_bind.
  replace (Z.to_nat (Z.of_nat (length pw) + 1)) with (length (pw ++ [NUL])) by len_solve.
  rewrite (cons_middle NUL pw), app_assoc. go_slices.
  rewrite take_app_length, drop_app_length.
  rewrite (proj2 (clear_password_iff _ pw)), Ok_bind by done.
  assert (check_plugin cap (lit "mysql_clear_password" ++ NUL :: extra) = Ok tt) as Hcheck.
  { unfold check_plugin. rewrite Hplug, myCString_app; [done|]. compute_done. }
  destruct (has_cap cap CLIENT_CONNECT_WITH_DB).
  - rewrite <- app_assoc, Ok_bind. cbn [app]. rewrite myCString_app, Ok_bind by done. by rewrite Hcheck.
  - rewrite !Ok_bind. cbn [app]. rewrite Hcheck. by rewrite (Hnodb eq_refl).
Qed.

Lemma auth_length_inv cap rest n r pw :
  auth_length cap rest = Ok (n, r) → n <= Z.of_nat (length r) → 0 <= n →
  take (Z.to_nat n) r = pw ++ [NUL] →
  (has_cap cap CLIENT_PLUGIN_AUTH_LENENC_CLIENT_DATA = true ∨
   has_cap cap CLIENT_SECURE_CONNECTION = true) ∧ ∃ len, rest = len ++ r ∧ len ≠ [].
Proof.
  unfold auth_length. destruct (has_cap cap CLIENT_PLUGIN_AUTH_LENENC_CLIENT_DATA).
  - intros (_ & Hl)%myLenenc_inv. auto.
  - destruct (has_cap cap CLIENT_SECURE_CONNECTION); intros Hr Hn H0 Htake; go_inv.
    + split; [auto|]. apply drop_split. lia.
    + match goal with H : myCString _ = Ok _ |- _ => apply myCString_inv in H as [-> Hnul] end.
      rewrite Nat2Z.id, take_app_length in Htake. subst. set_solver.
Qed.

Lemma database_inv cap rest db r :
  (if has_cap cap CLIENT_CONNECT_WITH_DB then myCString rest else Ok ([], rest)) = Ok (db, r) →
  (NUL ∉ db) ∧ rest = (if has_cap cap CLIENT_CONNECT_WITH_DB then db ++ [NUL] else []) ++ r.
Proof.
  destruct (has_cap cap CLIENT_CONNECT_WITH_DB).
  - intros [-> ?]%myCString_inv. by rewrite <- app_assoc.
  - intros [= <- <-]. split; [set_solver|done].
Qed.

Lemma check_plugin_inv cap rest u :
  has_cap cap CLIENT_PLUGIN_AUTH = true → check_plugin cap rest = Ok u →
  ∃ extra, rest = lit "mysql_clear_password" ++ [NUL] ++ extra.
Proof.
  unfold check_plugin. intros ->. intros H. go_inv.
  match goal with H : myCString _ = Ok _ |- _ => apply myCString_inv in H as [-> _] end.
  apply negb_false_iff, bool_decide_eq_true in H as ->. eauto.
Qed.

(** C38: Whatever bytes [myHandshakeResponse] accepts are a 4.1 handshake response of
    the cleartext plugin: the user, password and database it returns are the NUL-free
    fields at their places, and the client announced a length for its password (so a
    client with neither length capability never logs in). *)
Theorem myHandshakeResponse_sound b h :
  myHandshakeResponse b = Ok h →
  let cap := hs_cap h in
  has_cap cap CLIENT_PROTOCOL_41 = true ∧ has_cap cap CLIENT_PLUGIN_AUTH = true ∧
  (has_cap cap CLIENT_PLUGIN_AUTH_LENENC_CLIENT_DATA = true ∨
   has_cap cap CLIENT_SECURE_CONNECTION = true) ∧
  (NUL ∉ hs_user h) ∧ (NUL ∉ hs_password h) ∧ (NUL ∉ hs_database h) ∧
  ∃ filler len extra, length filler = 28%nat ∧ len ≠ [] ∧
    b = le_bytes 4 cap ++ filler ++ hs_user h ++ [NUL] ++ len ++ hs_password h ++ [NUL]
        ++ (if has_cap cap CLIENT_CONNECT_WITH_DB then hs_database h ++ [NUL] else [])
        ++ lit "mysql_clear_password" ++ [NUL] ++ extra.
Proof.
  unfold myHandshakeResponse. rewrite guard_bind_Ok. intros [Hlen Hb].
  apply bool_decide_eq_false in Hlen.
  apply bind_Ok in Hb as (b4 & [_ ->]%slice_to_Ok & Hb).
  apply bind_Ok in Hb as (cap & [_ Hcap]%le_uint_Ok & Hb). rewrite take_take, Nat.min_id in Hcap.
  apply guard_bind_Ok in Hb as [Hflags Hb].
  apply orb_false_iff in Hflags as [H41 Hplug]. rewrite negb_false_iff in H41, Hplug.
  apply bind_Ok in Hb as (r0 & [_ ->]%slice_from_Ok & Hb).
  apply bind_Ok in Hb as ([user r1] & [Huser Hnu]%myCString_inv & Hb).
  apply bind_Ok in Hb as ([n r2] & Hauth & Hb).
  apply guard_bind_Ok in Hb as [[H0 Hn]%orb_false_iff Hb]. apply Z.ltb_ge in H0, Hn.
  apply bind_Ok in Hb as (data & [_ Hdata]%slice_to_Ok & Hb).
  apply bind_Ok in Hb as (pw & [Hpw Hnp]%clear_password_iff & Hb).
  apply bind_Ok in Hb as (r3 & [_ Hr3]%slice_from_Ok & Hb).
  apply bind_Ok in Hb as ([db r4] & [Hnd Hdb]%database_inv & Hb).
  apply bind_Ok in Hb as (u & Hp & [= <-]).
  cbn [hs_cap hs_user hs_password hs_database].
  apply (check_plugin_inv _ _ _ Hplug) in Hp as [extra ->].
  eapply auth_length_inv in Hauth as [Hlenflag (len & -> & Hne)]; [|done..|rewrite <- Hdata; exact Hpw].
  split_and!; [done..|]. exists (drop 4 (take 32 b)), len, extra.
  split; [rewrite length_drop, length_take; lia|]. split; [done|].
  rewrite <- Hdb, Hr3, (app_assoc pw), <- Hpw, Hdata, take_drop.
  cbn [app]. rewrite <- Huser.
  rewrite <- (take_drop 32 b) at 1. rewrite <- (take_drop 4 (take 32 b)) at 1.
  rewrite take_take, <- app_assoc. f_equal.
  rewrite Hcap. change (4 `min` 32)%nat with 4%nat.
  pose proof (le_bytes_val (take 4 b)) as Hb4. by rewrite length_take_le in Hb4 by lia.
Qed.

(** ** Packets read back *)
Section packets.
Context {X : Type}.
Implicit Types s : hstate X.

Lemma myRead_packet s seq b rest :
  Z.of_nat (length b) <= 2 ^ 20 → inp s = packet seq b ++ rest →
  myRead s = (Ok (b, seq), with_inp rest s).
Proof.
  intros Hb Hi. unfold packet in Hi. rewrite <- app_assoc in Hi. unfold myRead.
  rewrite (bind_run _ _ _ _ _ (readFull_app 4 _ _ _ (length_my_header seq b) Hi)).
  assert (my_length (my_header seq b) = Ok (Z.of_nat (length b))) as Hlen.
  { rewrite <- (app_nil_r (my_header seq b)). apply my_length_header. pow_lits; lia. }
  rewrite (bind_lift_Ok _ _ _ _ Hlen), bind_check_false by (apply Z.ltb_ge; lia).
  rewrite Nat2Z.id, (bind_run _ _ _ b (with_inp rest s)) by (rewrite (readFull_app _ b rest); done).
  by rewrite (bind_lift_Ok _ _ _ seq).
Qed.

Lemma myWrite_run s seq b :
  Z.of_nat (length b) <= 2 ^ 20 → wleft s = None →
  myWrite seq b s =
    (Ok tt, add_event (EvWrite (secure s) b) (add_event (EvWrite (secure s) (my_header seq b)) s)).
Proof.
  intros Hb Hw. unfold myWrite. rewrite bind_check_false by (apply Z.ltb_ge; lia).
  destruct s as [i f w sec t tr]. cbn in Hw. by subst.
Qed.
End packets.

(** The bytes a trace wrote to the connection. *)
Definition written {X} (tr : list (event X)) : list byte :=
  tr ≫= λ e, match e with EvWrite _ b => b | _ => [] end.

(** A packet of at most 2^20 bytes that [myWrite] puts on the wire, with whatever
    follows it, is read back by [myRead] with its sequence number. *)
Lemma myWrite_myRead X (s r : hstate X) seq b rest :
  Z.of_nat (length b) <= 2 ^ 20 → wleft s = None → trace s = [] →
  inp r = written (trace (myWrite seq b s).2) ++ rest →
  (myWrite seq b s).1 = Ok tt ∧ myRead r = (Ok (b, seq), with_inp rest r).
Proof.
  intros Hb Hw Ht Hi. rewrite myWrite_run in Hi |- * by done. split; [done|].
  apply myRead_packet; [done|]. rewrite Hi. cbn [snd trace add_event]. rewrite Ht.
  unfold packet. cbn. by rewrite app_nil_r.
Qed.

(** ** The relay *)
Definition change_user (p : byte * list byte) : Prop :=
  p.1 = NUL ∧ head p.2 = Some (byte_of 17).
#[export] Instance change_user_dec p : Decision (change_user p).
Proof. unfold change_user. apply _. Defined.

Definition packet_actions (p : byte * list byte) : list relay_action :=
  if decide (change_user p) then [FrontError]
  else [BackWrite (my_header p.1 p.2); BackWrite p.2].

Arguments packet : simpl never.

(** What reaches the backend. *)
Definition back_bytes (acts : list relay_action) : list byte :=
  acts ≫= λ a, match a with BackWrite b => b | FrontError => [] end.

Lemma is_change_user_packet seq b :
  is_change_user (my_header seq b) b = bool_decide (change_user (seq, b)).
Proof.
  unfold is_change_user, change_user, my_header. cbn.
  destruct b as [|c b]; cbn; rewrite <- bool_decide_and; apply bool_decide_ext; naive_solver.
Qed.

Lemma relay_packet_Some inp h b rest :
  relay_packet inp = Some (h, b, rest) →
  ∃ seq, h = my_header seq b ∧ inp = packet seq b ++ rest ∧ Z.of_nat (length b) < 2 ^ 24.
Proof.
  unfold relay_packet. case_decide as Hl; [done|].
  destruct inp as [|c0 [|c1 [|c2 [|c3 l]]]]; cbn [length] in Hl; [lia..|].
  cbn [take drop]. rewrite my_length_val.
  pose proof (le_val_range [c0; c1; c2]) as Hv. change (8 * Z.of_nat (length [c0; c1; c2])) with 24 in Hv.
  pose proof (le_bytes_val [c0; c1; c2]) as Hbytes. change (length [c0; c1; c2]) with 3%nat in Hbytes.
  remember (le_val [c0; c1; c2]) as n eqn:Hn. clear Hn.
  destruct (Z.ltb_spec (2 ^ 24 - 1) n); [lia|].
  case_decide as Hd; [done|]. rewrite drop_0 in *. intros [= <- <- <-].
  assert (Hlen : Z.of_nat (length (take (Z.to_nat n) l)) = n) by (rewrite length_take; lia).
  exists c3. unfold packet. rewrite my_header_eq, Hlen, Hbytes. cbn [app].
  split; [done|]. split; [by rewrite take_drop|lia].
Qed.

Lemma relay_packet_length inp h b rest :
  relay_packet inp = Some (h, b, rest) → (length rest + 4 ≤ length inp)%nat.
Proof.
  intros (seq & -> & -> & _)%relay_packet_Some. unfold packet. rewrite !length_app. cbn. lia.
Qed.

(** The packets of a stream and its incomplete tail. *)
Lemma relay_front_spec fuel inp :
  (length inp ≤ fuel)%nat →
  ∃ pkts tail, inp = (pkts ≫= λ p, packet p.1 p.2) ++ tail ∧ relay_packet tail = None ∧
    Forall (λ p, Z.of_nat (length p.2) < 2 ^ 24) pkts ∧
    relay_front fuel inp None = pkts ≫= packet_actions.
Proof.
  revert inp. induction fuel as [|fuel IH]; intros inp Hf; cbn.
  - exists [], []. destruct inp; cbn in *; [done|lia].
  - destruct (relay_packet inp) as [[[h b] rest]|] eqn:Hp; [|exists [], inp; done].
    pose proof (relay_packet_length _ _ _ _ Hp).
    destruct (IH rest) as (pkts & tail & Hrest & Htail & Hsz & Hrun); [lia|].
    apply relay_packet_Some in Hp as (seq & -> & -> & Hb).
    exists ((seq, b) :: pkts), tail. cbn. unfold packet_actions at 1. cbn.
    rewrite is_change_user_packet, bool_decide_decide.
    rewrite <- app_assoc, <- Hrest, <- Hrun.
    split_and!; [done..|by constructor|by destruct (decide _)].
Qed.

Lemma relay_front_prefix fuel inp bw :
  relay_front fuel inp bw `prefix_of` relay_front fuel inp None.
Proof.
  revert inp bw. induction fuel as [|fuel IH]; intros inp bw; cbn; [done|].
  destruct (relay_packet inp) as [[[h b] rest]|]; [|done].
  destruct (is_change_user h b); [apply prefix_cons, IH|].
  destruct bw as [[|[|n]]|]; cbn.
  - apply prefix_nil.
  - apply prefix_cons, prefix_nil.
  - do 2 apply prefix_cons. apply IH.
  - do 2 apply prefix_cons. apply IH.
Qed.

Lemma back_bytes_actions pkts :
  back_bytes (pkts ≫= packet_actions) =
  filter (λ p, ¬ change_user p) pkts ≫= λ p, packet p.1 p.2.
Proof.
  induction pkts as [|p pkts IH]; [done|].
  rewrite bind_cons. unfold back_bytes in *. rewrite bind_app, IH, filter_cons.
  unfold packet_actions at 1. destruct (decide (change_user p)) as [Hc|Hc].
  - by rewrite decide_False by tauto.
  - rewrite decide_True by done. cbn. by rewrite app_nil_r.
Qed.

(** Whatever a client sends after login, the relay forwards to the backend
    exactly its complete packets other than [COM_CHANGE_USER], in order and unchanged;
    each [COM_CHANGE_USER] is answered with an error instead. When the backend stops
    accepting writes, what was forwarded is a prefix of that. *)
Lemma myRelay_forwards inp :
  ∃ pkts tail, inp = (pkts ≫= λ p, packet p.1 p.2) ++ tail ∧ relay_packet tail = None ∧
    Forall (λ p, Z.of_nat (length p.2) < 2 ^ 24) pkts ∧
    myRelay_front inp None = pkts ≫= packet_actions ∧
    back_bytes (myRelay_front inp None) =
      filter (λ p, ¬ change_user p) pkts ≫= (λ p, packet p.1 p.2) ∧
    ∀ bw, myRelay_front inp bw `prefix_of` myRelay_front inp None.
Proof.
  destruct (relay_front_spec (length inp) inp (le_n _)) as (pkts & tail & Hi & Ht & Hs & Hrun).
  exists pkts, tail. unfold myRelay_front. rewrite Hrun. split_and!; try done.
  - apply back_bytes_actions.
  - intros bw. rewrite <- Hrun. apply relay_front_prefix.
Qed.
