(* ===== verification/MySQLSession.v ===== *)
(** * MySQL sessions against their protocol

    The order of events every run of [serveMySQL] keeps to, as a labelled step
    relation, the refinement of it by the handler, and the complete trace of a
    well-behaved client's login. *)
From S2P Require Import Prelude Wire GoStrings Conn NetAddr Config MySQL MySQLSpec.
#[local] Open Scope Z_scope.

(** ** Writing and reading packets as one step *)
Section packets.
Context {X : Type}.
Implicit Types s : hstate X.

(** The two writes of a packet. *)
Definition packet_writes (seq : byte) (b w : list byte) : Prop := w = my_header seq b ∨ w = b.

Lemma wp_myWrite seq b (Q : res unit → hstate X → Prop) s :
  (∀ r s', talked (packet_writes seq b) s s' → r ≠ Panic → Q r s') → wp (myWrite seq b) Q s.
Proof.
  intros HQ. apply wp_bind, wp_check; [intros _; apply HQ; [apply talked_refl|done]|intros _].
  apply wp_bind, wp_write. intros r1 s1 Hw1 _ Hr.
  assert (talked (packet_writes seq b) s s1) as Hw by (eapply talked_mono; [done|by left]).
  destruct r1 as [[]|e|]; [|by apply HQ|done].
  apply wp_write. intros r s2 Hw2 _ Hr2. apply HQ; [|done].
  eapply talked_trans; [done|]. eapply talked_mono; [done|by right].
Qed.

Lemma wp_myError seq code msg (Q : res unit → hstate X → Prop) s :
  (∀ s', talked (packet_writes seq (error_packet code msg)) s s' → Q (Ok tt) s') →
  wp (myError seq code msg) Q s.
Proof.
  intros HQ. apply wp_ignore, wp_myWrite. intros [[]|e|] s' Hw Hr; [by apply HQ..|done].
Qed.

Lemma wp_myRead (Q : res (list byte * byte) → hstate X → Prop) s :
  (∀ b seq rest, inp s = packet seq b ++ rest → Q (Ok (b, seq)) (with_inp rest s)) →
  (∀ e s', talked (λ _, False) s s' → Q (Err e) s') →
  wp myRead Q s.
Proof.
  intros Hok Herr. apply wp_bind, wp_readFull; [|intros e; by apply Herr, talked_read].
  intros h rest Hi Hh.
  destruct h as [|c0 [|c1 [|c2 [|c3 [|]]]]]; try discriminate Hh.
  apply wp_bind, wp_lift. rewrite my_length_val.
  pose proof (le_val_range [c0; c1; c2]) as Hv. pose proof (le_bytes_val [c0; c1; c2]) as Hb.
  change (length [c0; c1; c2]) with 3%nat in *.
  remember (le_val [c0; c1; c2]) as n eqn:Hn. clear Hn.
  apply wp_bind, wp_check; [intros _; by apply Herr, talked_read|intros _].
  apply wp_bind, wp_readFull; [|intros e; by apply Herr, talked_read].
  intros b rest' Hi' Hb'. cbn in Hi'. subst rest.
  apply (Hok b c3 rest'). rewrite Hi. unfold packet. rewrite my_header_eq.
  replace (Z.of_nat (length b)) with n by lia. rewrite Hb. by rewrite <- app_assoc.
Qed.
End packets.

(** ** The comparison of framing capabilities *)
Lemma caps_mismatch_None front back :
  caps_mismatch front back = None →
  ∀ flag, flag ∈ myFramingCaps → Z.land front flag = Z.land back flag.
Proof.
  unfold caps_mismatch. intros Hn%fmap_None%list_find_None flag Hflag.
  rewrite Forall_forall in Hn. specialize (Hn flag Hflag). cbn in Hn.
  destruct (decide (Z.land front flag = Z.land back flag)); tauto.
Qed.

Lemma caps_mismatch_agree front back :
  (∀ flag, flag ∈ myFramingCaps → Z.land front flag = Z.land back flag) →
  caps_mismatch front back = None.
Proof.
  intros Hag. unfold caps_mismatch. apply fmap_None, list_find_None, Forall_forall.
  intros flag Hf Hne. by apply Hne, Hag.
Qed.

(** ** The negotiated capabilities

    go-mysql's [CapabilityString] joins the names of the flags that are set, in the
    order in which it iterates its map of names. *)
Definition capability_string (order : list (Z * gostring)) (caps : Z) : gostring :=
  join (snd <$> filter (λ fn, has_cap caps fn.1 = true) order) (lit "|").

(** What the map promises: distinct plain names of single bits. *)
Record cap_names (CapNames : list (Z * gostring)) : Prop := {
  cn_names : NoDup CapNames.*2;
  cn_plain fn : fn ∈ CapNames → fn.2 ≠ [] ∧ chr "|" ∉ fn.2;
  cn_bits fn : fn ∈ CapNames → ∃ i, 0 <= i ∧ fn.1 = 2 ^ i
}.

Lemma testbit_foldl {A} (g : Z → A → Z) (P : A → Prop) (l : list A) acc i :
  (∀ z a, Z.testbit (g z a) i = true ↔ Z.testbit z i = true ∨ P a) →
  Z.testbit (foldl g acc l) i = true ↔ Z.testbit acc i = true ∨ ∃ a, a ∈ l ∧ P a.
Proof.
  intros Hg. revert acc. induction l as [|a l IH]; intros acc; cbn.
  - split; [auto|]. intros [?|(x & Hx%elem_of_nil & _)]; done.
  - rewrite IH, Hg. setoid_rewrite elem_of_cons. naive_solver.
Qed.

Lemma myNegotiated_testbit CapNames s i :
  Z.testbit (myNegotiated CapNames s) i = true ↔
  ∃ fn, fn ∈ CapNames ∧ fn.2 ∈ split_byte s (chr "|") ∧ Z.testbit fn.1 i = true.
Proof.
  unfold myNegotiated.
  rewrite (testbit_foldl _ (λ name, ∃ fn, fn ∈ CapNames ∧ fn.2 = name ∧ Z.testbit fn.1 i = true)).
  - rewrite Z.testbit_0_l. naive_solver.
  - intros z name. rewrite (testbit_foldl _ (λ fn, fn.2 = name ∧ Z.testbit fn.1 i = true)); [done|].
    intros acc [flag n]. case_decide; cbn; [rewrite Z.lor_spec, orb_true_iff|]; naive_solver.
Qed.

Lemma has_cap_bit caps i : 0 <= i → has_cap caps (2 ^ i) = Z.testbit caps i.
Proof.
  intros Hi. unfold has_cap. destruct (Z.eqb_spec (Z.land caps (2 ^ i)) 0) as [Hz|Hz]; cbn; symmetry.
  - pose proof (Z.land_spec caps (2 ^ i) i) as Hb. rewrite Hz, Z.testbit_0_l, Z.pow2_bits_true, andb_true_r in Hb by done. done.
  - destruct (Z.testbit caps i) eqn:Hb; [done|]. exfalso. apply Hz. apply Z.bits_inj_0. intros j.
    rewrite Z.land_spec. destruct (decide (j = i)) as [->|Hne]; [by rewrite Hb|].
    rewrite Z.pow2_bits_false by done. apply andb_false_r.
Qed.

Lemma same_name CapNames f g :
  cap_names CapNames → f ∈ CapNames → g ∈ CapNames → f.2 = g.2 → f = g.
Proof.
  intros [Hnd _ _] [i Hi]%list_elem_of_lookup_1 [j Hj]%list_elem_of_lookup_1 He.
  assert (i = j) as ->; [|congruence].
  apply (NoDup_lookup _ i j f.2 Hnd); rewrite list_lookup_fmap; [by rewrite Hi|by rewrite Hj, He].
Qed.

(** Whatever the two orders are, the flags decoded are those negotiated. *)
Lemma myNegotiated_decodes CapNames order caps fn :
  cap_names CapNames → order ≡ₚ CapNames → fn ∈ CapNames →
  Z.land (myNegotiated CapNames (capability_string order caps)) fn.1 = Z.land caps fn.1.
Proof.
  intros Hcn Hord Hfn. pose proof Hcn as [_ Hpl Hbits]. destruct (Hbits fn Hfn) as (i & Hi & Hfi). rewrite Hfi. apply Z.bits_inj'. intros j Hj.
  rewrite !Z.land_spec. destruct (decide (j = i)) as [->|Hne]; [|by rewrite Z.pow2_bits_false, !andb_false_r by done].
  f_equal. apply eq_true_iff_eq. rewrite myNegotiated_testbit.
  assert (∀ g, g ∈ CapNames → Z.testbit g.1 i = true → has_cap caps g.1 = Z.testbit caps i) as Hcap.
  { intros g Hg Ht. destruct (Hbits g Hg) as (k & Hk & Hgk). rewrite Hgk in *. rewrite has_cap_bit by done.
    by apply Z.pow2_bits_eqb with (m := i) in Hk as Hb; rewrite Hb in Ht; apply Z.eqb_eq in Ht as ->. }
  set (set_names := snd <$> filter (λ g, has_cap caps g.1 = true) order).
  assert (∀ g, g ∈ CapNames → g.2 ∈ split_byte (join set_names (lit "|")) (chr "|") ↔ has_cap caps g.1 = true) as Hin.
  { intros g Hg. assert (g.2 ∈ set_names ↔ has_cap caps g.1 = true) as <-.
    { unfold set_names. rewrite list_elem_of_fmap. setoid_rewrite list_elem_of_filter. split; [|intros Hc; exists g; by rewrite Hord].
      intros (g' & Heq & Hc & Hg'). rewrite Hord in Hg'. by rewrite (same_name CapNames g g'). }
    destruct (decide (set_names = [])) as [He|He].
    - rewrite He. cbn. rewrite elem_of_nil, list_elem_of_singleton. split; [|done]. by apply Hpl.
    - change (lit "|") with [chr "|"]. rewrite split_join; [done..|]. apply Forall_forall.
      intros n (g' & -> & [_ Hg']%list_elem_of_filter)%list_elem_of_fmap. apply Hpl. by rewrite <- Hord. }
  split.
  - intros (g & Hg & Hs & Ht). apply Hin in Hs; [|done]. by rewrite <- (Hcap g).
  - intros Ht. assert (Z.testbit fn.1 i = true) as Hb by (rewrite Hfi; by apply Z.pow2_bits_true).
    exists fn. split; [done|]. split; [|done]. apply Hin; [done|]. by rewrite Hcap.
Qed.

(** So the check of [my_handoff] compares what the two connections agreed on. *)
Lemma caps_mismatch_negotiated CapNames order front back :
  cap_names CapNames → order ≡ₚ CapNames → (∀ flag, flag ∈ myFramingCaps → flag ∈ CapNames.*1) →
  caps_mismatch front (myNegotiated CapNames (capability_string order back)) = None ↔
  ∀ flag, flag ∈ myFramingCaps → Z.land front flag = Z.land back flag.
Proof.
  intros Hcn Hord Hall.
  assert (∀ flag, flag ∈ myFramingCaps →
    Z.land (myNegotiated CapNames (capability_string order back)) flag = Z.land back flag) as Hd.
  { intros flag (fn & -> & Hfn)%Hall%list_elem_of_fmap. by apply myNegotiated_decodes. }
  split.
  - intros Hn flag Hf. rewrite <- Hd by done. by eapply caps_mismatch_None in Hn.
  - intros Hag. apply caps_mismatch_agree. intros flag Hf. rewrite Hd by done. auto.
Qed.

(** ** The session protocol *)
Inductive my_phase :=
  | MPlain                          (* before TLS *)
  | MSecure                         (* TLS is up, nothing accepted *)
  | MChecked (h : handshake)        (* the client's credential was judged *)
  | MConnected (p : Principal) (h : handshake)
  | MReady                          (* the deadline is lifted *)
  | MRelaying
  | MClosed (relayed : bool).

Definition my_under_tls (ph : my_phase) : bool :=
  match ph with MPlain => false | _ => true end.

Section protocol.
Context (Validate : Listener → gostring → gostring → res Principal).
Context (connect : myLogin → option gostring).
Context (CapNames : list (Z * gostring)).
(** The salt, the listener, and what the client sends under TLS. *)
Context (salt : option (list byte)) (l : Listener) (tls0 : option (list byte * goerr)).

(** The framing capabilities promised to the client are those in effect on the
    backend connection. *)
Definition framing_agrees (h : handshake) (capstring : gostring) : Prop :=
  ∀ flag, flag ∈ myFramingCaps →
    Z.land (Z.land (hs_cap h) my_caps) flag = Z.land (myNegotiated CapNames capstring) flag.

(** The credential judged is the one in the client's first TLS packet. *)
Definition my_presented (h : handshake) : Prop :=
  ∃ resp rest f, tls0 = Some (packet (byte_of 2) resp ++ rest, f) ∧
    myHandshakeResponse resp = Ok h.

(** All that is ever written in the clear: the greeting, and the refusal of a
    client that does not ask for TLS. *)
Definition my_plain_write (b : list byte) : Prop :=
  (∃ bs, salt = Some bs ∧ packet_writes (byte_of 0) (my_greeting bs) b) ∨
  packet_writes (byte_of 2) (error_packet 1045 (lit "TLS is required")) b.

Inductive my_step : my_phase → event my_event → my_phase → Prop :=
  | ms_deadline : my_step MPlain (EvDeadline true) MPlain
  | ms_plain_write b : my_plain_write b → my_step MPlain (EvWrite false b) MPlain
  | ms_tls : my_step MPlain EvTLS MSecure
  | ms_write ph b : my_under_tls ph = true → my_step ph (EvWrite true b) ph
  | ms_validate h : my_presented h →
      my_step MSecure (EvX (MyValidate (hs_user h) (hs_password h))) (MChecked h)
  | ms_connect h p : Validate l (hs_user h) (hs_password h) = Ok p →
      my_step (MChecked h) (EvX (MyConnect (my_login l p h))) (MConnected p h)
  | ms_ready h p capstring :
      connect (my_login l p h) = Some capstring → framing_agrees h capstring →
      my_step (MConnected p h) (EvDeadline false) MReady
  | ms_relay : my_step MReady (EvX MyRelay) MRelaying
  | ms_close h p : my_step (MConnected p h) (EvX MyBackendClose) (MClosed false)
  | ms_close_relay : my_step MRelaying (EvX MyBackendClose) (MClosed true).

Abbreviation my_at := (at_phase my_step MPlain my_under_tls).

Lemma my_at_tls W ph s s' : my_at ph s → talked W s s' → my_under_tls ph = true → my_at ph s'.
Proof.
  intros Hat Ht Hu. eapply at_phase_talked; [done..|]. intros w _. rewrite Hu. by constructor.
Qed.

(** How a run may end: without a panic, and successfully exactly when the relay
    was started and the backend closed after it. *)
Definition my_ended (r : res unit) (s : hstate my_event) : Prop :=
  r ≠ Panic ∧ ∃ ph, my_at ph s ∧ (r = Ok tt ↔ ph = MClosed true).

Lemma my_ended_err e ph s : my_at ph s → ph ≠ MClosed true → my_ended (Err e) s.
Proof. intros Hat Hne. split; [done|]. exists ph. split; [done|]. by split. Qed.

Lemma my_handoff_ends h p capstring s :
  connect (my_login l p h) = Some capstring → my_at (MConnected p h) s →
  wp (deferred MyBackendClose (my_handoff CapNames (hs_cap h) capstring)) my_ended s.
Proof.
  intros Hc Hat. unfold deferred, wp.
  cut (wp (my_handoff CapNames (hs_cap h) capstring)
    (λ r s', my_ended r (add_event (EvX MyBackendClose) s')) s).
  { unfold wp. by destruct (my_handoff _ _ _ s). }
  unfold my_handoff. destruct (caps_mismatch _ _) as [flag|] eqn:Hcaps.
  - apply wp_bind, wp_myError. intros s' Hw. apply wp_lift.
    apply (my_ended_err _ (MClosed false)); [|done].
    eapply at_phase_event; [by eapply my_at_tls|constructor|done].
  - apply wp_bind, wp_myWrite. intros [[]|e|] s' Hw Hr; [| |done].
    + split; [done|]. exists (MClosed true). split; [|done].
      eapply at_phase_event; [|constructor|done].
      eapply at_phase_event; [|constructor|done].
      eapply at_phase_event; [by eapply my_at_tls| |done].
      eapply ms_ready; [done|]. exact (caps_mismatch_None _ _ Hcaps).
    + apply (my_ended_err _ (MClosed false)); [|done].
      eapply at_phase_event; [by eapply my_at_tls|constructor|done].
Qed.

Lemma my_backend_ends h p s :
  Validate l (hs_user h) (hs_password h) = Ok p → my_at (MChecked h) s →
  wp (my_backend connect CapNames l p h) my_ended s.
Proof.
  intros Hv Hat. apply wp_bind. unfold wp at 1. cbn.
  assert (my_at (MConnected p h) (add_event (EvX (MyConnect (my_login l p h))) s)) as Hat'
    by (eapply at_phase_event; [done|by apply ms_connect|done]).
  destruct (connect _) as [cs|] eqn:Hc; [by apply (my_handoff_ends h p)|].
  apply wp_bind, wp_myError. intros s' Hw. apply wp_lift.
  apply (my_ended_err _ (MConnected p h)); [by eapply my_at_tls|done].
Qed.

Lemma my_login_phase_ends s :
  (∀ u pw, Validate l u pw ≠ Panic) →
  my_at MSecure s → tls0 = Some (inp s, fin s) →
  wp (my_login_phase Validate connect CapNames l) my_ended s.
Proof.
  intros Hnp Hat Htls. apply wp_bind, wp_myRead.
  2:{ intros e s' Hu. apply (my_ended_err _ MSecure); [by eapply my_at_tls|done]. }
  intros b seq rest Hi.
  assert (my_at MSecure (with_inp rest s)) as Hat1 by exact Hat.
  apply wp_bind, wp_check; [intros _; by apply (my_ended_err _ MSecure)|].
  intros Hseq%negb_false_iff%bool_decide_eq_true.
  assert (seq = byte_of 2) as -> by (by apply u8_inj).
  destruct (myHandshakeResponse b) as [h|e|] eqn:Hh.
  - apply wp_bind. unfold wp at 1. cbn.
    assert (my_at (MChecked h)
      (add_event (EvX (MyValidate (hs_user h) (hs_password h))) (with_inp rest s))) as Hat2.
    { eapply at_phase_event; [done| |done]. constructor. exists b, rest, (fin s).
      by rewrite Htls, Hi. }
    destruct (Validate l _ _) as [p|e|] eqn:Hv; [by apply my_backend_ends| |by destruct (Hnp _ _ Hv)].
    apply wp_bind, wp_myError. intros s' Hw. apply wp_lift.
    apply (my_ended_err _ (MChecked h)); [by eapply my_at_tls|done].
  - apply wp_bind, wp_myError. intros s' Hw. apply wp_lift.
    apply (my_ended_err _ MSecure); [by eapply my_at_tls|done].
  - by destruct (myHandshakeResponse_total b Hh).
Qed.

Lemma not_tls_request_no_panic resp seq : no_panic (not_tls_request resp seq).
Proof.
  unfold not_tls_request. destruct (_ || _) eqn:Hb; [done|].
  apply orb_false_iff in Hb as [_ Hb]. apply negb_false_iff, bool_decide_eq_true in Hb.
  rewrite slice_to_ok by lia. rewrite Ok_bind, le_uint_ok by (rewrite length_take; lia). done.
Qed.
End protocol.

Lemma serveMySQL_follows Validate connect CapNames salt l (s : hstate my_event) :
  (∀ u pw, Validate l u pw ≠ Panic) → trace s = [] → secure s = false →
  let '(r, s') := serveMySQL Validate connect CapNames salt l s in
  r ≠ Panic ∧
  ∃ ph, follows (my_step Validate connect CapNames salt l (tls_in s)) MPlain (trace s') ph ∧
        (r = Ok tt ↔ ph = MClosed true).
Proof.
  intros Hnp Ht Hs.
  cut (wp (serveMySQL Validate connect CapNames salt l)
    (my_ended Validate connect CapNames salt l (tls_in s)) s).
  { unfold wp, my_ended, at_phase. destruct (serveMySQL _ _ _ _ _ _) as [r s']. cbn. naive_solver. }
  assert (at_phase (my_step Validate connect CapNames salt l (tls_in s)) MPlain my_under_tls MPlain
    (add_event (EvDeadline true) s)) as Hat.
  { split; [|done]. cbn. rewrite Ht. eapply follows_snoc; [apply follows_nil|constructor]. }
  apply wp_bind. unfold wp at 1. cbn [set_deadline fst snd].
  apply wp_bind, wp_lift. destruct salt as [salt|]; [|by apply (my_ended_err _ _ _ _ _ _ _ MPlain)].
  apply wp_bind, wp_myWrite. intros r1 s1 Hw Hr.
  assert (tls_in s1 = tls_in s) as Htls by (by destruct Hw as (_ & -> & _)).
  eapply at_phase_talked in Hat; [|done|intros w Hpw; constructor; left; by exists salt].
  destruct r1 as [[]|e|]; [|by apply (my_ended_err _ _ _ _ _ _ _ MPlain)|done].
  apply wp_bind, wp_myRead.
  2:{ intros e s' Hu. apply (my_ended_err _ _ _ _ _ _ _ MPlain); [by eapply at_phase_talked|done]. }
  intros resp seq rest _.
  change (at_phase (my_step Validate connect CapNames (Some salt) l (tls_in s)) MPlain my_under_tls MPlain (with_inp rest s1)) in Hat.
  apply wp_bind, wp_lift. pose proof (not_tls_request_no_panic resp seq) as Hntp.
  destruct (not_tls_request resp seq) as [[]|e|]; [| | |done].
  - apply wp_bind, wp_myError. intros s' Hw'. apply wp_lift.
    apply (my_ended_err _ _ _ _ _ _ _ MPlain); [eapply at_phase_talked; [done..|by constructor; right]|done].
  - apply wp_bind. unfold wp at 1, tls_handshake. cbn [tls_in with_inp].
    rewrite Htls. destruct (tls_in s) as [[tl tf]|] eqn:Htin.
    + apply my_login_phase_ends; [done| |done].
      destruct Hat as [Hf _]. split; [|done]. eapply follows_snoc; [exact Hf|constructor].
    + by apply (my_ended_err _ _ _ _ _ _ _ MPlain).
  - by apply (my_ended_err _ _ _ _ _ _ _ MPlain).
Qed.

(** C5: Every run of [serveMySQL], on any client behaviour, follows the session
    protocol and does not panic. So nothing but the greeting and the refusal of a
    client without TLS is written in the clear, nothing the client sends before TLS is
    ever taken for a credential, the credential judged is the one of its first TLS
    packet, the upstream is contacted only after authentication accepted that
    credential and only as the configured upstream with the validated principal's
    backend credentials, packets are relayed only when the framing capabilities of the
    two sides agree and after the deadline is lifted, and the result is success
    exactly when the relay was run. *)
Theorem serveMySQL_session `{Authenticator} connect CapNames salt l (s : hstate my_event) :
  trace s = [] → secure s = false →
  let '(r, s') := serveMySQL authenticate connect CapNames salt l s in
  r ≠ Panic ∧
  ∃ ph, follows (my_step authenticate connect CapNames salt l (tls_in s)) MPlain (trace s') ph ∧
        (r = Ok tt ↔ ph = MClosed true).
Proof. apply serveMySQL_follows. intros u pw. apply authenticate_no_panic. Qed.

(** ** Complete runs *)
Definition ok_packet : list byte := byte_of <$> [0; 0; 0; 2; 0; 0; 0].

(** The SSL request a client sends in answer to the greeting. *)
Definition my_ssl_request (req : list byte) : Prop :=
  length req = 32%nat ∧ has_cap (le_val (take 4 req)) CLIENT_SSL = true.

(** What a client has done when its credential is judged: the greeting was
    written in the clear, TLS was started, and its response parsed. *)
Record my_client_run (salt : list byte) (s : hstate my_event) (h : handshake) : Prop := {
  cr_salt : length salt = 20%nat;
  cr_writes : wleft s = None;
  cr_plain : secure s = false;
  cr_request : ∃ req junk, my_ssl_request req ∧ inp s = packet (byte_of 1) req ++ junk;
  cr_response : ∃ resp rest f, tls_in s = Some (packet (byte_of 2) resp ++ rest, f) ∧
    Z.of_nat (length resp) <= 2 ^ 20 ∧ myHandshakeResponse resp = Ok h
}.

Definition greeting_trace (salt : list byte) : list (event my_event) :=
  EvDeadline true :: (EvWrite false <$> [my_header (byte_of 0) (my_greeting salt); my_greeting salt])
  ++ [EvTLS].

Section runs.
Context (Validate : Listener → gostring → gostring → res Principal).
Context (connect : myLogin → option gostring).
Context (CapNames : list (Z * gostring)).
Context (l : Listener).

Lemma not_tls_request_ssl req :
  my_ssl_request req → not_tls_request req (byte_of 1) = Ok false.
Proof.
  intros [Hlen Hcap]. unfold not_tls_request.
  rewrite bool_decide_true by done. rewrite bool_decide_true by done. cbn [negb orb].
  rewrite slice_to_ok by lia. rewrite Ok_bind, le_uint_ok by (rewrite length_take; lia).
  rewrite Ok_bind, take_take. by rewrite Nat.min_id, Hcap.
Qed.

Lemma length_my_greeting salt : length salt = 20%nat → length (my_greeting salt) = 83%nat.
Proof.
  intros Hs. unfold my_greeting. rewrite !length_app, !length_le_bytes, length_take, length_drop.
  rewrite length_replicate, Hs. reflexivity.
Qed.

(** Up to the judgement of the credential. *)
Lemma serveMySQL_judges salt s h :
  my_client_run salt s h →
  ∃ s', wleft s' = None ∧ secure s' = true ∧
    trace s' = trace s ++ greeting_trace salt ++ [EvX (MyValidate (hs_user h) (hs_password h))] ∧
    serveMySQL Validate connect CapNames (Some salt) l s =
      match Validate l (hs_user h) (hs_password h) with
      | Ok p => my_backend connect CapNames l p h
      | Err e => _ ← myError (byte_of 3) 1045 (lit "authentication failed"); throw e
      | Panic => lift Panic
      end s'.
Proof.
  intros [Hsalt Hw Hsec (req & junk & Hreq & Hi) (resp & rest & f & Htls & Hlen & Hh)].
  unfold serveMySQL. set (s1 := add_event (EvDeadline true) s).
  rewrite (bind_run _ _ s tt s1) by done. rewrite (bind_lift_Ok _ _ _ salt) by done.
  erewrite bind_run.
  2:{ apply myWrite_run; [rewrite length_my_greeting by done; lia|done]. }
  erewrite bind_run.
  2:{ apply (myRead_packet _ (byte_of 1) req junk); [destruct Hreq as [-> _]; lia|exact Hi]. }
  cbv beta iota. rewrite (bind_lift_Ok _ _ _ false) by (by apply not_tls_request_ssl).
  eexists. erewrite bind_run.
  2:{ unfold tls_handshake. cbn [tls_in with_inp add_event]. subst s1. cbn [tls_in add_event].
      rewrite Htls. done. }
  unfold my_login_phase. erewrite bind_run.
  2:{ apply (myRead_packet _ (byte_of 2) resp rest); done. }
  cbv beta iota. rewrite bind_check_false by done. rewrite Hh.
  erewrite bind_run by (unfold emit; reflexivity).
  split_and!; [..|reflexivity]; subst s1; cbn; [by rewrite Hw|done|].
  by rewrite Hsec, <- !app_assoc.
Qed.

(** A packet written under TLS, and an error packet. *)
Definition tls_packet (seq : byte) (b : list byte) : list (event my_event) :=
  EvWrite true <$> [my_header seq b; b].
Definition refusal (code : Z) (msg : string) : list (event my_event) :=
  tls_packet (byte_of 3) (error_packet code (lit msg)).

Lemma myWrite_tls seq b s :
  Z.of_nat (length b) <= 2 ^ 20 → wleft s = None → secure s = true →
  ∃ s', myWrite seq b s = (Ok tt, s') ∧ wleft s' = None ∧ secure s' = true ∧
        trace s' = trace s ++ tls_packet seq b.
Proof.
  intros Hb Hw Hs. rewrite myWrite_run, Hs by done. eexists. split; [reflexivity|].
  cbn. by rewrite <- app_assoc.
Qed.

Lemma myError_tls code msg s :
  Z.of_nat (length (lit msg)) <= 100 → wleft s = None → secure s = true →
  ∃ s', myError (byte_of 3) code (lit msg) s = (Ok tt, s') ∧ wleft s' = None ∧
        secure s' = true ∧ trace s' = trace s ++ refusal code msg.
Proof.
  intros Hm Hw Hs. destruct (myWrite_tls (byte_of 3) (error_packet code (lit msg)) s)
    as (s' & Hrun & Hw' & Hs' & Ht); [|done..|].
  { unfold error_packet. rewrite !length_app. change (length (lit "#28000")) with 6%nat.
    cbn [length]. lia. }
  exists s'. unfold myError, ignore. by rewrite Hrun.
Qed.

Abbreviation agrees h cs := (framing_agrees CapNames h cs).

(** The backend connection is closed however the hand-off ends. *)
Lemma my_handoff_run h capstring s :
  wleft s = None → secure s = true →
  ∃ r s', deferred MyBackendClose (my_handoff CapNames (hs_cap h) capstring) s = (r, s') ∧
    (agrees h capstring → r = Ok tt ∧ trace s' = trace s ++ tls_packet (byte_of 3) ok_packet
       ++ [EvDeadline false; EvX MyRelay; EvX MyBackendClose]) ∧
    (¬ agrees h capstring → is_Ok r = false ∧ trace s' = trace s
       ++ refusal 1235 "backend does not support the negotiated client capabilities"
       ++ [EvX MyBackendClose]).
Proof.
  intros Hw Hs. unfold deferred, my_handoff.
  destruct (caps_mismatch _ _) as [flag|] eqn:Hc.
  - destruct (myError_tls 1235 "backend does not support the negotiated client capabilities" s)
      as (s' & Hrun & _ & _ & Ht); [done..|].
    rewrite (bind_run _ _ _ _ _ Hrun). do 2 eexists. split; [reflexivity|]. split; intros Hag.
    + by rewrite (caps_mismatch_agree _ _ Hag) in Hc.
    + cbn. by rewrite Ht, <- app_assoc.
  - destruct (myWrite_tls (byte_of 3) ok_packet s) as (s' & Hrun & _ & _ & Ht); [done..|].
    rewrite (bind_run _ _ _ _ _ Hrun). do 2 eexists. split; [reflexivity|]. split; intros Hag.
    + cbn. by rewrite Ht, <- !app_assoc.
    + destruct Hag. exact (caps_mismatch_None _ _ Hc).
Qed.

Lemma my_refuse_run {A} code msg e (s : hstate my_event) :
  Z.of_nat (length (lit msg)) <= 100 → wleft s = None → secure s = true →
  ∃ s', (_ ← myError (byte_of 3) code (lit msg); throw (A := A) e) s = (Err e, s') ∧
        trace s' = trace s ++ refusal code msg.
Proof.
  intros Hm Hw Hs. destruct (myError_tls code msg s) as (s' & Hrun & _ & _ & Ht); [done..|].
  exists s'. by rewrite (bind_run _ _ _ _ _ Hrun).
Qed.
End runs.

(** C13: The complete run of a client that starts TLS and answers with a well-formed
    response, whatever the authenticator, the upstream and its capabilities decide. A
    rejected credential is answered with error 1045 and the upstream is never
    contacted; an accepted one logs in to the upstream; a failed upstream login is
    answered with error 1045; capabilities that disagree with error 1235; otherwise
    the client gets its OK packet, the deadline is lifted and the relay runs. *)
Theorem serveMySQL_runs Validate connect CapNames l salt s h :
  my_client_run salt s h →
  let run := serveMySQL Validate connect CapNames (Some salt) l s in
  let judged := trace s ++ greeting_trace salt ++ [EvX (MyValidate (hs_user h) (hs_password h))] in
  match Validate l (hs_user h) (hs_password h) with
  | Panic => run.1 = Panic
  | Err e => run.1 = Err e ∧ trace run.2 = judged ++ refusal 1045 "authentication failed"
  | Ok p =>
     let lg := my_login l p h in
     match connect lg with
     | None => is_Ok run.1 = false ∧
         trace run.2 = judged ++ EvX (MyConnect lg) :: refusal 1045 "backend connection failed"
     | Some cs =>
        (framing_agrees CapNames h cs → run.1 = Ok tt ∧
          trace run.2 = judged ++ EvX (MyConnect lg) :: tls_packet (byte_of 3) ok_packet
            ++ [EvDeadline false; EvX MyRelay; EvX MyBackendClose]) ∧
        (¬ framing_agrees CapNames h cs → is_Ok run.1 = false ∧
          trace run.2 = judged ++ EvX (MyConnect lg) ::
            refusal 1235 "backend does not support the negotiated client capabilities"
            ++ [EvX MyBackendClose])
     end
  end.
Proof.
  intros Hrun. cbv zeta.
  destruct (serveMySQL_judges Validate connect CapNames l _ _ _ Hrun) as (s' & Hw & Hs & <- & ->).
  destruct (Validate l _ _) as [p|e|]; [| |done].
  - unfold my_backend. cbv zeta.
    set (s1 := add_event (EvX (MyConnect (my_login l p h))) s').
    rewrite (bind_run _ _ s' tt s1) by done.
    destruct (connect _) as [cs|].
    + destruct (my_handoff_run CapNames h cs s1) as (r & s2 & -> & Hag & Hdis); [done..|].
      cbn [fst snd]. unfold s1 in *. cbn [trace add_event] in *.
      split; intros Ha; [destruct (Hag Ha) as [-> ->]|destruct (Hdis Ha) as [-> ->]];
        by rewrite <- app_assoc.
    + destruct (my_refuse_run (A := unit) 1045 "backend connection failed"
        (Errorf "backend connection failed" []) s1) as (s2 & Hr2 & Ht2); [done..|].
      rewrite Hr2. cbn [fst snd]. rewrite Ht2. cbn. by rewrite <- app_assoc.
  - destruct (my_refuse_run (A := unit) 1045 "authentication failed" e s')
      as (s2 & Hr2 & Ht2); [done..|]. rewrite Hr2. cbn [fst snd]. by rewrite Ht2.
Qed.
