(* ===== verification/Relay.v ===== *)
(** * The relays of a session (src/iamproxy/server.go, [relay]; mysql.go,
    [myRelay])

    After the login a session is two goroutines that copy between the client's
    connection and the backend's, and the session's own goroutine, which waits for
    the first of them to end, closes both connections, and waits for the other.
    The connections are what the two goroutines, the session and the two peers
    share; every operation on one is a step, and the steps interleave freely. *)
From S2P Require Import Prelude Wire MySQL.
#[local] Open Scope Z_scope.

(** ** A connection of the relay

    What arrived and was not read yet, what the goroutines wrote, tagged with the
    writer, and what can happen to its reads and writes.  [peer_sent], a ghost,
    collects everything that arrived. *)
Inductive tag := T1 | T2.
#[export] Instance tag_eq_dec : EqDecision tag.
Proof. solve_decision. Defined.

Record conn := mkConn {
  unread : list byte;
  peer_sent : list byte;
  written : list (tag * list byte);
  peer_closed : bool;     (* the end of the stream comes after [unread] *)
  broken : bool;          (* reads and writes may fail *)
  writable : bool;        (* the peer takes bytes: a write does not block *)
  closed : bool           (* [Close] was called *)
}.

Definition conn_init : conn := mkConn [] [] [] false false true false.

Definition with_unread (u : list byte) (c : conn) : conn :=
  mkConn u (peer_sent c) (written c) (peer_closed c) (broken c) (writable c) (closed c).
Definition add_written (t : tag) (bs : list byte) (c : conn) : conn :=
  mkConn (unread c) (peer_sent c) (written c ++ [(t, bs)]) (peer_closed c) (broken c) (writable c) (closed c).
Definition conn_close (c : conn) : conn :=
  mkConn (unread c) (peer_sent c) (written c) (peer_closed c) (broken c) (writable c) true.

(** What goroutine [t] wrote to a connection, in order. *)
Definition out (t : tag) (c : conn) : list byte :=
  written c ≫= λ w, if decide (w.1 = t) then w.2 else [].

(** [Read] with a buffer of [max] bytes, and [Write]; a call that would block has
    no step.  A write that fails may have written a part: also on a connection that
    is closed, for it may have begun before. *)
Inductive read_outcome := Bytes (bs : list byte) | AtEOF | ReadFailed.

Inductive conn_read (max : nat) (c : conn) : read_outcome → conn → Prop :=
  | read_bytes n :
      closed c = false → (0 < n ≤ max)%nat → (n ≤ length (unread c))%nat →
      conn_read max c (Bytes (take n (unread c))) (with_unread (drop n (unread c)) c)
  | read_eof :
      closed c = false → unread c = [] → peer_closed c = true → conn_read max c AtEOF c
  | read_failed :
      closed c = true ∨ broken c = true → conn_read max c ReadFailed c.

Inductive conn_write (t : tag) (bs : list byte) (c : conn) : bool → conn → Prop :=
  | write_ok :
      closed c = false → writable c = true → conn_write t bs c true (add_written t bs c)
  | write_failed k :
      closed c = true ∨ broken c = true → conn_write t bs c false (add_written t (take k bs) c).

(** ** The goroutines

    A goroutine reads from one connection and writes to the other, or to both. *)
Class Copier (C : Type) := {
  c_start : C;
  c_ended : C → bool;
  (** [c_step t s d c s' d' c']: one operation of goroutine [t], which reads from
      [s] and writes to [d]. *)
  c_step : tag → conn → conn → C → conn → conn → C → Prop
}.

(** [io.Copy(d, s)]: chunks of at most 32 KiB are read and written. *)
Inductive copying := CRead | CWrite (bs : list byte) | CEnd (eof : bool).

Definition copy_buffer : nat := Z.to_nat (2 ^ 15).

Inductive io_Copy (t : tag) (s d : conn) : copying → conn → conn → copying → Prop :=
  | copy_read bs s' :
      conn_read copy_buffer s (Bytes bs) s' → io_Copy t s d CRead s' d (CWrite bs)
  | copy_eof s' : conn_read copy_buffer s AtEOF s' → io_Copy t s d CRead s' d (CEnd true)
  | copy_failed s' : conn_read copy_buffer s ReadFailed s' → io_Copy t s d CRead s' d (CEnd false)
  | copy_write bs ok d' :
      conn_write t bs d ok d' → io_Copy t s d (CWrite bs) s d' (if ok then CRead else CEnd false).

#[export] Instance copying_copier : Copier copying := {
  c_start := CRead;
  c_ended c := match c with CEnd _ => true | _ => false end;
  c_step := io_Copy
}.

(** The client-to-backend goroutine of [myRelay]: [io.ReadFull] of a header with
    what was read so far, of a body, the two writes to the backend, or the two
    writes of [myError] to the client, whose failure is ignored. *)
Inductive forwarding :=
  | FHead (h : list byte)
  | FBody (h b : list byte)
  | FBackHead (h b : list byte)
  | FBackBody (b : list byte)
  | FErrHead
  | FErrBody
  | FEnd (eof : bool).

(** After some bytes of a body, and after some bytes of a header. *)
Definition body_read (h b : list byte) : forwarding :=
  match my_length h with
  | Ok n =>
     if 2 ^ 24 - 1 <? n then FEnd false
     else if (length b <? Z.to_nat n)%nat then FBody h b
     else if is_change_user h b then FErrHead else FBackHead h b
  | _ => FEnd false
  end.
Definition head_read (h : list byte) : forwarding :=
  if (length h <? 4)%nat then FHead h else body_read h [].

(** How many bytes [io.ReadFull] still wants. *)
Definition body_wants (h b : list byte) : nat :=
  match my_length h with Ok n => Z.to_nat n - length b | _ => 0 end.

(** The two writes of [myError(front, 1, 1045, "change user is unsupported")]. *)
Definition change_user_error : list byte := error_packet 1045 (lit "change user is unsupported").
Definition change_user_head : list byte := my_header (byte_of 1) change_user_error.

Inductive my_forward (t : tag) (s d : conn) : forwarding → conn → conn → forwarding → Prop :=
  | fwd_head h bs s' :
      conn_read (4 - length h) s (Bytes bs) s' → my_forward t s d (FHead h) s' d (head_read (h ++ bs))
  | fwd_body h b bs s' :
      conn_read (body_wants h b) s (Bytes bs) s' → my_forward t s d (FBody h b) s' d (body_read h (b ++ bs))
  | fwd_head_eof h s' : conn_read (4 - length h) s AtEOF s' → my_forward t s d (FHead h) s' d (FEnd true)
  | fwd_body_eof h b s' :
      conn_read (body_wants h b) s AtEOF s' → my_forward t s d (FBody h b) s' d (FEnd true)
  | fwd_head_failed h s' :
      conn_read (4 - length h) s ReadFailed s' → my_forward t s d (FHead h) s' d (FEnd false)
  | fwd_body_failed h b s' :
      conn_read (body_wants h b) s ReadFailed s' → my_forward t s d (FBody h b) s' d (FEnd false)
  | fwd_back_head h b ok d' :
      conn_write t h d ok d' →
      my_forward t s d (FBackHead h b) s d' (if ok then FBackBody b else FEnd false)
  | fwd_back_body b ok d' :
      conn_write t b d ok d' →
      my_forward t s d (FBackBody b) s d' (if ok then FHead [] else FEnd false)
  | fwd_err_head ok s' :
      conn_write t change_user_head s ok s' →
      my_forward t s d FErrHead s' d (if ok then FErrBody else FHead [])
  | fwd_err_body ok s' :
      conn_write t change_user_error s ok s' → my_forward t s d FErrBody s' d (FHead []).

#[export] Instance forwarding_copier : Copier forwarding := {
  c_start := FHead [];
  c_ended c := match c with FEnd _ => true | _ => false end;
  c_step := my_forward
}.

(** ** The session's goroutine

    [done] is a channel with room for two; [a] is the client's connection and [b]
    the backend's.  Goroutine 1 copies from [b] to [a], goroutine 2 from [a] to
    [b]. *)
Inductive waiter := WFirst | WCloseA | WCloseB | WSecond | WReturned.
Inductive goroutine (C : Type) := Running (c : C) | Sent (c : C).
Arguments Running {_} _.
Arguments Sent {_} _.

Record relaying (C1 C2 : Type) := mkRelaying {
  conn_a : conn;
  conn_b : conn;
  g1 : goroutine C1;
  g2 : goroutine C2;
  done_tokens : nat;
  main : waiter
}.
Arguments mkRelaying {_ _} _ _ _ _ _ _.
Arguments conn_a {_ _} _.
Arguments conn_b {_ _} _.
Arguments g1 {_ _} _.
Arguments g2 {_ _} _.
Arguments done_tokens {_ _} _.
Arguments main {_ _} _.

Section relay.
Context {C1 C2 : Type} `{Copier C1, Copier C2}.

Definition relay_start (a b : conn) : relaying C1 C2 :=
  mkRelaying a b (Running c_start) (Running c_start) 0 WFirst.

Inductive relay_go : relaying C1 C2 → relaying C1 C2 → Prop :=
  | go_1 a b c x n m a' b' c' :
      c_step T1 b a c b' a' c' →
      relay_go (mkRelaying a b (Running c) x n m) (mkRelaying a' b' (Running c') x n m)
  | go_2 a b x c n m a' b' c' :
      c_step T2 a b c a' b' c' →
      relay_go (mkRelaying a b x (Running c) n m) (mkRelaying a' b' x (Running c') n m)
  | send_1 a b c x n m :
      c_ended c = true → (n < 2)%nat →
      relay_go (mkRelaying a b (Running c) x n m) (mkRelaying a b (Sent c) x (S n) m)
  | send_2 a b x c n m :
      c_ended c = true → (n < 2)%nat →
      relay_go (mkRelaying a b x (Running c) n m) (mkRelaying a b x (Sent c) (S n) m)
  | main_first a b x y n : relay_go (mkRelaying a b x y (S n) WFirst) (mkRelaying a b x y n WCloseA)
  | main_close_a a b x y n :
      relay_go (mkRelaying a b x y n WCloseA) (mkRelaying (conn_close a) b x y n WCloseB)
  | main_close_b a b x y n :
      relay_go (mkRelaying a b x y n WCloseB) (mkRelaying a (conn_close b) x y n WSecond)
  | main_second a b x y n : relay_go (mkRelaying a b x y (S n) WSecond) (mkRelaying a b x y n WReturned).

(** The two peers: they send, close, break off, and stop or start to take
    bytes. *)
Inductive peer_acts : conn → conn → Prop :=
  | peer_sends bs c :
      peer_closed c = false →
      peer_acts c (mkConn (unread c ++ bs) (peer_sent c ++ bs) (written c) false (broken c) (writable c) (closed c))
  | peer_closes c :
      peer_acts c (mkConn (unread c) (peer_sent c) (written c) true (broken c) (writable c) (closed c))
  | peer_breaks c :
      peer_acts c (mkConn (unread c) (peer_sent c) (written c) (peer_closed c) true (writable c) (closed c))
  | peer_flow w c :
      peer_acts c (mkConn (unread c) (peer_sent c) (written c) (peer_closed c) (broken c) w (closed c)).

Inductive relay_env : relaying C1 C2 → relaying C1 C2 → Prop :=
  | env_a a a' b x y n m : peer_acts a a' → relay_env (mkRelaying a b x y n m) (mkRelaying a' b x y n m)
  | env_b a b b' x y n m : peer_acts b b' → relay_env (mkRelaying a b x y n m) (mkRelaying a b' x y n m).

Definition relay_step (s s' : relaying C1 C2) : Prop := relay_go s s' ∨ relay_env s s'.
Definition relay_reachable : relaying C1 C2 → Prop := rtc relay_step (relay_start conn_init conn_init).
End relay.

(** The two relays of the program. *)
Abbreviation relay := (relaying copying copying).
Abbreviation myRelay := (relaying copying forwarding).
