(* ===== verification/RelaySpec.v ===== *)
(** * The relays: they end, and what they carry

    Proved against the interface [CopierLaws] and [CopierSound] of a copying
    goroutine, which [io.Copy] and the packet loop of [myRelay] satisfy. *)
From S2P Require Import Prelude Steps Wire MySQL MySQLSpec Relay.
#[local] Open Scope Z_scope.

(** The writes of goroutine [t] to a connection, in order. *)
Definition chunks (t : tag) (c : conn) : list (list byte) :=
  omap (λ w, if decide (w.1 = t) then Some w.2 else None) (written c).

(** ** Interfaces *)
(** What no goroutine changes: how much arrived and the state of the stream. *)
Definition same_stream (c c' : conn) : Prop :=
  peer_sent c' = peer_sent c ∧ peer_closed c' = peer_closed c ∧ broken c' = broken c ∧
  writable c' = writable c ∧ closed c' = closed c.

(** A reader of the connection comes to its end, and a writer to it does not
    block. *)
Definition stops (c : conn) : Prop := closed c = true ∨ peer_closed c = true ∨ broken c = true.
Definition takes (c : conn) : Prop := closed c = true ∨ writable c = true.

Class CopierLaws C `{Copier C} := {
  c_measure : nat → C → nat;
  c_wf : C → Prop;
  c_wf_start : c_wf c_start;
  c_wf_step t s d c s' d' c' : c_wf c → c_step t s d c s' d' c' → c_wf c';
  c_running t s d c s' d' c' : c_step t s d c s' d' c' → c_ended c = false;
  c_frame t s d c s' d' c' :
    c_step t s d c s' d' c' → same_stream s s' ∧ same_stream d d' ∧ unread d' = unread d;
  c_other t s d c s' d' c' t' :
    c_step t s d c s' d' c' → t' ≠ t → chunks t' s' = chunks t' s ∧ chunks t' d' = chunks t' d;
  c_less t s d c s' d' c' :
    c_step t s d c s' d' c' → (c_measure (length (unread s')) c' < c_measure (length (unread s)) c)%nat;
  c_progress t s d c :
    c_wf c → c_ended c = false → stops s → takes s → takes d → ∃ s' d' c', c_step t s d c s' d' c'
}.

(** [t] does not write to the connection; its stream may go on. *)
Definition quiet (t : tag) (c c' : conn) : Prop :=
  chunks t c' = chunks t c ∧ (closed c = true → closed c' = true) ∧ (broken c = true → broken c' = true).
Definition fed (t : tag) (c c' : conn) : Prop :=
  quiet t c c' ∧
  ∃ bs, unread c' = unread c ++ bs ∧ peer_sent c' = peer_sent c ++ bs ∧
        (peer_closed c = true → bs = [] ∧ peer_closed c' = true).

Class CopierSound C `{Copier C} := {
  c_sound : tag → conn → conn → C → Prop;
  c_sound_start t : c_sound t conn_init conn_init c_start;
  c_sound_step t s d c s' d' c' : c_sound t s d c → c_step t s d c s' d' c' → c_sound t s' d' c';
  c_sound_stable t s d c s' d' : c_sound t s d c → fed t s s' → quiet t d d' → c_sound t s' d' c
}.

(** ** Connections *)
Lemma out_chunks t c : out t c = concat (chunks t c).
Proof. unfold out, chunks. induction (written c) as [|w l IH]; [done|]. cbn. rewrite IH. by case_decide. Qed.

Lemma chunks_add_eq t bs c : chunks t (add_written t bs c) = chunks t c ++ [bs].
Proof. unfold chunks. cbn. rewrite omap_app. cbn. by rewrite decide_True. Qed.
Lemma chunks_add_ne t t' bs c : t' ≠ t → chunks t' (add_written t bs c) = chunks t' c.
Proof. intros Hne. unfold chunks. cbn. rewrite omap_app. cbn. by rewrite decide_False, app_nil_r. Qed.

Lemma out_same t c c' : chunks t c' = chunks t c → out t c' = out t c.
Proof. rewrite !out_chunks. by intros ->. Qed.
Lemma out_more t c c' bs : chunks t c' = chunks t c ++ [bs] → out t c' = out t c ++ bs.
Proof. rewrite !out_chunks. intros ->. by rewrite concat_app; cbn; rewrite app_nil_r. Qed.

Lemma same_stream_refl c : same_stream c c.
Proof. by split_and!. Qed.

Lemma read_frame max c r c' :
  conn_read max c r c' →
  same_stream c c' ∧ (∀ t, chunks t c' = chunks t c) ∧
  match r with
  | Bytes bs => unread c = bs ++ unread c' ∧ (0 < length bs ≤ max)%nat
  | AtEOF => unread c' = [] ∧ unread c = [] ∧ peer_closed c = true
  | ReadFailed => unread c' = unread c
  end.
Proof.
  destruct 1 as [n Hc Hn Hl|Hc Hu Hp|Hf]; (split; [by split_and!|]); (split; [done|]).
  - cbn [unread with_unread]. rewrite take_drop, length_take_le by done. done.
  - done.
  - done.
Qed.

Lemma write_frame t bs c ok c' :
  conn_write t bs c ok c' →
  same_stream c c' ∧ unread c' = unread c ∧ (∀ t', t' ≠ t → chunks t' c' = chunks t' c) ∧
  (if ok then chunks t c' = chunks t c ++ [bs]
   else (∃ k, chunks t c' = chunks t c ++ [take k bs]) ∧ (closed c = true ∨ broken c = true)).
Proof.
  destruct 1 as [Hc Hw|k Hf]; (split; [by split_and!|]); (split; [done|]); (split; [by intros; apply chunks_add_ne|]).
  - apply chunks_add_eq.
  - split; [|done]. exists k. apply chunks_add_eq.
Qed.

Lemma stops_read max c : (0 < max)%nat → stops c → ∃ r c', conn_read max c r c'.
Proof.
  intros Hm Hs. destruct (closed c) eqn:Hc; [eexists _, _; apply read_failed; by left|].
  destruct (broken c) eqn:Hb; [eexists _, _; apply read_failed; by right|].
  destruct Hs as [?|[Hp|?]]; [congruence| |congruence].
  destruct (unread c) as [|x l] eqn:Hu; [eexists _, _; by apply read_eof|].
  eexists _, _. apply (read_bytes _ _ 1); [done|lia|rewrite Hu; cbn; lia].
Qed.

Lemma takes_write t bs c : takes c → ∃ ok c', conn_write t bs c ok c'.
Proof.
  intros Ht. destruct (closed c) eqn:Hc; [eexists _, _; apply (write_failed _ _ _ 0); by left|].
  destruct Ht as [?|Hw]; [congruence|]. eexists _, _. by apply write_ok.
Qed.

Ltac frames :=
  repeat match goal with
  | H : conn_read _ _ _ _ |- _ => apply read_frame in H as (? & ? & ?)
  | H : conn_write _ _ _ _ _ |- _ => apply write_frame in H as (? & ? & ? & ?)
  end.

(** ** [io.Copy] *)
Definition copy_measure (n : nat) (c : copying) : nat :=
  match c with CRead => 2 * n + 1 | CWrite _ => 2 * n + 2 | CEnd _ => 0 end.

#[export] Program Instance copying_laws : CopierLaws copying := {| c_measure := copy_measure; c_wf _ := True |}.
Next Obligation. done. Qed.
Next Obligation. done. Qed.
Next Obligation. by destruct 1. Qed.
Next Obligation. intros t s d c s' d' c'. destruct 1; frames; auto using same_stream_refl. Qed.
Next Obligation. intros t s d c s' d' c' t'. destruct 1; intros Hne; frames; auto. Qed.
Next Obligation.
  intros t s d c s' d' c'. destruct 1 as [bs s' Hr|s' Hr|s' Hr|bs ok d' Hw]; unfold copy_measure; [|lia..|].
  - apply read_frame in Hr as (_ & _ & -> & ?). rewrite length_app. lia.
  - destruct ok; lia.
Qed.
Next Obligation.
  intros t s d c _ Hc Hs _ Hd. destruct c as [|bs|eof]; [| |done].
  - destruct (stops_read copy_buffer s) as (r & s' & Hr); [unfold copy_buffer; lia|done|].
    destruct r; eexists _, _, _; [by eapply copy_read|by eapply copy_eof|by eapply copy_failed].
  - destruct (takes_write t bs d Hd) as (ok & d' & Hw). eexists _, _, _. by eapply copy_write.
Qed.

(** What arrived is what was written, what is in the buffer, and what is left. *)
Definition copy_sound (t : tag) (s d : conn) (c : copying) : Prop :=
  match c with
  | CRead => peer_sent s = out t d ++ unread s
  | CWrite bs => peer_sent s = out t d ++ bs ++ unread s
  | CEnd true => peer_sent s = out t d ∧ peer_closed s = true
  | CEnd false => out t d `prefix_of` peer_sent s
  end.

#[export] Program Instance copying_sound : CopierSound copying := {| c_sound := copy_sound |}.
Next Obligation. done. Qed.
Next Obligation.
  intros t s d c s' d' c' Hs. destruct 1 as [bs s' Hr|s' Hr|s' Hr|bs ok d' Hw]; cbn in *.
  - apply read_frame in Hr as ((Hp & _) & _ & Hu & _). by rewrite Hp, Hs, Hu.
  - apply read_frame in Hr as ((Hp & Hc & _) & _ & _ & Hu & Hpc).
    rewrite Hu, app_nil_r in Hs. by rewrite Hp, Hc.
  - apply read_frame in Hr as ((Hp & _) & _ & _). rewrite Hp, Hs. by apply prefix_app_r.
  - apply write_frame in Hw as (_ & _ & _ & Ho). destruct ok; cbn.
    + by rewrite (out_more _ _ _ _ Ho), <- app_assoc.
    + destruct Ho as [[k ->%out_more] _]. rewrite Hs. apply prefix_app, prefix_app_r, prefix_take.
Qed.
Next Obligation.
  intros t s d c s' d' Hs [_ (bs & Hu & Hp & Hc)] [Ho%out_same _]. destruct c as [|b|[]]; cbn in *.
  - rewrite Hp, Hs, Hu, Ho. by rewrite app_assoc.
  - rewrite Hp, Hs, Hu, Ho. by rewrite <- !app_assoc.
  - destruct Hs as [Hs Hpc]. destruct (Hc Hpc) as [-> Hpc']. rewrite app_nil_r in Hp. split; congruence.
  - rewrite Ho, Hp. by apply prefix_app_r.
Qed.

(** ** The packet loop of [myRelay] *)
Definition forward_measure (n : nat) (c : forwarding) : nat :=
  match c with
  | FHead _ | FBody _ _ => 3 * n + 1
  | FBackHead _ _ | FErrHead => 3 * n + 3
  | FBackBody _ | FErrBody => 3 * n + 2
  | FEnd _ => 0
  end.

Lemma body_read_measure n h b : (forward_measure n (body_read h b) ≤ 3 * n + 3)%nat.
Proof.
  unfold body_read. destruct (my_length h) as [z|e|]; [|cbn; lia..].
  destruct (_ <? z); [cbn; lia|]. destruct (_ <? _)%nat; [cbn; lia|]. destruct (is_change_user h b); cbn; lia.
Qed.
Lemma head_read_measure n h : (forward_measure n (head_read h) ≤ 3 * n + 3)%nat.
Proof. unfold head_read. destruct (_ <? _)%nat; [cbn; lia|apply body_read_measure]. Qed.

Definition forward_wf (c : forwarding) : Prop :=
  match c with FHead h => (length h < 4)%nat | FBody h b => (0 < body_wants h b)%nat | _ => True end.

Lemma body_read_wf h b : forward_wf (body_read h b).
Proof.
  unfold body_read. destruct (my_length h) as [z|e|] eqn:Hz; [|done..].
  destruct (_ <? z); [done|]. destruct (Nat.ltb_spec (length b) (Z.to_nat z)).
  - cbn. unfold body_wants. rewrite Hz. lia.
  - by destruct (is_change_user h b).
Qed.
Lemma head_read_wf h : forward_wf (head_read h).
Proof. unfold head_read. destruct (Nat.ltb_spec (length h) 4); [done|apply body_read_wf]. Qed.
#[local] Hint Resolve body_read_wf head_read_wf : core.

#[export] Program Instance forwarding_laws : CopierLaws forwarding :=
  {| c_measure := forward_measure; c_wf := forward_wf |}.
Next Obligation. cbn. lia. Qed.
Next Obligation. intros t s d c s' d' c' Hc. destruct 1; try destruct ok; cbn in *; auto with lia. Qed.
Next Obligation. by destruct 1. Qed.
Next Obligation. intros t s d c s' d' c'. destruct 1; frames; auto using same_stream_refl. Qed.
Next Obligation. intros t s d c s' d' c' t'. destruct 1; intros Hne; frames; auto. Qed.
Next Obligation.
  intros t s d c s' d' c'. destruct 1 as [h bs s' Hr|h b bs s' Hr|h s' Hr|h b s' Hr|h s' Hr|h b s' Hr
    |h b ok d' Hw|b ok d' Hw|ok s' Hw|ok s' Hw].
  - apply read_frame in Hr as (_ & _ & -> & ?).
    pose proof (head_read_measure (length (unread s')) (h ++ bs)). cbn [forward_measure].
    rewrite length_app. lia.
  - apply read_frame in Hr as (_ & _ & -> & ?).
    pose proof (body_read_measure (length (unread s')) h (b ++ bs)). cbn [forward_measure].
    rewrite length_app. lia.
  - cbn; lia.
  - cbn; lia.
  - cbn; lia.
  - cbn; lia.
  - destruct ok; cbn; lia.
  - destruct ok; cbn; lia.
  - apply write_frame in Hw as (_ & -> & _). destruct ok; cbn; lia.
  - apply write_frame in Hw as (_ & -> & _). cbn; lia.
Qed.
Next Obligation.
  intros t s d c Hwf Hc Hs Hts Hd. destruct c as [h|h b|h b|b| | |eof]; cbn in Hwf; [..|done].
  - destruct (stops_read (4 - length h) s) as (r & s' & Hr); [lia|done|].
    destruct r; eexists _, _, _; [by eapply fwd_head|by eapply fwd_head_eof|by eapply fwd_head_failed].
  - destruct (stops_read (body_wants h b) s) as (r & s' & Hr); [done..|].
    destruct r; eexists _, _, _; [by eapply fwd_body|by eapply fwd_body_eof|by eapply fwd_body_failed].
  - destruct (takes_write t h d Hd) as (ok & d' & Hw). eexists _, _, _. by eapply fwd_back_head.
  - destruct (takes_write t b d Hd) as (ok & d' & Hw). eexists _, _, _. by eapply fwd_back_body.
  - destruct (takes_write t change_user_head s Hts) as (ok & s' & Hw). eexists _, _, _. by eapply fwd_err_head.
  - destruct (takes_write t change_user_error s Hts) as (ok & s' & Hw). eexists _, _, _. by eapply fwd_err_body.
Qed.

(** The packets of a stream, and what of them goes to the backend. *)
Definition stream (pkts : list (byte * list byte)) : list byte := pkts ≫= λ p, packet p.1 p.2.
Definition forwarded (pkts : list (byte * list byte)) : list byte := stream (filter (λ p, ¬ change_user p) pkts).
Definition refused (pkts : list (byte * list byte)) : nat := length (filter change_user pkts).
(** The answer to a refused packet: the two writes of [myError], cut short where one
    of them failed. *)
Definition refusal : list (list byte) := [change_user_head; change_user_error].
Definition cut_refusal (r : list (list byte)) : Prop :=
  (∃ k, r = [take k change_user_head]) ∨ ∃ k, r = [change_user_head; take k change_user_error].

#[local] Opaque change_user_error change_user_head.

Lemma stream_snoc pkts p : stream (pkts ++ [p]) = stream pkts ++ packet p.1 p.2.
Proof. unfold stream. rewrite bind_app, bind_cons. cbn. by rewrite app_nil_r. Qed.
Lemma forwarded_snoc pkts p :
  forwarded (pkts ++ [p]) = forwarded pkts ++ (if decide (change_user p) then [] else packet p.1 p.2).
Proof.
  unfold forwarded. rewrite filter_app, filter_cons. destruct (decide (change_user p)) as [Hc|Hc].
  - rewrite decide_False by tauto. cbn. by rewrite !app_nil_r.
  - rewrite decide_True by done. by rewrite filter_nil, stream_snoc.
Qed.
Lemma refused_snoc pkts p :
  refused (pkts ++ [p]) = (refused pkts + (if decide (change_user p) then 1 else 0))%nat.
Proof.
  unfold refused. rewrite filter_app, length_app, filter_cons. by destruct (decide (change_user p)).
Qed.

(** What a phase has read of a packet, owes the backend, and owes the client. *)
Definition partial (c : forwarding) : list byte :=
  match c with FHead h => h | FBody h b => h ++ b | _ => [] end.
Definition owed (c : forwarding) : list byte :=
  match c with FBackHead h b => h ++ b | FBackBody b => b | _ => [] end.
Definition answering (c : forwarding) : nat := match c with FErrHead | FErrBody => 1 | _ => 0 end.
Definition half_answer (c : forwarding) : list (list byte) := match c with FErrBody => [change_user_head] | _ => [] end.

Definition reading_ok (c : forwarding) : Prop :=
  match c with
  | FHead h => (length h < 4)%nat
  | FBody h b => length h = 4%nat ∧ (0 < body_wants h b)%nat ∧ ∃ n, my_length h = Ok n ∧ n < 2 ^ 24
  | _ => True
  end.

Record forward_ok (t : tag) (s d : conn) (c : forwarding) (pkts : list (byte * list byte))
    (answers : list (list (list byte))) (tail : list byte) : Prop := {
  fo_small : Forall (λ p, Z.of_nat (length p.2) < 2 ^ 24) pkts;
  fo_stream : peer_sent s = stream pkts ++ tail;
  fo_answers : (length answers + answering c)%nat = refused pkts;
  fo_cut : Forall cut_refusal answers;
  fo_out : chunks t s = concat answers ++ half_answer c;
  fo_full : closed s = false → broken s = false → Forall (eq refusal) answers;
  fo_phase :
    match c with
    | FEnd eof =>
       out t d `prefix_of` forwarded pkts ∧
       (eof = true → peer_closed s = true ∧ relay_packet tail = None ∧ out t d = forwarded pkts)
    | _ => tail = partial c ++ unread s ∧ out t d ++ owed c = forwarded pkts ∧ reading_ok c
    end
}.

Definition forward_sound (t : tag) (s d : conn) (c : forwarding) : Prop :=
  ∃ pkts answers tail, forward_ok t s d c pkts answers tail.

(** A header announces less than 2^24 bytes. *)
Lemma my_length_4 h : length h = 4%nat → ∃ n, my_length h = Ok n ∧ 0 <= n < 2 ^ 24.
Proof.
  intros Hl. destruct h as [|c0 [|c1 [|c2 l]]]; [done..|]. rewrite my_length_val.
  eexists. split; [done|]. apply (le_val_range [c0; c1; c2]).
Qed.

Lemma relay_packet_short h : (length h < 4)%nat → relay_packet h = None.
Proof. intros Hl. unfold relay_packet. by rewrite decide_True. Qed.

Lemma relay_packet_body h b n :
  length h = 4%nat → my_length h = Ok n → n < 2 ^ 24 →
  relay_packet (h ++ b) =
    if decide (length b < Z.to_nat n)%nat then None
    else Some (h, take (Z.to_nat n) b, drop (Z.to_nat n) b).
Proof.
  intros Hh Hn Hlt. unfold relay_packet. rewrite length_app, decide_False by lia.
  rewrite take_app_length', drop_app_length', Hn by done. by destruct (Z.ltb_spec (2 ^ 24 - 1) n); [lia|].
Qed.

Lemma body_full h b n :
  length h = 4%nat → my_length h = Ok n → n < 2 ^ 24 → length b = Z.to_nat n →
  ∃ seq, h = my_header seq b ∧ Z.of_nat (length b) < 2 ^ 24.
Proof.
  intros Hh Hn Hlt Hb. pose proof (relay_packet_body h b n Hh Hn Hlt) as Hp.
  rewrite decide_False, take_ge in Hp by lia. apply relay_packet_Some in Hp as (seq & Hseq & _ & Hsmall). by exists seq.
Qed.

(** While it reads, the goroutine owes nobody anything. *)
Definition reads (t : tag) (s d : conn) (part : list byte) pkts answers : Prop :=
  Forall (λ p : byte * list byte, Z.of_nat (length p.2) < 2 ^ 24) pkts ∧
  peer_sent s = stream pkts ++ part ++ unread s ∧
  length answers = refused pkts ∧ Forall cut_refusal answers ∧
  chunks t s = concat answers ∧ (closed s = false → broken s = false → Forall (eq refusal) answers) ∧
  out t d = forwarded pkts.

Lemma forward_ok_reads t s d c pkts answers tail :
  match c with FHead _ | FBody _ _ => True | _ => False end →
  forward_ok t s d c pkts answers tail ↔
  reads t s d (partial c) pkts answers ∧ tail = partial c ++ unread s ∧ reading_ok c.
Proof.
  intros Hc. split.
  - intros [H1 H2 H3 H4 H5 H6 H7]. assert (answering c = 0%nat ∧ half_answer c = [] ∧ owed c = []) as (Ha & Hh & Hw) by (by destruct c).
    rewrite Ha, Nat.add_0_r in H3. rewrite Hh, app_nil_r in H5.
    assert (tail = partial c ++ unread s ∧ out t d ++ owed c = forwarded pkts ∧ reading_ok c) as (-> & Ho & Hr)
      by (by destruct c).
    rewrite Hw, app_nil_r in Ho. by split_and!.
  - intros ((H1 & H2 & H3 & H4 & H5 & H6 & H7) & -> & Hr).
    assert (answering c = 0%nat ∧ half_answer c = [] ∧ owed c = []) as (Ha & Hh & Ho) by (by destruct c).
    split; rewrite ?Ha, ?Hh, ?app_nil_r, ?Nat.add_0_r; try done.
    destruct c; try done; by rewrite app_nil_r.
Qed.

Lemma body_read_sound t s d h b n pkts answers :
  length h = 4%nat → my_length h = Ok n → n < 2 ^ 24 → (length b ≤ Z.to_nat n)%nat →
  reads t s d (h ++ b) pkts answers → forward_sound t s d (body_read h b).
Proof.
  intros Hh Hn Hlt Hb Hr. unfold body_read. rewrite Hn. destruct (Z.ltb_spec (2 ^ 24 - 1) n); [lia|].
  destruct (Nat.ltb_spec (length b) (Z.to_nat n)) as [Hl|Hl].
  { exists pkts, answers, ((h ++ b) ++ unread s). apply forward_ok_reads; [done|].
    split; [done|]. split; [done|]. cbn. unfold body_wants. rewrite Hn. split; [done|]. split; [lia|by exists n]. }
  destruct (body_full h b n) as (seq & -> & Hsmall); [done..|lia|].
  rewrite is_change_user_packet. destruct Hr as (H1 & H2 & H3 & H4 & H5 & H6 & H7).
  assert (peer_sent s = stream (pkts ++ [(seq, b)]) ++ unread s) as Hs.
  { rewrite stream_snoc, <- app_assoc. exact H2. }
  assert (Forall (λ p : byte * list byte, Z.of_nat (length p.2) < 2 ^ 24) (pkts ++ [(seq, b)])) as Hsm.
  { apply Forall_app. by split; [|constructor]. }
  exists (pkts ++ [(seq, b)]), answers, (unread s).
  case_bool_decide as Hc; split; cbn [answering half_answer partial owed app reading_ok];
    rewrite ?refused_snoc, ?app_nil_r, ?forwarded_snoc; try done.
  all: rewrite ?(decide_True _ _ Hc), ?(decide_False _ _ Hc), ?app_nil_r; try lia.
  all: by rewrite H7.
Qed.

Lemma head_read_sound t s d h pkts answers :
  (length h ≤ 4)%nat → reads t s d h pkts answers → forward_sound t s d (head_read h).
Proof.
  intros Hh Hr. unfold head_read. destruct (Nat.ltb_spec (length h) 4).
  - exists pkts, answers, (h ++ unread s). by apply forward_ok_reads.
  - destruct (my_length_4 h) as (n & Hn & Hlt); [lia|].
    eapply body_read_sound; [lia|done|lia|cbn; lia|]. by rewrite app_nil_r.
Qed.

(** Reading on, and failing to. *)
Lemma reads_more t s d part bs pkts answers s' max :
  reads t s d part pkts answers → conn_read max s (Bytes bs) s' → reads t s' d (part ++ bs) pkts answers.
Proof.
  intros (H1 & H2 & H3 & H4 & H5 & H6 & H7) ((Hp & _ & Hb & _ & Hc) & Ho & Hu & _)%read_frame.
  split_and!; try done.
  - by rewrite Hp, H2, Hu, <- !app_assoc.
  - by rewrite Ho.
  - by rewrite Hb, Hc.
Qed.

Lemma reads_end t s d c pkts answers tail s' r eof max :
  match c with FHead _ | FBody _ _ => True | _ => False end →
  forward_ok t s d c pkts answers tail → conn_read max s r s' →
  match r with AtEOF => eof = true | ReadFailed => eof = false | _ => False end →
  forward_sound t s' d (FEnd eof).
Proof.
  intros Hc ((H1 & H2 & H3 & H4 & H5 & H6 & H7) & -> & Hok)%forward_ok_reads Hr Heof; [|done].
  apply read_frame in Hr as ((Hp & Hpc & Hb & _ & Hcl) & Ho & Hu).
  exists pkts, answers, (partial c ++ unread s). split; cbn [answering half_answer]; rewrite ?app_nil_r; try done.
  - by rewrite Hp.
  - lia.
  - by rewrite Ho.
  - by rewrite Hb, Hcl.
  - split; [by rewrite H7|]. intros ->. destruct r; try done.
    destruct Hu as (_ & Hu & Hpcl). rewrite Hpc, Hu, app_nil_r. split; [done|]. split; [|done].
    destruct c as [h|h b| | | | |]; try done; cbn in *.
    + by apply relay_packet_short.
    + destruct Hok as (Hh & Hw & n & Hn & Hlt). rewrite (relay_packet_body h b n) by done.
      unfold body_wants in Hw. rewrite Hn in Hw. rewrite decide_True; [done|lia].
Qed.

(** Writing to the backend. *)
Lemma back_write_sound t s d c bs ok d' next pkts answers tail :
  forward_ok t s d c pkts answers tail → conn_write t bs d ok d' →
  match c with FBackHead _ _ | FBackBody _ => True | _ => False end →
  owed c = bs ++ owed next →
  match next with FBackBody _ => True | FHead h => h = [] | _ => False end →
  forward_sound t s d' (if ok then next else FEnd false).
Proof.
  intros [H1 H2 H3 H4 H5 H6 H7] (_ & _ & _ & Hw)%write_frame Hc Howed Hnext.
  assert (tail = unread s ∧ out t d ++ owed c = forwarded pkts) as [-> Ho]
    by (destruct c; try done; destruct H7 as (-> & ? & _); done).
  assert (answering c = 0%nat ∧ half_answer c = []) as [Ha Hh] by (by destruct c).
  rewrite Ha in H3. rewrite Hh in H5. exists pkts, answers, (unread s). destruct ok.
  - assert (answering next = 0%nat ∧ half_answer next = [] ∧ partial next = [] ∧ reading_ok next)
      as (Ha' & Hh' & Hp' & Hr').
    { destruct next; try done. subst. cbn. split_and!; try done. lia. }
    split; rewrite ?Ha', ?Hh'; try done.
    assert (unread s = partial next ++ unread s ∧ out t d' ++ owed next = forwarded pkts ∧ reading_ok next).
    { rewrite Hp', (out_more _ _ _ _ Hw), <- app_assoc, <- Howed. done. }
    by destruct next.
  - split; cbn [answering half_answer]; try done. split; [|done].
    destruct Hw as [[k ->%out_more] _]. rewrite <- Ho, Howed. apply prefix_app, prefix_app_r, prefix_take.
Qed.

(** Writing an answer to the client: an answer begun is completed, or cut short
    because the connection is closed or broken. *)
Lemma answer_cut t s s' d c pkts answers tail r :
  forward_ok t s d c pkts answers tail →
  match c with FErrHead | FErrBody => True | _ => False end →
  same_stream s s' → unread s' = unread s → chunks t s' = concat answers ++ r → cut_refusal r →
  (closed s = false → broken s = false → r = refusal) →
  forward_sound t s' d (FHead []).
Proof.
  intros [H1 H2 H3 H4 H5 H6 H7] Hc (Hp & _ & Hb & _ & Hcl) Hu Hout Hr Hfull.
  assert (tail = unread s ∧ out t d = forwarded pkts ∧ answering c = 1%nat) as (-> & Ho & Ha).
  { destruct c; try done; destruct H7 as (-> & Ho & _); cbn in Ho; by rewrite app_nil_r in Ho. }
  exists pkts, (answers ++ [r]), (unread s). split; cbn [answering half_answer partial owed app reading_ok].
  - done.
  - by rewrite Hp.
  - rewrite length_app. cbn. lia.
  - apply Forall_app. by split; [|constructor].
  - by rewrite Hout, concat_app, app_nil_r; cbn; rewrite app_nil_r.
  - rewrite Hb, Hcl. intros Hc1 Hb1. apply Forall_app. split; [by apply H6|]. constructor; [|done].
    by rewrite Hfull.
  - rewrite Hu, app_nil_r. split_and!; [done..|cbn; lia].
Qed.

Lemma forward_step_sound t s d c s' d' c' :
  forward_sound t s d c → my_forward t s d c s' d' c' → forward_sound t s' d' c'.
Proof.
  intros (pkts & answers & tail & Hok). destruct 1 as [h bs s' Hr|h b bs s' Hr|h s' Hr|h b s' Hr|h s' Hr|h b s' Hr
    |h b ok d' Hw|b ok d' Hw|ok s' Hw|ok s' Hw].
  - apply forward_ok_reads in Hok as (Hrd & _ & Hlen); [|done]. cbn in Hrd, Hlen.
    pose proof (read_frame _ _ _ _ Hr) as (_ & _ & _ & Hmax).
    eapply head_read_sound; [|by eapply reads_more]. rewrite length_app. lia.
  - apply forward_ok_reads in Hok as (Hrd & _ & Hlen); [|done]. cbn in Hrd, Hlen.
    destruct Hlen as (Hh & Hwants & n & Hn & Hlt). pose proof (read_frame _ _ _ _ Hr) as (_ & _ & _ & Hmax).
    unfold body_wants in *. rewrite Hn in *.
    eapply (body_read_sound _ _ _ _ _ n); [done..|rewrite length_app; lia|]. rewrite app_assoc. by eapply reads_more.
  - eapply reads_end; [|exact Hok|exact Hr|]; done.
  - eapply reads_end; [|exact Hok|exact Hr|]; done.
  - eapply reads_end; [|exact Hok|exact Hr|]; done.
  - eapply reads_end; [|exact Hok|exact Hr|]; done.
  - by eapply (back_write_sound t s d (FBackHead h b)).
  - eapply (back_write_sound t s d (FBackBody b) b ok d' (FHead [])); [done..| |done]. cbn. by rewrite app_nil_r.
  - destruct (write_frame _ _ _ _ _ Hw) as (Hst & Hu & _ & Hout). pose proof (fo_out _ _ _ _ _ _ _ Hok) as Hs.
    cbn in Hs. rewrite app_nil_r in Hs. destruct ok.
    + destruct Hok as [H1 H2 H3 H4 H5 H6 H7]. destruct Hst as (Hp & _ & Hb & _ & Hcl).
      exists pkts, answers, tail. split; rewrite ?Hp, ?Hb, ?Hcl, ?Hu; try done. cbn. by rewrite Hout, Hs.
    + destruct Hout as [[k Hout] Hbad]. eapply answer_cut; [done..|by rewrite Hout, Hs|left; by exists k|].
      intros. destruct Hbad; congruence.
  - destruct (write_frame _ _ _ _ _ Hw) as (Hst & Hu & _ & Hout). pose proof (fo_out _ _ _ _ _ _ _ Hok) as Hs.
    cbn in Hs. destruct ok.
    + eapply (answer_cut _ _ _ _ _ _ _ _ refusal); [done..| |right|done].
      * by rewrite Hout, Hs, <- app_assoc.
      * exists (length change_user_error). by rewrite firstn_all.
    + destruct Hout as [[k Hout] Hbad].
      eapply (answer_cut _ _ _ _ _ _ _ _ [change_user_head; take k change_user_error]); [done..| |right; by exists k|].
      * by rewrite Hout, Hs, <- app_assoc.
      * intros. destruct Hbad; congruence.
Qed.

#[export] Program Instance forwarding_sound : CopierSound forwarding := {| c_sound := forward_sound |}.
Next Obligation. intros t. exists [], [], []. split; try done. cbn. split_and!; [done..|lia]. Qed.
Next Obligation. apply forward_step_sound. Qed.
Next Obligation.
  intros t s d c s' d' (pkts & answers & tail & [H1 H2 H3 H4 H5 H6 H7]) [(Ho & Hcl & Hb) (bs & Hu & Hp & Hpc)]
    (Hod%out_same & _ & _).
  exists pkts, answers, (tail ++ bs). split; try done.
  - by rewrite Hp, H2, app_assoc.
  - by rewrite Ho.
  - intros Hc1 Hb1. apply H6; apply not_true_is_false; [intros Hx%Hcl|intros Hx%Hb]; congruence.
  - assert (match c with FEnd _ => True | _ => tail = partial c ++ unread s ∧ out t d ++ owed c = forwarded pkts ∧ reading_ok c end →
            match c with FEnd _ => True | _ => tail ++ bs = partial c ++ unread s' ∧ out t d' ++ owed c = forwarded pkts ∧ reading_ok c end) as Hph.
    { rewrite Hod, Hu. destruct c; try done; intros (-> & ? & ?); by rewrite app_assoc. }
    destruct c; try by apply Hph. destruct H7 as [Hpre Heof]. rewrite Hod. split; [done|].
    intros ->. destruct Heof as (Hcl1 & Htail & Hout); [done|]. destruct (Hpc Hcl1) as [-> ?].
    by rewrite app_nil_r.
Qed.

(** ** The session *)
Section relaying.
Context {C1 C2 : Type} {K1 : Copier C1} {L1 : CopierLaws C1} {K2 : Copier C2} {L2 : CopierLaws C2}.
Implicit Types st : relaying C1 C2.

Definition running {C} (g : goroutine C) : nat := match g with Running _ => 1 | Sent _ => 0 end.
Definition copier_of {C} (g : goroutine C) : C := match g with Running c | Sent c => c end.

(** Tokens the session's goroutine has taken, and the ends it has closed. *)
Definition taken (m : waiter) : nat := match m with WFirst => 0 | WReturned => 2 | _ => 1 end.
Definition closes_a (m : waiter) : bool := match m with WFirst | WCloseA => false | _ => true end.
Definition closes_b (m : waiter) : bool := match m with WFirst | WCloseA | WCloseB => false | _ => true end.

Record relay_inv st : Prop := {
  ri_tokens : (done_tokens st + taken (main st) + running (g1 st) + running (g2 st) = 2)%nat;
  ri_sent1 : running (g1 st) = 0%nat → c_ended (copier_of (g1 st)) = true;
  ri_sent2 : running (g2 st) = 0%nat → c_ended (copier_of (g2 st)) = true;
  ri_wf1 : c_wf (copier_of (g1 st));
  ri_wf2 : c_wf (copier_of (g2 st));
  ri_a : closed (conn_a st) = closes_a (main st);
  ri_b : closed (conn_b st) = closes_b (main st)
}.

Lemma relay_go_inv st st' : relay_go st st' → relay_inv st → relay_inv st'.
Proof.
  intros Hstep [Ht H1 H2 Hw1 Hw2 Ha Hb]. destruct Hstep as [a b c x n m a' b' c' Hc|a b x c n m a' b' c' Hc| | | | | |];
    split; cbn in *; try lia; try done; try (by eapply c_wf_step).
  - apply c_frame in Hc as (_ & (_ & _ & _ & _ & ->) & _). done.
  - apply c_frame in Hc as ((_ & _ & _ & _ & ->) & _). done.
  - apply c_frame in Hc as ((_ & _ & _ & _ & ->) & _). done.
  - apply c_frame in Hc as (_ & (_ & _ & _ & _ & ->) & _). done.
Qed.

Lemma peer_acts_closed c c' : peer_acts c c' → closed c' = closed c.
Proof. by destruct 1. Qed.

Lemma relay_step_inv st st' : relay_step st st' → relay_inv st → relay_inv st'.
Proof.
  intros [Hgo|Henv]; [by apply relay_go_inv|]. intros [Ht H1 H2 Hw1 Hw2 Ha Hb].
  destruct Henv as [a a' b x y n m Hp|a b b' x y n m Hp]; apply peer_acts_closed in Hp; split; cbn in *; solve [done | congruence].
Qed.

Lemma relay_reachable_inv st : relay_reachable st → relay_inv st.
Proof.
  intros Hr. eapply (rtc_invariant relay_step); [apply relay_step_inv|exact Hr|].
  split; try done; apply c_wf_start.
Qed.

(** *** It ends *)
Definition main_measure (m : waiter) : nat :=
  match m with WFirst => 4 | WCloseA => 3 | WCloseB => 2 | WSecond => 1 | WReturned => 0 end.
Definition relay_measure st : nat :=
  c_measure (length (unread (conn_b st))) (copier_of (g1 st)) + running (g1 st) +
  c_measure (length (unread (conn_a st))) (copier_of (g2 st)) + running (g2 st) + main_measure (main st).

Lemma relay_go_less st st' : relay_go st st' → (relay_measure st' < relay_measure st)%nat.
Proof.
  unfold relay_measure. destruct 1 as [a b c x n m a' b' c' Hc|a b x c n m a' b' c' Hc| | | | | |]; cbn; try lia.
  - pose proof (c_less _ _ _ _ _ _ _ Hc). apply c_frame in Hc as (_ & _ & ->). lia.
  - pose proof (c_less _ _ _ _ _ _ _ Hc). apply c_frame in Hc as (_ & _ & ->). lia.
Qed.

(** Some goroutine has ended, or is bound to: one of the peers is gone, and both
    connections take what is left. *)
Definition gone (c : conn) : Prop := peer_closed c = true ∨ broken c = true.
Definition ending st : Prop :=
  c_ended (copier_of (g1 st)) = true ∨ c_ended (copier_of (g2 st)) = true ∨
  ((gone (conn_a st) ∨ gone (conn_b st)) ∧ writable (conn_a st) = true ∧ writable (conn_b st) = true).

Lemma same_gone c c' : same_stream c c' → (gone c → gone c') ∧ writable c' = writable c.
Proof. intros (_ & Hp & Hb & Hw & _). unfold gone. by rewrite Hp, Hb. Qed.

Lemma ending_go st st' : relay_go st st' → ending st → ending st'.
Proof.
  unfold ending. destruct 1 as [a b c x n m a' b' c' Hc|a b x c n m a' b' c' Hc| | | | | |]; cbn; try done.
  - pose proof (c_running _ _ _ _ _ _ _ Hc). apply c_frame in Hc as (Hb & Ha & _).
    apply same_gone in Ha as [Ha ->], Hb as [Hb ->]. naive_solver congruence.
  - pose proof (c_running _ _ _ _ _ _ _ Hc). apply c_frame in Hc as (Ha & Hb & _).
    apply same_gone in Ha as [Ha ->], Hb as [Hb ->]. naive_solver congruence.
Qed.

Lemma gone_stops c : gone c → stops c.
Proof. intros Hg. by right. Qed.

Lemma relay_progress st : relay_inv st → ending st → main st = WReturned ∨ ∃ st', relay_go st st'.
Proof.
  intros [Ht H1 H2 Hw1 Hw2 Ha Hb] He. destruct st as [a b x y n m]. unfold ending in He. cbn in *.
  destruct m; cbn in *; [|right; eexists; by constructor..| |by left]; right.
  - destruct n as [|n]; [|eexists; apply main_first].
    destruct x as [c|c], y as [c'|c']; cbn in *; try lia.
    destruct (c_ended c) eqn:Hc; [eexists; by apply send_1; [|lia]|].
    destruct (c_ended c') eqn:Hc'; [eexists; by apply send_2; [|lia]|].
    destruct He as [?|[?|([Hg%gone_stops|Hg%gone_stops] & Hta & Htb)]]; [done..| |].
    + destruct (c_progress T2 a b c') as (a' & b' & c1 & Hs); [done..|by right|by right|]. eexists. by apply go_2.
    + destruct (c_progress T1 b a c) as (b' & a' & c1 & Hs); [done..|by right|by right|]. eexists. by apply go_1.
  - destruct n as [|n]; [|eexists; apply main_second].
    destruct x as [c|c], y as [c'|c']; cbn in *; try lia.
    + destruct (c_ended c) eqn:Hc; [eexists; by apply send_1; [|lia]|].
      destruct (c_progress T1 b a c) as (b' & a' & c1 & Hs); [done..|by left|by left|by left|]. eexists. by apply go_1.
    + destruct (c_ended c') eqn:Hc; [eexists; by apply send_2; [|lia]|].
      destruct (c_progress T2 a b c') as (a' & b' & c1 & Hs); [done..|by left|by left|by left|]. eexists. by apply go_2.
Qed.

Lemma relay_returns st :
  relay_reachable st → ending st → inevitably relay_go (λ st, main st = WReturned) st.
Proof.
  intros Hr He. eapply (inevitably_measure _ (λ st, relay_inv st ∧ ending st) _ relay_measure).
  - intros s s' [Hi He'] Hs. split; [|by apply relay_go_less].
    split; [by eapply relay_go_inv|by eapply ending_go].
  - intros s [Hi He']. by apply relay_progress.
  - split; [by apply relay_reachable_inv|done].
Qed.

(** When it has returned, nothing is left behind. *)
Lemma relay_returned st :
  relay_inv st → main st = WReturned →
  c_ended (copier_of (g1 st)) = true ∧ c_ended (copier_of (g2 st)) = true ∧
  closed (conn_a st) = true ∧ closed (conn_b st) = true ∧ done_tokens st = 0%nat.
Proof.
  intros [Ht H1 H2 _ _ Ha Hb] Hm. rewrite Hm in Ht, Ha, Hb. cbn in *.
  split_and!; [apply H1; lia|apply H2; lia|done..|lia].
Qed.

(** A goroutine that ended never waits to say so. *)
Lemma relay_send st :
  relay_inv st → (running (g1 st) + running (g2 st) > 0 → done_tokens st < 2)%nat.
Proof. intros [Ht _ _ _ _ _ _]. lia. Qed.

(** *** What it carries *)
Context {S1 : CopierSound C1} {S2 : CopierSound C2}.

Definition relay_sound st : Prop :=
  c_sound T1 (conn_b st) (conn_a st) (copier_of (g1 st)) ∧ c_sound T2 (conn_a st) (conn_b st) (copier_of (g2 st)).

Lemma same_quiet t c c' : same_stream c c' → chunks t c' = chunks t c → quiet t c c'.
Proof. intros (_ & _ & Hb & _ & Hc) Ho. split; [done|]. by rewrite Hb, Hc. Qed.
Lemma same_fed t c c' : same_stream c c' → unread c' = unread c → chunks t c' = chunks t c → fed t c c'.
Proof.
  intros Hs Hu Ho. split; [by apply same_quiet|]. destruct Hs as (Hp & Hpc & _). exists [].
  by rewrite !app_nil_r, Hpc.
Qed.
Lemma quiet_refl t c : quiet t c c.
Proof. done. Qed.
Lemma fed_refl t c : fed t c c.
Proof. by apply same_fed. Qed.
Lemma close_quiet t c : quiet t c (conn_close c).
Proof. done. Qed.
Lemma close_fed t c : fed t c (conn_close c).
Proof. split; [done|]. exists []. by rewrite !app_nil_r. Qed.
Lemma peer_quiet t c c' : peer_acts c c' → quiet t c c'.
Proof. by destruct 1. Qed.
Lemma peer_fed t c c' : peer_acts c c' → fed t c c'.
Proof.
  intros Hp. split; [by apply peer_quiet|]. destruct Hp as [bs c Hc| | |]; [exists bs; cbn; split_and!; [done..|congruence]|..];
    exists []; cbn; by rewrite !app_nil_r.
Qed.

Lemma relay_step_sound st st' : relay_step st st' → relay_sound st → relay_sound st'.
Proof.
  intros [Hgo|Henv] [Hs1 Hs2].
  - destruct Hgo as [a b c x n m a' b' c' Hc|a b x c n m a' b' c' Hc| | | | | |]; cbn in *; try done.
    + split; cbn; [by eapply c_sound_step|]. pose proof (c_frame _ _ _ _ _ _ _ Hc) as (Hb & Ha & Hu).
      destruct (c_other _ _ _ _ _ _ _ T2 Hc) as [Ho Ho']; [done|].
      eapply c_sound_stable; [done|by apply same_fed|by apply same_quiet].
    + split; cbn; [|by eapply c_sound_step]. pose proof (c_frame _ _ _ _ _ _ _ Hc) as (Ha & Hb & Hu).
      destruct (c_other _ _ _ _ _ _ _ T1 Hc) as [Ho Ho']; [done|].
      eapply c_sound_stable; [done|by apply same_fed|by apply same_quiet].
    + split; cbn; eapply c_sound_stable; eauto using fed_refl, quiet_refl, close_fed, close_quiet.
    + split; cbn; eapply c_sound_stable; eauto using fed_refl, quiet_refl, close_fed, close_quiet.
  - destruct Henv as [a a' b x y n m Hp|a b b' x y n m Hp]; split; cbn in *; eapply c_sound_stable;
      eauto using fed_refl, quiet_refl, peer_fed, peer_quiet.
Qed.

Lemma relay_reachable_sound st : relay_reachable st → relay_sound st.
Proof.
  intros Hr. eapply (rtc_invariant relay_step); [apply relay_step_sound|exact Hr|].
  split; apply c_sound_start.
Qed.
End relaying.

(** *** The theorems *)
(** The session's goroutine has returned and left nothing behind. *)
Definition returned_clean {C1 C2} `{Copier C1, Copier C2} (st : relaying C1 C2) : Prop :=
  main st = WReturned ∧ c_ended (copier_of (g1 st)) = true ∧ c_ended (copier_of (g2 st)) = true ∧
  closed (conn_a st) = true ∧ closed (conn_b st) = true ∧ done_tokens st = 0%nat.

Lemma relay_returns_clean {C1 C2} {K1 : Copier C1} {L1 : CopierLaws C1} {K2 : Copier C2} {L2 : CopierLaws C2}
    (st : relaying C1 C2) :
  relay_reachable st → ending st → inevitably relay_go returned_clean st.
Proof.
  intros Hr He. eapply (inevitably_measure _ (λ st, relay_inv st ∧ ending st) _ relay_measure).
  - intros s s' [Hi He'] Hs. split; [|by apply relay_go_less].
    split; [by eapply relay_go_inv|by eapply ending_go].
  - intros s [Hi He']. destruct (relay_progress s Hi He') as [Hm|?]; [left|by right].
    split; [done|]. by apply relay_returned.
  - split; [by apply relay_reachable_inv|done].
Qed.

(** C7: Both relays terminate and leave nothing behind: from every reachable state in
    which one of the two copies has ended, or one peer has closed or broken off while
    both still take bytes, every schedule ends, and it ends with both goroutines over,
    both connections closed, the channel empty and the relay returned. *)
Theorem relay_ends :
  (∀ st : relay, relay_reachable st → ending st → inevitably relay_go returned_clean st) ∧
  (∀ st : myRelay, relay_reachable st → ending st → inevitably relay_go returned_clean st).
Proof. split; intros st; apply relay_returns_clean. Qed.

(** A copy that ended carried a prefix of what its source sent, and all of it when
    it ended at the end of the stream. *)
Definition copied (src : conn) (got : list byte) (c : copying) : Prop :=
  got `prefix_of` peer_sent src ∧
  (c = CEnd true → got = peer_sent src ∧ peer_closed src = true).

Lemma copy_sound_copied t s d c : copy_sound t s d c → copied s (out t d) c.
Proof.
  intros Hs. destruct c as [|bs|[]]; cbn in Hs; (split; [|try done]).
  - rewrite Hs. by apply prefix_app_r.
  - rewrite Hs. by apply prefix_app_r.
  - by destruct Hs as [<- _].
  - intros _. by destruct Hs as [<- ?].
  - done.
Qed.

(** Everything written to a connection comes from one of the two goroutines. *)
Definition only (t : tag) (c : conn) : Prop := Forall (λ w, w.1 = t) (written c).

Lemma only_out t c : only t c → out t c = concat (snd <$> written c).
Proof.
  unfold only, out. induction (written c) as [|w l IH]; [done|]. intros [Hw Hl]%Forall_cons.
  cbn. rewrite decide_True by done. f_equal. by apply IH.
Qed.

Lemma read_written max c r c' : conn_read max c r c' → written c' = written c.
Proof. by destruct 1. Qed.
Lemma write_only t bs c ok c' : conn_write t bs c ok c' → only t c → only t c'.
Proof. destruct 1; try done; intros Ho; apply Forall_app; by split; [|constructor]. Qed.

Lemma copy_only t s d c s' d' c' :
  io_Copy t s d c s' d' c' → written s' = written s ∧ (only t d → only t d').
Proof.
  destruct 1 as [? ? Hr|? Hr|? Hr|? ? ? Hw]; [split; [by apply read_written in Hr|done]..|].
  split; [done|]. intros Ho. by eapply write_only.
Qed.
Lemma forward_only t s d c s' d' c' : my_forward t s d c s' d' c' → only t d → only t d'.
Proof. destruct 1 as [| | | | | |? ? ? ? Hw|? ? ? Hw| |]; try done; intros Ho; by eapply write_only. Qed.

Lemma peer_written c c' : peer_acts c c' → written c' = written c.
Proof. by destruct 1. Qed.

Lemma only_eq t c c' : written c' = written c → only t c → only t c'.
Proof. unfold only. by intros ->. Qed.

(** A step of the session keeps what each goroutine's writes keep. *)
Lemma relay_only_b {C} {K : Copier C} (st : relaying copying C) :
  (∀ t s d (c : C) s' d' c', c_step t s d c s' d' c' → only t d → only t d') →
  relay_reachable st → only T2 (conn_b st).
Proof.
  intros Honly Hr. eapply (rtc_invariant relay_step (λ st, only T2 (conn_b st))); [|exact Hr|constructor].
  intros x y [Hgo|Henv] Ho.
  - destruct Hgo as [a b c z n m a' b' c' Hc|a b z c n m a' b' c' Hc| | | | | |]; try done; cbn in *.
    + apply copy_only in Hc as [Hw _]. by eapply only_eq.
    + by eapply Honly.
  - destruct Henv as [|a b b' z y n m Hp]; [done|]. apply peer_written in Hp. by eapply only_eq.
Qed.

Lemma relay_only_a (st : relay) : relay_reachable st → only T1 (conn_a st).
Proof.
  intros Hr. eapply (rtc_invariant relay_step (λ st, only T1 (conn_a st))); [|exact Hr|constructor].
  intros x y [Hgo|Henv] Ho.
  - destruct Hgo as [a b c z n m a' b' c' Hc|a b z c n m a' b' c' Hc| | | | | |]; try done; cbn in *.
    + apply copy_only in Hc as [_ Hw]. auto.
    + apply copy_only in Hc as [Hw _]. by eapply only_eq.
  - destruct Henv as [a a' b z y n m Hp|]; [|done]. apply peer_written in Hp. by eapply only_eq.
Qed.

(** The bytes a peer gets. *)
Definition received (c : conn) : list byte := concat (snd <$> written c).

(** C16: In every interleaving of the PostgreSQL relay each peer has got a prefix of
    what the other sent, whatever fails; and when a copy has ended with the end of the
    stream, its peer has got all of it. *)
Theorem relay_carries (st : relay) :
  relay_reachable st →
  copied (conn_b st) (received (conn_a st)) (copier_of (g1 st)) ∧
  copied (conn_a st) (received (conn_b st)) (copier_of (g2 st)).
Proof.
  intros Hr. destruct (relay_reachable_sound st Hr) as [H1 H2]. unfold received.
  rewrite <- (only_out T1) by (by apply relay_only_a).
  rewrite <- (only_out T2) by (apply relay_only_b; [|done]; by intros ? ? ? ? ? ? ? [_ ?]%copy_only).
  split; by apply copy_sound_copied.
Qed.

(** An interleaving of two lists. *)
Inductive interleaves {A} : list A → list A → list A → Prop :=
  | interleaves_nil : interleaves [] [] []
  | interleaves_l x l m k : interleaves l m k → interleaves (x :: l) m (x :: k)
  | interleaves_r x l m k : interleaves l m k → interleaves l (x :: m) (x :: k).

(** What a connection gets interleaves the writes of the two goroutines. *)
Lemma written_interleaves c : interleaves (chunks T1 c) (chunks T2 c) (snd <$> written c).
Proof. unfold chunks. induction (written c) as [|[[] bs] l IH]; cbn; by constructor. Qed.

(** C8: In every interleaving of the MySQL relay, what the client sent splits into
    packets and an incomplete rest; the backend gets a prefix of the packets other
    than [COM_CHANGE_USER], unchanged and in order, and all of them when the copy
    ended with the stream. The writes the client gets interleave those of the copy
    from the backend, which carry a prefix of what the backend sent, all of it at the
    end of its stream, with the answers to the [COM_CHANGE_USER] packets so far, of
    which at most the last is not complete: each answer is the two writes of the
    refusal, cut short only once the client's connection is closed or broken. The
    bytes of an answer so arrive in order, but bytes of the backend may come between
    its two writes. *)
Theorem myRelay_carries (st : myRelay) :
  relay_reachable st →
  ∃ backend own pkts answers half tail,
    interleaves backend own (snd <$> written (conn_a st)) ∧
    copied (conn_b st) (concat backend) (copier_of (g1 st)) ∧
    peer_sent (conn_a st) = stream pkts ++ tail ∧
    received (conn_b st) `prefix_of` forwarded pkts ∧
    (copier_of (g2 st) = FEnd true → relay_packet tail = None ∧ received (conn_b st) = forwarded pkts) ∧
    own = concat answers ++ half ∧ (half = [] ∨ half = [change_user_head]) ∧
    (length answers ≤ refused pkts ≤ S (length answers))%nat ∧
    Forall cut_refusal answers ∧
    (closed (conn_a st) = false → broken (conn_a st) = false → Forall (eq refusal) answers).
Proof.
  intros Hr. destruct (relay_reachable_sound st Hr) as [H1 H2].
  destruct H2 as (pkts & answers & tail & [F1 F2 F3 F4 F5 F6 F7]).
  exists (chunks T1 (conn_a st)), (chunks T2 (conn_a st)), pkts, answers, (half_answer (copier_of (g2 st))), tail.
  unfold received. rewrite <- out_chunks.
  rewrite <- (only_out T2) by (apply relay_only_b; [|done]; intros ? ? ? ? ? ? ?; apply forward_only).
  split_and!; try done.
  - apply written_interleaves.
  - by apply copy_sound_copied.
  - destruct (copier_of (g2 st)); [destruct F7 as (_ & <- & _); by apply prefix_app_r..|by destruct F7].
  - intros Hend. rewrite Hend in F7. destruct F7 as [_ F7]. by destruct F7 as (_ & ? & ?).
  - destruct (copier_of (g2 st)); cbn; auto.
  - lia.
  - assert (answering (copier_of (g2 st)) ≤ 1)%nat by (by destruct (copier_of (g2 st)); cbn; lia). lia.
Qed.

(** ** A torn answer

    [myError] makes two writes, and the other goroutine may write between them:
    the client can get backend bytes in the middle of an error packet. *)
Section torn.
Context (x : byte).

(** The client has sent [COM_CHANGE_USER] and the backend a byte. *)
Definition refused_packet : list byte := packet NUL [byte_of 17].
Definition tearing (ua ub : list byte) w (p : copying) (q : forwarding) : myRelay :=
  mkRelaying (mkConn ua refused_packet w false false true false) (mkConn ub [x] [] false false true false)
    (Running p) (Running q) 0 WFirst.
Definition torn : myRelay :=
  tearing [] [] [(T2, change_user_head); (T1, [x]); (T2, change_user_error)] CRead (FHead []).

Lemma read_eq max c n bs c' :
  closed c = false → (0 < n ≤ max)%nat → (n ≤ length (unread c))%nat →
  bs = take n (unread c) → c' = with_unread (drop n (unread c)) c → conn_read max c (Bytes bs) c'.
Proof. intros ? ? ? -> ->. by apply read_bytes. Qed.

Lemma forward_eq t s d c s' d' c1 c2 : c1 = c2 → my_forward t s d c s' d' c1 → my_forward t s d c s' d' c2.
Proof. by intros ->. Qed.

Lemma tearing_reachable : relay_reachable (tearing refused_packet [x] [] CRead (FHead [])).
Proof.
  eapply rtc_l; [right; apply env_a, (peer_sends refused_packet); done|].
  eapply rtc_l; [right; apply env_b, (peer_sends [x]); done|]. apply rtc_refl.
Qed.

Lemma torn_run : rtc relay_go (tearing refused_packet [x] [] CRead (FHead [])) torn.
Proof.
  apply (rtc_l _ _ (tearing [byte_of 17] [x] [] CRead (FBody (my_header NUL [byte_of 17]) []))).
  { apply go_2. eapply forward_eq; [|apply (fwd_head _ _ _ [] (my_header NUL [byte_of 17]))];
      [by vm_compute|by apply (read_eq _ _ 4); [|cbn; lia|vm_compute; lia| |]]. }
  apply (rtc_l _ _ (tearing [] [x] [] CRead FErrHead)).
  { apply go_2. eapply forward_eq; [|apply (fwd_body _ _ _ (my_header NUL [byte_of 17]) [] [byte_of 17])];
      [by vm_compute|].
    assert (body_wants (my_header NUL [byte_of 17]) [] = 1%nat) as -> by (by vm_compute).
    by apply (read_eq _ _ 1); [|lia|cbn; lia| |]. }
  apply (rtc_l _ _ (tearing [] [] [] (CWrite [x]) FErrHead)).
  { apply go_1, copy_read. by apply (read_eq _ _ 1); [|unfold copy_buffer; lia|cbn; lia| |]. }
  apply (rtc_l _ _ (tearing [] [] [(T2, change_user_head)] (CWrite [x]) FErrBody)).
  { by apply go_2, (fwd_err_head _ _ _ true), write_ok. }
  apply (rtc_l _ _ (tearing [] [] [(T2, change_user_head); (T1, [x])] CRead FErrBody)).
  { by apply go_1, (copy_write _ _ _ _ true), write_ok. }
  apply rtc_once, go_2, (fwd_err_body _ _ _ true). by apply write_ok.
Qed.

Lemma torn_reachable : relay_reachable torn.
Proof.
  eapply rtc_trans; [apply tearing_reachable|].
  eapply rtc_subrel; [|apply torn_run]. intros ? ? ?; by left.
Qed.
End torn.

Lemma myError_torn x :
  ∃ st : myRelay, relay_reachable st ∧ received (conn_a st) = change_user_head ++ [x] ++ change_user_error.
Proof.
  exists (torn x). split; [apply torn_reachable|]. unfold received, torn. cbn. by rewrite app_nil_r.
Qed.
