(* ===== verification/Postgres.v ===== *)
(** * PostgreSQL wire protocol and sessions (src/iamproxy/postgres.go)

    Message framing, the startup and password parsers, [servePostgres] up to the
    relay and [pgCancel].  pgconn is a parameter: what the code passes to
    [pgconn.ConnectConfig] is a [pgLogin], what it uses of the connection is a
    [pgBackend].  The registry [e.cancels] is shared by all sessions; a handler
    run sees what it held when the handler looked ([load]), and its look and its
    own changes to it are events. *)
From S2P Require Import Prelude GoStrings Wire Conn NetAddr Config MySQL.
#[local] Open Scope Z_scope.

(** ** Messages *)
Section messages.
Context {X : Type}.

Definition pg_message (typ : byte) (body : list byte) : list byte :=
  [typ] ++ be_bytes 4 (4 + Z.of_nat (length body)) ++ body.

Definition pgWrite (typ : byte) (body : list byte) : M X unit := write (pg_message typ body).

Definition fatal_body (code msg : gostring) : list byte :=
  lit "SFATAL" ++ [NUL] ++ lit "C" ++ code ++ [NUL] ++ lit "M" ++ msg ++ [NUL; NUL].

Definition pgFatal (code msg : gostring) : M X unit :=
  ignore (pgWrite (chr "E") (fatal_body code msg)).

(** ** The startup message *)
Definition cancelKeyParam : gostring := lit "_cancel".
Definition sslParam : gostring := lit "_ssl".

(** [for i := 0; i < len(fields); i += 2 { ... m[fields[i]] = fields[i+1] }] *)
Fixpoint pg_pairs (m : gmap gostring gostring) (fields : list gostring)
    : res (gmap gostring gostring) :=
  match fields with
  | [] => Ok m
  | k :: rest =>
     _ ← guard_err (empty k) (Errorf "empty parameter" []);
     match rest with
     | [] => Panic
     | v :: rest => pg_pairs (<[k := v]> m) rest
     end
  end.

Definition bad_params : goerr := Errorf "invalid startup parameters" [].

(** The body of a version 3.0 startup message. *)
Definition pg_parameters (b : list byte) : res (gmap gostring gostring) :=
  let n := Z.of_nat (length b) in
  unterminated ← (if n =? 0 then Ok true
                  else c ← index_z b (n - 1); Ok (negb (bool_decide (c = NUL))));
  _ ← guard_err unterminated bad_params;
  body ← slice_to_z b (n - 1);
  let fields := split_byte body NUL in
  last ← index_z fields (Z.of_nat (length fields) - 1);
  fields ← (if empty last then slice_to_z fields (Z.of_nat (length fields) - 1) else Ok fields);
  _ ← guard_err (negb (Nat.even (length fields))) bad_params;
  pg_pairs ∅ fields.

Fixpoint pgStartup_loop (fuel : nat) : M X (gmap gostring gostring) :=
  match fuel with
  | O => lift Panic
  | S fuel =>
     head ← readFull 8;
     h4 ← lift (slice_to head 4);
     n ← lift (be_uint 4 h4);
     h8 ← lift (slice_from head 4);
     code ← lift (be_uint 4 h8);
     _ ← check ((n <? 8) || (2 ^ 20 <? n)) (Errorf "invalid startup length" []);
     if code =? 80877104 then
       _ ← check (negb (n =? 8)) (Errorf "invalid GSS request" []);
       _ ← write [chr "N"];
       pgStartup_loop fuel
     else if code =? 80877102 then
       _ ← check (negb (n =? 16)) (Errorf "invalid cancel length" []);
       key ← readFull 8;
       mret {[ cancelKeyParam := key ]}
     else if code =? 80877103 then mret {[ sslParam := lit "1" ]}
     else
       _ ← check (negb (code =? 196608)) (Errorf "unsupported protocol version" []);
       b ← readFull (Z.to_nat (n - 8));
       lift (pg_parameters b)
  end.

(** Each round of the loop reads eight bytes, so the bytes at hand bound it. *)
Definition pgStartup : M X (gmap gostring gostring) := λ s,
  pgStartup_loop (S (length (inp s))) s.

(** ** The password message *)
Definition pgPassword : M X gostring :=
  head ← readFull 5;
  c ← lift (index_go head 0);
  _ ← check (negb (bool_decide (c = chr "p"))) (Errorf "expected password message" []);
  h1 ← lift (slice_from head 1);
  n ← lift (be_uint 4 h1);
  _ ← check ((n <? 5) || (2 ^ 20 <? n)) (Errorf "invalid password length" []);
  b ← readFull (Z.to_nat (n - 4));
  c ← lift (index_z b (Z.of_nat (length b) - 1));
  _ ← check (negb (bool_decide (c = NUL))) (Errorf "unterminated password" []);
  lift (slice_to_z b (Z.of_nat (length b) - 1)).
End messages.

(** ** Replication modes *)
Definition one_of (v : gostring) (l : list string) : bool :=
  existsb (λ x, v =s lit x) l.

Definition pgReplicationMode `{GoUnicode} (v : gostring) : res gostring :=
  let v := to_lower v in
  if one_of v [""; "false"; "off"; "no"; "0"]%string then Ok []
  else if one_of v ["true"; "on"; "yes"; "1"]%string then Ok (lit "true")
  else if one_of v ["database"]%string then Ok (lit "database")
  else Err (Errorf "invalid replication parameter" []).

(** ["invalid value for parameter \"replication\""] *)
Definition bad_replication : gostring :=
  lit "invalid value for parameter " ++ [byte_of 34] ++ lit "replication" ++ [byte_of 34].

(** ** The backend *)
Record pgLogin := mkPgLogin {
  pl_host : gostring;
  pl_port : Z;
  pl_user : gostring;
  pl_password : gostring;
  pl_database : gostring;
  pl_tls : option (gostring * bool);
  pl_params : gmap gostring gostring
}.

(** What [Hijack] returns, as far as it is used. *)
Record pgHijacked := mkHijacked {
  ParameterStatuses : gmap gostring gostring;
  PID : Z;
  SecretKey : list byte;
  TxStatus : byte
}.

(** A backend connection: whether [SyncConn] succeeds, then the hijack. *)
Record pgBackend := mkBackend {
  pb_sync : option goerr;
  pb_hijack : goerr + pgHijacked
}.

Inductive pg_event :=
  | PgValidate (user password : gostring)
  | PgConnect (lg : pgLogin)
  | PgBackendClose
  | PgRegister (key upstream : gostring)
  | PgUnregister (key : gostring)
  | PgRelay
  | PgLoad (key : gostring) (found : option gostring)
  | PgDial (upstream : gostring)
  | PgDialWrite (bs : list byte)
  | PgDialClose.

(** [m[k]] of a Go map: the zero value when absent. *)
Definition get (m : gmap gostring gostring) (k : gostring) : gostring := default [] (m !! k).

Definition cancel_message (raw : list byte) : list byte :=
  be_bytes 4 16 ++ be_bytes 4 80877102 ++ raw.

Section session.
Context `{GoUnicode}.
(** [e.svc.Validate], pgconn (the runtime parameters of
    [ParseConfig("sslmode=disable")] and [ConnectConfig]), the registry as
    [pgCancel] finds it, and the dialer and the write of [pgCancel]. *)
Context (Validate : Listener → gostring → gostring → res Principal).
Context (base_config : goerr + gmap gostring gostring).
Context (connect : pgLogin → option pgBackend).
Context (load : gostring → option gostring).
Context (dial : gostring → option goerr) (cancel_write : option goerr).

Definition of_error (e : option goerr) : res unit :=
  match e with None => Ok tt | Some e => Err e end.
Definition of_sum {A} (r : goerr + A) : res A :=
  match r with inl e => Err e | inr a => Ok a end.

Definition pgCancel (l : Listener) (raw : list byte) : M pg_event unit :=
  _ ← check (negb (bool_decide (length raw = 8%nat))) (Errorf "invalid cancel" []);
  let key := Name l ++ raw in
  _ ← emit (PgLoad key (load key));
  match load key with
  | None => mret tt
  | Some upstream =>
     _ ← emit (PgDial upstream);
     _ ← lift (of_error (dial upstream));
     deferred PgDialClose (
       _ ← emit (PgDialWrite (cancel_message raw));
       lift (of_error cancel_write))
  end.

(** The upstream address of a listener, as [servePostgres] reads it. *)
Definition pg_upstream (l : Listener) : res (gostring * Z) :=
  ' (host, portStr) ← SplitHostPort (Upstream l);
  port ← wrap_err (λ _, Errorf "invalid upstream port" []) (atoi portStr);
  _ ← guard_err ((port <? 1) || (65535 <? port)) (Errorf "invalid upstream port" []);
  Ok (host, port).

Definition pg_database (p : Principal) (params : gmap gostring gostring) : gostring :=
  if empty (get params (lit "database")) then BackendUser p else get params (lit "database").

Definition set_param (k v : gostring) (m : gmap gostring gostring) : gmap gostring gostring :=
  if empty v then m else <[k := v]> m.

Definition pg_tls (l : Listener) (host : gostring) : option (gostring * bool) :=
  if empty (UpstreamTLS l) || (UpstreamTLS l =s lit "disable") then None
  else Some (host, UpstreamTLS l =s lit "require").

Definition pg_login (l : Listener) (p : Principal) (params : gmap gostring gostring)
    (replication : gostring) : res pgLogin :=
  ' (host, port) ← pg_upstream l;
  base ← of_sum base_config;
  Ok (mkPgLogin host port (BackendUser p) (BackendPassword p) (pg_database p params)
    (pg_tls l host)
    (set_param (lit "replication") replication
      (set_param (lit "application_name") (get params (lit "application_name")) base))).

Fixpoint pg_statuses (m : gmap gostring gostring) (keys : list gostring) : M pg_event unit :=
  match keys with
  | [] => mret tt
  | k :: keys =>
     _ ← pgWrite (chr "S") (k ++ [NUL] ++ get m k ++ [NUL]);
     pg_statuses m keys
  end.

(** [keyData]: the process id and the secret key of the backend. *)
Definition key_data (h : pgHijacked) : list byte := be_bytes 4 (PID h) ++ SecretKey h.

(** After the hijack: the rest of the client's login, the cancel registration
    and the relay. *)
Definition pg_handoff (l : Listener) (h : pgHijacked) : M pg_event unit :=
  _ ← pgWrite (chr "R") [NUL; NUL; NUL; NUL];
  let keys := sort_strings (map_to_list (ParameterStatuses h)).*1 in
  _ ← pg_statuses (ParameterStatuses h) keys;
  _ ← check (negb (bool_decide (length (SecretKey h) = 4%nat))) (Errorf "invalid backend secret key" []);
  _ ← pgWrite (chr "K") (key_data h);
  _ ← pgWrite (chr "Z") [TxStatus h];
  let cancelKey := Name l ++ key_data h in
  _ ← emit (PgRegister cancelKey (Upstream l));
  deferred (PgUnregister cancelKey) (
    _ ← set_deadline false;
    emit PgRelay).

Definition pg_backend (l : Listener) (lg : pgLogin) : M pg_event unit :=
  _ ← emit (PgConnect lg);
  match connect lg with
  | None =>
     _ ← pgFatal (lit "08006") (lit "backend connection failed");
     throw (Errorf "backend connection failed" [])
  | Some b =>
     match pb_sync b with
     | Some e => _ ← emit PgBackendClose; throw e
     | None =>
        match pb_hijack b with
        | inl e => _ ← emit PgBackendClose; throw e
        | inr h => deferred PgBackendClose (pg_handoff l h)
        end
     end
  end.

(** The login under TLS, once its startup message is a proper one. *)
Definition pg_login_phase (l : Listener) (params : gmap gostring gostring) : M pg_event unit :=
  let username := get params (lit "user") in
  if empty username then
    _ ← pgFatal (lit "28000") (lit "user required");
    throw (Errorf "user required" [])
  else
    match pgReplicationMode (get params (lit "replication")) with
    | Err e =>
       _ ← pgFatal (lit "22023") bad_replication;
       throw e
    | Panic => lift Panic
    | Ok replication =>
       _ ← pgWrite (chr "R") (be_bytes 4 3);
       password ← pgPassword;
       _ ← emit (PgValidate username password);
       match Validate l username password with
       | Err e => _ ← pgFatal (lit "28P01") (lit "authentication failed"); throw e
       | Panic => lift Panic
       | Ok p => lg ← lift (pg_login l p params replication); pg_backend l lg
       end
    end.

(** After the TLS handshake. *)
Definition pg_secure_phase (l : Listener) : M pg_event unit :=
  params ← pgStartup;
  match params !! cancelKeyParam with
  | Some raw => pgCancel l raw
  | None =>
     _ ← check (negb (empty (get params sslParam))) (Errorf "invalid startup after TLS" []);
     pg_login_phase l params
  end.

Definition servePostgres (l : Listener) : M pg_event unit :=
  _ ← set_deadline true;
  params ← pgStartup;
  match params !! cancelKeyParam with
  | Some raw => pgCancel l raw
  | None =>
     if negb (get params sslParam =s lit "1") then
       _ ← pgFatal (lit "08004") (lit "TLS is required");
       throw (Errorf "TLS required" [])
     else
       _ ← write [chr "S"];
       _ ← tls_handshake;
       pg_secure_phase l
  end.
End session.

Arguments pg_message : simpl never.
Arguments fatal_body : simpl never.
Arguments cancel_message : simpl never.
Arguments key_data : simpl never.
