(* ===== verification/PostgresSpec.v ===== *)
(** * PostgreSQL: the message parsers

    The startup parser against its grammar (both directions), the termination
    of its loop, and the password message. *)
From S2P Require Import Prelude GoStrings Wire Conn NetAddr Config MySQL Postgres.
#[local] Open Scope Z_scope.

(** ** Startup parameters *)
Abbreviation params := (list (gostring * gostring)).

(** Keys are not empty, and neither keys nor values hold a NUL. *)
Definition proper (kvs : params) : Prop :=
  Forall (λ kv, kv.1 ≠ [] ∧ (NUL ∉ kv.1) ∧ (NUL ∉ kv.2)) kvs.

Definition flat (kvs : params) : list gostring := kvs ≫= λ kv, [kv.1; kv.2].

(** Keys and values as a client sends them, before the final terminator. *)
Definition params_body (kvs : params) : list byte := terminated NUL (flat kvs).

(** A repeated key keeps its last value. *)
Definition params_map (m : gmap gostring gostring) (kvs : params) : gmap gostring gostring :=
  foldl (λ m kv, <[kv.1 := kv.2]> m) m kvs.

Lemma empty_false' (a : gostring) : a ≠ [] → empty a = false.
Proof. intros. by apply bool_decide_eq_false. Qed.

Lemma pg_pairs_flat m kvs : proper kvs → pg_pairs m (flat kvs) = Ok (params_map m kvs).
Proof.
  intros Hk. revert m. induction Hk as [|[k v] kvs (Hne & _ & _) Hk IH]; intros m; [done|].
  cbn in *. rewrite empty_false' by done. apply IH.
Qed.

Lemma pg_pairs_inv fields m m' :
  Nat.even (length fields) = true → Forall (λ w, NUL ∉ w) fields →
  pg_pairs m fields = Ok m' →
  ∃ kvs, proper kvs ∧ fields = flat kvs ∧ m' = params_map m kvs.
Proof.
  revert m. induction fields as [|k|k v fields IH] using list_pair_ind; intros m Hev Hn.
  - intros [= <-]. exists []. by repeat constructor.
  - discriminate Hev.
  - cbn. rewrite guard_bind_Ok. intros [Hk Hp]. apply bool_decide_eq_false in Hk.
    inversion_clear Hn as [|?? Hnk Hn']. inversion_clear Hn' as [|?? Hnv Hn].
    destruct (IH _ Hev Hn Hp) as (kvs & Hkvs & -> & ->).
    exists ((k, v) :: kvs). split_and!; [constructor; [cbn; tauto|done]|done..].
Qed.

Lemma length_flat kvs : length (flat kvs) = (2 * length kvs)%nat.
Proof.
  induction kvs as [|kv kvs IH]; [done|]. unfold flat in *.
  rewrite bind_cons, length_app, IH. cbn [length]. lia.
Qed.

Lemma flat_pieces kvs : proper kvs → Forall (λ w, NUL ∉ w) (flat kvs).
Proof. induction 1 as [|[k v] kvs (_ & Hk & Hv) _ IH]; cbn; by repeat constructor. Qed.

Lemma index_z_last {A} (l : list A) x :
  index_z (l ++ [x]) (Z.of_nat (length (l ++ [x])) - 1) = Ok x.
Proof.
  rewrite length_app. unfold index_z.
  destruct (Z.ltb_spec (Z.of_nat (length l + length [x]) - 1) 0); cbn [length] in *; [lia|].
  replace (Z.to_nat (Z.of_nat (length l + 1) - 1)) with (length l) by lia.
  apply index_go_ok. by rewrite list_lookup_middle.
Qed.

Lemma slice_to_z_last {A} (l : list A) x :
  slice_to_z (l ++ [x]) (Z.of_nat (length (l ++ [x])) - 1) = Ok l.
Proof.
  rewrite length_app. unfold slice_to_z.
  destruct (Z.ltb_spec (Z.of_nat (length l + length [x]) - 1) 0); cbn [length] in *; [lia|].
  replace (Z.to_nat (Z.of_nat (length l + 1) - 1)) with (length l) by lia.
  rewrite slice_to_ok by len_solve. by rewrite take_app_length.
Qed.

(** The parser on a body given by its last byte, and by its last field. *)
Lemma pg_parameters_snoc body c :
  pg_parameters (body ++ [c]) =
    if decide (c = NUL) then
      last ← index_z (split_byte body NUL) (Z.of_nat (length (split_byte body NUL)) - 1);
      fields ← (if empty last
                then slice_to_z (split_byte body NUL) (Z.of_nat (length (split_byte body NUL)) - 1)
                else Ok (split_byte body NUL));
      _ ← guard_err (negb (Nat.even (length fields))) bad_params;
      pg_pairs ∅ fields
    else Err bad_params.
Proof.
  unfold pg_parameters.
  destruct (Z.eqb_spec (Z.of_nat (length (body ++ [c]))) 0) as [H0|_].
  { rewrite length_app in H0. cbn [length] in H0. lia. }
  rewrite index_z_last, !Ok_bind, slice_to_z_last, bool_decide_decide.
  destruct (decide (c = NUL)); [|done]. cbn [negb guard_err]. by rewrite !Ok_bind.
Qed.

Lemma split_last body :
  ∃ fs w, split_byte body NUL = fs ++ [w] ∧ Forall (λ w, NUL ∉ w) fs ∧ (NUL ∉ w) ∧
    body = terminated NUL fs ++ w.
Proof.
  destruct (exists_last (split_byte_not_nil NUL body)) as (fs & w & Hs).
  pose proof (split_byte_pieces NUL body) as Hp. rewrite Hs, Forall_app, Forall_singleton in Hp.
  exists fs, w. split_and!; try tauto.
  rewrite <- (join_split NUL body), Hs. apply (inj (.++ [NUL])).
  rewrite <- terminated_join by (by destruct fs).
  rewrite terminated_app, <- app_assoc. unfold terminated at 2. cbn. by rewrite app_nil_r.
Qed.

(** C40: The body of a startup message is accepted exactly when it is a sequence of
    NUL-terminated pairs with non-empty names, with its final NUL, or without it after
    a non-empty last value; the result maps each name to its last value. *)
Theorem pg_parameters_iff b m :
  pg_parameters b = Ok m ↔
  ∃ kvs, proper kvs ∧ m = params_map ∅ kvs ∧
    (b = params_body kvs ++ [NUL] ∨
     b = params_body kvs ∧ ∃ kvs' k v, kvs = kvs' ++ [(k, v)] ∧ v ≠ []).
Proof.
  split.
  - destruct b as [|c body _] using rev_ind; [done|]. rewrite pg_parameters_snoc.
    destruct (decide (c = NUL)) as [->|]; [|done].
    destruct (split_last body) as (fs & w & Hs & Hfs & Hw & ->).
    rewrite Hs, index_z_last, Ok_bind. destruct (empty w) eqn:He.
    + apply bool_decide_eq_true in He as ->.
      rewrite slice_to_z_last, Ok_bind, guard_bind_Ok. intros [Hev Hp].
      apply negb_false_iff in Hev.
      destruct (pg_pairs_inv _ _ _ Hev Hfs Hp) as (kvs & Hk & -> & ->).
      exists kvs. rewrite app_nil_r. auto.
    + apply bool_decide_eq_false in He. rewrite Ok_bind, guard_bind_Ok. intros [Hev Hp].
      apply negb_false_iff in Hev.
      destruct (pg_pairs_inv (fs ++ [w]) ∅ m) as (kvs & Hk & Heq & ->); [done| |done|].
      { apply Forall_app. auto. }
      exists kvs. split_and!; [done..|]. right. split.
      * unfold params_body. rewrite <- Heq, terminated_app, <- app_assoc.
        f_equal. unfold terminated. cbn. by rewrite app_nil_r.
      * destruct kvs as [|[k v] kvs' _] using rev_ind; [by destruct fs|].
        exists kvs', k, v. split; [done|]. unfold flat in Heq. rewrite bind_app in Heq.
        cbn in Heq. rewrite (app_assoc _ [k] [v]) in Heq. by apply app_inj_tail in Heq as [_ ->].
  - intros (kvs & Hk & -> & Hb). pose proof (flat_pieces _ Hk) as Hfs.
    assert (Hrun : (_ ← guard_err (negb (Nat.even (length (flat kvs)))) bad_params;
      pg_pairs ∅ (flat kvs)) = Ok (params_map ∅ kvs)).
    { rewrite length_flat, Nat.even_mul. cbn. by apply pg_pairs_flat. }
    destruct Hb as [->|[-> (kvs' & k & v & -> & Hv)]].
    + rewrite pg_parameters_snoc, decide_True by done. unfold params_body.
      rewrite (split_terminated _ _ Hfs), index_z_last, slice_to_z_last.
      by rewrite !Ok_bind.
    + unfold params_body. rewrite (terminated_join NUL (flat (kvs' ++ [(k, v)]))).
      2:{ unfold flat. rewrite bind_app. by destruct (kvs' ≫= _). }
      rewrite pg_parameters_snoc, decide_True by done.
      rewrite split_join; [|by destruct kvs' as [|[]]|done].
      assert (flat (kvs' ++ [(k, v)]) = (flat kvs' ++ [k]) ++ [v]) as Hflat.
      { unfold flat. rewrite bind_app, <- app_assoc. done. }
      rewrite Hflat, index_z_last, Ok_bind, empty_false' by done. rewrite Ok_bind, <- Hflat. done.
Qed.

(** The parser never indexes out of range and never meets an odd field. *)
Lemma pg_pairs_no_panic m fields :
  Nat.even (length fields) = true → no_panic (pg_pairs m fields).
Proof.
  revert m. induction fields as [|k|k v fields IH] using list_pair_ind; intros m Hev; [done..|].
  cbn. apply no_panic_bind; [apply no_panic_guard|]. intros _ _. by apply IH.
Qed.

Lemma pg_parameters_no_panic b : no_panic (pg_parameters b).
Proof.
  destruct b as [|c body _] using rev_ind; [done|]. rewrite pg_parameters_snoc.
  case_decide; [|done]. destruct (split_last body) as (fs & w & -> & _).
  rewrite index_z_last, Ok_bind. apply no_panic_bind.
  - destruct (empty w); [by rewrite slice_to_z_last|done].
  - intros fields _. apply no_panic_bind; [apply no_panic_guard|].
    intros _ Hev%guard_err_Ok%negb_false_iff. by apply pg_pairs_no_panic.
Qed.

(** ** The startup message on the wire *)
Definition gss_request : list byte := be_bytes 4 8 ++ be_bytes 4 80877104.
Definition gss (k : nat) : list byte := mjoin (replicate k gss_request).
Definition pg_ssl_request (n : Z) : list byte := be_bytes 4 n ++ be_bytes 4 80877103.
Definition startup_packet (body : list byte) : list byte :=
  be_bytes 4 (8 + Z.of_nat (length body)) ++ be_bytes 4 196608 ++ body.
Definition password_packet (pw : list byte) : list byte := pg_message (chr "p") (pw ++ [NUL]).

(** What a client stream starts with, what [pgStartup] makes of it, and the rest
    of the stream. *)
Inductive started (inp : list byte) : gmap gostring gostring → list byte → Prop :=
  | st_cancel k key rest :
      inp = gss k ++ cancel_message key ++ rest → length key = 8%nat →
      started inp {[ cancelKeyParam := key ]} rest
  | st_ssl k n rest :
      inp = gss k ++ pg_ssl_request n ++ rest → 8 <= n <= 2 ^ 20 →
      started inp {[ sslParam := lit "1" ]} rest
  | st_params k body m rest :
      inp = gss k ++ startup_packet body ++ rest → Z.of_nat (length body) <= 2 ^ 20 - 8 →
      pg_parameters body = Ok m → started inp m rest.

Lemma started_gss inp m rest : started inp m rest → started (gss_request ++ inp) m rest.
Proof.
  intros [k key r -> ?|k n r -> ?|k body m' r -> ? ?];
    [eapply (st_cancel _ (S k))|eapply (st_ssl _ (S k))|eapply (st_params _ (S k))]; try done;
    unfold gss; cbn [replicate]; by rewrite <- app_assoc.
Qed.

Section startup.
Context {X : Type}.
Implicit Types s : hstate X.

(** A head of eight bytes is two big-endian words. *)
Lemma be_uint_head (h : list byte) :
  length h = 8%nat →
  ∃ n code, 0 <= n < 2 ^ 32 ∧ 0 <= code < 2 ^ 32 ∧ h = be_bytes 4 n ++ be_bytes 4 code ∧
    slice_to h 4 = Ok (take 4 h) ∧ be_uint 4 (take 4 h) = Ok n ∧
    slice_from h 4 = Ok (drop 4 h) ∧ be_uint 4 (drop 4 h) = Ok code.
Proof.
  intros Hh. exists (be_val (take 4 h)), (be_val (drop 4 h)).
  pose proof (be_val_range (take 4 h)) as Hn. pose proof (be_val_range (drop 4 h)) as Hc.
  pose proof (be_bytes_val (take 4 h)) as Hbn. pose proof (be_bytes_val (drop 4 h)) as Hbc.
  rewrite length_take, Hh in Hn, Hbn. rewrite length_drop, Hh in Hc, Hbc.
  change (4 `min` 8)%nat with 4%nat in *. change (8 - 4)%nat with 4%nat in *.
  rewrite Hbn, Hbc, take_drop. split; [exact Hn|]. split; [exact Hc|]. split; [done|].
  split_and!.
  - apply slice_to_ok. lia.
  - rewrite be_uint_ok by (rewrite length_take; lia). rewrite take_take. done.
  - apply slice_from_ok. lia.
  - rewrite be_uint_ok by (rewrite length_drop; lia).
    by rewrite take_ge by (rewrite length_drop; lia).
Qed.

Lemma wp_pgStartup_loop (fuel : nat) (Q : res (gmap gostring gostring) → hstate X → Prop) s :
  (length (inp s) < fuel)%nat →
  (∀ m rest s', started (inp s) m rest → inp s' = rest → talked (eq [chr "N"]) s s' → Q (Ok m) s') →
  (∀ e s', talked (eq [chr "N"]) s s' → Q (Err e) s') →
  wp (pgStartup_loop fuel) Q s.
Proof.
  revert s Q. induction fuel as [|fuel IH]; intros s Q Hf Hok Herr; [lia|].
  cbn [pgStartup_loop]. apply wp_bind, wp_readFull; [|intros e; by apply Herr, talked_read].
  intros h rest Hi Hh.
  destruct (be_uint_head h Hh) as (n & code & Hn & Hc & -> & Hs1 & Hs2 & Hs3 & Hs4).
  apply wp_bind, wp_lift. rewrite Hs1. apply wp_bind, wp_lift. rewrite Hs2.
  apply wp_bind, wp_lift. rewrite Hs3. apply wp_bind, wp_lift. rewrite Hs4.
  apply wp_bind, wp_check; [intros _; by apply Herr, talked_read|].
  intros [Hn8 Hn20]%orb_false_iff. apply Z.ltb_ge in Hn8, Hn20.
  rewrite <- app_assoc in Hi.
  destruct (Z.eqb_spec code 80877104) as [->|Hc1].
  { apply wp_bind, wp_check; [intros _; by apply Herr, talked_read|].
    intros ->%negb_false_iff%Z.eqb_eq.
    apply wp_bind, wp_write. intros r s1 Hw Hi1 Hr.
    assert (talked (eq [chr "N"]) s s1) as Ht by (eapply talked_trans; [by apply talked_read|done]).
    destruct r as [[]|e|]; [|by apply Herr|done].
    apply IH.
    - rewrite Hi1. cbn. rewrite Hi in Hf. rewrite !length_app in Hf.
      rewrite !length_be_bytes in Hf. lia.
    - intros m rest' s' Hst Hi' Ht'. eapply Hok; [|done|by eapply talked_trans].
      rewrite Hi1 in Hst. cbn in Hst. rewrite Hi, app_assoc. by apply started_gss.
    - intros e s' Ht'. apply Herr. by eapply talked_trans. }
  destruct (Z.eqb_spec code 80877102) as [->|Hc2].
  { apply wp_bind, wp_check; [intros _; by apply Herr, talked_read|].
    intros ->%negb_false_iff%Z.eqb_eq.
    apply wp_bind, wp_readFull; [|intros e; by apply Herr, talked_read].
    intros key rest' Hi' Hkey. cbn in Hi'. subst rest.
    eapply Hok; [|done|by apply talked_read]. eapply (st_cancel _ 0); [|done].
    rewrite Hi. unfold cancel_message. by rewrite <- !app_assoc. }
  destruct (Z.eqb_spec code 80877103) as [->|Hc3].
  { eapply Hok; [|done|by apply talked_read]. eapply (st_ssl _ 0 n); [|lia].
    rewrite Hi. unfold pg_ssl_request. by rewrite <- app_assoc. }
  apply wp_bind, wp_check; [intros _; by apply Herr, talked_read|].
  intros ->%negb_false_iff%Z.eqb_eq.
  apply wp_bind, wp_readFull; [|intros e; by apply Herr, talked_read].
  intros b rest' Hi' Hb. cbn in Hi'. subst rest. apply wp_lift.
  destruct (pg_parameters b) as [m|e|] eqn:Hp.
  - eapply Hok; [|done|by apply talked_read]. eapply (st_params _ 0); [| |done].
    + rewrite Hi. unfold startup_packet. rewrite Hb, <- !app_assoc.
      by replace (8 + Z.of_nat (Z.to_nat (n - 8))) with n by lia.
    + lia.
  - by apply Herr, talked_read.
  - by destruct (pg_parameters_no_panic b).
Qed.
End startup.
