(* ===== verification/PostgresSession.v ===== *)
(** * PostgreSQL sessions against their protocol

    The order of events every run of [servePostgres] keeps to, as a labelled
    step relation, and the refinement of it by the handler. *)
From S2P Require Import Prelude GoStrings Wire Conn NetAddr NetAddrSpec Config MySQL Postgres PostgresSpec.
#[local] Open Scope Z_scope.

(** ** Messages as one step *)
Section messages.
Context {X : Type}.
Implicit Types s : hstate X.

Lemma wp_pgStartup (Q : res (gmap gostring gostring) → hstate X → Prop) s :
  (∀ m rest s', started (inp s) m rest → inp s' = rest → talked (eq [chr "N"]) s s' → Q (Ok m) s') →
  (∀ e s', talked (eq [chr "N"]) s s' → Q (Err e) s') →
  wp pgStartup Q s.
Proof. intros. unfold wp, pgStartup. apply wp_pgStartup_loop; auto with lia. Qed.

Lemma wp_pgWrite typ body (Q : res unit → hstate X → Prop) s :
  (∀ r s', talked (eq (pg_message typ body)) s s' → inp s' = inp s → r ≠ Panic → Q r s') →
  wp (pgWrite typ body) Q s.
Proof. apply wp_write. Qed.

Lemma wp_pgFatal code msg (Q : res unit → hstate X → Prop) s :
  (∀ s', talked (eq (pg_message (chr "E") (fatal_body code msg))) s s' → Q (Ok tt) s') →
  wp (pgFatal code msg) Q s.
Proof.
  intros HQ. apply wp_ignore, wp_pgWrite. intros [[]|e|] s' Hw _ Hr; [by apply HQ..|done].
Qed.

Lemma wp_pgPassword (Q : res gostring → hstate X → Prop) s :
  (∀ pw rest, inp s = password_packet pw ++ rest → Q (Ok pw) (with_inp rest s)) →
  (∀ e s', talked (λ _, False) s s' → Q (Err e) s') →
  wp pgPassword Q s.
Proof.
  intros Hok Herr. apply wp_bind, wp_readFull; [|intros e; by apply Herr, talked_read].
  intros h rest Hi Hh. destruct h as [|c h]; [done|]. cbn in Hh.
  apply wp_bind, wp_lift. cbn [index_go lookup list_lookup].
  apply wp_bind, wp_check; [intros _; by apply Herr, talked_read|].
  intros ->%negb_false_iff%bool_decide_eq_true.
  apply wp_bind, wp_lift. rewrite slice_from_ok by (cbn; lia). cbn [drop]. rewrite drop_0.
  apply wp_bind, wp_lift. rewrite be_uint_ok by lia. rewrite take_ge by lia.
  pose proof (be_bytes_val h) as Hb. replace (length h) with 4%nat in Hb by lia.
  remember (be_val h) as n eqn:Hn. clear Hn.
  apply wp_bind, wp_check; [intros _; by apply Herr, talked_read|].
  intros [Hn5 Hn20]%orb_false_iff. apply Z.ltb_ge in Hn5, Hn20.
  apply wp_bind, wp_readFull; [|intros e; by apply Herr, talked_read].
  intros b rest' Hi' Hlen. cbn in Hi'. subst rest.
  destruct b as [|c pw _] using rev_ind; [cbn in Hlen; lia|].
  apply wp_bind, wp_lift. rewrite index_z_last.
  apply wp_bind, wp_check; [intros _; by apply Herr, talked_read|].
  intros ->%negb_false_iff%bool_decide_eq_true.
  apply wp_lift. rewrite slice_to_z_last. apply Hok.
  rewrite Hi. unfold password_packet, pg_message. rewrite Hlen, <- Hb.
  replace (4 + Z.of_nat (Z.to_nat (n - 4))) with n by lia. by rewrite <- !app_assoc.
Qed.
End messages.

(** ** The session protocol *)
Inductive pg_phase :=
  | PPlain                             (* before TLS *)
  | PSecure                            (* TLS is up, nothing accepted *)
  | PChecked (params : gmap gostring gostring) (pw : gostring)
  | PConnected (lg : pgLogin)
  | PRegistered (key : gostring)       (* cancel requests find the session *)
  | PReady (key : gostring)            (* the deadline is lifted *)
  | PRelaying (key : gostring)
  | PUnregistered
  | PClosed (relayed : bool)
  | PLooked (tls : bool) (raw : gostring)   (* the registry was asked for [raw] *)
  | PCancelling (tls : bool) (raw : gostring)
  | PCancelSent (tls : bool)
  | PCancelled (tls : bool).

Definition pg_under_tls (ph : pg_phase) : bool :=
  match ph with
  | PPlain => false
  | PLooked tls _ | PCancelling tls _ | PCancelSent tls | PCancelled tls => tls
  | _ => true
  end.

(** The key a session has in the registry. *)
Definition live_key (ph : pg_phase) : option gostring :=
  match ph with PRegistered key | PReady key | PRelaying key => Some key | _ => None end.

Section protocol.
Context `{GoUnicode}.
Context (Validate : Listener → gostring → gostring → res Principal).
Context (base_config : goerr + gmap gostring gostring).
Context (connect : pgLogin → option pgBackend).
Context (load : gostring → option gostring).
Context (l : Listener) (tls0 : option (list byte * goerr)).

(** The parameters and the password judged are those of the client's startup and
    password messages under TLS, at the head of its stream. *)
Definition pg_presented (params : gmap gostring gostring) (pw : gostring) : Prop :=
  ∃ k body rest f, tls0 = Some (gss k ++ startup_packet body ++ password_packet pw ++ rest, f) ∧
    pg_parameters body = Ok params.

(** All that is ever written in the clear. *)
Definition pg_plain_write (b : list byte) : Prop :=
  b = [chr "N"] ∨ b = [chr "S"] ∨
  b = pg_message (chr "E") (fatal_body (lit "08004") (lit "TLS is required")).

Inductive pg_step : pg_phase → event pg_event → pg_phase → Prop :=
  | ps_deadline : pg_step PPlain (EvDeadline true) PPlain
  | ps_plain_write b : pg_plain_write b → pg_step PPlain (EvWrite false b) PPlain
  | ps_tls : pg_step PPlain EvTLS PSecure
  | ps_write ph b : pg_under_tls ph = true → pg_step ph (EvWrite true b) ph
  | ps_validate params pw : pg_presented params pw → get params (lit "user") ≠ [] →
      pg_step PSecure (EvX (PgValidate (get params (lit "user")) pw)) (PChecked params pw)
  | ps_connect params pw p mode lg :
      Validate l (get params (lit "user")) pw = Ok p →
      pgReplicationMode (get params (lit "replication")) = Ok mode →
      pg_login base_config l p params mode = Ok lg →
      pg_step (PChecked params pw) (EvX (PgConnect lg)) (PConnected lg)
  | ps_drop lg : pg_step (PConnected lg) (EvX PgBackendClose) (PClosed false)
  | ps_register lg b h :
      connect lg = Some b → pb_sync b = None → pb_hijack b = inr h →
      length (SecretKey h) = 4%nat →
      pg_step (PConnected lg) (EvX (PgRegister (Name l ++ key_data h) (Upstream l)))
        (PRegistered (Name l ++ key_data h))
  | ps_ready key : pg_step (PRegistered key) (EvDeadline false) (PReady key)
  | ps_relay key : pg_step (PReady key) (EvX PgRelay) (PRelaying key)
  | ps_unregister key : pg_step (PRelaying key) (EvX (PgUnregister key)) PUnregistered
  | ps_close : pg_step PUnregistered (EvX PgBackendClose) (PClosed true)
  | ps_load ph raw :
      ph = PPlain ∨ ph = PSecure → length raw = 8%nat →
      pg_step ph (EvX (PgLoad (Name l ++ raw) (load (Name l ++ raw)))) (PLooked (pg_under_tls ph) raw)
  | ps_cancel tls raw upstream :
      load (Name l ++ raw) = Some upstream →
      pg_step (PLooked tls raw) (EvX (PgDial upstream)) (PCancelling tls raw)
  | ps_cancel_write tls raw :
      pg_step (PCancelling tls raw) (EvX (PgDialWrite (cancel_message raw))) (PCancelSent tls)
  | ps_cancel_close tls :
      pg_step (PCancelSent tls) (EvX PgDialClose) (PCancelled tls).

Abbreviation pg_at := (at_phase pg_step PPlain pg_under_tls).

Lemma pg_at_tls W ph s s' : pg_at ph s → talked W s s' → pg_under_tls ph = true → pg_at ph s'.
Proof.
  intros Hat Ht Hu. eapply at_phase_talked; [done..|]. intros w _. rewrite Hu. by constructor.
Qed.

Lemma pg_at_read ph l' s : pg_at ph s → pg_at ph (with_inp l' s).
Proof. done. Qed.

(** How a run may end: without a panic and with nothing left in the registry; with
    success when the relay ran, and otherwise only for a cancel request that was sent
    on or found no session. *)
Definition pg_end (r : res unit) (tls : bool) (ph : pg_phase) : Prop :=
  live_key ph = None ∧ (ph = PClosed true → r = Ok tt) ∧
  (r = Ok tt → ph = PClosed true ∨ ph = PCancelled tls ∨
     ∃ raw, ph = PLooked tls raw ∧ length raw = 8%nat ∧ load (Name l ++ raw) = None).

Definition pg_ended (r : res unit) (s : hstate pg_event) : Prop :=
  r ≠ Panic ∧ ∃ ph, pg_at ph s ∧ pg_end r (secure s) ph.

Lemma pg_ended_err e ph s : pg_at ph s → live_key ph = None → ph ≠ PClosed true → pg_ended (Err e) s.
Proof. intros Hat Hk Hne. split; [done|]. exists ph. by split_and!. Qed.

Lemma pg_statuses_wp m keys (Q : res unit → hstate pg_event → Prop) s :
  (∀ r s', talked (λ _, True) s s' → r ≠ Panic → Q r s') → wp (pg_statuses m keys) Q s.
Proof.
  revert s Q. induction keys as [|k keys IH]; intros s Q HQ; cbn [pg_statuses].
  - apply HQ; [apply talked_refl|done].
  - apply wp_bind, wp_pgWrite. intros r s' Ht _ Hr.
    assert (talked (λ _, True) s s') as Ht' by (by eapply talked_mono).
    destruct r as [[]|e|]; [|by apply HQ|done].
    apply IH. intros r s'' Ht'' Hr'. apply HQ; [by eapply talked_trans|done].
Qed.

(** A fallible write under TLS in a phase that may fail. *)
Lemma wp_step_write ph typ body (k : M pg_event unit) (I : res unit → hstate pg_event → Prop) s :
  pg_at ph s → pg_under_tls ph = true →
  (∀ s', pg_at ph s' → inp s' = inp s → wp k I s') →
  (∀ e s', pg_at ph s' → I (Err e) s') →
  wp (_ ← pgWrite typ body; k) I s.
Proof.
  intros Hat Hu Hk He. apply wp_bind, wp_pgWrite. intros r s' Ht Hi Hr.
  eapply pg_at_tls in Hat; [|done..]. destruct r as [[]|e|]; [by apply Hk|by apply He|done].
Qed.

(** The refusals: a fatal message, then the error. *)
Lemma refuse_ends ph code msg e s :
  pg_at ph s → pg_under_tls ph = true → live_key ph = None → ph ≠ PClosed true →
  wp (_ ← pgFatal code msg; throw (A := unit) e) pg_ended s.
Proof.
  intros Hat Hu Hk Hne. apply wp_bind, wp_pgFatal. intros s' Ht. apply wp_lift.
  eapply pg_ended_err; [by eapply pg_at_tls|done..].
Qed.

Lemma wp_deferred {A} (d : pg_event) (m : M pg_event A) (Q : res A → hstate pg_event → Prop) s :
  wp m (λ r s', Q r (add_event (EvX d) s')) s → wp (deferred d m) Q s.
Proof. unfold wp, deferred. by destruct (m s). Qed.

Lemma pg_handoff_ends lg b h s :
  connect lg = Some b → pb_sync b = None → pb_hijack b = inr h → pg_at (PConnected lg) s →
  wp (deferred PgBackendClose (pg_handoff l h)) pg_ended s.
Proof.
  intros Hc Hsy Hhj Hat. apply wp_deferred.
  assert (∀ e s', pg_at (PConnected lg) s' → pg_ended (Err e) (add_event (EvX PgBackendClose) s')) as Herr.
  { intros e s' Hat'. apply (pg_ended_err _ (PClosed false)); [|done..].
    eapply at_phase_event; [done|constructor|done]. }
  unfold pg_handoff. eapply wp_step_write; [done..| |apply Herr]. intros s1 Hat1 _.
  apply wp_bind, pg_statuses_wp. intros r s2 Ht Hr.
  assert (pg_at (PConnected lg) s2) as Hat2 by (by eapply pg_at_tls).
  destruct r as [[]|e|]; [|by apply Herr|done].
  apply wp_bind, wp_check; [intros _; by apply Herr|].
  intros Hkey%negb_false_iff%bool_decide_eq_true.
  eapply wp_step_write; [done..| |apply Herr]. intros s3 Hat3 _.
  eapply wp_step_write; [done..| |apply Herr]. intros s4 Hat4 _.
  apply wp_bind. unfold wp at 1. cbn [emit fst snd]. apply wp_deferred.
  unfold wp. cbn. split; [done|]. exists (PClosed true). split; [|split_and!; by auto].
  do 4 (eapply at_phase_event; [|by constructor|done]).
  eapply at_phase_event; [done|by eapply ps_register|done].
Qed.

Lemma pg_backend_ends params pw p mode lg s :
  Validate l (get params (lit "user")) pw = Ok p →
  pgReplicationMode (get params (lit "replication")) = Ok mode →
  pg_login base_config l p params mode = Ok lg →
  pg_at (PChecked params pw) s →
  wp (pg_backend connect l lg) pg_ended s.
Proof.
  intros Hv Hm Hl Hat. apply wp_bind. unfold wp at 1. cbn [emit fst snd].
  assert (pg_at (PConnected lg) (add_event (EvX (PgConnect lg)) s)) as Hat'
    by (eapply at_phase_event; [done|by eapply ps_connect|done]).
  destruct (connect lg) as [b|] eqn:Hc; [|by eapply refuse_ends].
  destruct (pb_sync b) as [e|] eqn:Hsy.
  - apply (pg_ended_err _ (PClosed false)); [|done..].
    eapply at_phase_event; [done|constructor|done].
  - destruct (pb_hijack b) as [e|h] eqn:Hh; [|by eapply pg_handoff_ends].
    apply (pg_ended_err _ (PClosed false)); [|done..].
    eapply at_phase_event; [done|constructor|done].
Qed.

Context (dial : gostring → option goerr) (cancel_write : option goerr).

Lemma pgCancel_ends ph raw s :
  ph = PPlain ∨ ph = PSecure → pg_at ph s →
  wp (pgCancel load dial cancel_write l raw) pg_ended s.
Proof.
  intros Hph Hat. assert (ph ≠ PClosed true ∧ live_key ph = None) as [Hne Hk] by (by destruct Hph as [-> | ->]).
  apply wp_bind, wp_check; [intros _; by apply (pg_ended_err _ ph)|].
  intros Hlen%negb_false_iff%bool_decide_eq_true. cbv zeta. pose proof Hat as [_ Hs].
  apply wp_bind. unfold wp at 1. cbn [emit fst snd]. set (tls := pg_under_tls ph) in *.
  assert (pg_at (PLooked tls raw) (add_event (EvX (PgLoad (Name l ++ raw) (load (Name l ++ raw)))) s)) as Hat0
    by (eapply at_phase_event; [done|by constructor|done]).
  destruct (load (Name l ++ raw)) as [upstream|] eqn:Hl.
  - eapply (at_phase_event _ _ _ _ (PCancelling tls raw) (EvX (PgDial upstream))) in Hat0; [|by constructor|done].
    apply wp_bind. unfold wp at 1. cbn [emit fst snd]. apply wp_bind, wp_lift.
    destruct (dial upstream) as [e|]; cbn [of_error]; [by apply (pg_ended_err _ (PCancelling tls raw))|].
    eapply (at_phase_event _ _ _ _ (PCancelSent tls) (EvX (PgDialWrite (cancel_message raw)))) in Hat0; [|by constructor|done].
    eapply (at_phase_event _ _ _ _ (PCancelled tls) (EvX PgDialClose)) in Hat0; [|by constructor|done].
    apply wp_deferred, wp_bind. unfold wp at 1. cbn [emit fst snd]. apply wp_lift.
    destruct cancel_write as [e|]; cbn [of_error]; [by apply (pg_ended_err _ (PCancelled tls))|].
    split; [done|]. exists (PCancelled tls). split; [exact Hat0|]. split_and!; [done..|].
    intros _. right. left. cbn. by rewrite Hs.
  - split; [done|]. exists (PLooked tls raw). split; [done|]. split_and!; [done..|]. intros _. right. right.
    exists raw. cbn. by rewrite Hs.
Qed.

Lemma pg_upstream_no_panic : no_panic (pg_upstream l).
Proof.
  apply no_panic_bind; [apply SplitHostPort_no_panic|]. intros [host port] _.
  apply no_panic_bind; [apply no_panic_wrap, atoi_no_panic|]. intros n _.
  apply no_panic_bind; [apply no_panic_guard|]. done.
Qed.

Lemma pg_login_no_panic p params mode : no_panic (pg_login base_config l p params mode).
Proof.
  apply no_panic_bind; [apply pg_upstream_no_panic|]. intros [host port] _.
  apply no_panic_bind; [by destruct base_config|done].
Qed.

Lemma pgReplicationMode_no_panic v : no_panic (pgReplicationMode v).
Proof. unfold pgReplicationMode. repeat destruct (one_of _ _); done. Qed.

Hypothesis Validate_no_panic : ∀ u pw, Validate l u pw ≠ Panic.

(** The state [pgStartup] leaves under TLS, with what it consumed. *)
Lemma pg_login_phase_ends k body params s :
  tls0 = Some (gss k ++ startup_packet body ++ inp s, fin s) →
  pg_parameters body = Ok params → pg_at PSecure s →
  wp (pg_login_phase Validate base_config connect l params) pg_ended s.
Proof.
  intros Htls Hp Hat. unfold pg_login_phase. cbv zeta.
  destruct (empty (get params (lit "user"))) eqn:Huser; [by eapply refuse_ends|].
  apply bool_decide_eq_false in Huser.
  destruct (pgReplicationMode _) as [mode|e|] eqn:Hmode;
    [|by eapply refuse_ends|by destruct (pgReplicationMode_no_panic (get params (lit "replication")))].
  apply wp_bind, wp_pgWrite. intros r s1 Ht Hi Hr.
  assert (fin s1 = fin s) as Hfin by (by destruct Ht as (_ & _ & -> & _)).
  eapply pg_at_tls in Hat; [|done..].
  destruct r as [[]|e|]; [|by apply (pg_ended_err _ PSecure)|done].
  apply wp_bind, wp_pgPassword.
  2:{ intros e s2 Ht2. apply (pg_ended_err _ PSecure); [by eapply pg_at_tls|done..]. }
  intros pw rest Hi2. apply wp_bind. unfold wp at 1. cbn [emit fst snd].
  assert (pg_at (PChecked params pw)
    (add_event (EvX (PgValidate (get params (lit "user")) pw)) (with_inp rest s1))) as Hat1.
  { eapply at_phase_event; [by apply pg_at_read| |done]. constructor; [|done].
    exists k, body, rest, (fin s). by rewrite Htls, <- Hi, Hi2. }
  destruct (Validate l _ pw) as [p|e|] eqn:Hv; [|by eapply refuse_ends|by destruct (Validate_no_panic _ _ Hv)].
  apply wp_bind, wp_lift. pose proof (pg_login_no_panic p params mode) as Hnp.
  destruct (pg_login _ l p params mode) as [lg|e|] eqn:Hlg; [|by apply (pg_ended_err _ (PChecked params pw))|done].
  by eapply pg_backend_ends.
Qed.

Lemma started_params inp m rest :
  started inp m rest → m !! cancelKeyParam = None → get m sslParam = [] →
  ∃ k body, inp = gss k ++ startup_packet body ++ rest ∧ pg_parameters body = Ok m.
Proof.
  intros [k key r Hi Hl|k n r Hi Hn|k body m' r Hi Hb Hp] Hc Hs.
  - by rewrite lookup_singleton_eq in Hc.
  - unfold get in Hs. by rewrite lookup_singleton_eq in Hs.
  - eauto.
Qed.

Lemma pg_secure_phase_ends s :
  tls0 = Some (inp s, fin s) → pg_at PSecure s →
  wp (pg_secure_phase Validate base_config connect load dial cancel_write l) pg_ended s.
Proof.
  intros Htls Hat. apply wp_bind, wp_pgStartup.
  2:{ intros e s' Ht. apply (pg_ended_err _ PSecure); [by eapply pg_at_tls|done..]. }
  intros params rest s' Hst Hi Ht.
  assert (fin s' = fin s) as Hfin by (by destruct Ht as (_ & _ & -> & _)).
  eapply pg_at_tls in Hat; [|done..].
  destruct (params !! cancelKeyParam) as [raw|] eqn:Hc; [apply (pgCancel_ends PSecure); auto|].
  apply wp_bind, wp_check; [intros _; by apply (pg_ended_err _ PSecure)|].
  intros Hssl%negb_false_iff%bool_decide_eq_true.
  destruct (started_params _ _ _ Hst Hc Hssl) as (k & body & Hinp & Hp).
  eapply pg_login_phase_ends; [|done..]. by rewrite Htls, Hinp, Hi, Hfin.
Qed.
End protocol.

Lemma servePostgres_follows `{GoUnicode} Validate base_config connect load dial cancel_write l
    (s : hstate pg_event) :
  (∀ u pw, Validate l u pw ≠ Panic) → trace s = [] → secure s = false →
  let '(r, s') := servePostgres Validate base_config connect load dial cancel_write l s in
  r ≠ Panic ∧
  ∃ ph, follows (pg_step Validate base_config connect load l (tls_in s)) PPlain (trace s') ph ∧
    pg_end load l r (secure s') ph.
Proof.
  intros Hnp Ht Hs. set (step := pg_step Validate base_config connect load l (tls_in s)).
  cut (wp (servePostgres Validate base_config connect load dial cancel_write l)
    (pg_ended Validate base_config connect load l (tls_in s)) s).
  { unfold wp, pg_ended, at_phase. destruct (servePostgres _ _ _ _ _ _ _ s) as [r s']. cbn.
    intros (? & ph & [? ?] & ?). eauto. }
  assert (at_phase step PPlain pg_under_tls PPlain (add_event (EvDeadline true) s)) as Hat.
  { split; [|done]. cbn. rewrite Ht. eapply follows_snoc; [apply follows_nil|constructor]. }
  assert (∀ w, [chr "N"] = w → step PPlain (EvWrite (pg_under_tls PPlain) w) PPlain) as HN.
  { intros w <-. constructor. by left. }
  apply wp_bind. unfold wp at 1. cbn [set_deadline fst snd].
  apply wp_bind, wp_pgStartup.
  2:{ intros e s' Ht'. apply (pg_ended_err _ _ _ _ _ _ _ PPlain); [by eapply at_phase_talked|done..]. }
  intros params rest s1 _ _ Ht1.
  assert (tls_in s1 = tls_in s) as Htls by (by destruct Ht1 as (_ & -> & _)).
  eapply at_phase_talked in Hat; [|done..].
  destruct (params !! cancelKeyParam) as [raw|]; [apply (pgCancel_ends _ _ _ _ _ _ _ _ PPlain); auto|].
  destruct (negb (get params sslParam =s lit "1")).
  { apply wp_bind, wp_pgFatal. intros s' Ht'. apply wp_lift.
    apply (pg_ended_err _ _ _ _ _ _ _ PPlain); [|done..]. eapply at_phase_talked; [done..|].
    intros w <-. constructor. by right; right. }
  apply wp_bind, wp_write. intros r s2 Ht2 _ Hr.
  assert (tls_in s2 = tls_in s) as Htls2 by (destruct Ht2 as (_ & -> & _); done).
  eapply at_phase_talked in Hat; [|done|intros w <-; constructor; by right; left].
  destruct r as [[]|e|]; [|by apply (pg_ended_err _ _ _ _ _ _ _ PPlain)|done].
  apply wp_bind. unfold wp at 1, tls_handshake. rewrite Htls2.
  destruct (tls_in s) as [[tl tf]|] eqn:Htin; [|by apply (pg_ended_err _ _ _ _ _ _ _ PPlain)].
  apply pg_secure_phase_ends; [done..|]. destruct Hat as [Hf _]. split; [|done].
  eapply follows_snoc; [exact Hf|constructor].
Qed.

(** C4: Every run of [servePostgres], on any client behaviour, follows the session
    protocol and does not panic. Only the answers to GSS and SSL requests and the
    refusal of a client without TLS are written in the clear; the credential judged is
    the one in the startup and password messages at the head of the TLS stream; the
    upstream is contacted only after authentication accepted it, as the principal's
    backend user; a cancel key is registered for the listener's own upstream and
    removed when the relay ends, so that no run leaves one behind; the relay runs
    after the deadline is lifted; a cancel request is looked up under this listener's
    name and the very key, sent only to the upstream found there, and its connection
    is closed. *)
Theorem servePostgres_session `{GoUnicode} `{Authenticator} base_config connect load dial cancel_write l
    (s : hstate pg_event) :
  trace s = [] → secure s = false →
  let '(r, s') := servePostgres authenticate base_config connect load dial cancel_write l s in
  r ≠ Panic ∧
  ∃ ph, follows (pg_step authenticate base_config connect load l (tls_in s)) PPlain (trace s') ph ∧
    live_key ph = None ∧ (ph = PClosed true → r = Ok tt) ∧
    (r = Ok tt → ph = PClosed true ∨ ph = PCancelled (secure s') ∨
       ∃ raw, ph = PLooked (secure s') raw ∧ length raw = 8%nat ∧ load (Name l ++ raw) = None).
Proof. apply servePostgres_follows. intros u pw. apply authenticate_no_panic. Qed.

(** ** Complete runs *)
Section startup_runs.
Context {X : Type}.
Implicit Types s : hstate X.

(** [s'] is [s] with its input at [rest] and [ws] written. *)
Definition after (rest : list byte) (ws : list (list byte)) s : hstate X :=
  mkH rest (fin s) (wleft s) (secure s) (tls_in s) (trace s ++ (EvWrite (secure s) <$> ws)).

Lemma add_write_after rest ws b s :
  add_event (EvWrite (secure s) b) (after rest ws s) = after rest (ws ++ [b]) s.
Proof. unfold add_event, after. cbn. by rewrite fmap_app, app_assoc. Qed.

Lemma head_run (n code : Z) (rest : list byte) (k : Z → Z → M X (gmap gostring gostring)) s :
  0 <= n < 2 ^ 32 → 0 <= code < 2 ^ 32 → inp s = (be_bytes 4 n ++ be_bytes 4 code) ++ rest →
  (head ← readFull 8;
   h4 ← lift (slice_to head 4); n ← lift (be_uint 4 h4);
   h8 ← lift (slice_from head 4); code ← lift (be_uint 4 h8); k n code) s =
  k n code (with_inp rest s).
Proof.
  intros Hn Hc Hi.
  rewrite (bind_run _ _ s _ _ (readFull_app 8 (be_bytes 4 n ++ be_bytes 4 code) rest s eq_refl Hi)).
  rewrite (bind_lift_Ok _ _ _ (be_bytes 4 n)).
  2:{ rewrite slice_to_ok by len_solve. by rewrite take_app_length'. }
  rewrite (bind_lift_Ok _ _ _ n).
  2:{ rewrite be_uint_ok by len_solve. rewrite take_ge by len_solve.
      by rewrite be_val_bytes, Z.mod_small. }
  rewrite (bind_lift_Ok _ _ _ (be_bytes 4 code)).
  2:{ rewrite slice_from_ok by len_solve. by rewrite drop_app_length'. }
  rewrite (bind_lift_Ok _ _ _ code); [done|].
  rewrite be_uint_ok by len_solve. rewrite take_ge by len_solve.
  by rewrite be_val_bytes, Z.mod_small.
Qed.

Lemma gss_S k : gss (S k) = gss_request ++ gss k.
Proof. done. Qed.

(** GSS requests are answered one by one, whatever comes after them. *)
Lemma pgStartup_gss k fuel s rest :
  inp s = gss k ++ rest → wleft s = None →
  pgStartup_loop (k + fuel) s = pgStartup_loop fuel (after rest (replicate k [chr "N"]) s).
Proof.
  revert s. induction k as [|k IH]; intros s Hi Hw.
  - unfold after. cbn. rewrite app_nil_r. destruct s; cbn in *. by subst.
  - cbn [plus pgStartup_loop]. rewrite gss_S, <- app_assoc in Hi.
    rewrite (head_run 8 80877104 (gss k ++ rest)) by done.
    rewrite bind_check_false by done. cbn [Z.eqb Pos.eqb].
    rewrite bind_check_false by done.
    erewrite bind_run by (apply write_run; exact Hw).
    rewrite IH by done. f_equal. unfold after. cbn. by rewrite <- app_assoc.
Qed.

Lemma length_gss k : length (gss k) = (8 * k)%nat.
Proof. induction k as [|k IH]; [done|]. rewrite gss_S, length_app, IH. cbn. lia. Qed.

(** The fuel does not matter once it exceeds the input. *)
Lemma pgStartup_after k rest s :
  inp s = gss k ++ rest → wleft s = None →
  ∃ fuel, pgStartup s = pgStartup_loop (S fuel) (after rest (replicate k [chr "N"]) s).
Proof.
  intros Hi Hw. exists (length (inp s) - k)%nat. unfold pgStartup.
  rewrite <- (pgStartup_gss k _ s rest) by done. f_equal.
  rewrite Hi, length_app, length_gss. lia.
Qed.

Lemma pgStartup_ssl k n rest s :
  inp s = gss k ++ pg_ssl_request n ++ rest → 8 <= n <= 2 ^ 20 → wleft s = None →
  pgStartup s = (Ok {[ sslParam := lit "1" ]}, after rest (replicate k [chr "N"]) s).
Proof.
  intros Hi Hn Hw. pow_lits.
  destruct (pgStartup_after _ _ _ Hi Hw) as [fuel ->]. cbn [pgStartup_loop].
  rewrite (head_run n 80877103 rest) by (pow_lits; cbn; (lia || done)).
  rewrite bind_check_false by (apply orb_false_iff; split; apply Z.ltb_ge; lia).
  done.
Qed.

Lemma pgStartup_params k body rest s :
  inp s = gss k ++ startup_packet body ++ rest → Z.of_nat (length body) <= 2 ^ 20 - 8 →
  wleft s = None →
  pgStartup s = (pg_parameters body, after rest (replicate k [chr "N"]) s).
Proof.
  intros Hi Hn Hw. pow_lits.
  destruct (pgStartup_after _ _ _ Hi Hw) as [fuel ->]. cbn [pgStartup_loop].
  rewrite (head_run (8 + Z.of_nat (length body)) 196608 (body ++ rest)).
  2:{ pow_lits. lia. } 2:{ done. }
  2:{ cbn [inp after]. unfold startup_packet. by rewrite <- !app_assoc. }
  rewrite bind_check_false by (apply orb_false_iff; split; apply Z.ltb_ge; lia).
  cbn [Z.eqb Pos.eqb]. rewrite bind_check_false by done.
  erewrite bind_run.
  2:{ apply (readFull_app _ body rest); [lia|done]. }
  done.
Qed.

Lemma pgStartup_cancel k key rest s :
  inp s = gss k ++ cancel_message key ++ rest → length key = 8%nat → wleft s = None →
  pgStartup s = (Ok {[ cancelKeyParam := key ]}, after rest (replicate k [chr "N"]) s).
Proof.
  intros Hi Hn Hw.
  destruct (pgStartup_after _ _ _ Hi Hw) as [fuel ->]. cbn [pgStartup_loop].
  rewrite (head_run 16 80877102 (key ++ rest)); [|done..|].
  2:{ cbn [inp after]. unfold cancel_message. by rewrite <- !app_assoc. }
  rewrite bind_check_false by done. cbn [Z.eqb Pos.eqb]. rewrite bind_check_false by done.
  erewrite bind_run.
  2:{ apply (readFull_app _ key rest); done. }
  done.
Qed.

Lemma pgPassword_run pw rest s :
  inp s = password_packet pw ++ rest → Z.of_nat (length pw) <= 2 ^ 20 - 5 →
  pgPassword s = (Ok pw, with_inp rest s).
Proof.
  intros Hi Hn. pow_lits. unfold password_packet, pg_message in Hi. rewrite <- !app_assoc in Hi.
  rewrite (app_assoc [chr "p"]) in Hi. unfold pgPassword.
  erewrite bind_run.
  2:{ apply (readFull_app 5 ([chr "p"] ++ be_bytes 4 (4 + Z.of_nat (length (pw ++ [NUL]))))); [done|exact Hi]. }
  rewrite (bind_lift_Ok _ _ _ (chr "p")) by done. rewrite bind_check_false by done.
  rewrite (bind_lift_Ok _ _ _ (be_bytes 4 (4 + Z.of_nat (length (pw ++ [NUL]))))) by done.
  rewrite length_app in *. cbn [length] in *.
  rewrite (bind_lift_Ok _ _ _ (4 + Z.of_nat (length pw + 1))).
  2:{ rewrite be_uint_ok by len_solve. rewrite take_ge by len_solve.
      rewrite be_val_bytes, Z.mod_small; [done|]. change (8 * Z.of_nat 4) with 32. lia. }
  rewrite bind_check_false by (apply orb_false_iff; split; apply Z.ltb_ge; lia).
  erewrite bind_run.
  2:{ apply (readFull_app _ (pw ++ [NUL]) rest); [rewrite length_app; cbn; lia|].
      cbn [inp with_inp]. by rewrite <- app_assoc. }
  rewrite (bind_lift_Ok _ _ _ NUL) by apply index_z_last. rewrite bind_check_false by done.
  unfold lift. by rewrite slice_to_z_last.
Qed.
End startup_runs.

(** A client that starts TLS, sends a well-formed startup message and a password. *)
Record pg_client_run `{GoUnicode} (s : hstate pg_event) (k j : nat)
    (params : gmap gostring gostring) (mode pw : gostring) : Prop := {
  cr_writes : wleft s = None;
  cr_plain : secure s = false;
  cr_request : ∃ n junk, 8 <= n <= 2 ^ 20 ∧ inp s = gss k ++ pg_ssl_request n ++ junk;
  cr_login : ∃ body rest f,
    tls_in s = Some (gss j ++ startup_packet body ++ password_packet pw ++ rest, f) ∧
    Z.of_nat (length body) <= 2 ^ 20 - 8 ∧ pg_parameters body = Ok params;
  cr_password : Z.of_nat (length pw) <= 2 ^ 20 - 5;
  cr_no_cancel : params !! cancelKeyParam = None;
  cr_no_ssl : get params sslParam = [];
  cr_user : get params (lit "user") ≠ [];
  cr_mode : pgReplicationMode (get params (lit "replication")) = Ok mode
}.

(** What is written and done up to the judgement of the credential. *)
Definition judged_trace (k j : nat) (user pw : gostring) : list (event pg_event) :=
  EvDeadline true :: (EvWrite false <$> replicate k [chr "N"] ++ [[chr "S"]]) ++
  EvTLS :: (EvWrite true <$> replicate j [chr "N"] ++ [pg_message (chr "R") (be_bytes 4 3)]) ++
  [EvX (PgValidate user pw)].

Definition fatal_write (code msg : string) : list (event pg_event) :=
  [EvWrite true (pg_message (chr "E") (fatal_body (lit code) (lit msg)))].

(** The messages that complete the client's login: authentication OK, the
    backend's parameters in the order of their names, its key and its state. *)
Definition status_messages (m : gmap gostring gostring) (keys : list gostring) : list (list byte) :=
  (λ k, pg_message (chr "S") (k ++ [NUL] ++ get m k ++ [NUL])) <$> keys.
Definition ok_messages (h : pgHijacked) : list (list byte) :=
  pg_message (chr "R") [NUL; NUL; NUL; NUL] ::
  status_messages (ParameterStatuses h) (sort_strings (map_to_list (ParameterStatuses h)).*1).
Definition login_messages (h : pgHijacked) : list (list byte) :=
  ok_messages h ++ [pg_message (chr "K") (key_data h); pg_message (chr "Z") [TxStatus h]].

Section runs.
Context `{GoUnicode}.
Context (Validate : Listener → gostring → gostring → res Principal).
Context (base_config : goerr + gmap gostring gostring).
Context (connect : pgLogin → option pgBackend).
Context (load : gostring → option gostring).
Context (dial : gostring → option goerr) (cancel_write : option goerr).
Context (l : Listener).

(** Under TLS with writes that succeed, and [tr] done so far. *)
Definition tls_state (tr : list (event pg_event)) (s : hstate pg_event) : Prop :=
  wleft s = None ∧ secure s = true ∧ trace s = tr.

Lemma pgWrite_tls typ body tr s :
  tls_state tr s →
  ∃ s', pgWrite typ body s = (Ok tt, s') ∧ tls_state (tr ++ [EvWrite true (pg_message typ body)]) s'.
Proof.
  intros (Hw & Hs & <-). eexists. unfold pgWrite. rewrite write_run, Hs by done.
  split; [reflexivity|]. done.
Qed.

Lemma pg_refuse_run code msg e tr s :
  tls_state tr s →
  ∃ s', (_ ← pgFatal (lit code) (lit msg); throw (A := unit) e) s = (Err e, s') ∧
        trace s' = tr ++ fatal_write code msg.
Proof.
  intros Hst. destruct (pgWrite_tls (chr "E") (fatal_body (lit code) (lit msg)) _ _ Hst)
    as (s' & Hrun & _ & _ & Ht).
  exists s'. split; [|done]. unfold pgFatal. rewrite (bind_run _ _ s tt s'); [done|].
  unfold ignore. by rewrite Hrun.
Qed.

Lemma pg_statuses_run m keys tr s :
  tls_state tr s →
  ∃ s', pg_statuses m keys s = (Ok tt, s') ∧
        tls_state (tr ++ (EvWrite true <$> status_messages m keys)) s'.
Proof.
  revert tr s. induction keys as [|k keys IH]; intros tr s Hst; cbn [pg_statuses].
  - exists s. cbn. by rewrite app_nil_r.
  - destruct (pgWrite_tls (chr "S") (k ++ [NUL] ++ get m k ++ [NUL]) _ _ Hst) as (s1 & Hrun & Hst1).
    rewrite (bind_run _ _ _ _ _ Hrun). destruct (IH _ _ Hst1) as (s2 & Hrun2 & Hst2).
    exists s2. split; [done|]. by rewrite <- app_assoc in Hst2.
Qed.

Lemma pg_handoff_run h tr s :
  tls_state tr s →
  let run := deferred PgBackendClose (pg_handoff l h) s in
  let key := Name l ++ key_data h in
  if decide (length (SecretKey h) = 4%nat) then
    run.1 = Ok tt ∧ trace run.2 = tr ++ (EvWrite true <$> login_messages h) ++
      [EvX (PgRegister key (Upstream l)); EvDeadline false; EvX PgRelay;
       EvX (PgUnregister key); EvX PgBackendClose]
  else is_Ok run.1 = false ∧
    trace run.2 = tr ++ (EvWrite true <$> ok_messages h) ++ [EvX PgBackendClose].
Proof.
  intros Hst. cbv zeta. unfold deferred, pg_handoff.
  destruct (pgWrite_tls (chr "R") [NUL; NUL; NUL; NUL] _ _ Hst) as (s1 & Hrun1 & Hst1).
  rewrite (bind_run _ _ _ _ _ Hrun1). cbv zeta.
  edestruct (pg_statuses_run (ParameterStatuses h)) as (s2 & Hrun2 & Hst2); [exact Hst1|].
  rewrite (bind_run _ _ _ _ _ Hrun2).
  assert (tr ++ (EvWrite true <$> ok_messages h) = trace s2) as Hok.
  { destruct Hst2 as (_ & _ & ->). unfold ok_messages. by rewrite <- app_assoc. }
  destruct (decide (length (SecretKey h) = 4%nat)) as [Hk|Hk].
  - rewrite bind_check_false by (by rewrite bool_decide_true).
    destruct (pgWrite_tls (chr "K") (key_data h) _ _ Hst2) as (s3 & Hrun3 & Hst3).
    rewrite (bind_run _ _ _ _ _ Hrun3).
    destruct (pgWrite_tls (chr "Z") [TxStatus h] _ _ Hst3) as (s4 & Hrun4 & _ & _ & Ht4).
    rewrite (bind_run _ _ _ _ _ Hrun4).
    unfold deferred, mbind, M_bind, emit, set_deadline. cbn [fst snd trace add_event].
    split; [done|]. destruct Hst2 as (_ & _ & Ht2). rewrite Ht4, <- Ht2, <- Hok.
    unfold login_messages. rewrite fmap_app, <- !app_assoc. done.
  - unfold mbind, M_bind, check, lift. rewrite bool_decide_false by done.
    cbn [fst snd negb guard_err trace add_event]. split; [done|]. by rewrite <- Hok, <- app_assoc.
Qed.

Lemma get_singleton k v : get {[ k := v ]} k = v.
Proof. unfold get. by rewrite lookup_singleton_eq. Qed.

(** Up to the judgement of the credential. *)
Lemma servePostgres_judges s k j params mode pw :
  pg_client_run s k j params mode pw →
  ∃ s', tls_state (trace s ++ judged_trace k j (get params (lit "user")) pw) s' ∧
    servePostgres Validate base_config connect load dial cancel_write l s =
    match Validate l (get params (lit "user")) pw with
    | Err e => _ ← pgFatal (lit "28P01") (lit "authentication failed"); throw e
    | Panic => lift Panic
    | Ok p => lg ← lift (pg_login base_config l p params mode); pg_backend connect l lg
    end s'.
Proof.
  intros [Hw Hsec (n & junk & Hn & Hi) (body & rest & f & Htls & Hlen & Hp) Hpw Hc Hssl Huser Hmode].
  unfold servePostgres. erewrite (bind_run _ _ s tt) by reflexivity.
  erewrite bind_run.
  2:{ apply (pgStartup_ssl k n junk); done. }
  cbv beta. rewrite lookup_singleton_ne, get_singleton by done.
  change (lit "1" =s lit "1") with true. cbn [negb].
  erewrite bind_run by (apply write_run; exact Hw).
  erewrite bind_run.
  2:{ unfold tls_handshake. cbn [tls_in add_event after]. rewrite Htls. reflexivity. }
  unfold pg_secure_phase. erewrite bind_run.
  2:{ rewrite <- Hp. apply pgStartup_params; [reflexivity|done|exact Hw]. }
  rewrite Hc. rewrite bind_check_false by (rewrite Hssl; done).
  unfold pg_login_phase. cbv zeta. rewrite empty_false', Hmode by done.
  erewrite bind_run by (unfold pgWrite; apply write_run; exact Hw).
  erewrite bind_run.
  2:{ apply (pgPassword_run pw rest); done. }
  erewrite bind_run by reflexivity.
  eexists. split; [|reflexivity]. split_and!; [exact Hw|done|].
  cbn [trace add_event after with_inp secure]. rewrite Hsec. unfold judged_trace.
  rewrite !fmap_app, <- !app_assoc. done.
Qed.

End runs.

(** The trace of such a run. *)
Lemma servePostgres_trace `{GoUnicode} Validate base_config connect load dial cancel_write l
    s k j params mode pw :
  pg_client_run s k j params mode pw →
  let run := servePostgres Validate base_config connect load dial cancel_write l s in
  let judged := trace s ++ judged_trace k j (get params (lit "user")) pw in
  match Validate l (get params (lit "user")) pw with
  | Panic => run.1 = Panic
  | Err e => run.1 = Err e ∧ trace run.2 = judged ++ fatal_write "28P01" "authentication failed"
  | Ok p =>
     match pg_login base_config l p params mode with
     | Ok lg =>
        let connected := judged ++ [EvX (PgConnect lg)] in
        match connect lg with
        | None => is_Ok run.1 = false ∧
            trace run.2 = connected ++ fatal_write "08006" "backend connection failed"
        | Some (mkBackend None (inr h)) =>
            let key := Name l ++ key_data h in
            if decide (length (SecretKey h) = 4%nat) then
              run.1 = Ok tt ∧ trace run.2 = connected ++ (EvWrite true <$> login_messages h) ++
                [EvX (PgRegister key (Upstream l)); EvDeadline false; EvX PgRelay;
                 EvX (PgUnregister key); EvX PgBackendClose]
            else is_Ok run.1 = false ∧
              trace run.2 = connected ++ (EvWrite true <$> ok_messages h) ++ [EvX PgBackendClose]
        | Some _ => is_Ok run.1 = false ∧ trace run.2 = connected ++ [EvX PgBackendClose]
        end
     | _ => is_Ok run.1 = false ∧ trace run.2 = judged
     end
  end.
Proof.
  intros Hrun. cbv zeta.
  destruct (servePostgres_judges Validate base_config connect load dial cancel_write l _ _ _ _ _ _ Hrun)
    as (s' & Hst & ->).
  set (judged := trace s ++ _) in *.
  destruct (Validate l _ pw) as [p|e|]; [| |done].
  2:{ destruct (pg_refuse_run "28P01" "authentication failed" e _ _ Hst) as (s2 & Hr & Ht).
      by rewrite Hr. }
  destruct (pg_login base_config l p params mode) as [lg|e|];
    [|destruct Hst as (_ & _ & Ht); by split..].
  rewrite (bind_lift_Ok _ _ _ lg) by done. unfold pg_backend.
  set (s1 := add_event (EvX (PgConnect lg)) s'). rewrite (bind_run _ _ s' tt s1) by done.
  assert (tls_state (judged ++ [EvX (PgConnect lg)]) s1) as Hst1.
  { destruct Hst as (Hw & Hs & Ht). split_and!; [done..|]. cbn. by rewrite Ht. }
  destruct (connect lg) as [[[e|] [e'|h]]|]; cbn [pb_sync pb_hijack].
  - destruct Hst1 as (_ & _ & Ht). split; [done|]. unfold mbind, M_bind. cbn. by rewrite <- Ht.
  - destruct Hst1 as (_ & _ & Ht). split; [done|]. unfold mbind, M_bind. cbn. by rewrite <- Ht.
  - destruct Hst1 as (_ & _ & Ht). split; [done|]. unfold mbind, M_bind. cbn. by rewrite <- Ht.
  - exact (pg_handoff_run l h _ _ Hst1).
  - destruct (pg_refuse_run "08006" "backend connection failed"
      (Errorf "backend connection failed" []) _ _ Hst1) as (s2 & Hr & Ht).
    by rewrite Hr.
Qed.

(** C12: The complete run of a client that starts TLS, sends a well-formed startup
    message and a password, whatever the authenticator, the upstream address and the
    backend decide: the messages written, in order, and what is done to the upstream
    and to the registry of cancel keys. A rejected credential gets a fatal message and
    the upstream is never contacted; a login that completes gets the backend's own
    parameters, key and state, is registered for cancellation, relayed, unregistered
    and closed. *)
Theorem servePostgres_runs `{GoUnicode} Validate base_config connect load dial cancel_write l
    s k j params mode pw :
  pg_client_run s k j params mode pw →
  let run := servePostgres Validate base_config connect load dial cancel_write l s in
  let judged := trace s ++ judged_trace k j (get params (lit "user")) pw in
  match Validate l (get params (lit "user")) pw with
  | Panic => run.1 = Panic
  | Err e => run.1 = Err e ∧ trace run.2 = judged ++ fatal_write "28P01" "authentication failed"
  | Ok p =>
     match pg_login base_config l p params mode with
     | Ok lg =>
        let connected := judged ++ [EvX (PgConnect lg)] in
        match connect lg with
        | None => is_Ok run.1 = false ∧
            trace run.2 = connected ++ fatal_write "08006" "backend connection failed"
        | Some (mkBackend None (inr h)) =>
            let key := Name l ++ key_data h in
            if decide (length (SecretKey h) = 4%nat) then
              run.1 = Ok tt ∧ trace run.2 = connected ++ (EvWrite true <$> login_messages h) ++
                [EvX (PgRegister key (Upstream l)); EvDeadline false; EvX PgRelay;
                 EvX (PgUnregister key); EvX PgBackendClose]
            else is_Ok run.1 = false ∧
              trace run.2 = connected ++ (EvWrite true <$> ok_messages h) ++ [EvX PgBackendClose]
        | Some _ => is_Ok run.1 = false ∧ trace run.2 = connected ++ [EvX PgBackendClose]
        end
     | _ => is_Ok run.1 = false ∧ trace run.2 = judged
     end
  end.
Proof. apply servePostgres_trace. Qed.

(** ** The order of the parameter messages *)
(** Whatever order Go iterates the backend's parameter map in, the sorted
    keys, and so the messages sent to the client, are the same. *)
Lemma sort_strings_canonical (m : gmap gostring gostring) (keys : list gostring) :
  keys ≡ₚ (map_to_list m).*1 →
  sort_strings keys = sort_strings (map_to_list m).*1 ∧
  Sorted string_leP (sort_strings keys) ∧ NoDup (sort_strings keys) ∧
  ∀ k, k ∈ sort_strings keys ↔ is_Some (m !! k).
Proof.
  intros Hp. pose proof (sort_strings_Permutation keys) as Hk. split_and!.
  - by apply sort_strings_perm.
  - apply sort_strings_Sorted.
  - rewrite Hk, Hp. apply NoDup_fst_map_to_list.
  - intros k. rewrite Hk, Hp, list_elem_of_fmap. split.
    + intros ([k' v] & -> & Hin%elem_of_map_to_list). by exists v.
    + intros [v Hv]. exists (k, v). split; [done|]. by apply elem_of_map_to_list.
Qed.
