(* ===== verification/PostgresCancel.v ===== *)
(** * The registry of cancel keys shared by all PostgreSQL sessions

    [e.cancels] (server.go, a [sync.Map]) is written by the sessions of every
    listener and read by their cancel requests, in any interleaving.  A system
    is the registry with the running sessions and the log of what they did.  A
    session is a run of [servePostgres]: it does the events of the handler's own
    trace one by one, and a step of the system is the next event of one session.
    What the handler's [Load] finds is an argument of the run ([w_load]), chosen
    when the session starts; the step of that event is possible only when it is what
    the registry holds at that moment, so the executions are those of handlers that
    read the shared registry. *)
From stdpp Require Import relations.
From S2P Require Import Prelude Steps GoStrings Wire Conn NetAddr Config ConfigSpec MySQL Postgres PostgresSpec PostgresSession.
#[local] Open Scope Z_scope.

(** What an event does to the registry: [Store] and [Delete]. *)
Definition reg_apply (e : event pg_event) (reg : gmap gostring gostring) : gmap gostring gostring :=
  match e with
  | EvX (PgRegister key upstream) => <[key := upstream]> reg
  | EvX (PgUnregister key) => delete key reg
  | _ => reg
  end.

(** What an event sees of it: [Load]. *)
Definition observes (reg : gmap gostring gostring) (e : event pg_event) : Prop :=
  match e with EvX (PgLoad key found) => found = reg !! key | _ => True end.

(** A name followed by eight bytes splits in one way. *)
Lemma cancel_key_inj (n m raw raw' : gostring) :
  length raw = 8%nat → length raw' = 8%nat → n ++ raw = m ++ raw' → n = m ∧ raw = raw'.
Proof. intros H1 H2 Heq. apply app_inj_2 in Heq; [done|congruence]. Qed.

(** ** The key of one session *)
Section protocol.
Context `{GoUnicode}.
Context (Validate : Listener → gostring → gostring → res Principal).
Context (base_config : goerr + gmap gostring gostring).
Context (connect : pgLogin → option pgBackend).
Context (load : gostring → option gostring).
Context (l : Listener) (tls0 : option (list byte * goerr)).
Abbreviation step := (pg_step Validate base_config connect load l tls0).

(** What one protocol step does to the live key and to the registry. *)
Lemma pg_step_key ph e ph' :
  step ph e ph' →
  (reg_apply e = id ∧ live_key ph' = live_key ph) ∨
  (live_key ph = None ∧ ∃ raw, length raw = 8%nat ∧ live_key ph' = Some (Name l ++ raw) ∧
     reg_apply e = <[Name l ++ raw := Upstream l]>) ∨
  (live_key ph' = None ∧ ∃ key, live_key ph = Some key ∧ reg_apply e = delete key).
Proof.
  destruct 1 as [| | | | | | |? ? h| | | | |? ? [-> | ->]| | |]; try (left; split; (reflexivity || (by destruct ph))).
  - right; left. split; [done|]. exists (key_data h). split_and!; [|done..].
    unfold key_data. rewrite length_app, length_be_bytes. lia.
  - right; right. eauto.
Qed.

(** From its registration on a session gets no other key. *)
Definition past_login (ph : pg_phase) : bool :=
  match ph with PRegistered _ | PReady _ | PRelaying _ | PUnregistered | PClosed _ => true | _ => false end.

Lemma past_follows ph tr ph' :
  follows step ph tr ph' → past_login ph = true →
  past_login ph' = true ∧ ∀ key, live_key ph' = Some key → live_key ph = Some key.
Proof.
  intros Hf Hp. induction Hf as [|p tr q e r _ IH Hs]; [done|]. destruct (IH Hp) as [Hq Hk].
  destruct Hs as [| | | | | | | | | | | |? ? [-> | ->]| | |]; naive_solver.
Qed.

Lemma live_past ph key : live_key ph = Some key → past_login ph = true.
Proof. by destruct ph. Qed.

(** A registered key is of a backend's connection. *)
Definition own_key (key : gostring) : Prop :=
  ∃ lg b h, connect lg = Some b ∧ pb_hijack b = inr h ∧ length (SecretKey h) = 4%nat ∧ key = Name l ++ key_data h.

Lemma live_registered tr ph key :
  follows step PPlain tr ph → live_key ph = Some key → EvX (PgRegister key (Upstream l)) ∈ tr ∧ own_key key.
Proof.
  remember PPlain as p0 eqn:Hp0. induction 1 as [|p tr q e r Hf IH Hs]; [by subst|]. specialize (IH Hp0).
  intros Hr. assert (live_key q = Some key → EvX (PgRegister key (Upstream l)) ∈ tr ++ [e] ∧ own_key key) as Hq.
  { intros [??]%IH. split; [set_solver|done]. }
  clear IH. destruct Hs as [| | | | | | |lg b h Hc ? Hh Hl| | | | |? ? [-> | ->]| | |]; try by auto.
  injection Hr as <-. split; [set_solver|]. by exists lg, b, h.
Qed.

Lemma live_unregisters ph tr ph' key :
  follows step ph tr ph' → live_key ph = Some key → live_key ph' = None → EvX (PgUnregister key) ∈ tr.
Proof.
  intros Hf Hk Hn. assert (live_key ph' = Some key ∨ EvX (PgUnregister key) ∈ tr) as [|]; [|congruence|done].
  clear Hn. induction Hf as [|p tr q e r _ IH Hs]; [by left|].
  destruct (IH Hk) as [Hq|]; [|set_solver]. clear IH.
  destruct Hs as [| | | | | | | | | | | |? ? [-> | ->]| | |]; (naive_solver || set_solver).
Qed.

(** The key of a session that did [done] and has [todo] to do. *)
Lemma live_iff done ph todo ph' key :
  follows step PPlain done ph → follows step ph todo ph' → live_key ph' = None →
  (∃ u, EvX (PgRegister key u) ∈ done) ∧ EvX (PgUnregister key) ∈ todo ↔ live_key ph = Some key.
Proof.
  intros Hd Ht Hn. split.
  - intros [[u (d1 & d2 & ->)%list_elem_of_split] (t1 & t2 & ->)%list_elem_of_split].
    apply follows_split in Hd as (x & y & _ & Hs & Hy), Ht as (x' & y' & Hx' & Hs' & _).
    inversion Hs; subst. inversion Hs'; subst. destruct (past_follows _ _ _ Hy eq_refl) as [Hp _].
    by apply (past_follows _ _ _ Hx' Hp).
  - intros Hk. split; [exists (Upstream l); by eapply live_registered|by eapply live_unregisters].
Qed.

Lemma live_not_unregistered tr ph key k :
  follows step PPlain tr ph → live_key ph = Some key → EvX (PgUnregister k) ∉ tr.
Proof.
  intros Hf Hk (a & b & ->)%list_elem_of_split. apply follows_split in Hf as (x & y & _ & Hs & Hy).
  inversion Hs; subst. by apply (past_follows _ _ _ Hy eq_refl) in Hk.
Qed.

(** ** A cancel request of one session *)
Lemma looked_loaded tr ph tls raw :
  follows step PPlain tr ph → ph = PLooked tls raw →
  length raw = 8%nat ∧ EvX (PgLoad (Name l ++ raw) (load (Name l ++ raw))) ∈ tr.
Proof.
  remember PPlain as p0 eqn:Hp0. induction 1 as [|p tr q e r Hf IH Hs]; [by subst|]. specialize (IH Hp0).
  intros ->. inversion Hs; subst; [destruct IH; [done|]|]; set_solver.
Qed.

Definition sends_only (raw : gostring) (ph : pg_phase) : Prop :=
  match ph with PCancelling _ r => r = raw | PCancelSent _ | PCancelled _ => True | _ => False end.

Lemma sends_only_step raw q e r : step q e r → sends_only raw q → sends_only raw r.
Proof. destruct 1 as [| | | | | | | | | | | |? ? [-> | ->]| | |]; naive_solver. Qed.

Lemma cancelling_sends raw ph tr ph' bs :
  follows step ph tr ph' → sends_only raw ph → EvX (PgDialWrite bs) ∈ tr → bs = cancel_message raw.
Proof.
  intros Hf Hp (a & b & ->)%list_elem_of_split. apply follows_split in Hf as (x & y & Ha & Hs & _).
  pose proof (follows_invariant _ (sends_only raw) _ _ _ Ha Hp (sends_only_step raw)) as Hx.
  inversion Hs; subst. by rewrite <- Hx.
Qed.
End protocol.

(** ** The system *)
(** What a handler meets outside its client's connection: the backend it gets,
    what the registry holds when it looks, and the dial and the write of a cancel
    request. *)
Record world := mkWorld {
  w_connect : pgLogin → option pgBackend;
  w_load : gostring → option gostring;
  w_dial : gostring → option goerr;
  w_cancel_write : option goerr
}.

Record session := mkSession {
  s_listener : Listener;
  s_world : world;
  s_client : hstate pg_event;
  s_todo : list (event pg_event)
}.

Record system := mkSystem {
  registry : gmap gostring gostring;
  sessions : gmap nat session;
  log : list (nat * event pg_event)
}.

Definition no_sessions : system := mkSystem ∅ ∅ [].

(** What session [i] did. *)
Definition did (i : nat) (tr : list (nat * event pg_event)) : list (event pg_event) :=
  omap (λ je, if decide (je.1 = i) then Some je.2 else None) tr.

Lemma did_elem i e tr : e ∈ did i tr ↔ (i, e) ∈ tr.
Proof.
  unfold did. rewrite list_elem_of_omap. split.
  - intros ([j e'] & Hin & He). cbn in He. case_decide; [|done]. by injection He as ->; subst.
  - intros Hin. exists (i, e). split; [done|]. cbn. by rewrite decide_True.
Qed.

Lemma did_snoc i j e tr : did i (tr ++ [(j, e)]) = did i tr ++ (if decide (j = i) then [e] else []).
Proof. unfold did. rewrite omap_app. cbn. by case_decide. Qed.

Lemma did_split i a e b : did i (a ++ (i, e) :: b) = did i a ++ e :: did i b.
Proof. unfold did. rewrite omap_app. cbn. by rewrite decide_True. Qed.

Section system.
Context `{GoUnicode} `{Authenticator}.
Context (base_config : goerr + gmap gostring gostring).
Context (listeners : list Listener).

(** What the handler does in a run. *)
Definition session_trace (l : Listener) (w : world) (st : hstate pg_event) : list (event pg_event) :=
  trace (servePostgres authenticate base_config (w_connect w) (w_load w) (w_dial w) (w_cancel_write w) l st).2.

Inductive sys_step : system → system → Prop :=
  | sys_accept reg S tr i l w st :
      l ∈ listeners → S !! i = None → trace st = [] → secure st = false →
      sys_step (mkSystem reg S tr) (mkSystem reg (<[i := mkSession l w st (session_trace l w st)]> S) tr)
  | sys_event reg S tr i l w st e todo :
      S !! i = Some (mkSession l w st (e :: todo)) → observes reg e →
      sys_step (mkSystem reg S tr)
        (mkSystem (reg_apply e reg) (<[i := mkSession l w st todo]> S) (tr ++ [(i, e)])).

Definition reachable : system → Prop := rtc sys_step no_sessions.

(** A session that stored the key and has yet to delete it. *)
Definition holds (tr : list (nat * event pg_event)) (i : nat) (s : session) (key : gostring) : Prop :=
  (∃ u, (i, EvX (PgRegister key u)) ∈ tr) ∧ EvX (PgUnregister key) ∈ s_todo s.

(** No session registers a key that another one has: backends give concurrent
    sessions distinct process ids and keys. *)
Definition fresh_keys (st : system) : Prop :=
  ∀ i j s t key, sessions st !! i = Some s → sessions st !! j = Some t →
    holds (log st) i s key → holds (log st) j t key → i = j.

(** Runs in which live keys stay distinct. *)
Definition reachable_fresh : system → Prop := rtc (λ st st', sys_step st st' ∧ fresh_keys st') no_sessions.

(** ** Sessions are runs of the handler *)
Record session_ok (tr : list (nat * event pg_event)) (i : nat) (s : session) : Prop := {
  so_listener : s_listener s ∈ listeners;
  so_new : trace (s_client s) = [] ∧ secure (s_client s) = false;
  so_trace : did i tr ++ s_todo s = session_trace (s_listener s) (s_world s) (s_client s)
}.

Definition sys_ok (st : system) : Prop :=
  (∀ i s, sessions st !! i = Some s → session_ok (log st) i s) ∧
  ∀ i, sessions st !! i = None → did i (log st) = [].

Lemma sys_ok_step st st' : sys_ok st → sys_step st st' → sys_ok st'.
Proof.
  intros [Hok Hnew] Hs. destruct Hs as [reg S tr i l w st Hl Hi Ht Hsec|reg S tr i l w st e todo Hi Hobs];
    cbn [sessions log] in *.
  - split; cbn [sessions log].
    + intros j s [[<- <-]|[_ Hj]]%lookup_insert_Some; [|by apply Hok]. split; [done..|]. by rewrite Hnew.
    + intros j [Hj _]%lookup_insert_None. by apply Hnew.
  - pose proof (Hok _ _ Hi) as [Hl [Ht Hsec] Htr]. split; cbn [sessions log].
    + intros j s [[<- <-]|[Hne Hj]]%lookup_insert_Some.
      * split; [done..|]. by rewrite did_snoc, decide_True, <- app_assoc.
      * destruct (Hok _ _ Hj) as [? ? Htj]. split; [done..|]. by rewrite did_snoc, decide_False, app_nil_r by done.
    + intros j [Hj Hne]%lookup_insert_None. rewrite did_snoc, decide_False, app_nil_r by done. by apply Hnew.
Qed.

Lemma reachable_ok st : reachable st → sys_ok st.
Proof.
  intros Hr. apply (rtc_invariant _ _ _ _ (λ x y Hxy Hx, sys_ok_step x y Hx Hxy) Hr). split; [|done]. intros i s Hi. cbn in Hi. by rewrite lookup_empty in Hi.
Qed.

Lemma reachable_fresh_reachable st : reachable_fresh st → reachable st.
Proof. apply rtc_subrel. by intros ? ? [? _]. Qed.

Abbreviation sstep s :=
  (pg_step authenticate base_config (w_connect (s_world s)) (w_load (s_world s)) (s_listener s) (tls_in (s_client s))).

(** So its events, done and to do, are those of the session protocol. *)
Lemma session_phases tr i s :
  session_ok tr i s →
  ∃ ph ph', follows (sstep s) PPlain (did i tr) ph ∧ follows (sstep s) ph (s_todo s) ph' ∧ live_key ph' = None.
Proof.
  intros [_ [Ht Hsec] Htr]. unfold session_trace in Htr.
  pose proof (servePostgres_follows authenticate base_config (w_connect (s_world s)) (w_load (s_world s))
    (w_dial (s_world s)) (w_cancel_write (s_world s)) (s_listener s) (s_client s) (λ u pw, authenticate_no_panic _ u pw) Ht Hsec) as Hf.
  destruct (servePostgres _ _ _ _ _ _ _ _) as [r st']. destruct Hf as (_ & ph' & Hf & Hn & _). cbn in Htr.
  rewrite <- Htr in Hf. apply follows_app in Hf as (ph & Ha & Hb). by exists ph, ph'.
Qed.

Lemma holds_did tr i s key :
  holds tr i s key ↔ (∃ u, EvX (PgRegister key u) ∈ did i tr) ∧ EvX (PgUnregister key) ∈ s_todo s.
Proof. unfold holds. by setoid_rewrite did_elem. Qed.

Lemma session_live tr i s :
  session_ok tr i s →
  ∃ ph, follows (sstep s) PPlain (did i tr) ph ∧ ∀ key, holds tr i s key ↔ live_key ph = Some key.
Proof.
  intros (ph & ph' & Ha & Hb & Hn)%session_phases. exists ph. split; [done|]. intros key.
  rewrite holds_did. by eapply live_iff.
Qed.

(** What a session that holds a key did. *)
Lemma holds_inv tr i s key :
  session_ok tr i s → holds tr i s key →
  (i, EvX (PgRegister key (Upstream (s_listener s)))) ∈ tr ∧ (∀ k, (i, EvX (PgUnregister k)) ∉ tr) ∧
  own_key (w_connect (s_world s)) (s_listener s) key.
Proof.
  intros (ph & Hf & Hk)%session_live Hh. apply Hk in Hh. split_and!.
  - apply did_elem. by eapply live_registered.
  - intros k. rewrite <- did_elem. by eapply live_not_unregistered.
  - by eapply live_registered.
Qed.

(** What the next event of a session does to the registry and to its key. *)
Lemma session_event tr i l w st e todo :
  let s := mkSession l w st (e :: todo) in let s' := mkSession l w st todo in let tr' := tr ++ [(i, e)] in
  session_ok tr i s → session_ok tr' i s' →
  (reg_apply e = id ∧ ∀ k, holds tr' i s' k ↔ holds tr i s k) ∨
  (∃ raw, length raw = 8%nat ∧ reg_apply e = <[Name l ++ raw := Upstream l]> ∧ (∀ k, ¬ holds tr i s k) ∧
     ∀ k, holds tr' i s' k ↔ k = Name l ++ raw) ∨
  (∃ key, reg_apply e = delete key ∧ (∀ k, holds tr i s k ↔ k = key) ∧ ∀ k, ¬ holds tr' i s' k).
Proof.
  intros s s' tr' (ph & phe & Hf & Ht & Hn)%session_phases (ph1 & phe' & Hf' & Ht' & Hn')%session_phases.
  pose proof Ht as Ht0. apply (follows_split _ _ [] e todo) in Ht as (x & y & ->%follows_nil_inv & Hs & Hy).
  assert (follows (sstep s) PPlain (did i tr') y) as Hf1.
  { unfold tr'. rewrite did_snoc, decide_True by done. by eapply follows_snoc. }
  assert (∀ k, holds tr i s k ↔ live_key ph = Some k) as Hk.
  { intros k. rewrite holds_did. eapply live_iff; [done|exact Ht0|exact Hn]. }
  assert (∀ k, holds tr' i s' k ↔ live_key y = Some k) as Hk'.
  { intros k. rewrite holds_did. by eapply live_iff. }
  apply pg_step_key in Hs as [[-> Heq]|[(Hnone & raw & Hlen & Hsome & ->)|(Hnone & key & Hsome & ->)]].
  - left. split; [done|]. intros k. by rewrite Hk, Hk', Heq.
  - right; left. exists raw. split_and!; [done..| |]; intros k; [rewrite Hk|rewrite Hk']; naive_solver.
  - right; right. exists key. split_and!; [done|intros k; rewrite Hk; naive_solver|]. intros k. rewrite Hk'. congruence.
Qed.

(** ** Invariants *)
(** Every entry is of a session that holds it. *)
Definition entry_live (st : system) : Prop :=
  ∀ key upstream, registry st !! key = Some upstream →
    ∃ i s, sessions st !! i = Some s ∧ holds (log st) i s key ∧ upstream = Upstream (s_listener s).

(** Every session that holds a key has its entry. *)
Definition live_entry (st : system) : Prop :=
  ∀ i s key, sessions st !! i = Some s → holds (log st) i s key →
    registry st !! key = Some (Upstream (s_listener s)).

Lemma holds_other tr i j e s k : i ≠ j → holds (tr ++ [(i, e)]) j s k ↔ holds tr j s k.
Proof.
  intros Hne. rewrite !holds_did. by rewrite did_snoc, decide_False, app_nil_r by done.
Qed.

Lemma entry_live_step st st' : sys_ok st → entry_live st → sys_step st st' → entry_live st'.
Proof.
  intros Hok Hlive Hs. pose proof (sys_ok_step _ _ Hok Hs) as Hok'. destruct Hok as [Hok _], Hok' as [Hok' _].
  destruct Hs as [reg S tr i l w st Hl Hi Ht Hsec|reg S tr i l w st e todo Hi _];
    intros key u Hk; cbn [sessions registry log] in *.
  - destruct (Hlive key u Hk) as (j & s & Hj & ?). exists j, s. cbn [sessions log] in *.
    rewrite lookup_insert_ne; [done|]. intros ->. congruence.
  - specialize (Hok _ _ Hi). specialize (Hok' i _ (lookup_insert_eq _ _ _)).
    assert (reg !! key = Some u → ¬ holds tr i (mkSession l w st (e :: todo)) key →
      ∃ j s, <[i := mkSession l w st todo]> S !! j = Some s ∧ holds (tr ++ [(i, e)]) j s key ∧ u = Upstream (s_listener s)) as Hother.
    { intros Hu Hno. destruct (Hlive key u Hu) as (j & s & Hj & Hh & ->). cbn [sessions log] in *.
      assert (i ≠ j) as Hij by (intros ->; rewrite Hi in Hj; by injection Hj as <-).
      exists j, s. rewrite lookup_insert_ne, holds_other by done. done. }
    destruct (session_event _ _ _ _ _ _ _ Hok Hok') as [[He Hh]|[(raw & _ & He & Hno & Hh)|(k & He & Hk' & Hno)]];
      rewrite He in Hk.
    + destruct (Hlive key u Hk) as (j & s & Hj & Hs & ->). cbn [sessions log] in *.
      destruct (decide (i = j)) as [<-|Hij].
      * rewrite Hi in Hj. injection Hj as <-. eexists i, _. split; [apply lookup_insert_eq|]. by rewrite Hh.
      * exists j, s. by rewrite lookup_insert_ne, holds_other by done.
    + apply lookup_insert_Some in Hk as [[<- <-]|[Hne Hk]]; [|by apply Hother].
      eexists i, _. split; [apply lookup_insert_eq|]. by rewrite Hh.
    + apply lookup_delete_Some in Hk as [Hne Hk]. apply Hother; [done|]. intros Hkey.
      by apply Hne, eq_sym, Hk'.
Qed.

Lemma live_entry_step st st' :
  sys_ok st → live_entry st → fresh_keys st → fresh_keys st' → sys_step st st' → live_entry st'.
Proof.
  intros Hok Hlive Hfr Hfr' Hs. pose proof (sys_ok_step _ _ Hok Hs) as Hok'. destruct Hok as [Hok Hnew], Hok' as [Hok' _].
  destruct Hs as [reg S tr i l w st Hl Hi Ht Hsec|reg S tr i l w st e todo Hi _];
    intros j s k Hj Hk; cbn [sessions registry log] in *.
  - apply lookup_insert_Some in Hj as [[<- <-]|[_ Hj]]; [|by eapply (Hlive j)].
    destruct Hk as [[u Hin%did_elem] _]. rewrite Hnew in Hin by done. by apply elem_of_nil in Hin.
  - specialize (Hok _ _ Hi). specialize (Hok' i _ (lookup_insert_eq _ _ _)).
    apply lookup_insert_Some in Hj as [Hij|[Hne Hj]].
    + destruct Hij as [<- <-]. specialize (Hlive i _ k Hi). cbn [registry log s_listener] in *.
      destruct (session_event _ _ _ _ _ _ _ Hok Hok') as [[-> Hh]|[(raw & _ & -> & _ & Hh)|(key & -> & _ & Hno)]].
      * by apply Hlive, Hh.
      * apply Hh in Hk as ->. apply lookup_insert_eq.
      * by apply Hno in Hk.
    + pose proof Hk as Hk'. apply holds_other in Hk; [|done]. specialize (Hlive j s k Hj Hk). cbn [registry] in Hlive.
      destruct (session_event _ _ _ _ _ _ _ Hok Hok') as [[-> Hh]|[(raw & _ & -> & _ & Hh)|(key & -> & Hh & _)]]; [done| |].
      * rewrite lookup_insert_ne; [done|]. intros <-. apply Hne.
        eapply (Hfr' i j); cbn [sessions log]; [apply lookup_insert_eq|by rewrite lookup_insert_ne|by apply Hh|exact Hk'].
      * rewrite lookup_delete_ne; [done|]. intros <-. apply Hne.
        eapply (Hfr i j); cbn [sessions log]; [exact Hi|exact Hj|by apply Hh|exact Hk].
Qed.

Lemma reachable_entry_live st : reachable st → sys_ok st ∧ entry_live st.
Proof.
  intros Hr. apply (rtc_invariant _ (λ st, sys_ok st ∧ entry_live st) _ _) in Hr; [exact Hr| |].
  - intros x y Hs [Hok Hl]. split; [by eapply sys_ok_step|by eapply entry_live_step].
  - split; [by apply reachable_ok, rtc_refl|]. intros key u Hk. cbn in Hk. by rewrite lookup_empty in Hk.
Qed.

Lemma reachable_live_entry st : reachable_fresh st → live_entry st.
Proof.
  intros Hr. cut (sys_ok st ∧ live_entry st ∧ fresh_keys st); [by intros (_ & ? & _)|].
  apply (rtc_invariant _ (λ st, sys_ok st ∧ live_entry st ∧ fresh_keys st) _ _) in Hr; [exact Hr| |].
  - intros x y [Hs Hf] (Hok & Hl & Hfr). split; [by eapply sys_ok_step|]. split; [by eapply live_entry_step|done].
  - split; [by apply reachable_ok, rtc_refl|].
    split; [intros i s k Hi|intros i j s t k Hi]; cbn in Hi; by rewrite lookup_empty in Hi.
Qed.

(** ** What the loads of a log found *)
Definition loads_ok (st : system) : Prop :=
  ∀ a i key upstream b, log st = a ++ (i, EvX (PgLoad key (Some upstream))) :: b →
    ∃ j t raw, sessions st !! j = Some t ∧ upstream = Upstream (s_listener t) ∧
      length raw = 8%nat ∧ key = Name (s_listener t) ++ raw ∧
      (j, EvX (PgRegister key upstream)) ∈ a ∧ (j, EvX (PgUnregister key)) ∉ a.

Lemma own_key_raw con l key : own_key con l key → ∃ raw, length raw = 8%nat ∧ key = Name l ++ raw.
Proof.
  intros (lg & b & h & _ & _ & Hs & ->). exists (key_data h). split; [|done].
  unfold key_data. rewrite length_app, length_be_bytes. lia.
Qed.

(** A session stays, with its listener. *)
Lemma sessions_stay st st' j t :
  sys_step st st' → sessions st !! j = Some t →
  ∃ t', sessions st' !! j = Some t' ∧ s_listener t' = s_listener t.
Proof.
  destruct 1 as [reg S tr i l w s Hl Hi|reg S tr i l w s e todo Hi _]; cbn [sessions]; intros Hj.
  - exists t. split; [|done]. rewrite lookup_insert_ne; [done|]. intros ->. congruence.
  - destruct (decide (i = j)) as [<-|Hij]; [|exists t; by rewrite lookup_insert_ne].
    rewrite Hi in Hj. injection Hj as <-. eexists. by rewrite lookup_insert_eq.
Qed.

Lemma loads_ok_step st st' : sys_ok st → entry_live st → loads_ok st → sys_step st st' → loads_ok st'.
Proof.
  intros [Hok _] Hlive Hloads Hs a i key u b Hlog.
  cut (∃ j t raw, sessions st !! j = Some t ∧ u = Upstream (s_listener t) ∧ length raw = 8%nat ∧
    key = Name (s_listener t) ++ raw ∧ (j, EvX (PgRegister key u)) ∈ a ∧ (j, EvX (PgUnregister key)) ∉ a).
  { intros (j & t & raw & Hj & Hu & Hl & Hk & ?). destruct (sessions_stay _ _ _ _ Hs Hj) as (t' & Hj' & Ht').
    exists j, t', raw. by rewrite Ht'. }
  destruct Hs as [reg S tr i' l w s|reg S tr i' l w s e todo Hi Hobs]; [by apply (Hloads a i key u b)|].
  cbn [sessions registry log] in *. destruct b as [|x b _] using rev_ind.
  - apply app_inj_tail in Hlog as [<- [= -> ->]]. cbn in Hobs.
    destruct (Hlive key u (eq_sym Hobs)) as (j & t & Hj & Hh & ->). cbn [sessions log] in *.
    destruct (holds_inv _ _ _ _ (Hok _ _ Hj) Hh) as (Hreg & Hun & (raw & Hlen & Hkey)%own_key_raw).
    by exists j, t, raw.
  - rewrite app_comm_cons, app_assoc in Hlog. apply app_inj_tail in Hlog as [Hlog _].
    by apply (Hloads a i key u b).
Qed.

Lemma reachable_loads_ok st : reachable st → sys_ok st ∧ entry_live st ∧ loads_ok st.
Proof.
  intros Hr. apply (rtc_invariant _ (λ st, sys_ok st ∧ entry_live st ∧ loads_ok st) _ _) in Hr; [exact Hr| |].
  - intros x y Hs (Hok & Hl & Hlo). split; [by eapply sys_ok_step|]. split; [by eapply entry_live_step|by eapply loads_ok_step].
  - destruct (reachable_entry_live no_sessions) as [? ?]; [by apply rtc_refl|]. split_and!; [done..|].
    intros a i key u b Hlog. by destruct a.
Qed.

(** The dial of a cancel request comes after its load, and the write after the dial. *)
Lemma session_dials tr i s a upstream b :
  session_ok tr i s → tr = a ++ (i, EvX (PgDial upstream)) :: b →
  ∃ raw, length raw = 8%nat ∧ (i, EvX (PgLoad (Name (s_listener s) ++ raw) (Some upstream))) ∈ a ∧
    ∀ bs, (i, EvX (PgDialWrite bs)) ∈ b → bs = cancel_message raw.
Proof.
  intros Hok ->. destruct (session_phases _ _ _ Hok) as (ph & _ & Hf & _). rewrite did_split in Hf.
  apply follows_split in Hf as (x & y & Hx & Hs & Hy). inversion Hs as [| | | | | | | | | | | | |tls raw u Hload| |]; subst.
  destruct (looked_loaded _ _ _ _ _ _ _ _ _ _ Hx eq_refl) as [Hlen Hin]. exists raw. split; [done|].
  rewrite Hload in Hin. split; [by apply did_elem|]. intros bs Hbs%did_elem.
  by eapply cancelling_sends.
Qed.
End system.

(** C14: In every interleaving of runs of [servePostgres] that share the registry, on
    a configuration with distinct listener names: whatever address a run dials for a
    cancel request is its own listener's upstream; before, the run looked up the
    listener's name followed by eight bytes; when it did, a session of the same
    listener had registered exactly this key and had not removed it; and what is
    written to the upstream from then on is the cancel message of these eight bytes.
    *)
Theorem cancel_isolated `{GoUnicode} `{Authenticator} base_config listeners st i upstream tr1 tr2 :
  NoDup (Name <$> listeners) → reachable base_config listeners st →
  log st = tr1 ++ (i, EvX (PgDial upstream)) :: tr2 →
  ∃ s raw tr0 tr0' j t, let key := (Name (s_listener s) ++ raw) in
    sessions st !! i = Some s ∧ upstream = Upstream (s_listener s) ∧ length raw = 8%nat ∧
    tr1 = tr0 ++ (i, EvX (PgLoad key (Some upstream))) :: tr0' ∧
    sessions st !! j = Some t ∧ s_listener t = s_listener s ∧
    (j, EvX (PgRegister key upstream)) ∈ tr0 ∧ ((j, EvX (PgUnregister key)) ∉ tr0) ∧
    ∀ bs, (i, EvX (PgDialWrite bs)) ∈ tr2 → bs = cancel_message raw.
Proof.
  intros Hnd ([Hok Hnew] & _ & Hloads)%reachable_loads_ok Hlog.
  destruct (sessions st !! i) as [s|] eqn:Hi.
  2:{ specialize (Hnew i Hi). rewrite Hlog, did_split in Hnew. by destruct (did i tr1). }
  destruct (session_dials _ _ _ _ _ _ _ _ (Hok _ _ Hi) Hlog) as (raw & Hlen & (tr0 & tr0' & ->)%list_elem_of_split & Hw).
  destruct (Hloads tr0 i (Name (s_listener s) ++ raw) upstream (tr0' ++ (i, EvX (PgDial upstream)) :: tr2))
    as (j & t & raw' & Hj & -> & Hlen' & Heq & Hreg & Hun); [by rewrite Hlog, <- app_assoc|].
  destruct (cancel_key_inj _ _ _ _ Hlen Hlen' Heq) as [Hname _].
  assert (s_listener t = s_listener s) as Ht.
  { eapply NoDup_fmap_names; [exact Hnd|apply (Hok _ _ Hi)|apply (Hok _ _ Hj)|done]. }
  exists s, raw, tr0, tr0', j, t. by rewrite Ht in *.
Qed.

(** C15: In every interleaving of runs of [servePostgres] in which no two sessions
    hold the same key at a time, the registry holds exactly the keys of the sessions
    that have registered one and have yet to remove it: the entry is the upstream of
    the session's listener, under the listener's name and the process id and secret
    key of a backend that session can be given. So a session that has ended left
    nothing behind, and none loses its entry while it is relayed. *)
Theorem registry_exact `{GoUnicode} `{Authenticator} base_config listeners st key upstream :
  reachable_fresh base_config listeners st →
  registry st !! key = Some upstream ↔
  ∃ i s, sessions st !! i = Some s ∧ upstream = Upstream (s_listener s) ∧
    (i, EvX (PgRegister key upstream)) ∈ log st ∧ EvX (PgUnregister key) ∈ s_todo s ∧
    ∃ lg b h, w_connect (s_world s) lg = Some b ∧ pb_hijack b = inr h ∧ key = Name (s_listener s) ++ key_data h.
Proof.
  intros Hr. pose proof (reachable_live_entry _ _ _ Hr) as Hlive.
  destruct (reachable_entry_live _ _ _ (reachable_fresh_reachable _ _ _ Hr)) as [[Hok _] Hentry]. split.
  - intros (i & s & Hi & Hh & ->)%Hentry. exists i, s.
    destruct (holds_inv _ _ _ _ _ _ (Hok _ _ Hi) Hh) as (Hin & _ & (lg & b & h & ? & ? & _ & ->)).
    split_and!; [done..|apply Hh|]. by exists lg, b, h.
  - intros (i & s & Hi & -> & Hin & Hto & _). apply (Hlive i s key Hi). split; [by eexists|done].
Qed.
