(* ===== verification/EndToEnd.v ===== *)
(** * From a client's bytes to the upstream

    The endpoints, the service and the two session handlers together: whose
    backend credentials a session uses, after any history of requests and on any
    behaviour of the client. *)
From S2P Require Import Prelude Wire GoStrings Conn NetAddr Sha256 Rsa UrlLib Config ConfigSpec Identity IdentitySpec Aws AwsSpec ServiceSpec HttpMock HttpMockSpec MySQL MySQLSpec MySQLSession Postgres PostgresSpec PostgresSession.
#[local] Open Scope Z_scope.

(** ** Sessions, with whatever validates *)
Section mysql.
Context (Validate : Listener → gostring → gostring → res Principal) (connect : myLogin → option gostring).
Context (CapNames : list (Z * gostring)) (salt : option (list byte)) (l : Listener) (tls0 : option (list byte * goerr)).
Abbreviation step := (my_step Validate connect CapNames salt l tls0).

Definition my_judged (ph : my_phase) : Prop :=
  match ph with MChecked h | MConnected _ h => my_presented tls0 h | _ => True end.

Lemma my_judged_follows tr ph : follows step MPlain tr ph → my_judged ph.
Proof. intros Hf. apply (follows_invariant _ _ _ _ _ Hf I). by destruct 1. Qed.

(** The phases in which the upstream was contacted. *)
Definition my_contacted (ph : my_phase) : Prop :=
  match ph with MPlain | MSecure | MChecked _ => False | _ => True end.

Lemma my_contacted_follows tr ph :
  follows step MPlain tr ph → my_contacted ph → ∃ lg, EvX (MyConnect lg) ∈ tr.
Proof.
  remember MPlain as p0 eqn:Hp0. induction 1 as [|p tr q e r Hf IH Hs]; [by subst|]. intros Hc.
  assert ((∃ lg, e = EvX (MyConnect lg)) ∨ my_contacted q) as [[lg ->]|Hq] by (destruct Hs; naive_solver).
  - exists lg. set_solver.
  - destruct (IH Hp0 Hq) as [lg Hlg]. exists lg. set_solver.
Qed.
End mysql.

Lemma my_connects Validate connect CapNames salt l (st : hstate my_event) :
  (∀ u pw, Validate l u pw ≠ Panic) → trace st = [] → secure st = false →
  let tr := trace (serveMySQL Validate connect CapNames salt l st).2 in
  (∀ lg, EvX (MyConnect lg) ∈ tr →
     ∃ p h, my_presented (tls_in st) h ∧ Validate l (hs_user h) (hs_password h) = Ok p ∧ lg = my_login l p h) ∧
  (EvX MyRelay ∈ tr → ∃ lg, EvX (MyConnect lg) ∈ tr).
Proof.
  intros Hnp Ht Hs. pose proof (serveMySQL_follows Validate connect CapNames salt l st Hnp Ht Hs) as Hf.
  destruct (serveMySQL _ _ _ _ _ _) as [r st']. destruct Hf as (_ & ph & Hf & _). cbn. split.
  - intros lg Hin. destruct (follows_elem _ _ _ _ _ Hf Hin) as (tr1 & x & y & _ & Hx & Hstep).
    inversion Hstep as [| | | | |h p HV| | | |]; subst. exists p, h. split; [|done].
    by apply my_judged_follows in Hx.
  - intros Hin. destruct (follows_elem _ _ _ _ _ Hf Hin) as (tr1 & x & y & [tr2 Htr] & Hx & Hstep).
    destruct (my_contacted_follows _ _ _ _ _ _ _ _ Hx) as [lg Hlg]; [by inversion Hstep; subst|].
    exists lg. rewrite Htr. set_solver.
Qed.

Section postgres.
Context `{GoUnicode}.
Context (Validate : Listener → gostring → gostring → res Principal) (base_config : goerr + gmap gostring gostring).
Context (connect : pgLogin → option pgBackend) (load : gostring → option gostring) (l : Listener).
Context (tls0 : option (list byte * goerr)).
Abbreviation step := (pg_step Validate base_config connect load l tls0).

Definition pg_judged (ph : pg_phase) : Prop :=
  match ph with PChecked params pw => pg_presented tls0 params pw | _ => True end.

Lemma pg_judged_follows tr ph : follows step PPlain tr ph → pg_judged ph.
Proof. intros Hf. apply (follows_invariant _ _ _ _ _ Hf I). by destruct 1. Qed.

Definition pg_contacted (ph : pg_phase) : Prop :=
  match ph with PConnected _ | PRegistered _ | PReady _ | PRelaying _ => True | _ => False end.

Lemma pg_contacted_follows tr ph :
  follows step PPlain tr ph → pg_contacted ph → ∃ lg, EvX (PgConnect lg) ∈ tr.
Proof.
  remember PPlain as p0 eqn:Hp0. induction 1 as [|p tr q e r Hf IH Hs]; [by subst|]. intros Hc.
  assert ((∃ lg, e = EvX (PgConnect lg)) ∨ pg_contacted q) as [[lg ->]|Hq] by (destruct Hs; naive_solver).
  - exists lg. set_solver.
  - destruct (IH Hp0 Hq) as [lg Hlg]. exists lg. set_solver.
Qed.
End postgres.

Lemma pg_connects `{GoUnicode} Validate base_config connect load dial cancel_write l (st : hstate pg_event) :
  (∀ u pw, Validate l u pw ≠ Panic) → trace st = [] → secure st = false →
  let tr := trace (servePostgres Validate base_config connect load dial cancel_write l st).2 in
  (∀ lg, EvX (PgConnect lg) ∈ tr →
     ∃ p params pw mode, pg_presented (tls_in st) params pw ∧ Validate l (get params (lit "user")) pw = Ok p ∧
       pg_login base_config l p params mode = Ok lg) ∧
  (EvX PgRelay ∈ tr → ∃ lg, EvX (PgConnect lg) ∈ tr).
Proof.
  intros Hnp Ht Hs.
  pose proof (servePostgres_follows Validate base_config connect load dial cancel_write l st Hnp Ht Hs) as Hf.
  destruct (servePostgres _ _ _ _ _ _ _ _) as [r st']. destruct Hf as (_ & ph & Hf & _). cbn. split.
  - intros lg Hin. destruct (follows_elem _ _ _ _ _ Hf Hin) as (tr1 & x & y & _ & Hx & Hstep).
    inversion Hstep as [| | | | |params pw p mode lg' HV Hmode Hlg| | | | | | | | | |]; subst.
    exists p, params, pw, mode. split; [|done]. by apply pg_judged_follows in Hx.
  - intros Hin. destruct (follows_elem _ _ _ _ _ Hf Hin) as (tr1 & x & y & [tr2 Htr] & Hx & Hstep).
    destruct (pg_contacted_follows _ _ _ _ _ _ _ _ Hx) as [lg Hlg]; [by inversion Hstep; subst|].
    exists lg. rewrite Htr. set_solver.
Qed.

(** ** Who is entitled to a login *)
Section entitled.
Context `{GoUnicode}.
Context (c : Config) (hist : list (env * request)) (now1 now2 : Z) (s : service).

(** The principal is of the configuration and granted on the listener, the
    listener's provider accepts the credential for it, and a Google token was given
    to it, on its refresh token or by its metadata server, in the last hour. *)
Record entitled (l : Listener) (username password : gostring) (p : Principal) : Prop := {
  en_principal : p ∈ Principals c;
  en_granted : Granted p (Name l) = true;
  en_accepted : provider_accepts now1 now2 s l username password p;
  en_google : Provider l = google → ∃ e r, (e, r) ∈ hist ∧ password = google_token (random e) ∧
    google_grant (Principals c) r p ∧ now1 < clock e 0 + Hour ∧ username = googleUsername (Email p) (Engine l)
}.
End entitled.

Lemma same_principal (c : Config) (p q : Principal) : NoDup (ID <$> Principals c) → p ∈ Principals c → q ∈ Principals c → ID p = ID q → p = q.
Proof.
  intros Hnd [i Hi]%list_elem_of_lookup_1 [j Hj]%list_elem_of_lookup_1 Hid.
  assert (i = j) as ->; [|congruence].
  apply (NoDup_lookup _ i j (ID p) Hnd); rewrite list_lookup_fmap; [by rewrite Hi|by rewrite Hj, Hid].
Qed.

Lemma Validate_entitled `{GoUnicode} c key hist now1 now2 l username password p :
  WellFormed c → let s := h_s (serve_all (HTTPHandler (newService c key)) hist) in
  svc_Validate now1 now2 s l username password = Ok p → entitled c hist now1 now2 s l username password p.
Proof.
  intros Hwf s [Ha Hg]%svc_Validate_inv.
  assert (p ∈ Principals c) as Hp.
  { apply provider_accepts_principal in Ha. unfold s in Ha. by rewrite (proj1 (serve_all_frame _ _)) in Ha. }
  split; [done..|]. intros Hprov. destruct Ha as [[Hpr _]|[[_ Ha]|[Hpr _]]]; [by rewrite Hprov in Hpr| |by rewrite Hprov in Hpr].
  apply validateGoogle_accepts, google_login_needs_grant in Ha
    as (e & r & q & Hin & -> & Hgr & Hq & Hid & _ & Hnow & Hu).
  assert (q = p) as -> by (by apply (same_principal c), Hid; [apply wf_ids|..]).
  by exists e, r.
Qed.

(** C3: From a client's bytes to the upstream: in a well-formed configuration, after
    any history of HTTP requests to a new service and on any behaviour of the client,
    both session handlers contact the upstream, and so relay, only with the backend
    credentials of a principal that is granted on the listener and for which the
    listener's provider accepts the very user name and password the client sent under
    TLS; a Google password was then given to that principal, on its refresh token or
    by its metadata server, less than an hour earlier, and the user is its database
    user name. *)
Theorem upstream_login_entitled `{GoUnicode} c key hist now1 now2 l :
  WellFormed c → let s := h_s (serve_all (HTTPHandler (newService c key)) hist) in
  (∀ connect CapNames salt (st : hstate my_event), trace st = [] → secure st = false →
     let tr := trace (serveMySQL (svc_Validate now1 now2 s) connect CapNames salt l st).2 in
     (∀ lg, EvX (MyConnect lg) ∈ tr →
        ∃ p h, my_presented (tls_in st) h ∧ entitled c hist now1 now2 s l (hs_user h) (hs_password h) p ∧
          lg = my_login l p h) ∧
     (EvX MyRelay ∈ tr → ∃ lg, EvX (MyConnect lg) ∈ tr)) ∧
  (∀ base_config connect load dial cancel_write (st : hstate pg_event), trace st = [] → secure st = false →
     let tr := trace (servePostgres (svc_Validate now1 now2 s) base_config connect load dial cancel_write l st).2 in
     (∀ lg, EvX (PgConnect lg) ∈ tr →
        ∃ p params pw mode, pg_presented (tls_in st) params pw ∧
          entitled c hist now1 now2 s l (get params (lit "user")) pw p ∧ pg_login base_config l p params mode = Ok lg) ∧
     (EvX PgRelay ∈ tr → ∃ lg, EvX (PgConnect lg) ∈ tr)).
Proof.
  intros Hwf s. split.
  - intros connect CapNames salt st Ht Hs.
    destruct (my_connects (svc_Validate now1 now2 s) connect CapNames salt l st) as [Hc Hr];
      [intros; apply svc_Validate_no_panic|done..|].
    split; [|exact Hr]. intros lg (p & h & Hp & HV & ->)%Hc. exists p, h. split; [done|]. split; [|done].
    by eapply Validate_entitled.
  - intros base_config connect load dial cancel_write st Ht Hs.
    destruct (pg_connects (svc_Validate now1 now2 s) base_config connect load dial cancel_write l st) as [Hc Hr];
      [intros; apply svc_Validate_no_panic|done..|].
    split; [|exact Hr]. intros lg (p & params & pw & mode & Hp & HV & Hlg)%Hc. exists p, params, pw, mode.
    split; [done|]. split; [|done]. by eapply Validate_entitled.
Qed.
