(* ===== verification/FakeDB.v ===== *)
(** * The fake upstream servers (src/internal/fakedb/fakedb.go)

    A minimal MySQL and a minimal PostgreSQL server for one account.  The MySQL one
    is written against the wire; the messages of the PostgreSQL one are those of the
    third-party package pgproto3: the session is a function of the messages it
    receives, and gives those it sends. *)
From S2P Require Import Prelude Wire Sha256 Sha1 Conn MySQL.
#[local] Open Scope Z_scope.

(** ** The server's records *)
Record Server := mkServer {
  User : gostring;
  Password : gostring;
  NoDeprecateEOF : bool;
  dials : list gostring;
  params : list (gmap gostring gostring);
  cancels : list Z
}.

(** The backend messages of pgproto3 that the server sends. *)
Inductive pg_sent :=
  | AuthenticationCleartextPassword
  | AuthenticationOk
  | ErrorResponse (severity code message : gostring)
  | ParameterStatus (name value : gostring)
  | BackendKeyData (pid : Z) (secret : gostring)
  | ReadyForQuery (status : byte)
  | RowDescription (fields : list gostring)
  | DataRow (values : list gostring)
  | CommandComplete (tag : gostring).

(** What a session does besides writing bytes: it records an accepted login, it
    records a cancel request, it flushes messages, it closes the connection. *)
Inductive fake_event :=
  | FParams (m : gmap gostring gostring)
  | FCancel (pid : Z)
  | FFlush (msgs : list pg_sent)
  | FClosed.

Definition record (s : Server) (e : fake_event) : Server :=
  match e with
  | FParams m => mkServer (User s) (Password s) (NoDeprecateEOF s) (dials s) (params s ++ [m]) (cancels s)
  | FCancel pid => mkServer (User s) (Password s) (NoDeprecateEOF s) (dials s) (params s) (cancels s ++ [pid])
  | _ => s
  end.

(** [s.dial(addr, serve)] records the address; the goroutine closes its end of the
    pipe when [serve] returns. *)
Definition dial (addr : gostring) (s : Server) : Server :=
  mkServer (User s) (Password s) (NoDeprecateEOF s) (dials s ++ [addr]) (params s) (cancels s).
Definition dialed (serve : M fake_event unit) : M fake_event unit := deferred FClosed serve.

(** ** MySQL *)
Definition myProtocol41 := 2 ^ 9.
Definition mySecureConn := 2 ^ 15.
Definition myLongPassword := 1.
Definition myLongFlag := 2 ^ 2.
Definition myConnectWithDB := 2 ^ 3.
Definition myTransactions := 2 ^ 13.
Definition myMultiResults := 2 ^ 17.
Definition myPluginAuth := 2 ^ 19.
Definition myPluginLenenc := 2 ^ 21.
Definition myDeprecateEOF := 2 ^ 24.
Definition myStatusAutocomm := 2.

Definition fake_caps (s : Server) : Z :=
  let caps := foldr Z.lor 0 [myProtocol41; mySecureConn; myLongPassword; myLongFlag; myConnectWithDB;
    myTransactions; myMultiResults; myPluginAuth; myPluginLenenc] in
  if NoDeprecateEOF s then caps else Z.lor caps myDeprecateEOF.

Definition fake_salt : list byte := lit "abcdefghij0123456789".

Definition fake_greeting (caps : Z) : list byte :=
  [byte_of 10] ++ lit "8.0.0-fake" ++ [NUL] ++ le_bytes 4 7 ++ take 8 fake_salt ++ [NUL]
  ++ le_bytes 2 caps ++ [byte_of 45] ++ le_bytes 2 myStatusAutocomm ++ le_bytes 2 (Z.shiftr caps 16)
  ++ [byte_of 21] ++ replicate 10 NUL ++ drop 8 fake_salt ++ [NUL] ++ lit "mysql_native_password" ++ [NUL].

Definition myOK (header : byte) : list byte :=
  [header; NUL; NUL; byte_of myStatusAutocomm; NUL; NUL; NUL].

(** [for i := range a { a[i] ^= c[i] }] *)
Definition xor_bytes (a c : list byte) : list byte := zip_with (λ x y, byte_of (Z.lxor (u8 x) (u8 y))) a c.

Definition nativeScramble (salt : list byte) (password : gostring) : list byte :=
  let a := sha1 password in
  let b := sha1 a in
  xor_bytes a (sha1 (salt ++ b)).

(** This package's own packet functions: no limit on the length, and one write for
    header and body. *)
Definition fake_myRead : M fake_event (list byte * byte) :=
  h ← readFull 4;
  n ← lift (my_length h);
  b ← readFull (Z.to_nat n);
  seq ← lift (index_go h 3);
  mret (b, seq).
Definition fake_myWrite (seq : byte) (b : list byte) : M fake_event unit := write (my_header seq b ++ b).

(** User, authentication data and database of a response, after its 32 bytes. *)
Definition fake_credentials (rest : list byte) : gostring * list byte * gostring :=
  let '(user, rest, _) := cut_byte rest NUL in
  let '(auth, rest) :=
    match rest with
    | [] => ([], rest)
    | c :: _ =>
       let n := Z.to_nat (u8 c) in
       if (n + 1 <=? length rest)%nat then (take n (drop 1 rest), drop (1 + n) rest) else ([], rest)
    end in
  let '(db, _, _) := cut_byte rest NUL in
  (user, auth, db).

(** The answer to a query: a column count, a column, rows and their end. *)
Definition prefixed (v : gostring) : list byte := byte_of (Z.of_nat (length v)) :: v.
Definition fake_column : list byte :=
  (prefixed <$> [lit "def"; []; []; []; lit "current_user()"; []]) ≫= id.
Definition fake_result (s : Server) (caps : Z) : list (list byte) :=
  let eof := byte_of <$> [254; 0; 0; myStatusAutocomm; 0] in
  let old := Z.land caps myDeprecateEOF =? 0 in
  [[byte_of 1]; fake_column ++ (byte_of <$> [12; 33; 0; 0; 1; 0; 0; 253; 0; 0; 0; 0; 0])]
  ++ (if old then [eof] else [])
  ++ [prefixed (User s ++ lit "@%")]
  ++ (if old then [eof] else [myOK (byte_of 254)]).

Fixpoint fake_packets (i : Z) (packets : list (list byte)) : M fake_event unit :=
  match packets with
  | [] => mret tt
  | p :: packets => _ ← fake_myWrite (byte_of (i + 1)) p; fake_packets (i + 1) packets
  end.

Definition denied : list byte := [byte_of 255; byte_of 21; byte_of 4; chr "#"] ++ lit "28000Access denied".
Definition unsupported : list byte := [byte_of 255; byte_of 47; byte_of 4; chr "#"] ++ lit "HY000unsupported".

(** The loop over commands; an error ends it, as does an empty packet or
    [COM_QUIT]. *)
Fixpoint fake_commands (fuel : nat) (s : Server) (caps : Z) : M fake_event unit :=
  match fuel with
  | O => lift Panic
  | S fuel =>
     ' (cmd, _) ← fake_myRead;
     match cmd with
     | [] => mret tt
     | c :: _ =>
        if decide (u8 c = 1) then mret tt
        else
          _ ← (if decide (u8 c = 3) then fake_packets 0 (fake_result s caps)
               else if decide (u8 c = 14 ∨ u8 c = 2) then fake_myWrite (byte_of 1) (myOK NUL)
               else fake_myWrite (byte_of 1) unsupported);
          fake_commands fuel s caps
     end
  end.

(** Every command takes four bytes of the input, which bounds the loop. *)
Definition fake_session (s : Server) (caps : Z) : M fake_event unit := λ st,
  fake_commands (S (length (inp st))) s caps st.

Definition fake_params (user db : gostring) : gmap gostring gostring :=
  <[lit "user" := user]> {[lit "database" := db]}.

Definition fake_login (s : Server) : M fake_event unit :=
  let caps := fake_caps s in
  _ ← fake_myWrite (byte_of 0) (fake_greeting caps);
  ' (resp, _) ← fake_myRead;
  if (length resp <? 32)%nat then mret tt
  else
    client ← lift (le_uint 4 resp);
    rest ← lift (slice_from resp 32);
    let '(user, auth, db) := fake_credentials rest in
    if negb (bool_decide (user = User s)) || negb (bool_decide (auth = nativeScramble fake_salt (Password s)))
    then fake_myWrite (byte_of 2) denied
    else
      _ ← emit (FParams (fake_params user db));
      _ ← fake_myWrite (byte_of 2) (myOK (byte_of 0));
      fake_session s (Z.land caps client).

(** The handler returns nothing: an error ends it silently. *)
Definition serveMySQL (s : Server) : M fake_event unit := ignore (fake_login s).

(** ** PostgreSQL *)
Definition pgPID : Z := 4242.
Definition pgSecret : gostring := lit "k3y!".

(** What [ReceiveStartupMessage] and [Receive] give. *)
Inductive pg_first :=
  | StartupMessage (parameters : gmap gostring gostring)
  | CancelRequest (pid : Z) (secret : gostring)
  | OtherFirst.
Inductive pg_received := PasswordMessage (password : gostring) | Query | Terminate | OtherMessage.

(** [flushes]: how many more flushes succeed ([None]: all). *)
Definition can_flush (flushes : option nat) : bool := match flushes with Some O => false | _ => true end.

Definition fake_rows (s : Server) : list pg_sent :=
  [RowDescription [lit "current_user"]; DataRow [User s]; CommandComplete (lit "SELECT 1"); ReadyForQuery (chr "I")].

Fixpoint fake_queries (s : Server) (flushes : option nat) (msgs : list pg_received) : list fake_event :=
  match msgs with
  | [] => []
  | Query :: msgs =>
     if can_flush flushes then FFlush (fake_rows s) :: fake_queries s (pred <$> flushes) msgs else []
  | Terminate :: _ => []
  | _ :: msgs => fake_queries s flushes msgs
  end.

Definition fake_welcome : list pg_sent :=
  [AuthenticationOk; ParameterStatus (lit "server_version") (lit "17.0"); BackendKeyData pgPID pgSecret;
   ReadyForQuery (chr "I")].
Definition pg_denied : list pg_sent :=
  [ErrorResponse (lit "FATAL") (lit "28P01") (lit "password authentication failed")].

(** [set_auth]: [SetAuthType] succeeds. *)
Definition servePostgres (s : Server) (flushes : option nat) (set_auth : bool) (first : option pg_first)
    (msgs : list pg_received) : list fake_event :=
  match first with
  | Some (CancelRequest pid secret) =>
     if bool_decide (pid = pgPID) && bool_decide (secret = pgSecret) then [FCancel pid] else []
  | Some (StartupMessage m) =>
     if negb (can_flush flushes) then []
     else
       let flushes := pred <$> flushes in
       FFlush [AuthenticationCleartextPassword] ::
       if negb set_auth then []
       else match msgs with
       | [] => []
       | pw :: msgs =>
          if match pw with
             | PasswordMessage p => negb (bool_decide (default [] (m !! lit "user") = User s))
                                    || negb (bool_decide (p = Password s))
             | _ => true
             end
          then if can_flush flushes then [FFlush pg_denied] else []
          else FParams m ::
            if can_flush flushes
            then FFlush fake_welcome :: fake_queries s (pred <$> flushes) msgs else []
       end
  | _ => []
  end.
