(* ===== verification/FakeDBSpec.v ===== *)
(** * The fake upstream servers: who gets in, and what queries are answered *)
From stdpp Require Import relations.
From S2P Require Import Prelude GoStrings Wire Sha256 Sha1 Conn MySQL MySQLSpec Relay RelaySpec FakeDB.
#[local] Open Scope Z_scope.

(** ** Packets *)
Definition small (p : byte * list byte) : Prop := Z.of_nat (length p.2) < 2 ^ 24.

Lemma fake_myRead_packet (s : hstate fake_event) seq b rest :
  Z.of_nat (length b) < 2 ^ 24 → inp s = packet seq b ++ rest →
  fake_myRead s = (Ok (b, seq), with_inp rest s).
Proof.
  intros Hb Hi. unfold packet in Hi. rewrite <- app_assoc in Hi. unfold fake_myRead.
  rewrite (bind_run _ _ _ _ _ (readFull_app 4 _ _ _ (length_my_header seq b) Hi)).
  assert (my_length (my_header seq b) = Ok (Z.of_nat (length b))) as Hlen.
  { rewrite <- (app_nil_r (my_header seq b)). by apply my_length_header. }
  rewrite (bind_lift_Ok _ _ _ _ Hlen).
  rewrite Nat2Z.id, (bind_run _ _ _ b (with_inp rest s)) by (rewrite (readFull_app _ b rest); done).
  by rewrite (bind_lift_Ok _ _ _ seq).
Qed.

(** The state after some events. *)
Definition after (evs : list (event fake_event)) (s : hstate fake_event) : hstate fake_event :=
  mkH (inp s) (fin s) (wleft s) (secure s) (tls_in s) (trace s ++ evs).
Definition writes (s : hstate fake_event) (ps : list (byte * list byte)) : list (event fake_event) :=
  (λ p, EvWrite (secure s) (packet p.1 p.2)) <$> ps.

Lemma after_nil s : after [] s = s.
Proof. destruct s. unfold after. cbn. by rewrite app_nil_r. Qed.
Lemma after_after e1 e2 s : after e2 (after e1 s) = after (e1 ++ e2) s.
Proof. unfold after. cbn. by rewrite app_assoc. Qed.

Lemma fake_myWrite_run s seq b :
  wleft s = None → fake_myWrite seq b s = (Ok tt, after (writes s [(seq, b)]) s).
Proof. destruct s as [i f w sec t tr]. cbn. by intros ->. Qed.

Lemma fake_packets_run ps : ∀ i s, wleft s = None →
  fake_packets i ps s = (Ok tt, after (writes s (imap (λ k p, (byte_of (i + Z.of_nat k + 1), p)) ps)) s).
Proof.
  induction ps as [|p ps IH]; intros i s Hw; cbn [fake_packets]; [by rewrite after_nil|].
  rewrite (bind_run _ _ _ _ _ (fake_myWrite_run s _ p Hw)), IH by done. rewrite after_after. do 2 f_equal.
  cbn [imap writes fmap list_fmap app]. rewrite Z.add_0_r. f_equal. unfold writes. f_equal.
  apply imap_ext. intros k x _. cbn. do 2 f_equal. lia.
Qed.

Lemma stream_cons p ps : stream (p :: ps) = packet p.1 p.2 ++ stream ps.
Proof. done. Qed.
Lemma length_packet seq b : length (packet seq b) = (4 + length b)%nat.
Proof. unfold packet. by rewrite length_app. Qed.

(** ** Commands *)
(** The packets that answer one command, or nothing when it ends the session. *)
Definition answer (s : Server) (caps : Z) (cmd : list byte) : option (list (byte * list byte)) :=
  match cmd with
  | [] => None
  | c :: _ =>
     if decide (u8 c = 1) then None
     else Some
       (if decide (u8 c = 3) then imap (λ k p, (byte_of (Z.of_nat k + 1), p)) (fake_result s caps)
        else if decide (u8 c = 14 ∨ u8 c = 2) then [(byte_of 1, myOK NUL)]
        else [(byte_of 1, unsupported)])
  end.
Fixpoint answers (s : Server) (caps : Z) (cmds : list (byte * list byte)) : list (byte * list byte) :=
  match cmds with
  | [] => []
  | p :: cmds =>
     match answer s caps p.2 with
     | Some ps => ps ++ answers s caps cmds
     | None => []
     end
  end.

Lemma writes_app s ps qs : writes s (ps ++ qs) = writes s ps ++ writes s qs.
Proof. apply fmap_app. Qed.

Lemma answer_run srv caps cmd c rest st :
  wleft st = None → cmd = c :: rest → u8 c ≠ 1 →
  ∃ ps, answer srv caps cmd = Some ps ∧
    (if decide (u8 c = 3) then fake_packets 0 (fake_result srv caps)
     else if decide (u8 c = 14 ∨ u8 c = 2) then fake_myWrite (byte_of 1) (myOK NUL)
     else fake_myWrite (byte_of 1) unsupported) st = (Ok tt, after (writes st ps) st).
Proof.
  intros Hw -> Hc. unfold answer. rewrite decide_False by done. eexists. split; [done|].
  destruct (decide (u8 c = 3)); [by rewrite fake_packets_run|].
  destruct (decide _); by rewrite fake_myWrite_run.
Qed.

(** Commands that end with the stream. *)
Lemma fake_commands_run srv caps cmds : ∀ fuel st,
  Forall small cmds → wleft st = None → inp st = stream cmds → fin st = io_EOF →
  (length (inp st) < fuel)%nat →
  ∃ r st', fake_commands fuel srv caps st = (r, st') ∧ r ≠ Panic ∧
    trace st' = trace st ++ writes st (answers srv caps cmds).
Proof.
  induction cmds as [|[seq cmd] cmds IH]; intros fuel st Hsm Hw Hi Hf Hfuel; destruct fuel as [|fuel]; try lia.
  - cbn [fake_commands answers]. unfold stream in Hi. cbn in Hi.
    eexists _, (with_inp [] st). split.
    { unfold fake_myRead. rewrite M_bind_assoc. apply bind_run_err. unfold readFull. rewrite Hi.
      rewrite decide_False by (cbn; lia). done. }
    split; [done|]. cbn. by rewrite app_nil_r.
  - apply Forall_cons in Hsm as [Hc Hsm]. rewrite stream_cons in Hi. cbn [fst snd] in Hi.
    cbn [fake_commands answers snd]. rewrite (bind_run _ _ _ _ _ (fake_myRead_packet st seq cmd _ Hc Hi)).
    cbv beta iota.
    destruct cmd as [|c rest]; [eexists _, _; split; [done|]; split; [done|]; cbn; by rewrite app_nil_r|].
    destruct (decide (u8 c = 1)) as [Hq|Hq].
    { unfold answer. rewrite (decide_True _ _ Hq). eexists _, _. split; [done|]. split; [done|]. cbn. by rewrite app_nil_r. }
    destruct (answer_run srv caps (c :: rest) c rest (with_inp (stream cmds) st)) as (ps & Hps & Hrun); [done..|].
    rewrite Hps. rewrite (bind_run _ _ _ _ _ Hrun).
    destruct (IH fuel (after (writes (with_inp (stream cmds) st) ps) (with_inp (stream cmds) st))) as (r & st' & Hr & Hnp & Ht);
      [done..| |].
    { cbn [after with_inp inp]. rewrite Hi, length_app, length_packet in Hfuel. lia. }
    exists r, st'. split; [exact Hr|]. split; [done|]. rewrite Ht. cbn. by rewrite writes_app, app_assoc.
Qed.

Lemma fake_session_run srv caps cmds st :
  Forall small cmds → wleft st = None → inp st = stream cmds → fin st = io_EOF →
  ∃ r st', fake_session srv caps st = (r, st') ∧ r ≠ Panic ∧
    trace st' = trace st ++ writes st (answers srv caps cmds).
Proof. intros. unfold fake_session. apply fake_commands_run; [done..|lia]. Qed.

(** ** The login *)
(** The response of a client that uses native passwords. *)
Definition native_response (client : Z) (filler : list byte) (user auth db more : list byte) : list byte :=
  le_bytes 4 client ++ filler ++ user ++ NUL :: byte_of (Z.of_nat (length auth)) :: auth ++ db ++ NUL :: more.

Lemma fake_credentials_of user auth db more :
  NUL ∉ user → NUL ∉ db → (length auth < 256)%nat →
  fake_credentials (user ++ NUL :: byte_of (Z.of_nat (length auth)) :: auth ++ db ++ NUL :: more) = (user, auth, db).
Proof.
  intros Hu Hd Ha. unfold fake_credentials. rewrite cut_byte_app by done.
  rewrite u8_byte_of, Z.mod_small, Nat2Z.id by lia.
  destruct (Nat.leb_spec (length auth + 1) (length (byte_of (Z.of_nat (length auth)) :: auth ++ db ++ NUL :: more))) as [_|Hl];
    [|cbn [length] in Hl; rewrite length_app in Hl; lia].
  cbn [drop Nat.add]. rewrite drop_0, take_app_length, drop_app_length, cut_byte_app by done. done.
Qed.

Definition logs_in (srv : Server) (user auth : list byte) : Prop :=
  user = User srv ∧ auth = nativeScramble fake_salt (Password srv).
#[export] Instance logs_in_dec srv user auth : Decision (logs_in srv user auth).
Proof. unfold logs_in. apply _. Defined.

(** What a session on such a response and the commands after it does. *)
Definition fake_events (srv : Server) (st : hstate fake_event) (client : Z) (user auth db : list byte)
    (cmds : list (byte * list byte)) : list (event fake_event) :=
  let caps := fake_caps srv in
  writes st [(byte_of 0, fake_greeting caps)] ++
  (if decide (logs_in srv user auth) then
     EvX (FParams (fake_params user db)) ::
       writes st ((byte_of 2, myOK (byte_of 0)) :: answers srv (Z.land caps client) cmds)
   else writes st [(byte_of 2, denied)]).

Lemma serveMySQL_run srv client filler user auth db more q cmds st :
  0 <= client < 2 ^ 32 → length filler = 28%nat → NUL ∉ user → NUL ∉ db → (length auth < 256)%nat →
  small (q, native_response client filler user auth db more) → Forall small cmds →
  wleft st = None → fin st = io_EOF →
  inp st = packet q (native_response client filler user auth db more) ++ stream cmds →
  ∃ st', serveMySQL srv st = (Ok tt, st') ∧
    trace st' = trace st ++ fake_events srv st client user auth db cmds.
Proof.
  intros Hcl Hfill Hu Hd Ha Hsm Hcmds Hw Hf Hi. unfold serveMySQL, ignore, fake_login. cbv zeta.
  set (st1 := after (writes st [(byte_of 0, fake_greeting (fake_caps srv))]) st).
  rewrite (bind_run _ _ _ _ _ (fake_myWrite_run st _ _ Hw)). fold st1.
  set (resp := native_response client filler user auth db more) in *.
  rewrite (bind_run _ _ _ _ _ (fake_myRead_packet st1 q resp (stream cmds) Hsm Hi)). cbv beta iota.
  assert (length (le_bytes 4 client ++ filler) = 32%nat) as H32 by (rewrite length_app, Hfill; done).
  assert (resp = (le_bytes 4 client ++ filler) ++ user ++ NUL :: byte_of (Z.of_nat (length auth)) :: auth ++ db ++ NUL :: more) as Hresp
    by (unfold resp, native_response; by rewrite <- app_assoc).
  destruct (Nat.ltb_spec (length resp) 32) as [Hl|_].
  { rewrite Hresp, length_app, H32 in Hl. lia. }
  assert (le_uint 4 resp = Ok client) as Hcap.
  { unfold le_uint, slice_to. rewrite decide_True by (rewrite Hresp, length_app, H32; lia).
    unfold resp, native_response. rewrite take_app_length' by done. cbn [mbind res_bind].
    by rewrite le_val_bytes, Z.mod_small. }
  rewrite (bind_lift_Ok _ _ _ _ Hcap).
  assert (slice_from resp 32 = Ok (user ++ NUL :: byte_of (Z.of_nat (length auth)) :: auth ++ db ++ NUL :: more)) as Hrest.
  { unfold slice_from. rewrite decide_True by (rewrite Hresp, length_app, H32; lia).
    by rewrite Hresp, drop_app_length' by done. }
  rewrite (bind_lift_Ok _ _ _ _ Hrest), fake_credentials_of by done. unfold fake_events.
  destruct (decide (logs_in srv user auth)) as [[Hus Hau]|Hno].
  - rewrite !bool_decide_true by done. cbn [negb orb].
    set (st2 := add_event (EvX (FParams (fake_params user db))) (with_inp (stream cmds) st1)).
    set (st3 := after (writes st [(byte_of 2, myOK (byte_of 0))]) st2).
    destruct (fake_session_run srv (Z.land (fake_caps srv) client) cmds st3) as (r & st' & Hrun & Hnp & Ht); [done..|].
    rewrite (bind_run _ _ _ tt st2) by done.
    rewrite (bind_run _ _ _ tt st3) by (by apply fake_myWrite_run). rewrite Hrun.
    exists st'. split; [by destruct r as [[]|e|]|]. rewrite Ht. cbn. by rewrite <- !app_assoc.
  - assert (negb (bool_decide (user = User srv)) || negb (bool_decide (auth = nativeScramble fake_salt (Password srv))) = true) as ->.
    { unfold logs_in in Hno. do 2 case_bool_decide; naive_solver. }
    rewrite fake_myWrite_run by done. eexists. split; [done|]. cbn. by rewrite <- app_assoc.
Qed.

(** A MySQL client that logs in with a native password and then sends commands:
    the greeting, the answer to the login, which is recorded when it is right, and
    the answers to the commands. *)
Lemma fake_mysql_login srv client filler user auth db more q cmds st :
  0 <= client < 2 ^ 32 → length filler = 28%nat → NUL ∉ user → NUL ∉ db → (length auth < 256)%nat →
  small (q, native_response client filler user auth db more) → Forall small cmds →
  wleft st = None → fin st = io_EOF →
  inp st = packet q (native_response client filler user auth db more) ++ stream cmds →
  ∃ st', serveMySQL srv st = (Ok tt, st') ∧
    trace st' = trace st ++ fake_events srv st client user auth db cmds.
Proof. apply serveMySQL_run. Qed.

(** C39: The relay composed with the fake MySQL backend: once the client's stream has
    ended, in whatever interleaving the relay ran, the backend answers exactly the
    commands of the client's complete packets other than [COM_CHANGE_USER], in order,
    up to the first that is empty or quits: no [COM_CHANGE_USER] is ever seen behind
    the relay. *)
Theorem proxied_commands srv caps (st : myRelay) (h : hstate fake_event) :
  relay_reachable st → copier_of (g2 st) = FEnd true →
  wleft h = None → fin h = io_EOF → inp h = received (conn_b st) →
  ∃ pkts tail, peer_sent (conn_a st) = stream pkts ++ tail ∧ relay_packet tail = None ∧
    trace (fake_session srv caps h).2 = trace h ++ writes h (answers srv caps (filter (λ p, ¬ change_user p) pkts)).
Proof.
  intros Hr Hend Hw Hf Hi. destruct (relay_reachable_sound st Hr) as [_ (pkts & ans & tail & [F1 F2 _ _ _ _ F7])].
  rewrite Hend in F7. destruct F7 as [_ F7]. destruct (F7 eq_refl) as (_ & Htail & Hout).
  exists pkts, tail. split; [done|]. split; [done|].
  assert (inp h = stream (filter (λ p, ¬ change_user p) pkts)) as Hinp.
  { rewrite Hi. unfold received. rewrite <- (only_out T2); [exact Hout|].
    apply relay_only_b; [|done]. intros ? ? ? ? ? ? ?. apply forward_only. }
  destruct (fake_session_run srv caps (filter (λ p, ¬ change_user p) pkts) h) as (r & h' & Hrun & _ & Ht); [|done..|].
  - apply Forall_forall. intros p [_ Hp]%list_elem_of_filter. by eapply Forall_forall in F1.
  - by rewrite Hrun.
Qed.

(** ** PostgreSQL *)
(** The queries a session answers: those before its end. *)
Fixpoint asked (msgs : list pg_received) : nat :=
  match msgs with
  | [] | Terminate :: _ => 0
  | Query :: msgs => S (asked msgs)
  | _ :: msgs => asked msgs
  end.

Lemma fake_queries_all srv msgs : fake_queries srv None msgs = replicate (asked msgs) (FFlush (fake_rows srv)).
Proof. induction msgs as [|[] msgs IH]; cbn; [done|done|by rewrite IH|done|done]. Qed.

Lemma fake_queries_rows srv fl msgs e : e ∈ fake_queries srv fl msgs → e = FFlush (fake_rows srv).
Proof.
  revert fl. induction msgs as [|[] msgs IH]; intros fl; cbn; rewrite ?elem_of_nil; try done.
  - apply IH.
  - destruct (can_flush fl); rewrite ?elem_of_cons, ?elem_of_nil; [|done]. intros [->|He]; [done|by eapply IH].
  - apply IH.
Qed.

Definition pg_logs_in (srv : Server) (m : gmap gostring gostring) (msgs : list pg_received) : Prop :=
  ∃ rest, msgs = PasswordMessage (Password srv) :: rest ∧ default [] (m !! lit "user") = User srv.

Lemma pg_password_test srv m pw msgs :
  (match pw with
   | PasswordMessage p => negb (bool_decide (default [] (m !! lit "user") = User srv)) || negb (bool_decide (p = Password srv))
   | _ => true
   end = false) ↔ pg_logs_in srv m (pw :: msgs).
Proof.
  unfold pg_logs_in. destruct pw as [p| | |]; try (split; [done|by intros (? & [=] & _)]).
  do 2 case_bool_decide; cbn; naive_solver.
Qed.

(** A PostgreSQL session records a login exactly when the user and the password are
    the server's, and a cancel request exactly when it carries the server's key;
    and what it sends to a client that does not lose the connection. *)
Lemma fake_pg_login srv fl set_auth first msgs :
  (∀ m, FParams m ∈ servePostgres srv fl set_auth first msgs ↔
     first = Some (StartupMessage m) ∧ can_flush fl = true ∧ set_auth = true ∧ pg_logs_in srv m msgs) ∧
  (∀ pid, FCancel pid ∈ servePostgres srv fl set_auth first msgs ↔
     first = Some (CancelRequest pgPID pgSecret) ∧ pid = pgPID) ∧
  (∀ m rest, servePostgres srv None true (Some (StartupMessage m)) (PasswordMessage (Password srv) :: rest) =
     FFlush [AuthenticationCleartextPassword] ::
       if decide (default [] (m !! lit "user") = User srv)
       then FParams m :: FFlush fake_welcome :: replicate (asked rest) (FFlush (fake_rows srv))
       else [FFlush pg_denied]).
Proof.
  split; [|split].
  - intros m. unfold servePostgres. destruct first as [[m'|pid key|]|].
    2: { destruct (_ && _); rewrite ?list_elem_of_singleton, ?elem_of_nil; split; (done || by intros (? & _)). }
    2, 3: rewrite elem_of_nil; split; [done|by intros (? & _)].
    destruct (can_flush fl); cbn [negb]; [|rewrite elem_of_nil; split; [done|by intros (_ & ? & _)]].
    rewrite elem_of_cons. destruct set_auth; cbn [negb]; [|rewrite elem_of_nil; split; [by intros [?|[]]|by intros (_ & _ & ? & _)]].
    destruct msgs as [|pw msgs]; [rewrite elem_of_nil; split; [by intros [?|[]]|by intros (_ & _ & _ & ? & [=] & _)]|].
    pose proof (pg_password_test srv m' pw msgs) as Htest. destruct (match pw with PasswordMessage _ => _ | _ => true end) eqn:Hp.
    + split; [|intros ([= ->] & _ & _ & Hlog); by apply Htest in Hlog].
      destruct (can_flush _); rewrite ?list_elem_of_singleton, ?elem_of_nil; by intros [?|?].
    + rewrite elem_of_cons. split.
      * intros [?|[[= ->]|He]]; [done|by split_and!; [..|apply Htest]|].
        destruct (can_flush _); [|by apply elem_of_nil in He].
        apply elem_of_cons in He as [?|He%fake_queries_rows]; done.
      * intros ([= ->] & _). auto.
  - intros pid. unfold servePostgres. destruct first as [[m'|pid' key|]|].
    2: { destruct (bool_decide_reflect (pid' = pgPID)), (bool_decide_reflect (key = pgSecret)); cbn;
         rewrite ?list_elem_of_singleton, ?elem_of_nil; naive_solver. }
    2, 3: rewrite elem_of_nil; split; [done|by intros (? & _)].
    split; [|by intros [? _]].
    destruct (can_flush fl); cbn [negb]; [|by rewrite elem_of_nil].
    intros [?|He]%elem_of_cons; [done|]. destruct set_auth; cbn [negb] in He; [|by apply elem_of_nil in He].
    destruct msgs as [|pw msgs]; [by apply elem_of_nil in He|].
    destruct (match pw with PasswordMessage _ => _ | _ => true end), (can_flush _);
      rewrite ?elem_of_cons, ?list_elem_of_singleton, ?elem_of_nil in He; try naive_solver.
    destruct He as [?|[?|He%fake_queries_rows]]; done.
  - intros m rest. unfold servePostgres. cbn [can_flush fmap option_fmap option_map negb].
    rewrite (bool_decide_true (Password srv = Password srv)) by done. cbn [negb]. rewrite orb_false_r, fake_queries_all.
    by destruct (decide _) as [Hu|Hu]; [rewrite bool_decide_true|rewrite bool_decide_false].
Qed.
