(* ===== verification/Witnesses.v ===== *)
(** * Concrete instances of the theorems

    A configuration with a listener of each provider and one principal, and the
    theorems that have hypotheses applied at it or at small inputs: the
    hypotheses hold there. *)
From stdpp Require Import relations.
From S2P Require Import Prelude Wire GoStrings Conn NetAddr NetAddrSpec Sha256 Codec Json JsonSpec Rsa UrlLib GoTime Config ConfigSpec Identity IdentitySpec Aws AwsSpec ServiceSpec HttpMock HttpMockSpec LoginSpec Memconn MemconnSpec MemconnRefine Server ServerSpec MySQL MySQLSpec MySQLSession Postgres PostgresSpec PostgresSession PostgresCancel.
#[local] Open Scope Z_scope.

#[local] Instance plain_unicode : GoUnicode := {| unicode_ToLower s := s; unicode_Fields s := [s]; unicode_TrimSpace s := s |}.

(** ** The configuration *)
Definition pg_listener : Listener :=
  mkListener (lit "pg") (lit "127.0.0.1:5432") aws postgres (lit "db-1") (lit "db.example.com") (lit "us-east-1")
    (lit "db-ABC") [] (lit "127.0.0.1:15432") (lit "disable").
Definition my_listener : Listener :=
  mkListener (lit "my") (lit "127.0.0.1:3306") google mysql (lit "db-2") [] [] [] [] (lit "127.0.0.1:13306") [].
Definition az_listener : Listener :=
  mkListener (lit "az") (lit "127.0.0.1:5433") azure postgres (lit "db-3") [] [] [] (lit "tenant-1")
    (lit "127.0.0.1:15433") [].
Definition alice : Principal :=
  mkPrincipal (lit "alice") (lit "alice@example.com") [lit "dba"] [lit "pg"; lit "my"; lit "az"] (lit "backend")
    (lit "backend-password") (lit "AKIAEXAMPLE") (lit "secret-key") [] [] (lit "refresh-1") (lit "client-1")
    (lit "client-secret").
Definition sample_config : Config :=
  mkConfig (lit "127.0.0.1:8090") [] (lit "http://127.0.0.1:8090") [] [] [pg_listener; my_listener; az_listener] [alice].

(** A key of the right size; its exponents are the trivial ones. *)
Definition sample_key : rsa_key := mkKey (2 ^ 2048 - 1) 1 1.
Definition sample_service : service := newService sample_config sample_key.
Definition sample_http : mockHTTP := HTTPHandler sample_service.

Lemma sample_wf : WellFormed sample_config.
Proof. apply (Validate_accepts sample_config sample_config). by vm_compute. Qed.

Lemma sample_key_valid : valid_key sample_key.
Proof.
  split; [cbn; lia|]. intros m Hm. unfold powmod. cbn [rsa_d rsa_e sample_key powmod_pos].
  rewrite Z.mod_mod by (cbn; lia). by apply Z.mod_small.
Qed.

(** Noon of 2024-01-01 in nanoseconds. *)
Definition noon : Z := 1704110400 * Second.

Definition an_env (b : list byte) : env := mkEnv (λ _, noon) b id.

(** ** Google *)
Definition form_request (path body : gostring) : request :=
  mkRequest (lit "POST") path [] ∅ (lit "127.0.0.1") false (lit "application/x-www-form-urlencoded", false) (Ok body).

Definition refresh_request : request :=
  form_request (lit "/token") (lit "grant_type=refresh_token&refresh_token=refresh-1").

Definition form_of (r : request) : Values := match ParseForm r with Ok f => f | _ => ∅ end.

Lemma form_of_Ok r : is_Ok (ParseForm r) = true → ParseForm r = Ok (form_of r).
Proof. unfold form_of. by destruct (ParseForm r). Qed.

Definition refresh_form : Values := form_of refresh_request.

Lemma refresh_request_form : ParseForm refresh_request = Ok refresh_form.
Proof. apply form_of_Ok. by vm_compute. Qed.

Lemma google_oauth_login_witness :
  w_status (serve (an_env []) refresh_request sample_http).1 = 200 ∧
  ∃ p scope, oauth_grant sample_http refresh_request p scope ∧ p ∈ [alice] ∧
    ∀ now2,
      svc_Validate noon now2 (h_s (serve_all (serve (an_env []) refresh_request sample_http).2 [])) my_listener
        (googleUsername (Email p) mysql) (google_token []) = if Granted p (lit "my") then Ok p else Err auth_failed.
Proof.
  assert (w_status (serve (an_env []) refresh_request sample_http).1 = 200) as Hs by (by vm_compute).
  split; [exact Hs|].
  destruct (google_oauth_login (an_env []) refresh_request sample_http sample_wf (or_intror eq_refl) Hs)
    as (p & scope & Hg & Hp & _ & Hl).
  exists p, scope. split; [exact Hg|]. split; [exact Hp|]. intros now2.
  apply (Hl [] my_listener noon now2 (Forall_nil_2 _)); [right; by left|done|by vm_compute].
Defined.

Lemma google_login_needs_grant_witness :
  ∃ e r, (e, r) ∈ [(an_env [], refresh_request)] ∧ google_token [] = google_token (random e).
Proof.
  destruct (google_login_needs_grant sample_config sample_key [(an_env [], refresh_request)] noon my_listener
    (lit "alice") (google_token []) alice) as (e & r & q & Hin & Htok & _); [by vm_compute|].
  by exists e, r.
Defined.

Lemma google_issued_token_accepted_witness :
  validateGoogle noon (after_issues (googleIssue [] noon alice googleSQLScope sample_service).2 []) my_listener
    (lit "alice") (google_token []) = Ok alice.
Proof.
  pose proof (google_issued_token_accepted sample_service [] noon alice googleSQLScope [] my_listener noon) as Hthm.
  apply Hthm; [by vm_compute|done|by apply scope_allowed_sql|by apply Forall_nil|by vm_compute].
Defined.

Lemma login_unambiguous_witness : alice = alice.
Proof.
  set (s := (googleIssue [] noon alice googleSQLScope sample_service).2).
  apply (login_unambiguous s s my_listener noon noon noon noon (lit "alice") (google_token []) (google_token []));
    [done|apply sample_wf|cbn; right; by left|done|by vm_compute|by vm_compute].
Defined.

(** ** Azure *)
Lemma sample_text audience :
  forallb ascii audience = true → claims_text sample_service alice (lit "tenant-1") audience.
Proof.
  intros Ha. split; [| |exact (valid_utf8_ascii _ Ha)| | |]; [..|change (Groups alice) with [lit "dba"]; rewrite Forall_singleton];
    by apply valid_utf8_ascii; vm_compute.
Qed.

Lemma sample_times : in_int64 (unix noon) ∧ in_int64 (unix (noon + Hour)).
Proof. by vm_compute. Qed.

Lemma azure_issued_token_accepted_witness :
  validateAzure noon noon sample_service az_listener (lit "dba")
    (azureIssue noon sample_service alice (lit "tenant-1") 0) = Ok alice.
Proof.
  apply (azure_issued_token_accepted sample_service alice az_listener 0 noon noon noon (lit "dba"));
    [apply sample_key_valid|by apply sample_text; vm_compute|by vm_compute|apply sample_times|apply sample_times
    |done|by vm_compute|right; by left].
Defined.

Lemma azure_issued_token_confined_witness : principal sample_service (ID alice) = Some alice.
Proof.
  pose proof (azure_issued_token_confined sample_service alice (lit "tenant-1") azureAudience 0 az_listener noon noon
    noon (lit "dba") alice) as Hthm.
  apply Hthm; [apply sample_key_valid|by apply sample_text; vm_compute|apply sample_times|apply sample_times|].
  apply (azure_issued_accepted sample_service alice az_listener 0 noon noon noon (lit "dba"));
    [apply sample_key_valid|by apply sample_text; vm_compute|by vm_compute|apply sample_times|apply sample_times
    |done|by vm_compute|right; by left].
Defined.

Definition client_request : request :=
  form_request (lit "/tenant-1/oauth2/v2.0/token")
    (lit "grant_type=client_credentials&client_id=client-1&client_secret=client-secret&scope=https%3A%2F%2Fossrdbms-aad.database.windows.net%2F.default").

(** With the ASCII fields of the library, not the parameter's. *)
Lemma client_credentials_login_witness :
  ∃ p tenant, client_credentials sample_http client_request p tenant.
Proof.
  destruct (client_credentials_login (an_env []) client_request sample_http) as (p & tenant & Hc & _).
  - apply sample_wf.
  - apply sample_key_valid.
  - split; apply sample_times.
  - by vm_compute.
  - by exists p, tenant.
Defined.

Definition identity_request : request :=
  mkRequest (lit "GET") (lit "/metadata/identity/oauth2/token")
    (lit "resource=https%3A%2F%2Fossrdbms-aad.database.windows.net")
    {[lit "Metadata" := [lit "true"]]} (lit "127.0.0.1") false ([], false) (Ok []).

Lemma managed_identity_token_witness : managed_identity sample_http [] alice.
Proof.
  destruct (managed_identity_token (an_env []) identity_request sample_http) as (_ & _ & p & Hp & _).
  - apply sample_key_valid.
  - split; apply sample_times.
  - by vm_compute.
  - assert (query_Get identity_request (lit "client_id") = []) as Hid by (by vm_compute).
    rewrite Hid in Hp. unfold managed_identity in *. rewrite decide_True in * by done.
    assert (clients sample_http = [alice]) as Hc by (by vm_compute).
    rewrite Hc in *. by injection Hp as ->.
Defined.

(** ** AWS *)
Definition sample_values : Values := list_to_map
  [(lit "Action", [lit "connect"]); (lit "DBUser", [lit "app"]);
   (lit "X-Amz-Algorithm", [lit "AWS4-HMAC-SHA256"]); (lit "X-Amz-SignedHeaders", [lit "host"]);
   (lit "X-Amz-Expires", [lit "900"]); (lit "X-Amz-Date", [lit "20240101T120000Z"]);
   (lit "X-Amz-Credential", [lit "AKIAEXAMPLE/20240101/us-east-1/rds-db/aws4_request"])].

Definition sample_host : gostring := lit "db.example.com:5432".
Definition sample_token : gostring :=
  sdk_token sample_host [] (awsQuery sample_values)
    (signature_for (AWSSecretKey alice) (vget sample_values (lit "X-Amz-Date")) (Region pg_listener) sample_host
      sample_values).

Lemma sample_single : single_valued sample_values.
Proof. apply not_single_valued. by vm_compute. Qed.
Lemma sample_no_signature : sample_values !! signatureParam = None.
Proof. by vm_compute. Qed.
Lemma sample_size : (size sample_values + 1 < max_query_params)%nat.
Proof. apply Nat.ltb_lt. by vm_compute. Qed.
Lemma sample_parameters : aws_parameters sample_values (lit "app").
Proof. unfold aws_parameters. split_and!; by vm_compute. Qed.
Lemma sample_window : aws_window sample_values noon noon.
Proof. exists 900, noon. split_and!; (by vm_compute) || lia. Qed.
Lemma sample_scope :
  split_byte (vget sample_values (lit "X-Amz-Credential")) (chr "/") =
    [AWSAccessKey alice; take 8 (vget sample_values (lit "X-Amz-Date")); Region pg_listener; lit "rds-db";
     lit "aws4_request"].
Proof. by vm_compute. Qed.
Lemma sample_credential : aws_credential sample_service sample_values pg_listener alice.
Proof. exists (AWSAccessKey alice). split_and!; [apply sample_scope|by vm_compute|done|by vm_compute]. Qed.

Lemma aws_signed_token_accepted_witness :
  validateAWS noon noon sample_service pg_listener (lit "app") sample_token = Ok alice.
Proof.
  apply (aws_signed_token_accepted noon noon sample_service pg_listener (lit "app") alice (lit "127.0.0.1") (lit "5432")
    [] sample_values);
    [by vm_compute|by vm_compute|by vm_compute|by left|apply sample_single|apply sample_no_signature
    |apply sample_size|apply sample_parameters|apply sample_window|apply sample_credential].
Defined.

Lemma sample_token_accepted : validateAWS noon noon sample_service pg_listener (lit "app") sample_token = Ok alice.
Proof.
  apply (signed_token_accepted noon noon sample_service pg_listener (lit "app") alice (lit "127.0.0.1") (lit "5432")
    [] sample_values);
    [by vm_compute|by vm_compute|by vm_compute|by left|apply sample_single|apply sample_no_signature
    |apply sample_size|apply sample_parameters|apply sample_window|apply sample_credential].
Qed.

Lemma aws_token_bound_witness : ∃ host, endpoint pg_listener host ∧ endpoint pg_listener host.
Proof.
  apply (aws_token_bound noon noon noon noon sample_service sample_service pg_listener pg_listener (lit "app")
    (lit "app") sample_token alice alice); apply sample_token_accepted.
Defined.

Lemma ParseQuery_awsQuery_witness : ParseQuery (awsQuery sample_values) = Ok sample_values.
Proof.
  apply (ParseQuery_awsQuery sample_values); [apply sample_single|]. apply Nat.ltb_lt. by vm_compute.
Defined.

Lemma awsQuery_order_witness : awsQuery_in (reverse (map_to_list sample_values)) = awsQuery sample_values.
Proof. apply (awsQuery_order sample_values). by rewrite reverse_Permutation. Defined.

Definition container_request : request :=
  mkRequest (lit "GET") (lit "/v2/credentials/alice") [] ∅ (lit "127.0.0.1") false ([], false) (Ok []).

Lemma container_credentials_login_witness :
  svc_Validate noon noon sample_service pg_listener (lit "app") sample_token = Ok alice.
Proof.
  destruct (container_credentials_login (an_env []) container_request sample_http) as (p & _ & Hin & _ & _ & Hlogin);
    [apply sample_wf|by vm_compute|].
  apply list_elem_of_singleton in Hin as ->.
  apply (Hlogin pg_listener (lit "127.0.0.1") (lit "5432") (lit "app") sample_values []);
    [done|by vm_compute|by vm_compute|by vm_compute|by vm_compute|by left| |apply sample_window].
  split; [apply sample_single|]. split; [apply sample_no_signature|]. split; [apply sample_size|].
  split; [apply sample_parameters|]. split; [apply sample_scope|by vm_compute].
Defined.

(** ** IMDS tokens *)
Definition put_request : request :=
  mkRequest (lit "PUT") imds_token_path [] {[lit "X-Aws-Ec2-Metadata-Token-Ttl-Seconds" := [lit "60"]]}
    (lit "127.0.0.1") false ([], false) (Ok []).
Definition role_request : request :=
  mkRequest (lit "GET") (imds_prefix ++ lit "alice") []
    {[lit "X-Aws-Ec2-Metadata-Token" := [b64_encode (lit "token")]]} (lit "127.0.0.1") false ([], false) (Ok []).

Lemma put_request_ok : token_request put_request 60.
Proof. split_and!; (by vm_compute) || lia. Qed.

Lemma imds_token_usable_witness :
  awsIMDSCredentials (an_env []) role_request (serve_all (serve (an_env (lit "token")) put_request sample_http).2 [])
    = imds_credentials_reply alice noon.
Proof.
  pose proof (imds_token_usable (an_env (lit "token")) put_request sample_http 60 noon [] (an_env []) role_request
    alice) as Hthm.
  destruct (serve (an_env (lit "token")) put_request sample_http) as [w h'].
  apply Hthm; [apply put_request_ok|done|by apply Forall_nil|by vm_compute|by split; vm_compute|by vm_compute
    |by vm_compute|done|by vm_compute].
Defined.

Lemma imds_credentials_need_token_witness :
  ∃ e0 r0 ttl i, (e0, r0) ∈ [(an_env (lit "token"), put_request)] ∧ token_request r0 ttl ∧
    noon < clock e0 i + ttl * Second.
Proof.
  destruct (imds_credentials_need_token sample_service [(an_env (lit "token"), put_request)] (an_env []) role_request)
    as (_ & e0 & r0 & ttl & i & Hin & Ht & _ & Hlt); [by vm_compute|].
  by exists e0, r0, ttl, i.
Defined.

(** ** In-memory connections: a byte is written and read, the writer closes *)
Definition a_byte : list byte := [chr "x"].

Definition written_mem : mem :=
  mkMem (broadcast (with_data a_byte newMemBuffer)) {[0%nat := WriteDone a_byte (1%nat, None)]} a_byte [].
Definition closed_mem : mem := update_mem CloseWrite written_mem.
Definition read_mem : mem :=
  mkMem (broadcast (with_data [] (buf closed_mem)))
    (<[1%nat := ReadDone (Ok a_byte)]> (calls closed_mem)) a_byte a_byte.
Definition eof_mem : mem :=
  mkMem (buf read_mem) (<[2%nat := ReadDone (Err io_EOF)]> (calls read_mem)) a_byte a_byte.

Lemma written_reachable : rtc mem_step mem_init written_mem.
Proof.
  eapply rtc_l; [exact (step_write mem_init 0%nat a_byte (lookup_empty _))|].
  eapply rtc_l; [|apply rtc_refl].
  exact (step_write_section (set_call 0%nat (Writing a_byte 0) mem_init) 0%nat a_byte 0 (λ _, 0)
    (Return (1%nat, None)) 1%nat (broadcast (with_data a_byte newMemBuffer)) eq_refl eq_refl).
Qed.

Lemma eof_reachable : rtc mem_step mem_init eof_mem.
Proof.
  etrans; [apply written_reachable|].
  eapply rtc_l; [exact (step_update written_mem CloseWrite)|].
  eapply rtc_l; [exact (step_read closed_mem 1%nat 16 eq_refl)|].
  eapply rtc_l.
  { exact (step_read_section (set_call 1%nat (Reading 16) closed_mem) 1%nat 16 0 0 (Return (Ok a_byte))
      (broadcast (with_data [] (buf closed_mem))) eq_refl eq_refl). }
  eapply (rtc_l _ _ (set_call 2%nat (Reading 16) read_mem)).
  { exact (step_read read_mem 2%nat 16 eq_refl). }
  eapply rtc_l; [|apply rtc_refl].
  exact (step_read_section (set_call 2%nat (Reading 16) read_mem) 2%nat 16 0 0 (Return (Err io_EOF))
      (buf read_mem) eq_refl eq_refl).
Qed.

Lemma mem_eof_witness : received eof_mem = a_byte.
Proof.
  apply (mem_eof eof_mem eof_mem 2%nat); [apply eof_reachable|done|apply rtc_refl].
Defined.

Lemma mem_stream_witness : sent written_mem = received written_mem ++ a_byte.
Proof. apply (mem_stream written_mem). apply written_reachable. Defined.

(** The channel of that run: one call got the byte, another the end of the stream. *)
Lemma mem_refines_witness :
  ∃ c, rtc channel_step channel_init c ∧ queue c = [] ∧ w_closed c = true ∧
    pending c !! 1%nat = Some (GotBytes (Ok a_byte)) ∧ pending c !! 2%nat = Some (GotBytes (Err io_EOF)).
Proof.
  destruct mem_refines as [Hinit Hsim]. destruct (Hsim mem_init eof_mem channel_init Hinit eof_reachable) as (c & Hc & [_ Hb Hp _]).
  exists c. split; [exact Hc|]. rewrite (bi_queue _ _ Hb), (bi_w_closed _ _ Hb), Hp. by rewrite !lookup_fmap.
Defined.

(** A reader that waits, and then a byte for it. *)
Definition waiting_mem : mem := mkMem newMemBuffer {[0%nat := ReadWaits 16 0 None]} [] [].
Definition woken_mem : mem := update_mem CloseWrite waiting_mem.

Lemma woken_reachable : rtc mem_step mem_init woken_mem.
Proof.
  eapply rtc_l; [exact (step_read mem_init 0%nat 16 (lookup_empty _))|].
  eapply (rtc_l _ _ waiting_mem).
  { exact (step_read_section (set_call 0%nat (Reading 16) mem_init) 0%nat 16 0 0 (Wait 0 None) newMemBuffer
      eq_refl eq_refl). }
  eapply rtc_l; [exact (step_update waiting_mem CloseWrite)|apply rtc_refl].
Qed.

Lemma mem_no_lost_wakeup_witness : ∃ m', mem_step woken_mem m' ∧ calls m' !! 0%nat = Some (Reading 16).
Proof.
  destruct (mem_no_lost_wakeup woken_mem woken_reachable) as (Hr & _ & _).
  destruct (Hr 0%nat 16%nat 0%nat None eq_refl) as [Hw|Hs]; [exact Hw|].
  specialize (Hs 0 0 eq_refl eq_refl). discriminate Hs.
Defined.

Lemma Close_ends_witness :
  read_section 0 0 16 (buf (conn_in client (Close client memPipe))) =
    (Return (Err net_ErrClosed), buf (conn_in client (Close client memPipe))).
Proof. apply (Close_ends client memPipe 16 [] 0 0 (λ _, 0)). done. Defined.

(** ** The emulator *)
Definition sample_platform : platform :=
  mkPlatform (λ _ a, Ok a) (λ _ _, Ok [lit "leaf"]) (λ _ _, Ok [lit "leaf"]) (λ a, Ok a) (Ok sample_key).

Lemma sample_platform_ok : well_behaved sample_platform.
Proof. by split; try done; intros ? ? ? [= <-]. Qed.

Definition sample_options : Options := mkOptions None false.
Definition sample_start := Start sample_platform sample_config sample_options.

Lemma Start_outcome_witness : is_Ok sample_start.1.1 = true ∧ sample_start.2 = [].
Proof.
  pose proof (Start_outcome sample_platform sample_config sample_options sample_platform_ok) as Hthm.
  assert (is_Ok sample_start.1.1 = true) as Hok by (by vm_compute). split; [exact Hok|].
  unfold sample_start in *. destruct (Start _ _ _) as [[[e|e|] opened] closed]; [|done..]. apply Hthm.
Defined.

Lemma sample_start_Ok : ∃ e opened closed, sample_start = (Ok e, opened, closed).
Proof.
  assert (is_Ok sample_start.1.1 = true) as Hok by (by vm_compute).
  destruct sample_start as [[[e|e|] opened] closed]; [by exists e, opened, closed|done..].
Qed.

Lemma dial_reaches_witness :
  ∃ e opened closed, sample_start = (Ok e, opened, closed) ∧
    ∀ network addr name, dial_target e network addr = Ok name →
      ∃ l, l ∈ Listeners (svc_config (svc e)) ∧ Name l = name ∧ addr ∈ dial_addresses l.
Proof.
  destruct sample_start_Ok as (e & opened & closed & Hs). exists e, opened, closed. split; [done|].
  destruct (dial_reaches sample_platform sample_config sample_options e opened closed Hs) as [Hd _].
  intros network addr name Hn. by apply Hd in Hn as [_ ?].
Defined.

Definition one_session : accept_state := mkAccept Accepting 1 {[0%nat := Serving]}.

Lemma one_session_reachable : rtc accept_any accept_init one_session.
Proof.
  eapply rtc_l; [exists false, false; exact (accept_conn _ _ 0%nat ∅ 0%nat (lookup_empty _))|].
  eapply rtc_l; [|apply rtc_refl].
  exists false, false. refine (accept_acquired _ _ 0%nat (<[0%nat := Pending]> ∅) 0%nat _). unfold max_sessions. lia.
Qed.

Lemma accept_sessions_witness : (total serving (conns one_session) ≤ max_sessions)%nat.
Proof. apply (accept_sessions one_session). apply one_session_reachable. Defined.

(** ** MySQL *)
Definition sample_cap : Z := foldr Z.lor 0
  [CLIENT_PROTOCOL_41; CLIENT_PLUGIN_AUTH; CLIENT_SSL; CLIENT_PLUGIN_AUTH_LENENC_CLIENT_DATA].
Definition filler : list byte := replicate 28 NUL.
Definition google_password : gostring := google_token [].
Definition sample_response : list byte := encode_response sample_cap filler (lit "alice") google_password [] [].
Definition sample_handshake : handshake := mkHS sample_cap (lit "alice") google_password [].

Lemma not_elem_of_bool (c : byte) (s : gostring) : bool_decide (c ∉ s) = true → c ∉ s.
Proof. apply bool_decide_eq_true_1. Qed.

Lemma myHandshakeResponse_roundtrip_witness : myHandshakeResponse sample_response = Ok sample_handshake.
Proof.
  apply (myHandshakeResponse_roundtrip sample_cap filler (lit "alice") google_password [] []);
    [by vm_compute|by vm_compute|by vm_compute|done|by apply not_elem_of_bool; vm_compute
    |by apply not_elem_of_bool; vm_compute|by apply not_elem_of_bool; vm_compute|by vm_compute|done].
Defined.

Lemma sample_response_parses : myHandshakeResponse sample_response = Ok sample_handshake.
Proof. by vm_compute. Qed.

Lemma myHandshakeResponse_sound_witness : NUL ∉ hs_password sample_handshake.
Proof. by apply (myHandshakeResponse_sound sample_response sample_handshake sample_response_parses). Defined.

Lemma myWrite_myRead_witness :
  let s := mkH [] io_EOF None false None [] : hstate my_event in
  myRead (mkH (written (trace (myWrite (byte_of 3) a_byte s).2) ++ []) io_EOF None false None [] : hstate my_event) =
    (Ok (a_byte, byte_of 3), mkH [] io_EOF None false None []).
Proof.
  apply (myWrite_myRead my_event (mkH [] io_EOF None false None [])
    (mkH (written (trace (myWrite (byte_of 3) a_byte (mkH [] io_EOF None false None [] : hstate my_event)).2) ++ [])
      io_EOF None false None []) (byte_of 3) a_byte []); [by vm_compute|done|done|done].
Defined.

Definition ssl_packet : list byte := le_bytes 4 sample_cap ++ replicate 28 NUL.
Definition my_client : hstate my_event :=
  mkH (packet (byte_of 1) ssl_packet) io_EOF None false
    (Some (packet (byte_of 2) sample_response ++ [], io_EOF)) [].
Definition my_salt : list byte := replicate 20 NUL.

Lemma my_client_runs : my_client_run my_salt my_client sample_handshake.
Proof.
  split; [done|done|done| |].
  - exists ssl_packet, []. split; [by split; vm_compute|]. cbn [inp my_client]. by rewrite app_nil_r.
  - exists sample_response, [], io_EOF. split_and!; [done|by vm_compute|apply sample_response_parses].
Qed.

(** The service once it has issued the token. *)
Definition issued_service : service := (googleIssue [] noon alice googleSQLScope sample_service).2.

Lemma issued_accepts : svc_Validate noon noon issued_service my_listener (lit "alice") google_password = Ok alice.
Proof. by vm_compute. Qed.

Lemma serveMySQL_runs_witness :
  (serveMySQL (svc_Validate noon noon issued_service) (λ _, Some []) [] (Some my_salt) my_listener my_client).1 = Ok tt.
Proof.
  pose proof (serveMySQL_runs (svc_Validate noon noon issued_service) (λ _, Some []) [] my_listener my_salt my_client
    sample_handshake my_client_runs) as Hrun.
  cbv zeta in Hrun. cbn [hs_user hs_password sample_handshake] in Hrun. rewrite issued_accepts in Hrun.
  apply Hrun. unfold framing_agrees. apply Forall_forall. by repeat (apply Forall_cons; split); [..|apply Forall_nil].
Defined.

Lemma serveMySQL_session_witness :
  (serveMySQL (svc_Validate noon noon issued_service) (λ _, Some []) [] (Some my_salt) my_listener my_client).1 ≠ Panic.
Proof.
  pose proof (@serveMySQL_session (service_authenticator noon noon issued_service) (λ _, Some []) [] (Some my_salt)
    my_listener my_client eq_refl eq_refl) as Hs.
  cbn [authenticate service_authenticator] in Hs.
  destruct (serveMySQL _ _ _ _ _ _) as [r s']. apply Hs.
Defined.

(** ** PostgreSQL *)
Definition startup_body : list byte := params_body [(lit "user", lit "app")] ++ [NUL].
Definition startup_params : gmap gostring gostring :=
  match pg_parameters startup_body with Ok m => m | _ => ∅ end.

Lemma startup_parses : pg_parameters startup_body = Ok startup_params.
Proof.
  assert (is_Ok (pg_parameters startup_body) = true) as Hok by (by vm_compute).
  unfold startup_params. by destruct (pg_parameters startup_body).
Qed.

Definition pg_client : hstate pg_event :=
  mkH (gss 0 ++ pg_ssl_request 8 ++ []) io_EOF None false
    (Some (gss 0 ++ startup_packet startup_body ++ password_packet sample_token ++ [], io_EOF)) [].

Lemma pg_client_runs : pg_client_run pg_client 0 0 startup_params [] sample_token.
Proof.
  split; [done|done| | | |by vm_compute|by vm_compute|by vm_compute|by vm_compute].
  - exists 8, []. split; [lia|done].
  - exists startup_body, [], io_EOF. split; [done|]. split; [by vm_compute|apply startup_parses].
  - apply Z.leb_le. by vm_compute.
Qed.

Definition pg_hijacked : pgHijacked := mkHijacked ∅ 42 (lit "abcd") (chr "I").
Definition pg_server : pgLogin → option pgBackend := λ _, Some (mkBackend None (inr pg_hijacked)).

Lemma service_accepts_app : svc_Validate noon noon sample_service pg_listener (lit "app") sample_token = Ok alice.
Proof.
  apply svc_Validate_Ok; [|by vm_compute]. left. split; [done|]. apply validateAWS_spec, sample_token_accepted.
Qed.

Lemma startup_user : get startup_params (lit "user") = lit "app".
Proof. by vm_compute. Qed.

Definition sample_login : pgLogin :=
  mkPgLogin (lit "127.0.0.1") 15432 (lit "backend") (lit "backend-password") (lit "backend") None
    (set_param (lit "replication") []
      (set_param (lit "application_name") (get startup_params (lit "application_name")) ∅)).

Lemma sample_pg_login : pg_login (inr ∅) pg_listener alice startup_params [] = Ok sample_login.
Proof.
  unfold pg_login. assert (pg_upstream pg_listener = Ok (lit "127.0.0.1", 15432)) as -> by (by vm_compute).
  rewrite Ok_bind. cbn [of_sum]. rewrite Ok_bind.
  assert (pg_database alice startup_params = lit "backend") as -> by (by vm_compute).
  assert (pg_tls pg_listener (lit "127.0.0.1") = None) as -> by (by vm_compute). done.
Qed.

Lemma servePostgres_runs_witness :
  (servePostgres (svc_Validate noon noon sample_service) (inr ∅) pg_server (λ _, None) (λ _, None) None pg_listener
    pg_client).1 = Ok tt.
Proof.
  pose proof (servePostgres_runs (svc_Validate noon noon sample_service) (inr ∅) pg_server (λ _, None) (λ _, None) None
    pg_listener pg_client 0 0 startup_params [] sample_token pg_client_runs) as Hrun.
  cbv zeta in Hrun. rewrite startup_user, service_accepts_app, sample_pg_login in Hrun.
  unfold pg_server in Hrun at 1. rewrite decide_True in Hrun by done. apply Hrun.
Defined.

Lemma servePostgres_session_witness :
  (servePostgres (svc_Validate noon noon sample_service) (inr ∅) pg_server (λ _, None) (λ _, None) None pg_listener
    pg_client).1 ≠ Panic.
Proof.
  pose proof (@servePostgres_session plain_unicode (service_authenticator noon noon sample_service) (inr ∅) pg_server
    (λ _, None) (λ _, None) None pg_listener pg_client eq_refl eq_refl) as Hs.
  cbn [authenticate service_authenticator] in Hs.
  destruct (servePostgres _ _ _ _ _ _ _ _) as [r s']. apply Hs.
Defined.

(** ** The registry: a session up to its registration, and a cancel request for it *)
#[local] Instance sample_auth : Authenticator := service_authenticator noon noon sample_service.

Definition server_world : world := mkWorld pg_server (λ _, None) (λ _, None) None.
Definition session_key : gostring := Name pg_listener ++ key_data pg_hijacked.

(** Up to its registration, and after it. *)
Definition session_start : list (event pg_event) :=
  judged_trace 0 0 (lit "app") sample_token ++ [EvX (PgConnect sample_login)] ++
  (EvWrite true <$> login_messages pg_hijacked) ++ [EvX (PgRegister session_key (Upstream pg_listener))].
Definition session_rest : list (event pg_event) :=
  [EvDeadline false; EvX PgRelay; EvX (PgUnregister session_key); EvX PgBackendClose].

Lemma server_trace : session_trace (inr ∅) pg_listener server_world pg_client = session_start ++ session_rest.
Proof.
  pose proof (servePostgres_trace (svc_Validate noon noon sample_service) (inr ∅) pg_server (λ _, None) (λ _, None) None
    pg_listener pg_client 0 0 startup_params [] sample_token pg_client_runs) as Hrun.
  cbv zeta in Hrun. rewrite startup_user, service_accepts_app, sample_pg_login in Hrun.
  unfold pg_server in Hrun at 1. rewrite decide_True in Hrun by done. destruct Hrun as [_ Hrun].
  unfold session_trace. cbn [authenticate sample_auth service_authenticator server_world w_connect w_load w_dial w_cancel_write].
  rewrite Hrun. unfold session_start. change (trace pg_client) with ([] : list (event pg_event)).
  generalize (judged_trace 0 0 (lit "app") sample_token), (EvWrite (X := pg_event) true <$> login_messages pg_hijacked).
  intros a b. rewrite app_nil_l, <- !app_assoc. reflexivity.
Qed.

Definition alone (w : world) (todo : list (event pg_event)) : gmap nat session :=
  {[0%nat := mkSession pg_listener w pg_client todo]}.

Lemma alone_fresh reg w todo tr : fresh_keys (mkSystem reg (alone w todo) tr).
Proof.
  unfold alone. intros i j s t key Hi Hj _ _. cbn [sessions] in *.
  apply lookup_singleton_Some in Hi as [<- _]. by apply lookup_singleton_Some in Hj as [<- _].
Qed.

Definition looks (e : event pg_event) : bool := match e with EvX (PgLoad _ _) => true | _ => false end.

(** A session alone does its events. *)
Lemma alone_run w evs reg todo tr :
  reachable_fresh (inr ∅) [pg_listener] (mkSystem reg (alone w (evs ++ todo)) tr) → existsb looks evs = false →
  reachable_fresh (inr ∅) [pg_listener]
    (mkSystem (foldl (flip reg_apply) reg evs) (alone w todo) (tr ++ (pair 0%nat <$> evs))).
Proof.
  revert reg tr. induction evs as [|e evs IH]; intros reg tr Hr Hq; cbn [foldl fmap list_fmap app].
  - by rewrite app_nil_r.
  - cbn in Hq. apply orb_false_iff in Hq as [He Hq].
    change (tr ++ (0%nat, e) :: (pair 0%nat <$> evs)) with (tr ++ [(0%nat, e)] ++ (pair 0%nat <$> evs)).
    rewrite app_assoc. apply IH; [|done]. eapply rtc_r; [exact Hr|]. split; [|apply alone_fresh].
    assert (alone w (evs ++ todo) = <[0%nat := mkSession pg_listener w pg_client (evs ++ todo)]> (alone w ((e :: evs) ++ todo)))
      as -> by (unfold alone; by rewrite insert_singleton_eq).
    eapply sys_event; [unfold alone; apply lookup_singleton_eq|]. by destruct e as [| | |[]].
Qed.

Definition registered : system :=
  mkSystem (foldl (flip reg_apply) ∅ session_start) (alone server_world session_rest) (pair 0%nat <$> session_start).

Lemma registered_reachable : reachable_fresh (inr ∅) [pg_listener] registered.
Proof.
  apply (alone_run server_world session_start ∅ session_rest []); [|done].
  apply rtc_once. split; [|apply alone_fresh]. rewrite <- server_trace.
  apply (sys_accept _ _ ∅ ∅ [] 0%nat pg_listener server_world pg_client); [by left|done..].
Qed.

Lemma registered_entry : registry registered !! session_key = Some (Upstream pg_listener).
Proof.
  cbn [registry registered]. unfold session_start. rewrite !app_assoc, foldl_snoc. apply lookup_insert_eq.
Qed.

Lemma registry_exact_witness :
  ∃ i s, sessions registered !! i = Some s ∧ Upstream pg_listener = Upstream (s_listener s) ∧
    EvX (PgUnregister session_key) ∈ s_todo s.
Proof.
  destruct (proj1 (registry_exact (inr ∅) [pg_listener] registered session_key (Upstream pg_listener) registered_reachable)
    registered_entry) as (i & s & Hi & Hu & _ & Ht & _).
  by exists i, s.
Defined.

(** A cancel request in the clear, which finds the session. *)
Definition cancel_world : world := mkWorld pg_server (λ _, Some (Upstream pg_listener)) (λ _, None) None.
Definition canceller : hstate pg_event := mkH (cancel_message (key_data pg_hijacked)) io_EOF None false None [].
Definition cancel_start : list (event pg_event) :=
  [EvDeadline true; EvX (PgLoad session_key (Some (Upstream pg_listener))); EvX (PgDial (Upstream pg_listener))].
Definition cancel_rest : list (event pg_event) :=
  [EvX (PgDialWrite (cancel_message (key_data pg_hijacked))); EvX PgDialClose].

Lemma cancel_trace : session_trace (inr ∅) pg_listener cancel_world canceller = cancel_start ++ cancel_rest.
Proof. by vm_compute. Qed.

Definition cancel_session (todo : list (event pg_event)) : session := mkSession pg_listener cancel_world canceller todo.

Definition cancelling : system :=
  mkSystem (registry registered) (<[1%nat := cancel_session cancel_rest]> (sessions registered))
    (log registered ++ (pair 1%nat <$> cancel_start)).

Lemma cancelling_reachable : reachable (inr ∅) [pg_listener] cancelling.
Proof.
  eapply rtc_trans; [apply reachable_fresh_reachable, registered_reachable|].
  eapply rtc_l.
  { apply (sys_accept _ _ _ _ _ 1%nat pg_listener cancel_world canceller); [by left|done..]. }
  rewrite cancel_trace. unfold cancelling, cancel_start. cbn [app fmap list_fmap].
  eapply rtc_l; [eapply sys_event; [apply lookup_insert_eq|done]|]. rewrite insert_insert_eq.
  eapply rtc_l; [eapply sys_event; [apply lookup_insert_eq|symmetry; apply registered_entry]|]. rewrite insert_insert_eq.
  eapply rtc_l; [eapply sys_event; [apply lookup_insert_eq|done]|]. rewrite insert_insert_eq.
  rewrite <- !app_assoc. apply rtc_refl.
Qed.

Lemma cancel_isolated_witness :
  ∃ s raw j t, sessions cancelling !! 1%nat = Some s ∧ Upstream pg_listener = Upstream (s_listener s) ∧
    sessions cancelling !! j = Some t ∧ s_listener t = s_listener s ∧
    (j, EvX (PgRegister (Name (s_listener s) ++ raw) (Upstream pg_listener))) ∈ log cancelling.
Proof.
  destruct (cancel_isolated (inr ∅) [pg_listener] cancelling 1 (Upstream pg_listener)
    (log registered ++ [(1%nat, EvDeadline true); (1%nat, EvX (PgLoad session_key (Some (Upstream pg_listener))))]) []
    (NoDup_singleton _) cancelling_reachable) as (s & raw & tr0 & tr0' & j & t & Hs & Hu & _ & Htr & Ht & Hl & Hreg & _).
  { cbn [log cancelling]. by rewrite <- app_assoc. }
  exists s, raw, j, t. split_and!; [done..|]. cbn [log cancelling]. apply elem_of_app. left.
  assert ((j, EvX (PgRegister (Name (s_listener s) ++ raw) (Upstream pg_listener))) ∈
    log registered ++ [(1%nat, EvDeadline true); (1%nat, EvX (PgLoad session_key (Some (Upstream pg_listener))))]) as Hin
    by (rewrite Htr; set_solver).
  apply elem_of_app in Hin as [Hin|Hin]; [done|]. by apply list_elem_of_In in Hin as [|[|[]]].
Defined.
