(* ===== verification/SystemWitnesses.v ===== *)
(** * Concrete instances of the theorems about the composed system

    Relays, the running emulator, copies of a configuration, and the command, at
    small concrete runs: the hypotheses of the theorems hold there. *)
From stdpp Require Import relations.
From S2P Require Import Prelude Steps Wire GoStrings Conn NetAddr Sha256 Rsa UrlLib Config ConfigSpec Clone Identity IdentitySpec Aws AwsSpec ServiceSpec HttpMock HttpMockSpec Server ServerSpec Lifecycle LifecycleSpec ConfigFile MySQL MySQLSpec MySQLSession Relay RelaySpec EndToEnd FakeDB FakeDBSpec Witnesses.
#[local] Open Scope Z_scope.
#[local] Existing Instance plain_unicode.

(** ** A relay whose client says one thing and closes *)
Definition hello : list byte := lit "hello".

(** [ua], [ca]: what was not read of it yet, and whether the client has closed;
    [w]: what the backend got. *)
Definition hello_state (ua : list byte) (ca : bool) w (q : copying) : relay :=
  mkRelaying (mkConn ua hello [] ca false true false) (mkConn [] [] w false false true false)
    (Running CRead) (Running q) 0 WFirst.
Definition hello_end : relay := hello_state [] true [(T2, hello)] (CEnd true).

Lemma hello_reachable : relay_reachable hello_end.
Proof.
  apply (rtc_l _ _ (hello_state hello false [] CRead)).
  { right. by apply env_a, (peer_sends hello). }
  apply (rtc_l _ _ (hello_state [] false [] (CWrite hello))).
  { left. apply go_2, copy_read. by apply (read_eq _ _ 5); [|unfold copy_buffer; lia|vm_compute; lia| |]. }
  apply (rtc_l _ _ (hello_state [] false [(T2, hello)] CRead)).
  { left. by apply go_2, (copy_write _ _ _ _ true), write_ok. }
  apply (rtc_l _ _ (hello_state [] true [(T2, hello)] CRead)).
  { right. by apply env_a, (peer_closes (mkConn [] hello [] false false true false)). }
  apply rtc_once. left. by apply go_2, copy_eof, read_eof.
Qed.

Lemma relay_ends_witness : inevitably relay_go returned_clean hello_end.
Proof. apply (proj1 relay_ends); [apply hello_reachable|]. right; left. reflexivity. Defined.

Lemma relay_carries_witness : received (conn_b hello_end) = hello ∧ received (conn_a hello_end) `prefix_of` [].
Proof.
  destruct (relay_carries hello_end hello_reachable) as [[H1 _] [_ H2]].
  split; [by destruct (H2 eq_refl)|exact H1].
Defined.

(** ** A MySQL relay whose client pings and closes *)
Definition ping : list byte := packet NUL [byte_of 14].
Definition ping_state (ua : list byte) (ca : bool) w (q : forwarding) : myRelay :=
  mkRelaying (mkConn ua ping [] ca false true false) (mkConn [] [] w false false true false)
    (Running CRead) (Running q) 0 WFirst.
Definition ping_head : list byte := my_header NUL [byte_of 14].
Definition ping_end : myRelay := ping_state [] true [(T2, ping_head); (T2, [byte_of 14])] (FEnd true).

Lemma ping_reachable : relay_reachable ping_end.
Proof.
  apply (rtc_l _ _ (ping_state ping false [] (FHead []))).
  { right. by apply env_a, (peer_sends ping). }
  apply (rtc_l _ _ (ping_state [byte_of 14] false [] (FBody ping_head []))).
  { left. apply go_2. eapply forward_eq; [|apply (fwd_head _ _ _ [] ping_head)];
      [by vm_compute|by apply (read_eq _ _ 4); [|cbn; lia|vm_compute; lia| |]]. }
  apply (rtc_l _ _ (ping_state [] false [] (FBackHead ping_head [byte_of 14]))).
  { left. apply go_2. eapply forward_eq; [|apply (fwd_body _ _ _ ping_head [] [byte_of 14])]; [by vm_compute|].
    assert (body_wants ping_head [] = 1%nat) as -> by (by vm_compute).
    by apply (read_eq _ _ 1); [|lia|cbn; lia| |]. }
  apply (rtc_l _ _ (ping_state [] false [(T2, ping_head)] (FBackBody [byte_of 14]))).
  { left. by apply go_2, (fwd_back_head _ _ _ _ _ true), write_ok. }
  apply (rtc_l _ _ (ping_state [] false [(T2, ping_head); (T2, [byte_of 14])] (FHead []))).
  { left. by apply go_2, (fwd_back_body _ _ _ _ true), write_ok. }
  apply (rtc_l _ _ (ping_state [] true [(T2, ping_head); (T2, [byte_of 14])] (FHead []))).
  { right. by apply env_a, (peer_closes (mkConn [] ping [] false false true false)). }
  apply rtc_once. left. by apply go_2, fwd_head_eof, read_eof.
Qed.

Lemma myRelay_carries_witness :
  ∃ pkts tail, ping = stream pkts ++ tail ∧ relay_packet tail = None ∧ received (conn_b ping_end) = forwarded pkts.
Proof.
  destruct (myRelay_carries ping_end ping_reachable) as (backend & own & pkts & answers & half & tail & _ & _ & Hsent & _ & Hend & _).
  destruct (Hend eq_refl) as [Ht Hout]. exists pkts, tail. split; [exact Hsent|]. split; [exact Ht|exact Hout].
Defined.

(** The backend behind it is the fake server. *)
Definition backend_state : hstate fake_event := mkH (received (conn_b ping_end)) io_EOF None false None [].
Definition fake_server : FakeDB.Server := FakeDB.mkServer (lit "backend") (lit "backend-password") false [] [] [].

Lemma proxied_commands_witness :
  ∃ pkts tail, ping = stream pkts ++ tail ∧ relay_packet tail = None ∧
    trace (fake_session fake_server 0 backend_state).2 =
      writes backend_state (answers fake_server 0 (filter (λ p, ¬ change_user p) pkts)).
Proof.
  exact (proxied_commands fake_server 0 ping_end backend_state ping_reachable eq_refl eq_refl eq_refl eq_refl).
Defined.

(** ** The emulator *)
Definition started : emulating := serve sample_config sample_options.
Definition cancelled_at_once : emulating := mkEmulating true (listeners_of started) (Lifecycle.servers started) WaitContext.

Lemma emulator_stops_witness : inevitably emulator_go stopped cancelled_at_once.
Proof.
  apply (emulator_stops sample_config sample_options); [|reflexivity].
  apply rtc_once. right. exact (env_cancel false (listeners_of started) (Lifecycle.servers started) WaitContext).
Defined.

(** A dial of the first in-memory listener that waits for its accept loop. *)
Definition dialing : listening := mkListening true false {[0%nat]} accept_init ∅.

Lemma dialing_reachable :
  emulator_reachable sample_config sample_options
    (mkEmulating false (<[3%nat := dialing]> (listeners_of started)) (Lifecycle.servers started) WaitContext).
Proof.
  apply rtc_once. right.
  apply (env_listener false (listeners_of started) (Lifecycle.servers started) WaitContext 3 (newListening true)); [done|].
  exact (listener_arrives false true false ∅ accept_init 0%nat ∅ (not_elem_of_empty _) (lookup_empty _) (lookup_empty _)).
Qed.

Lemma dials_answered_witness : Lifecycle.dialed dialing !! 0%nat = None ∧ loop (accepting dialing) ≠ Returned.
Proof.
  destruct (dials_answered sample_config sample_options _ 3 dialing 0 dialing_reachable eq_refl) as (_ & _ & Hq & _).
  destruct Hq as [Hn Hl]; [exact (proj2 (elem_of_singleton (0%nat : nat) 0%nat) eq_refl : 0%nat ∈ queue dialing)|]. split; [exact Hn|by apply Hl].
Defined.

(** ** Copies of a configuration

    A principal whose groups and grants are two halves of one array. *)
Definition shared_store : store :=
  mkStore {[0%nat := [lit "dba"; lit "pg"; lit "my"]]} {[0%nat := [pg_listener; my_listener]]}
    {[0%nat := [mkStored alice (Some (0, 0, 1)%nat) (Some (0, 1, 2)%nat)]]} 1.
Definition shared_config : config_ref := mkRef sample_config (Some (0, 0, 2)%nat) (Some (0, 0, 1)%nat).

Lemma clone_independent_witness :
  ∃ d h', clone shared_store shared_config = Ok (d, h') ∧ read_config h' d = read_config shared_store shared_config.
Proof.
  destruct (clone_independent shared_store shared_config) as (d & h' & Hrun & Hread & _).
  { split; cbn; [lia..|]. repeat constructor; cbn; lia. }
  exists d, h'. split; [exact Hrun|exact Hread].
Defined.

(** ** The command *)
Definition tls_sample : Config :=
  mkConfig [] [] (lit "http://127.0.0.1:8090") (lit "cert.pem") (lit "key.pem")
    [pg_listener; my_listener; az_listener] [alice].
Definition sample_file : gostring := lit "tls_cert: cert.pem".
Definition sample_decode (b : gostring) : res Config := if bool_decide (b = sample_file) then Ok tls_sample else Err io_EOF.
Definition sample_read (path : gostring) : res gostring :=
  if bool_decide (path = lit "config.yaml") then Ok sample_file else Err (Errorf "no such file" []).
Definition sample_command (path : gostring) : command_result :=
  command sample_decode (λ _, Some io_EOF) sample_read sample_platform path false.
Definition is_serving (r : command_result) : bool := match r with Serving _ => true | _ => false end.

Lemma command_serves_witness :
  is_serving (sample_command (lit "config.yaml")) = true ∧ WellFormed (with_default tls_sample).
Proof.
  assert (is_serving (sample_command (lit "config.yaml")) = true) as Hs by (by vm_compute).
  split; [exact Hs|]. destruct (sample_command (lit "config.yaml")) as [| |e|] eqn:He; [discriminate Hs..| |discriminate Hs].
  destruct (command_serves sample_decode (λ _, Some io_EOF) sample_read sample_platform _ _ e He)
    as (_ & b & c0 & extra & Hb & Hd & _ & _ & Hwf & _).
  assert (b = sample_file) as -> by (by injection Hb as <-). 
  assert (c0 = tls_sample) as -> by (by injection Hd as <-). exact Hwf.
Defined.

(** ** A login from the refresh token to the upstream *)
Definition sample_history : list (env * request) := [(an_env [], refresh_request)].
Definition refreshed : service := h_s (serve_all (HTTPHandler (newService sample_config sample_key)) sample_history).
Definition sample_session : list (event my_event) :=
  trace (MySQL.serveMySQL (svc_Validate noon noon refreshed) (λ _, Some []) [] (Some my_salt) my_listener my_client).2.
Definition connected (e : event my_event) : option myLogin :=
  match e with EvX (MyConnect lg) => Some lg | _ => None end.

Lemma upstream_login_entitled_witness :
  ∃ lg p h, EvX (MyConnect lg) ∈ sample_session ∧ ml_user lg = lit "backend" ∧ BackendUser p = ml_user lg ∧
    entitled sample_config sample_history noon noon refreshed my_listener (hs_user h) (hs_password h) p.
Proof.
  assert (∃ lg, lg ∈ omap connected sample_session ∧ ml_user lg = lit "backend") as (lg & Hlg & Hu).
  { assert (ml_user <$> omap connected sample_session = [lit "backend"]) as Hc by (by vm_compute).
    destruct (omap connected sample_session) as [|lg [|]]; try discriminate Hc. injection Hc as Hc.
    exists lg. split; [by left|exact Hc]. }
  apply list_elem_of_omap in Hlg as (e & He & Hx).
  assert (e = EvX (MyConnect lg)) as -> by (destruct e as [| | |[]]; try discriminate Hx; by injection Hx as ->).
  destruct (upstream_login_entitled sample_config sample_key sample_history noon noon my_listener sample_wf) as [Hmy _].
  destruct (Hmy (λ _, Some []) [] (Some my_salt) my_client eq_refl eq_refl) as [Hc _].
  destruct (Hc lg He) as (p & h & _ & Hent & ->).
  exists (my_login my_listener p h), p, h. split; [exact He|]. split; [exact Hu|]. split; [reflexivity|exact Hent].
Defined.
