(* ===== verification/HarnessWitnesses.v ===== *)
(** * Concrete runs of the end-to-end harness

    A scenario of two files that starts two databases and the proxy: the hypotheses
    of the harness's theorems hold there; what happens when the proxy exits before it
    is ready, and when [docker run] fails after the container was made. *)
From stdpp Require Import relations.
From S2P Require Import Prelude GoStrings NetAddr Rsa Config ConfigSpec Identity IdentitySpec Aws AwsSpec ServiceSpec Scenario Harness HarnessSpec HarnessLogin Witnesses.
#[local] Open Scope Z_scope.
#[local] Existing Instance plain_unicode.

(** ** The scenario *)
Definition main_star : gostring := lit "s/a.star".
Definition db_star : gostring := lit "s/db.star".

Definition a_docker (seq : Z) (port : gostring) : docker_answers :=
  mkDocker seq (λ _, Ok []) false [Err (Errorf "no such container" []); Ok (lit "127.0.0.1:" ++ port ++ [byte_of 10])] [λ _, false; λ _, true].
Definition a_proxy (health : list health) : proxy_answers :=
  mkAnswers (Ok tt) (λ i, Ok (lit "127.0.0.1:" ++ itoa (9000 + Z.of_nat i))) (Ok tt) (λ _, Ok tt) (Ok tt) (Ok tt) (Ok tt) (Ok tt) health.

Definition a_program (health : list health) (path : gostring) : res (script (G := unit)) :=
  if bool_decide (path = main_star) then
    Ok (Load (lit "db.star") (λ _, Do (StartProxy (a_proxy health)) (λ v,
      match v with VDict _ => Globals tt | _ => Fails (Errorf "not a dict" []) end)))
  else if bool_decide (path = db_star) then
    Ok (Do (Database (lit "postgres") (a_docker 1 (lit "5433"))) (λ _,
        Do (Database (lit "mysql") (a_docker 2 (lit "3307"))) (λ _, Globals tt)))
  else Err (Errorf "no such file" []).
Definition an_outside (health : list health) : outside :=
  mkOutside (a_program health) (Ok (lit "/tmp/e2e")) (λ _, None) None [lit "PATH=/bin"].
Definition star_files : gset gostring := {[main_star; db_star]}.
Definition no_options : Options := mkHarnessOptions [] [] 0.
Definition a_run (health : list health) : option (res unit * Harness) :=
  RunFile no_options 7 4 main_star (an_outside health) (New [lit "PATH=/bin"]).

Lemma a_program_sane health : sane star_files (an_outside health).
Proof.
  split; cbn; unfold a_program, star_files.
  - intros p l. repeat case_bool_decide; subst; intros; [set_solver..|done].
  - intros p. by repeat case_bool_decide.
  - intros p s. repeat case_bool_decide; [| |done]; intros [= <-]; cbn; intros.
    + split; [by split; [|split; [|repeat constructor]]|]. by intros [].
    + by repeat split.
Qed.

(** The containers are removed in the reverse order, after the proxy. *)
Definition pg_container : gostring := lit "iam-proxy-e2e-7-1-postgres".
Definition my_container : gostring := lit "iam-proxy-e2e-7-2-mysql".

Lemma RunFile_returns : is_Some (a_run [Neither; Healthy]).
Proof.
  assert ((if a_run [Neither; Healthy] is Some _ then true else false) = true) as Hr by (by vm_compute).
  destruct (a_run [Neither; Healthy]); [by eexists|discriminate Hr].
Qed.

Lemma RunFile_cleans_witness :
  ∃ r h, a_run [Neither; Healthy] = Some (r, h) ∧ is_Ok r = true ∧ proxy h = None ∧
    actions h = [ContainerStarted pg_container; ContainerStarted my_container; ProxyStarted; ProxyStopped;
                 ContainerRemoved my_container; ContainerRemoved pg_container; RootRemoved (lit "/tmp/e2e")].
Proof.
  destruct RunFile_returns as [[r h] Hrun]. exists r, h. split; [exact Hrun|].
  pose proof (RunFile_cleans no_options 7 star_files 4 main_star (an_outside [Neither; Healthy]) (lit "/tmp/e2e")
    (a_program_sane _)) as Hthm.
  assert (size star_files + 1 < 4)%nat as Hfuel by (by apply (bool_decide_eq_true_1 _); vm_compute).
  specialize (Hthm Hfuel eq_refl). assert (lit "/tmp/e2e" ≠ []) as Hne by discriminate. specialize (Hthm Hne).
  assert (actions (harness (executed no_options 7 4 main_star (an_outside [Neither; Healthy]) (lit "/tmp/e2e")).2) =
    [ContainerStarted pg_container; ContainerStarted my_container; ProxyStarted]) as Ha by (by vm_compute).
  assert ((executed no_options 7 4 main_star (an_outside [Neither; Healthy]) (lit "/tmp/e2e")).1 = Ok tt) as Hr by (by vm_compute).
  destruct (executed _ _ _ _ _ _) as [r0 st]. cbn in Ha, Hr.
  destruct Hthm as (_ & _ & _ & Hsome & _). destruct (Hsome r h Hrun) as (Hp & _ & Hok & Hclean).
  rewrite Ha in Hok, Hclean. assert (is_Ok r = true) as Hrok.
  { apply Hok. split; [by rewrite Hr|]. intros [[e He]|(n & _ & e & He)]; discriminate. }
  split; [exact Hrok|]. split; [exact Hp|]. destruct (Hclean Hrok) as [_ Hact]. exact Hact.
Defined.

(** A [docker run] that is killed at its timeout after the daemon made the container:
    the run fails and the container stays. *)
Definition late_docker : docker_answers := mkDocker 1 (λ _, Err (Errorf "signal: killed" [])) true [] [].
Definition late_outside : outside :=
  mkOutside (λ _, Ok (Do (Database (lit "postgres") late_docker) (λ _, Globals tt))) (Ok (lit "/tmp/e2e")) (λ _, None) None [].

Lemma container_left_behind :
  ∃ e h, RunFile no_options 7 4 main_star late_outside (New []) = Some (Err e, h) ∧
    actions h = [ContainerLeft pg_container; RootRemoved (lit "/tmp/e2e")].
Proof. eexists _, _. split; [by vm_compute|]. by vm_compute. Qed.

(** The proxy exits while the harness waits for it: [startProxy] receives its exit,
    and [close] waits for it again, forever. *)
Lemma proxy_exit_hangs : a_run [Neither; Exited] = None.
Proof. by vm_compute. Qed.

(** ** What its check says *)
Definition star_read (path : gostring) : res gostring :=
  if bool_decide (path = main_star) then Ok (lit "load") else if bool_decide (path = db_star) then Ok [] else Err (Errorf "no such file" []).
Definition star_parse (known : gostring → bool) (path src : gostring) : res (list gostring) :=
  if known (lit "start_proxy") then Ok (if empty src then [] else [lit "db.star"]) else Err (Errorf "undefined" []).

Lemma Check_decides_witness : Check star_read star_parse 3 main_star = Ok tt ∧ good star_read star_parse main_star.
Proof.
  assert (Check star_read star_parse 3 main_star = Ok tt) as Hc by (by vm_compute). split; [exact Hc|].
  assert (size star_files < 3)%nat as Hfuel by (by apply (bool_decide_eq_true_1 _); vm_compute).
  assert (∀ p src, star_read p = Ok src → p ∈ star_files) as Hfiles.
  { unfold star_read, star_files. intros p src. repeat case_bool_decide; subst; intros; [set_solver..|done]. }
  assert (∀ p, program star_read star_parse p ≠ Panic) as Hprog.
  { intros p. unfold program, star_read, star_parse. by repeat case_bool_decide. }
  pose proof (Check_decides star_read star_parse star_files Hfiles Hprog main_star 3 Hfuel) as [[Hthm _] _].
  apply (Hthm Hc). apply rtc_refl.
Defined.

(** ** A login through the proxy it starts *)
Definition two_databases : Harness :=
  with_root (lit "/tmp/e2e") (with_database mysql (lit "127.0.0.1:3307") (with_database postgres (lit "127.0.0.1:5433") (New []))).
Definition free_port (i : Z) : gostring := local_port (itoa (9000 + i)).
Definition proxy_ports : list gostring := free_port <$> [2; 3; 4; 5; 6; 7].
Definition a_config : Config := written_config two_databases (free_port 0) (free_port 1) proxy_ports.

(** The emulator of this configuration, after alice got a Google token. *)
Definition with_token : service := (googleIssue [] noon Harness.alice googleSQLScope (newService a_config sample_key)).2.

Lemma a_proxy_ready : ready two_databases (a_proxy [Healthy]) (free_port 0) (free_port 1) proxy_ports.
Proof.
  split; [reflexivity|]. split; [by split; vm_compute|]. split; [reflexivity|]. split; [|split].
  - apply (bool_decide_eq_true_1 _). by vm_compute.
  - repeat constructor; (eexists; split; [reflexivity|]; by vm_compute).
  - split.
    + intros i addr. do 8 (destruct i as [|i]; [by intros [= <-]; vm_compute|]). done.
    + done.
    + repeat constructor.
    + by exists 0%nat, [].
Qed.

Lemma harness_logins_witness :
  ∃ l, l ∈ Listeners a_config ∧ Provider l = google ∧
    svc_Validate noon noon with_token l (lit "alice@example.com") (google_token []) = Ok Harness.alice.
Proof.
  destruct (harness_logins two_databases (a_proxy [Healthy]) _ _ _ a_proxy_ready) as (_ & h' & _ & _ & Hthm).
  assert ((google, postgres) ∈ profiles) as Hp by (apply (bool_decide_eq_true_1 _); by vm_compute).
  destruct (Hthm google postgres Hp) as (l & Hl & Hpr & _ & _ & _ & _ & Hlogin).
  exists l. split; [exact Hl|]. split; [exact Hpr|].
  apply (Hlogin with_token noon noon (google_token [])); [reflexivity|].
  split; [intros Ha; rewrite Hpr in Ha; discriminate Ha|]. split; [|intros Ha; rewrite Hpr in Ha; discriminate Ha].
  intros _. exists (mkToken (ID Harness.alice) googleSQLScope (noon + Hour)).
  split; [unfold with_token, googleIssue; cbn; by rewrite lookup_insert_eq|]. split; [by vm_compute|].
  split; [left; apply (bool_decide_eq_true_1 _); by vm_compute|reflexivity].
Defined.
